(* ===== verification/_CoqProject ===== *)
-Q . S2P
Prelude.v
Types.v
Machine.v
Lists.v
Network.v
Protocol.v
Client.v
Session.v
Connection.v
Sample.v
Packet.v
Commands.v
Messages.v
Queries.v
Listings.v
Subscriptions.v
Kept.v
Process.v
Delivery.v
Program.v
Typing.v
Specified.v
Pool.v
Simple.v
Subscribers.v
Served.v
Benchmark.v
Load.v
Threads.v
Run.v
Schedule.v
Concurrent.v
Robust.v
Together.v
