(* ===== verification/Prelude.v ===== *)
(** * libemq, the client library of EagleMQ: a verification development

    libemq (src/src) is a C client of the EagleMQ message broker: it connects by TCP or a Unix
    socket, sends requests in a packed binary protocol, checks the replies, and dispatches the
    messages of subscriptions to callbacks. This library models the C code operation by operation
    on an abstract machine, gives every operation a specification on sessions that mentions
    neither memory nor kernel events, and proves that the code implements it. On top of it stand
    the example programs and the benchmark of the repository.

    ** The model of C

    - [Prelude] (this file): automation, bytes, machine integers, C strings, lists. The target is
      LP64 and little endian. An integer of C is a [Z]; every conversion that can change it is
      written out ([u8], [u16], [u32], [u64], [i32]), and so is the signed arithmetic of the
      programs that can overflow ([Benchmark.arith], [Subscribers.increment]).
    - [Types]: the constants and structures of emq.h and the private ones of emq.c.
    - [Machine]: the process. The heap maps locations to typed blocks; a byte of a buffer may be
      uninitialised. An [outcome] is a result, a fault, waiting for the peer for ever, or the end
      of the fuel. The faults are the undefined behaviours that occur: null, dangling and
      ill-typed pointers, accesses out of bounds, uninitialised reads, signed overflow, division
      by zero. What the environment does is scripted in the state: the fate of the next
      allocations, the results of the next calls of the system, and for each socket the
      pieces in which the peer's bytes arrive and the numbers of bytes that writes accept. Every
      theorem is for all scripts, so for every behaviour of the kernel and of the peer.

    ** The library

    - [Lists]: the doubly linked lists of emq.c with their free handlers; a well-formed list
      represents a functional list ([dlist]); adding, deleting a node anywhere, traversal,
      release.
    - [Network]: network.c. Creating and connecting sockets, with [inet_aton] of the C library as
      a function and [gethostbyname] as a scripted call; the loops that read and write. The
      read loop is a function of the stream of bytes alone ([client_read_exact]).
    - [Protocol]: protocol.h. The codes and the layouts of the 49 packed structures, as lists of
      field types, with encoding and its inverse.
    - [Client], [Connection]: the client object of emq.c, its creation, connection, error text
      and release.
    - [Session]: the abstract level. A [session] is the status, the error text, the mode without
      acknowledgement, the two lists of subscriptions, the bytes to come and the bytes sent; a
      specification is a function from sessions to an [answer]: a result and a new session,
      [Starved] when it waits for bytes that never come, or [Unspecified]. [rep] relates a session
      to the memory of a client, beside a [frame] of everything else in the process; [simulates]
      and [refines] say that a C function does what its specification says, keeps the relation
      and leaves the frame as it was or as stated. [Unspecified] appears where the code is
      undefined, because the peer breaks the protocol (a record that is cut off, a size that is
      no [int]) or because of a defect of the code that is stated below, and where a callback
      breaks its contract.
    - [Packet]: packet.c. The 43 request functions against a reference encoder of the calls
      ([api_call]); a peer that reads what such a function leaves in the buffer by the structures of
      protocol.h recovers its arguments ([request_decodes]).
    - [Commands]: the 22 operations that are acknowledged by an empty reply. One specification,
      [s_command], for all of them; its success, rejection and noack cases in closed form.
    - [Queries], [Messages], [Listings]: the operations answered by a word, a structure, a message
      or records. [Listings] is written against the interface [WireRecord] of the five records.
    - [Subscriptions]: subscribing and unsubscribing, against the interface [Slot] of the two
      subscription lists.
    - [Kept]: a relation on sessions that the primitive steps of specifications respect is
      respected by every operation ([Kept]): the stream of the server only shrinks, memory that
      does not run out goes on not to, the fields of the client keep their types.
    - [Process]: emq_process and its dispatch, against the class [Callbacks] of callbacks with a
      state of their own, which they keep in memory where [place] says.
    - [Delivery]: from the client that sends a message to the one that receives it.
    - [Typing], [Specified]: the states that a program can bring about by calling the library
      ([reachable]): the types of the fields of the client, and the calls that are defined there.
    - [Sample]: small concrete states for the executions that show hypotheses to be satisfiable.

    ** The programs

    - [Program]: computations that print, exit and leak; their specifications count the leaked
      blocks; any program that meets its specification on a connected client does so from connect
      to disconnect ([connection_lifecycle]).
    - [Simple]: examples/simple.c, the whole program.
    - [Subscribers]: examples/queue-subscribe.c and examples/channel-subscribe.c: callbacks that
      print and count in static memory, as an instance of [Callbacks]; the conversations of main;
      the workers.
    - [Served]: these programs with a server that replies to their commands and then sends whole
      event messages: the stream it sends ([served]), and that every step copes with it.
    - [Benchmark], [Load], [Threads], [Run]: benchmark.c: the command line, the message, the
      statistics; the conversations with the server; the table of threads; main, its threads one
      after the other.
    - [Pool]: several clients in one process; a separating conjunction of what they own.
    - [Schedule]: threads, cut into steps at the calls of their programs, and the turns that they
      take in any order; the rules for threads that work on what they own. A connection to a host
      name takes two turns: [gethostbyname] returns a static object, so that a process in which a
      thread enters it while another one is inside races ([Races]); processes that cannot
      ([serial]).
    - [Concurrent], [Robust]: benchmark.c with its workers as threads, under every schedule: with a
      server that accepts, and with servers that do anything.
    - [Together]: the subscribing programs with their workers as threads, under every schedule;
      emq_process takes a turn for each event.

    ** What the theorems show

    - Refinement ([command_refines], [fetch_refines], [push_refines], [listing_refines],
      [query_refines], [subscribe_refines], [unsubscribe_refines], [process_refines],
      [simple_completes], [server_prepared]): on every branch, errors and failed allocations
      included, a function returns what its specification says, the memory represents the new
      session, and every block it leaks is accounted for. They include that the code is never
      undefined and that it terminates, or waits for the peer exactly when the specification
      says so. Where a specification may be [Unspecified], the theorem or [calls_defined] says when
      it is not.
    - What the specifications mean ([command_success], [command_no_false_success],
      [command_rejected], [fetch_success], [listing_success], [query_success],
      [unsubscribe_success], [process_queue_message], [process_channel_message]): the bytes sent,
      the bytes consumed, the result, for concrete replies of a server.
    - Across clients ([queue_message_travels], [channel_message_travels]): the message that one
      client sends is the one that another receives, when the server forwards its bytes.
    - Whole histories of a client ([client_type_safety], [calls_defined]): after any calls, with
      any replies, the object is well typed and the next call is defined, for most operations
      whatever the server answers, for emq_process with whole messages that the callbacks cope
      with.
    - The wire ([request_encodes], [request_accepts], [request_framing], [request_decodes]).
    - Life cycle ([connect_total], [disconnect_releases], [connection_lifecycle],
      [subscribers_finish], [workers_restore], [worker_pushes]): memory and sockets at the end.
    - The benchmark ([parse_args_described], [command_line_parses], [message_generated],
      [statistics_reported], [threads_joined], [server_prepared], and [benchmark_completes] for
      main as a whole).
    - Concurrency ([clients_independent], [benchmark_every_schedule],
      [benchmark_never_undefined], [subscribers_every_schedule]): clients in one process do not
      disturb each other; the benchmark ends in the same way under every schedule with a server
      that accepts; no thread of it is ever undefined by itself, whatever the servers do, and none
      of the subscribing programs if the server of main sends whole messages, as long as memory and
      system calls do not fail and, for the benchmark, the configuration is [runnable]. The
      benchmark races in gethostbyname only when several workers connect to a host by its name
      ([racy]), and then it may ([benchmark_may_race]); the queue program does not, the two workers
      of the channel program may ([channel_workers_may_race]).
    - Defects of the code, each with an execution that shows it ([punsubscribe_rejects],
      [read_message_tag_crash], [client_init_use_after_free], [create_socket_leaks],
      [msg_copy_unreleasable], [process_unknown], [pop_use_after_release], [basic_uninitialised],
      [worker_null_message], [message_size_negative]).

    ** Fuel

    Loops over lists take one more unit of fuel than the list has nodes ([loop_fuel]); the loops
    of network.c take the length of the script of their socket, which every iteration shortens;
    emq_process takes one more than the bytes of the stream ([run_process]), since every
    event has at least a header. [OutOfFuel] is not among the outcomes that a refinement allows,
    so the theorems prove that the fuel is enough.

    ** Choices of the model

    Results that the C code stores through a pointer argument (emq_stat, emq_client_read) are
    returned as values. Callbacks receive names, topics and patterns by their contents. A callback
    pointer is an identifier. A list of characters stands for a [const char *] argument, which the
    library only reads. The output of a program is the list of its calls of printf; a
    callback, which the library calls, prints to a stream in memory that its program takes over
    ([Subscribers.printing]). Floats received from the server are
    copied and never interpreted; those of the benchmark are computed in the IEEE formats.
    Numbers of rand, the results of gettimeofday, pthread_create and pthread_join are arguments.
    What gethostbyname finds is not kept, since nothing the model says depends on an address.

    ** Not modelled

    The prototypes of emq.h, packet.h and network.h; the build files and the documentation; sleep,
    which changes nothing. Threads that interrupt each other inside of a turn, which is a whole call
    of the library, or an event of emq_process with the callback that it runs: these touch the
    blocks and the socket of their own client ([Pool.beside_client]), the message of the event and
    variables of main alone, and the other functions of the C library that the programs use while
    several threads run are safe for threads (strerror, which is not, is reached only when a call of
    the system fails, which the theorems on schedules exclude). What remains is gethostbyname, for
    which the model counts who is inside. The beginning of main of benchmark.c, before the first
    worker, and its end, after all workers have ended, are one turn each. Which events a server sends after which push is up to the server,
    which is no part of the repository: the bytes that come to a socket are arbitrary, and do not
    depend on those written to another. *)

From Stdlib Require Import ZArith Lia.
From coqutil Require Import Byte Word.LittleEndianList.
From stdpp Require Export base gmap strings list fin_maps.

#[global] Open Scope Z_scope.

(** ** Automation shared by the whole development *)

Create HintDb emq.
Create Rewrite HintDb emq.

(** [split_and_solve]: the closing tactic of the components' proofs. *)
Ltac split_and_solve := repeat split; eauto with emq; try done; try lia.

(** [invc H]: inversion followed by substitution. *)
Ltac invc H := inversion H; clear H; simplify_eq.

(** [deex]: opens the existentials and conjunctions of the hypotheses. *)
Ltac deex :=
  repeat match goal with
  | H : ∃ x, _ |- _ => let y := fresh x in destruct H as [y H]
  | H : _ ∧ _ |- _ => destruct H
  end.

(** ** Bytes *)

Abbreviation byte := Init.Byte.byte.

#[export] Instance byte_eq_dec : EqDecision byte := Byte.byte_eq_dec.
#[export] Instance byte_inhabited : Inhabited byte := populate Byte.x00.

(** The character '\0'. *)
Definition NUL : byte := Byte.x00.

(** ** Machine integers

    A [w]-bit unsigned integer is a [Z] in [[0, 2^w)]; a conversion in the C code is one of
    these functions.  The target is LP64 and little endian: [int] has 32 bits, [size_t]
    64 bits. *)

Definition u8 (z : Z) : Z := z mod 2 ^ 8.
Definition u16 (z : Z) : Z := z mod 2 ^ 16.
Definition u32 (z : Z) : Z := z mod 2 ^ 32.
Definition u64 (z : Z) : Z := z mod 2 ^ 64.

(** Conversion to [int]: two's complement of the low 32 bits. *)
Definition i32 (z : Z) : Z := (z + 2 ^ 31) mod 2 ^ 32 - 2 ^ 31.

Lemma u8_small z : 0 ≤ z < 2 ^ 8 → u8 z = z.
Proof. apply Z.mod_small. Qed.
Lemma u16_small z : 0 ≤ z < 2 ^ 16 → u16 z = z.
Proof. apply Z.mod_small. Qed.
Lemma u32_small z : 0 ≤ z < 2 ^ 32 → u32 z = z.
Proof. apply Z.mod_small. Qed.
Lemma u64_small z : 0 ≤ z < 2 ^ 64 → u64 z = z.
Proof. apply Z.mod_small. Qed.
Lemma i32_small z : - 2 ^ 31 ≤ z < 2 ^ 31 → i32 z = z.
Proof. intros H. unfold i32. rewrite Z.mod_small; lia. Qed.

Lemma u8_range z : 0 ≤ u8 z < 2 ^ 8.
Proof. by apply Z.mod_pos_bound. Qed.
Lemma u32_range z : 0 ≤ u32 z < 2 ^ 32.
Proof. by apply Z.mod_pos_bound. Qed.
Lemma u64_range z : 0 ≤ u64 z < 2 ^ 64.
Proof. by apply Z.mod_pos_bound. Qed.
Lemma i32_large z : 2 ^ 31 ≤ z < 2 ^ 32 → i32 z = z - 2 ^ 32.
Proof.
  intros H. unfold i32. replace (z + 2 ^ 31) with ((z - 2 ^ 31) + 1 * 2 ^ 32) by lia.
  rewrite Z.mod_add, Z.mod_small; lia.
Qed.
Lemma i32_range z : - 2 ^ 31 ≤ i32 z < 2 ^ 31.
Proof. unfold i32. pose proof (Z.mod_pos_bound (z + 2 ^ 31) (2 ^ 32)). lia. Qed.

#[export] Hint Resolve u8_range u32_range u64_range i32_range : emq.
#[export] Hint Rewrite u8_small u16_small u32_small u64_small i32_small using lia : emq.

(** ** Little-endian memory representation of an integer field *)

Definition le_bytes (n : nat) (z : Z) : list byte := LittleEndianList.le_split n z.
Definition le_value (bs : list byte) : Z := LittleEndianList.le_combine bs.
#[global] Arguments le_bytes : simpl never.
#[global] Arguments le_value : simpl never.

Lemma length_le_bytes n z : length (le_bytes n z) = n.
Proof. apply LittleEndianList.length_le_split. Qed.
Lemma le_value_bytes n z : le_value (le_bytes n z) = z mod 2 ^ (Z.of_nat n * 8).
Proof. apply LittleEndianList.le_combine_split. Qed.
Lemma le_bytes_value n bs : length bs = n → le_bytes n (le_value bs) = bs.
Proof. intros <-. apply LittleEndianList.split_le_combine. Qed.
Lemma le_value_range bs : 0 ≤ le_value bs < 2 ^ (8 * Z.of_nat (length bs)).
Proof. apply LittleEndianList.le_combine_bound. Qed.

#[export] Hint Rewrite length_le_bytes le_value_bytes : emq.

(** ** C strings

    A [const char *] argument is the list of the characters behind the pointer; the string
    ends at the first NUL of the list, or at the end of the list, where the terminator is. *)

Definition cstring := list byte.

Fixpoint c_chars (s : cstring) : list byte :=
  match s with
  | [] => []
  | b :: s' => if decide (b = NUL) then [] else b :: c_chars s'
  end.

Definition strlen (s : cstring) : Z := Z.of_nat (length (c_chars s)).

(** [#define strlenz(str) (strlen(str) + 1)] *)
Definition strlenz (s : cstring) : Z := strlen s + 1.

(** The [strlenz s] bytes a [memcpy(dst, s, strlenz(s))] copies. *)
Definition c_bytes (s : cstring) : list byte := c_chars s ++ [NUL].

(** [!strcmp(a, b)] on two arrays; [None] when the comparison runs off the end of one of
    them before it is decided. *)
Fixpoint strcmp_eq (a b : list byte) : option bool :=
  match a, b with
  | x :: a', y :: b' =>
      if decide (x = y) then if decide (x = NUL) then Some true else strcmp_eq a' b'
      else Some false
  | _, _ => None
  end.

Lemma length_c_bytes s : Z.of_nat (length (c_bytes s)) = strlenz s.
Proof. unfold c_bytes, strlenz, strlen. rewrite length_app. simpl. lia. Qed.

Lemma strlen_nonneg s : 0 ≤ strlen s.
Proof. unfold strlen. lia. Qed.
#[export] Hint Resolve strlen_nonneg : emq.

Lemma c_chars_no_nul s : NUL ∉ c_chars s.
Proof.
  induction s as [|b s IH]; simpl; [apply not_elem_of_nil|].
  case_decide; [apply not_elem_of_nil|]. apply not_elem_of_cons; auto.
Qed.

Lemma c_chars_app_nul s t : c_chars (c_chars s ++ NUL :: t) = c_chars s.
Proof.
  induction s as [|b s IH]; simpl; [done|].
  case_decide; simpl; [done|]. rewrite decide_False by done. by rewrite IH.
Qed.

Lemma c_chars_id s : NUL ∉ s → c_chars s = s.
Proof.
  induction s as [|b s IH]; simpl; [done|]. intros [? ?]%not_elem_of_cons.
  rewrite decide_False by done. by rewrite IH.
Qed.

(** A terminated array is compared safely with any array at least as long. *)
Lemma strcmp_eq_safe a b :
  NUL ∈ a → (length a ≤ length b)%nat → strcmp_eq a b = Some (bool_decide (c_chars a = c_chars b)).
Proof.
  revert b. induction a as [|x a IH]; intros [|y b] Hin Hlen; simpl in *;
    [set_solver|set_solver|lia|].
  destruct (decide (x = y)) as [<-|Hne].
  - destruct (decide (x = NUL)) as [->|Hnz].
    + by rewrite bool_decide_true.
    + apply elem_of_cons in Hin as [<-|Hin]; [done|].
      rewrite IH by (done || lia). f_equal.
      apply bool_decide_ext. split; congruence.
  - rewrite bool_decide_false; [done|]. repeat case_decide; congruence.
Qed.

(** A terminated array is compared safely with a string. *)
Lemma strcmp_eq_string a s :
  NUL ∈ a → strcmp_eq a (c_bytes s) = Some (bool_decide (c_chars a = c_chars s)).
Proof.
  intros Hin. unfold c_bytes. pose proof (c_chars_no_nul s) as Hs. revert a Hin Hs.
  induction (c_chars s) as [|y t IH]; intros [|x a] Hin Hs; simpl; try by apply elem_of_nil in Hin.
  - destruct (decide (x = NUL)) as [->|Hx]; simpl; done.
  - apply not_elem_of_cons in Hs as [Hy Hs]. destruct (decide (x = y)) as [->|Hne].
    + rewrite !decide_False by done. apply elem_of_cons in Hin as [Hin|Hin]; [done|].
      rewrite IH by done. f_equal. apply bool_decide_ext. split; congruence.
    + rewrite bool_decide_false; [done|]. case_decide; congruence.
Qed.

(** The [char f[n]] field, zeroed and then filled with [memcpy(f, s, strlenz(s))]. *)
Definition array_of (n : nat) (s : cstring) : list byte :=
  c_bytes s ++ replicate (n - length (c_bytes s)) NUL.

Lemma c_chars_array_of n s : c_chars (array_of n s) = c_chars s.
Proof. unfold array_of, c_bytes. rewrite <-app_assoc. apply c_chars_app_nul. Qed.

Lemma length_array_of n s : strlenz s ≤ Z.of_nat n → length (array_of n s) = n.
Proof.
  intros Hs. pose proof (length_c_bytes s). unfold array_of.
  rewrite length_app, length_replicate. lia.
Qed.

Lemma array_of_terminated n s : NUL ∈ array_of n s.
Proof. unfold array_of, c_bytes. rewrite !elem_of_app, list_elem_of_singleton. tauto. Qed.

(** ** Lists *)

Lemma take_app_exact {A} (l k : list A) n : length l = n → take n (l ++ k) = l.
Proof. intros <-. apply take_app_length. Qed.
Lemma drop_app_exact {A} (l k : list A) n : length l = n → drop n (l ++ k) = k.
Proof. intros <-. apply drop_app_length. Qed.

Lemma NoDup_middle {A} (a b : list A) x : NoDup (a ++ x :: b) ↔ (x ∉ a) ∧ (x ∉ b) ∧ NoDup (a ++ b).
Proof. rewrite <-Permutation_middle, NoDup_cons, not_elem_of_app. tauto. Qed.

Lemma NoDup_later {A} (x : A) a b k : NoDup (x :: a ++ b) → k ∈ b → k ≠ x ∧ k ∉ a.
Proof.
  intros [Hx Hnd]%NoDup_cons Hk. apply NoDup_app in Hnd as (_ & Hab & _). split.
  - intros ->. apply Hx, elem_of_app. by right.
  - intros Ha. by apply (Hab k).
Qed.

(** Splits the hypotheses [x ∉ l] and [NoDup l], and the goals [x ∉ l], along [l]. *)
Ltac split_nodup :=
  rewrite ?fmap_app, ?fmap_cons, ?fmap_nil in *; simpl in *;
  repeat match goal with
  | H : _ ∉ _ :: _ |- _ => apply not_elem_of_cons in H as [? ?]
  | H : _ ∉ _ ++ _ |- _ => apply not_elem_of_app in H as [? ?]
  | H : NoDup (_ :: _) |- _ => apply NoDup_cons in H as [? ?]
  | H : NoDup ((_ ++ _) ++ _) |- _ => rewrite <-app_assoc in H; simpl in H
  | H : NoDup (_ ++ _ :: _) |- _ => apply NoDup_middle in H as (? & ? & ?)
  end.
Ltac not_elem :=
  rewrite ?fmap_app, ?fmap_cons, ?fmap_nil; simpl;
  repeat match goal with
  | |- _ ∉ _ :: _ => apply not_elem_of_cons; split
  | |- _ ∉ _ ++ _ => apply not_elem_of_app; split
  | |- _ ∉ [] => apply not_elem_of_nil
  end; try solve [done | congruence].

(** Membership in explicit lists, from the hypotheses and the goal. *)
Ltac in_list :=
  repeat match goal with
  | H : _ ∈ _ :: _ |- _ => rewrite elem_of_cons in H
  | H : _ ∈ _ ++ _ |- _ => rewrite elem_of_app in H
  | H : _ ∉ _ :: _ |- _ => apply not_elem_of_cons in H as [? ?]
  | H : _ ∉ _ ++ _ |- _ => apply not_elem_of_app in H as [? ?]
  | H : context [_ ∈ _ :: _] |- _ => rewrite elem_of_cons in H
  | H : context [_ ∈ _ ++ _] |- _ => rewrite elem_of_app in H
  | H : context [_ ∈ []] |- _ => rewrite elem_of_nil in H
  end; repeat first [rewrite elem_of_app | rewrite elem_of_cons | rewrite elem_of_nil]; tauto.

(** All the cells of a region, when they are all initialised. *)
Fixpoint initialised {A} (cells : list (option A)) : option (list A) :=
  match cells with
  | [] => Some []
  | None :: _ => None
  | Some x :: cells' => cons x <$> initialised cells'
  end.

Lemma initialised_Some {A} (l : list A) : initialised (Some <$> l) = Some l.
Proof. induction l as [|x l IH]; [done|]. csimpl. by rewrite IH. Qed.

Lemma initialised_inv {A} (cells : list (option A)) l :
  initialised cells = Some l → cells = Some <$> l.
Proof.
  revert l. induction cells as [|[x|] cells IH]; intros l; simpl; [by intros [= <-]| |done].
  destruct (initialised cells) as [l'|]; simpl; [|done]. intros [= <-]. simpl. by rewrite (IH l').
Qed.

#[export] Hint Rewrite @initialised_Some : emq.

(** ** Updating a list *)

Lemma delete_insert_same {A} (i : nat) (x : A) (xs : list A) : delete i (<[i := x]> xs) = delete i xs.
Proof. revert xs. induction i as [|i IH]; intros [|y xs]; try done. simpl. by f_equal. Qed.

Lemma sum_insert {A} (f : A → nat) xs i x y :
  xs !! i = Some x →
  (sum_list_with f (<[i := y]> xs) + f x = sum_list_with f xs + f y)%nat.
Proof.
  revert i. induction xs as [|z xs IH]; intros [|i] Hi; simplify_eq/=; [lia|].
  specialize (IH _ Hi). lia.
Qed.
