(* ===== verification/Types.v ===== *)
(** The public constants and structures of [src/src/emq.h] and the two private subscription
    structures of [src/src/emq.c].

    A [char f[n]] field is the list of its [n] bytes; a [float] field of [emq_status] is the
    32-bit pattern the library copies and never interprets; a pointer is [option loc], with
    [None] for [NULL]; a callback pointer is an identifier, with [None] for [NULL]. *)

From S2P Require Import Prelude.

(** ** Constants *)

Definition EMQ_VERSION_MAJOR : Z := 1.
Definition EMQ_VERSION_MINOR : Z := 3.
Definition EMQ_VERSION (major minor : Z) : Z := major * 10 + minor.

Definition EMQ_STATUS_OK : Z := 0.
Definition EMQ_STATUS_ERR : Z := -1.

Definition EMQ_ERROR_BUF_SIZE : Z := 256.
Definition EMQ_DEFAULT_REQUEST_SIZE : Z := 4096.
Definition EMQ_MAX_REQUEST_SIZE : Z := 2147483647.

Definition EMQ_CALLBACK_QUEUE : Z := 1.
Definition EMQ_CALLBACK_CHANNEL : Z := 2.

Definition EMQ_ERROR_NONE : Z := 0.
Definition EMQ_ERROR_ALLOC : Z := 1.
Definition EMQ_ERROR_DATA : Z := 2.
Definition EMQ_ERROR_WRITE : Z := 3.
Definition EMQ_ERROR_READ : Z := 4.
Definition EMQ_ERROR_RESPONSE : Z := 5.
Definition EMQ_ERROR_PACKET : Z := 6.
Definition EMQ_ERROR_COMMAND : Z := 7.
Definition EMQ_ERROR_ACCESS : Z := 8.
Definition EMQ_ERROR_MEMORY : Z := 9.
Definition EMQ_ERROR_NOT_DECLARED : Z := 10.
Definition EMQ_ERROR_NOT_FOUND : Z := 11.
Definition EMQ_ERROR_NO_DATA : Z := 12.

Definition EMQ_ZEROCOPY_ON : Z := 1.
Definition EMQ_ZEROCOPY_OFF : Z := 0.

(** Permissions, flags and limits of the interface. *)

Definition EMQ_DEFAULT_PORT : Z := 7851.
Definition EMQ_QUEUE_PERM : Z := 1.
Definition EMQ_ROUTE_PERM : Z := 2.
Definition EMQ_ADMIN_PERM : Z := 32.
Definition EMQ_NOT_CHANGE_PERM : Z := 64.
Definition EMQ_QUEUE_CREATE_PERM : Z := 1048576.
Definition EMQ_QUEUE_DECLARE_PERM : Z := 2097152.
Definition EMQ_QUEUE_EXIST_PERM : Z := 4194304.
Definition EMQ_QUEUE_LIST_PERM : Z := 8388608.
Definition EMQ_QUEUE_RENAME_PERM : Z := 16777216.
Definition EMQ_QUEUE_SIZE_PERM : Z := 33554432.
Definition EMQ_QUEUE_PUSH_PERM : Z := 67108864.
Definition EMQ_QUEUE_GET_PERM : Z := 134217728.
Definition EMQ_QUEUE_POP_PERM : Z := 268435456.
Definition EMQ_QUEUE_CONFIRM_PERM : Z := 536870912.
Definition EMQ_QUEUE_SUBSCRIBE_PERM : Z := 1073741824.
Definition EMQ_QUEUE_UNSUBSCRIBE_PERM : Z := 2147483648.
Definition EMQ_QUEUE_PURGE_PERM : Z := 4294967296.
Definition EMQ_QUEUE_DELETE_PERM : Z := 8589934592.
Definition EMQ_ROUTE_CREATE_PERM : Z := 17179869184.
Definition EMQ_ROUTE_EXIST_PERM : Z := 34359738368.
Definition EMQ_ROUTE_LIST_PERM : Z := 68719476736.
Definition EMQ_ROUTE_KEYS_PERM : Z := 137438953472.
Definition EMQ_ROUTE_RENAME_PERM : Z := 274877906944.
Definition EMQ_ROUTE_BIND_PERM : Z := 549755813888.
Definition EMQ_ROUTE_UNBIND_PERM : Z := 1099511627776.
Definition EMQ_ROUTE_PUSH_PERM : Z := 2199023255552.
Definition EMQ_ROUTE_DELETE_PERM : Z := 4398046511104.
Definition EMQ_CHANNEL_CREATE_PERM : Z := 8796093022208.
Definition EMQ_CHANNEL_EXIST_PERM : Z := 17592186044416.
Definition EMQ_CHANNEL_LIST_PERM : Z := 35184372088832.
Definition EMQ_CHANNEL_RENAME_PERM : Z := 70368744177664.
Definition EMQ_CHANNEL_PUBLISH_PERM : Z := 140737488355328.
Definition EMQ_CHANNEL_SUBSCRIBE_PERM : Z := 281474976710656.
Definition EMQ_CHANNEL_PSUBSCRIBE_PERM : Z := 562949953421312.
Definition EMQ_CHANNEL_UNSUBSCRIBE_PERM : Z := 1125899906842624.
Definition EMQ_CHANNEL_PUNSUBSCRIBE_PERM : Z := 2251799813685248.
Definition EMQ_CHANNEL_DELETE_PERM : Z := 4503599627370496.
Definition EMQ_FLUSH_USER : Z := 1.
Definition EMQ_FLUSH_QUEUE : Z := 2.
Definition EMQ_FLUSH_ROUTE : Z := 4.
Definition EMQ_FLUSH_CHANNEL : Z := 8.
Definition EMQ_FLUSH_ALL : Z :=
  Z.lor (Z.lor (Z.lor EMQ_FLUSH_USER EMQ_FLUSH_QUEUE) EMQ_FLUSH_ROUTE) EMQ_FLUSH_CHANNEL.
Definition EMQ_QUEUE_NONE : Z := 0.
Definition EMQ_QUEUE_AUTODELETE : Z := 1.
Definition EMQ_QUEUE_FORCE_PUSH : Z := 2.
Definition EMQ_QUEUE_ROUND_ROBIN : Z := 4.
Definition EMQ_QUEUE_DURABLE : Z := 8.
Definition EMQ_QUEUE_SUBSCRIBE_MSG : Z := 0.
Definition EMQ_QUEUE_SUBSCRIBE_NOTIFY : Z := 1.
Definition EMQ_ROUTE_NONE : Z := 0.
Definition EMQ_ROUTE_AUTODELETE : Z := 1.
Definition EMQ_ROUTE_ROUND_ROBIN : Z := 2.
Definition EMQ_ROUTE_DURABLE : Z := 4.
Definition EMQ_CHANNEL_NONE : Z := 0.
Definition EMQ_CHANNEL_AUTODELETE : Z := 1.
Definition EMQ_CHANNEL_ROUND_ROBIN : Z := 2.
Definition EMQ_CHANNEL_DURABLE : Z := 4.
Definition EMQ_MAX_MSG : Z := 4294967295.
Definition EMQ_MAX_MSG_SIZE : Z := 2147483647.

(** ** Pointers *)

Definition loc := positive.
Definition ptr := option loc.
Definition NULL : ptr := None.

(** A function pointer of type [emq_msg_callback *]. *)
Definition callback := option nat.

(** The functions [emq_list.free] is ever set to. *)
Inductive free_method :=
  | emq_user_list_free_handler
  | emq_queue_list_free_handler
  | emq_route_list_free_handler
  | emq_channel_list_free_handler
  | emq_route_key_list_free_handler
  | emq_queue_subscription_list_free_handler
  | emq_channel_subscription_list_free_handler.

#[export] Instance free_method_eq_dec : EqDecision free_method.
Proof. solve_decision. Defined.

(** ** Structures *)

(** A memory cell is [None] while it is uninitialised. *)
Definition buffer := list (option byte).

Record emq_list_node := mk_node {
  node_prev : ptr;
  node_next : ptr;
  node_value : ptr;
}.

Record emq_list := mk_list {
  list_head : ptr;
  list_tail : ptr;
  list_length : Z;
  list_free : option free_method;
}.

Record emq_client := mk_client {
  client_status : Z;
  client_error : string;
  client_request : ptr;
  client_size : Z;
  client_pos : Z;
  client_noack : Z;
  client_fd : Z;
  client_queue_subscriptions : ptr;
  client_channel_subscriptions : ptr;
}.

Record emq_user := mk_user {
  user_name : list byte;
  user_password : list byte;
  user_perm : Z;
}.

Record emq_queue := mk_queue {
  queue_name : list byte;
  queue_max_msg : Z;
  queue_max_msg_size : Z;
  queue_flags : Z;
  queue_size : Z;
  queue_declared_clients : Z;
  queue_subscribed_clients : Z;
}.

Record emq_route := mk_route {
  route_name : list byte;
  route_flags : Z;
  route_keys : Z;
}.

Record emq_route_key := mk_route_key {
  route_key_key : list byte;
  route_key_queue : list byte;
}.

Record emq_channel := mk_channel {
  channel_name : list byte;
  channel_flags : Z;
  channel_topics : Z;
  channel_patterns : Z;
}.

(** [zero_copy] is [None] while the field is uninitialised. *)
Record emq_msg := mk_msg {
  msg_data : ptr;
  msg_size : Z;
  msg_tag : Z;
  msg_expire : Z;
  msg_zero_copy : option Z;
}.

Record emq_queue_subscription := mk_queue_subscription {
  qsub_name : list byte;
  qsub_callback : callback;
}.

Record emq_channel_subscription := mk_channel_subscription {
  csub_name : list byte;
  csub_channel : list byte;
  csub_callback : callback;
}.

(** ** Field updates ([s->f = v]) *)

Definition set_node_prev p n := mk_node p (node_next n) (node_value n).
Definition set_node_next p n := mk_node (node_prev n) p (node_value n).
Definition set_node_value p n := mk_node (node_prev n) (node_next n) p.

Definition set_list_head p l := mk_list p (list_tail l) (list_length l) (list_free l).
Definition set_list_tail p l := mk_list (list_head l) p (list_length l) (list_free l).
Definition set_list_length n l := mk_list (list_head l) (list_tail l) n (list_free l).
Definition set_list_free m l := mk_list (list_head l) (list_tail l) (list_length l) m.

Definition set_client_status v c := mk_client v (client_error c) (client_request c)
  (client_size c) (client_pos c) (client_noack c) (client_fd c)
  (client_queue_subscriptions c) (client_channel_subscriptions c).
Definition set_client_error v c := mk_client (client_status c) v (client_request c)
  (client_size c) (client_pos c) (client_noack c) (client_fd c)
  (client_queue_subscriptions c) (client_channel_subscriptions c).
Definition set_client_request v c := mk_client (client_status c) (client_error c) v
  (client_size c) (client_pos c) (client_noack c) (client_fd c)
  (client_queue_subscriptions c) (client_channel_subscriptions c).
Definition set_client_size v c := mk_client (client_status c) (client_error c)
  (client_request c) v (client_pos c) (client_noack c) (client_fd c)
  (client_queue_subscriptions c) (client_channel_subscriptions c).
Definition set_client_pos v c := mk_client (client_status c) (client_error c)
  (client_request c) (client_size c) v (client_noack c) (client_fd c)
  (client_queue_subscriptions c) (client_channel_subscriptions c).
Definition set_client_noack v c := mk_client (client_status c) (client_error c)
  (client_request c) (client_size c) (client_pos c) v (client_fd c)
  (client_queue_subscriptions c) (client_channel_subscriptions c).
Definition set_client_fd v c := mk_client (client_status c) (client_error c)
  (client_request c) (client_size c) (client_pos c) (client_noack c) v
  (client_queue_subscriptions c) (client_channel_subscriptions c).
Definition set_client_queue_subscriptions v c := mk_client (client_status c) (client_error c)
  (client_request c) (client_size c) (client_pos c) (client_noack c) (client_fd c)
  v (client_channel_subscriptions c).
Definition set_client_channel_subscriptions v c := mk_client (client_status c)
  (client_error c) (client_request c) (client_size c) (client_pos c) (client_noack c)
  (client_fd c) (client_queue_subscriptions c) v.

Definition set_msg_data v m := mk_msg v (msg_size m) (msg_tag m) (msg_expire m) (msg_zero_copy m).
Definition set_msg_tag v m := mk_msg (msg_data m) (msg_size m) v (msg_expire m) (msg_zero_copy m).
Definition set_msg_expire v m := mk_msg (msg_data m) (msg_size m) (msg_tag m) v (msg_zero_copy m).
