(* ===== verification/Machine.v ===== *)
(** The abstract machine the C code runs on: the heap of typed blocks, the allocator, the
    sockets and the outcome monad, with its weakest-precondition calculus.

    Nothing of this file is code of the repository: it is the model of the C language and of
    the POSIX calls the library makes. *)

From Stdlib Require Import Floats.SpecFloat.
From S2P Require Import Prelude Types.

(** ** Output *)

(** An argument of [printf]: an integer, the 32-bit pattern of a float that is not interpreted,
    a float that was computed, or the memory that a [char *] points to. *)
Inductive argument :=
  | AInt (z : Z)
  | AFloat (bits : list byte)
  | AReal (x : spec_float)
  | AStr (memory : list byte).

Record printed := mk_printed { format : string; arguments : list argument }.

(** [%s] prints the characters up to the terminator, which has to be there. *)
Definition terminated (a : argument) : Prop :=
  match a with AStr memory => NUL ∈ memory | _ => True end.
#[export] Instance terminated_dec a : Decision (terminated a).
Proof. destruct a; apply _. Defined.

Definition shown (a : argument) : argument :=
  match a with AStr memory => AStr (c_chars memory) | _ => a end.

(** A stream that a program prints to, such as its standard output, is an object in memory: a
    callback of the library can print while the program that called the library waits. *)
Record stream := mk_stream { written : list printed }.

(** ** Blocks *)

(** A heap block is an object of one of the types the library allocates, or a stream. *)
Inductive block :=
  | BBuffer (b : buffer)
  | BNode (n : emq_list_node)
  | BList (l : emq_list)
  | BClient (c : emq_client)
  | BMsg (m : emq_msg)
  | BUser (u : emq_user)
  | BQueue (q : emq_queue)
  | BRoute (r : emq_route)
  | BRouteKey (k : emq_route_key)
  | BChannel (c : emq_channel)
  | BQueueSub (s : emq_queue_subscription)
  | BChannelSub (s : emq_channel_subscription)
  | BStream (s : stream).

Abbreviation heap := (gmap loc block).

(** [Storable T]: the type [T] is one of the block types. *)
Class Storable (T : Type) := {
  inject : T → block;
  project : block → option T;
  project_inject x : project (inject x) = Some x;
  inject_project o x : project o = Some x → inject x = o;
}.

Ltac storable C P :=
  refine (Build_Storable _ C P _ _); [done | intros [] ?; simpl; congruence].

#[export] Instance storable_buffer : Storable buffer.
Proof. storable BBuffer (λ o, match o with BBuffer x => Some x | _ => None end). Defined.
#[export] Instance storable_node : Storable emq_list_node.
Proof. storable BNode (λ o, match o with BNode x => Some x | _ => None end). Defined.
#[export] Instance storable_list : Storable emq_list.
Proof. storable BList (λ o, match o with BList x => Some x | _ => None end). Defined.
#[export] Instance storable_client : Storable emq_client.
Proof. storable BClient (λ o, match o with BClient x => Some x | _ => None end). Defined.
#[export] Instance storable_msg : Storable emq_msg.
Proof. storable BMsg (λ o, match o with BMsg x => Some x | _ => None end). Defined.
#[export] Instance storable_user : Storable emq_user.
Proof. storable BUser (λ o, match o with BUser x => Some x | _ => None end). Defined.
#[export] Instance storable_queue : Storable emq_queue.
Proof. storable BQueue (λ o, match o with BQueue x => Some x | _ => None end). Defined.
#[export] Instance storable_route : Storable emq_route.
Proof. storable BRoute (λ o, match o with BRoute x => Some x | _ => None end). Defined.
#[export] Instance storable_route_key : Storable emq_route_key.
Proof. storable BRouteKey (λ o, match o with BRouteKey x => Some x | _ => None end). Defined.
#[export] Instance storable_channel : Storable emq_channel.
Proof. storable BChannel (λ o, match o with BChannel x => Some x | _ => None end). Defined.
#[export] Instance storable_queue_sub : Storable emq_queue_subscription.
Proof. storable BQueueSub (λ o, match o with BQueueSub x => Some x | _ => None end). Defined.
#[export] Instance storable_channel_sub : Storable emq_channel_subscription.
Proof. storable BChannelSub (λ o, match o with BChannelSub x => Some x | _ => None end). Defined.

#[export] Instance storable_stream : Storable stream.
Proof. storable BStream (λ o, match o with BStream x => Some x | _ => None end). Defined.

(** ** The environment *)

(** What one call of [read] finds: bytes ([RdData []] is the end of the stream) or an error. *)
Inductive rd_event := RdData (bs : list byte) | RdErr.

(** What one call of [write] or [writev] does: accept at most so many bytes, fail, or be
    interrupted by a signal ([errno = EINTR]). *)
Inductive wr_event := WrAccept (n : nat) | WrErr | WrIntr.

(** A connected socket: the events of its future reads and writes, and the bytes written. *)
Record sock := mk_sock {
  sk_rx : list rd_event;
  sk_wr : list wr_event;
  sk_tx : list byte;
}.

(** The state of the process.  [w_mallocs] holds the fate of the next allocations (they succeed
    once it is exhausted), [w_sys] that of the next calls of [socket], [setsockopt],
    [inet_aton], [gethostbyname] and [connect] ([Some msg] is a failure that [strerror]
    describes as [msg]; they succeed once it is exhausted) and [w_peers] the sockets that the
    next calls of [socket] create. *)
Record world := mk_world {
  w_heap : heap;
  w_mallocs : list bool;
  w_socks : gmap Z sock;
  w_sys : list (option string);
  w_peers : list sock;
}.

Definition set_heap h w := mk_world h (w_mallocs w) (w_socks w) (w_sys w) (w_peers w).
Definition set_mallocs m w := mk_world (w_heap w) m (w_socks w) (w_sys w) (w_peers w).
Definition set_socks s w := mk_world (w_heap w) (w_mallocs w) s (w_sys w) (w_peers w).
Definition set_sys s w := mk_world (w_heap w) (w_mallocs w) (w_socks w) s (w_peers w).
Definition set_peers p w := mk_world (w_heap w) (w_mallocs w) (w_socks w) (w_sys w) p.

Definition set_sk_rx r s := mk_sock r (sk_wr s) (sk_tx s).

(** The undefined behaviours of C that the model distinguishes. *)
Inductive fault :=
  NullPointer | DanglingPointer | BadPointer | OutOfBounds | Uninitialised | SignedOverflow
  | DivisionByZero.

(** A computation returns, is undefined, waits for ever in [read] for bytes the peer never
    sends, or runs out of the fuel its definition was given. *)
Inductive outcome (A : Type) :=
  | Returns (a : A) (w : world)
  | Faults (f : fault)
  | Blocks (w : world)
  | OutOfFuel.
Arguments Returns {A} a w.
Arguments Faults {A} f.
Arguments Blocks {A} w.
Arguments OutOfFuel {A}.

(** ** The monad *)

Definition M (A : Type) : Type := world → outcome A.

#[export] Instance M_ret : MRet M := λ A a w, Returns a w.
#[export] Instance M_bind : MBind M := λ A B k m w,
  match m w with
  | Returns a w' => k a w'
  | Faults f => Faults f
  | Blocks w' => Blocks w'
  | OutOfFuel => OutOfFuel
  end.

Definition undefined {A} (f : fault) : M A := λ _, Faults f.
Definition out_of_fuel {A} : M A := λ _, OutOfFuel.

(** ** Memory *)

Definition load {T} `{Storable T} (p : ptr) : M T := λ w,
  match p with
  | None => Faults NullPointer
  | Some l =>
      match w_heap w !! l with
      | None => Faults DanglingPointer
      | Some o => match project o with Some x => Returns x w | None => Faults BadPointer end
      end
  end.

Definition store {T} `{Storable T} (p : ptr) (x : T) : M unit := λ w,
  match p with
  | None => Faults NullPointer
  | Some l =>
      match w_heap w !! l with
      | None => Faults DanglingPointer
      | Some o =>
          match project (T := T) o with
          | Some _ => Returns tt (set_heap (<[l := inject x]> (w_heap w)) w)
          | None => Faults BadPointer
          end
      end
  end.

(** [p->f = v], with [upd] the update of the field. *)
Definition modify {T} `{Storable T} (p : ptr) (upd : T → T) : M unit :=
  x ← load p; store p (upd x).

Definition malloc {T} `{Storable T} (x : T) : M ptr := λ w,
  match w_mallocs w with
  | false :: ms => Returns NULL (set_mallocs ms w)
  | ms =>
      let l := fresh (dom (w_heap w)) in
      Returns (Some l) (set_mallocs (tail ms) (set_heap (<[l := inject x]> (w_heap w)) w))
  end.

Definition free (p : ptr) : M unit := λ w,
  match p with
  | None => Returns tt w
  | Some l =>
      match w_heap w !! l with
      | None => Faults DanglingPointer
      | Some _ => Returns tt (set_heap (delete l (w_heap w)) w)
      end
  end.

(** A block of [n] uninitialised bytes. *)
Definition uninit (n : Z) : buffer := replicate (Z.to_nat n) None.

(** [memcpy(p, bs, |bs|)] into the block [p]. *)
Definition memcpy_to (p : ptr) (bs : list byte) : M unit :=
  cells ← load (T := buffer) p;
  if decide (length bs ≤ length cells)%nat
  then store p ((Some <$> bs) ++ drop (length bs) cells)
  else undefined OutOfBounds.

(** The first [n] bytes of the block [p], all of which must be initialised. *)
Definition read_bytes (p : ptr) (n : Z) : M (list byte) :=
  cells ← load (T := buffer) p;
  if decide (n ≤ Z.of_nat (length cells)) then
    match initialised (take (Z.to_nat n) cells) with
    | Some bs => mret bs
    | None => undefined Uninitialised
    end
  else undefined OutOfBounds.

(** [memcpy(p, q, n)] from the block [q] into the block [p]. *)
Definition memcpy (p q : ptr) (n : Z) : M unit :=
  src ← load (T := buffer) q;
  dst ← load (T := buffer) p;
  if decide (n ≤ Z.of_nat (length src) ∧ n ≤ Z.of_nat (length dst))
  then store p (take (Z.to_nat n) src ++ drop (Z.to_nat n) dst)
  else undefined OutOfBounds.

(** [realloc(p, n)]: a block of [n] bytes that starts with the old contents; the old block is
    kept when the allocation fails. *)
Definition realloc (p : ptr) (n : Z) : M ptr :=
  cells ← load (T := buffer) p;
  q ← malloc (take (Z.to_nat n) cells ++ uninit (n - Z.of_nat (length cells)));
  match q with
  | None => mret NULL
  | Some _ => free p;; mret q
  end.

(** ** Weakest preconditions

    [wp blk m Q w]: run from [w], [m] returns in a state and with a value that satisfy [Q];
    it may also wait for ever if [blk] holds, and it never faults or runs out of fuel. *)

Definition wp (blk : Prop) {A} (m : M A) (Q : A → world → Prop) (w : world) : Prop :=
  match m w with
  | Returns a w' => Q a w'
  | Blocks _ => blk
  | _ => False
  end.

Abbreviation points_to h l x := (h !! l = Some (inject x)).

#[export] Instance wp_proper blk {A} (m : M A) :
  Proper (pointwise_relation A (pointwise_relation world impl) ==> eq ==> impl) (wp blk m).
Proof.
  intros Q Q' HQ w _ <-. unfold wp. destruct (m w) as [a w'| | |]; [apply HQ|done..].
Qed.

Section wp.
Context (blk : Prop).
Implicit Types (w : world).

Lemma wp_ret {A} (a : A) (Q : A → world → Prop) w : Q a w → wp blk (mret a) Q w.
Proof. done. Qed.

Lemma wp_bind {A B} (m : M A) (k : A → M B) Q w :
  wp blk m (λ a, wp blk (k a) Q) w → wp blk (m ≫= k) Q w.
Proof. unfold wp. unfold mbind, M_bind. by destruct (m w). Qed.

Lemma wp_mono {A} (m : M A) (Q Q' : A → world → Prop) w :
  wp blk m Q w → (∀ a w', Q a w' → Q' a w') → wp blk m Q' w.
Proof. intros Hm HQ. eapply wp_proper; [|done|exact Hm]. intros a w'. exact (HQ a w'). Qed.

Lemma wp_load {T} `{Storable T} l (x : T) (Q : T → world → Prop) w :
  points_to (w_heap w) l x → Q x w → wp blk (load (Some l)) Q w.
Proof. intros Hl HQ. unfold wp, load. by rewrite Hl, project_inject. Qed.

Lemma wp_store {T} `{Storable T} l (x y : T) (Q : unit → world → Prop) w :
  points_to (w_heap w) l x → Q tt (set_heap (<[l := inject y]> (w_heap w)) w) →
  wp blk (store (Some l) y) Q w.
Proof. intros Hl HQ. unfold wp, store. by rewrite Hl, project_inject. Qed.

Lemma wp_modify {T} `{Storable T} l (x : T) upd (Q : unit → world → Prop) w :
  points_to (w_heap w) l x → Q tt (set_heap (<[l := inject (upd x)]> (w_heap w)) w) →
  wp blk (modify (Some l) upd) Q w.
Proof.
  intros Hl HQ. apply wp_bind. eapply wp_load; [done|]. by eapply wp_store.
Qed.

(** An allocation fails, or returns a location that the heap does not hold. *)
Lemma wp_malloc {T} `{Storable T} (x : T) (Q : ptr → world → Prop) w :
  (∀ ms, w_mallocs w = false :: ms → Q NULL (set_mallocs ms w)) →
  (∀ l, hd true (w_mallocs w) = true → w_heap w !! l = None →
    Q (Some l) (set_mallocs (tail (w_mallocs w)) (set_heap (<[l := inject x]> (w_heap w)) w))) →
  wp blk (malloc x) Q w.
Proof.
  intros Hfail Hok. unfold wp, malloc.
  pose proof (is_fresh (dom (w_heap w))) as Hfresh%not_elem_of_dom.
  destruct (w_mallocs w) as [|[] ms] eqn:Hms; [by apply Hok..|by apply Hfail].
Qed.

Lemma wp_free l o (Q : unit → world → Prop) w :
  w_heap w !! l = Some o → Q tt (set_heap (delete l (w_heap w)) w) →
  wp blk (free (Some l)) Q w.
Proof. intros Hl HQ. unfold wp, free. by rewrite Hl. Qed.

Lemma wp_memcpy_to l (cells : buffer) bs (Q : unit → world → Prop) w :
  points_to (w_heap w) l cells → (length bs ≤ length cells)%nat →
  Q tt (set_heap (<[l := inject ((Some <$> bs) ++ drop (length bs) cells : buffer)]> (w_heap w)) w) →
  wp blk (memcpy_to (Some l) bs) Q w.
Proof.
  intros Hl Hlen HQ. apply wp_bind. eapply wp_load; [done|].
  rewrite decide_True by done. by eapply wp_store.
Qed.

Lemma wp_read_bytes l (cells : buffer) bs rest (Q : list byte → world → Prop) w :
  points_to (w_heap w) l cells → cells = (Some <$> bs) ++ rest → Q bs w →
  wp blk (read_bytes (Some l) (Z.of_nat (length bs))) Q w.
Proof.
  intros Hl -> HQ. apply wp_bind. eapply wp_load; [done|].
  rewrite length_app, length_fmap, decide_True by lia.
  rewrite Nat2Z.id, take_app_exact by apply length_fmap.
  rewrite initialised_Some. by apply wp_ret.
Qed.
End wp.

(** A total specification is an equation. *)
Lemma wp_returns {A} (m : M A) (Q : A → world → Prop) w :
  wp False m Q w ↔ ∃ a w', m w = Returns a w' ∧ Q a w'.
Proof.
  unfold wp. split.
  - destruct (m w) as [a w'| | |]; [eauto|done..].
  - by intros (a & w' & -> & HQ).
Qed.

Lemma wp_weaken_blk (b b' : Prop) {A} (m : M A) Q w : (b → b') → wp b m Q w → wp b' m Q w.
Proof. unfold wp. intros Hb. destruct (m w); naive_solver. Qed.

(** One step of symbolic execution. *)
Ltac wp_step :=
  lazymatch goal with
  | |- wp _ (_ ≫= _) _ _ => apply wp_bind
  | |- wp _ (mret _) _ _ => apply wp_ret
  | |- wp _ (load _) _ _ => eapply wp_load
  | |- wp _ (store _ _) _ _ => eapply wp_store
  | |- wp _ (modify _ _) _ _ => eapply wp_modify
  | |- wp _ (malloc _) _ _ => eapply wp_malloc
  | |- wp _ (free _) _ _ => eapply wp_free
  | |- wp _ (memcpy_to _ _) _ _ => eapply wp_memcpy_to
  | |- wp _ (read_bytes _ _) _ _ => eapply wp_read_bytes
  end.

Ltac wp_steps := repeat (wp_step; [done..|]; simpl).

(** [heap_lookup] proves [points_to h l ?x] for a heap [h] written as a sequence of updates;
    the side conditions on locations follow from the context. *)
Ltac loc_ne := solve [ done | congruence ].
Ltac heap_reduce :=
  simpl;
  repeat first
    [ rewrite lookup_insert_eq
    | rewrite lookup_insert_ne by loc_ne
    | rewrite lookup_delete_eq
    | rewrite lookup_delete_ne by loc_ne ].
Ltac heap_lookup :=
  heap_reduce;
  first [ reflexivity | eassumption ].

Lemma set_heap_set_heap h h' w : set_heap h (set_heap h' w) = set_heap h w.
Proof. done. Qed.
Lemma set_heap_set_mallocs h m w : set_heap h (set_mallocs m w) = set_mallocs m (set_heap h w).
Proof. done. Qed.

Ltac world_simpl := simpl; rewrite ?set_heap_set_mallocs, ?set_heap_set_heap; simpl.

(** [wp_exec]: execute the memory operations in front, looking the blocks up in the heap. *)
Ltac wp_exec1 :=
  lazymatch goal with
  | |- wp _ (_ ≫= _) _ _ => apply wp_bind
  | |- wp _ (mret _) _ _ => apply wp_ret; simpl
  | |- wp _ (load _) _ _ => eapply wp_load; [heap_lookup|]; world_simpl
  | |- wp _ (store _ _) _ _ => eapply wp_store; [heap_lookup|]; world_simpl
  | |- wp _ (modify _ _) _ _ => eapply wp_modify; [heap_lookup|]; world_simpl
  | |- wp _ (free _) _ _ => eapply wp_free; [heap_lookup|]; world_simpl
  end.
Ltac wp_exec := repeat wp_exec1.

(** ** Facts on blocks *)

Lemma inject_inj {T} `{Storable T} (x y : T) : inject x = inject y → x = y.
Proof.
  intros Heq. assert (project (T := T) (inject x) = project (T := T) (inject y)) as Hp by congruence.
  rewrite !project_inject in Hp. congruence.
Qed.

(** A location holds one object. *)
Lemma points_to_agree {T} `{Storable T} (h : heap) l (x y : T) :
  points_to h l x → points_to h l y → x = y.
Proof. intros Hx Hy. rewrite Hx in Hy. injection Hy as Hy. by apply inject_inj. Qed.

#[global] Arguments inject {T} {Storable} x : simpl never.
