(* ===== verification/Lists.v ===== *)
(** The doubly linked lists of [src/src/emq.c] (lines 133-233 and the release handlers), over
    the heap of nodes, and their refinement of functional lists. *)

From S2P Require Import Prelude Types Machine.

(** ** Operations *)

Definition emq_user_release (user : ptr) : M unit := free user.
Definition emq_queue_release (queue : ptr) : M unit := free queue.
Definition emq_route_release (route : ptr) : M unit := free route.
Definition emq_channel_release (channel : ptr) : M unit := free channel.
Definition emq_route_key_release (route_key : ptr) : M unit := free route_key.
Definition emq_queue_subscription_release (subscription : ptr) : M unit := free subscription.
Definition emq_channel_subscription_release (subscription : ptr) : M unit := free subscription.

(** [list->free(value)] *)
Definition call_free (m : free_method) (value : ptr) : M unit :=
  match m with
  | emq_user_list_free_handler => emq_user_release value
  | emq_queue_list_free_handler => emq_queue_release value
  | emq_route_list_free_handler => emq_route_release value
  | emq_channel_list_free_handler => emq_channel_release value
  | emq_route_key_list_free_handler => emq_route_key_release value
  | emq_queue_subscription_list_free_handler => emq_queue_subscription_release value
  | emq_channel_subscription_list_free_handler => emq_channel_subscription_release value
  end.

Definition emq_list_init : M ptr := malloc (mk_list NULL NULL 0 None).

(** [EMQ_LIST_SET_FREE_METHOD(l, m)] *)
Definition EMQ_LIST_SET_FREE_METHOD (list : ptr) (m : free_method) : M unit :=
  modify list (set_list_free (Some m)).

Definition emq_list_add_value (list value : ptr) : M Z :=
  node ← malloc (mk_node NULL NULL NULL);
  match node with
  | None => mret EMQ_STATUS_ERR
  | Some _ =>
      modify node (set_node_value value);;
      l ← load list;
      (if decide (list_length l = 0) then
         modify list (set_list_tail node);;
         modify list (set_list_head node);;
         modify node (set_node_next NULL);;
         modify node (set_node_prev NULL)
       else
         modify node (set_node_prev NULL);;
         modify node (set_node_next (list_head l));;
         modify (list_head l) (set_node_prev node);;
         modify list (set_list_head node));;
      modify list (λ l, set_list_length (u64 (list_length l + 1)) l);;
      mret EMQ_STATUS_OK
  end.

Definition emq_list_delete_node (list node : ptr) : M unit :=
  n ← load node;
  match node_prev n with
  | Some _ => modify (node_prev n) (set_node_next (node_next n))
  | None => modify list (set_list_head (node_next n))
  end;;
  match node_next n with
  | Some _ => modify (node_next n) (set_node_prev (node_prev n))
  | None => modify list (set_list_tail (node_prev n))
  end;;
  l ← load list;
  match list_free l with
  | Some m => call_free m (node_value n)
  | None => mret tt
  end;;
  free node;;
  modify list (λ l, set_list_length (u64 (list_length l - 1)) l).

(** The loop [while (length--)]: [length] iterations. *)
Fixpoint release_nodes (length : nat) (list current : ptr) : M unit :=
  match length with
  | O => mret tt
  | S length =>
      n ← load current;
      l ← load list;
      match list_free l with
      | Some m => call_free m (node_value n)
      | None => mret tt
      end;;
      free current;;
      release_nodes length list (node_next n)
  end.

Definition emq_list_release (list : ptr) : M unit :=
  l ← load list;
  release_nodes (Z.to_nat (list_length l)) list (list_head l);;
  free list.

(** An [emq_list_iterator] is its field [next]. *)
Definition emq_list_rewind (list : ptr) : M ptr :=
  l ← load list; mret (list_head l).

(** The node returned, and the iterator after the call. *)
Definition emq_list_next (iter : ptr) : M (ptr * ptr) :=
  match iter with
  | None => mret (NULL, iter)
  | Some _ => n ← load iter; mret (iter, node_next n)
  end.

(** ** Representation of a functional list

    [ns] lists the nodes from the head, each with the location of its value. *)

Definition first_ptr (ns : list (loc * loc)) (d : ptr) : ptr :=
  match ns with [] => d | (l, _) :: _ => Some l end.
Fixpoint last_ptr (ns : list (loc * loc)) (d : ptr) : ptr :=
  match ns with [] => d | (l, _) :: ns' => last_ptr ns' (Some l) end.

Fixpoint dlseg (h : heap) (prev : ptr) (ns : list (loc * loc)) (next : ptr) : Prop :=
  match ns with
  | [] => True
  | (l, v) :: ns' =>
      points_to h l (mk_node prev (first_ptr ns' next) (Some v)) ∧ dlseg h (Some l) ns' next
  end.

(** [dlist h lp fm ns]: the block [lp] is the header of a well-formed list of the nodes [ns]. *)
Record dlist (h : heap) (lp : loc) (fm : option free_method) (ns : list (loc * loc)) : Prop := {
  dlist_header : points_to h lp
    (mk_list (first_ptr ns NULL) (last_ptr ns NULL) (Z.of_nat (length ns)) fm);
  dlist_nodes : dlseg h NULL ns NULL;
  dlist_nodup : NoDup ns.*1;
  dlist_bound : Z.of_nat (length ns) < 2 ^ 64;
}.

(** ** Lemmas on segments *)

Lemma first_ptr_app a b d : first_ptr (a ++ b) d = first_ptr a (first_ptr b d).
Proof. by destruct a as [|[]]. Qed.

Lemma last_ptr_app a b d : last_ptr (a ++ b) d = last_ptr b (last_ptr a d).
Proof. revert d. induction a as [|[l v] a IH]; intros d; simpl; auto. Qed.

Lemma dlseg_app h p a b n :
  dlseg h p (a ++ b) n ↔ dlseg h p a (first_ptr b n) ∧ dlseg h (last_ptr a p) b n.
Proof.
  revert p. induction a as [|[l v] a IH]; intros p; simpl; [tauto|].
  rewrite IH, first_ptr_app. tauto.
Qed.

Lemma dlseg_frame h h' p ns n :
  (∀ l, l ∈ ns.*1 → h' !! l = h !! l) → dlseg h p ns n → dlseg h' p ns n.
Proof.
  revert p. induction ns as [|[l v] ns IH]; intros p Hf; csimpl; [done|].
  csimpl in Hf. intros [Hl Hns]. split; [rewrite Hf; [done|left]|].
  apply IH; [|done]. intros k Hk. apply Hf. by right.
Qed.

Lemma dlseg_insert_frame h p ns n l o :
  l ∉ ns.*1 → dlseg h p ns n → dlseg (<[l := o]> h) p ns n.
Proof.
  intros Hl. apply dlseg_frame. intros k Hk. apply lookup_insert_ne. by intros ->.
Qed.

Lemma dlseg_delete_frame h p ns n l :
  l ∉ ns.*1 → dlseg h p ns n → dlseg (delete l h) p ns n.
Proof.
  intros Hl. apply dlseg_frame. intros k Hk. apply lookup_delete_ne. by intros ->.
Qed.

(** Redirecting the [prev] field of the first node, and the [next] field of the last one. *)
Lemma dlseg_set_prev h p p' l v ns n :
  l ∉ ns.*1 → dlseg h p ((l, v) :: ns) n →
  dlseg (<[l := inject (mk_node p' (first_ptr ns n) (Some v))]> h) p' ((l, v) :: ns) n.
Proof.
  intros Hl [Hh Hns]. simpl. split; [apply lookup_insert_eq|]. by apply dlseg_insert_frame.
Qed.

Lemma dlseg_set_next h p ns l v n n' :
  l ∉ ns.*1 → dlseg h p (ns ++ [(l, v)]) n →
  dlseg (<[l := inject (mk_node (last_ptr ns p) n' (Some v))]> h) p (ns ++ [(l, v)]) n'.
Proof.
  rewrite !dlseg_app. intros Hl [Hns _]. simpl. split.
  - by apply dlseg_insert_frame.
  - split; [apply lookup_insert_eq|done].
Qed.

Lemma dlseg_lookup_last h p ns l v n :
  dlseg h p (ns ++ [(l, v)]) n → points_to h l (mk_node (last_ptr ns p) n (Some v)).
Proof. rewrite dlseg_app. simpl. tauto. Qed.

(** The nodes of a list hold nodes; its header is none of them. *)
Lemma dlseg_node h p ns n l :
  dlseg h p ns n → l ∈ ns.*1 → ∃ x : emq_list_node, points_to h l x.
Proof.
  revert p. induction ns as [|[k v] ns IH]; intros p; csimpl; [set_solver|].
  intros [Hk Hns] [->|Hin]%elem_of_cons; eauto.
Qed.

Lemma dlist_header_not_node h lp fm ns : dlist h lp fm ns → lp ∉ ns.*1.
Proof.
  intros [Hh Hn _ _] Hin. destruct (dlseg_node _ _ _ _ _ Hn Hin) as [x Hx].
  rewrite Hh in Hx. discriminate.
Qed.

Lemma dlist_frame h h' lp fm ns :
  (∀ l, l = lp ∨ l ∈ ns.*1 → h' !! l = h !! l) → dlist h lp fm ns → dlist h' lp fm ns.
Proof.
  intros Hf [Hh Hn Hnd Hb]. constructor; [by rewrite Hf; auto| |done..].
  eapply dlseg_frame; [|done]. auto.
Qed.

Lemma dlseg_weaken h h' p ns n : h ⊆ h' → dlseg h p ns n → dlseg h' p ns n.
Proof.
  intros Hs. revert p. induction ns as [|[l v] ns IH]; intros p; simpl; [done|].
  intros [Hl Hns]. split; [by eapply lookup_weaken|auto].
Qed.

Lemma dlist_weaken h h' lp fm ns : h ⊆ h' → dlist h lp fm ns → dlist h' lp fm ns.
Proof.
  intros Hs []. constructor; try done; [by eapply lookup_weaken|by eapply dlseg_weaken].
Qed.

#[export] Hint Resolve dlseg_insert_frame dlseg_delete_frame dlist_header_not_node : emq.

(** The two assignments that take a node out of a segment: [prev->next = next] and
    [next->prev = prev], each only when there is such a neighbour. *)
Definition relink (a b : list (loc * loc)) (h : heap) : heap :=
  let h1 := match last a with
            | Some (k, u) =>
                <[k := inject (mk_node (last_ptr (removelast a) NULL) (first_ptr b NULL) (Some u))]> h
            | None => h
            end in
  match b with
  | (j, x) :: b' => <[j := inject (mk_node (last_ptr a NULL) (first_ptr b' NULL) (Some x))]> h1
  | [] => h1
  end.

Lemma relink_frame a b h k : k ∉ (a ++ b).*1 → relink a b h !! k = h !! k.
Proof.
  intros Hk. unfold relink.
  destruct a as [|[k' u] a' _] using rev_ind; destruct b as [|[j x] b]; simpl; rewrite ?last_snoc;
    split_nodup; rewrite ?lookup_insert_ne by congruence; done.
Qed.

Lemma dlseg_relink h a l v b :
  NoDup (a ++ (l, v) :: b).*1 →
  dlseg h NULL (a ++ (l, v) :: b) NULL → dlseg (relink a b h) NULL (a ++ b) NULL.
Proof.
  intros Hnd. rewrite !dlseg_app. simpl. intros (Hsa & Hsl & Hsb). unfold relink.
  destruct a as [|[k u] a' _] using rev_ind; simpl.
  - split; [done|]. destruct b as [|[j x] b]; [done|]. split_nodup.
    by eapply dlseg_set_prev.
  - rewrite last_snoc, removelast_last, last_ptr_app in *. simpl in *.
    destruct b as [|[j x] b]; split_nodup.
    + split; [by eapply dlseg_set_next|done].
    + split.
      * apply dlseg_insert_frame; [not_elem|]. by eapply dlseg_set_next.
      * eapply dlseg_set_prev; [done|]. apply dlseg_insert_frame; [not_elem|done].
Qed.

(** ** Specifications of the operations *)

Section specs.
Context (blk : Prop).

Lemma wp_call_free m v o (Q : unit → world → Prop) w :
  w_heap w !! v = Some o → Q tt (set_heap (delete v (w_heap w)) w) →
  wp blk (call_free m (Some v)) Q w.
Proof. intros Hv HQ. destruct m; by eapply wp_free. Qed.

Lemma wp_list_add lp fm ns v (Q : Z → world → Prop) w :
  dlist (w_heap w) lp fm ns →
  Z.of_nat (length ns) + 1 < 2 ^ 64 →
  (∀ ms, w_mallocs w = false :: ms → Q EMQ_STATUS_ERR (set_mallocs ms w)) →
  (∀ n h', hd true (w_mallocs w) = true → w_heap w !! n = None →
    dlist h' lp fm ((n, v) :: ns) →
    (∀ k, k ≠ lp → k ≠ n → k ∉ ns.*1 → h' !! k = w_heap w !! k) →
    Q EMQ_STATUS_OK (set_mallocs (tail (w_mallocs w)) (set_heap h' w))) →
  wp blk (emq_list_add_value (Some lp) (Some v)) Q w.
Proof.
  intros Hd Hroom Hfail Hok. pose proof (dlist_header_not_node _ _ _ _ Hd) as Hlp.
  destruct Hd as [Hh Hn Hnd Hb].
  apply wp_bind, wp_malloc; [intros ms Hms; apply wp_ret; by apply Hfail|].
  intros n Hms Hfresh. assert (lp ≠ n) as Hne by congruence.
  assert (n ∉ ns.*1) as Hnn.
  { intros Hin. destruct (dlseg_node _ _ _ _ _ Hn Hin) as [x Hx]. congruence. }
  wp_exec. destruct ns as [|[k u] ns]; simpl in *; wp_exec.
  - apply (Hok n); [done..| |].
    + constructor; simpl; [|split; [|done]|..].
      * heap_lookup.
      * heap_lookup.
      * apply NoDup_singleton.
      * lia.
    + intros j Hj1 Hj2 Hj3. by simplify_map_eq.
  - destruct Hn as [Hk Hn]. apply NoDup_cons in Hnd as [Hnk Hnd].
    split_nodup. wp_exec.
    apply (Hok n); [done..| |].
    + constructor; simpl.
      * rewrite lookup_insert_eq. unfold set_list_length, set_list_head; simpl.
        rewrite u64_small by lia. do 3 f_equal. lia.
      * split; [heap_lookup|]. split; [heap_lookup|].
        by repeat apply dlseg_insert_frame.
      * apply NoDup_cons; split; [not_elem|]. by apply NoDup_cons.
      * lia.
    + intros j Hj1 Hj2 Hj3. split_nodup. by simplify_map_eq.
Qed.

(** The two conditional statements of [emq_list_delete_node] that bypass the node. *)
Lemma wp_bypass {B} lp fm a l v b (k : unit → M B) (Q : B → world → Prop) w :
  dlist (w_heap w) lp fm (a ++ (l, v) :: b) →
  wp blk (k tt) Q (set_heap (<[lp := inject (mk_list (first_ptr (a ++ b) NULL) (last_ptr (a ++ b) NULL)
                                   (Z.of_nat (length (a ++ (l, v) :: b))) fm)]>
                   (relink a b (w_heap w))) w) →
  wp blk (match last_ptr a NULL with
          | Some _ => modify (last_ptr a NULL) (set_node_next (first_ptr b NULL))
          | None => modify (Some lp) (set_list_head (first_ptr b NULL))
          end)
    (λ _, wp blk (match first_ptr b NULL with
                  | Some _ => modify (first_ptr b NULL) (set_node_prev (last_ptr a NULL))
                  | None => modify (Some lp) (set_list_tail (last_ptr a NULL))
                  end ≫= k) Q) w.
Proof.
  intros Hd HQ. pose proof (dlist_header_not_node _ _ _ _ Hd) as Hlp.
  destruct Hd as [Hh Hn Hnd _]. unfold relink in HQ.
  rewrite dlseg_app in Hn. simpl in Hn. destruct Hn as (Hna & Hl & Hnb).
  revert HQ. destruct a as [|[n u] a _] using rev_ind; destruct b as [|[j x] b]; simpl in *;
    rewrite ?last_ptr_app, ?first_ptr_app, ?app_nil_r, ?last_snoc, ?removelast_last in *;
    simpl in *; rewrite ?dlseg_app in *; simpl in *; deex; split_nodup; intros HQ; wp_exec;
    match goal with |- wp _ _ _ (set_heap ?h _) =>
      match type of HQ with wp _ _ _ (set_heap ?h' _) => replace h with h'; [exact HQ|] end end;
    apply map_eq; intros i; rewrite !lookup_insert; repeat case_decide; simplify_eq/=; try done.
Qed.

Lemma wp_list_delete lp fm a l v b (Q : unit → world → Prop) w :
  dlist (w_heap w) lp fm (a ++ (l, v) :: b) →
  v ≠ lp → v ∉ (a ++ (l, v) :: b).*1 → is_Some (w_heap w !! v) →
  (∀ h', dlist h' lp fm (a ++ b) → h' !! l = None →
    h' !! v = match fm with Some _ => None | None => w_heap w !! v end →
    (∀ k, k ≠ lp → k ≠ v → k ∉ (a ++ (l, v) :: b).*1 → h' !! k = w_heap w !! k) →
    Q tt (set_heap h' w)) →
  wp blk (emq_list_delete_node (Some lp) (Some l)) Q w.
Proof.
  intros Hd Hvlp Hvn [o Hv] HQ.
  pose proof (dlist_header_not_node _ _ _ _ Hd) as Hlp.
  pose proof (dlist_nodes _ _ _ _ Hd) as Hn. pose proof (dlist_nodup _ _ _ _ Hd) as Hnd.
  pose proof (dlist_bound _ _ _ _ Hd) as Hb. rewrite length_app in Hb. simpl in Hb.
  pose proof (dlseg_relink _ _ _ _ _ Hnd Hn) as Hre.
  assert (points_to (w_heap w) l (mk_node (last_ptr a NULL) (first_ptr b NULL) (Some v))) as Hl.
  { rewrite dlseg_app in Hn. apply Hn. }
  clear Hn. unfold emq_list_delete_node. wp_exec.
  apply wp_bypass with (1 := Hd). split_nodup. wp_exec.
  assert (∀ k, k ∉ a.*1 → k ∉ b.*1 → relink a b (w_heap w) !! k = w_heap w !! k) as Hrf.
  { intros k Ha' Hb'. apply relink_frame. not_elem. }
  assert (v ∉ (a ++ b).*1) by not_elem. assert (l ∉ (a ++ b).*1) by not_elem.
  assert (lp ∉ (a ++ b).*1) by not_elem.
  destruct fm as [m|]; wp_exec.
  1: eapply wp_call_free; [heap_reduce; by rewrite Hrf|]; world_simpl.
  all: wp_exec; eapply wp_free; [heap_reduce; by rewrite Hrf|]; world_simpl; wp_exec.
  all: apply HQ; [constructor; simpl|..].
  all: try (by heap_reduce; rewrite ?Hrf).
  all: try (by repeat first [apply dlseg_insert_frame; [done|] | apply dlseg_delete_frame; [done|]]).
  all: try (rewrite ?fmap_app; done).
  all: try (rewrite length_app; lia).
  all: try (heap_reduce; rewrite !length_app; unfold set_list_length; simpl;
            rewrite u64_small by lia; do 3 f_equal; lia).
  all: intros k Hk1 Hk2 Hk3; split_nodup; heap_reduce; by rewrite Hrf.
Qed.

End specs.

(** ** Releasing a list *)

(** [h'] is [h] without the blocks [ls]. *)
Definition freed (ls : list loc) (h h' : heap) : Prop :=
  ∀ k, h' !! k = if decide (k ∈ ls) then None else h !! k.

#[export] Instance freed_proper : Proper ((≡ₚ) ==> eq ==> eq ==> iff) freed.
Proof.
  intros ls ls' Hp h _ <- h' _ <-. unfold freed.
  split; intros Hf k; rewrite Hf; repeat case_decide; try done; exfalso; rewrite Hp in *; done.
Qed.

Lemma freed_nil h h' : freed [] h h' ↔ h' = h.
Proof. split; [|by intros ->]. intros Hf. apply map_eq. intros k. by rewrite Hf. Qed.

Lemma freed_delete l ls h h' : freed ls (delete l h) h' ↔ freed (l :: ls) h h'.
Proof.
  unfold freed. apply forall_proper. intros k. rewrite lookup_delete.
  destruct (decide (k ∈ ls)) as [Hk|Hk].
  - by rewrite decide_True by by right.
  - destruct (decide (l = k)) as [->|Hne]; [by rewrite decide_True by left|].
    rewrite decide_False; [done|]. not_elem.
Qed.

Lemma freed_frame ls h1 h2 h' :
  (∀ k, k ∉ ls → h1 !! k = h2 !! k) → freed ls h1 h' → freed ls h2 h'.
Proof. intros Hk Hf k. rewrite Hf. case_decide; auto. Qed.

Lemma freed_insert ls k o h h' : k ∈ ls → freed ls h h' → freed ls (<[k:=o]> h) h'.
Proof.
  intros Hk. apply freed_frame. intros j Hj. rewrite lookup_insert_ne; [done|]. by intros ->.
Qed.

Lemma freed_alloc ls k o h h' : h !! k = None → freed ls h h' → freed (k :: ls) (<[k:=o]> h) h'.
Proof.
  intros Hk Hf j. rewrite Hf. destruct (decide (j = k)) as [->|Hne].
  - rewrite (decide_True (P := k ∈ k :: ls)) by by left. by case_decide.
  - rewrite lookup_insert_ne by done. apply decide_ext. rewrite elem_of_cons. tauto.
Qed.

(** A new block outside of the list stays in what remains. *)
Lemma freed_insert_outside ls k o h h' :
  k ∉ ls → freed ls h h' → freed ls (<[k:=o]> h) (<[k:=o]> h').
Proof.
  intros Hk Hf j. rewrite !lookup_insert, Hf. destruct (decide (k = j)) as [->|]; [|done].
  by rewrite decide_False.
Qed.

Lemma freed_delete_outside ls k h h' :
  freed ls h h' → freed ls (delete k h) (delete k h').
Proof. intros Hf j. rewrite !lookup_delete, Hf. by repeat case_decide. Qed.

(** The values that the list owns: those its [free] method is called on. *)
Definition owned (fm : option free_method) (ns : list (loc * loc)) : list loc :=
  match fm with Some _ => ns.*2 | None => [] end.

Section release.
Context (blk : Prop).

Lemma wp_release_nodes lp (hd : emq_list) p ns (Q : unit → world → Prop) w :
  points_to (w_heap w) lp hd →
  dlseg (w_heap w) p ns NULL →
  NoDup (lp :: ns.*1 ++ owned (list_free hd) ns) →
  Forall (λ v, is_Some (w_heap w !! v)) (owned (list_free hd) ns) →
  (∀ h', freed (ns.*1 ++ owned (list_free hd) ns) (w_heap w) h' → Q tt (set_heap h' w)) →
  wp blk (release_nodes (length ns) (Some lp) (first_ptr ns NULL)) Q w.
Proof.
  revert p w Q. induction ns as [|[l v] ns IH]; intros p w Q Hh Hn Hnd Hown HQ; csimpl in *.
  - wp_exec. destruct w. apply HQ. destruct (list_free hd); by apply freed_nil.
  - destruct Hn as [Hl Hn]. wp_exec. destruct (list_free hd) as [m|] eqn:Hfm; simpl in *; split_nodup.
    + apply Forall_cons in Hown as [[o Hv] Hown].
      eapply wp_call_free; [done|]. world_simpl. wp_exec. eapply IH.
      * heap_lookup.
      * by repeat (apply dlseg_delete_frame; [done|]).
      * apply NoDup_cons. split; [not_elem|done].
      * rewrite Forall_forall in *. intros v' Hv'. simpl.
        rewrite !lookup_delete_ne; [by apply Hown| |]; by intros ->.
      * intros h' Hf. world_simpl. apply HQ. simpl in Hf. rewrite !freed_delete in Hf.
        by rewrite Permutation_swap, Permutation_middle in Hf.
    + wp_exec. eapply IH.
      * heap_lookup.
      * by apply dlseg_delete_frame.
      * simpl. rewrite app_nil_r in *. apply NoDup_cons. split; [not_elem|done].
      * done.
      * intros h' Hf. world_simpl. apply HQ. simpl in Hf. by rewrite freed_delete in Hf.
Qed.

Lemma wp_list_release lp fm ns (Q : unit → world → Prop) w :
  dlist (w_heap w) lp fm ns →
  NoDup (lp :: ns.*1 ++ owned fm ns) →
  Forall (λ v, is_Some (w_heap w !! v)) (owned fm ns) →
  (∀ h', freed (lp :: ns.*1 ++ owned fm ns) (w_heap w) h' → Q tt (set_heap h' w)) →
  wp blk (emq_list_release (Some lp)) Q w.
Proof.
  intros [Hh Hn Hnd Hb] Hnd' Hown HQ. unfold emq_list_release. wp_exec. rewrite Nat2Z.id.
  eapply wp_release_nodes; [exact Hh|exact Hn|done|done|]. simpl. intros h' Hf. wp_exec.
  apply NoDup_cons in Hnd' as [Hlp _].
  eapply wp_free; [simpl; rewrite Hf, decide_False by done; exact Hh|]. world_simpl.
  apply HQ. intros k. rewrite lookup_delete, Hf.
  destruct (decide (lp = k)) as [->|Hne]; [by rewrite decide_True by left|].
  apply decide_ext. rewrite elem_of_cons. split; [by right|by intros [->|]].
Qed.
End release.

(** ** Iteration *)

(** The loop [while ((node = emq_list_next(&iter)) != NULL)] that collects what it visits. *)
Fixpoint iterate (fuel : nat) (iter : ptr) : M (list (ptr * ptr)) :=
  match fuel with
  | O => out_of_fuel
  | S fuel =>
      '(node, iter) ← emq_list_next iter;
      match node with
      | None => mret []
      | Some _ => n ← load node; rest ← iterate fuel iter; mret ((node, node_value n) :: rest)
      end
  end.

Lemma wp_iterate blk p ns fuel (Q : list (ptr * ptr) → world → Prop) w :
  dlseg (w_heap w) p ns NULL → (length ns < fuel)%nat →
  Q ((λ '(l, v), (Some l, Some v)) <$> ns) w →
  wp blk (iterate fuel (first_ptr ns NULL)) Q w.
Proof.
  revert p fuel Q. induction ns as [|[l v] ns IH]; intros p [|fuel] Q Hn Hf HQ; simpl in *; try lia.
  - by wp_exec.
  - destruct Hn as [Hl Hn]. unfold emq_list_next. wp_exec. eapply IH; [done|lia|]. by wp_exec.
Qed.

(** ** Properties *)

(** A list of one user, at the location 1. *)
Definition sample_user : emq_user := mk_user (replicate 32 NUL) (replicate 32 NUL) 7.
Definition sample_list_heap : heap :=
  <[1%positive := inject (mk_list (Some 2%positive) (Some 2%positive) 1
      (Some emq_user_list_free_handler))]>
    (<[2%positive := inject (mk_node NULL NULL (Some 3%positive))]>
      (<[3%positive := inject sample_user]> ∅)).
Definition sample_list_world : world := mk_world sample_list_heap [] ∅ [] [].

Lemma sample_list_dlist :
  dlist sample_list_heap 1%positive (Some emq_user_list_free_handler) [(2%positive, 3%positive)].
Proof.
  constructor; [reflexivity|by split; [reflexivity|]|apply NoDup_singleton|simpl; lia].
Qed.

(** Fact: [emq_list_add_value] puts a new node with the value in front of the
    list, keeping the list well linked in both directions and its length right, and touches no
    other block; when the node cannot be allocated it reports the failure and changes nothing. *)
Theorem list_add_value_cons lp fm ns v w :
  dlist (w_heap w) lp fm ns → Z.of_nat (length ns) + 1 < 2 ^ 64 →
  ∃ r w', emq_list_add_value (Some lp) (Some v) w = Returns r w' ∧
    ((r = EMQ_STATUS_OK ∧ ∃ n, w_heap w !! n = None ∧ dlist (w_heap w') lp fm ((n, v) :: ns) ∧
       ∀ k, k ≠ lp → k ≠ n → k ∉ ns.*1 → w_heap w' !! k = w_heap w !! k) ∨
     (r = EMQ_STATUS_ERR ∧ w_heap w' = w_heap w)).
Proof.
  intros Hd Hlen. apply wp_returns. eapply wp_list_add; [done|done|by right|].
  intros n h' _ Hn Hd' Hh. left. eauto 10.
Qed.

Lemma list_add_value_cons_witness :
  ∃ r w', emq_list_add_value (Some 1%positive) (Some 3%positive) sample_list_world = Returns r w' ∧
    ((r = EMQ_STATUS_OK ∧ ∃ n, sample_list_heap !! n = None ∧
       dlist (w_heap w') 1%positive (Some emq_user_list_free_handler)
         [(n, 3%positive); (2%positive, 3%positive)] ∧
       ∀ k, k ≠ 1%positive → k ≠ n → k ∉ [2%positive] →
         w_heap w' !! k = sample_list_heap !! k) ∨
     (r = EMQ_STATUS_ERR ∧ w_heap w' = sample_list_heap)).
Proof.
  apply (list_add_value_cons 1%positive (Some emq_user_list_free_handler)
    [(2%positive, 3%positive)] 3%positive sample_list_world);
    [exact sample_list_dlist|reflexivity].
Defined.

(** C37: [emq_list_delete_node] takes one node out of a list, wherever it
    is, relinking its neighbours, and frees the node, and the value too when the list has a
    [free] method; no other block changes. *)
Theorem list_delete_node_removes lp fm a l v b w :
  dlist (w_heap w) lp fm (a ++ (l, v) :: b) →
  v ≠ lp → v ∉ (a ++ (l, v) :: b).*1 → is_Some (w_heap w !! v) →
  ∃ w', emq_list_delete_node (Some lp) (Some l) w = Returns tt w' ∧
    dlist (w_heap w') lp fm (a ++ b) ∧ w_heap w' !! l = None ∧
    w_heap w' !! v = match fm with Some _ => None | None => w_heap w !! v end ∧
    ∀ k, k ≠ lp → k ≠ v → k ∉ (a ++ (l, v) :: b).*1 → w_heap w' !! k = w_heap w !! k.
Proof.
  intros Hd Hv1 Hv2 Hv3.
  assert (wp False (emq_list_delete_node (Some lp) (Some l)) (λ _ w',
    dlist (w_heap w') lp fm (a ++ b) ∧ w_heap w' !! l = None ∧
    w_heap w' !! v = match fm with Some _ => None | None => w_heap w !! v end ∧
    ∀ k, k ≠ lp → k ≠ v → k ∉ (a ++ (l, v) :: b).*1 → w_heap w' !! k = w_heap w !! k) w) as Hw.
  { eapply wp_list_delete; [done..|]. intros h' ????. done. }
  apply wp_returns in Hw as ([] & w' & ? & ?). eauto.
Qed.

Lemma list_delete_node_removes_witness :
  ∃ w', emq_list_delete_node (Some 1%positive) (Some 2%positive) sample_list_world = Returns tt w' ∧
    dlist (w_heap w') 1%positive (Some emq_user_list_free_handler) [] ∧
    w_heap w' !! 2%positive = None ∧ w_heap w' !! 3%positive = None ∧
    ∀ k, k ≠ 1%positive → k ≠ 3%positive → k ∉ [2%positive] →
      w_heap w' !! k = sample_list_heap !! k.
Proof.
  apply (list_delete_node_removes 1%positive (Some emq_user_list_free_handler) [] 2%positive
    3%positive [] sample_list_world);
    [exact sample_list_dlist|discriminate|by apply not_elem_of_cons; split; [|apply not_elem_of_nil]|
     by eexists].
Defined.

(** Fact: [emq_list_release] terminates and frees exactly the header of the
    list, its nodes and, when it has a [free] method, its values: nothing is leaked, nothing is
    freed twice, and nothing else changes. *)
Theorem list_release_frees lp fm ns w :
  dlist (w_heap w) lp fm ns → NoDup (lp :: ns.*1 ++ owned fm ns) →
  Forall (λ v, is_Some (w_heap w !! v)) (owned fm ns) →
  ∃ w', emq_list_release (Some lp) w = Returns tt w' ∧
    freed (lp :: ns.*1 ++ owned fm ns) (w_heap w) (w_heap w').
Proof.
  intros Hd Hnd Hown.
  assert (wp False (emq_list_release (Some lp)) (λ _ w',
    freed (lp :: ns.*1 ++ owned fm ns) (w_heap w) (w_heap w')) w) as Hw.
  { by eapply wp_list_release. }
  apply wp_returns in Hw as ([] & w' & ? & ?). eauto.
Qed.

Lemma list_release_frees_witness :
  ∃ w', emq_list_release (Some 1%positive) sample_list_world = Returns tt w' ∧
    freed [1; 2; 3]%positive sample_list_heap (w_heap w').
Proof.
  apply (list_release_frees 1%positive (Some emq_user_list_free_handler)
    [(2%positive, 3%positive)] sample_list_world);
    [exact sample_list_dlist|apply (bool_decide_unpack _); reflexivity|
     by repeat constructor; eexists].
Defined.

(** Rewinding a list and walking through it to its end. *)
Definition traverse (fuel : nat) (lp : ptr) : M (list (ptr * ptr)) :=
  iter ← emq_list_rewind lp; iterate fuel iter.

(** Fact: after [emq_list_rewind], the calls of [emq_list_next] visit every node of
    the list once, from the head to the tail, and then return [NULL]; walking changes
    nothing. *)
Theorem list_traversal lp fm ns w :
  dlist (w_heap w) lp fm ns →
  traverse (S (length ns)) (Some lp) w = Returns ((λ '(l, v), (Some l, Some v)) <$> ns) w.
Proof.
  intros [Hh Hn _ _].
  assert (wp False (traverse (S (length ns)) (Some lp))
    (λ r w', r = ((λ '(l, v), (Some l, Some v)) <$> ns) ∧ w' = w) w) as Hw.
  { unfold traverse, emq_list_rewind. apply wp_bind, wp_bind. eapply wp_load; [done|].
    apply wp_ret. eapply wp_iterate; [done|lia|done]. }
  apply wp_returns in Hw as (r & w' & -> & -> & ->). done.
Qed.

Lemma list_traversal_witness :
  traverse 2 (Some 1%positive) sample_list_world =
    Returns [(Some 2%positive, Some 3%positive)] sample_list_world.
Proof.
  exact (list_traversal 1%positive (Some emq_user_list_free_handler) [(2%positive, 3%positive)]
    sample_list_world sample_list_dlist).
Defined.
