(* ===== verification/Network.v ===== *)
(** [src/src/network.c]: the socket layer.  The system calls are those of [Machine]; the loops of
    [emq_client_read], [emq_client_write] and [emq_client_writev] are the code's, and they are
    related to functions on byte streams that do not see how the kernel splits them. *)

From Stdlib Require Import Ascii.
From S2P Require Import Prelude Types Machine.

Definition EMQ_NET_OK : Z := 0.
Definition EMQ_NET_ERR : Z := -1.

(** ** System calls *)

(** The kernel transfers at most [0x7ffff000] bytes per call. *)
Definition MAX_RW_COUNT : Z := 2147479552.

Definition set_sock (fd : Z) (sk : sock) (w : world) : world :=
  set_socks (<[fd := sk]> (w_socks w)) w.

(** [read(fd, buf, len)] with [room] bytes left in [buf]: the result and the bytes stored. *)
Definition sys_read (fd len room : Z) : M (Z * list byte) := λ w,
  match w_socks w !! fd with
  | None => Returns (-1, []) w
  | Some sk =>
      match sk_rx sk with
      | [] => Blocks w
      | RdErr :: evs => Returns (-1, []) (set_sock fd (set_sk_rx evs sk) w)
      | RdData bs :: evs =>
          let n := Z.min len (Z.of_nat (length bs)) in
          let rest := drop (Z.to_nat n) bs in
          let evs' := match rest with [] => evs | _ => RdData rest :: evs end in
          if decide (n ≤ room)
          then Returns (n, take (Z.to_nat n) bs) (set_sock fd (set_sk_rx evs' sk) w)
          else Faults OutOfBounds
      end
  end.

(** [write(fd, bs, |bs|)] or [writev] of the concatenation [bs]: the result, and whether
    [errno] is [EINTR]. *)
Definition sys_write (fd : Z) (bs : list byte) : M (Z * bool) := λ w,
  match w_socks w !! fd with
  | None => Returns (-1, false) w
  | Some sk =>
      let accept k evs :=
        let n := Z.to_nat (Z.min (Z.min (Z.of_nat k) MAX_RW_COUNT) (Z.of_nat (length bs))) in
        Returns (Z.of_nat n, false)
                (set_sock fd (mk_sock (sk_rx sk) evs (sk_tx sk ++ take n bs)) w) in
      match sk_wr sk with
      | [] => accept (length bs) []
      | WrAccept k :: evs => accept k evs
      | WrErr :: evs => Returns (-1, false) (set_sock fd (mk_sock (sk_rx sk) evs (sk_tx sk)) w)
      | WrIntr :: evs => Returns (-1, true) (set_sock fd (mk_sock (sk_rx sk) evs (sk_tx sk)) w)
      end
  end.

Definition sys_close (fd : Z) : M unit := λ w,
  Returns tt (set_socks (delete fd (w_socks w)) w).

(** The next of [socket], [setsockopt], [gethostbyname] and [connect]: [Some msg] when it fails,
    with the text of [strerror(errno)]. *)
Definition sys_call : M (option string) := λ w,
  Returns (default None (head (w_sys w))) (set_sys (tail (w_sys w)) w).

Definition fresh_fd (socks : gmap Z sock) : Z := map_fold (λ k _ m, Z.max (k + 1) m) 3 socks.

(** The descriptor of a new socket. *)
Definition new_socket : M Z := λ w,
  let fd := fresh_fd (w_socks w) in
  let sk := default (mk_sock [] [] []) (head (w_peers w)) in
  Returns fd (set_peers (tail (w_peers w)) (set_sock fd sk w)).

(** ** Connecting *)

(** [vsnprintf(err, EMQ_ERROR_BUF_SIZE, ...)] into [client->error]. *)
Definition net_set_error (client : ptr) (msg : string) : M unit :=
  modify client (set_client_error (String.substring 0 (Z.to_nat (EMQ_ERROR_BUF_SIZE - 1)) msg)).

Definition net_create_socket (client : ptr) : M Z :=
  r ← sys_call;
  match r with
  | Some msg => net_set_error client ("socket: " +:+ msg);; mret EMQ_NET_ERR
  | None =>
      sock ← new_socket;
      r ← sys_call;
      match r with
      | Some msg => net_set_error client ("setsockopt: " +:+ msg);; mret EMQ_NET_ERR
      | None => mret sock
      end
  end.

Definition net_tcp_nodelay (client : ptr) : M Z :=
  r ← sys_call;
  match r with
  | Some msg => net_set_error client ("setsockopt: " +:+ msg);; mret EMQ_NET_ERR
  | None => mret EMQ_NET_OK
  end.

(** [close(client->fd); return EMQ_NET_ERR] *)
Definition close_client_fd (client : ptr) : M Z :=
  c ← load client; sys_close (client_fd c);; mret EMQ_NET_ERR.

(** *** [inet_aton]

    Whether a string is an address in the notation of numbers and dots: one to four numbers as
    [strtoul] reads them (decimal, octal, or hexadecimal), each but the last a byte, and the last
    no larger than the bytes that it stands for; what follows a white space is not looked at. *)

Definition digit_in (base : Z) (c : ascii) : option Z :=
  let n := Z.of_nat (nat_of_ascii c) in
  let d := if decide (48 ≤ n ≤ 57) then n - 48 else
           if decide (97 ≤ n ≤ 102) then n - 87 else
           if decide (65 ≤ n ≤ 70) then n - 55 else base in
  if decide (d < base) then Some d else None.

Fixpoint digits_in (base v : Z) (cs : list ascii) : Z * list ascii :=
  match cs with
  | [] => (v, [])
  | c :: cs' =>
      match digit_in base c with
      | Some d => digits_in base (v * base + d) cs'
      | None => (v, cs)
      end
  end.

(** [strtoul(cp, &endp, 0)]: the number and what is left. *)
Definition strtoul (cs : list ascii) : Z * list ascii :=
  match cs with
  | "0"%char :: (("x" | "X")%char :: ((d :: _) as hex)) as octal =>
      if digit_in 16 d is Some _ then digits_in 16 0 hex else digits_in 8 0 octal
  | "0"%char :: octal => digits_in 8 0 octal
  | _ => digits_in 10 0 cs
  end.

Definition white_space (c : ascii) : bool :=
  let n := Z.of_nat (nat_of_ascii c) in bool_decide (n = 32 ∨ 9 ≤ n ≤ 13).

(** An address that may have [dots] more dots. *)
Fixpoint address (dots : nat) (cs : list ascii) : bool :=
  match cs with
  | [] => false
  | c :: _ =>
      if digit_in 10 c is Some _ then
        let '(v, rest) := strtoul cs in
        match rest with
        | "."%char :: rest =>
            match dots with
            | O => false
            | S dots => bool_decide (v ≤ 255) && address dots rest
            end
        | [] => bool_decide (v < 256 ^ Z.of_nat (S dots))
        | c :: _ => white_space c && bool_decide (v < 256 ^ Z.of_nat (S dots))
        end
      else false
  end.

Definition inet_aton (addr : string) : bool := address 3 (String.list_ascii_of_string addr).

Example inet_aton_examples :
  (inet_aton <$> ["127.0.0.1"; "0x7f.1"; "4294967295"; "0177.1 x"]%string = replicate 4 true) ∧
  (inet_aton <$> ["localhost"; "256.1"; "4294967296"; "1.2.3.4.5"; "1."; ""]%string = replicate 6 false).
Proof. split; reflexivity. Qed.

(** The address, if it is one; else the one that [gethostbyname] finds, in a structure that all its
    calls share and that [memcpy] reads: whether the address is known. *)
Definition resolve (client : ptr) (addr : string) : M bool :=
  if inet_aton addr then mret true else
  he ← sys_call;
  match he with
  | None => mret true
  | Some _ => net_set_error client ("can't resolve: " +:+ addr);; mret false
  end.

(** The system calls of a connection by TCP. *)
Definition tcp_calls (addr : string) : nat := if inet_aton addr then 4 else 5.

Definition emq_client_tcp_connect (client : ptr) (addr : string) (port : Z) : M Z :=
  fd ← net_create_socket client;
  modify client (set_client_fd fd);;
  if decide (fd = EMQ_NET_ERR) then mret EMQ_NET_ERR else
  known ← resolve client addr;
  if negb known then close_client_fd client else
  r ← sys_call;
  match r with
  | Some msg => net_set_error client ("connect: " +:+ msg);; close_client_fd client
  | None =>
      r ← net_tcp_nodelay client;
      if decide (r = EMQ_NET_ERR) then close_client_fd client else mret EMQ_NET_OK
  end.

Definition emq_client_unix_connect (client : ptr) (path : string) : M Z :=
  fd ← net_create_socket client;
  modify client (set_client_fd fd);;
  if decide (fd = EMQ_NET_ERR) then mret EMQ_NET_ERR else
  r ← sys_call;
  match r with
  | Some msg => net_set_error client ("connect: " +:+ msg);; close_client_fd client
  | None => mret EMQ_NET_OK
  end.

Definition emq_client_disconnect (client : ptr) : M unit :=
  c ← load client; sys_close (client_fd c).

(** ** Reading and writing *)

(** Every iteration of the read loop takes a byte or an event off the socket: the weight of the
    pending events bounds their number. *)
Definition rx_weight (evs : list rd_event) : nat :=
  sum_list ((λ ev, match ev with RdData bs => S (length bs) | RdErr => 1%nat end) <$> evs).

Definition read_fuel (fd : Z) : M nat := λ w,
  Returns (S (from_option (λ sk, rx_weight (sk_rx sk)) O (w_socks w !! fd))) w.

Fixpoint read_loop (fuel : nat) (fd cap count totlen : Z) (buf : list byte) : M (Z * list byte) :=
  match fuel with
  | O => out_of_fuel
  | S fuel =>
      if decide (totlen = count) then mret (totlen, buf) else
      '(nread, bs) ← sys_read fd (u64 (count - totlen)) (cap - totlen);
      if decide (nread = -1 ∨ nread = 0) then mret (-1, buf) else
      read_loop fuel fd cap count (totlen + nread) (buf ++ bs)
  end.

(** [emq_client_read(client, buf, count)] into a buffer of [cap] bytes: the result of the
    function and the bytes it stored. *)
Definition emq_client_read (client : ptr) (cap count : Z) : M (Z * list byte) :=
  c ← load client;
  fuel ← read_fuel (client_fd c);
  read_loop fuel (client_fd c) cap count 0 [].

Definition write_fuel (fd : Z) : M nat := λ w,
  Returns (S (S (from_option (λ sk, length (sk_wr sk)) O (w_socks w !! fd)))) w.

Fixpoint write_loop (fuel : nat) (fd count totlen : Z) (buf : list byte) : M Z :=
  match fuel with
  | O => out_of_fuel
  | S fuel =>
      if decide (totlen = count) then mret totlen else
      '(nwritten, _) ← sys_write fd (take (Z.to_nat (count - totlen)) buf);
      if decide (nwritten = 0) then mret totlen else
      if decide (nwritten = -1) then mret (-1) else
      write_loop fuel fd count (totlen + nwritten) (drop (Z.to_nat nwritten) buf)
  end.

Definition emq_client_write (client : ptr) (buf : list byte) (count : Z) : M Z :=
  c ← load client;
  fuel ← write_fuel (client_fd c);
  write_loop fuel (client_fd c) count 0 buf.

Fixpoint writev_loop (fuel : nat) (fd : Z) (data : list byte) : M Z :=
  match fuel with
  | O => out_of_fuel
  | S fuel =>
      '(ret, eintr) ← sys_write fd data;
      if decide (i32 ret = -1 ∧ eintr = true) then writev_loop fuel fd data else mret (i32 ret)
  end.

(** [iov] holds the contents of the vectors. *)
Definition emq_client_writev (client : ptr) (iov : list (list byte)) : M Z :=
  c ← load client;
  fuel ← write_fuel (client_fd c);
  writev_loop fuel (client_fd c) (concat iov).

(** ** Byte streams

    The abstraction of the events of a socket: the bytes the peer sends, in order, with the
    places where [read] fails (an error or the end of the stream). *)

Inductive rx_item := RxByte (b : byte) | RxFail.

Definition flatten_event (ev : rd_event) : list rx_item :=
  match ev with RdData [] | RdErr => [RxFail] | RdData bs => RxByte <$> bs end.

Definition flatten (evs : list rd_event) : list rx_item := evs ≫= flatten_event.

(** Taking [n] bytes off a stream. *)
Inductive taken := TkGot (bs : list byte) (rest : list rx_item) | TkFail (rest : list rx_item) | TkStarved.

Definition taken_cons (b : byte) (t : taken) : taken :=
  match t with TkGot bs rest => TkGot (b :: bs) rest | _ => t end.

Fixpoint take_rx (n : nat) (items : list rx_item) : taken :=
  match n with
  | O => TkGot [] items
  | S n =>
      match items with
      | [] => TkStarved
      | RxFail :: rest => TkFail rest
      | RxByte b :: rest => taken_cons b (take_rx n rest)
      end
  end.

(** What becomes of a message handed to the socket: delivered whole, in part, or refused. *)
Inductive sent := Sent | Short | Failed.

#[export] Instance sent_eq_dec : EqDecision sent.
Proof. solve_decision. Defined.

(** The repeated [write]s of [bs]. *)
Fixpoint deliver (wr : list wr_event) (bs : list byte) : sent * list byte * list wr_event :=
  match bs with
  | [] => (Sent, [], wr)
  | _ =>
      match wr with
      | [] => (Sent, bs, [])
      | WrAccept k :: wr =>
          match Nat.min k (length bs) with
          | O => (Short, [], wr)
          | n => let '(s, d, wr') := deliver wr (drop n bs) in (s, take n bs ++ d, wr')
          end
      | WrErr :: wr | WrIntr :: wr => (Failed, [], wr)
      end
  end.

(** The one [writev] of [bs], retried when it is interrupted. *)
Fixpoint deliver_once (wr : list wr_event) (bs : list byte) : sent * list byte * list wr_event :=
  match wr with
  | [] => (Sent, bs, [])
  | WrAccept k :: wr =>
      (if decide (length bs ≤ k)%nat then Sent else Short, take k bs, wr)
  | WrErr :: wr => (Failed, [], wr)
  | WrIntr :: wr => deliver_once wr bs
  end.

(** ** Lemmas on streams *)

Definition taken_app (bs : list byte) (t : taken) : taken := foldr taken_cons t bs.

Lemma take_rx_app bs items n :
  (length bs ≤ n)%nat →
  take_rx n ((RxByte <$> bs) ++ items) = taken_app bs (take_rx (n - length bs) items).
Proof.
  revert n. induction bs as [|b bs IH]; intros [|n] Hn; csimpl in *; try done; try lia.
  by rewrite IH by lia.
Qed.

Lemma taken_app_got bs bs' rest : taken_app bs (TkGot bs' rest) = TkGot (bs ++ bs') rest.
Proof. induction bs as [|b bs IH]; simpl; [done|]. by rewrite IH. Qed.
Lemma taken_app_fail bs rest : taken_app bs (TkFail rest) = TkFail rest.
Proof. induction bs as [|b bs IH]; simpl; [done|]. by rewrite IH. Qed.
Lemma taken_app_starved bs : taken_app bs TkStarved = TkStarved.
Proof. induction bs as [|b bs IH]; simpl; [done|]. by rewrite IH. Qed.

(** Exactly the bytes that were sent are taken. *)
Lemma take_rx_exact bs items n :
  length bs = n → take_rx n ((RxByte <$> bs) ++ items) = TkGot bs items.
Proof. intros <-. rewrite take_rx_app, Nat.sub_diag by lia. simpl.
  by rewrite taken_app_got, app_nil_r.
Qed.

Lemma take_rx_length n items bs rest :
  take_rx n items = TkGot bs rest → length bs = n ∧ items = (RxByte <$> bs) ++ rest.
Proof.
  revert items bs. induction n as [|n IH]; intros items bs; simpl; [by intros [= <- <-]|].
  destruct items as [|[b|] items]; try done.
  destruct (take_rx n items) as [bs' rest'| |] eqn:Ht; simpl; try done.
  intros [= <- <-]. destruct (IH _ _ Ht) as [<- ->]. done.
Qed.

(** Taking bytes makes the stream shorter. *)
Lemma take_rx_shorter n items :
  match take_rx n items with
  | TkGot bs rest => (length rest + n = length items)%nat
  | TkFail rest => (length rest < length items)%nat
  | TkStarved => True
  end.
Proof.
  revert items. induction n as [|n IH]; intros items; simpl; [lia|].
  destruct items as [|[b|] items]; simpl; [done| |lia].
  specialize (IH items). destruct (take_rx n items); simpl; lia.
Qed.

Lemma flatten_cons_data bs evs :
  bs ≠ [] → flatten (RdData bs :: evs) = (RxByte <$> bs) ++ flatten evs.
Proof. by destruct bs. Qed.

(** The events left by a read that stored the first [n] bytes of [bs]. *)
Lemma flatten_rest bs evs n :
  bs ≠ [] →
  (RxByte <$> take n bs) ++
    flatten (match drop n bs with [] => evs | _ => RdData (drop n bs) :: evs end) =
  flatten (RdData bs :: evs).
Proof.
  intros Hbs. rewrite flatten_cons_data by done. rewrite <-(take_drop n bs) at 3.
  rewrite fmap_app, <-app_assoc. f_equal.
  destruct (drop n bs) as [|b d]; [done|]. by rewrite flatten_cons_data.
Qed.

Lemma rx_weight_rest bs evs n :
  bs ≠ [] → n ≠ O →
  (rx_weight (match drop n bs with [] => evs | _ => RdData (drop n bs) :: evs end)
   < rx_weight (RdData bs :: evs))%nat.
Proof.
  intros Hbs Hn. unfold rx_weight. pose proof (length_drop bs n) as Hl.
  destruct bs as [|b bs]; [done|]. destruct n as [|n]; [done|].
  revert Hl. destruct (drop (S n) (b :: bs)); csimpl; lia.
Qed.

(** ** Specification of [emq_client_read] *)

(** The outcome of reading [n] bytes from the socket [sk] of [fd], for any postcondition. *)
Definition reads (blk : Prop) (fd : Z) (sk : sock) (n : nat) (w : world)
    (Q : Z * list byte → world → Prop) : Prop :=
  match take_rx n (flatten (sk_rx sk)) with
  | TkGot bs rest =>
      ∀ evs, flatten evs = rest →
        Q (Z.of_nat n, bs) (set_sock fd (set_sk_rx evs sk) w)
  | TkFail rest =>
      ∀ evs buf, flatten evs = rest → (length buf ≤ n)%nat →
        Q (-1, buf) (set_sock fd (set_sk_rx evs sk) w)
  | TkStarved => blk
  end.

Lemma set_sock_twice fd sk sk' w : set_sock fd sk (set_sock fd sk' w) = set_sock fd sk w.
Proof. unfold set_sock. simpl. by rewrite insert_insert_eq. Qed.

Lemma set_sock_id fd sk w : w_socks w !! fd = Some sk → set_sock fd (set_sk_rx (sk_rx sk) sk) w = w.
Proof. intros Hs. unfold set_sock. destruct sk, w. unfold set_sk_rx, set_socks; simpl in *. by rewrite insert_id. Qed.

Lemma lookup_set_sock fd sk w : w_socks (set_sock fd sk w) !! fd = Some sk.
Proof. apply lookup_insert_eq. Qed.


Section read.
Context (blk : Prop) (fd cap : Z).

Lemma wp_read_loop fuel n totlen buf sk (Q : Z * list byte → world → Prop) w :
  w_socks w !! fd = Some sk →
  (rx_weight (sk_rx sk) < fuel)%nat →
  0 ≤ totlen → totlen + Z.of_nat n ≤ cap → totlen + Z.of_nat n < 2 ^ 31 →
  reads blk fd sk n w (λ '(r, bs) w',
    if decide (r = -1)
    then ∀ buf', (length buf' ≤ length buf + n)%nat → Q (-1, buf') w'
    else Q (totlen + r, buf ++ bs) w') →
  wp blk (read_loop fuel fd cap (totlen + Z.of_nat n) totlen buf) Q w.
Proof.
  revert n totlen buf sk w. induction fuel as [|fuel IH]; intros n totlen buf sk w Hsk Hf H0 Hcap H31 HQ; [lia|].
  unfold reads in HQ. simpl.
  destruct (decide (totlen = totlen + Z.of_nat n)) as [Hn|Hn].
  { assert (n = O) as -> by lia. specialize (HQ _ eq_refl). simpl in HQ.
    rewrite app_nil_r, set_sock_id, Z.add_0_r in HQ by (done || lia). by wp_step. }
  wp_step. replace (totlen + Z.of_nat n - totlen) with (Z.of_nat n) by lia. rewrite u64_small by lia.
  unfold wp at 1, sys_read. rewrite Hsk.
  destruct (sk_rx sk) as [|[[|b bs]|] evs] eqn:Hrx; (destruct n as [|n]; [lia|]).
  - done.
  - rewrite Z.min_r, decide_True by (simpl; lia). simpl.
    apply (HQ evs []); simpl; (done || lia).
  - set (k := Nat.min (S n) (length (b :: bs))).
    replace (Z.min _ _) with (Z.of_nat k) by lia. rewrite Nat2Z.id, decide_True by lia.
    rewrite decide_False by (simpl in *; lia).
    set (evs' := match drop k (b :: bs) with [] => evs | _ => RdData (drop k (b :: bs)) :: evs end).
    assert (flatten (RdData (b :: bs) :: evs) = (RxByte <$> take k (b :: bs)) ++ flatten evs') as Hfl.
    { symmetry. by apply flatten_rest. }
    assert (length (take k (b :: bs)) = k) as Hlk by (rewrite length_take; lia).
    rewrite Hfl, take_rx_app, Hlk in HQ by lia.
    replace (totlen + Z.of_nat (S n)) with (totlen + Z.of_nat k + Z.of_nat (S n - k)) by lia.
    eapply IH; [apply lookup_set_sock| |lia..|].
    + simpl. eapply Nat.lt_le_trans; [apply rx_weight_rest; [done|simpl in *; lia]|lia].
    + unfold reads. cbn [sk_rx set_sk_rx]. fold evs'.
      assert (k ≤ S n)%nat by lia. clearbody evs' k.
      destruct (take_rx _ (flatten evs')) as [bs' rest|rest|].
      * rewrite taken_app_got in HQ. intros evs'' Hevs.
        rewrite set_sock_twice, decide_False by lia. specialize (HQ _ Hevs).
        rewrite decide_False in HQ by lia. rewrite <-app_assoc.
        by replace (totlen + Z.of_nat k + Z.of_nat (S n - k)) with (totlen + Z.of_nat (S n)) by lia.
      * rewrite taken_app_fail in HQ. intros evs'' buf'' Hevs _. rewrite set_sock_twice.
        rewrite decide_True by done. intros buf'. rewrite length_app, Hlk. intros Hbuf.
        apply (HQ evs'' []); simpl; (done || lia).
      * by rewrite taken_app_starved in HQ.
  - simpl. apply (HQ evs []); simpl; (done || lia).
Qed.

Lemma wp_client_read l c sk n (Q : Z * list byte → world → Prop) w :
  points_to (w_heap w) l c → client_fd c = fd → w_socks w !! fd = Some sk →
  Z.of_nat n ≤ cap → Z.of_nat n < 2 ^ 31 →
  reads blk fd sk n w Q →
  wp blk (emq_client_read (Some l) cap (Z.of_nat n)) Q w.
Proof.
  intros Hc Hfd Hsk Hcap H31 HQ. unfold emq_client_read. wp_exec1. wp_exec1. rewrite Hfd.
  wp_step. unfold wp at 1, read_fuel. rewrite Hsk. cbn [from_option].
  apply (wp_read_loop _ n 0 [] sk); [done|lia..|].
  unfold reads in *. destruct (take_rx _ _).
  - intros evs Hevs. rewrite decide_False by lia. by apply HQ.
  - intros evs buf Hevs _. rewrite decide_True by done. intros buf'. by apply HQ.
  - done.
Qed.
End read.

(** ** Specification of [emq_client_write] and [emq_client_writev] *)

(** The state after a message was handed to the socket. *)
Definition after_send (fd : Z) (sk : sock) (d : list byte) (wr : list wr_event) (w : world) : world :=
  set_sock fd (mk_sock (sk_rx sk) wr (sk_tx sk ++ d)) w.

(** What the result of a write says, when [totlen] bytes were sent before and [len] remained:
    only [-1] is a failure. *)
Definition send_result (totlen : Z) (s : sent) (len : nat) (r : Z) : Prop :=
  match s with
  | Sent => r = totlen + Z.of_nat len
  | Short => totlen ≤ r < totlen + Z.of_nat len
  | Failed => r = -1
  end.

Lemma after_send_after_send fd sk d d' wr wr' w :
  after_send fd (mk_sock (sk_rx sk) wr' (sk_tx sk ++ d')) d wr (after_send fd sk d' wr' w) =
  after_send fd sk (d' ++ d) wr w.
Proof. unfold after_send. simpl. by rewrite set_sock_twice, app_assoc. Qed.

Lemma deliver_nil wr : deliver wr [] = (Sent, [], wr).
Proof. by destruct wr as [|[]]. Qed.

Section write.
Context (blk : Prop) (fd : Z).

Lemma wp_sys_write bs sk (Q : Z * bool → world → Prop) w :
  w_socks w !! fd = Some sk → Z.of_nat (length bs) ≤ MAX_RW_COUNT →
  match sk_wr sk with
  | [] => Q (Z.of_nat (length bs), false) (after_send fd sk bs [] w)
  | WrAccept k :: wr =>
      Q (Z.of_nat (Nat.min k (length bs)), false)
        (after_send fd sk (take (Nat.min k (length bs)) bs) wr w)
  | WrErr :: wr => Q (-1, false) (after_send fd sk [] wr w)
  | WrIntr :: wr => Q (-1, true) (after_send fd sk [] wr w)
  end →
  wp blk (sys_write fd bs) Q w.
Proof.
  intros Hsk Hlen HQ. unfold wp, sys_write. rewrite Hsk.
  destruct (sk_wr sk) as [|[k| |] wr]; unfold after_send in HQ; rewrite ?app_nil_r in HQ;
    try done.
  - rewrite Z.min_r, Nat2Z.id by lia. by rewrite take_ge by done.
  - replace (Z.to_nat _) with (Nat.min k (length bs)) by lia. done.
Qed.

Lemma after_send_nil sk w :
  w_socks w !! fd = Some sk → after_send fd sk [] (sk_wr sk) w = w.
Proof.
  intros Hsk. unfold after_send. rewrite app_nil_r.
  destruct sk as [rx wr tx]. exact (set_sock_id fd (mk_sock rx wr tx) w Hsk).
Qed.

Lemma wp_write_loop fuel totlen bs sk (Q : Z → world → Prop) w :
  w_socks w !! fd = Some sk →
  (S (length (sk_wr sk)) < fuel)%nat →
  Z.of_nat (length bs) ≤ MAX_RW_COUNT → 0 ≤ totlen →
  (let '(s, d, wr) := deliver (sk_wr sk) bs in
   ∀ r, send_result totlen s (length bs) r → Q r (after_send fd sk d wr w)) →
  wp blk (write_loop fuel fd (totlen + Z.of_nat (length bs)) totlen bs) Q w.
Proof.
  revert totlen bs sk w.
  induction fuel as [|fuel IH]; intros totlen bs sk w Hsk Hf Hmax H0 HQ; [lia|].
  cbn [write_loop]. destruct (decide (totlen = totlen + Z.of_nat (length bs))) as [Hn|Hn].
  { destruct bs; [|simpl in Hn; lia]. wp_step. rewrite deliver_nil, after_send_nil in HQ by done.
    apply HQ. simpl. lia. }
  replace (Z.to_nat (totlen + Z.of_nat (length bs) - totlen)) with (length bs) by lia.
  rewrite take_ge by done. wp_step. eapply wp_sys_write; [done..|].
  destruct bs as [|b bs]; [simpl in Hn; lia|].
  destruct (sk_wr sk) as [|[k| |] wr] eqn:Hwr; cbn -[length Z.of_nat Nat.min take drop] in *.
  - rewrite !decide_False by (simpl; lia). destruct fuel as [|fuel]; [lia|].
    cbn [write_loop]. rewrite decide_True by done. wp_step. by apply HQ.
  - destruct (Nat.min k (length (b :: bs))) as [|n] eqn:Hk.
    + rewrite decide_True by done. wp_step. apply HQ. simpl. lia.
    + rewrite !decide_False by lia. rewrite Nat2Z.id.
      assert (length (drop (S n) (b :: bs)) + S n = length (b :: bs))%nat as Hl
        by (rewrite length_drop; lia).
      replace (totlen + Z.of_nat (length (b :: bs))) with
        (totlen + Z.of_nat (S n) + Z.of_nat (length (drop (S n) (b :: bs)))) by lia.
      eapply IH; [apply lookup_set_sock|simpl in *; lia|lia..|]. cbn [sk_wr].
      destruct (deliver wr (drop (S n) (b :: bs))) as [[s d] wr'].
      intros r Hr. rewrite after_send_after_send. apply HQ.
      destruct s; simpl in Hr |- *; simpl in Hl; lia.
  - by apply HQ.
  - by apply HQ.
Qed.

Lemma wp_client_write l c sk bs (Q : Z → world → Prop) w :
  points_to (w_heap w) l c → client_fd c = fd → w_socks w !! fd = Some sk →
  Z.of_nat (length bs) ≤ MAX_RW_COUNT →
  (let '(s, d, wr) := deliver (sk_wr sk) bs in
   ∀ r, send_result 0 s (length bs) r → Q r (after_send fd sk d wr w)) →
  wp blk (emq_client_write (Some l) bs (Z.of_nat (length bs))) Q w.
Proof.
  intros Hc Hfd Hsk Hmax HQ. unfold emq_client_write. wp_exec1. wp_exec1. rewrite Hfd.
  wp_step. unfold wp at 1, write_fuel. rewrite Hsk. cbn [from_option].
  apply (wp_write_loop _ 0 bs sk); [done|lia..|done].
Qed.

Lemma wp_writev_loop fuel bs sk (Q : Z → world → Prop) w :
  w_socks w !! fd = Some sk →
  (length (sk_wr sk) < fuel)%nat →
  Z.of_nat (length bs) ≤ MAX_RW_COUNT →
  (let '(s, d, wr) := deliver_once (sk_wr sk) bs in
   ∀ r, send_result 0 s (length bs) r → Q r (after_send fd sk d wr w)) →
  wp blk (writev_loop fuel fd bs) Q w.
Proof.
  unfold MAX_RW_COUNT. revert sk w.
  induction fuel as [|fuel IH]; intros sk w Hsk Hf Hmax HQ; [lia|].
  cbn [writev_loop]. wp_step. eapply wp_sys_write; [done..|].
  destruct (sk_wr sk) as [|[k| |] wr] eqn:Hwr; cbn -[length Z.of_nat Nat.min i32] in *.
  - rewrite decide_False by (by intros [_ ?]). wp_step. apply HQ. apply i32_small. lia.
  - rewrite decide_False by (by intros [_ ?]). wp_step. rewrite i32_small by lia.
    destruct (decide (length bs ≤ k)%nat).
    + replace (take (Nat.min k (length bs)) bs) with (take k bs)
        by (rewrite !take_ge by lia; done). apply HQ. simpl. lia.
    + rewrite Nat.min_l by lia. apply HQ. simpl. lia.
  - rewrite decide_False by (by intros [_ ?]). wp_step. by apply HQ.
  - rewrite decide_True by done.
    eapply IH; [apply lookup_set_sock|simpl in *; lia|done|]. cbn [sk_wr].
    destruct (deliver_once wr bs) as [[s d] wr'].
    intros r Hr. rewrite after_send_after_send. by apply HQ.
Qed.

Lemma wp_client_writev l c sk iov (Q : Z → world → Prop) w :
  points_to (w_heap w) l c → client_fd c = fd → w_socks w !! fd = Some sk →
  Z.of_nat (length (concat iov)) ≤ MAX_RW_COUNT →
  (let '(s, d, wr) := deliver_once (sk_wr sk) (concat iov) in
   ∀ r, send_result 0 s (length (concat iov)) r → Q r (after_send fd sk d wr w)) →
  wp blk (emq_client_writev (Some l) iov) Q w.
Proof.
  intros Hc Hfd Hsk Hmax HQ. unfold emq_client_writev. wp_exec1. wp_exec1. rewrite Hfd.
  wp_step. unfold wp at 1, write_fuel. rewrite Hsk. cbn [from_option].
  eapply wp_writev_loop; [done|lia|done..].
Qed.
End write.

(** What is delivered is a prefix of the message, and the whole of it when it is [Sent]. *)
Lemma deliver_prefix wr bs :
  let '(fate, tx, _) := deliver wr bs in tx `prefix_of` bs ∧ (fate = Sent → tx = bs).
Proof.
  revert bs. induction wr as [|[k| |] wr IH]; intros [|b bs]; simpl; try done;
    try (split; [apply prefix_nil|done]).
  destruct (Nat.min k (S (length bs))) as [|n]; [split; [apply prefix_nil|done]|].
  specialize (IH (drop n bs)). simpl. destruct (deliver wr (drop n bs)) as [[fate tx] wr'].
  destruct IH as [Hp Hs]. split.
  - rewrite <-(take_drop n bs) at 2. by apply prefix_cons, prefix_app.
  - intros Hf. rewrite Hs by done. by rewrite take_drop.
Qed.

Lemma deliver_once_prefix wr bs :
  let '(fate, tx, _) := deliver_once wr bs in tx `prefix_of` bs ∧ (fate = Sent → tx = bs).
Proof.
  induction wr as [|[k| |] wr IH]; simpl; try done.
  - split; [apply prefix_take|]. case_decide; [|done]. intros _. by apply take_ge.
  - split; [apply prefix_nil|done].
Qed.

(** ** Properties *)

(** A client at the location 1 with the descriptor 3, and its socket. *)
Definition sample_client : emq_client := mk_client 0 "" NULL 0 0 0 3 NULL NULL.
Definition sample_net_world (sk : sock) : world :=
  mk_world {[1%positive := inject sample_client]} [] {[3 := sk]} [] [].

(** C9: [emq_client_read] reads exactly the number of bytes it is asked for,
    however the kernel cuts the stream: it returns them and leaves the rest of the stream; when
    the stream fails or ends before, it returns -1; and it waits only when the bytes have not
    been sent. The loop terminates and never stores outside of the buffer. *)
Theorem client_read_exact l c sk cap n w :
  points_to (w_heap w) l c → w_socks w !! client_fd c = Some sk →
  Z.of_nat n ≤ cap → Z.of_nat n < 2 ^ 31 →
  match take_rx n (flatten (sk_rx sk)) with
  | TkGot bs rest => ∃ evs, flatten evs = rest ∧
      emq_client_read (Some l) cap (Z.of_nat n) w =
        Returns (Z.of_nat n, bs) (set_sock (client_fd c) (set_sk_rx evs sk) w)
  | TkFail rest => ∃ evs buf, flatten evs = rest ∧ (length buf ≤ n)%nat ∧
      emq_client_read (Some l) cap (Z.of_nat n) w =
        Returns (-1, buf) (set_sock (client_fd c) (set_sk_rx evs sk) w)
  | TkStarved => ∃ w', emq_client_read (Some l) cap (Z.of_nat n) w = Blocks w'
  end.
Proof.
  intros Hc Hsk Hcap Hn.
  pose (Q := λ (y : Z * list byte) w', match take_rx n (flatten (sk_rx sk)) with
    | TkGot bs rest => ∃ evs, flatten evs = rest ∧
        y = (Z.of_nat n, bs) ∧ w' = set_sock (client_fd c) (set_sk_rx evs sk) w
    | TkFail rest => ∃ evs buf, flatten evs = rest ∧ (length buf ≤ n)%nat ∧
        y = (-1, buf) ∧ w' = set_sock (client_fd c) (set_sk_rx evs sk) w
    | TkStarved => False
    end).
  assert (wp (take_rx n (flatten (sk_rx sk)) = TkStarved)
    (emq_client_read (Some l) cap (Z.of_nat n)) Q w) as Hw.
  { eapply wp_client_read; [done..|]. unfold reads, Q. destruct (take_rx _ _); eauto 10. }
  unfold wp, Q in Hw.
  destruct (emq_client_read (Some l) cap (Z.of_nat n) w) as [y w'| |w'|]; [|done| |done];
    destruct (take_rx n (flatten (sk_rx sk))); try done; eauto.
  - destruct Hw as (evs & ? & -> & ->). eauto.
  - destruct Hw as (evs & buf & ? & ? & -> & ->). eauto 10.
Qed.

Lemma client_read_exact_witness :
  let sk := mk_sock [RdData [Byte.x01]; RdData [Byte.x02; Byte.x03]] [] [] in
  ∃ evs, flatten evs = [RxByte Byte.x03] ∧
    emq_client_read (Some 1%positive) 2 2 (sample_net_world sk) =
      Returns (2, [Byte.x01; Byte.x02]) (set_sock 3 (set_sk_rx evs sk) (sample_net_world sk)).
Proof.
  intros sk.
  exact (client_read_exact 1%positive sample_client sk 2 2 (sample_net_world sk) eq_refl eq_refl
    ltac:(lia) ltac:(lia)).
Defined.

(** Fact: [emq_client_write] hands the buffer over piece by piece: it returns its
    length when everything was taken, -1 when a write fails, and a smaller number, which its
    callers do not tell from a success, when a write takes nothing; what was taken is always a
    prefix of the buffer, and the loop terminates. *)
Theorem client_write_all l c sk bs w :
  points_to (w_heap w) l c → w_socks w !! client_fd c = Some sk →
  Z.of_nat (length bs) ≤ MAX_RW_COUNT →
  let '(fate, tx, wr) := deliver (sk_wr sk) bs in
  ∃ r, emq_client_write (Some l) bs (Z.of_nat (length bs)) w =
      Returns r (after_send (client_fd c) sk tx wr w) ∧
    send_result 0 fate (length bs) r ∧ tx `prefix_of` bs ∧ (fate = Sent → tx = bs).
Proof.
  intros Hc Hsk Hlen. pose proof (deliver_prefix (sk_wr sk) bs) as Hp.
  assert (wp False (emq_client_write (Some l) bs (Z.of_nat (length bs))) (λ r w',
    let '(fate, tx, wr) := deliver (sk_wr sk) bs in
    w' = after_send (client_fd c) sk tx wr w ∧ send_result 0 fate (length bs) r) w) as Hw.
  { eapply wp_client_write; [done..|]. by destruct (deliver _ _) as [[fate tx] wr]. }
  apply wp_returns in Hw as (r & w' & Hw & Hr).
  destruct (deliver (sk_wr sk) bs) as [[fate tx] wr]. destruct Hr as [-> Hr]. destruct Hp.
  eauto 10.
Qed.

Lemma client_write_all_witness :
  let sk := mk_sock [] [WrAccept 1; WrAccept 0] [] in
  ∃ r, emq_client_write (Some 1%positive) [Byte.x01; Byte.x02] 2 (sample_net_world sk) =
      Returns r (after_send 3 sk [Byte.x01] [] (sample_net_world sk)) ∧
    send_result 0 Short 2 r ∧ [Byte.x01] `prefix_of` [Byte.x01; Byte.x02] ∧
    (Short = Sent → [Byte.x01] = [Byte.x01; Byte.x02]).
Proof.
  intros sk.
  exact (client_write_all 1%positive sample_client sk [Byte.x01; Byte.x02] (sample_net_world sk)
    eq_refl eq_refl ltac:(unfold MAX_RW_COUNT; simpl; lia)).
Defined.

(** Fact: [emq_client_writev] hands the vectors over, in order, in one call,
    which it repeats as long as signals interrupt it; it returns -1 when the call fails and the
    number of bytes taken otherwise, whether or not that is all of them. *)
Theorem client_writev_once l c sk iov w :
  points_to (w_heap w) l c → w_socks w !! client_fd c = Some sk →
  Z.of_nat (length (concat iov)) ≤ MAX_RW_COUNT →
  let '(fate, tx, wr) := deliver_once (sk_wr sk) (concat iov) in
  ∃ r, emq_client_writev (Some l) iov w = Returns r (after_send (client_fd c) sk tx wr w) ∧
    send_result 0 fate (length (concat iov)) r ∧ tx `prefix_of` concat iov ∧
    (fate = Sent → tx = concat iov).
Proof.
  intros Hc Hsk Hlen. pose proof (deliver_once_prefix (sk_wr sk) (concat iov)) as Hp.
  assert (wp False (emq_client_writev (Some l) iov) (λ r w',
    let '(fate, tx, wr) := deliver_once (sk_wr sk) (concat iov) in
    w' = after_send (client_fd c) sk tx wr w ∧ send_result 0 fate (length (concat iov)) r) w) as Hw.
  { eapply wp_client_writev; [done..|]. by destruct (deliver_once _ _) as [[fate tx] wr]. }
  apply wp_returns in Hw as (r & w' & Hw & Hr).
  destruct (deliver_once (sk_wr sk) (concat iov)) as [[fate tx] wr]. destruct Hr as [-> Hr].
  destruct Hp. eauto 10.
Qed.

Lemma client_writev_once_witness :
  let sk := mk_sock [] [WrIntr; WrAccept 1] [] in
  ∃ r, emq_client_writev (Some 1%positive) [[Byte.x01]; [Byte.x02]] (sample_net_world sk) =
      Returns r (after_send 3 sk [Byte.x01] [] (sample_net_world sk)) ∧
    send_result 0 Short 2 r ∧ [Byte.x01] `prefix_of` [Byte.x01; Byte.x02] ∧
    (Short = Sent → [Byte.x01] = [Byte.x01; Byte.x02]).
Proof.
  intros sk.
  exact (client_writev_once 1%positive sample_client sk [[Byte.x01]; [Byte.x02]]
    (sample_net_world sk) eq_refl eq_refl ltac:(unfold MAX_RW_COUNT; simpl; lia)).
Defined.
