(* ===== verification/Protocol.v ===== *)
(** [src/src/protocol.h]: the codes and the packed structures of the wire protocol, their layout
    in memory and its inverse.

    A structure is the list of the types of its fields; since the structures are packed, its
    bytes are those of its fields one after the other. *)

From S2P Require Import Prelude Types.

(** ** Codes *)

Definition EMQ_PROTOCOL_REQ : Z := 112.
Definition EMQ_PROTOCOL_RES : Z := 128.
Definition EMQ_PROTOCOL_EVENT : Z := 144.
Definition EMQ_PROTOCOL_CMD_AUTH : Z := 10.
Definition EMQ_PROTOCOL_CMD_PING : Z := 11.
Definition EMQ_PROTOCOL_CMD_STAT : Z := 12.
Definition EMQ_PROTOCOL_CMD_SAVE : Z := 13.
Definition EMQ_PROTOCOL_CMD_FLUSH : Z := 14.
Definition EMQ_PROTOCOL_CMD_DISCONNECT : Z := 15.
Definition EMQ_PROTOCOL_CMD_USER_CREATE : Z := 30.
Definition EMQ_PROTOCOL_CMD_USER_LIST : Z := 31.
Definition EMQ_PROTOCOL_CMD_USER_RENAME : Z := 32.
Definition EMQ_PROTOCOL_CMD_USER_SET_PERM : Z := 33.
Definition EMQ_PROTOCOL_CMD_USER_DELETE : Z := 34.
Definition EMQ_PROTOCOL_CMD_QUEUE_CREATE : Z := 35.
Definition EMQ_PROTOCOL_CMD_QUEUE_DECLARE : Z := 36.
Definition EMQ_PROTOCOL_CMD_QUEUE_EXIST : Z := 37.
Definition EMQ_PROTOCOL_CMD_QUEUE_LIST : Z := 38.
Definition EMQ_PROTOCOL_CMD_QUEUE_RENAME : Z := 39.
Definition EMQ_PROTOCOL_CMD_QUEUE_SIZE : Z := 40.
Definition EMQ_PROTOCOL_CMD_QUEUE_PUSH : Z := 41.
Definition EMQ_PROTOCOL_CMD_QUEUE_GET : Z := 42.
Definition EMQ_PROTOCOL_CMD_QUEUE_POP : Z := 43.
Definition EMQ_PROTOCOL_CMD_QUEUE_CONFIRM : Z := 44.
Definition EMQ_PROTOCOL_CMD_QUEUE_SUBSCRIBE : Z := 45.
Definition EMQ_PROTOCOL_CMD_QUEUE_UNSUBSCRIBE : Z := 46.
Definition EMQ_PROTOCOL_CMD_QUEUE_PURGE : Z := 47.
Definition EMQ_PROTOCOL_CMD_QUEUE_DELETE : Z := 48.
Definition EMQ_PROTOCOL_CMD_ROUTE_CREATE : Z := 49.
Definition EMQ_PROTOCOL_CMD_ROUTE_EXIST : Z := 50.
Definition EMQ_PROTOCOL_CMD_ROUTE_LIST : Z := 51.
Definition EMQ_PROTOCOL_CMD_ROUTE_KEYS : Z := 52.
Definition EMQ_PROTOCOL_CMD_ROUTE_RENAME : Z := 53.
Definition EMQ_PROTOCOL_CMD_ROUTE_BIND : Z := 54.
Definition EMQ_PROTOCOL_CMD_ROUTE_UNBIND : Z := 55.
Definition EMQ_PROTOCOL_CMD_ROUTE_PUSH : Z := 56.
Definition EMQ_PROTOCOL_CMD_ROUTE_DELETE : Z := 57.
Definition EMQ_PROTOCOL_CMD_CHANNEL_CREATE : Z := 58.
Definition EMQ_PROTOCOL_CMD_CHANNEL_EXIST : Z := 59.
Definition EMQ_PROTOCOL_CMD_CHANNEL_LIST : Z := 60.
Definition EMQ_PROTOCOL_CMD_CHANNEL_RENAME : Z := 61.
Definition EMQ_PROTOCOL_CMD_CHANNEL_PUBLISH : Z := 62.
Definition EMQ_PROTOCOL_CMD_CHANNEL_SUBSCRIBE : Z := 63.
Definition EMQ_PROTOCOL_CMD_CHANNEL_PSUBSCRIBE : Z := 64.
Definition EMQ_PROTOCOL_CMD_CHANNEL_UNSUBSCRIBE : Z := 65.
Definition EMQ_PROTOCOL_CMD_CHANNEL_PUNSUBSCRIBE : Z := 66.
Definition EMQ_PROTOCOL_CMD_CHANNEL_DELETE : Z := 67.
Definition EMQ_PROTOCOL_STATUS_SUCCESS : Z := 1.
Definition EMQ_PROTOCOL_STATUS_ERROR : Z := 2.
Definition EMQ_PROTOCOL_STATUS_ERROR_PACKET : Z := 3.
Definition EMQ_PROTOCOL_STATUS_ERROR_COMMAND : Z := 4.
Definition EMQ_PROTOCOL_STATUS_ERROR_ACCESS : Z := 5.
Definition EMQ_PROTOCOL_STATUS_ERROR_MEMORY : Z := 6.
Definition EMQ_PROTOCOL_STATUS_ERROR_VALUE : Z := 7.
Definition EMQ_PROTOCOL_STATUS_ERROR_NOT_DECLARED : Z := 8.
Definition EMQ_PROTOCOL_STATUS_ERROR_NOT_FOUND : Z := 9.
Definition EMQ_PROTOCOL_STATUS_ERROR_NO_DATA : Z := 10.
Definition EMQ_PROTOCOL_EVENT_NOTIFY : Z := 1.
Definition EMQ_PROTOCOL_EVENT_MESSAGE : Z := 2.

(** ** Field types *)

Inductive ctype := Char (n : nat) | UInt8 | UInt16 | UInt32 | UInt64 | Float.

Definition sizeof_type (t : ctype) : nat :=
  match t with Char n => n | UInt8 => 1 | UInt16 => 2 | UInt32 | Float => 4 | UInt64 => 8 end.

Definition layout := list ctype.

Definition sizeof (ts : layout) : nat := sum_list (sizeof_type <$> ts).

(** The contents of a field: a string in a character array, or an integer. *)
Inductive value := VStr (s : cstring) | VInt (z : Z).

(** ** Headers *)

Definition protocol_header : layout := [UInt16; UInt8; UInt8; UInt32].
Definition sizeof_header : nat := 8.

Record protocol_request_header := mk_request_header {
  req_magic : Z;
  req_cmd : Z;
  req_noack : Z;
  req_bodylen : Z;
}.

Record protocol_response_header := mk_response_header {
  res_magic : Z;
  res_cmd : Z;
  res_status : Z;
  res_bodylen : Z;
}.

Record protocol_event_header := mk_event_header {
  event_magic : Z;
  event_cmd : Z;
  event_type : Z;
  event_bodylen : Z;
}.

(** ** Bodies of the requests *)

Definition protocol_request_auth : layout := [Char 32; Char 32].
Definition protocol_request_save : layout := [UInt8].
Definition protocol_request_flush : layout := [UInt32].
Definition protocol_request_user_create : layout := [Char 32; Char 32; UInt64].
Definition protocol_request_user_rename : layout := [Char 32; Char 32].
Definition protocol_request_user_set_perm : layout := [Char 32; UInt64].
Definition protocol_request_user_delete : layout := [Char 32].
Definition protocol_request_queue_create : layout := [Char 64; UInt32; UInt32; UInt32].
Definition protocol_request_queue_declare : layout := [Char 64].
Definition protocol_request_queue_exist : layout := [Char 64].
Definition protocol_request_queue_rename : layout := [Char 64; Char 64].
Definition protocol_request_queue_size : layout := [Char 64].
Definition protocol_request_queue_push : layout := [Char 64].
Definition protocol_request_queue_get : layout := [Char 64].
Definition protocol_request_queue_pop : layout := [Char 64; UInt32].
Definition protocol_request_queue_confirm : layout := [Char 64; UInt64].
Definition protocol_request_queue_subscribe : layout := [Char 64; UInt32].
Definition protocol_request_queue_unsubscribe : layout := [Char 64].
Definition protocol_request_queue_purge : layout := [Char 64].
Definition protocol_request_queue_delete : layout := [Char 64].
Definition protocol_request_route_create : layout := [Char 64; UInt32].
Definition protocol_request_route_exist : layout := [Char 64].
Definition protocol_request_route_keys : layout := [Char 64].
Definition protocol_request_route_rename : layout := [Char 64; Char 64].
Definition protocol_request_route_bind : layout := [Char 64; Char 64; Char 32].
Definition protocol_request_route_unbind : layout := [Char 64; Char 64; Char 32].
Definition protocol_request_route_push : layout := [Char 64; Char 32].
Definition protocol_request_route_delete : layout := [Char 64].
Definition protocol_request_channel_create : layout := [Char 64; UInt32].
Definition protocol_request_channel_exist : layout := [Char 64].
Definition protocol_request_channel_rename : layout := [Char 64; Char 64].
Definition protocol_request_channel_publish : layout := [Char 64; Char 32].
Definition protocol_request_channel_subscribe : layout := [Char 64; Char 32].
Definition protocol_request_channel_psubscribe : layout := [Char 64; Char 32].
Definition protocol_request_channel_unsubscribe : layout := [Char 64; Char 32].
Definition protocol_request_channel_punsubscribe : layout := [Char 64; Char 32].
Definition protocol_request_channel_delete : layout := [Char 64].
Definition protocol_request_ping : layout := [].
Definition protocol_request_stat : layout := [].
Definition protocol_request_disconnect : layout := [].
Definition protocol_request_user_list : layout := [].
Definition protocol_request_queue_list : layout := [].
Definition protocol_request_route_list : layout := [].
Definition protocol_request_channel_list : layout := [].

(** ** Bodies of the responses *)

Definition protocol_response_stat : layout :=
  [UInt8; UInt8; UInt8; UInt32; Float; Float; UInt32; UInt32; Float;
   UInt32; UInt32; UInt32; UInt32; UInt32; UInt32; UInt32].
Definition protocol_response_queue_exist : layout := [UInt32].
Definition protocol_response_queue_size : layout := [UInt32].
Definition protocol_response_route_exist : layout := [UInt32].
Definition protocol_response_channel_exist : layout := [UInt32].

(** The structure [emq_status] of [emq.h]. *)
Definition emq_status : layout :=
  [UInt8; UInt8; UInt8; UInt32; Float; Float; UInt32; UInt32; Float;
   UInt32; UInt32; UInt32; UInt32; UInt32; UInt32; UInt32].

(** ** Memory representation *)

(** The bytes of a zeroed field once [v] was stored in it: [memcpy(f, s, strlenz(s))] for a
    string, an assignment for an integer.  [None] when the copy overruns the array. *)
Definition field_bytes (t : ctype) (v : value) : option (list byte) :=
  match t, v with
  | Char n, VStr s =>
      if decide (strlenz s ≤ Z.of_nat n)
      then Some (array_of n s) else None
  | Char _, VInt _ | _, VStr _ => None
  | _, VInt z => Some (le_bytes (sizeof_type t) z)
  end.

Fixpoint struct_bytes (ts : layout) (vs : list value) : option (list byte) :=
  match ts, vs with
  | [], [] => Some []
  | t :: ts, v :: vs => b ← field_bytes t v; bs ← struct_bytes ts vs; Some (b ++ bs)
  | _, _ => None
  end.

(** What a reader of the structure finds in a field, and in the structure. *)
Definition field_value (t : ctype) (bs : list byte) : value :=
  match t with Char _ => VStr (c_chars bs) | _ => VInt (le_value bs) end.

Fixpoint read_struct (ts : layout) (bs : list byte) : list value :=
  match ts with
  | [] => []
  | t :: ts => field_value t (take (sizeof_type t) bs) :: read_struct ts (drop (sizeof_type t) bs)
  end.

Definition request_header_bytes (h : protocol_request_header) : list byte :=
  le_bytes 2 (req_magic h) ++ le_bytes 1 (req_cmd h) ++ le_bytes 1 (req_noack h) ++
  le_bytes 4 (req_bodylen h).

(** The bytes [n, n + k) of a structure, as an unsigned integer. *)
Definition le_at (bs : list byte) (n k : nat) : Z := le_value (take k (drop n bs)).

Definition read_response_header (bs : list byte) : protocol_response_header :=
  mk_response_header (le_at bs 0 2) (le_at bs 2 1) (le_at bs 3 1) (le_at bs 4 4).
Definition read_event_header (bs : list byte) : protocol_event_header :=
  mk_event_header (le_at bs 0 2) (le_at bs 2 1) (le_at bs 3 1) (le_at bs 4 4).
Definition read_request_header (bs : list byte) : protocol_request_header :=
  mk_request_header (le_at bs 0 2) (le_at bs 2 1) (le_at bs 3 1) (le_at bs 4 4).

(** The bytes a peer sends for a response or event header. *)
Definition response_header_bytes (h : protocol_response_header) : list byte :=
  le_bytes 2 (res_magic h) ++ le_bytes 1 (res_cmd h) ++ le_bytes 1 (res_status h) ++
  le_bytes 4 (res_bodylen h).
Definition event_header_bytes (h : protocol_event_header) : list byte :=
  le_bytes 2 (event_magic h) ++ le_bytes 1 (event_cmd h) ++ le_bytes 1 (event_type h) ++
  le_bytes 4 (event_bodylen h).

#[global] Arguments request_header_bytes : simpl never.
#[global] Arguments response_header_bytes : simpl never.
#[global] Arguments event_header_bytes : simpl never.
#[global] Arguments read_response_header : simpl never.
#[global] Arguments read_event_header : simpl never.

(** ** Round trips *)

(** What survives the passage through a field: the characters of a string, an integer modulo
    the width of the field. *)
Definition canonical (t : ctype) (v : value) : value :=
  match v with
  | VStr s => VStr (c_chars s)
  | VInt z => VInt (z mod 2 ^ (Z.of_nat (sizeof_type t) * 8))
  end.

Fixpoint canonicals (ts : layout) (vs : list value) : list value :=
  match ts, vs with
  | t :: ts, v :: vs => canonical t v :: canonicals ts vs
  | _, _ => []
  end.

Lemma field_bytes_length t v bs : field_bytes t v = Some bs → length bs = sizeof_type t.
Proof.
  destruct t as [n| | | | |], v as [s|z]; simpl; try discriminate;
    try (intros [= <-]; apply length_le_bytes).
  case_decide as Hn; [|discriminate]. intros [= <-].
  by apply length_array_of.
Qed.

Lemma struct_bytes_length ts vs bs : struct_bytes ts vs = Some bs → length bs = sizeof ts.
Proof.
  revert vs bs. induction ts as [|t ts IH]; intros [|v vs] bs; try discriminate;
    [by intros [= <-]|]. cbn [struct_bytes].
  destruct (field_bytes t v) as [b|] eqn:Hb; [|discriminate].
  destruct (struct_bytes ts vs) as [bs'|] eqn:Hbs; [|discriminate].
  intros [= <-]. rewrite length_app, (field_bytes_length _ _ _ Hb), (IH _ _ Hbs). done.
Qed.

Lemma field_roundtrip t v bs : field_bytes t v = Some bs → field_value t bs = canonical t v.
Proof.
  destruct t as [n| | | | |], v as [s|z]; simpl; try discriminate;
    try (intros [= <-]; by rewrite le_value_bytes).
  case_decide; [|discriminate]. intros [= <-]. by rewrite c_chars_array_of.
Qed.

Lemma struct_roundtrip ts vs bs rest :
  struct_bytes ts vs = Some bs → read_struct ts (bs ++ rest) = canonicals ts vs.
Proof.
  revert vs bs. induction ts as [|t ts IH]; intros [|v vs] bs; try discriminate; [done|].
  cbn [struct_bytes read_struct canonicals].
  destruct (field_bytes t v) as [b|] eqn:Hb; [|discriminate].
  destruct (struct_bytes ts vs) as [bs'|] eqn:Hbs; [|discriminate].
  intros [= <-]. rewrite <-app_assoc.
  rewrite take_app_exact, drop_app_exact by by apply field_bytes_length in Hb.
  by rewrite (field_roundtrip _ _ _ Hb), (IH _ _ Hbs).
Qed.

(** A field of the header is read back, whatever follows the header. *)
Lemma le_at_app n k pre z rest :
  length pre = n → le_at (pre ++ le_bytes k z ++ rest) n k = z mod 2 ^ (Z.of_nat k * 8).
Proof.
  intros Hn. unfold le_at. rewrite drop_app_exact by done.
  rewrite take_app_exact by apply length_le_bytes. apply le_value_bytes.
Qed.

Section header.
Context (magic cmd arg bodylen : Z) (rest : list byte).
Let bytes := le_bytes 2 magic ++ le_bytes 1 cmd ++ le_bytes 1 arg ++ le_bytes 4 bodylen.

Lemma header_fields :
  le_at (bytes ++ rest) 0 2 = u16 magic ∧ le_at (bytes ++ rest) 2 1 = u8 cmd ∧
  le_at (bytes ++ rest) 3 1 = u8 arg ∧ le_at (bytes ++ rest) 4 4 = u32 bodylen.
Proof.
  unfold bytes. rewrite <-!app_assoc. repeat split.
  - exact (le_at_app 0 2 [] magic _ eq_refl).
  - exact (le_at_app 2 1 (le_bytes 2 magic) cmd _ eq_refl).
  - rewrite app_assoc.
    exact (le_at_app 3 1 (le_bytes 2 magic ++ le_bytes 1 cmd) arg _ eq_refl).
  - rewrite app_assoc, app_assoc.
    exact (le_at_app 4 4 ((le_bytes 2 magic ++ le_bytes 1 cmd) ++ le_bytes 1 arg) bodylen _ eq_refl).
Qed.
End header.

Lemma read_response_header_bytes h rest :
  read_response_header (response_header_bytes h ++ rest) =
  mk_response_header (u16 (res_magic h)) (u8 (res_cmd h)) (u8 (res_status h)) (u32 (res_bodylen h)).
Proof.
  unfold read_response_header, response_header_bytes.
  edestruct header_fields as (H1 & H2 & H3 & H4). by rewrite H1, H2, H3, H4.
Qed.

Lemma read_event_header_bytes h rest :
  read_event_header (event_header_bytes h ++ rest) =
  mk_event_header (u16 (event_magic h)) (u8 (event_cmd h)) (u8 (event_type h)) (u32 (event_bodylen h)).
Proof.
  unfold read_event_header, event_header_bytes.
  edestruct header_fields as (H1 & H2 & H3 & H4). by rewrite H1, H2, H3, H4.
Qed.

Lemma read_request_header_bytes h rest :
  read_request_header (request_header_bytes h ++ rest) =
  mk_request_header (u16 (req_magic h)) (u8 (req_cmd h)) (u8 (req_noack h)) (u32 (req_bodylen h)).
Proof.
  unfold read_request_header, request_header_bytes.
  edestruct header_fields as (H1 & H2 & H3 & H4). by rewrite H1, H2, H3, H4.
Qed.

Lemma length_event_header_bytes h : length (event_header_bytes h) = 8%nat.
Proof. unfold event_header_bytes. by rewrite !length_app, !length_le_bytes. Qed.

Lemma length_response_header_bytes h : length (response_header_bytes h) = sizeof_header.
Proof. unfold response_header_bytes. by rewrite !length_app, !length_le_bytes. Qed.
