(* ===== verification/Client.v ===== *)
(** The client object of [src/src/emq.c]: creation, release, error reporting, connection
    (lines 43-57, 75-131, 483-527, 2740-2748 and 2910-2918). *)

From S2P Require Import Prelude Types Machine Lists Network.

Definition emq_error_array : list string := [
  "";
  "Error allocate memory";
  "Error input data";
  "Error write request";
  "Error read request";
  "Response error";
  "Packet error";
  "Command error";
  "Access error";
  "Memory error";
  "Value not declared";
  "Value not found";
  "No data"
]%string.

(** [snprintf(client->error, sizeof(client->error), "%s", emq_error_array[error])] *)
Definition emq_client_set_error (client : ptr) (error : Z) : M unit :=
  match emq_error_array !! Z.to_nat error with
  | Some msg =>
      modify client
        (set_client_error (String.substring 0 (Z.to_nat (EMQ_ERROR_BUF_SIZE - 1)) msg))
  | None => undefined OutOfBounds
  end.

Definition EMQ_GET_STATUS (client : ptr) : M Z := c ← load client; mret (client_status c).
Definition EMQ_SET_STATUS (client : ptr) (value : Z) : M unit :=
  modify client (set_client_status value).
Definition EMQ_GET_ERROR (client : ptr) : M string := c ← load client; mret (client_error c).
Definition EMQ_ISSET_ERROR (client : ptr) : M bool :=
  c ← load client; mret (negb (String.eqb (client_error c) "")).
Definition EMQ_CLEAR_ERROR (client : ptr) : M unit := modify client (set_client_error "").

(** Reading [client->noack]. *)
Definition noack_of (client : ptr) : M Z := c ← load client; mret (client_noack c).

Definition emq_client_init : M ptr :=
  client ← malloc (mk_client 0 "" NULL 0 0 0 0 NULL NULL);
  match client with
  | None => mret NULL
  | Some _ =>
      EMQ_CLEAR_ERROR client;;
      EMQ_SET_STATUS client EMQ_STATUS_OK;;
      request ← malloc (uninit EMQ_DEFAULT_REQUEST_SIZE);
      modify client (set_client_request request);;
      modify client (set_client_size EMQ_DEFAULT_REQUEST_SIZE);;
      modify client (set_client_pos 0);;
      modify client (set_client_noack 0);;
      modify client (set_client_fd 0);;
      queues ← emq_list_init;
      modify client (set_client_queue_subscriptions queues);;
      channels ← emq_list_init;
      modify client (set_client_channel_subscriptions channels);;
      c ← load client;
      if decide (client_request c = NULL) then free client;; mret NULL else
      (if decide (client_queue_subscriptions c = NULL)
       then free (client_request c);; free client
       else mret tt);;
      c ← load client;
      (if decide (client_channel_subscriptions c = NULL)
       then emq_list_release (client_queue_subscriptions c);;
            free (client_request c);;
            free client
       else mret tt);;
      c ← load client;
      EMQ_LIST_SET_FREE_METHOD (client_queue_subscriptions c)
        emq_queue_subscription_list_free_handler;;
      EMQ_LIST_SET_FREE_METHOD (client_channel_subscriptions c)
        emq_channel_subscription_list_free_handler;;
      mret client
  end.

Definition emq_client_release (client : ptr) : M unit :=
  c ← load client;
  emq_list_release (client_queue_subscriptions c);;
  emq_list_release (client_channel_subscriptions c);;
  free (client_request c);;
  free client.

Definition emq_tcp_connect (addr : string) (port : Z) : M ptr :=
  client ← emq_client_init;
  match client with
  | None => mret NULL
  | Some _ =>
      EMQ_CLEAR_ERROR client;;
      r ← emq_client_tcp_connect client addr port;
      if decide (r = EMQ_NET_ERR) then emq_client_release client;; mret NULL else
      EMQ_SET_STATUS client EMQ_STATUS_OK;;
      mret client
  end.

Definition emq_unix_connect (path : string) : M ptr :=
  client ← emq_client_init;
  match client with
  | None => mret NULL
  | Some _ =>
      EMQ_CLEAR_ERROR client;;
      r ← emq_client_unix_connect client path;
      if decide (r = EMQ_NET_ERR) then emq_client_release client;; mret NULL else
      EMQ_SET_STATUS client EMQ_STATUS_OK;;
      mret client
  end.

Definition emq_disconnect (client : ptr) : M unit :=
  match client with
  | Some _ => emq_client_disconnect client;; emq_client_release client
  | None => mret tt
  end.

Definition emq_noack_enable (client : ptr) : M unit := modify client (set_client_noack 1).
Definition emq_noack_disable (client : ptr) : M unit := modify client (set_client_noack 0).

Definition emq_last_error (client : ptr) : M string := EMQ_GET_ERROR client.
Definition emq_version : Z := EMQ_VERSION EMQ_VERSION_MAJOR EMQ_VERSION_MINOR.
