(* ===== verification/Session.v ===== *)
(** The abstract specification level: a client connection as a record of values, without
    addresses, buffers or kernel events, the relation that ties it to the memory of the C
    program, and the simulation that the operations are proved against. *)

From S2P Require Import Prelude Types Machine Lists Network Client.

(** ** Abstract sessions *)

(** What a user of the library can observe of a client: its status, its last error, the
    subscriptions (the latest first), the bytes that will arrive and those that were sent, and
    the behaviour of the environment (the next writes and allocations). *)
Record session := mk_session {
  ss_status : Z;
  ss_error : string;
  ss_noack : Z;
  ss_queues : list emq_queue_subscription;
  ss_channels : list emq_channel_subscription;
  ss_rx : list rx_item;
  ss_wr : list wr_event;
  ss_tx : list byte;
  ss_mallocs : list bool;
}.

Definition set_ss_status v s := mk_session v (ss_error s) (ss_noack s) (ss_queues s)
  (ss_channels s) (ss_rx s) (ss_wr s) (ss_tx s) (ss_mallocs s).
Definition set_ss_error v s := mk_session (ss_status s) v (ss_noack s) (ss_queues s)
  (ss_channels s) (ss_rx s) (ss_wr s) (ss_tx s) (ss_mallocs s).
Definition set_ss_noack v s := mk_session (ss_status s) (ss_error s) v (ss_queues s)
  (ss_channels s) (ss_rx s) (ss_wr s) (ss_tx s) (ss_mallocs s).
Definition set_ss_queues v s := mk_session (ss_status s) (ss_error s) (ss_noack s) v
  (ss_channels s) (ss_rx s) (ss_wr s) (ss_tx s) (ss_mallocs s).
Definition set_ss_channels v s := mk_session (ss_status s) (ss_error s) (ss_noack s)
  (ss_queues s) v (ss_rx s) (ss_wr s) (ss_tx s) (ss_mallocs s).
Definition set_ss_rx v s := mk_session (ss_status s) (ss_error s) (ss_noack s)
  (ss_queues s) (ss_channels s) v (ss_wr s) (ss_tx s) (ss_mallocs s).
Definition set_ss_wr v s := mk_session (ss_status s) (ss_error s) (ss_noack s)
  (ss_queues s) (ss_channels s) (ss_rx s) v (ss_tx s) (ss_mallocs s).
Definition set_ss_tx v s := mk_session (ss_status s) (ss_error s) (ss_noack s)
  (ss_queues s) (ss_channels s) (ss_rx s) (ss_wr s) v (ss_mallocs s).
Definition set_ss_mallocs v s := mk_session (ss_status s) (ss_error s) (ss_noack s)
  (ss_queues s) (ss_channels s) (ss_rx s) (ss_wr s) (ss_tx s) v.

(** A specification returns in a new session, waits for bytes that never arrive, or promises
    nothing, when the peer breaks the protocol in a way the code does not defend against. *)
Inductive answer (A : Type) := Answer (a : A) (s : session) | Starved | Unspecified.
Arguments Answer {A} a s.
Arguments Starved {A}.
Arguments Unspecified {A}.

Definition Spec (A : Type) : Type := session → answer A.

#[export] Instance Spec_ret : MRet Spec := λ A a s, Answer a s.
#[export] Instance Spec_bind : MBind Spec := λ A B k m s,
  match m s with Answer a s' => k a s' | Starved => Starved | Unspecified => Unspecified end.

Definition s_unspecified {A} : Spec A := λ _, Unspecified.

Definition s_get {A} (f : session → A) : Spec A := λ s, Answer (f s) s.
Definition s_put (f : session → session) : Spec unit := λ s, Answer tt (f s).

(** The next [n] bytes, unless reading fails. *)
Definition s_recv (n : nat) : Spec (option (list byte)) := λ s,
  match take_rx n (ss_rx s) with
  | TkGot bs rest => Answer (Some bs) (set_ss_rx rest s)
  | TkFail rest => Answer None (set_ss_rx rest s)
  | TkStarved => Starved
  end.

(** Handing bytes to the socket, by repeated writes or at once. *)
Definition s_send (how : list wr_event → list byte → sent * list byte * list wr_event)
    (bs : list byte) : Spec sent := λ s,
  let '(r, d, wr) := how (ss_wr s) bs in
  Answer r (set_ss_wr wr (set_ss_tx (ss_tx s ++ d) s)).

(** Whether the next allocation succeeds. *)
Definition s_malloc : Spec bool := λ s,
  Answer (hd true (ss_mallocs s)) (set_ss_mallocs (tail (ss_mallocs s)) s).

(** The next two allocations succeed. *)
Definition memory_available (s : session) : Prop :=
  hd true (ss_mallocs s) = true ∧ hd true (tail (ss_mallocs s)) = true.

(** The session after [n] allocations. *)
Definition allocated (n : nat) (s : session) : session :=
  set_ss_mallocs (drop n (ss_mallocs s)) s.

(** The message for an error code. *)
Definition error_message (error : Z) : string :=
  default ""%string (emq_error_array !! Z.to_nat error).

Definition s_fail {A} (error : Z) (r : A) : Spec A :=
  s_put (set_ss_error (error_message error));; s_put (set_ss_status EMQ_STATUS_ERR);; mret r.

Lemma s_recv_exact n bs rest s :
  length bs = n → ss_rx s = (RxByte <$> bs) ++ rest →
  s_recv n s = Answer (Some bs) (set_ss_rx rest s).
Proof. intros Hn Hs. unfold s_recv. by rewrite Hs, take_rx_exact. Qed.

Lemma s_recv_bind {A} n bs rest s (k : option (list byte) → Spec A) :
  length bs = n → ss_rx s = (RxByte <$> bs) ++ rest →
  (s_recv n ≫= k) s = k (Some bs) (set_ss_rx rest s).
Proof. intros Hn Hs. unfold mbind at 1, Spec_bind. by rewrite (s_recv_exact _ _ _ _ Hn Hs). Qed.

(** ** Well-formed sessions *)

(** The arrays of a subscription hold terminated strings. *)
Definition wf_name (n : nat) (name : list byte) : Prop := length name = n ∧ NUL ∈ name.

Record wf_session (s : session) : Prop := {
  wf_queues : Forall (λ q, wf_name 64 (qsub_name q)) (ss_queues s);
  wf_channels :
    Forall (λ c, wf_name 64 (csub_name c) ∧ wf_name 32 (csub_channel c)) (ss_channels s);
}.

(** ** Representation *)

(** The rest of the process: the blocks and sockets that are not the client's, and the answers
    of the system to come. *)
Record frame := mk_frame {
  fr_heap : heap;
  fr_socks : gmap Z sock;
  fr_sys : list (option string);
  fr_peers : list sock;
}.

Definition set_fr_heap h f := mk_frame h (fr_socks f) (fr_sys f) (fr_peers f).

(** The addresses at which a session is represented. *)
Record placement := mk_placement {
  lo_client : emq_client;
  lo_request : loc;
  lo_cells : buffer;
  lo_queues : loc;
  lo_queue_nodes : list (loc * loc);
  lo_channels : loc;
  lo_channel_nodes : list (loc * loc);
  lo_sock : sock;
}.

Definition footprint (l : loc) (g : placement) : list loc :=
  l :: lo_request g ::
  (lo_queues g :: (lo_queue_nodes g).*1 ++ (lo_queue_nodes g).*2) ++
  (lo_channels g :: (lo_channel_nodes g).*1 ++ (lo_channel_nodes g).*2).

(** [rep_at l s f w g]: the client at [l] represents the session [s] at the addresses of [g],
    and [f] is everything else in [w]. *)
Record rep_at (l : loc) (s : session) (f : frame) (w : world) (g : placement) : Prop := {
  rep_client : points_to (w_heap w) l (lo_client g);
  rep_status : client_status (lo_client g) = ss_status s;
  rep_error : client_error (lo_client g) = ss_error s;
  rep_noack : client_noack (lo_client g) = ss_noack s;
  rep_request : client_request (lo_client g) = Some (lo_request g);
  rep_cells : points_to (w_heap w) (lo_request g) (lo_cells g);
  rep_size : client_size (lo_client g) = Z.of_nat (length (lo_cells g));
  rep_default : EMQ_DEFAULT_REQUEST_SIZE ≤ client_size (lo_client g);
  rep_queues : client_queue_subscriptions (lo_client g) = Some (lo_queues g);
  rep_queue_list : dlist (w_heap w) (lo_queues g)
    (Some emq_queue_subscription_list_free_handler) (lo_queue_nodes g);
  rep_queue_values :
    Forall2 (λ v q, points_to (w_heap w) v q) (lo_queue_nodes g).*2 (ss_queues s);
  rep_channels : client_channel_subscriptions (lo_client g) = Some (lo_channels g);
  rep_channel_list : dlist (w_heap w) (lo_channels g)
    (Some emq_channel_subscription_list_free_handler) (lo_channel_nodes g);
  rep_channel_values :
    Forall2 (λ v c, points_to (w_heap w) v c) (lo_channel_nodes g).*2 (ss_channels s);
  rep_nodup : NoDup (footprint l g);
  rep_frame : freed (footprint l g) (w_heap w) (fr_heap f);
  rep_sock : w_socks w !! client_fd (lo_client g) = Some (lo_sock g);
  rep_rx : flatten (sk_rx (lo_sock g)) = ss_rx s;
  rep_wr : sk_wr (lo_sock g) = ss_wr s;
  rep_tx : sk_tx (lo_sock g) = ss_tx s;
  rep_socks : fr_socks f = delete (client_fd (lo_client g)) (w_socks w);
  rep_sys : fr_sys f = w_sys w;
  rep_peers : fr_peers f = w_peers w;
  rep_mallocs : ss_mallocs s = w_mallocs w;
  rep_wf : wf_session s;
}.

Definition rep (l : loc) (s : session) (f : frame) (w : world) : Prop := ∃ g, rep_at l s f w g.

(** ** Simulation

    [sim l f s m a Φ w]: from a world that represents [s] with the frame [f], the program [m]
    does what the specification [a] says.  It returns when [a] answers, in a world that
    represents the new session, with a frame and results related by [Φ]; it waits for ever when
    [a] starves; it is never undefined unless [a] is unspecified. *)
Definition sim {A B} (l : loc) (s : session) (m : M A) (a : Spec B)
    (Φ : frame → A → B → Prop) (w : world) : Prop :=
  a s ≠ Unspecified →
  wp (a s = Starved) m
    (λ y w', ∃ x s' f', a s = Answer x s' ∧ rep l s' f' w' ∧ Φ f' y x) w.

(** A simulation from every representation; [Φ] relates the frames before and after. *)
Definition simulates {A B} (l : loc) (m : M A) (a : Spec B)
    (Φ : frame → frame → A → B → Prop) : Prop :=
  ∀ f s w, rep l s f w → sim l s m a (Φ f) w.

(** A simulation that leaves the frame as it was and returns the same value. *)
Definition same {A} (f f' : frame) (y x : A) : Prop := f' = f ∧ y = x.
Definition refines {A} (l : loc) (m : M A) (a : Spec A) : Prop := simulates l m a same.

Section sim.
Context (l : loc).

Lemma sim_ret {A B} (y : A) (x : B) f s (Φ : frame → A → B → Prop) w :
  rep l s f w → Φ f y x → sim l s (mret y) (mret x) Φ w.
Proof. intros Hr HΦ _. apply wp_ret. eauto 10. Qed.

(** A step of the program that the specification does not have. *)
Lemma sim_step {A A' B} (m : M A) (k : A → M A') (a : Spec B) s Φ w :
  (wp (a s = Starved) m (λ y w', sim l s (k y) a Φ w') w) →
  sim l s (m ≫= k) a Φ w.
Proof.
  intros Hm Hns. apply wp_bind. eapply wp_mono; [exact Hm|]. intros y w' Hk. by apply Hk.
Qed.

Lemma sim_unspecified {A B} (m : M A) s (Φ : frame → A → B → Prop) w :
  sim l s m s_unspecified Φ w.
Proof. by intros []. Qed.

Lemma sim_bind {A B A' B'} (m : M A) (a : Spec B) (k : A → M A') (k' : B → Spec B') s Φ Ψ w :
  sim l s m a Φ w →
  (∀ y x f s w, rep l s f w → Φ f y x → sim l s (k y) (k' x) Ψ w) →
  sim l s (m ≫= k) (a ≫= k') Ψ w.
Proof.
  intros Hm Hk Hns. apply wp_bind.
  assert (a s ≠ Unspecified) as Ha.
  { intros Ha. apply Hns. unfold mbind, Spec_bind. by rewrite Ha. }
  specialize (Hm Ha). unfold wp in Hm |- *. unfold mbind, Spec_bind in *.
  destruct (m w) as [y w'| | |]; [|done| |done].
  - destruct Hm as (x & s' & f' & Ha' & Hr & HΦ). specialize (Hk _ _ _ _ _ Hr HΦ).
    rewrite Ha' in Hns |- *. by apply Hk.
  - by rewrite Hm.
Qed.

Lemma sim_mono {A B} (m : M A) (a : Spec B) s (Φ Ψ : frame → A → B → Prop) w :
  sim l s m a Φ w → (∀ f y x, Φ f y x → Ψ f y x) → sim l s m a Ψ w.
Proof.
  intros Hm HΦ Hns. eapply wp_mono; [exact (Hm Hns)|].
  intros y w' (x & s' & f' & ? & ? & ?). eauto 10.
Qed.

Lemma sim_ext {A B} (m : M A) (a a' : Spec B) s Φ w :
  a s = a' s → sim l s m a Φ w → sim l s m a' Φ w.
Proof. unfold sim. by intros ->. Qed.

Lemma sim_assoc {A A' A'' B} (m : M A) (k : A → M A') (k' : A' → M A'') (a : Spec B) s Φ w :
  sim l s (m ≫= λ x, k x ≫= k') a Φ w → sim l s ((m ≫= k) ≫= k') a Φ w.
Proof.
  intros Hm Hns. specialize (Hm Hns). unfold wp, mbind, M_bind in *. by destruct (m w).
Qed.

Lemma sim_put {A B} (m : M A) g (a : Spec B) s Φ w :
  sim l (g s) m a Φ w → sim l s m (s_put g;; a) Φ w.
Proof. done. Qed.

Lemma sim_get {A B C} (m : M A) (g : session → C) (a : C → Spec B) s Φ w :
  sim l s m (a (g s)) Φ w → sim l s m (s_get g ≫= a) Φ w.
Proof. done. Qed.

Lemma simulates_bind {A A' B'} (m : M A) a (k : A → M A') (k' : A → Spec B') Φ :
  refines l m a → (∀ x, simulates l (k x) (k' x) Φ) → simulates l (m ≫= k) (a ≫= k') Φ.
Proof.
  intros Hm Hk f s w Hr. eapply sim_bind; [by eapply Hm|].
  intros y x f' s' w' Hr' [-> ->]. by apply Hk.
Qed.

Lemma refines_bind {A A'} (m : M A) a (k : A → M A') k' :
  refines l m a → (∀ x, refines l (k x) (k' x)) → refines l (m ≫= k) (a ≫= k').
Proof. apply simulates_bind. Qed.

Lemma simulates_ret {A B} (y : A) (x : B) Φ : (∀ f, Φ f f y x) → simulates l (mret y) (mret x) Φ.
Proof. intros HΦ f s w Hr. by eapply sim_ret. Qed.

Lemma refines_ret {A} (x : A) : refines l (mret x) (mret x).
Proof. intros f s w Hr. by eapply sim_ret. Qed.

(** What a refinement says of an execution. *)
Lemma refines_answer {A} (m : M A) a f s w x s' :
  refines l m a → rep l s f w → a s = Answer x s' →
  ∃ w', m w = Returns x w' ∧ rep l s' f w'.
Proof.
  intros Hm Hr Ha. specialize (Hm _ _ _ Hr). unfold sim, wp in Hm. rewrite Ha in Hm.
  specialize (Hm ltac:(done)). destruct (m w) as [y w'| | |]; [|done..].
  destruct Hm as (x' & s'' & f' & [= -> ->] & Hr' & -> & ->). eauto.
Qed.

Lemma refines_starved {A} (m : M A) a f s w :
  refines l m a → rep l s f w → a s = Starved → ∃ w', m w = Blocks w'.
Proof.
  intros Hm Hr Ha. specialize (Hm _ _ _ Hr). unfold sim, wp in Hm. rewrite Ha in Hm.
  specialize (Hm ltac:(done)). destruct (m w) as [y w'| |w'|]; [|done|eauto|done]. by destruct Hm as (? & ? & ? & ? & _).
Qed.
End sim.

(** What a simulation says of an execution: [m] run from [w] does what [a] says of [s]. *)
Definition implements {A B} (l : loc) (m : M A) (a : Spec B)
    (Φ : frame → frame → A → B → Prop) (f : frame) (s : session) (w : world) : Prop :=
  match a s with
  | Answer x s' => ∃ y f' w', m w = Returns y w' ∧ rep l s' f' w' ∧ Φ f f' y x
  | Starved => ∃ w', m w = Blocks w'
  | Unspecified => True
  end.

Lemma sim_implements {A B} l (m : M A) (a : Spec B) Φ f s w :
  sim l s m a (Φ f) w → implements l m a Φ f s w.
Proof.
  intros Hm. unfold implements. unfold sim, wp in Hm.
  destruct (a s) as [x s'| |] eqn:Ha; [| |done]; specialize (Hm ltac:(done));
    destruct (m w) as [y w'| |w'|]; try done.
  - destruct Hm as (x' & s'' & f' & [= <- <-] & ? & ?). eauto 10.
  - by destruct Hm as (? & ? & ? & ? & _).
  - eauto.
Qed.

(** The execution of [m] from [w] ends as the answer [b] says, beside the frame [f]. *)
Definition ends_as {A} (l : loc) (m : M A) (b : answer A) (f : frame) (w : world) : Prop :=
  match b with
  | Answer r s' => ∃ w', m w = Returns r w' ∧ rep l s' f w'
  | Starved => ∃ w', m w = Blocks w'
  | Unspecified => True
  end.

Lemma refines_outcome {A} l (m : M A) (a : Spec A) f s w :
  refines l m a → rep l s f w → ends_as l m (a s) f w.
Proof.
  intros Hm Hr. unfold ends_as. destruct (a s) as [r s'| |] eqn:Ha; [|by eapply refines_starved|done].
  by eapply refines_answer.
Qed.

(** ** Updating a representation *)

(** The blocks of the subscription lists. *)
Definition list_part (g : placement) : list loc :=
  (lo_queues g :: (lo_queue_nodes g).*1 ++ (lo_queue_nodes g).*2) ++
  (lo_channels g :: (lo_channel_nodes g).*1 ++ (lo_channel_nodes g).*2).

(** The fields of a client that an update of the others keeps. *)
Definition same_pointers (c c' : emq_client) : Prop :=
  client_request c' = client_request c ∧ client_size c' = client_size c ∧
  client_fd c' = client_fd c ∧
  client_queue_subscriptions c' = client_queue_subscriptions c ∧
  client_channel_subscriptions c' = client_channel_subscriptions c.

(** A change of the variables of a session and of its allocator. *)
Definition with_vars (c : emq_client) (ms : list bool) (s : session) : session :=
  mk_session (client_status c) (client_error c) (client_noack c) (ss_queues s) (ss_channels s)
    (ss_rx s) (ss_wr s) (ss_tx s) ms.

Lemma Forall2_points_to_frame {T} `{Storable T} (h h' : heap) vs (xs : list T) :
  (∀ k, k ∈ vs → h' !! k = h !! k) →
  Forall2 (λ v x, points_to h v x) vs xs → Forall2 (λ v x, points_to h' v x) vs xs.
Proof.
  intros Hh. induction 1 as [|v x vs xs Hv Hvs IH]; constructor.
  - rewrite Hh by by left. done.
  - apply IH. intros k Hk. apply Hh. by right.
Qed.

Lemma rep_update l s f w g h' c' cells' ms fh :
  rep_at l s f w g →
  points_to h' l c' → same_pointers (lo_client g) c' →
  points_to h' (lo_request g) cells' → length cells' = length (lo_cells g) →
  (∀ k, k ∈ list_part g → h' !! k = w_heap w !! k) →
  freed (footprint l g) h' fh →
  rep_at l (with_vars c' ms s) (set_fr_heap fh f) (set_mallocs ms (set_heap h' w))
    (mk_placement c' (lo_request g) cells' (lo_queues g) (lo_queue_nodes g)
       (lo_channels g) (lo_channel_nodes g) (lo_sock g)).
Proof.
  intros [] Hc (Hp1 & Hp2 & Hp3 & Hp4 & Hp5) Hcells Hlen Hlists Hfree.
  unfold list_part in Hlists.
  constructor; simpl; try done; try congruence.
  - eapply dlist_frame; [|done]. intros k Hk. apply Hlists. set_solver.
  - eapply Forall2_points_to_frame; [|done]. intros k Hk. apply Hlists. set_solver.
  - eapply dlist_frame; [|done]. intros k Hk. apply Hlists. set_solver.
  - eapply Forall2_points_to_frame; [|done]. intros k Hk. apply Hlists. set_solver.
  - by destruct rep_wf0.
Qed.

Lemma footprint_split l g : footprint l g = l :: lo_request g :: list_part g.
Proof. done. Qed.

Lemma rep_distinct l s f w g :
  rep_at l s f w g → l ≠ lo_request g ∧ (l ∉ list_part g) ∧ (lo_request g ∉ list_part g).
Proof. intros []. rewrite footprint_split in *. split_nodup. done. Qed.

Lemma set_fr_heap_id f : set_fr_heap (fr_heap f) f = f.
Proof. by destruct f. Qed.
Lemma fr_heap_twice h h' f : set_fr_heap h (set_fr_heap h' f) = set_fr_heap h f.
Proof. done. Qed.
Lemma set_mallocs_id w : set_mallocs (w_mallocs w) w = w.
Proof. by destruct w. Qed.

(** Changing the variables of the client. *)
Lemma rep_set_client l s f w g c' :
  rep_at l s f w g → same_pointers (lo_client g) c' →
  rep l (with_vars c' (ss_mallocs s) s) f (set_heap (<[l := inject c']> (w_heap w)) w).
Proof.
  intros Hr Hp. pose proof (rep_distinct _ _ _ _ _ Hr) as (? & ? & ?).
  rewrite <-(set_mallocs_id (set_heap _ w)), <-(set_fr_heap_id f).
  rewrite (rep_mallocs _ _ _ _ _ Hr). eexists. eapply rep_update; try done.
  - apply lookup_insert_eq.
  - rewrite lookup_insert_ne by done. apply Hr.
  - intros k Hk. apply lookup_insert_ne. congruence.
  - apply freed_insert; [rewrite footprint_split; by left|apply Hr].
Qed.

(** Changing the socket of the client. *)
Lemma rep_set_sock l s f w g sk :
  rep_at l s f w g →
  rep l (set_ss_tx (sk_tx sk) (set_ss_wr (sk_wr sk) (set_ss_rx (flatten (sk_rx sk)) s))) f
    (set_sock (client_fd (lo_client g)) sk w).
Proof.
  intros []. exists (mk_placement (lo_client g) (lo_request g) (lo_cells g) (lo_queues g)
    (lo_queue_nodes g) (lo_channels g) (lo_channel_nodes g) sk).
  constructor; simpl; try done; [apply lookup_insert_eq| |by destruct rep_wf0].
  by rewrite delete_insert_eq.
Qed.

Lemma rep_set_rx l s f w g evs rest :
  rep_at l s f w g → flatten evs = rest →
  rep l (set_ss_rx rest s) f
    (set_sock (client_fd (lo_client g)) (set_sk_rx evs (lo_sock g)) w).
Proof.
  intros Hr <-. pose proof (rep_set_sock _ _ _ _ _ (set_sk_rx evs (lo_sock g)) Hr) as Hr'.
  destruct Hr, s; simpl in *; by subst.
Qed.

Lemma rep_after_send l s f w g d wr :
  rep_at l s f w g →
  rep l (set_ss_wr wr (set_ss_tx (ss_tx s ++ d) s)) f
    (after_send (client_fd (lo_client g)) (lo_sock g) d wr w).
Proof.
  intros Hr.
  pose proof (rep_set_sock _ _ _ _ _
    (mk_sock (sk_rx (lo_sock g)) wr (sk_tx (lo_sock g) ++ d)) Hr) as Hr'.
  destruct Hr, s; simpl in *; by subst.
Qed.

Section primitives.
Context (l : loc).

Lemma refines_modify upd upd_s :
  (∀ c, same_pointers c (upd c)) →
  (∀ c s, client_status c = ss_status s → client_error c = ss_error s →
    client_noack c = ss_noack s → upd_s s = with_vars (upd c) (ss_mallocs s) s) →
  refines l (modify (Some l) upd) (s_put upd_s).
Proof.
  intros Hp Hs f s w [g Hr] _. pose proof Hr as [].
  eapply wp_modify; [done|]. exists tt, (upd_s s), f. split; [done|]. split; [|done].
  rewrite (Hs (lo_client g)) by done. by eapply rep_set_client.
Qed.

Lemma refines_clear_error : refines l (EMQ_CLEAR_ERROR (Some l)) (s_put (set_ss_error "")).
Proof. apply refines_modify; [done|]. intros c [] ? ? ?; simpl in *; by subst. Qed.

Lemma refines_set_status v : refines l (EMQ_SET_STATUS (Some l) v) (s_put (set_ss_status v)).
Proof. apply refines_modify; [done|]. intros c [] ? ? ?; simpl in *; by subst. Qed.

Lemma refines_noack_enable : refines l (emq_noack_enable (Some l)) (s_put (set_ss_noack 1)).
Proof. apply refines_modify; [done|]. intros c [] ? ? ?; simpl in *; by subst. Qed.

Lemma refines_noack_disable : refines l (emq_noack_disable (Some l)) (s_put (set_ss_noack 0)).
Proof. apply refines_modify; [done|]. intros c [] ? ? ?; simpl in *; by subst. Qed.

Lemma refines_load {A} (m : emq_client → A) (a : session → A) :
  (∀ c s, client_status c = ss_status s → client_error c = ss_error s →
    client_noack c = ss_noack s → m c = a s) →
  refines l (c ← load (Some l); mret (m c)) (s_get a).
Proof.
  intros Hm f s w [g Hr] _. pose proof Hr as []. apply wp_bind. eapply wp_load; [done|].
  apply wp_ret. exists (a s), s, f. split; [done|]. split; [by exists g|]. split; [done|].
  by apply Hm.
Qed.

Lemma refines_noack_of : refines l (noack_of (Some l)) (s_get ss_noack).
Proof. by apply refines_load. Qed.

Lemma refines_last_error : refines l (emq_last_error (Some l)) (s_get ss_error).
Proof. by apply refines_load. Qed.

(** The error codes index the table of messages. *)
Lemma refines_set_error error :
  0 ≤ error ≤ EMQ_ERROR_NO_DATA →
  refines l (emq_client_set_error (Some l) error) (s_put (set_ss_error (error_message error))).
Proof.
  intros He. unfold emq_client_set_error, error_message.
  assert (∃ n, (n < 13)%nat ∧ error = Z.of_nat n) as (n & Hn & ->).
  { exists (Z.to_nat error). unfold EMQ_ERROR_NO_DATA in He. lia. }
  rewrite Nat2Z.id.
  do 13 (destruct n as [|n];
    [apply refines_modify; [done|]; intros c [] ? ? ?; simpl in *; by subst|]).
  lia.
Qed.

(** [emq_client_read] of [n] bytes is the reception of [n] bytes. *)
Definition recv_result (n : nat) (y : Z * list byte) (x : option (list byte)) : Prop :=
  match x with
  | Some bs => y = (Z.of_nat n, bs) ∧ length bs = n
  | None => y.1 = -1 ∧ (length y.2 ≤ n)%nat
  end.

Lemma sim_recv cap n f s w :
  rep l s f w → Z.of_nat n ≤ cap → Z.of_nat n < 2 ^ 31 →
  sim l s (emq_client_read (Some l) cap (Z.of_nat n)) (s_recv n)
    (λ f' y x, f' = f ∧ recv_result n y x) w.
Proof.
  intros [g Hr] Hcap Hn _. pose proof Hr as [].
  eapply wp_client_read; [done..|]. unfold reads, s_recv. rewrite rep_rx0.
  pose proof (take_rx_length n (ss_rx s)) as Hlen.
  destruct (take_rx n (ss_rx s)) as [bs rest|rest|] eqn:Ht; [| |done].
  - intros evs Hevs. exists (Some bs), (set_ss_rx rest s), f. split; [done|]. split.
    + by eapply rep_set_rx.
    + split; [done|]. split; [done|]. by eapply Hlen.
  - intros evs buf Hevs Hbuf. exists None, (set_ss_rx rest s), f. split; [done|]. split.
    + by eapply rep_set_rx.
    + done.
Qed.
End primitives.

(** ** The blocks outside of a session *)

Lemma Forall2_points_to_some {T} `{Storable T} (h : heap) vs (xs : list T) k :
  Forall2 (λ v x, points_to h v x) vs xs → k ∈ vs → is_Some (h !! k).
Proof.
  induction 1 as [|v x vs xs Hv _ IH]; [by intros ?%elem_of_nil|].
  intros [->|Hk]%elem_of_cons; eauto.
Qed.

(** The blocks of a session are allocated. *)
Lemma footprint_allocated l s f w g k :
  rep_at l s f w g → k ∈ footprint l g → is_Some (w_heap w !! k).
Proof.
  intros [] Hk. unfold footprint in Hk.
  destruct rep_queue_list0 as [Hq Hqn _ _]. destruct rep_channel_list0 as [Hc Hcn _ _].
  repeat (apply elem_of_cons in Hk as [->|Hk]; [by eauto|]).
  apply elem_of_app in Hk as [Hk|Hk]; [|apply elem_of_cons in Hk as [->|Hk]; [by eauto|]];
    apply elem_of_app in Hk as [Hk|Hk];
    try exact (Forall2_points_to_some _ _ _ _ rep_queue_values0 Hk);
    try exact (Forall2_points_to_some _ _ _ _ rep_channel_values0 Hk).
  - destruct (dlseg_node _ _ _ _ _ Hqn Hk) as [? ?]. eauto.
  - destruct (dlseg_node _ _ _ _ _ Hcn Hk) as [? ?]. eauto.
Qed.

Lemma frame_lookup l s f w g k o :
  rep_at l s f w g → fr_heap f !! k = Some o → (k ∉ footprint l g) ∧ w_heap w !! k = Some o.
Proof. intros [] Hk. rewrite rep_frame0 in Hk. by case_decide. Qed.

Lemma frame_fresh l s f w g k :
  rep_at l s f w g → w_heap w !! k = None → (k ∉ footprint l g) ∧ fr_heap f !! k = None.
Proof.
  intros Hr Hk. split.
  - intros Hin. destruct (footprint_allocated _ _ _ _ _ _ Hr Hin) as [? ?]. congruence.
  - destruct Hr. rewrite rep_frame0. by case_decide.
Qed.

Lemma rep_change_frame l s f w g h' fh ms :
  rep_at l s f w g →
  (∀ k, k ∈ footprint l g → h' !! k = w_heap w !! k) → freed (footprint l g) h' fh →
  rep l (set_ss_mallocs ms s) (set_fr_heap fh f) (set_mallocs ms (set_heap h' w)).
Proof.
  intros Hr Hh Hf. rewrite footprint_split in Hh.
  pose proof (rep_update l s f w g h' (lo_client g) (lo_cells g) ms fh Hr) as Hu.
  replace (set_ss_mallocs ms s) with (with_vars (lo_client g) ms s)
    by (destruct Hr, s; unfold with_vars; simpl in *; by subst).
  eexists. apply Hu; try done; [| |set_solver].
  - rewrite Hh by set_solver. apply Hr.
  - rewrite Hh by set_solver. apply Hr.
Qed.

Lemma set_ss_mallocs_id s : set_ss_mallocs (ss_mallocs s) s = s.
Proof. by destruct s. Qed.

Lemma rep_frame_insert l s f w k o o' :
  rep l s f w → fr_heap f !! k = Some o →
  rep l s (set_fr_heap (<[k := o']> (fr_heap f)) f) (set_heap (<[k := o']> (w_heap w)) w).
Proof.
  intros [g Hr] Hk. destruct (frame_lookup _ _ _ _ _ _ _ Hr Hk) as [Hout _].
  rewrite <-(set_mallocs_id (set_heap _ w)), <-(set_ss_mallocs_id s). simpl.
  rewrite (rep_mallocs _ _ _ _ _ Hr). eapply rep_change_frame; [done| |].
  - intros j Hj. apply lookup_insert_ne. by intros ->.
  - apply freed_insert_outside; [done|apply Hr].
Qed.

Lemma rep_frame_delete l s f w k o :
  rep l s f w → fr_heap f !! k = Some o →
  rep l s (set_fr_heap (delete k (fr_heap f)) f) (set_heap (delete k (w_heap w)) w).
Proof.
  intros [g Hr] Hk. destruct (frame_lookup _ _ _ _ _ _ _ Hr Hk) as [Hout _].
  rewrite <-(set_mallocs_id (set_heap _ w)), <-(set_ss_mallocs_id s). simpl.
  rewrite (rep_mallocs _ _ _ _ _ Hr). eapply rep_change_frame; [done| |].
  - intros j Hj. apply lookup_delete_ne. by intros ->.
  - apply freed_delete_outside, Hr.
Qed.

Lemma rep_frame_alloc l s f w k o ms :
  rep l s f w → w_heap w !! k = None →
  rep l (set_ss_mallocs ms s) (set_fr_heap (<[k := o]> (fr_heap f)) f)
    (set_mallocs ms (set_heap (<[k := o]> (w_heap w)) w)).
Proof.
  intros [g Hr] Hk. destruct (frame_fresh _ _ _ _ _ _ Hr Hk) as [Hout _].
  eapply rep_change_frame; [done| |].
  - intros j Hj. apply lookup_insert_ne. by intros ->.
  - apply freed_insert_outside; [done|apply Hr].
Qed.

Lemma rep_set_mallocs l s f w ms :
  rep l s f w → rep l (set_ss_mallocs ms s) f (set_mallocs ms w).
Proof.
  intros [g Hr]. pose proof (rep_change_frame _ _ _ _ _ (w_heap w) (fr_heap f) ms Hr) as Hu.
  rewrite set_fr_heap_id in Hu. destruct w. apply Hu; [done|apply Hr].
Qed.

(** Executing operations on those blocks. *)
Section frame_steps.
Context (l : loc) {A B : Type} (a : Spec B) (s : session) (Φ : frame → A → B → Prop).

Lemma sim_load {T} `{Storable T} f k (x : T) (K : T → M A) w :
  rep l s f w → points_to (fr_heap f) k x → sim l s (K x) a Φ w →
  sim l s (load (Some k) ≫= K) a Φ w.
Proof.
  intros [g Hr] Hk HK. destruct (frame_lookup _ _ _ _ _ _ _ Hr Hk) as [_ ?].
  apply sim_step. by eapply wp_load.
Qed.

Lemma sim_store {T} `{Storable T} f k (x y : T) (K : unit → M A) w :
  rep l s f w → points_to (fr_heap f) k x →
  (∀ w', rep l s (set_fr_heap (<[k := inject y]> (fr_heap f)) f) w' → sim l s (K tt) a Φ w') →
  sim l s (store (Some k) y ≫= K) a Φ w.
Proof.
  intros Hr Hk HK. destruct (Hr) as [g Hg]. destruct (frame_lookup _ _ _ _ _ _ _ Hg Hk) as [_ ?].
  apply sim_step. eapply wp_store; [done|]. eapply HK. by eapply rep_frame_insert.
Qed.

Lemma sim_modify {T} `{Storable T} f k (x : T) upd (K : unit → M A) w :
  rep l s f w → points_to (fr_heap f) k x →
  (∀ w', rep l s (set_fr_heap (<[k := inject (upd x)]> (fr_heap f)) f) w' →
    sim l s (K tt) a Φ w') →
  sim l s (modify (Some k) upd ≫= K) a Φ w.
Proof.
  intros Hr Hk HK. destruct (Hr) as [g Hg]. destruct (frame_lookup _ _ _ _ _ _ _ Hg Hk) as [_ ?].
  apply sim_step. eapply wp_modify; [done|]. eapply HK. by eapply rep_frame_insert.
Qed.

Lemma sim_free f k o (K : unit → M A) w :
  rep l s f w → fr_heap f !! k = Some o →
  (∀ w', rep l s (set_fr_heap (delete k (fr_heap f)) f) w' → sim l s (K tt) a Φ w') →
  sim l s (free (Some k) ≫= K) a Φ w.
Proof.
  intros Hr Hk HK. destruct (Hr) as [g Hg]. destruct (frame_lookup _ _ _ _ _ _ _ Hg Hk) as [_ ?].
  apply sim_step. eapply wp_free; [done|]. eapply HK. by eapply rep_frame_delete.
Qed.

Lemma sim_memcpy_to f k (cells : buffer) bs (K : unit → M A) w :
  rep l s f w → points_to (fr_heap f) k cells → (length bs ≤ length cells)%nat →
  (∀ w', rep l s (set_fr_heap
      (<[k := inject ((Some <$> bs) ++ drop (length bs) cells : buffer)]> (fr_heap f)) f) w' →
    sim l s (K tt) a Φ w') →
  sim l s (memcpy_to (Some k) bs ≫= K) a Φ w.
Proof.
  intros Hr Hk Hlen HK. destruct (Hr) as [g Hg].
  destruct (frame_lookup _ _ _ _ _ _ _ Hg Hk) as [_ ?].
  apply sim_step. eapply wp_memcpy_to; [done|done|]. eapply HK. by eapply rep_frame_insert.
Qed.

Lemma sim_malloc {T} `{Storable T} f (x : T) (K : ptr → M A) (K' : bool → Spec B) w :
  rep l s f w →
  (∀ k s' w', fr_heap f !! k = None →
    rep l s' (set_fr_heap (<[k := inject x]> (fr_heap f)) f) w' →
    sim l s' (K (Some k)) (K' true) Φ w') →
  (∀ s' w', rep l s' f w' → sim l s' (K NULL) (K' false) Φ w') →
  sim l s (malloc x ≫= K) (s_malloc ≫= K') Φ w.
Proof.
  intros Hr Hok Hfail Hns. destruct (Hr) as [g Hg]. pose proof (rep_mallocs _ _ _ _ _ Hg) as Hms.
  revert Hns. unfold s_malloc, mbind, Spec_bind. rewrite Hms. intros Hns. apply wp_bind.
  apply wp_malloc.
  - intros ms Hw. rewrite Hw in Hns |- *. simpl in *. eapply Hfail; [|done].
    by apply rep_set_mallocs.
  - intros k Hhd Hk. rewrite Hhd in Hns |- *. eapply Hok; [|by apply rep_frame_alloc|done].
    by eapply frame_fresh.
Qed.
End frame_steps.

(** ** Lists outside of a session *)

Definition without (ls : list loc) (h : heap) : heap := filter (λ p, p.1 ∉ ls) h.

Lemma freed_without ls h : freed ls h (without ls h).
Proof.
  intros k. unfold without. case_decide as Hk.
  - apply map_lookup_filter_None. right. intros o _ Hn. by apply Hn.
  - destruct (h !! k) as [o|] eqn:Ho.
    + by apply map_lookup_filter_Some.
    + apply map_lookup_filter_None. by left.
Qed.

Lemma frame_subseteq l s f w : rep l s f w → fr_heap f ⊆ w_heap w.
Proof.
  intros [g Hr]. apply map_subseteq_spec. intros k o Hk. by eapply frame_lookup.
Qed.

(** An operation that only changes a region [R] of the frame. *)
Lemma rep_region l s f w h' ms (R : loc → Prop) :
  rep l s f w → (∀ k, ¬ R k → h' !! k = w_heap w !! k) →
  (∀ k, R k → is_Some (fr_heap f !! k) ∨ w_heap w !! k = None) →
  ∃ fh, rep l (set_ss_mallocs ms s) (set_fr_heap fh f) (set_mallocs ms (set_heap h' w)) ∧
    (∀ k, R k → fh !! k = h' !! k) ∧ (∀ k, ¬ R k → fh !! k = fr_heap f !! k).
Proof.
  intros [g Hr] Hh HR.
  assert (∀ k, R k → k ∉ footprint l g) as Hout.
  { intros k [[o Hk]|Hk]%HR; [by eapply frame_lookup|by eapply frame_fresh]. }
  exists (without (footprint l g) h'). pose proof (freed_without (footprint l g) h') as Hf.
  repeat split.
  - eapply rep_change_frame; [done| |done]. intros k Hk. apply Hh. intros ?%Hout. done.
  - intros k Hk%Hout. by rewrite Hf, decide_False.
  - intros k Hk. rewrite Hf, Hh by done. symmetry. apply Hr.
Qed.

Section list_steps.
Context (l : loc) {A B : Type} (s : session) (Φ : frame → A → B → Prop).

Lemma sim_list_add f lp fm ns v (K : Z → M A) (K' : bool → Spec B) w :
  rep l s f w → dlist (fr_heap f) lp fm ns → Z.of_nat (length ns) + 1 < 2 ^ 64 →
  (∀ n s' fh w', fr_heap f !! n = None → rep l s' (set_fr_heap fh f) w' →
    dlist fh lp fm ((n, v) :: ns) →
    (∀ k, k ≠ lp → k ≠ n → k ∉ ns.*1 → fh !! k = fr_heap f !! k) →
    sim l s' (K EMQ_STATUS_OK) (K' true) Φ w') →
  (∀ s' w', rep l s' f w' → sim l s' (K EMQ_STATUS_ERR) (K' false) Φ w') →
  sim l s (emq_list_add_value (Some lp) (Some v) ≫= K) (s_malloc ≫= K') Φ w.
Proof.
  intros Hr Hd Hroom Hok Hfail Hns. destruct (Hr) as [g Hg].
  pose proof (rep_mallocs _ _ _ _ _ Hg) as Hms. pose proof (frame_subseteq _ _ _ _ Hr) as Hsub.
  revert Hns. unfold s_malloc, mbind, Spec_bind. rewrite Hms. intros Hns. apply wp_bind.
  eapply wp_list_add; [by eapply dlist_weaken|done| |].
  - intros ms Hw. rewrite Hw in Hns |- *. simpl in *. eapply Hfail; [|done].
    by apply rep_set_mallocs.
  - intros n h' Hhd Hn Hd' Hh'. rewrite Hhd in Hns |- *.
    destruct (rep_region l s f w h' (tail (w_mallocs w))
      (λ k, k = lp ∨ k = n ∨ k ∈ ns.*1) Hr) as (fh & Hr' & Hin & Hfh).
    + intros k Hk. apply Hh'; naive_solver.
    + intros k [->|[->|Hk]]; [left|by right|left].
      * destruct Hd. eauto.
      * destruct (dlseg_node _ _ _ _ _ (dlist_nodes _ _ _ _ Hd) Hk) as [??]. eauto.
    + eapply (Hok n); [by eapply frame_fresh|done| |naive_solver|done].
      eapply dlist_frame; [|done]. csimpl. intros k Hk. rewrite elem_of_cons in Hk.
      apply Hin. tauto.
Qed.

Lemma sim_list_release f lp fm ns (a : Spec B) (K : unit → M A) w :
  rep l s f w → dlist (fr_heap f) lp fm ns → NoDup (lp :: ns.*1 ++ owned fm ns) →
  Forall (λ v, is_Some (fr_heap f !! v)) (owned fm ns) →
  (∀ fh w', rep l s (set_fr_heap fh f) w' →
    freed (lp :: ns.*1 ++ owned fm ns) (fr_heap f) fh → sim l s (K tt) a Φ w') →
  sim l s (emq_list_release (Some lp) ≫= K) a Φ w.
Proof.
  intros Hr Hd Hnd Hown HK. pose proof (frame_subseteq _ _ _ _ Hr) as Hsub.
  apply sim_step. eapply wp_list_release; [by eapply dlist_weaken|done| |].
  { eapply Forall_impl; [exact Hown|]. intros v [o Hv]. exists o. by eapply lookup_weaken. }
  intros h' Hf. destruct (Hr) as [g Hg]. pose proof (rep_mallocs _ _ _ _ _ Hg) as Hms.
  destruct (rep_region l s f w h' (w_mallocs w)
    (λ k, k ∈ lp :: ns.*1 ++ owned fm ns) Hr) as (fh & Hr' & Hin & Hfh).
  - intros k Hk. rewrite Hf. by rewrite decide_False.
  - intros k Hk. left. apply elem_of_cons in Hk as [->|[Hk|Hk]%elem_of_app].
    + destruct Hd. eauto.
    + destruct (dlseg_node _ _ _ _ _ (dlist_nodes _ _ _ _ Hd) Hk) as [??]. eauto.
    + rewrite Forall_forall in Hown. by apply Hown.
  - rewrite <-Hms, set_ss_mallocs_id, Hms in Hr'.
    eapply (HK fh); [exact Hr'|]. intros k. case_decide as Hk; [|by apply Hfh].
    rewrite Hin, Hf by done. by rewrite decide_True.
Qed.
End list_steps.
