(* ===== verification/Connection.v ===== *)
(** The life of a connection (lines 75-126 and 483-527 of [src/src/emq.c]): connecting produces a
    represented session, disconnecting gives everything back. *)

From S2P Require Import Prelude Types Machine Lists Network Client Session.

(** ** The environment of a connection *)

(** The next [n] allocations succeed. *)
Definition all_true (n : nat) (ms : list bool) : Prop := Forall (eq true) (take n ms).
Definition allocs (n : nat) (w : world) : Prop := all_true n (w_mallocs w).
(** The next [n] system calls succeed. *)
Definition all_none (n : nat) (rs : list (option string)) : Prop := Forall (eq None) (take n rs).
Definition calls (n : nat) (w : world) : Prop := all_none n (w_sys w).

(** The socket that the next call of [socket] creates. *)
Definition next_sock (w : world) : sock := default (mk_sock [] [] []) (head (w_peers w)).

Lemma all_true_S n ms : all_true (S n) ms → hd true ms = true ∧ all_true n (tail ms).
Proof.
  unfold all_true. destruct ms as [|b ms]; simpl; [by rewrite take_nil|].
  by intros [<- ?]%Forall_cons.
Qed.

Lemma all_none_S n rs : all_none (S n) rs → default None (head rs) = None ∧ all_none n (tail rs).
Proof.
  unfold all_none. destruct rs as [|r rs]; simpl; [by rewrite take_nil|].
  by intros [<- ?]%Forall_cons.
Qed.

Lemma all_none_le m n rs : (m ≤ n)%nat → all_none n rs → all_none m rs.
Proof.
  intros Hm Hn. unfold all_none in *. replace (take m rs) with (take m (take n rs)).
  - by apply Forall_take.
  - rewrite take_take. f_equal. lia.
Qed.

Lemma all_none_drop m n rs : all_none (m + n) rs → all_none n (drop m rs).
Proof. unfold all_none. rewrite take_drop_commute. apply Forall_drop. Qed.

Lemma drop_tail {A} n (xs : list A) : tail (drop n xs) = drop (S n) xs.
Proof.
  revert xs. induction n as [|n IH]; intros [|x xs]; [done..|]. simpl. rewrite IH. by destruct xs.
Qed.

Lemma fresh_fd_pos socks : 3 ≤ fresh_fd socks.
Proof.
  unfold fresh_fd. apply (map_fold_weak_ind (λ m _, 3 ≤ m)); [done|]. intros; lia.
Qed.

Lemma fresh_fd_bound socks fd : is_Some (socks !! fd) → fd < fresh_fd socks.
Proof.
  unfold fresh_fd. revert fd.
  apply (map_fold_weak_ind (λ m socks, ∀ fd, is_Some (socks !! fd) → fd < m)).
  - intros fd []%lookup_empty_is_Some.
  - intros i x m r Hi IH fd [<-|Hfd]%lookup_insert_is_Some'; [lia|].
    specialize (IH _ Hfd). lia.
Qed.

Lemma fresh_fd_fresh socks : socks !! fresh_fd socks = None.
Proof.
  destruct (socks !! fresh_fd socks) eqn:Heq; [|done].
  assert (fresh_fd socks < fresh_fd socks) by (apply fresh_fd_bound; eauto). lia.
Qed.

(** The location of a new block is none of the others. *)
Ltac new_block H :=
  repeat first
    [ rewrite lookup_insert_None in H; let Hne := fresh "Hne" in destruct H as [H Hne] ].

Section wp.
Context (blk : Prop).

Lemma wp_malloc_ok {T} `{Storable T} (x : T) (Q : ptr → world → Prop) w :
  hd true (w_mallocs w) = true →
  (∀ l, w_heap w !! l = None →
    Q (Some l) (set_mallocs (tail (w_mallocs w)) (set_heap (<[l := inject x]> (w_heap w)) w))) →
  wp blk (malloc x) Q w.
Proof.
  intros Hhd HQ. apply wp_malloc; [|auto]. intros ms Hms. by rewrite Hms in Hhd.
Qed.

Lemma wp_sys_call_ok (Q : option string → world → Prop) w :
  default None (head (w_sys w)) = None → Q None (set_sys (tail (w_sys w)) w) →
  wp blk sys_call Q w.
Proof. intros Hs HQ. unfold wp, sys_call. by rewrite Hs. Qed.

(** The initial client. *)
Definition initial_client (request queues channels : loc) : emq_client :=
  mk_client EMQ_STATUS_OK "" (Some request) EMQ_DEFAULT_REQUEST_SIZE 0 0 0 (Some queues)
    (Some channels).
Definition empty_list (m : free_method) : emq_list := mk_list NULL NULL 0 (Some m).

Lemma wp_client_init (Q : ptr → world → Prop) w :
  allocs 4 w →
  (∀ l r q c w', NoDup [l; r; q; c] → Forall (λ k, w_heap w !! k = None) [l; r; q; c] →
    w' = set_mallocs (drop 4 (w_mallocs w)) (set_heap
      (<[l := inject (initial_client r q c)]>
        (<[r := inject (uninit EMQ_DEFAULT_REQUEST_SIZE)]>
          (<[q := inject (empty_list emq_queue_subscription_list_free_handler)]>
            (<[c := inject (empty_list emq_channel_subscription_list_free_handler)]>
              (w_heap w))))) w) →
    Q (Some l) w') →
  wp blk emq_client_init Q w.
Proof.
  intros [H1 [H2 [H3 [H4 _]%all_true_S]%all_true_S]%all_true_S]%all_true_S HQ.
  unfold emq_client_init. apply wp_bind, wp_malloc_ok; [done|].
  intros l Hl. unfold EMQ_CLEAR_ERROR, EMQ_SET_STATUS, EMQ_LIST_SET_FREE_METHOD, emq_list_init.
  wp_exec. apply wp_malloc_ok; [done|]. world_simpl. intros r Hr.
  new_block Hr. wp_exec. apply wp_malloc_ok; [done|]. world_simpl. intros q Hq.
  new_block Hq. wp_exec. apply wp_malloc_ok; [done|]. world_simpl. intros c Hc.
  new_block Hc. wp_exec. apply (HQ l r q c).
  - repeat (apply NoDup_cons; split; [in_list|]). constructor.
  - by repeat constructor.
  - destruct w as [h ms ? ? ?]. unfold set_mallocs, set_heap. simpl.
    f_equal; [|by destruct ms as [|? [|? [|? [|? ms]]]]].
    apply map_eq. intros k. rewrite !lookup_insert. by repeat case_decide; simplify_eq.
Qed.

Lemma wp_create_socket client (Q : Z → world → Prop) w :
  calls 2 w →
  Q (fresh_fd (w_socks w)) (set_sys (drop 2 (w_sys w)) (set_peers (tail (w_peers w))
      (set_sock (fresh_fd (w_socks w)) (next_sock w) w))) →
  wp blk (net_create_socket client) Q w.
Proof.
  intros [H1 [H2 _]%all_none_S]%all_none_S HQ. unfold net_create_socket.
  apply wp_bind, wp_sys_call_ok; [done|]. apply wp_bind. unfold wp at 1, new_socket. simpl.
  apply wp_bind, wp_sys_call_ok; [done|]. apply wp_ret.
  destruct w as [h ms ss sys peers]. simpl in *. by destruct sys as [|? [|? sys]].
Qed.
End wp.

(** ** Sessions of new connections *)

(** The session that a connection to [sk] starts. *)
Definition new_session (sk : sock) (ms : list bool) : session :=
  mk_session EMQ_STATUS_OK "" 0 [] [] (flatten (sk_rx sk)) (sk_wr sk) (sk_tx sk) ms.

Lemma uninit_length n : 0 ≤ n → Z.of_nat (length (uninit n)) = n.
Proof. intros Hn. unfold uninit. rewrite length_replicate. lia. Qed.

(** A client with empty lists and the descriptor [fd] represents it. *)
Lemma rep_new w l r q c fd sk :
  NoDup [l; r; q; c] → Forall (λ k, w_heap w !! k = None) [l; r; q; c] →
  w_socks w !! fd = None →
  ∀ w' cells,
    w_heap w' =
      <[l := inject (set_client_fd fd (initial_client r q c))]>
        (<[r := inject (cells : buffer)]>
          (<[q := inject (empty_list emq_queue_subscription_list_free_handler)]>
            (<[c := inject (empty_list emq_channel_subscription_list_free_handler)]>
              (w_heap w)))) →
    Z.of_nat (length cells) = EMQ_DEFAULT_REQUEST_SIZE →
    w_socks w' = <[fd := sk]> (w_socks w) →
    rep l (new_session sk (w_mallocs w'))
      (mk_frame (w_heap w) (w_socks w) (w_sys w') (w_peers w')) w'.
Proof.
  intros Hnd Hfresh Hfd w' cells Hh Hcells Hs.
  exists (mk_placement (set_client_fd fd (initial_client r q c)) r cells q [] c [] sk).
  assert (l ≠ r ∧ l ≠ q ∧ l ≠ c ∧ r ≠ q ∧ r ≠ c ∧ q ≠ c) as (?&?&?&?&?&?).
  { rewrite !NoDup_cons in Hnd. set_solver. }
  constructor; simpl; rewrite ?Hh, ?Hs; try done; try (by simplify_map_eq).
  - constructor; simpl; [by simplify_map_eq|done|constructor|lia].
  - constructor; simpl; [by simplify_map_eq|done|constructor|lia].
  - repeat apply freed_alloc; simplify_map_eq; try done.
    all: rewrite ?Forall_cons in Hfresh; try tauto.
  - by rewrite delete_insert_id.
Qed.

(** ** Connecting *)

(** What a connection reports of the environment it was made in: [n] system calls later. *)
Definition connected (n : nat) (w : world) (l : loc) (w' : world) : Prop :=
  rep l (new_session (next_sock w) (drop 4 (w_mallocs w)))
    (mk_frame (w_heap w) (w_socks w) (drop n (w_sys w)) (tail (w_peers w))) w'.

Section connecting.
Context (blk : Prop).

(** [connect] is the rest of a connection, once the socket exists: [n] more system calls. *)
Lemma wp_connect n (connect : ptr → M Z) (Q : ptr → world → Prop) w :
  allocs 4 w →
  (∀ l r q c w' (Q : Z → world → Prop),
    points_to (w_heap w') l (initial_client r q c) → w_sys w' = w_sys w →
    w_socks w' = w_socks w → w_peers w' = w_peers w →
    Q EMQ_NET_OK (set_sys (drop n (w_sys w)) (set_peers (tail (w_peers w))
      (set_sock (fresh_fd (w_socks w)) (next_sock w)
        (set_heap (<[l := inject (set_client_fd (fresh_fd (w_socks w)) (initial_client r q c))]>
          (w_heap w')) w')))) →
    wp blk (connect (Some l)) Q w') →
  (∀ l w', connected n w l w' → Q (Some l) w') →
  wp blk (client ← emq_client_init;
    match client with
    | None => mret NULL
    | Some _ =>
        EMQ_CLEAR_ERROR client;;
        r ← connect client;
        if decide (r = EMQ_NET_ERR) then emq_client_release client;; mret NULL else
        EMQ_SET_STATUS client EMQ_STATUS_OK;;
        mret client
    end) Q w.
Proof.
  intros Ha Hconnect HQ. apply wp_bind, wp_client_init; [done|].
  intros l r q c w1 Hnd Hfresh ->. unfold EMQ_CLEAR_ERROR, EMQ_SET_STATUS. wp_exec.
  apply (Hconnect _ r q c); [simpl; by simplify_map_eq|done..|].
  rewrite decide_False by done. wp_exec. apply HQ.
  unfold connected. match goal with |- rep _ _ _ ?w' =>
    refine (rep_new w l r q c _ (next_sock w) Hnd Hfresh (fresh_fd_fresh _) w'
      (uninit EMQ_DEFAULT_REQUEST_SIZE) _ _ _) end.
  - cbn. by rewrite !insert_insert_eq.
  - unfold uninit. by rewrite length_replicate.
  - done.
Qed.

Lemma wp_tcp_connect addr port (Q : ptr → world → Prop) w :
  allocs 4 w → calls (tcp_calls addr) w →
  (∀ l w', connected (tcp_calls addr) w l w' → Q (Some l) w') →
  wp blk (emq_tcp_connect addr port) Q w.
Proof.
  intros Ha Hs HQ. apply (wp_connect (tcp_calls addr) (λ c, emq_client_tcp_connect c addr port)); [done| |done].
  clear Q HQ. intros l r q c w' Q Hl Hsys Hsocks Hpeers HQ. unfold emq_client_tcp_connect.
  pose proof (fresh_fd_pos (w_socks w)).
  apply wp_bind, wp_create_socket.
  { unfold calls, tcp_calls in *. rewrite Hsys. destruct (inet_aton addr);
      [by apply (all_none_le 2 4); [lia|]|by apply (all_none_le 2 5); [lia|]]. }
  rewrite Hsys, Hsocks, Hpeers. unfold next_sock. rewrite Hpeers. wp_exec.
  rewrite decide_False by (unfold EMQ_NET_ERR; lia). unfold resolve, net_tcp_nodelay, tcp_calls in *.
  apply wp_bind. destruct (inet_aton addr); [apply wp_ret; cbn [negb]|].
  - apply (all_none_drop 2 2), all_none_S in Hs as [H1 [H2 _]%all_none_S]. rewrite !drop_tail in *.
    apply wp_bind, wp_sys_call_ok; [done|]. wp_exec. apply wp_sys_call_ok; [simpl; by rewrite !drop_tail|].
    wp_exec. rewrite !drop_tail. exact HQ.
  - apply (all_none_drop 2 3), all_none_S in Hs as [H1 [H2 [H3 _]%all_none_S]%all_none_S].
    rewrite !drop_tail in *. apply wp_bind, wp_sys_call_ok; [done|]. wp_exec.
    apply wp_sys_call_ok; [simpl; by rewrite drop_tail|]. wp_exec.
    apply wp_sys_call_ok; [simpl; by rewrite !drop_tail|]. wp_exec. rewrite !drop_tail. exact HQ.
Qed.

Lemma wp_unix_connect path (Q : ptr → world → Prop) w :
  allocs 4 w → calls 3 w → (∀ l w', connected 3 w l w' → Q (Some l) w') →
  wp blk (emq_unix_connect path) Q w.
Proof.
  intros Ha Hs HQ. apply (wp_connect 3 (λ c, emq_client_unix_connect c path)); [done| |done].
  clear Q HQ. intros l r q c w' Q Hl Hsys Hsocks Hpeers HQ. unfold emq_client_unix_connect.
  pose proof (fresh_fd_pos (w_socks w)).
  apply wp_bind, wp_create_socket.
  { unfold calls in *. rewrite Hsys. by apply (all_none_le 2 3); [lia|]. }
  apply (all_none_drop 2 1), all_none_S in Hs as [H1 _].
  rewrite Hsys, Hsocks, Hpeers. unfold next_sock. rewrite Hpeers. wp_exec.
  rewrite decide_False by (unfold EMQ_NET_ERR; lia).
  apply wp_bind, wp_sys_call_ok; [done|]. wp_exec. rewrite !drop_tail. exact HQ.
Qed.
End connecting.

(** ** Disconnecting *)

(** Disconnecting leaves exactly the frame: nothing of the client is left. *)
Definition is_frame (f : frame) (w : world) : Prop :=
  w_heap w = fr_heap f ∧ w_socks w = fr_socks f ∧ w_sys w = fr_sys f ∧ w_peers w = fr_peers f.

Lemma wp_client_release blk l s f w w0 (Q : unit → world → Prop) :
  rep l s f w → w_heap w0 = w_heap w → (∀ h', h' = fr_heap f → Q tt (set_heap h' w0)) →
  wp blk (emq_client_release (Some l)) Q w0.
Proof.
  intros [g []] Hw0 HQ. rewrite <-Hw0 in *. unfold emq_client_release. apply wp_bind. eapply wp_load; [done|].
  rewrite rep_queues, rep_channels, rep_request.
  unfold footprint in *.
  apply NoDup_cons in rep_nodup as [Hl Hnd]. apply NoDup_cons in Hnd as [Hr Hnd].
  apply NoDup_app in Hnd as (Hq & Hqc & Hc).
  apply wp_bind. eapply wp_list_release; [done|done| |].
  { apply Forall_forall. intros v Hv. exact (Forall2_points_to_some _ _ _ _ rep_queue_values Hv). }
  intros h1 Hf1. apply wp_bind. cbn [owned] in *.
  assert (∀ k, k ∉ lo_queues g :: (lo_queue_nodes g).*1 ++ (lo_queue_nodes g).*2 →
    h1 !! k = w_heap w0 !! k) as Hk1 by (intros k Hk; by rewrite Hf1, decide_False).
  assert (∀ k, k ∈ lo_channels g :: (lo_channel_nodes g).*1 ++ (lo_channel_nodes g).*2 →
    h1 !! k = w_heap w0 !! k) as Hk2 by (intros k Hk; apply Hk1; intros Hk'; by eapply Hqc).
  eapply wp_list_release; simpl.
  { eapply dlist_frame; [|exact rep_channel_list]. intros k Hk. apply Hk2. in_list. }
  { exact Hc. }
  { apply Forall_forall. intros v Hv. simpl. rewrite Hk2 by in_list.
    exact (Forall2_points_to_some _ _ _ _ rep_channel_values Hv). }
  intros h2 Hf2. world_simpl. simpl in Hf2. cbn [owned] in Hf2.
  assert (h2 !! lo_request g = Some (inject (lo_cells g))) as Hreq.
  { rewrite Hf2, decide_False, Hk1 by in_list. done. }
  assert (h2 !! l = Some (inject (lo_client g))) as Hcl.
  { rewrite Hf2, decide_False, Hk1 by in_list. done. }
  assert (l ≠ lo_request g) by (intros ->; in_list).
  apply wp_bind. eapply wp_free; [exact Hreq|]. world_simpl.
  eapply wp_free; [simpl; by rewrite lookup_delete_ne|]. world_simpl.
  apply HQ. simpl. apply map_eq. intros k. rewrite (rep_frame k).
  destruct (decide (k = l)) as [->|Hkl].
  { rewrite lookup_delete_eq. by rewrite decide_True by by left. }
  rewrite lookup_delete_ne by done. destruct (decide (k = lo_request g)) as [->|Hkr].
  { rewrite lookup_delete_eq. by rewrite decide_True by by right; left. }
  rewrite lookup_delete_ne, Hf2, Hf1 by done.
  repeat case_decide; try done; exfalso; in_list.
Qed.

(** The process of the frame [f], with the given fates of the next allocations. *)
Definition world_of (f : frame) (ms : list bool) : world :=
  mk_world (fr_heap f) ms (fr_socks f) (fr_sys f) (fr_peers f).

Lemma is_frame_world_of f ms : is_frame f (world_of f ms).
Proof. done. Qed.
#[export] Hint Resolve is_frame_world_of : emq.

Lemma wp_disconnect blk l s f w (Q : unit → world → Prop) :
  rep l s f w → Q tt (world_of f (ss_mallocs s)) → wp blk (emq_disconnect (Some l)) Q w.
Proof.
  intros [g Hr] HQ. destruct (Hr).
  apply wp_bind, wp_bind. eapply wp_load; [done|]. unfold wp at 1, sys_close.
  eapply wp_client_release; [by exists g|done|]. intros h' ->.
  unfold world_of in HQ. rewrite rep_socks, rep_sys, rep_peers, rep_mallocs in HQ. exact HQ.
Qed.

Lemma disconnect_returns l s f w :
  rep l s f w → emq_disconnect (Some l) w = Returns tt (world_of f (ss_mallocs s)).
Proof.
  intros Hr. destruct (proj1 (wp_returns (emq_disconnect (Some l))
    (λ _ w', w' = world_of f (ss_mallocs s)) w)) as ([] & w' & Hw & ->); [by eapply wp_disconnect|done].
Qed.

(** ** Failures of a connection *)

Section failing.
Context (blk : Prop) (l : loc) (c : emq_client) (w : world).
Let fd := fresh_fd (w_socks w).

(** The world once the socket of the client was created. *)
Definition with_socket (w' : world) : Prop :=
  w_heap w' = <[l := inject (set_client_fd fd c)]> (w_heap w) ∧
  w_socks w' = <[fd := next_sock w]> (w_socks w).

(** [setsockopt(SO_REUSEADDR)] fails. *)
Definition option_refused : Prop := ∃ msg rest, w_sys w = None :: Some msg :: rest.

(** The world once an error was reported: the socket was closed, unless its option was refused. *)
Definition without_socket (w' : world) : Prop :=
  (∃ msg fd', w_heap w' = <[l := inject (set_client_error msg (set_client_fd fd' c))]> (w_heap w)) ∧
  (w_socks w' = w_socks w ∨ option_refused ∧ w_socks w' = <[fd := next_sock w]> (w_socks w)).

Lemma wp_sys_call (Q : option string → world → Prop) w' :
  with_socket w' → (∀ r w'', with_socket w'' → Q r w'') → wp blk sys_call Q w'.
Proof. intros Hw HQ. by apply HQ. Qed.

Lemma wp_close (Q : Z → world → Prop) w' :
  (∃ msg, w_heap w' = <[l := inject (set_client_error msg (set_client_fd fd c))]> (w_heap w)) →
  w_socks w' = <[fd := next_sock w]> (w_socks w) →
  (∀ w'', without_socket w'' → Q EMQ_NET_ERR w'') → wp blk (close_client_fd (Some l)) Q w'.
Proof.
  intros [msg Hh] Hs HQ. unfold close_client_fd.
  apply wp_bind. eapply wp_load; [rewrite Hh; apply lookup_insert_eq|]. apply wp_bind.
  unfold wp at 1, sys_close. apply wp_ret, HQ. split; [by exists msg, fd|].
  left. simpl. rewrite Hs. apply delete_insert_id, fresh_fd_fresh.
Qed.

Lemma wp_set_error msg (Q : unit → world → Prop) w' :
  with_socket w' →
  (∀ w'', (∃ msg, w_heap w'' =
      <[l := inject (set_client_error msg (set_client_fd fd c))]> (w_heap w)) →
    w_socks w'' = <[fd := next_sock w]> (w_socks w) → Q tt w'') →
  wp blk (net_set_error (Some l) msg) Q w'.
Proof.
  intros [Hh Hs] HQ. eapply wp_modify; [rewrite Hh; apply lookup_insert_eq|].
  apply HQ; [|done]. simpl. rewrite Hh, insert_insert_eq. by eexists.
Qed.

(** [net_create_socket], whatever fails. *)
Lemma wp_create_socket_total (Q : Z → world → Prop) :
  points_to (w_heap w) l c →
  (∀ w', w_heap w' = w_heap w → w_socks w' = <[fd := next_sock w]> (w_socks w) → Q fd w') →
  (∀ msg w', w_heap w' = <[l := inject (set_client_error msg c)]> (w_heap w) →
    (w_socks w' = w_socks w ∨ option_refused ∧ w_socks w' = <[fd := next_sock w]> (w_socks w)) →
    Q EMQ_NET_ERR w') →
  wp blk (net_create_socket (Some l)) Q w.
Proof.
  intros Hl Hok Herr. unfold net_create_socket. apply wp_bind. unfold wp at 1, sys_call.
  destruct (default None (head (w_sys w))) as [msg|] eqn:H1.
  { apply wp_bind. eapply wp_modify; [exact Hl|]. apply wp_ret. eapply Herr; [done|by left]. }
  apply wp_bind. unfold wp at 1, new_socket. apply wp_bind. unfold wp at 1, sys_call. simpl.
  destruct (default None (head (tail (w_sys w)))) as [msg|] eqn:H2; [|by apply wp_ret, Hok].
  apply wp_bind. eapply wp_modify; [exact Hl|]. apply wp_ret. eapply Herr; [done|]. right.
  split; [|done]. unfold option_refused.
  destruct (w_sys w) as [|r1 [|r2 sys]]; simpl in *; try done. subst. eauto.
Qed.

(** A TCP connection succeeds, or reports an error. *)
Lemma wp_client_tcp_connect addr port (Q : Z → world → Prop) :
  points_to (w_heap w) l c →
  (∀ w', with_socket w' → Q EMQ_NET_OK w') → (∀ w', without_socket w' → Q EMQ_NET_ERR w') →
  wp blk (emq_client_tcp_connect (Some l) addr port) Q w.
Proof.
  intros Hl Hok Herr. pose proof (fresh_fd_pos (w_socks w) : 3 ≤ fd).
  unfold emq_client_tcp_connect. apply wp_bind, wp_create_socket_total; [done| |].
  2:{ intros msg w1 Hh Hs. apply wp_bind. eapply wp_modify; [rewrite Hh; apply lookup_insert_eq|].
      rewrite decide_True by done. apply wp_ret, Herr. split; [|exact Hs].
      exists msg, EMQ_NET_ERR. simpl. by rewrite Hh, insert_insert_eq. }
  intros w0 Hh0 Hs0. apply wp_bind. eapply wp_modify; [rewrite Hh0; exact Hl|].
  rewrite decide_False by (unfold EMQ_NET_ERR; lia). apply wp_bind. rewrite Hh0.
  set (w1 := set_heap _ w0). assert (with_socket w1) as Hw1 by done.
  assert (∀ Q : bool → world → Prop,
    (∀ w', with_socket w' → Q true w') →
    (∀ w', (∃ msg, w_heap w' =
        <[l := inject (set_client_error msg (set_client_fd fd c))]> (w_heap w)) →
      w_socks w' = <[fd := next_sock w]> (w_socks w) → Q false w') →
    wp blk (resolve (Some l) addr) Q w1) as Hres.
  { intros Q' Ht Hf. unfold resolve. destruct (inet_aton addr); [by apply wp_ret, Ht|].
    apply wp_bind, wp_sys_call; [done|]. intros [msg|] w2 Hw2; [|by apply wp_ret, Ht].
    apply wp_bind, wp_set_error; [done|]. intros w3 ??. by apply wp_ret, Hf. }
  apply Hres; simpl; [|intros; by apply wp_close].
  intros w2 Hw2. apply wp_bind, wp_sys_call; [done|]. intros [msg|] w3 Hw3.
  { apply wp_bind, wp_set_error; [done|]. intros. by apply wp_close. }
  unfold net_tcp_nodelay. apply wp_bind, wp_bind, wp_sys_call; [done|]. intros [msg|] w4 Hw4.
  - apply wp_bind, wp_set_error; [done|]. intros. apply wp_ret. simpl. by apply wp_close.
  - apply wp_ret. simpl. apply wp_ret. by apply Hok.
Qed.
End failing.

Lemma wp_tcp_connect_total blk addr port (Q : ptr → world → Prop) w :
  allocs 4 w →
  (∀ l w' s f, rep l s f w' → fr_heap f = w_heap w → fr_socks f = w_socks w →
    ss_status s = EMQ_STATUS_OK → Q (Some l) w') →
  (∀ w', w_heap w' = w_heap w → (w_socks w' = w_socks w ∨
      option_refused w ∧ w_socks w' = <[fresh_fd (w_socks w) := next_sock w]> (w_socks w)) →
    Q NULL w') →
  wp blk (emq_tcp_connect addr port) Q w.
Proof.
  intros Ha Hok Herr. unfold emq_tcp_connect. apply wp_bind, wp_client_init; [done|].
  intros l r q c w1 Hnd Hfresh ->. unfold EMQ_CLEAR_ERROR, EMQ_SET_STATUS. wp_exec.
  set (w2 := set_heap _ _). set (c0 := set_client_error "" (initial_client r q c)).
  apply (wp_client_tcp_connect _ l c0).
  - apply lookup_insert_eq.
  - intros w3 [Hh3 Hs3]. rewrite decide_False by done.
    wp_exec1. eapply wp_modify; [rewrite Hh3; apply lookup_insert_eq|]. apply wp_ret.
    eapply Hok.
    { match goal with |- rep _ _ _ ?w' =>
      refine (rep_new w l r q c (fresh_fd (w_socks w)) (next_sock w) Hnd Hfresh (fresh_fd_fresh _) w'
        (uninit EMQ_DEFAULT_REQUEST_SIZE) _ (uninit_length EMQ_DEFAULT_REQUEST_SIZE ltac:(done)) Hs3) end.
      cbn. rewrite Hh3. cbn. rewrite !insert_insert_eq. done. }
    all: done.
  - intros w3 [(msg & fd' & Hh3) Hs3]. rewrite decide_True by done. wp_exec1.
    pose (wx := mk_world (<[l := inject (set_client_fd fd' (initial_client r q c))]>
      (w_heap w2)) [] {[fd' := next_sock w]} [] []).
    assert (rep l (new_session (next_sock w) []) (mk_frame (w_heap w) ∅ [] []) wx)
      as [g Hg].
    { apply (rep_new (set_socks ∅ w) l r q c fd' (next_sock w) Hnd Hfresh (lookup_empty fd') wx
        (uninit EMQ_DEFAULT_REQUEST_SIZE)); [|by apply uninit_length|done].
      cbn. by rewrite !insert_insert_eq. }
    assert (lo_client g = set_client_fd fd' (initial_client r q c)) as Hc.
    { eapply (points_to_agree (w_heap wx) l); [apply Hg|apply lookup_insert_eq]. }
    pose proof (rep_set_client _ _ _ _ _ (set_client_error msg (lo_client g)) Hg) as Hr.
    rewrite Hc in Hr. eapply wp_client_release; [by apply Hr| |].
    + rewrite Hh3. subst w2 wx. cbn. rewrite !insert_insert_eq. done.
    + intros h' ->. apply wp_ret. by apply Herr.
Qed.

(** ** Theorems *)

(** Fact: when memory and the system calls are there, [emq_tcp_connect] and
    [emq_unix_connect] return a client that represents a fresh session on the socket they
    opened: status [EMQ_STATUS_OK], no error, acknowledgements on, no subscriptions, everything
    else in the process as it was. *)
Theorem connect_establishes w :
  allocs 4 w →
  (∀ addr port, calls (tcp_calls addr) w →
    ∃ l w', emq_tcp_connect addr port w = Returns (Some l) w' ∧ connected (tcp_calls addr) w l w') ∧
  (calls 3 w → ∀ path, ∃ l w', emq_unix_connect path w = Returns (Some l) w' ∧
    connected 3 w l w').
Proof.
  intros Ha. split.
  - intros addr port Hs. assert (wp False (emq_tcp_connect addr port)
      (λ y w', ∃ l, y = Some l ∧ connected (tcp_calls addr) w l w') w)
      as Hw by (apply wp_tcp_connect; eauto).
    apply wp_returns in Hw as (y & w' & Hw & l & -> & Hc). eauto.
  - intros Hs path.
    assert (wp False (emq_unix_connect path) (λ y w', ∃ l, y = Some l ∧ connected 3 w l w') w)
      as Hw by (apply wp_unix_connect; eauto).
    apply wp_returns in Hw as (y & w' & Hw & l & -> & Hc). eauto.
Qed.

(** A process that owns nothing, whose next socket is [sk]. *)
Definition idle_world (ms : list bool) (sys : list (option string)) (sk : sock) : world :=
  mk_world ∅ ms ∅ sys [sk].

Lemma connect_establishes_witness :
  let w := idle_world [] [] (mk_sock [RdData [Byte.x01]] [] []) in
  (∀ addr port, calls (tcp_calls addr) w →
    ∃ l w', emq_tcp_connect addr port w = Returns (Some l) w' ∧ connected (tcp_calls addr) w l w') ∧
  (calls 3 w → ∀ path, ∃ l w', emq_unix_connect path w = Returns (Some l) w' ∧
    connected 3 w l w').
Proof. intros w. exact (connect_establishes w (Forall_nil_2 _)). Defined.

(** C11: once the four blocks of a client are allocated, [emq_tcp_connect] always returns, whatever
    becomes of the calls of the system, of the resolution of the address and of [connect]: a client
    that represents a session beside an unchanged process, or [NULL] with every block freed and no
    socket left - but for one case, a defect of the code: when the option [SO_REUSEADDR] of the new
    socket cannot be set, the socket stays open. *)
Theorem connect_total addr port w :
  allocs 4 w →
  ∃ y w', emq_tcp_connect addr port w = Returns y w' ∧
    match y with
    | Some l => ∃ s f, rep l s f w' ∧ fr_heap f = w_heap w ∧ fr_socks f = w_socks w ∧
        ss_status s = EMQ_STATUS_OK
    | None => w_heap w' = w_heap w ∧
        (w_socks w' = w_socks w ∨ option_refused w ∧
           w_socks w' = <[fresh_fd (w_socks w) := next_sock w]> (w_socks w))
    end.
Proof.
  intros Ha. apply wp_returns. apply wp_tcp_connect_total; [done| |done]. eauto 10.
Qed.

(** The name cannot be resolved; and the option is refused. *)
Definition refused (out : outcome ptr) : Prop :=
  match out with Returns None _ => true | _ => false end = true.

Lemma connect_total_witness :
  let w sys := idle_world [] sys (mk_sock [] [] []) in
  let w1 := w [None; None; Some "unknown"]%string in
  let w2 := w [None; Some "no option"]%string in
  (∃ w', emq_tcp_connect "nowhere" 7851 w1 = Returns NULL w' ∧ w_heap w' = ∅ ∧
    (w_socks w' = ∅ ∨ option_refused w1 ∧ w_socks w' = <[fresh_fd ∅ := next_sock w1]> ∅)) ∧
  ∃ w', emq_tcp_connect "127.0.0.1" 7851 w2 = Returns NULL w' ∧ w_heap w' = ∅ ∧
    (w_socks w' = ∅ ∨ option_refused w2 ∧ w_socks w' = <[fresh_fd ∅ := next_sock w2]> ∅).
Proof.
  intros w w1 w2. split.
  - destruct (connect_total "nowhere" 7851 w1 (Forall_nil_2 _)) as (y & w' & Hw & Hy).
    assert (refused (emq_tcp_connect "nowhere" 7851 w1)) as Hy' by (vm_compute; reflexivity).
    rewrite Hw in Hy'. destruct y; [discriminate Hy'|]. exists w'. split; [exact Hw|exact Hy].
  - destruct (connect_total "127.0.0.1" 7851 w2 (Forall_nil_2 _)) as (y & w' & Hw & Hy).
    assert (refused (emq_tcp_connect "127.0.0.1" 7851 w2)) as Hy' by (vm_compute; reflexivity).
    rewrite Hw in Hy'. destruct y; [discriminate Hy'|]. exists w'. split; [exact Hw|exact Hy].
Defined.

(** C12: [emq_disconnect] closes the socket and frees every block of the
    client, its buffer, both lists, their nodes and their subscriptions, each exactly once, and
    touches nothing else: exactly the frame is left. *)
Theorem disconnect_releases l s f w :
  rep l s f w → ∃ w', emq_disconnect (Some l) w = Returns tt w' ∧ is_frame f w'.
Proof. intros Hr. exists (world_of f (ss_mallocs s)). split; [by apply disconnect_returns|done]. Qed.

Lemma disconnect_releases_witness :
  ∃ w', emq_disconnect (Some 1%positive)
      (mk_world (<[1%positive := inject (set_client_fd 3 (initial_client 2%positive 3%positive 4%positive))]>
        (<[2%positive := inject (uninit EMQ_DEFAULT_REQUEST_SIZE)]>
        (<[3%positive := inject (empty_list emq_queue_subscription_list_free_handler)]>
        (<[4%positive := inject (empty_list emq_channel_subscription_list_free_handler)]> ∅))))
        [] {[3 := mk_sock [] [] []]} [] []) = Returns tt w' ∧
    is_frame (mk_frame ∅ ∅ [] []) w'.
Proof.
  refine (disconnect_releases 1%positive (new_session (mk_sock [] [] []) []) (mk_frame ∅ ∅ [] []) _ _).
  refine (rep_new (mk_world ∅ [] ∅ [] []) 1%positive 2%positive 3%positive 4%positive 3
    (mk_sock [] [] []) _ _ _ (mk_world _ [] {[3 := mk_sock [] [] []]} [] [])
    (uninit EMQ_DEFAULT_REQUEST_SIZE) eq_refl eq_refl eq_refl); [|by repeat constructor|done].
  apply (bool_decide_unpack _). by vm_compute.
Defined.

(** ** Out of memory *)

(** A step that returns, before a computation that is undefined. *)
Lemma faults_bind {A B} (m : M A) (k : A → M B) e w :
  wp False m (λ a w', k a w' = Faults e) w → (m ≫= k) w = Faults e.
Proof.
  intros (a & w' & Hm & Hk)%wp_returns. unfold mbind, M_bind. by rewrite Hm.
Qed.

Lemma faults_bind_here {A B} (m : M A) (k : A → M B) e w :
  m w = Faults e → (m ≫= k) w = Faults e.
Proof. intros Hm. unfold mbind, M_bind. by rewrite Hm. Qed.

Lemma load_dangling {T} `{Storable T} l w :
  w_heap w !! l = None → load (T := T) (Some l) w = Faults DanglingPointer.
Proof. intros Hl. unfold load. by rewrite Hl. Qed.

Lemma wp_malloc_null {T} `{Storable T} blk (x : T) (Q : ptr → world → Prop) w ms :
  w_mallocs w = false :: ms → Q NULL (set_mallocs ms w) → wp blk (malloc x) Q w.
Proof. intros Hms HQ. unfold wp, malloc. by rewrite Hms. Qed.

(** Executes the operations in front of an undefined computation. *)
Ltac fault_step := apply faults_bind; wp_exec.

(** The allocation of the client and of its buffer succeed, that of a list does not. *)
Definition list_allocation_fails (w : world) : Prop :=
  ∃ ms, w_mallocs w = true :: true :: false :: ms ∨
        w_mallocs w = true :: true :: true :: false :: ms.

(** C31: when the allocation of a subscription list fails,
    [emq_client_init] frees the client and goes on to use it. *)
Theorem client_init_use_after_free w :
  list_allocation_fails w → emq_client_init w = Faults DanglingPointer.
Proof.
  intros [ms Hms]. unfold emq_client_init, EMQ_CLEAR_ERROR, EMQ_SET_STATUS, emq_list_init.
  apply faults_bind, wp_malloc_ok; [by destruct Hms as [->| ->]|]. intros l Hl.
  do 2 fault_step. apply faults_bind, wp_malloc_ok.
  { simpl. by destruct Hms as [->| ->]. }
  world_simpl. intros r Hr. new_block Hr. do 5 fault_step.
  destruct Hms as [Hms|Hms].
  - apply faults_bind. eapply wp_malloc_null; [simpl; by rewrite Hms|]. world_simpl.
    fault_step. apply faults_bind, wp_malloc; [intros ? _|intros c _ Hc]; world_simpl.
    2: simpl in Hc; new_block Hc.
    all: do 3 fault_step; apply faults_bind_here, load_dangling; simpl; by rewrite lookup_delete_eq.
  - apply faults_bind, wp_malloc_ok; [simpl; by rewrite Hms|]. world_simpl.
    intros q Hq. new_block Hq. fault_step. apply faults_bind.
    eapply wp_malloc_null; [simpl; by rewrite Hms|]. world_simpl. do 5 fault_step.
    unfold emq_list_release. wp_exec. apply faults_bind_here, load_dangling. simpl.
    by rewrite lookup_delete_eq.
Qed.

Lemma client_init_use_after_free_witness :
  emq_tcp_connect "localhost" 7851 (idle_world [true; true; false] [] (mk_sock [] [] [])) =
    Faults DanglingPointer ∧
  emq_client_init (idle_world [true; true; false] [] (mk_sock [] [] [])) = Faults DanglingPointer.
Proof.
  split; [vm_compute; reflexivity|].
  apply (client_init_use_after_free (idle_world [true; true; false] [] (mk_sock [] [] []))).
  exists []. by left.
Defined.

(** A socket whose options cannot be set is reported as a failure, but stays open. *)
Theorem create_socket_leaks l (c : emq_client) w msg rest :
  points_to (w_heap w) l c → w_sys w = None :: Some msg :: rest →
  ∃ w', net_create_socket (Some l) w = Returns EMQ_NET_ERR w' ∧
    w_socks w' = <[fresh_fd (w_socks w) := next_sock w]> (w_socks w).
Proof.
  intros Hl Hsys.
  assert (wp False (net_create_socket (Some l)) (λ y w', y = EMQ_NET_ERR ∧
    w_socks w' = <[fresh_fd (w_socks w) := next_sock w]> (w_socks w)) w) as Hw.
  { apply wp_bind, wp_sys_call_ok; [by rewrite Hsys|]. apply wp_bind. unfold wp at 1, new_socket.
    simpl. apply wp_bind. unfold wp at 1, sys_call. simpl. rewrite Hsys. simpl.
    apply wp_bind. eapply wp_modify; [exact Hl|]. by apply wp_ret. }
  apply wp_returns in Hw as (y & w' & Hw & -> & Hs). eauto.
Qed.
