(* ===== verification/Sample.v ===== *)
(** Small concrete states: a connected client at the location 1, for the executions that show
    the hypotheses of the theorems to be satisfiable. *)

From S2P Require Import Prelude Types Machine Lists Network Client Session Connection.

(** The client with its buffer and its empty lists, beside the blocks of [h]; the peer sends [rx]
    and the next writes are [wr]. *)
Definition sample_heap (h : heap) : heap :=
  <[1%positive := inject (set_client_fd 3 (initial_client 2%positive 3%positive 4%positive))]>
    (<[2%positive := inject (uninit EMQ_DEFAULT_REQUEST_SIZE)]>
      (<[3%positive := inject (empty_list emq_queue_subscription_list_free_handler)]>
        (<[4%positive := inject (empty_list emq_channel_subscription_list_free_handler)]> h))).

Definition sample_sock (rx : list byte) (wr : list wr_event) : sock :=
  mk_sock [RdData rx] wr [].

Definition sample (h : heap) (rx : list byte) (wr : list wr_event) (ms : list bool) : world :=
  mk_world (sample_heap h) ms {[3 := sample_sock rx wr]} [] [].

Definition sample_session (rx : list byte) (wr : list wr_event) (ms : list bool) : session :=
  new_session (sample_sock rx wr) ms.

Definition sample_frame (h : heap) : frame := mk_frame h ∅ [] [].

Lemma sample_sock_rep h sk ms :
  Forall (λ k, h !! k = None) [1; 2; 3; 4]%positive →
  rep 1%positive (new_session sk ms) (sample_frame h)
    (mk_world (sample_heap h) ms {[3 := sk]} [] []).
Proof.
  intros Hh.
  refine (rep_new (mk_world h ms ∅ [] []) 1%positive 2%positive 3%positive 4%positive 3 sk _ Hh _
    (mk_world (sample_heap h) ms {[3 := sk]} [] []) (uninit EMQ_DEFAULT_REQUEST_SIZE) _ _ _); try done.
  apply (bool_decide_unpack _). by vm_compute.
Qed.

Lemma sample_rep h rx wr ms :
  Forall (λ k, h !! k = None) [1; 2; 3; 4]%positive →
  rep 1%positive (sample_session rx wr ms) (sample_frame h) (sample h rx wr ms).
Proof. apply sample_sock_rep. Qed.

(** The same client without acknowledgements. *)
Definition sample_noack_session (rx : list byte) (wr : list wr_event) : session :=
  set_ss_noack 1 (sample_session rx wr []).
Definition sample_noack (rx : list byte) (wr : list wr_event) : world :=
  set_heap (<[1%positive := inject (set_client_noack 1 (set_client_fd 3
    (initial_client 2%positive 3%positive 4%positive)))]> (sample_heap ∅)) (sample ∅ rx wr []).

Lemma sample_noack_rep rx wr :
  rep 1%positive (sample_noack_session rx wr) (sample_frame ∅) (sample_noack rx wr).
Proof.
  destruct (sample_rep ∅ rx wr []) as [g Hg]; [by repeat constructor|].
  assert (lo_client g = set_client_fd 3 (initial_client 2%positive 3%positive 4%positive)) as Hc.
  { by eapply (points_to_agree (sample_heap ∅) 1%positive); [apply Hg|]. }
  pose proof (rep_set_client _ _ _ _ _ (set_client_noack 1 (lo_client g)) Hg) as Hr.
  rewrite Hc in Hr. by apply Hr.
Qed.
