(* ===== verification/Packet.v ===== *)
(** [src/src/packet.c]: the checks of the headers that arrive and the construction of the
    requests in the buffer of the client, against a reference encoder of the protocol. *)

From S2P Require Import Prelude Types Machine Lists Network Protocol Client Session Connection.
From S2P Require Import Sample.

(** ** Checks *)

Definition emq_check_response_header (header : protocol_response_header) (cmd bodylen : Z) : Z :=
  if decide (res_magic header ≠ EMQ_PROTOCOL_RES ∨ res_cmd header ≠ cmd ∨
             res_bodylen header ≠ bodylen)
  then EMQ_STATUS_ERR else EMQ_STATUS_OK.

Definition emq_check_response_header_mini (header : protocol_response_header) (cmd : Z) : Z :=
  if decide (res_magic header ≠ EMQ_PROTOCOL_RES ∨ res_cmd header ≠ cmd)
  then EMQ_STATUS_ERR else EMQ_STATUS_OK.

Definition emq_check_event_header (header : protocol_event_header) (type1 type2 : Z) : Z :=
  if decide (event_magic header ≠ EMQ_PROTOCOL_EVENT ∨
             (event_type header ≠ type1 ∧ event_type header ≠ type2))
  then EMQ_STATUS_ERR else EMQ_STATUS_OK.

Definition emq_check_status (header : protocol_response_header) (status : Z) : Z :=
  if decide (res_status header = status) then EMQ_STATUS_OK else EMQ_STATUS_ERR.

Definition emq_get_error (header : protocol_response_header) : Z :=
  let status := res_status header in
  if decide (status = EMQ_PROTOCOL_STATUS_ERROR_PACKET) then EMQ_ERROR_PACKET else
  if decide (status = EMQ_PROTOCOL_STATUS_ERROR_COMMAND) then EMQ_ERROR_COMMAND else
  if decide (status = EMQ_PROTOCOL_STATUS_ERROR_ACCESS) then EMQ_ERROR_ACCESS else
  if decide (status = EMQ_PROTOCOL_STATUS_ERROR_MEMORY) then EMQ_ERROR_MEMORY else
  if decide (status = EMQ_PROTOCOL_STATUS_ERROR_NOT_DECLARED) then EMQ_ERROR_NOT_DECLARED else
  if decide (status = EMQ_PROTOCOL_STATUS_ERROR_NOT_FOUND) then EMQ_ERROR_NOT_FOUND else
  if decide (status = EMQ_PROTOCOL_STATUS_ERROR_NO_DATA) then EMQ_ERROR_NO_DATA else
  EMQ_ERROR_NONE.

(** ** The request buffer *)

Definition emq_set_header_request (cmd noack bodylen : Z) : protocol_request_header :=
  mk_request_header EMQ_PROTOCOL_REQ (u8 cmd) (u8 noack) (u32 bodylen).

Definition emq_set_client_request (client : ptr) (request : list byte) : M unit :=
  c ← load client;
  memcpy_to (client_request c) request;;
  modify client (set_client_pos (Z.of_nat (length request))).

Definition emq_check_realloc_client_request (client : ptr) (size : Z) : M Z :=
  c ← load client;
  if decide (client_size c < size) then
    if decide (EMQ_MAX_REQUEST_SIZE < size) then mret EMQ_STATUS_ERR else
    request ← realloc (client_request c) size;
    modify client (set_client_request request);;
    modify client (set_client_size size);;
    match request with
    | None => mret EMQ_STATUS_ERR
    | Some _ => mret EMQ_STATUS_OK
    end
  else mret EMQ_STATUS_OK.

(** What every request function does once the lengths of its strings are checked: the structure
    [{header; body}] is zeroed, its header is set for a body of [sizeof(req.body) + msg_size]
    bytes, the fields of the body are stored, and the structure is copied into the buffer. *)
Definition build_request (client : ptr) (cmd : Z) (body : layout) (fields : list value)
    (msg_size : Z) : M Z :=
  noack ← noack_of client;
  let header := emq_set_header_request cmd noack (Z.of_nat (sizeof body) + msg_size) in
  match struct_bytes body fields with
  | None => undefined OutOfBounds
  | Some bytes =>
      let req := request_header_bytes header ++ bytes in
      r ← emq_check_realloc_client_request client (Z.of_nat (length req));
      if decide (r = EMQ_STATUS_ERR) then mret EMQ_STATUS_ERR else
      emq_set_client_request client req;;
      mret EMQ_STATUS_OK
  end.

(** ** Requests *)

Definition emq_auth_request (client : ptr) (name password : cstring) : M Z :=
  if decide (32 < strlenz name ∨ 32 < strlenz password) then mret EMQ_STATUS_ERR else
  build_request client EMQ_PROTOCOL_CMD_AUTH protocol_request_auth
    [VStr name; VStr password] 0.

Definition emq_ping_request (client : ptr) : M Z :=
  build_request client EMQ_PROTOCOL_CMD_PING protocol_request_ping
    [] 0.

Definition emq_stat_request (client : ptr) : M Z :=
  build_request client EMQ_PROTOCOL_CMD_STAT protocol_request_stat
    [] 0.

Definition emq_save_request (client : ptr) (async : Z) : M Z :=
  build_request client EMQ_PROTOCOL_CMD_SAVE protocol_request_save
    [VInt async] 0.

Definition emq_flush_request (client : ptr) (flags : Z) : M Z :=
  build_request client EMQ_PROTOCOL_CMD_FLUSH protocol_request_flush
    [VInt flags] 0.

Definition emq_user_create_request (client : ptr) (name password : cstring) (perm : Z) : M Z :=
  if decide (32 < strlenz name ∨ 32 < strlenz password) then mret EMQ_STATUS_ERR else
  build_request client EMQ_PROTOCOL_CMD_USER_CREATE protocol_request_user_create
    [VStr name; VStr password; VInt perm] 0.

Definition emq_user_list_request (client : ptr) : M Z :=
  build_request client EMQ_PROTOCOL_CMD_USER_LIST protocol_request_user_list
    [] 0.

Definition emq_user_rename_request (client : ptr) (from to : cstring) : M Z :=
  if decide (32 < strlenz from ∨ 32 < strlenz to) then mret EMQ_STATUS_ERR else
  build_request client EMQ_PROTOCOL_CMD_USER_RENAME protocol_request_user_rename
    [VStr from; VStr to] 0.

Definition emq_user_set_perm_request (client : ptr) (name : cstring) (perm : Z) : M Z :=
  if decide (32 < strlenz name) then mret EMQ_STATUS_ERR else
  build_request client EMQ_PROTOCOL_CMD_USER_SET_PERM protocol_request_user_set_perm
    [VStr name; VInt perm] 0.

Definition emq_user_delete_request (client : ptr) (name : cstring) : M Z :=
  if decide (32 < strlenz name) then mret EMQ_STATUS_ERR else
  build_request client EMQ_PROTOCOL_CMD_USER_DELETE protocol_request_user_delete
    [VStr name] 0.

Definition emq_queue_create_request (client : ptr) (name : cstring) (max_msg max_msg_size flags : Z) : M Z :=
  if decide (64 < strlenz name) then mret EMQ_STATUS_ERR else
  build_request client EMQ_PROTOCOL_CMD_QUEUE_CREATE protocol_request_queue_create
    [VStr name; VInt max_msg; VInt max_msg_size; VInt flags] 0.

Definition emq_queue_declare_request (client : ptr) (name : cstring) : M Z :=
  if decide (64 < strlenz name) then mret EMQ_STATUS_ERR else
  build_request client EMQ_PROTOCOL_CMD_QUEUE_DECLARE protocol_request_queue_declare
    [VStr name] 0.

Definition emq_queue_exist_request (client : ptr) (name : cstring) : M Z :=
  if decide (64 < strlenz name) then mret EMQ_STATUS_ERR else
  build_request client EMQ_PROTOCOL_CMD_QUEUE_EXIST protocol_request_queue_exist
    [VStr name] 0.

Definition emq_queue_list_request (client : ptr) : M Z :=
  build_request client EMQ_PROTOCOL_CMD_QUEUE_LIST protocol_request_queue_list
    [] 0.

Definition emq_queue_rename_request (client : ptr) (from to : cstring) : M Z :=
  if decide (64 < strlenz from ∨ 64 < strlenz to) then mret EMQ_STATUS_ERR else
  build_request client EMQ_PROTOCOL_CMD_QUEUE_RENAME protocol_request_queue_rename
    [VStr from; VStr to] 0.

Definition emq_queue_size_request (client : ptr) (name : cstring) : M Z :=
  if decide (64 < strlenz name) then mret EMQ_STATUS_ERR else
  build_request client EMQ_PROTOCOL_CMD_QUEUE_SIZE protocol_request_queue_size
    [VStr name] 0.

Definition emq_queue_push_request (client : ptr) (name : cstring) (msg_size : Z) : M Z :=
  if decide (64 < strlenz name) then mret EMQ_STATUS_ERR else
  build_request client EMQ_PROTOCOL_CMD_QUEUE_PUSH protocol_request_queue_push
    [VStr name] (u32 msg_size).

Definition emq_queue_get_request (client : ptr) (name : cstring) : M Z :=
  if decide (64 < strlenz name) then mret EMQ_STATUS_ERR else
  build_request client EMQ_PROTOCOL_CMD_QUEUE_GET protocol_request_queue_get
    [VStr name] 0.

Definition emq_queue_pop_request (client : ptr) (name : cstring) (timeout : Z) : M Z :=
  if decide (64 < strlenz name) then mret EMQ_STATUS_ERR else
  build_request client EMQ_PROTOCOL_CMD_QUEUE_POP protocol_request_queue_pop
    [VStr name; VInt timeout] 0.

Definition emq_queue_confirm_request (client : ptr) (name : cstring) (tag : Z) : M Z :=
  if decide (64 < strlenz name) then mret EMQ_STATUS_ERR else
  build_request client EMQ_PROTOCOL_CMD_QUEUE_CONFIRM protocol_request_queue_confirm
    [VStr name; VInt tag] 0.

Definition emq_queue_subscribe_request (client : ptr) (name : cstring) (flags : Z) : M Z :=
  if decide (64 < strlenz name) then mret EMQ_STATUS_ERR else
  build_request client EMQ_PROTOCOL_CMD_QUEUE_SUBSCRIBE protocol_request_queue_subscribe
    [VStr name; VInt flags] 0.

Definition emq_queue_unsubscribe_request (client : ptr) (name : cstring) : M Z :=
  if decide (64 < strlenz name) then mret EMQ_STATUS_ERR else
  build_request client EMQ_PROTOCOL_CMD_QUEUE_UNSUBSCRIBE protocol_request_queue_unsubscribe
    [VStr name] 0.

Definition emq_queue_purge_request (client : ptr) (name : cstring) : M Z :=
  if decide (64 < strlenz name) then mret EMQ_STATUS_ERR else
  build_request client EMQ_PROTOCOL_CMD_QUEUE_PURGE protocol_request_queue_purge
    [VStr name] 0.

Definition emq_queue_delete_request (client : ptr) (name : cstring) : M Z :=
  if decide (64 < strlenz name) then mret EMQ_STATUS_ERR else
  build_request client EMQ_PROTOCOL_CMD_QUEUE_DELETE protocol_request_queue_delete
    [VStr name] 0.

Definition emq_route_create_request (client : ptr) (name : cstring) (flags : Z) : M Z :=
  if decide (64 < strlenz name) then mret EMQ_STATUS_ERR else
  build_request client EMQ_PROTOCOL_CMD_ROUTE_CREATE protocol_request_route_create
    [VStr name; VInt flags] 0.

Definition emq_route_exist_request (client : ptr) (name : cstring) : M Z :=
  if decide (64 < strlenz name) then mret EMQ_STATUS_ERR else
  build_request client EMQ_PROTOCOL_CMD_ROUTE_EXIST protocol_request_route_exist
    [VStr name] 0.

Definition emq_route_list_request (client : ptr) : M Z :=
  build_request client EMQ_PROTOCOL_CMD_ROUTE_LIST protocol_request_route_list
    [] 0.

Definition emq_route_keys_request (client : ptr) (name : cstring) : M Z :=
  if decide (64 < strlenz name) then mret EMQ_STATUS_ERR else
  build_request client EMQ_PROTOCOL_CMD_ROUTE_KEYS protocol_request_route_keys
    [VStr name] 0.

Definition emq_route_rename_request (client : ptr) (from to : cstring) : M Z :=
  if decide (64 < strlenz from ∨ 64 < strlenz to) then mret EMQ_STATUS_ERR else
  build_request client EMQ_PROTOCOL_CMD_ROUTE_RENAME protocol_request_route_rename
    [VStr from; VStr to] 0.

Definition emq_route_bind_request (client : ptr) (name queue key : cstring) : M Z :=
  if decide (64 < strlenz name ∨ 64 < strlenz queue ∨ 32 < strlenz key) then mret EMQ_STATUS_ERR else
  build_request client EMQ_PROTOCOL_CMD_ROUTE_BIND protocol_request_route_bind
    [VStr name; VStr queue; VStr key] 0.

Definition emq_route_unbind_request (client : ptr) (name queue key : cstring) : M Z :=
  if decide (64 < strlenz name ∨ 64 < strlenz queue ∨ 32 < strlenz key) then mret EMQ_STATUS_ERR else
  build_request client EMQ_PROTOCOL_CMD_ROUTE_UNBIND protocol_request_route_unbind
    [VStr name; VStr queue; VStr key] 0.

Definition emq_route_push_request (client : ptr) (name key : cstring) (msg_size : Z) : M Z :=
  if decide (64 < strlenz name ∨ 32 < strlenz key) then mret EMQ_STATUS_ERR else
  build_request client EMQ_PROTOCOL_CMD_ROUTE_PUSH protocol_request_route_push
    [VStr name; VStr key] (u32 msg_size).

Definition emq_route_delete_request (client : ptr) (name : cstring) : M Z :=
  if decide (64 < strlenz name) then mret EMQ_STATUS_ERR else
  build_request client EMQ_PROTOCOL_CMD_ROUTE_DELETE protocol_request_route_delete
    [VStr name] 0.

Definition emq_channel_create_request (client : ptr) (name : cstring) (flags : Z) : M Z :=
  if decide (64 < strlenz name) then mret EMQ_STATUS_ERR else
  build_request client EMQ_PROTOCOL_CMD_CHANNEL_CREATE protocol_request_channel_create
    [VStr name; VInt flags] 0.

Definition emq_channel_exist_request (client : ptr) (name : cstring) : M Z :=
  if decide (64 < strlenz name) then mret EMQ_STATUS_ERR else
  build_request client EMQ_PROTOCOL_CMD_CHANNEL_EXIST protocol_request_channel_exist
    [VStr name] 0.

Definition emq_channel_list_request (client : ptr) : M Z :=
  build_request client EMQ_PROTOCOL_CMD_CHANNEL_LIST protocol_request_channel_list
    [] 0.

Definition emq_channel_rename_request (client : ptr) (from to : cstring) : M Z :=
  if decide (64 < strlenz from ∨ 64 < strlenz to) then mret EMQ_STATUS_ERR else
  build_request client EMQ_PROTOCOL_CMD_CHANNEL_RENAME protocol_request_channel_rename
    [VStr from; VStr to] 0.

Definition emq_channel_publish_request (client : ptr) (name topic : cstring) (msg_size : Z) : M Z :=
  if decide (64 < strlenz name ∨ 32 < strlenz topic) then mret EMQ_STATUS_ERR else
  build_request client EMQ_PROTOCOL_CMD_CHANNEL_PUBLISH protocol_request_channel_publish
    [VStr name; VStr topic] (u32 msg_size).

Definition emq_channel_subscribe_request (client : ptr) (name topic : cstring) : M Z :=
  if decide (64 < strlenz name ∨ 32 < strlenz topic) then mret EMQ_STATUS_ERR else
  build_request client EMQ_PROTOCOL_CMD_CHANNEL_SUBSCRIBE protocol_request_channel_subscribe
    [VStr name; VStr topic] 0.

Definition emq_channel_psubscribe_request (client : ptr) (name pattern : cstring) : M Z :=
  if decide (64 < strlenz name ∨ 32 < strlenz pattern) then mret EMQ_STATUS_ERR else
  build_request client EMQ_PROTOCOL_CMD_CHANNEL_PSUBSCRIBE protocol_request_channel_psubscribe
    [VStr name; VStr pattern] 0.

Definition emq_channel_unsubscribe_request (client : ptr) (name topic : cstring) : M Z :=
  if decide (64 < strlenz name ∨ 32 < strlenz topic) then mret EMQ_STATUS_ERR else
  build_request client EMQ_PROTOCOL_CMD_CHANNEL_UNSUBSCRIBE protocol_request_channel_unsubscribe
    [VStr name; VStr topic] 0.

Definition emq_channel_punsubscribe_request (client : ptr) (name pattern : cstring) : M Z :=
  if decide (64 < strlenz name ∨ 32 < strlenz pattern) then mret EMQ_STATUS_ERR else
  build_request client EMQ_PROTOCOL_CMD_CHANNEL_PUNSUBSCRIBE protocol_request_channel_punsubscribe
    [VStr name; VStr pattern] 0.

Definition emq_channel_delete_request (client : ptr) (name : cstring) : M Z :=
  if decide (64 < strlenz name) then mret EMQ_STATUS_ERR else
  build_request client EMQ_PROTOCOL_CMD_CHANNEL_DELETE protocol_request_channel_delete
    [VStr name] 0.
(** ** Reference encoder *)

(** The requests of the protocol. *)
Inductive api_call :=
  | Auth (name password : cstring)
  | Ping
  | Stat
  | Save (async : Z)
  | Flush (flags : Z)
  | UserCreate (name password : cstring) (perm : Z)
  | UserList
  | UserRename (from to : cstring)
  | UserSetPerm (name : cstring) (perm : Z)
  | UserDelete (name : cstring)
  | QueueCreate (name : cstring) (max_msg max_msg_size flags : Z)
  | QueueDeclare (name : cstring)
  | QueueExist (name : cstring)
  | QueueList
  | QueueRename (from to : cstring)
  | QueueSize (name : cstring)
  | QueuePush (name : cstring) (msg_size : Z)
  | QueueGet (name : cstring)
  | QueuePop (name : cstring) (timeout : Z)
  | QueueConfirm (name : cstring) (tag : Z)
  | QueueSubscribe (name : cstring) (flags : Z)
  | QueueUnsubscribe (name : cstring)
  | QueuePurge (name : cstring)
  | QueueDelete (name : cstring)
  | RouteCreate (name : cstring) (flags : Z)
  | RouteExist (name : cstring)
  | RouteList
  | RouteKeys (name : cstring)
  | RouteRename (from to : cstring)
  | RouteBind (name queue key : cstring)
  | RouteUnbind (name queue key : cstring)
  | RoutePush (name key : cstring) (msg_size : Z)
  | RouteDelete (name : cstring)
  | ChannelCreate (name : cstring) (flags : Z)
  | ChannelExist (name : cstring)
  | ChannelList
  | ChannelRename (from to : cstring)
  | ChannelPublish (name topic : cstring) (msg_size : Z)
  | ChannelSubscribe (name topic : cstring)
  | ChannelPsubscribe (name pattern : cstring)
  | ChannelUnsubscribe (name topic : cstring)
  | ChannelPunsubscribe (name pattern : cstring)
  | ChannelDelete (name : cstring).

(** The function that builds the request of a call. *)
Definition request_of (call : api_call) (client : ptr) : M Z :=
  match call with
  | Auth name password => emq_auth_request client name password
  | Ping => emq_ping_request client
  | Stat => emq_stat_request client
  | Save async => emq_save_request client async
  | Flush flags => emq_flush_request client flags
  | UserCreate name password perm => emq_user_create_request client name password perm
  | UserList => emq_user_list_request client
  | UserRename from to => emq_user_rename_request client from to
  | UserSetPerm name perm => emq_user_set_perm_request client name perm
  | UserDelete name => emq_user_delete_request client name
  | QueueCreate name max_msg max_msg_size flags => emq_queue_create_request client name max_msg max_msg_size flags
  | QueueDeclare name => emq_queue_declare_request client name
  | QueueExist name => emq_queue_exist_request client name
  | QueueList => emq_queue_list_request client
  | QueueRename from to => emq_queue_rename_request client from to
  | QueueSize name => emq_queue_size_request client name
  | QueuePush name msg_size => emq_queue_push_request client name msg_size
  | QueueGet name => emq_queue_get_request client name
  | QueuePop name timeout => emq_queue_pop_request client name timeout
  | QueueConfirm name tag => emq_queue_confirm_request client name tag
  | QueueSubscribe name flags => emq_queue_subscribe_request client name flags
  | QueueUnsubscribe name => emq_queue_unsubscribe_request client name
  | QueuePurge name => emq_queue_purge_request client name
  | QueueDelete name => emq_queue_delete_request client name
  | RouteCreate name flags => emq_route_create_request client name flags
  | RouteExist name => emq_route_exist_request client name
  | RouteList => emq_route_list_request client
  | RouteKeys name => emq_route_keys_request client name
  | RouteRename from to => emq_route_rename_request client from to
  | RouteBind name queue key => emq_route_bind_request client name queue key
  | RouteUnbind name queue key => emq_route_unbind_request client name queue key
  | RoutePush name key msg_size => emq_route_push_request client name key msg_size
  | RouteDelete name => emq_route_delete_request client name
  | ChannelCreate name flags => emq_channel_create_request client name flags
  | ChannelExist name => emq_channel_exist_request client name
  | ChannelList => emq_channel_list_request client
  | ChannelRename from to => emq_channel_rename_request client from to
  | ChannelPublish name topic msg_size => emq_channel_publish_request client name topic msg_size
  | ChannelSubscribe name topic => emq_channel_subscribe_request client name topic
  | ChannelPsubscribe name pattern => emq_channel_psubscribe_request client name pattern
  | ChannelUnsubscribe name topic => emq_channel_unsubscribe_request client name topic
  | ChannelPunsubscribe name pattern => emq_channel_punsubscribe_request client name pattern
  | ChannelDelete name => emq_channel_delete_request client name
  end.

Definition call_code (call : api_call) : Z :=
  match call with
  | Auth _ _ => EMQ_PROTOCOL_CMD_AUTH
  | Ping => EMQ_PROTOCOL_CMD_PING
  | Stat => EMQ_PROTOCOL_CMD_STAT
  | Save _ => EMQ_PROTOCOL_CMD_SAVE
  | Flush _ => EMQ_PROTOCOL_CMD_FLUSH
  | UserCreate _ _ _ => EMQ_PROTOCOL_CMD_USER_CREATE
  | UserList => EMQ_PROTOCOL_CMD_USER_LIST
  | UserRename _ _ => EMQ_PROTOCOL_CMD_USER_RENAME
  | UserSetPerm _ _ => EMQ_PROTOCOL_CMD_USER_SET_PERM
  | UserDelete _ => EMQ_PROTOCOL_CMD_USER_DELETE
  | QueueCreate _ _ _ _ => EMQ_PROTOCOL_CMD_QUEUE_CREATE
  | QueueDeclare _ => EMQ_PROTOCOL_CMD_QUEUE_DECLARE
  | QueueExist _ => EMQ_PROTOCOL_CMD_QUEUE_EXIST
  | QueueList => EMQ_PROTOCOL_CMD_QUEUE_LIST
  | QueueRename _ _ => EMQ_PROTOCOL_CMD_QUEUE_RENAME
  | QueueSize _ => EMQ_PROTOCOL_CMD_QUEUE_SIZE
  | QueuePush _ _ => EMQ_PROTOCOL_CMD_QUEUE_PUSH
  | QueueGet _ => EMQ_PROTOCOL_CMD_QUEUE_GET
  | QueuePop _ _ => EMQ_PROTOCOL_CMD_QUEUE_POP
  | QueueConfirm _ _ => EMQ_PROTOCOL_CMD_QUEUE_CONFIRM
  | QueueSubscribe _ _ => EMQ_PROTOCOL_CMD_QUEUE_SUBSCRIBE
  | QueueUnsubscribe _ => EMQ_PROTOCOL_CMD_QUEUE_UNSUBSCRIBE
  | QueuePurge _ => EMQ_PROTOCOL_CMD_QUEUE_PURGE
  | QueueDelete _ => EMQ_PROTOCOL_CMD_QUEUE_DELETE
  | RouteCreate _ _ => EMQ_PROTOCOL_CMD_ROUTE_CREATE
  | RouteExist _ => EMQ_PROTOCOL_CMD_ROUTE_EXIST
  | RouteList => EMQ_PROTOCOL_CMD_ROUTE_LIST
  | RouteKeys _ => EMQ_PROTOCOL_CMD_ROUTE_KEYS
  | RouteRename _ _ => EMQ_PROTOCOL_CMD_ROUTE_RENAME
  | RouteBind _ _ _ => EMQ_PROTOCOL_CMD_ROUTE_BIND
  | RouteUnbind _ _ _ => EMQ_PROTOCOL_CMD_ROUTE_UNBIND
  | RoutePush _ _ _ => EMQ_PROTOCOL_CMD_ROUTE_PUSH
  | RouteDelete _ => EMQ_PROTOCOL_CMD_ROUTE_DELETE
  | ChannelCreate _ _ => EMQ_PROTOCOL_CMD_CHANNEL_CREATE
  | ChannelExist _ => EMQ_PROTOCOL_CMD_CHANNEL_EXIST
  | ChannelList => EMQ_PROTOCOL_CMD_CHANNEL_LIST
  | ChannelRename _ _ => EMQ_PROTOCOL_CMD_CHANNEL_RENAME
  | ChannelPublish _ _ _ => EMQ_PROTOCOL_CMD_CHANNEL_PUBLISH
  | ChannelSubscribe _ _ => EMQ_PROTOCOL_CMD_CHANNEL_SUBSCRIBE
  | ChannelPsubscribe _ _ => EMQ_PROTOCOL_CMD_CHANNEL_PSUBSCRIBE
  | ChannelUnsubscribe _ _ => EMQ_PROTOCOL_CMD_CHANNEL_UNSUBSCRIBE
  | ChannelPunsubscribe _ _ => EMQ_PROTOCOL_CMD_CHANNEL_PUNSUBSCRIBE
  | ChannelDelete _ => EMQ_PROTOCOL_CMD_CHANNEL_DELETE
  end.

Definition call_layout (call : api_call) : layout :=
  match call with
  | Auth _ _ => protocol_request_auth
  | Ping => protocol_request_ping
  | Stat => protocol_request_stat
  | Save _ => protocol_request_save
  | Flush _ => protocol_request_flush
  | UserCreate _ _ _ => protocol_request_user_create
  | UserList => protocol_request_user_list
  | UserRename _ _ => protocol_request_user_rename
  | UserSetPerm _ _ => protocol_request_user_set_perm
  | UserDelete _ => protocol_request_user_delete
  | QueueCreate _ _ _ _ => protocol_request_queue_create
  | QueueDeclare _ => protocol_request_queue_declare
  | QueueExist _ => protocol_request_queue_exist
  | QueueList => protocol_request_queue_list
  | QueueRename _ _ => protocol_request_queue_rename
  | QueueSize _ => protocol_request_queue_size
  | QueuePush _ _ => protocol_request_queue_push
  | QueueGet _ => protocol_request_queue_get
  | QueuePop _ _ => protocol_request_queue_pop
  | QueueConfirm _ _ => protocol_request_queue_confirm
  | QueueSubscribe _ _ => protocol_request_queue_subscribe
  | QueueUnsubscribe _ => protocol_request_queue_unsubscribe
  | QueuePurge _ => protocol_request_queue_purge
  | QueueDelete _ => protocol_request_queue_delete
  | RouteCreate _ _ => protocol_request_route_create
  | RouteExist _ => protocol_request_route_exist
  | RouteList => protocol_request_route_list
  | RouteKeys _ => protocol_request_route_keys
  | RouteRename _ _ => protocol_request_route_rename
  | RouteBind _ _ _ => protocol_request_route_bind
  | RouteUnbind _ _ _ => protocol_request_route_unbind
  | RoutePush _ _ _ => protocol_request_route_push
  | RouteDelete _ => protocol_request_route_delete
  | ChannelCreate _ _ => protocol_request_channel_create
  | ChannelExist _ => protocol_request_channel_exist
  | ChannelList => protocol_request_channel_list
  | ChannelRename _ _ => protocol_request_channel_rename
  | ChannelPublish _ _ _ => protocol_request_channel_publish
  | ChannelSubscribe _ _ => protocol_request_channel_subscribe
  | ChannelPsubscribe _ _ => protocol_request_channel_psubscribe
  | ChannelUnsubscribe _ _ => protocol_request_channel_unsubscribe
  | ChannelPunsubscribe _ _ => protocol_request_channel_punsubscribe
  | ChannelDelete _ => protocol_request_channel_delete
  end.

Definition call_values (call : api_call) : list value :=
  match call with
  | Auth name password => [VStr name; VStr password]
  | Ping => []
  | Stat => []
  | Save async => [VInt async]
  | Flush flags => [VInt flags]
  | UserCreate name password perm => [VStr name; VStr password; VInt perm]
  | UserList => []
  | UserRename from to => [VStr from; VStr to]
  | UserSetPerm name perm => [VStr name; VInt perm]
  | UserDelete name => [VStr name]
  | QueueCreate name max_msg max_msg_size flags => [VStr name; VInt max_msg; VInt max_msg_size; VInt flags]
  | QueueDeclare name => [VStr name]
  | QueueExist name => [VStr name]
  | QueueList => []
  | QueueRename from to => [VStr from; VStr to]
  | QueueSize name => [VStr name]
  | QueuePush name _ => [VStr name]
  | QueueGet name => [VStr name]
  | QueuePop name timeout => [VStr name; VInt timeout]
  | QueueConfirm name tag => [VStr name; VInt tag]
  | QueueSubscribe name flags => [VStr name; VInt flags]
  | QueueUnsubscribe name => [VStr name]
  | QueuePurge name => [VStr name]
  | QueueDelete name => [VStr name]
  | RouteCreate name flags => [VStr name; VInt flags]
  | RouteExist name => [VStr name]
  | RouteList => []
  | RouteKeys name => [VStr name]
  | RouteRename from to => [VStr from; VStr to]
  | RouteBind name queue key => [VStr name; VStr queue; VStr key]
  | RouteUnbind name queue key => [VStr name; VStr queue; VStr key]
  | RoutePush name key _ => [VStr name; VStr key]
  | RouteDelete name => [VStr name]
  | ChannelCreate name flags => [VStr name; VInt flags]
  | ChannelExist name => [VStr name]
  | ChannelList => []
  | ChannelRename from to => [VStr from; VStr to]
  | ChannelPublish name topic _ => [VStr name; VStr topic]
  | ChannelSubscribe name topic => [VStr name; VStr topic]
  | ChannelPsubscribe name pattern => [VStr name; VStr pattern]
  | ChannelUnsubscribe name topic => [VStr name; VStr topic]
  | ChannelPunsubscribe name pattern => [VStr name; VStr pattern]
  | ChannelDelete name => [VStr name]
  end.
(** The size of the message that follows the body. *)
Definition call_payload (call : api_call) : Z :=
  match call with
  | QueuePush _ msg_size | RoutePush _ _ msg_size | ChannelPublish _ _ msg_size => u32 msg_size
  | _ => 0
  end.

Definition call_header (noack : Z) (call : api_call) : protocol_request_header :=
  mk_request_header EMQ_PROTOCOL_REQ (call_code call) (u8 noack)
    (u32 (Z.of_nat (sizeof (call_layout call)) + call_payload call)).

(** The bytes of a request, when its strings fit in their fields. *)
Definition encode (noack : Z) (call : api_call) : option (list byte) :=
  bs ← struct_bytes (call_layout call) (call_values call);
  Some (request_header_bytes (call_header noack call) ++ bs).

(** Each string has room for its terminator in its field. *)
Fixpoint fits (ts : layout) (vs : list value) : Prop :=
  match ts, vs with
  | [], [] => True
  | Char n :: ts, VStr s :: vs => strlenz s ≤ Z.of_nat n ∧ fits ts vs
  | (UInt8 | UInt16 | UInt32 | UInt64 | Float) :: ts, VInt _ :: vs => fits ts vs
  | _, _ => False
  end.

(** What a peer reads: the header, and the fields of the structure of its command. *)
Definition layouts : list (Z * layout) := [
  (EMQ_PROTOCOL_CMD_AUTH, protocol_request_auth);
  (EMQ_PROTOCOL_CMD_PING, protocol_request_ping);
  (EMQ_PROTOCOL_CMD_STAT, protocol_request_stat);
  (EMQ_PROTOCOL_CMD_SAVE, protocol_request_save);
  (EMQ_PROTOCOL_CMD_FLUSH, protocol_request_flush);
  (EMQ_PROTOCOL_CMD_USER_CREATE, protocol_request_user_create);
  (EMQ_PROTOCOL_CMD_USER_LIST, protocol_request_user_list);
  (EMQ_PROTOCOL_CMD_USER_RENAME, protocol_request_user_rename);
  (EMQ_PROTOCOL_CMD_USER_SET_PERM, protocol_request_user_set_perm);
  (EMQ_PROTOCOL_CMD_USER_DELETE, protocol_request_user_delete);
  (EMQ_PROTOCOL_CMD_QUEUE_CREATE, protocol_request_queue_create);
  (EMQ_PROTOCOL_CMD_QUEUE_DECLARE, protocol_request_queue_declare);
  (EMQ_PROTOCOL_CMD_QUEUE_EXIST, protocol_request_queue_exist);
  (EMQ_PROTOCOL_CMD_QUEUE_LIST, protocol_request_queue_list);
  (EMQ_PROTOCOL_CMD_QUEUE_RENAME, protocol_request_queue_rename);
  (EMQ_PROTOCOL_CMD_QUEUE_SIZE, protocol_request_queue_size);
  (EMQ_PROTOCOL_CMD_QUEUE_PUSH, protocol_request_queue_push);
  (EMQ_PROTOCOL_CMD_QUEUE_GET, protocol_request_queue_get);
  (EMQ_PROTOCOL_CMD_QUEUE_POP, protocol_request_queue_pop);
  (EMQ_PROTOCOL_CMD_QUEUE_CONFIRM, protocol_request_queue_confirm);
  (EMQ_PROTOCOL_CMD_QUEUE_SUBSCRIBE, protocol_request_queue_subscribe);
  (EMQ_PROTOCOL_CMD_QUEUE_UNSUBSCRIBE, protocol_request_queue_unsubscribe);
  (EMQ_PROTOCOL_CMD_QUEUE_PURGE, protocol_request_queue_purge);
  (EMQ_PROTOCOL_CMD_QUEUE_DELETE, protocol_request_queue_delete);
  (EMQ_PROTOCOL_CMD_ROUTE_CREATE, protocol_request_route_create);
  (EMQ_PROTOCOL_CMD_ROUTE_EXIST, protocol_request_route_exist);
  (EMQ_PROTOCOL_CMD_ROUTE_LIST, protocol_request_route_list);
  (EMQ_PROTOCOL_CMD_ROUTE_KEYS, protocol_request_route_keys);
  (EMQ_PROTOCOL_CMD_ROUTE_RENAME, protocol_request_route_rename);
  (EMQ_PROTOCOL_CMD_ROUTE_BIND, protocol_request_route_bind);
  (EMQ_PROTOCOL_CMD_ROUTE_UNBIND, protocol_request_route_unbind);
  (EMQ_PROTOCOL_CMD_ROUTE_PUSH, protocol_request_route_push);
  (EMQ_PROTOCOL_CMD_ROUTE_DELETE, protocol_request_route_delete);
  (EMQ_PROTOCOL_CMD_CHANNEL_CREATE, protocol_request_channel_create);
  (EMQ_PROTOCOL_CMD_CHANNEL_EXIST, protocol_request_channel_exist);
  (EMQ_PROTOCOL_CMD_CHANNEL_LIST, protocol_request_channel_list);
  (EMQ_PROTOCOL_CMD_CHANNEL_RENAME, protocol_request_channel_rename);
  (EMQ_PROTOCOL_CMD_CHANNEL_PUBLISH, protocol_request_channel_publish);
  (EMQ_PROTOCOL_CMD_CHANNEL_SUBSCRIBE, protocol_request_channel_subscribe);
  (EMQ_PROTOCOL_CMD_CHANNEL_PSUBSCRIBE, protocol_request_channel_psubscribe);
  (EMQ_PROTOCOL_CMD_CHANNEL_UNSUBSCRIBE, protocol_request_channel_unsubscribe);
  (EMQ_PROTOCOL_CMD_CHANNEL_PUNSUBSCRIBE, protocol_request_channel_punsubscribe);
  (EMQ_PROTOCOL_CMD_CHANNEL_DELETE, protocol_request_channel_delete)].

Definition layout_of (cmd : Z) : option layout :=
  snd ∘ snd <$> list_find (λ p, p.1 = cmd) layouts.

Definition decode (bs : list byte) : option (protocol_request_header * list value) :=
  let header := read_request_header bs in
  ts ← layout_of (req_cmd header);
  Some (header, read_struct ts (drop sizeof_header bs)).

(** ** Lemmas *)

Lemma struct_bytes_fits ts vs : is_Some (struct_bytes ts vs) ↔ fits ts vs.
Proof.
  revert vs. induction ts as [|t ts IH]; intros [|v vs]; cbn [struct_bytes fits].
  - split; [done|by eexists].
  - split; [by intros []|done].
  - split; [by intros []|by destruct t].
  - assert (∀ b, is_Some (bs ← struct_bytes ts vs; Some (b ++ bs)) ↔ fits ts vs) as Hb.
    { intros b. rewrite <-IH. destruct (struct_bytes ts vs); simpl; split; intros []; by eauto. }
    destruct t, v; cbn [field_bytes]; try apply Hb; try by (split; [intros []|]).
    case_decide; simpl; [rewrite Hb; tauto|]. split; [by intros []|tauto].
Qed.

(** Every request fits in the buffer a client starts with. *)
Lemma call_layout_small call : (sizeof (call_layout call) ≤ 168)%nat.
Proof. destruct call; cbv; lia. Qed.

Lemma layout_of_code call : layout_of (call_code call) = Some (call_layout call).
Proof. by destruct call. Qed.

Lemma call_code_range call : 0 ≤ call_code call < 2 ^ 8.
Proof. by destruct call. Qed.

Lemma length_request_header_bytes h : length (request_header_bytes h) = sizeof_header.
Proof. unfold request_header_bytes. by rewrite !length_app, !length_le_bytes. Qed.

Lemma length_encode noack call bs :
  encode noack call = Some bs → length bs = (sizeof_header + sizeof (call_layout call))%nat.
Proof.
  unfold encode. intros (b & Hb & Heq)%bind_Some. apply (inj Some) in Heq as <-.
  by rewrite length_app, length_request_header_bytes, (struct_bytes_length _ _ _ Hb).
Qed.

Lemma encode_fits noack call bs :
  encode noack call = Some bs → fits (call_layout call) (call_values call).
Proof. unfold encode. intros (b & Hb & _)%bind_Some. apply struct_bytes_fits. eauto. Qed.

(** ** Building a request *)

(** The buffer of the client holds the message [bs]. *)
Definition pending (l : loc) (bs : list byte) (w : world) : Prop :=
  ∃ c q rest, points_to (w_heap w) l c ∧ client_request c = Some q ∧
    points_to (w_heap w) q ((Some <$> bs) ++ rest : buffer) ∧
    client_pos c = Z.of_nat (length bs).

Section requests.
Context (blk : Prop) (l : loc) (f : frame) (s : session).

Lemma wp_set_client_request bs (Q : unit → world → Prop) w :
  rep l s f w → Z.of_nat (length bs) ≤ EMQ_DEFAULT_REQUEST_SIZE →
  (∀ w', rep l s f w' → pending l bs w' → Q tt w') →
  wp blk (emq_set_client_request (Some l) bs) Q w.
Proof.
  intros [g Hr] Hlen HQ. pose proof (rep_distinct _ _ _ _ _ Hr) as (Hlr & Hll & Hrl).
  pose proof Hr as []. unfold emq_set_client_request. wp_exec1.
  eapply wp_load; [done|]. wp_exec1. rewrite rep_request.
  eapply wp_memcpy_to; [done|lia|]. eapply wp_modify.
  { simpl. rewrite lookup_insert_ne by done. done. }
  world_simpl. apply HQ.
  - pose proof (rep_update l s f w g
      (<[l := inject (set_client_pos (Z.of_nat (length bs)) (lo_client g))]>
        (<[lo_request g := inject ((Some <$> bs) ++ drop (length bs) (lo_cells g) : buffer)]>
           (w_heap w))) (set_client_pos (Z.of_nat (length bs)) (lo_client g))
      ((Some <$> bs) ++ drop (length bs) (lo_cells g)) (ss_mallocs s) (fr_heap f) Hr) as Hu.
    rewrite set_fr_heap_id, rep_mallocs, <-set_heap_set_mallocs, set_mallocs_id in Hu.
    replace (with_vars _ _ s) with s in Hu by (destruct s; simpl in *; by subst).
    eexists. apply Hu; clear Hu.
    + apply lookup_insert_eq.
    + done.
    + by rewrite lookup_insert_ne, lookup_insert_eq.
    + rewrite length_app, length_fmap, length_drop. lia.
    + intros k Hk. rewrite !lookup_insert_ne by congruence. done.
    + rewrite footprint_split. repeat apply freed_insert; [by left|by right; left|done].
  - eexists _, _, _. split; [apply lookup_insert_eq|]. split; [done|].
    split; [|done]. simpl. by rewrite lookup_insert_ne, lookup_insert_eq.
Qed.

Lemma wp_build_request cmd ts vs bs msg_size (Q : Z → world → Prop) w :
  rep l s f w → struct_bytes ts vs = Some bs → (sizeof ts ≤ 168)%nat →
  (∀ w', rep l s f w' →
    pending l (request_header_bytes
      (emq_set_header_request cmd (ss_noack s) (Z.of_nat (sizeof ts) + msg_size)) ++ bs) w' →
    Q EMQ_STATUS_OK w') →
  wp blk (build_request (Some l) cmd ts vs msg_size) Q w.
Proof.
  intros Hr Hbs Hts HQ. unfold build_request. apply wp_bind.
  destruct Hr as [g Hr]. pose proof Hr as []. unfold noack_of. apply wp_bind.
  eapply wp_load; [done|]. apply wp_ret. rewrite rep_noack, Hbs. cbv zeta. apply wp_bind.
  unfold emq_check_realloc_client_request. apply wp_bind. eapply wp_load; [done|].
  rewrite length_app, length_request_header_bytes, (struct_bytes_length _ _ _ Hbs).
  rewrite decide_False by (unfold EMQ_DEFAULT_REQUEST_SIZE, sizeof_header in *; lia).
  apply wp_ret. rewrite decide_False by done. apply wp_bind.
  apply wp_set_client_request; [by exists g| |].
  - rewrite length_app, length_request_header_bytes, (struct_bytes_length _ _ _ Hbs).
    unfold EMQ_DEFAULT_REQUEST_SIZE, sizeof_header. lia.
  - intros w' Hr' Hp. wp_exec1. by apply HQ.
Qed.

(** A request function builds what the encoder says, or changes nothing. *)
Lemma wp_request call (Q : Z → world → Prop) w :
  rep l s f w →
  match encode (ss_noack s) call with
  | Some bs => ∀ w', rep l s f w' → pending l bs w' → Q EMQ_STATUS_OK w'
  | None => Q EMQ_STATUS_ERR w
  end →
  wp blk (request_of call (Some l)) Q w.
Proof.
  intros Hr HQ. unfold encode in HQ.
  pose proof (struct_bytes_fits (call_layout call) (call_values call)) as Hfits.
  pose proof (call_layout_small call) as Hsmall.
  destruct (struct_bytes (call_layout call) (call_values call)) as [bs|] eqn:Hbs;
    cbn [mbind option_bind] in HQ.
  - assert (fits (call_layout call) (call_values call)) as Hf by (apply Hfits; eauto).
    clear Hfits. destruct call; cbn in Hf;
      match goal with |- wp _ (request_of _ ?c) _ _ => unfold request_of end;
      match goal with |- wp _ (?h _) _ _ => unfold h | |- wp _ (?h _ _) _ _ => unfold h
        | |- wp _ (?h _ _ _) _ _ => unfold h | |- wp _ (?h _ _ _ _) _ _ => unfold h
        | |- wp _ (?h _ _ _ _ _) _ _ => unfold h end;
      rewrite ?decide_False by lia; by eapply wp_build_request.
  - assert (¬ fits (call_layout call) (call_values call)) as Hf.
    { intros Hf. by apply Hfits in Hf as []. }
    clear Hfits. destruct call; cbn in Hf;
      match goal with |- wp _ (request_of _ ?c) _ _ => unfold request_of end;
      match goal with |- wp _ (?h _) _ _ => unfold h | |- wp _ (?h _ _) _ _ => unfold h
        | |- wp _ (?h _ _ _) _ _ => unfold h | |- wp _ (?h _ _ _ _) _ _ => unfold h
        | |- wp _ (?h _ _ _ _ _) _ _ => unfold h end;
      try tauto; rewrite decide_True by lia; by apply wp_ret.
Qed.
End requests.

(** ** Properties *)

(** A call whose strings fit is built. *)
Lemma request_built call l f s w :
  rep l s f w → fits (call_layout call) (call_values call) →
  ∃ bs w', encode (ss_noack s) call = Some bs ∧ request_of call (Some l) w = Returns EMQ_STATUS_OK w' ∧
    rep l s f w' ∧ pending l bs w'.
Proof.
  intros Hr [b Hb]%struct_bytes_fits.
  assert (wp False (request_of call (Some l)) (λ r w', ∃ bs, encode (ss_noack s) call = Some bs ∧
    r = EMQ_STATUS_OK ∧ rep l s f w' ∧ pending l bs w') w) as Hw.
  { apply (wp_request _ _ _ _ _ _ _ Hr). unfold encode. rewrite Hb. cbn [mbind option_bind]. eauto 6. }
  apply wp_returns in Hw as (r & w' & Hw & bs & Hbs & -> & Hr' & Hp). by exists bs, w'.
Qed.

(** C3: each of the 43 request functions of [packet.c] leaves in the buffer of
    the client exactly the bytes that the protocol prescribes for the call and returns
    [EMQ_STATUS_OK], or, when a string does not fit in its field, returns [EMQ_STATUS_ERR] and
    changes nothing; no copy overruns a field or the buffer, and the buffer is never moved. *)
Theorem request_encodes call l f s w :
  rep l s f w →
  ∃ r w', request_of call (Some l) w = Returns r w' ∧
    match encode (ss_noack s) call with
    | Some bs => r = EMQ_STATUS_OK ∧ rep l s f w' ∧ pending l bs w'
    | None => r = EMQ_STATUS_ERR ∧ w' = w
    end.
Proof.
  intros Hr. apply wp_returns, (wp_request _ _ _ _ _ _ _ Hr).
  by destruct (encode (ss_noack s) call).
Qed.

Lemma request_encodes_witness :
  ∃ r w', request_of (QueueDeclare [Byte.x71]) (Some 1%positive) (sample ∅ [] [] []) = Returns r w' ∧
    match encode 0 (QueueDeclare [Byte.x71]) with
    | Some bs => r = EMQ_STATUS_OK ∧
        rep 1%positive (sample_session [] [] []) (sample_frame ∅) w' ∧ pending 1%positive bs w'
    | None => r = EMQ_STATUS_ERR ∧ w' = sample ∅ [] [] []
    end.
Proof.
  apply (request_encodes (QueueDeclare [Byte.x71]) 1%positive (sample_frame ∅) (sample_session [] [] [])).
  apply sample_rep. by repeat constructor.
Defined.

(** C32: a request is built if and only if each string of the call has room for
    its characters and its terminator in the array of the protocol structure: the limits 32 and
    64 that [packet.c] writes down are those of the structures of [protocol.h]. *)
Theorem request_accepts call l f s w :
  rep l s f w →
  (∃ w', request_of call (Some l) w = Returns EMQ_STATUS_OK w') ↔
    fits (call_layout call) (call_values call).
Proof.
  intros Hr. rewrite <-struct_bytes_fits.
  assert (wp False (request_of call (Some l)) (λ r w', r = EMQ_STATUS_OK ↔
    is_Some (struct_bytes (call_layout call) (call_values call))) w) as Hw.
  { apply (wp_request _ _ _ _ _ _ _ Hr). unfold encode.
    destruct (struct_bytes _ _); cbn [mbind option_bind]; [intros; split; eauto|].
    split; [done|by intros []]. }
  apply wp_returns in Hw as (r & w' & -> & Hiff). split.
  - intros [w'' [= -> _]]. by apply Hiff.
  - intros H. apply Hiff in H as ->. eauto.
Qed.

Lemma request_accepts_witness :
  (∃ w', request_of (Auth (replicate 31 Byte.x61) (replicate 32 Byte.x62)) (Some 1%positive)
     (sample ∅ [] [] []) = Returns EMQ_STATUS_OK w') ↔
  fits protocol_request_auth [VStr (replicate 31 Byte.x61); VStr (replicate 32 Byte.x62)].
Proof.
  apply (request_accepts (Auth (replicate 31 Byte.x61) (replicate 32 Byte.x62)) 1%positive (sample_frame ∅)
    (sample_session [] [] [])).
  apply sample_rep. by repeat constructor.
Defined.

(** The structures are read back from an encoded call. *)
Lemma decode_encode noack call bs payload :
  encode noack call = Some bs →
  decode (bs ++ payload) =
    Some (mk_request_header EMQ_PROTOCOL_REQ (call_code call) (u8 noack)
            (u32 (Z.of_nat (sizeof (call_layout call)) + call_payload call)),
          canonicals (call_layout call) (call_values call)).
Proof.
  unfold encode. intros (b & Hb & Heq)%bind_Some. apply (inj Some) in Heq as <-.
  rewrite <-app_assoc. unfold decode. rewrite read_request_header_bytes. unfold call_header.
  cbn [req_magic req_cmd req_noack req_bodylen].
  rewrite (u8_small (call_code call)) by apply call_code_range. rewrite layout_of_code.
  cbn [mbind option_bind]. rewrite drop_app_exact by apply length_request_header_bytes.
  rewrite (struct_roundtrip _ _ _ _ Hb). unfold u8, u32. by rewrite !Zmod_mod.
Qed.

(** C23: what each of the 43 request functions leaves in the buffer of the client, when the strings
    fit, can be read back: a peer that reads the header and then the structure that [protocol.h]
    declares for its command, whatever bytes follow, finds the command of the function, the
    acknowledgement flag of the client, the length of what follows, and the arguments of the
    function in their fields, each string up to its terminator and each integer modulo the width of
    its field. *)
Theorem request_decodes call l f s w :
  rep l s f w → fits (call_layout call) (call_values call) →
  ∃ bs w', request_of call (Some l) w = Returns EMQ_STATUS_OK w' ∧ rep l s f w' ∧ pending l bs w' ∧
    ∀ rest, decode (bs ++ rest) =
      Some (mk_request_header EMQ_PROTOCOL_REQ (call_code call) (u8 (ss_noack s))
              (u32 (Z.of_nat (sizeof (call_layout call)) + call_payload call)),
            canonicals (call_layout call) (call_values call)).
Proof.
  intros Hr Hfits. destruct (request_built _ _ _ _ _ Hr Hfits) as (bs & w' & Henc & Hw & Hr' & Hp).
  exists bs, w'. split_and!; [done..|]. intros rest. by apply decode_encode.
Qed.

(** The limits of a queue, read back with the bytes of a message after them. *)
Lemma request_decodes_witness :
  ∃ bs w', emq_queue_create_request (Some 1%positive) [Byte.x71] 10 4096 3 (sample ∅ [] [] []) =
      Returns EMQ_STATUS_OK w' ∧
    rep 1%positive (sample_session [] [] []) (sample_frame ∅) w' ∧ pending 1%positive bs w' ∧
    ∀ rest, decode (bs ++ rest) =
      Some (mk_request_header 112 (call_code (QueueCreate [] 0 0 0)) 0 76,
        [VStr [Byte.x71]; VInt 10; VInt 4096; VInt 3]).
Proof.
  apply (request_decodes (QueueCreate [Byte.x71] 10 4096 3) 1%positive (sample_frame ∅) (sample_session [] [] [])).
  - apply sample_rep. by repeat constructor.
  - split; [vm_compute; discriminate|done].
Defined.

(** Fact: the length announced in the header of a request is the number of bytes
    that follow the header, its message included, as long as it can be written in 32 bits. *)
Theorem request_framing noack call bs payload :
  encode noack call = Some bs → Z.of_nat (length payload) = call_payload call →
  Z.of_nat (length payload) < 2 ^ 32 - 168 →
  req_bodylen (read_request_header (bs ++ payload)) =
    Z.of_nat (length (bs ++ payload)) - Z.of_nat sizeof_header.
Proof.
  intros Henc Hp Hlt. pose proof (length_encode _ _ _ Henc) as Hlen.
  pose proof (call_layout_small call) as Hsmall. revert Henc.
  unfold encode. intros (b & Hb & Heq)%bind_Some. apply (inj Some) in Heq.
  rewrite length_app, Hlen, <-Heq, <-app_assoc, read_request_header_bytes.
  unfold call_header. cbn [req_bodylen]. unfold u32. rewrite Zmod_mod, <-Hp.
  rewrite Z.mod_small by lia. lia.
Qed.

Lemma request_framing_witness :
  req_bodylen (read_request_header
    (default [] (encode 0 (QueuePush [Byte.x71] 6)) ++ [Byte.x00; Byte.x00; Byte.x00; Byte.x00; Byte.x68; Byte.x69])) = 70.
Proof.
  exact (request_framing 0 (QueuePush [Byte.x71] 6) _ [Byte.x00; Byte.x00; Byte.x00; Byte.x00; Byte.x68; Byte.x69] eq_refl eq_refl
    ltac:(simpl; lia)).
Defined.
