(* ===== verification/Commands.v ===== *)
(** The operations of [src/src/emq.c] that send a request and wait for its acknowledgement: the
    shared phases of an exchange, the operations, and their specification on sessions. *)

From S2P Require Import Prelude Types Machine Lists Network Protocol Client Session Connection.
From S2P Require Import Sample Packet.

(** ** Phases of an exchange *)

(** [emq_client_set_error(client, error); goto error;] with the code at the label [error]. *)
Definition error_exit {A} (client : ptr) (r : A) : M A :=
  EMQ_SET_STATUS client EMQ_STATUS_ERR;; mret r.
Definition fail_with {A} (client : ptr) (error : Z) (r : A) : M A :=
  emq_client_set_error client error;; error_exit client r.

(** [EMQ_SET_STATUS(client, EMQ_STATUS_OK); return r;] *)
Definition succeed {A} (client : ptr) (r : A) : M A :=
  EMQ_SET_STATUS client EMQ_STATUS_OK;; mret r.

(** [emq_client_write(client, client->request, client->pos)] *)
Definition write_request (client : ptr) : M Z :=
  c ← load client;
  bs ← read_bytes (client_request c) (client_pos c);
  emq_client_write client bs (client_pos c).

(** Building the request and writing it. *)
Definition transmit {A} (client : ptr) (request write : M Z) (r : A) (k : M A) : M A :=
  ret ← request;
  if decide (ret = EMQ_STATUS_ERR) then fail_with client EMQ_ERROR_DATA r else
  ret ← write;
  if decide (ret = -1) then fail_with client EMQ_ERROR_WRITE r else k.

(** Checking the header of the response with [check], and its status. *)
Definition examine {A} (client : ptr) (check : protocol_response_header → Z)
    (header : protocol_response_header) (r : A) (k : M A) : M A :=
  if decide (check header = EMQ_STATUS_ERR) then fail_with client EMQ_ERROR_RESPONSE r else
  if decide (emq_check_status header EMQ_PROTOCOL_STATUS_SUCCESS = EMQ_STATUS_ERR)
  then fail_with client (emq_get_error header) r else
  k.

(** Reading the header of the response and checking it. *)
Definition expect_header {A} (client : ptr) (check : protocol_response_header → Z) (r : A)
    (k : protocol_response_header → M A) : M A :=
  '(ret, bytes) ← emq_client_read client 8 8;
  if decide (ret = -1) then fail_with client EMQ_ERROR_READ r else
  let header := read_response_header bytes in
  examine client check header r (k header).

(** [if (!client->noack) { ... }] *)
Definition acknowledged {A} (client : ptr) (check : protocol_response_header → Z) (r : A)
    (k : M A) : M A :=
  noack ← noack_of client;
  if decide (noack = 0) then expect_header client check r (λ _, k) else k.

(** The operations that only send a request and check its acknowledgement. *)
Definition command (client : ptr) (request : M Z) (check : protocol_response_header → Z) : M Z :=
  EMQ_CLEAR_ERROR client;;
  transmit client request (write_request client) EMQ_STATUS_ERR
    (acknowledged client check EMQ_STATUS_ERR (succeed client EMQ_STATUS_OK)).

(** [emq_check_response_header(&header, cmd, 0)] *)
Definition empty_reply (cmd : Z) (header : protocol_response_header) : Z :=
  emq_check_response_header header cmd 0.

(** ** Operations *)

Definition emq_auth (client : ptr) (name password : cstring) : M Z :=
  command client (emq_auth_request client name password)
    (empty_reply EMQ_PROTOCOL_CMD_AUTH).

Definition emq_ping (client : ptr) : M Z :=
  command client (emq_ping_request client)
    (empty_reply EMQ_PROTOCOL_CMD_PING).

Definition emq_save (client : ptr) (async : Z) : M Z :=
  command client (emq_save_request client async)
    (empty_reply EMQ_PROTOCOL_CMD_SAVE).

Definition emq_flush (client : ptr) (flags : Z) : M Z :=
  command client (emq_flush_request client flags)
    (empty_reply EMQ_PROTOCOL_CMD_FLUSH).

Definition emq_user_create (client : ptr) (name password : cstring) (perm : Z) : M Z :=
  command client (emq_user_create_request client name password perm)
    (empty_reply EMQ_PROTOCOL_CMD_USER_CREATE).

Definition emq_user_rename (client : ptr) (from to : cstring) : M Z :=
  command client (emq_user_rename_request client from to)
    (empty_reply EMQ_PROTOCOL_CMD_USER_RENAME).

Definition emq_user_set_perm (client : ptr) (name : cstring) (perm : Z) : M Z :=
  command client (emq_user_set_perm_request client name perm)
    (empty_reply EMQ_PROTOCOL_CMD_USER_SET_PERM).

Definition emq_user_delete (client : ptr) (name : cstring) : M Z :=
  command client (emq_user_delete_request client name)
    (empty_reply EMQ_PROTOCOL_CMD_USER_DELETE).

Definition emq_queue_create (client : ptr) (name : cstring) (max_msg max_msg_size flags : Z) : M Z :=
  command client (emq_queue_create_request client name max_msg max_msg_size flags)
    (empty_reply EMQ_PROTOCOL_CMD_QUEUE_CREATE).

Definition emq_queue_declare (client : ptr) (name : cstring) : M Z :=
  command client (emq_queue_declare_request client name)
    (empty_reply EMQ_PROTOCOL_CMD_QUEUE_DECLARE).

Definition emq_queue_rename (client : ptr) (from to : cstring) : M Z :=
  command client (emq_queue_rename_request client from to)
    (empty_reply EMQ_PROTOCOL_CMD_QUEUE_RENAME).

Definition emq_queue_confirm (client : ptr) (name : cstring) (tag : Z) : M Z :=
  command client (emq_queue_confirm_request client name tag)
    (λ header, emq_check_response_header_mini header EMQ_PROTOCOL_CMD_QUEUE_CONFIRM).

Definition emq_queue_purge (client : ptr) (name : cstring) : M Z :=
  command client (emq_queue_purge_request client name)
    (empty_reply EMQ_PROTOCOL_CMD_QUEUE_PURGE).

Definition emq_queue_delete (client : ptr) (name : cstring) : M Z :=
  command client (emq_queue_delete_request client name)
    (empty_reply EMQ_PROTOCOL_CMD_QUEUE_DELETE).

Definition emq_route_create (client : ptr) (name : cstring) (flags : Z) : M Z :=
  command client (emq_route_create_request client name flags)
    (empty_reply EMQ_PROTOCOL_CMD_ROUTE_CREATE).

Definition emq_route_rename (client : ptr) (from to : cstring) : M Z :=
  command client (emq_route_rename_request client from to)
    (empty_reply EMQ_PROTOCOL_CMD_ROUTE_RENAME).

Definition emq_route_bind (client : ptr) (name queue key : cstring) : M Z :=
  command client (emq_route_bind_request client name queue key)
    (empty_reply EMQ_PROTOCOL_CMD_ROUTE_BIND).

Definition emq_route_unbind (client : ptr) (name queue key : cstring) : M Z :=
  command client (emq_route_unbind_request client name queue key)
    (empty_reply EMQ_PROTOCOL_CMD_ROUTE_UNBIND).

Definition emq_route_delete (client : ptr) (name : cstring) : M Z :=
  command client (emq_route_delete_request client name)
    (empty_reply EMQ_PROTOCOL_CMD_ROUTE_DELETE).

Definition emq_channel_create (client : ptr) (name : cstring) (flags : Z) : M Z :=
  command client (emq_channel_create_request client name flags)
    (empty_reply EMQ_PROTOCOL_CMD_CHANNEL_CREATE).

Definition emq_channel_rename (client : ptr) (from to : cstring) : M Z :=
  command client (emq_channel_rename_request client from to)
    (empty_reply EMQ_PROTOCOL_CMD_CHANNEL_RENAME).

Definition emq_channel_delete (client : ptr) (name : cstring) : M Z :=
  command client (emq_channel_delete_request client name)
    (empty_reply EMQ_PROTOCOL_CMD_CHANNEL_DELETE).

(** The operation of a call, when it is one of them. *)
Definition command_of (call : api_call) : option (ptr → M Z) :=
  match call with
  | Auth name password => Some (λ client, emq_auth client name password)
  | Ping => Some (λ client, emq_ping client)
  | Save async => Some (λ client, emq_save client async)
  | Flush flags => Some (λ client, emq_flush client flags)
  | UserCreate name password perm => Some (λ client, emq_user_create client name password perm)
  | UserRename from to => Some (λ client, emq_user_rename client from to)
  | UserSetPerm name perm => Some (λ client, emq_user_set_perm client name perm)
  | UserDelete name => Some (λ client, emq_user_delete client name)
  | QueueCreate name max_msg max_msg_size flags => Some (λ client, emq_queue_create client name max_msg max_msg_size flags)
  | QueueDeclare name => Some (λ client, emq_queue_declare client name)
  | QueueRename from to => Some (λ client, emq_queue_rename client from to)
  | QueueConfirm name tag => Some (λ client, emq_queue_confirm client name tag)
  | QueuePurge name => Some (λ client, emq_queue_purge client name)
  | QueueDelete name => Some (λ client, emq_queue_delete client name)
  | RouteCreate name flags => Some (λ client, emq_route_create client name flags)
  | RouteRename from to => Some (λ client, emq_route_rename client from to)
  | RouteBind name queue key => Some (λ client, emq_route_bind client name queue key)
  | RouteUnbind name queue key => Some (λ client, emq_route_unbind client name queue key)
  | RouteDelete name => Some (λ client, emq_route_delete client name)
  | ChannelCreate name flags => Some (λ client, emq_channel_create client name flags)
  | ChannelRename from to => Some (λ client, emq_channel_rename client from to)
  | ChannelDelete name => Some (λ client, emq_channel_delete client name)
  | _ => None
  end.

(** ** Specification *)

Definition s_transmit {A} (how : list wr_event → list byte → sent * list byte * list wr_event)
    (call : api_call) (payload : list byte) (r : A) (k : Spec A) : Spec A :=
  noack ← s_get ss_noack;
  match encode noack call with
  | None => s_fail EMQ_ERROR_DATA r
  | Some bs =>
      d ← s_send how (bs ++ payload);
      match d with Failed => s_fail EMQ_ERROR_WRITE r | _ => k end
  end.

Definition s_examine {A} (check : protocol_response_header → Z)
    (header : protocol_response_header) (r : A) (k : Spec A) : Spec A :=
  if decide (check header = EMQ_STATUS_ERR) then s_fail EMQ_ERROR_RESPONSE r else
  if decide (res_status header = EMQ_PROTOCOL_STATUS_SUCCESS) then k else
  s_fail (emq_get_error header) r.

Definition s_expect {A} (check : protocol_response_header → Z) (r : A)
    (k : protocol_response_header → Spec A) : Spec A :=
  reply ← s_recv 8;
  match reply with
  | None => s_fail EMQ_ERROR_READ r
  | Some bytes =>
      let header := read_response_header bytes in
      s_examine check header r (k header)
  end.

Definition s_acknowledged {A} (check : protocol_response_header → Z) (r : A) (k : Spec A) : Spec A :=
  noack ← s_get ss_noack;
  if decide (noack = 0) then s_expect check r (λ _, k) else k.

Definition s_succeed {A} (r : A) : Spec A := s_put (set_ss_status EMQ_STATUS_OK);; mret r.

(** The check of the reply to a call. *)
Definition reply_check (call : api_call) : protocol_response_header → Z :=
  match call with
  | QueueConfirm _ _ => λ header, emq_check_response_header_mini header (call_code call)
  | _ => empty_reply (call_code call)
  end.

(** The exchange of a command: the reply is only read when acknowledgements are on. *)
Definition s_command (call : api_call) : Spec Z :=
  s_put (set_ss_error "");;
  s_transmit deliver call [] EMQ_STATUS_ERR
    (s_acknowledged (reply_check call) EMQ_STATUS_ERR (s_succeed EMQ_STATUS_OK)).

(** ** Simulation of the phases *)

Lemma emq_get_error_range header : 0 ≤ emq_get_error header ≤ EMQ_ERROR_NO_DATA.
Proof. unfold emq_get_error. repeat case_decide; done. Qed.

Lemma check_status_ok header :
  emq_check_status header EMQ_PROTOCOL_STATUS_SUCCESS = EMQ_STATUS_ERR ↔
  res_status header ≠ EMQ_PROTOCOL_STATUS_SUCCESS.
Proof. unfold emq_check_status. case_decide; split; done. Qed.

Section phases.
Context (l : loc).

Lemma simulates_fail {A B} error (r : A) (r' : B) Φ :
  0 ≤ error ≤ EMQ_ERROR_NO_DATA → (∀ f, Φ f f r r') →
  simulates l (fail_with (Some l) error r) (s_fail error r') Φ.
Proof.
  intros He HΦ. apply simulates_bind; [by apply refines_set_error|intros []].
  apply simulates_bind; [apply refines_set_status|intros []]. by apply simulates_ret.
Qed.

Lemma simulates_succeed {A B} (r : A) (r' : B) Φ :
  (∀ f, Φ f f r r') → simulates l (succeed (Some l) r) (s_succeed r') Φ.
Proof.
  intros HΦ. apply simulates_bind; [apply refines_set_status|intros []].
  by apply simulates_ret.
Qed.

Lemma sim_succeed {A B} (r : A) (r' : B) f s (Φ : frame → A → B → Prop) w :
  rep l s f w → Φ f r r' → sim l s (succeed (Some l) r) (s_succeed r') Φ w.
Proof.
  intros Hr HΦ. eapply sim_bind; [by apply refines_set_status|].
  intros [] [] f' s' w' Hr' [-> _]. by eapply sim_ret.
Qed.

Lemma sim_error_exit {A B} (r : A) (r' : B) f s (Φ : frame → A → B → Prop) w :
  rep l s f w → Φ f r r' →
  sim l s (error_exit (Some l) r) (s_put (set_ss_status EMQ_STATUS_ERR);; mret r') Φ w.
Proof.
  intros Hr HΦ. eapply sim_bind; [by apply refines_set_status|].
  intros [] [] f' s' w' Hr' [-> _]. by eapply sim_ret.
Qed.

(** An error that is followed by the release of some blocks. *)
Lemma sim_failing {A B} error (r' : B) (K : unit → M A) f s (Φ : frame → A → B → Prop) w :
  rep l s f w → 0 ≤ error ≤ EMQ_ERROR_NO_DATA →
  (∀ s w, rep l s f w →
    sim l s (K tt) (s_put (set_ss_status EMQ_STATUS_ERR);; mret r') Φ w) →
  sim l s (emq_client_set_error (Some l) error ≫= K) (s_fail error r') Φ w.
Proof.
  intros Hr He HK. eapply sim_bind; [by apply refines_set_error|].
  intros [] [] f' s' w' Hr' [-> _]. by apply HK.
Qed.

(** What the result of a write says of its fate. *)
Definition write_result (f : frame) (f' : frame) (y : Z) (x : sent) : Prop :=
  f' = f ∧ (y = -1 ↔ x = Failed).

Lemma sim_transmit {A B} how call request write payload (r : A) (r' : B) k k' Φ f s w :
  rep l s f w →
  request = request_of call (Some l) →
  (∀ bs w', rep l s f w' → pending l bs w' →
    Z.of_nat (length bs) ≤ 176 →
    sim l s write (s_send how (bs ++ payload)) (write_result f) w') →
  (∀ f, Φ f f r r') →
  (fits (call_layout call) (call_values call) → simulates l k k' Φ) →
  sim l s (transmit (Some l) request write r k) (s_transmit how call payload r' k') (Φ f) w.
Proof.
  intros Hr -> Hw HΦ Hk.
  apply (sim_ext _ _ (match encode (ss_noack s) call with
    | None => s_fail EMQ_ERROR_DATA r'
    | Some bs =>
        d ← s_send how (bs ++ payload);
        match d with Failed => s_fail EMQ_ERROR_WRITE r' | _ => k' end
    end)); [done|].
  apply sim_step, wp_request with (1 := Hr).
  destruct (encode (ss_noack s) call) as [bs|] eqn:Henc.
  - intros w' Hr' Hp. rewrite decide_False by done. eapply sim_bind.
    + apply Hw; [done|done|]. rewrite (length_encode _ _ _ Henc).
      pose proof (call_layout_small call). unfold sizeof_header. lia.
    + intros y x f' s' w'' Hr'' [-> Hyx]. destruct x.
      1,2: rewrite decide_False by (intros ?%Hyx; done);
        apply Hk; [by eapply encode_fits|done].
      rewrite decide_True by tauto. by eapply simulates_fail.
  - rewrite decide_True by done. by eapply simulates_fail.
Qed.

Lemma sim_write_request bs f s w :
  rep l s f w → pending l bs w → Z.of_nat (length bs) ≤ 176 →
  sim l s (write_request (Some l)) (s_send deliver (bs ++ [])) (write_result f) w.
Proof.
  intros [g Hr] (c & q & rest & Hc & Hq & Hbs & Hpos) Hlen _. rewrite app_nil_r. pose proof Hr as [].
  rewrite (points_to_agree _ _ _ _ Hc rep_client) in *.
  apply wp_bind. eapply wp_load; [done|]. apply wp_bind. rewrite Hq, Hpos.
  eapply wp_read_bytes; [done|done|].
  eapply wp_client_write; [done..|unfold MAX_RW_COUNT; lia|].
  unfold s_send. rewrite rep_wr. destruct (deliver (ss_wr s) bs) as [[d tx] wr].
  intros y Hy. eexists _, _, f. split; [done|]. split; [by eapply rep_after_send|].
  split; [done|]. destruct d; simpl in Hy; split; try done; lia.
Qed.

Lemma simulates_examine {A B} check header (r : A) (r' : B) k k' Φ :
  (∀ f, Φ f f r r') → simulates l k k' Φ →
  simulates l (examine (Some l) check header r k) (s_examine check header r' k') Φ.
Proof.
  intros HΦ Hk. unfold examine, s_examine.
  destruct (decide (check _ = _)); [by apply simulates_fail|].
  destruct (decide (res_status _ = _)) as [Hst|Hst].
  - by rewrite decide_False by (rewrite check_status_ok; tauto).
  - rewrite decide_True by (by rewrite check_status_ok).
    apply simulates_fail; [apply emq_get_error_range|done].
Qed.

Lemma simulates_expect {A B} check (r : A) (r' : B) k k' Φ :
  (∀ f, Φ f f r r') → (∀ header, simulates l (k header) (k' header) Φ) →
  simulates l (expect_header (Some l) check r k) (s_expect check r' k') Φ.
Proof.
  intros HΦ Hk f s w Hr. eapply sim_bind; [by apply (sim_recv l 8 8)|].
  intros [ret bytes] x f' s' w' Hr' [-> Hx]. destruct x as [bs|]; simpl in Hx.
  - destruct Hx as [[= -> ->] Hlen]. rewrite decide_False by done.
    by apply simulates_examine.
  - destruct Hx as [-> _]. rewrite decide_True by done. by eapply simulates_fail.
Qed.

Lemma simulates_acknowledged {A B} check (r : A) (r' : B) k k' Φ :
  (∀ f, Φ f f r r') → simulates l k k' Φ →
  simulates l (acknowledged (Some l) check r k) (s_acknowledged check r' k') Φ.
Proof.
  intros HΦ Hk. apply simulates_bind; [apply refines_noack_of|]. intros noack.
  case_decide; [|done]. by apply simulates_expect.
Qed.

Lemma simulates_clear {A B} (k : M A) (k' : Spec B) Φ :
  simulates l k k' Φ →
  simulates l (EMQ_CLEAR_ERROR (Some l);; k) (s_put (set_ss_error "");; k') Φ.
Proof. intros Hk. apply simulates_bind; [apply refines_clear_error|done]. Qed.

(** The operations whose request is written with [emq_client_write]. *)
Lemma simulates_transmit_fits {A B} call (r : A) (r' : B) k k' Φ :
  (∀ f, Φ f f r r') → (fits (call_layout call) (call_values call) → simulates l k k' Φ) →
  simulates l (transmit (Some l) (request_of call (Some l)) (write_request (Some l)) r k)
    (s_transmit deliver call [] r' k') Φ.
Proof.
  intros HΦ Hk f s w Hr. apply sim_transmit; [done|done| |done|done].
  intros bs w' ???. by apply sim_write_request.
Qed.

Lemma simulates_transmit {A B} call (r : A) (r' : B) k k' Φ :
  (∀ f, Φ f f r r') → simulates l k k' Φ →
  simulates l (transmit (Some l) (request_of call (Some l)) (write_request (Some l)) r k)
    (s_transmit deliver call [] r' k') Φ.
Proof. intros HΦ Hk. by apply simulates_transmit_fits. Qed.

Lemma refines_command call :
  refines l (command (Some l) (request_of call (Some l)) (reply_check call)) (s_command call).
Proof.
  apply simulates_clear, simulates_transmit; [done|].
  apply simulates_acknowledged; [done|]. by apply simulates_succeed.
Qed.

Lemma refines_command_of call m :
  command_of call = Some m → refines l (m (Some l)) (s_command call).
Proof.
  intros Hm. destruct call; try done; injection Hm as <-;
    match goal with |- refines _ _ (s_command ?c) => exact (refines_command c) end.
Qed.
End phases.

(** ** The exchange in closed form *)

(** The session once a message was handed to the socket. *)
Definition after_sending (s : session) (tx : list byte) (wr : list wr_event) : session :=
  set_ss_wr wr (set_ss_tx (ss_tx s ++ tx) (set_ss_error "" s)).

(** The reply that a server sends when it executed a call. *)
Definition success_reply (call : api_call) : protocol_response_header :=
  mk_response_header EMQ_PROTOCOL_RES (call_code call) EMQ_PROTOCOL_STATUS_SUCCESS 0.

Lemma s_command_sent call s bs d tx wr :
  encode (ss_noack s) call = Some bs → deliver (ss_wr s) bs = (d, tx, wr) → d ≠ Failed →
  s_command call s =
    s_acknowledged (reply_check call) EMQ_STATUS_ERR (s_succeed EMQ_STATUS_OK)
      (after_sending s tx wr).
Proof.
  intros Henc Hd Hok. unfold s_command, s_transmit, s_put, s_get, s_send.
  unfold mbind, Spec_bind. cbn.
  rewrite Henc, app_nil_r. cbn. rewrite Hd. by destruct d.
Qed.

Lemma s_transmit_sent {A} how call payload (r : A) k s bs d tx wr :
  encode (ss_noack s) call = Some bs → how (ss_wr s) (bs ++ payload) = (d, tx, wr) → d ≠ Failed →
  (s_put (set_ss_error "");; s_transmit how call payload r k) s = k (after_sending s tx wr).
Proof.
  intros Henc Hd Hok. unfold s_transmit, s_put, s_get, s_send, mbind, Spec_bind.
  cbn [ss_noack set_ss_error]. rewrite Henc. cbn [ss_wr ss_tx set_ss_error]. rewrite Hd.
  by destruct d.
Qed.

(** The reply to a command with a body of [n] bytes. *)
Definition reply_with (call : api_call) (n : Z) : protocol_response_header :=
  mk_response_header EMQ_PROTOCOL_RES (call_code call) EMQ_PROTOCOL_STATUS_SUCCESS n.

Lemma s_expect_success {A} check (r : A) k s call n rest :
  0 ≤ n < 2 ^ 32 → check (reply_with call n) = EMQ_STATUS_OK →
  ss_rx s = (RxByte <$> response_header_bytes (reply_with call n)) ++ rest →
  s_expect check r k s = k (reply_with call n) (set_ss_rx rest s).
Proof.
  intros Hn Hc Hrx. unfold s_expect, s_recv, mbind, Spec_bind.
  rewrite Hrx, take_rx_exact by apply length_response_header_bytes. cbv zeta.
  rewrite <-(app_nil_r (response_header_bytes _)), read_response_header_bytes.
  cbn [reply_with res_magic res_cmd res_status res_bodylen].
  rewrite (u8_small (call_code call)) by apply call_code_range. rewrite (u32_small n) by done.
  change (mk_response_header _ _ _ n) with (reply_with call n). unfold s_examine. by rewrite Hc.
Qed.

Lemma s_acknowledged_success {A} call (r : A) k s rest :
  ss_noack s = 0 → ss_rx s = (RxByte <$> response_header_bytes (success_reply call)) ++ rest →
  s_acknowledged (empty_reply (call_code call)) r k s = k (set_ss_rx rest s).
Proof.
  intros Hno Hrx. unfold s_acknowledged, s_get, mbind, Spec_bind. rewrite decide_True by done.
  apply (s_expect_success _ r (λ _, k) s call 0); [done| |exact Hrx].
  unfold empty_reply, emq_check_response_header. rewrite decide_False; [done|].
  cbn. tauto.
Qed.

Lemma s_command_unsent call s :
  match encode (ss_noack s) call with
  | None => s_command call s = Answer EMQ_STATUS_ERR (set_ss_status EMQ_STATUS_ERR
      (set_ss_error "Error input data" s))
  | Some bs =>
      let '(d, tx, wr) := deliver (ss_wr s) bs in
      d = Failed → s_command call s = Answer EMQ_STATUS_ERR (set_ss_status EMQ_STATUS_ERR
        (set_ss_error "Error write request" (after_sending s tx wr)))
  end.
Proof.
  unfold s_command, s_transmit, s_put, s_get, s_send. unfold mbind, Spec_bind. cbn.
  destruct (encode (ss_noack s) call) as [bs|]; [|done].
  rewrite app_nil_r. cbn. destruct (deliver (ss_wr s) bs) as [[d tx] wr]. by intros ->.
Qed.

(** The answer to a header that was read. *)
Definition judge (check : protocol_response_header → Z) (h : protocol_response_header)
    (s : session) : Z * session :=
  if decide (check h = EMQ_STATUS_ERR) then
    (EMQ_STATUS_ERR, set_ss_status EMQ_STATUS_ERR (set_ss_error "Response error" s))
  else if decide (res_status h = EMQ_PROTOCOL_STATUS_SUCCESS) then
    (EMQ_STATUS_OK, set_ss_status EMQ_STATUS_OK s)
  else (EMQ_STATUS_ERR,
    set_ss_status EMQ_STATUS_ERR (set_ss_error (error_message (emq_get_error h)) s)).

Lemma s_acknowledged_read check s :
  ss_noack s = 0 →
  s_acknowledged check EMQ_STATUS_ERR (s_succeed EMQ_STATUS_OK) s =
    match take_rx 8 (ss_rx s) with
    | TkStarved => Starved
    | TkFail rest => Answer EMQ_STATUS_ERR (set_ss_status EMQ_STATUS_ERR
        (set_ss_error "Error read request" (set_ss_rx rest s)))
    | TkGot bs rest =>
        let '(r, s') := judge check (read_response_header bs) (set_ss_rx rest s) in Answer r s'
    end.
Proof.
  intros Hno. unfold s_acknowledged, s_expect, s_recv, s_get, mbind, Spec_bind.
  rewrite decide_True by done. destruct (take_rx 8 (ss_rx s)); [|done|done]. unfold judge, s_examine.
  by repeat case_decide.
Qed.

Lemma s_acknowledged_noack {A} check (r : A) k s :
  ss_noack s ≠ 0 → s_acknowledged check r k s = k s.
Proof.
  intros Hno. unfold s_acknowledged, s_get, mbind, Spec_bind. by rewrite decide_False.
Qed.

(** A command always has an answer, unless the reply does not come. *)
Lemma s_command_specified call s : s_command call s ≠ Unspecified.
Proof.
  destruct (encode (ss_noack s) call) as [bs|] eqn:Henc.
  - destruct (deliver (ss_wr s) bs) as [[d tx] wr] eqn:Hd.
    pose proof (s_command_unsent call s) as Hun. rewrite Henc, Hd in Hun.
    destruct (decide (d = Failed)) as [Hf|Hf]; [by rewrite Hun|].
    rewrite (s_command_sent _ _ _ _ _ _ Henc Hd Hf).
    destruct (decide (ss_noack s = 0)) as [Hno|Hno].
    + rewrite s_acknowledged_read by done. destruct (take_rx _ _); [|done|done].
      by destruct (judge _ _ _).
    + by rewrite s_acknowledged_noack.
  - pose proof (s_command_unsent call s) as Hun. rewrite Henc in Hun. by rewrite Hun.
Qed.

Lemma reply_check_empty call h :
  res_magic h = EMQ_PROTOCOL_RES → res_cmd h = call_code call → res_bodylen h = 0 →
  reply_check call h = EMQ_STATUS_OK.
Proof.
  intros Hm Hc Hb. unfold reply_check, empty_reply, emq_check_response_header,
    emq_check_response_header_mini.
  destruct call; rewrite decide_False; first [done | tauto].
Qed.

Lemma reply_check_ok call h :
  reply_check call h = EMQ_STATUS_OK → res_magic h = EMQ_PROTOCOL_RES ∧ res_cmd h = call_code call.
Proof.
  unfold reply_check, empty_reply, emq_check_response_header, emq_check_response_header_mini.
  destruct call; case_decide as Hd; try done; intros _; split; apply dec_stable; tauto.
Qed.

Lemma check_values call h : reply_check call h = EMQ_STATUS_OK ∨ reply_check call h = EMQ_STATUS_ERR.
Proof.
  unfold reply_check, empty_reply, emq_check_response_header, emq_check_response_header_mini.
  destruct call; case_decide; auto.
Qed.

(** ** Properties *)

(** C1: each of the 22 operations of [emq.c] that send a request and wait for
    its acknowledgement does exactly what the specification [s_command] says, whatever the
    memory layout, the segmentation of the stream and the behaviour of the socket: it returns
    the same result, leaves the client representing the same session, leaves every other block
    and socket untouched, waits only when the specification lacks bytes, and is never
    undefined. *)
Theorem command_refines call m l f s w :
  command_of call = Some m → rep l s f w →
  implements l (m (Some l)) (s_command call) same f s w ∧ s_command call s ≠ Unspecified.
Proof.
  intros Hm Hr. split; [|apply s_command_specified].
  apply sim_implements. by eapply refines_command_of.
Qed.

Lemma command_refines_witness :
  implements 1%positive (emq_ping (Some 1%positive)) (s_command Ping) same (sample_frame ∅)
    (sample_session [] [] []) (sample ∅ [] [] []) ∧
  s_command Ping (sample_session [] [] []) ≠ Unspecified.
Proof.
  apply (command_refines Ping (λ client, emq_ping client)); [reflexivity|].
  apply sample_rep. by repeat constructor.
Defined.

(** C24: when the strings of the call fit, the socket takes the request and the
    server answers that it executed the call, the operation returns [EMQ_STATUS_OK]: exactly the
    encoded request was sent, exactly the reply was consumed, and the error is cleared. *)
Theorem command_success call m l f s w bs tx wr rest :
  command_of call = Some m → rep l s f w → ss_noack s = 0 →
  encode 0 call = Some bs → deliver (ss_wr s) bs = (Sent, tx, wr) →
  ss_rx s = (RxByte <$> response_header_bytes (success_reply call)) ++ rest →
  ∃ w', m (Some l) w = Returns EMQ_STATUS_OK w' ∧
    rep l (set_ss_status EMQ_STATUS_OK (set_ss_rx rest (after_sending s tx wr))) f w'.
Proof.
  intros Hm Hr Hno Henc Hd Hrx. rewrite <-Hno in Henc.
  pose proof (refines_command_of l _ _ Hm) as Href.
  assert (s_command call s =
    Answer EMQ_STATUS_OK (set_ss_status EMQ_STATUS_OK (set_ss_rx rest (after_sending s tx wr))))
    as Hs.
  { rewrite (s_command_sent _ _ _ _ _ _ Henc Hd) by done.
    rewrite s_acknowledged_read by done. cbn [after_sending ss_rx set_ss_wr set_ss_tx set_ss_error].
    rewrite Hrx, take_rx_exact by apply length_response_header_bytes.
    rewrite <-(app_nil_r (response_header_bytes _)), read_response_header_bytes.
    unfold judge, success_reply. cbn [res_magic res_cmd res_status res_bodylen].
    rewrite (u8_small (call_code call)) by apply call_code_range.
    rewrite reply_check_empty by done. by rewrite !decide_False by done. }
  by apply (refines_answer _ _ _ _ _ _ _ _ Href Hr).
Qed.

Lemma command_success_witness :
  ∃ w', emq_ping (Some 1%positive)
      (sample ∅ (response_header_bytes (success_reply Ping)) [] []) = Returns EMQ_STATUS_OK w' ∧
    rep 1%positive (set_ss_status EMQ_STATUS_OK (set_ss_rx [] (after_sending
      (sample_session (response_header_bytes (success_reply Ping)) [] [])
      (default [] (encode 0 Ping)) []))) (sample_frame ∅) w'.
Proof.
  apply (command_success Ping (λ client, emq_ping client) 1%positive (sample_frame ∅)
    (sample_session (response_header_bytes (success_reply Ping)) [] [])
    (sample ∅ (response_header_bytes (success_reply Ping)) [] [])
    (default [] (encode 0 Ping)) (default [] (encode 0 Ping)) [] []);
    [reflexivity|apply sample_rep; by repeat constructor|reflexivity..].
Defined.

(** An execution that returns [EMQ_STATUS_OK]. *)
Definition returns_ok (out : outcome Z) : Prop :=
  match out with Returns r _ => r = EMQ_STATUS_OK | _ => False end.

Lemma returns_ok_spec out : returns_ok out → ∃ w', out = Returns EMQ_STATUS_OK w'.
Proof. destruct out; simpl; [intros ->; eauto|done..]. Qed.

(** C10: an operation returns [EMQ_STATUS_OK] only if the request was built and no write of it to
    the socket failed; and, unless acknowledgements are disabled, only if the next eight bytes of
    the stream are a response header with the command of the call and the status success, and it
    consumes those bytes and no others. With acknowledgements disabled it reads nothing, and
    [EMQ_STATUS_OK] tells nothing about the server. A write that the socket cuts short counts as
    none that failed, here as in the code. *)
Theorem command_no_false_success call m l f s w w' :
  command_of call = Some m → rep l s f w → m (Some l) w = Returns EMQ_STATUS_OK w' →
  ∃ bs s', encode (ss_noack s) call = Some bs ∧ (deliver (ss_wr s) bs).1.1 ≠ Failed ∧
    rep l s' f w' ∧ ss_error s' = "" ∧ ss_status s' = EMQ_STATUS_OK ∧
    (ss_noack s = 0 → ∃ reply, take_rx 8 (ss_rx s) = TkGot reply (ss_rx s') ∧
      res_magic (read_response_header reply) = EMQ_PROTOCOL_RES ∧
      res_cmd (read_response_header reply) = call_code call ∧
      res_status (read_response_header reply) = EMQ_PROTOCOL_STATUS_SUCCESS) ∧
    (ss_noack s ≠ 0 → ss_rx s' = ss_rx s).
Proof.
  intros Hm Hr Hret.
  pose proof (refines_command_of l _ _ Hm _ _ _ Hr) as Hsim. apply sim_implements in Hsim.
  unfold implements in Hsim.
  pose proof (s_command_specified call s) as Hsp. pose proof (s_command_unsent call s) as Hun.
  destruct (s_command call s) as [x s'| |] eqn:Hs; [|by destruct Hsim as [? ?]; congruence|done].
  destruct Hsim as (y & f' & w1 & Hw1 & Hr1 & [-> ->]). rewrite Hw1 in Hret. injection Hret as -> ->.
  destruct (encode (ss_noack s) call) as [bs|] eqn:Henc; [|discriminate].
  destruct (deliver (ss_wr s) bs) as [[d tx] wr] eqn:Hd. exists bs, s'.
  destruct (decide (d = Failed)) as [Hf|Hf]; [specialize (Hun Hf); discriminate|].
  rewrite (s_command_sent _ _ _ _ _ _ Henc Hd Hf) in Hs. rewrite Hd.
  destruct (decide (ss_noack s = 0)) as [Hno|Hno].
  - rewrite s_acknowledged_read in Hs by done.
    cbn [after_sending ss_rx set_ss_wr set_ss_tx set_ss_error] in Hs.
    destruct (take_rx 8 (ss_rx s)) as [reply rest| |]; [|discriminate|done].
    unfold judge in Hs. destruct (decide (reply_check _ _ = _)); [discriminate|].
    destruct (decide (res_status _ = _)) as [Hst|]; [|discriminate].
    destruct (check_values call (read_response_header reply)) as [Hok|]; [|done].
    apply reply_check_ok in Hok as [? ?]. injection Hs as <-.
    split_and!; try done. intros _. by exists reply.
  - rewrite s_acknowledged_noack in Hs by done. injection Hs as <-. by split_and!.
Qed.

(** A purge that is acknowledged, and a ping that is not to be. *)
Lemma command_no_false_success_witness :
  let call := QueuePurge [Byte.x71] in
  let rx := response_header_bytes (success_reply call) in
  (∃ w' s' reply, emq_queue_purge (Some 1%positive) [Byte.x71] (sample ∅ rx [] []) = Returns EMQ_STATUS_OK w' ∧
    rep 1%positive s' (sample_frame ∅) w' ∧ take_rx 8 (flatten [RdData rx]) = TkGot reply (ss_rx s') ∧
    res_cmd (read_response_header reply) = EMQ_PROTOCOL_CMD_QUEUE_PURGE) ∧
  ∃ w' s', emq_ping (Some 1%positive) (sample_noack [Byte.x01] [WrAccept 3]) = Returns EMQ_STATUS_OK w' ∧
    rep 1%positive s' (sample_frame ∅) w' ∧ ss_rx s' = [RxByte Byte.x01].
Proof.
  intros call rx. split.
  - pose proof (command_no_false_success call (λ client, emq_queue_purge client [Byte.x71]) 1%positive
      (sample_frame ∅) (sample_session rx [] []) (sample ∅ rx [] [])) as Hthm. cbv beta in Hthm.
    assert (returns_ok (emq_queue_purge (Some 1%positive) [Byte.x71] (sample ∅ rx [] []))) as Hok
      by (vm_compute; reflexivity).
    apply returns_ok_spec in Hok as [w' Hw].
    destruct (Hthm w' eq_refl) as (bs & s' & _ & _ & Hr & _ & _ & Hack & _);
      [apply sample_rep; by repeat constructor|exact Hw|].
    destruct (Hack eq_refl) as (reply & Ht & _ & Hcmd & _). by exists w', s', reply.
  - pose proof (command_no_false_success Ping (λ client, emq_ping client) 1%positive (sample_frame ∅)
      (sample_noack_session [Byte.x01] [WrAccept 3]) (sample_noack [Byte.x01] [WrAccept 3])) as Hthm. cbv beta in Hthm.
    assert (returns_ok (emq_ping (Some 1%positive) (sample_noack [Byte.x01] [WrAccept 3]))) as Hok
      by (vm_compute; reflexivity).
    apply returns_ok_spec in Hok as [w' Hw].
    destruct (Hthm w' eq_refl (sample_noack_rep _ _) Hw) as (bs & s' & _ & _ & Hr & _ & _ & _ & Hrx).
    exists w', s'. split; [exact Hw|]. split; [exact Hr|]. by rewrite Hrx.
Defined.

(** Without acknowledgements an operation reads nothing: it returns
    [EMQ_STATUS_OK] as soon as the socket did not refuse the request, and never waits. *)
Fact command_noack call m l f s w bs d tx wr :
  command_of call = Some m → rep l s f w → ss_noack s ≠ 0 →
  encode (ss_noack s) call = Some bs → deliver (ss_wr s) bs = (d, tx, wr) → d ≠ Failed →
  ∃ w', m (Some l) w = Returns EMQ_STATUS_OK w' ∧
    rep l (set_ss_status EMQ_STATUS_OK (after_sending s tx wr)) f w'.
Proof.
  intros Hm Hr Hno Henc Hd Hok.
  eapply (refines_answer _ _ _ _ _ _ _ _ (refines_command_of l _ _ Hm) Hr).
  by rewrite (s_command_sent _ _ _ _ _ _ Henc Hd Hok), s_acknowledged_noack.
Qed.

Lemma command_noack_witness :
  ∃ w', emq_ping (Some 1%positive) (sample_noack [] [WrAccept 3]) = Returns EMQ_STATUS_OK w' ∧
    rep 1%positive (set_ss_status EMQ_STATUS_OK (after_sending (sample_noack_session [] [WrAccept 3])
      (default [] (encode 1 Ping)) [])) (sample_frame ∅) w'.
Proof.
  apply (command_noack Ping (λ client, emq_ping client) 1%positive (sample_frame ∅)
    (sample_noack_session [] [WrAccept 3]) (sample_noack [] [WrAccept 3])
    (default [] (encode 1 Ping)) Sent);
    [reflexivity|apply sample_noack_rep|discriminate|reflexivity|reflexivity|discriminate].
Defined.

(** C34: whatever happens, the result of an operation is the status it leaves in
    the client; a success leaves no error, and a failure leaves the message of one of the error
    codes of [emq.h]. *)
Theorem command_report call m l f s w r w' :
  command_of call = Some m → rep l s f w → m (Some l) w = Returns r w' →
  ∃ s', rep l s' f w' ∧ ss_status s' = r ∧
    ((r = EMQ_STATUS_OK ∧ ss_error s' = ""%string) ∨
     (r = EMQ_STATUS_ERR ∧ ∃ e, 0 ≤ e ≤ EMQ_ERROR_NO_DATA ∧ ss_error s' = error_message e)).
Proof.
  intros Hm Hr Hret.
  pose proof (sim_implements _ _ _ _ _ _ _ (refines_command_of l _ _ Hm _ _ _ Hr)) as Hsim.
  unfold implements in Hsim.
  pose proof (s_command_specified call s) as Hsp. pose proof (s_command_unsent call s) as Hun.
  destruct (s_command call s) as [x s'| |] eqn:Hs; [|by destruct Hsim; congruence|done].
  destruct Hsim as (y & f' & w1 & Hw1 & Hr1 & [-> ->]). rewrite Hw1 in Hret. injection Hret as -> ->.
  exists s'. split; [done|]. clear Hw1 Hr1.
  destruct (encode (ss_noack s) call) as [bs|] eqn:Henc.
  2:{ injection Hun as -> ->. split; [done|]. right. split; [done|]. by exists EMQ_ERROR_DATA. }
  destruct (deliver (ss_wr s) bs) as [[d tx] wr] eqn:Hd.
  destruct (decide (d = Failed)) as [Hf|Hf].
  { specialize (Hun Hf). injection Hun as -> ->. split; [done|]. right. split; [done|].
    by exists EMQ_ERROR_WRITE. }
  rewrite (s_command_sent _ _ _ _ _ _ Henc Hd Hf) in Hs.
  destruct (decide (ss_noack s = 0)) as [Hno|Hno].
  2:{ rewrite s_acknowledged_noack in Hs by done. injection Hs as <- <-. split; [done|]. by left. }
  rewrite s_acknowledged_read in Hs by done.
  destruct (take_rx 8 _) as [reply rest|rest|]; [|injection Hs as <- <-|done].
  2:{ split; [done|]. right. split; [done|]. by exists EMQ_ERROR_READ. }
  unfold judge in Hs. repeat case_decide; injection Hs as <- <-; (split; [done|]).
  - right. split; [done|]. by exists EMQ_ERROR_RESPONSE.
  - by left.
  - right. split; [done|]. eexists. split; [apply emq_get_error_range|done].
Qed.

Lemma command_report_witness :
  match emq_ping (Some 1%positive) (sample ∅ [] [WrErr] []) with
  | Returns r w' =>
      ∃ s', rep 1%positive s' (sample_frame ∅) w' ∧ ss_status s' = r ∧
        ((r = EMQ_STATUS_OK ∧ ss_error s' = ""%string) ∨
         (r = EMQ_STATUS_ERR ∧ ∃ e, 0 ≤ e ≤ EMQ_ERROR_NO_DATA ∧ ss_error s' = error_message e))
  | _ => False
  end.
Proof.
  apply (command_report Ping (λ client, emq_ping client) 1%positive (sample_frame ∅)
    (sample_session [] [WrErr] []) (sample ∅ [] [WrErr] [])); [reflexivity| |].
  - apply sample_rep. by repeat constructor.
  - vm_compute. reflexivity.
Defined.

(** The statuses for which the library has a message. *)
Definition explained (status : Z) : Prop :=
  status ∈ [EMQ_PROTOCOL_STATUS_ERROR_PACKET; EMQ_PROTOCOL_STATUS_ERROR_COMMAND;
    EMQ_PROTOCOL_STATUS_ERROR_ACCESS; EMQ_PROTOCOL_STATUS_ERROR_MEMORY;
    EMQ_PROTOCOL_STATUS_ERROR_NOT_DECLARED; EMQ_PROTOCOL_STATUS_ERROR_NOT_FOUND;
    EMQ_PROTOCOL_STATUS_ERROR_NO_DATA].

Lemma error_of_status h :
  error_message (emq_get_error h) = ""%string ↔ ¬ explained (res_status h).
Proof.
  unfold explained, emq_get_error. repeat case_decide.
  all: split; [try discriminate|].
  all: try (intros Hn; destruct Hn;
    match goal with He : res_status _ = _ |- _ => rewrite He end;
    apply (bool_decide_unpack _); by vm_compute).
  all: try done.
  intros _ Hin. rewrite !elem_of_cons, elem_of_nil in Hin. tauto.
Qed.

(** C33: when the server answers a call with another status than success, the
    operation fails, and the client's last error is not empty exactly when the status is one of
    the seven that [emq_get_error] knows. *)
Theorem command_rejected call m l f s w bs tx wr rest status :
  command_of call = Some m → rep l s f w → ss_noack s = 0 →
  encode 0 call = Some bs → deliver (ss_wr s) bs = (Sent, tx, wr) →
  0 ≤ status < 2 ^ 8 → status ≠ EMQ_PROTOCOL_STATUS_SUCCESS →
  ss_rx s = (RxByte <$> response_header_bytes
    (mk_response_header EMQ_PROTOCOL_RES (call_code call) status 0)) ++ rest →
  ∃ s' w', m (Some l) w = Returns EMQ_STATUS_ERR w' ∧ rep l s' f w' ∧ ss_rx s' = rest ∧
    ss_status s' = EMQ_STATUS_ERR ∧ (ss_error s' ≠ ""%string ↔ explained status).
Proof.
  intros Hm Hr Hno Henc Hd Hrange Hst Hrx. rewrite <-Hno in Henc.
  set (h := mk_response_header EMQ_PROTOCOL_RES (call_code call) status 0).
  set (s' := set_ss_status EMQ_STATUS_ERR (set_ss_error (error_message (emq_get_error h))
    (set_ss_rx rest (after_sending s tx wr)))).
  assert (s_command call s = Answer EMQ_STATUS_ERR s') as Hs.
  { rewrite (s_command_sent _ _ _ _ _ _ Henc Hd) by done.
    rewrite s_acknowledged_read by done. cbn [after_sending ss_rx set_ss_wr set_ss_tx set_ss_error].
    rewrite Hrx, take_rx_exact by apply length_response_header_bytes.
    rewrite <-(app_nil_r (response_header_bytes _)), read_response_header_bytes.
    unfold judge. cbn [res_magic res_cmd res_status res_bodylen].
    rewrite (u8_small (call_code call)), (u8_small status) by (done || apply call_code_range).
    rewrite reply_check_empty by done. by rewrite !decide_False by done. }
  destruct (refines_answer _ _ _ _ _ _ _ _ (refines_command_of l _ _ Hm) Hr Hs) as (w' & ? & ?).
  exists s', w'. split_and!; try done. simpl. rewrite error_of_status. simpl.
  split; [|tauto]. intros Hn. apply dec_stable. tauto.
Qed.

Lemma command_rejected_witness :
  let rx := response_header_bytes (mk_response_header 128 11 EMQ_PROTOCOL_STATUS_ERROR 0) in
  ∃ s' w', emq_ping (Some 1%positive) (sample ∅ rx [] []) = Returns EMQ_STATUS_ERR w' ∧
    rep 1%positive s' (sample_frame ∅) w' ∧ ss_rx s' = [] ∧ ss_status s' = EMQ_STATUS_ERR ∧
    (ss_error s' ≠ ""%string ↔ explained EMQ_PROTOCOL_STATUS_ERROR).
Proof.
  intros rx.
  apply (command_rejected Ping (λ client, emq_ping client) 1%positive (sample_frame ∅)
    (sample_session rx [] []) (sample ∅ rx [] []) (default [] (encode 0 Ping))
    (default [] (encode 0 Ping)) [] []);
    [reflexivity|apply sample_rep; by repeat constructor|reflexivity..|split; [discriminate|reflexivity]|
     discriminate|reflexivity].
Defined.
