(* ===== verification/Messages.v ===== *)
(** Messages (lines 402-481 of [src/src/emq.c]) and the operations that move them between the
    client and the server: [emq_queue_push], [emq_route_push], [emq_channel_publish],
    [emq_read_message], [emq_queue_get] and [emq_queue_pop]. *)

From S2P Require Import Prelude Types Machine Lists Network Protocol Client Session Packet Commands.
From S2P Require Import Connection Sample.

(** ** Message objects *)

Definition emq_msg_create (data : ptr) (size zero_copy : Z) : M ptr :=
  msg ← malloc (mk_msg NULL size 0 0 (Some zero_copy));
  match msg with
  | None => mret NULL
  | Some _ =>
      if decide (zero_copy = 0) then
        d ← malloc (uninit size);
        modify msg (set_msg_data d);;
        match d with
        | None => free msg;; mret NULL
        | Some _ => memcpy d data size;; mret msg
        end
      else
        modify msg (set_msg_data data);;
        mret msg
  end.

Definition emq_msg_copy (msg : ptr) : M ptr :=
  new_msg ← malloc (mk_msg NULL 0 0 0 None);
  match new_msg with
  | None => mret NULL
  | Some _ =>
      m ← load msg;
      d ← malloc (uninit (msg_size m));
      store new_msg (mk_msg d (msg_size m) (msg_tag m) (msg_expire m) None);;
      match d with
      | None => free new_msg;; mret NULL
      | Some _ => memcpy d (msg_data m) (msg_size m);; mret new_msg
      end
  end.

Definition emq_msg_expire (msg : ptr) (time : Z) : M unit := modify msg (set_msg_expire time).
Definition emq_msg_data (msg : ptr) : M ptr := m ← load msg; mret (msg_data m).
Definition emq_msg_size (msg : ptr) : M Z := m ← load msg; mret (msg_size m).
Definition emq_msg_tag (msg : ptr) : M Z := m ← load msg; mret (msg_tag m).

Definition emq_msg_release (msg : ptr) : M unit :=
  m ← load msg;
  match msg_zero_copy m with
  | None => undefined Uninitialised
  | Some zero_copy =>
      (if decide (zero_copy = 0) then free (msg_data m) else mret tt);;
      free msg
  end.

(** ** Sending a message *)

(** [emq_client_writev(client, data, n)] of the request and the vectors [parts]. *)
Definition write_vectors (client : ptr) (parts : M (list (list byte))) : M Z :=
  c ← load client;
  request ← read_bytes (client_request c) (client_pos c);
  data ← parts;
  emq_client_writev client (request :: data).

(** The vectors [&msg->expire] and [msg->data]. *)
Definition expire_and_data (msg : ptr) : M (list (list byte)) :=
  m ← load msg;
  data ← read_bytes (msg_data m) (msg_size m);
  mret [le_bytes 4 (msg_expire m); data].

Definition only_data (msg : ptr) : M (list (list byte)) :=
  m ← load msg;
  data ← read_bytes (msg_data m) (msg_size m);
  mret [data].

Definition emq_queue_push (client : ptr) (name : cstring) (msg : ptr) : M Z :=
  EMQ_CLEAR_ERROR client;;
  m ← load msg;
  if decide (msg_size m < 1) then fail_with client EMQ_ERROR_DATA EMQ_STATUS_ERR else
  transmit client (emq_queue_push_request client name (4 + msg_size m))
    (write_vectors client (expire_and_data msg)) EMQ_STATUS_ERR
    (acknowledged client (empty_reply EMQ_PROTOCOL_CMD_QUEUE_PUSH) EMQ_STATUS_ERR
       (succeed client EMQ_STATUS_OK)).

Definition emq_route_push (client : ptr) (name key : cstring) (msg : ptr) : M Z :=
  EMQ_CLEAR_ERROR client;;
  m ← load msg;
  if decide (msg_size m < 1) then fail_with client EMQ_ERROR_DATA EMQ_STATUS_ERR else
  transmit client (emq_route_push_request client name key (4 + msg_size m))
    (write_vectors client (expire_and_data msg)) EMQ_STATUS_ERR
    (acknowledged client (empty_reply EMQ_PROTOCOL_CMD_ROUTE_PUSH) EMQ_STATUS_ERR
       (succeed client EMQ_STATUS_OK)).

Definition emq_channel_publish (client : ptr) (name topic : cstring) (msg : ptr) : M Z :=
  EMQ_CLEAR_ERROR client;;
  m ← load msg;
  if decide (msg_size m < 1) then fail_with client EMQ_ERROR_DATA EMQ_STATUS_ERR else
  transmit client (emq_channel_publish_request client name topic (msg_size m))
    (write_vectors client (only_data msg)) EMQ_STATUS_ERR
    (acknowledged client (empty_reply EMQ_PROTOCOL_CMD_CHANNEL_PUBLISH) EMQ_STATUS_ERR
       (succeed client EMQ_STATUS_OK)).

(** ** Receiving a message *)

Definition emq_read_message (client : ptr) (size : Z) : M ptr :=
  msg ← malloc (mk_msg NULL 0 0 0 None);
  match msg with
  | None => emq_client_set_error client EMQ_ERROR_ALLOC;; mret NULL
  | Some _ =>
      data ← malloc (uninit size);
      store msg (mk_msg data size 0 0 (Some EMQ_ZEROCOPY_OFF));;
      match data with
      | None => emq_client_set_error client EMQ_ERROR_ALLOC;; free msg;; mret NULL
      | Some _ =>
          '(ret, bytes) ← emq_client_read client size (i32 size);
          memcpy_to data bytes;;
          if decide (ret = -1) then
            emq_client_set_error client EMQ_ERROR_READ;;
            free data;; free msg;; mret NULL
          else mret msg
      end
  end.

Definition emq_read_message_tag (client : ptr) (size : Z) : M ptr :=
  '(ret, bytes) ← emq_client_read client 8 8;
  if decide (ret = -1) then mret NULL else
  msg ← emq_read_message client (u64 (size - 8));
  modify msg (set_msg_tag (le_value bytes));;
  mret msg.

(** [if ((msg = emq_read_message_tag(...)) == NULL) goto error;] and the exits. *)
Definition return_message (client : ptr) (header : protocol_response_header) : M ptr :=
  msg ← emq_read_message_tag client (res_bodylen header);
  match msg with
  | None => error_exit client NULL
  | Some _ => succeed client msg
  end.

Definition emq_queue_get (client : ptr) (name : cstring) : M ptr :=
  EMQ_CLEAR_ERROR client;;
  transmit client (emq_queue_get_request client name) (write_request client) NULL
    (expect_header client
       (λ header, emq_check_response_header_mini header EMQ_PROTOCOL_CMD_QUEUE_GET) NULL
       (return_message client)).

Definition emq_queue_pop (client : ptr) (name : cstring) (timeout : Z) : M ptr :=
  EMQ_CLEAR_ERROR client;;
  transmit client (emq_queue_pop_request client name timeout) (write_request client) NULL
    (expect_header client
       (λ header, emq_check_response_header_mini header EMQ_PROTOCOL_CMD_QUEUE_POP) NULL
       (return_message client)).

(** ** Specification *)

(** The block [p] is a message of [bs]; [m] is its header. *)
Definition msg_at (h : heap) (p : loc) (m : emq_msg) (bs : list byte) : Prop :=
  points_to h p m ∧ msg_size m = Z.of_nat (length bs) ∧
  ∃ d rest, msg_data m = Some d ∧ points_to h d ((Some <$> bs) ++ rest : buffer).

Definition s_push (call : api_call) (payload : list byte) (size : Z) : Spec Z :=
  s_put (set_ss_error "");;
  if decide (size < 1) then s_fail EMQ_ERROR_DATA EMQ_STATUS_ERR else
  s_transmit deliver_once call payload EMQ_STATUS_ERR
    (s_acknowledged (empty_reply (call_code call)) EMQ_STATUS_ERR (s_succeed EMQ_STATUS_OK)).

Definition s_error {A} (error : Z) (r : A) : Spec A :=
  s_put (set_ss_error (error_message error));; mret r.

(** A body of [size] bytes; nothing is promised when the size does not fit in an [int]. *)
Definition s_read_message (size : Z) : Spec (option (list byte)) :=
  header ← s_malloc;
  if negb header then s_error EMQ_ERROR_ALLOC None else
  data ← s_malloc;
  if negb data then s_error EMQ_ERROR_ALLOC None else
  if decide (0 ≤ size < 2 ^ 31) then
    body ← s_recv (Z.to_nat size);
    match body with
    | None => s_error EMQ_ERROR_READ None
    | Some bs => mret (Some bs)
    end
  else s_unspecified.

(** The session once a message was read: it is off the stream, two blocks hold it. *)
Definition received (rest : list rx_item) (s : session) : session :=
  allocated 2 (set_ss_rx rest s).

Lemma s_read_message_exact bs rest s :
  memory_available s → Z.of_nat (length bs) < 2 ^ 31 → ss_rx s = (RxByte <$> bs) ++ rest →
  s_read_message (Z.of_nat (length bs)) s = Answer (Some bs) (received rest s).
Proof.
  intros [H1 H2] Hlen Hs. unfold s_read_message, mbind, Spec_bind, s_malloc.
  rewrite H1. cbn [negb]. cbn [ss_mallocs set_ss_mallocs]. rewrite H2. cbn [negb].
  rewrite decide_True by lia. rewrite Nat2Z.id.
  erewrite s_recv_exact by (done || exact Hs). unfold received, allocated, set_ss_mallocs, set_ss_rx. cbn.
  by destruct (ss_mallocs s) as [|? [|??]].
Qed.

(** A tag and a body; nothing is promised when the body cannot be read. *)
Definition s_read_message_tag (size : Z) : Spec (option (Z * list byte)) :=
  tag ← s_recv 8;
  match tag with
  | None => mret None
  | Some tag =>
      body ← s_read_message (u64 (size - 8));
      match body with
      | None => s_unspecified
      | Some bs => mret (Some (le_value tag, bs))
      end
  end.

Definition s_return_message (header : protocol_response_header) : Spec (option (Z * list byte)) :=
  msg ← s_read_message_tag (res_bodylen header);
  match msg with
  | None => s_put (set_ss_status EMQ_STATUS_ERR);; mret None
  | Some _ => s_succeed msg
  end.

Definition s_fetch (call : api_call) : Spec (option (Z * list byte)) :=
  s_put (set_ss_error "");;
  s_transmit deliver call [] None
    (s_expect (λ header, emq_check_response_header_mini header (call_code call)) None
       s_return_message).

(** The message that a function returns: two new blocks. *)
Definition new_msg (f f' : frame) (y : ptr) (x : option (Z * list byte)) : Prop :=
  match x with
  | None => f' = f ∧ y = NULL
  | Some (tag, bs) => ∃ m d,
      y = Some m ∧ m ≠ d ∧ fr_heap f !! m = None ∧ fr_heap f !! d = None ∧
      f' = set_fr_heap
        (<[d := inject (Some <$> bs : buffer)]>
          (<[m := inject (mk_msg (Some d) (Z.of_nat (length bs)) tag 0 (Some EMQ_ZEROCOPY_OFF))]>
            (fr_heap f))) f
  end.

(** ** Simulation *)

Section messages.
Context (l : loc).

Lemma sim_error {A B} error f s (K : unit → M A) (r : B) Φ w :
  0 ≤ error ≤ EMQ_ERROR_NO_DATA → rep l s f w →
  (∀ s w, rep l s f w → sim l s (K tt) (mret r) Φ w) →
  sim l s (emq_client_set_error (Some l) error ≫= K) (s_error error r) Φ w.
Proof.
  intros He Hr HK. eapply sim_bind; [by apply refines_set_error|].
  intros [] [] f' s' w' Hr' [-> _]. by apply HK.
Qed.

Lemma simulates_read_message size :
  simulates l (emq_read_message (Some l) size) (s_read_message size)
    (λ f f' y x, new_msg f f' y (pair 0 <$> x)).
Proof.
  intros f s w Hr. unfold emq_read_message, s_read_message.
  eapply sim_malloc; [done| |]; cbn [negb].
  2:{ intros s1 w1 Hr1. eapply sim_error; [done|done|]. intros. by eapply sim_ret. }
  intros m s1 w1 Hm Hr1. eapply sim_malloc; [done| |]; cbn [negb].
  2:{ intros s2 w2 Hr2. eapply sim_store; [done|apply lookup_insert_eq|].
      rewrite !fr_heap_twice. simpl. rewrite insert_insert_eq.
      intros w3 Hr3. eapply sim_error; [done|done|]. intros s4 w4 Hr4.
      eapply sim_free; [done|apply lookup_insert_eq|]. rewrite !fr_heap_twice. simpl.
      rewrite delete_insert_eq, delete_id, set_fr_heap_id by done.
      intros w5 Hr5. by eapply sim_ret. }
  intros d s2 w2 Hd Hr2. simpl in Hd.
  assert (m ≠ d) by (intros ->; by rewrite lookup_insert_eq in Hd).
  rewrite lookup_insert_ne in Hd by done.
  eapply sim_store; [done|by simpl; rewrite lookup_insert_ne, lookup_insert_eq|].
  rewrite !fr_heap_twice. simpl. rewrite insert_insert_ne, insert_insert_eq by done.
  intros w3 Hr3. case_decide as Hsize; [|apply sim_unspecified].
  eapply sim_bind.
  { rewrite i32_small by lia. rewrite <-(Z2Nat.id size) at 2 by lia.
    apply sim_recv; [done|lia..]. }
  intros [ret bytes] x f4 s4 w4 Hr4 [-> Hx].
  assert (length bytes ≤ Z.to_nat size)%nat as Hlen.
  { destruct x; simpl in Hx; [|by destruct Hx]. by destruct Hx as [[= -> ->] ->]. }
  eapply sim_memcpy_to; [done|apply lookup_insert_eq| |].
  { unfold uninit. by rewrite length_replicate. }
  rewrite !fr_heap_twice. simpl. rewrite insert_insert_eq.
  intros w5 Hr5. destruct x as [bs|]; simpl in Hx.
  - destruct Hx as [[= -> ->] Hbs]. rewrite decide_False by lia. eapply sim_ret; [done|].
    exists m, d. split; [done|]. split; [done|]. split; [done|]. split; [done|].
    rewrite drop_ge by (unfold uninit; rewrite length_replicate; lia).
    rewrite app_nil_r, Hbs, Z2Nat.id by lia. done.
  - destruct Hx as [-> _]. rewrite decide_True by done.
    eapply sim_error; [done|done|]. intros s6 w6 Hr6.
    eapply sim_free; [done|apply lookup_insert_eq|]. rewrite !fr_heap_twice. simpl.
    rewrite delete_insert_id by by rewrite lookup_insert_ne. intros w7 Hr7.
    eapply sim_free; [done|apply lookup_insert_eq|]. rewrite !fr_heap_twice. simpl.
    rewrite delete_insert_id by done. rewrite ?fr_heap_twice, set_fr_heap_id.
    intros w8 Hr8. by eapply sim_ret.
Qed.

Lemma simulates_read_message_tag size :
  simulates l (emq_read_message_tag (Some l) size) (s_read_message_tag size) new_msg.
Proof.
  intros f s w Hr. eapply sim_bind; [by apply (sim_recv l 8 8)|].
  intros [ret bytes] x f1 s1 w1 Hr1 [-> Hx]. destruct x as [tag|]; simpl in Hx.
  2:{ destruct Hx as [-> _]. rewrite decide_True by done. by eapply sim_ret. }
  destruct Hx as [[= -> ->] _]. rewrite decide_False by done.
  eapply sim_bind; [by apply simulates_read_message|].
  intros y x f2 s2 w2 Hr2 Hm. destruct x as [bs|]; [|apply sim_unspecified].
  destruct Hm as (m & d & -> & Hne & Hm & Hd & ->).
  eapply sim_modify; [done|simpl; by rewrite lookup_insert_ne, lookup_insert_eq|].
  rewrite !fr_heap_twice. simpl. rewrite insert_insert_ne, insert_insert_eq by done.
  intros w3 Hr3. eapply sim_ret; [done|]. exists m, d. done.
Qed.

Lemma simulates_return_message header :
  simulates l (return_message (Some l) header) (s_return_message header) new_msg.
Proof.
  intros f s w Hr. eapply sim_bind; [by apply simulates_read_message_tag|].
  intros y x f1 s1 w1 Hr1 Hm. destruct x as [[tag bs]|]; simpl in Hm.
  - destruct Hm as (m & d & -> & Hm). eapply sim_mono.
    + apply (simulates_succeed l (Some m) (Some (tag, bs)) (λ f f' y x, f' = f ∧ y = Some m ∧ x = Some (tag, bs)));
        [done|exact Hr1].
    + intros f2 y x (-> & -> & ->). by exists m, d.
  - destruct Hm as [-> ->]. eapply sim_bind; [by apply refines_set_status|].
    intros [] [] f2 s2 w2 Hr2 [-> _]. by eapply sim_ret.
Qed.

Lemma simulates_get name :
  simulates l (emq_queue_get (Some l) name) (s_fetch (QueueGet name)) new_msg.
Proof.
  apply simulates_clear, (simulates_transmit l (QueueGet name)); [done|].
  apply simulates_expect; [done|]. apply simulates_return_message.
Qed.

Lemma simulates_pop name timeout :
  simulates l (emq_queue_pop (Some l) name timeout) (s_fetch (QueuePop name timeout)) new_msg.
Proof.
  apply simulates_clear, (simulates_transmit l (QueuePop name timeout)); [done|].
  apply simulates_expect; [done|]. apply simulates_return_message.
Qed.

(** ** Sending *)

Lemma msg_at_frame f s w p m bs : rep l s f w → msg_at (fr_heap f) p m bs → msg_at (w_heap w) p m bs.
Proof.
  intros [g Hr] (Hp & Hsize & d & rest & Hd & Hbs). unfold msg_at.
  destruct (frame_lookup _ _ _ _ _ _ _ Hr Hp) as [_ ->].
  destruct (frame_lookup _ _ _ _ _ _ _ Hr Hbs) as [_ Hd']. eauto 10.
Qed.

Lemma msg_bytes blk p m bs (Q : list byte → world → Prop) w :
  msg_at (w_heap w) p m bs → Q bs w → wp blk (read_bytes (msg_data m) (msg_size m)) Q w.
Proof. intros (_ & -> & d & rest & -> & Hbs) HQ. by eapply wp_read_bytes. Qed.

Lemma wp_expire_and_data blk p m bs (Q : list (list byte) → world → Prop) w :
  msg_at (w_heap w) p m bs → Q [le_bytes 4 (msg_expire m); bs] w →
  wp blk (expire_and_data (Some p)) Q w.
Proof.
  intros Hm HQ. apply wp_bind. eapply wp_load; [apply Hm|]. apply wp_bind.
  eapply msg_bytes; [done|]. by apply wp_ret.
Qed.

Lemma wp_only_data blk p m bs (Q : list (list byte) → world → Prop) w :
  msg_at (w_heap w) p m bs → Q [bs] w → wp blk (only_data (Some p)) Q w.
Proof.
  intros Hm HQ. apply wp_bind. eapply wp_load; [apply Hm|]. apply wp_bind.
  eapply msg_bytes; [done|]. by apply wp_ret.
Qed.

Lemma sim_write_vectors parts ps bs f s w :
  rep l s f w → pending l bs w →
  (∀ blk (Q : list (list byte) → world → Prop), Q ps w → wp blk parts Q w) →
  Z.of_nat (length (bs ++ concat ps)) ≤ MAX_RW_COUNT →
  sim l s (write_vectors (Some l) parts) (s_send deliver_once (bs ++ concat ps))
    (write_result f) w.
Proof.
  intros [g Hr] (c & q & rest & Hc & Hq & Hbs & Hpos) Hparts Hlen _. pose proof Hr as [].
  rewrite (points_to_agree _ _ _ _ Hc rep_client) in *.
  apply wp_bind. eapply wp_load; [done|]. apply wp_bind. rewrite Hq, Hpos.
  eapply wp_read_bytes; [done|done|]. apply wp_bind, Hparts.
  eapply wp_client_writev; [done..|].
  unfold s_send. rewrite rep_wr. cbn [concat].
  destruct (deliver_once (ss_wr s) _) as [[d tx] wr].
  intros y Hy. eexists _, _, f. split; [done|]. split; [by eapply rep_after_send|].
  split; [done|]. destruct d; simpl in Hy; split; try done; lia.
Qed.

Lemma sim_push call (request : emq_msg → M Z) parts ps payload p m bs f s w :
  rep l s f w → msg_at (fr_heap f) p m bs →
  (msg_size m = Z.of_nat (length bs) → request m = request_of call (Some l)) →
  (∀ blk (Q : list (list byte) → world → Prop) w,
    msg_at (w_heap w) p m bs → Q ps w → wp blk parts Q w) →
  concat ps = payload → 176 + Z.of_nat (length payload) ≤ MAX_RW_COUNT →
  sim l s
    (EMQ_CLEAR_ERROR (Some l);;
     m ← load (Some p);
     if decide (msg_size m < 1) then fail_with (Some l) EMQ_ERROR_DATA EMQ_STATUS_ERR else
     transmit (Some l) (request m) (write_vectors (Some l) parts) EMQ_STATUS_ERR
       (acknowledged (Some l) (empty_reply (call_code call)) EMQ_STATUS_ERR
          (succeed (Some l) EMQ_STATUS_OK)))
    (s_push call payload (Z.of_nat (length bs))) (same f) w.
Proof.
  intros Hr Hm Hreq Hparts <- Hlen. assert (msg_size m = Z.of_nat (length bs)) as Hsize by apply Hm.
  eapply sim_bind; [by apply refines_clear_error|]. intros [] [] f1 s1 w1 Hr1 [-> _].
  eapply sim_load; [done|apply Hm|]. rewrite <-Hsize.
  case_decide; [by apply simulates_fail|]. apply sim_transmit; [done|by apply Hreq| |done|intros _].
  - intros r w' Hr' Hp Hl. apply sim_write_vectors; [done|done| |rewrite length_app; lia].
    intros blk Q HQ. apply Hparts; [by eapply msg_at_frame|done].
  - apply simulates_acknowledged; [done|]. by apply simulates_succeed.
Qed.

(** What the three operations send after the request. *)
Definition expiring (m : emq_msg) (bs : list byte) : list byte := le_bytes 4 (msg_expire m) ++ bs.

Context (p : loc) (m : emq_msg) (bs : list byte) (f : frame) (s : session) (w : world).
Context (Hr : rep l s f w) (Hm : msg_at (fr_heap f) p m bs).
Context (Hlen : 180 + Z.of_nat (length bs) ≤ MAX_RW_COUNT).

Lemma sim_queue_push name :
  sim l s (emq_queue_push (Some l) name (Some p))
    (s_push (QueuePush name (4 + Z.of_nat (length bs))) (expiring m bs) (Z.of_nat (length bs)))
    (same f) w.
Proof.
  apply (sim_push (QueuePush name (4 + Z.of_nat (length bs)))
    (λ m, emq_queue_push_request (Some l) name (4 + msg_size m)) _
    [le_bytes 4 (msg_expire m); bs] (expiring m bs) p m bs f s w); try done.
  - by intros ->.
  - intros blk Q w'. apply wp_expire_and_data.
  - cbn [concat]. by rewrite app_nil_r.
  - unfold expiring. rewrite length_app, length_le_bytes. lia.
Qed.

Lemma sim_route_push name key :
  sim l s (emq_route_push (Some l) name key (Some p))
    (s_push (RoutePush name key (4 + Z.of_nat (length bs))) (expiring m bs)
       (Z.of_nat (length bs)))
    (same f) w.
Proof.
  apply (sim_push (RoutePush name key (4 + Z.of_nat (length bs)))
    (λ m, emq_route_push_request (Some l) name key (4 + msg_size m)) _
    [le_bytes 4 (msg_expire m); bs] (expiring m bs) p m bs f s w); try done.
  - by intros ->.
  - intros blk Q w'. apply wp_expire_and_data.
  - cbn [concat]. by rewrite app_nil_r.
  - unfold expiring. rewrite length_app, length_le_bytes. lia.
Qed.

Lemma sim_channel_publish name topic :
  sim l s (emq_channel_publish (Some l) name topic (Some p))
    (s_push (ChannelPublish name topic (Z.of_nat (length bs))) bs (Z.of_nat (length bs)))
    (same f) w.
Proof.
  apply (sim_push (ChannelPublish name topic (Z.of_nat (length bs)))
    (λ m, emq_channel_publish_request (Some l) name topic (msg_size m)) _
    [bs] bs p m bs f s w); try done.
  - by intros ->.
  - intros blk Q w'. apply wp_only_data.
  - apply app_nil_r.
  - lia.
Qed.
End messages.

(** Releasing a message that was read gives its blocks back. *)
Lemma sim_msg_release {A B} l f0 f m x s (K : unit → M A) (a : Spec B) Φ w :
  rep l s f w → new_msg f0 f m (Some x) →
  (∀ w, rep l s f0 w → sim l s (K tt) a Φ w) →
  sim l s (emq_msg_release m ≫= K) a Φ w.
Proof.
  destruct x as [tag bs]. intros Hr (p & d & -> & Hpd & Hp & Hd & ->) HK. unfold emq_msg_release.
  apply sim_assoc. eapply sim_load; [done|simpl; by rewrite lookup_insert_ne, lookup_insert_eq|].
  cbn [msg_zero_copy msg_data]. rewrite decide_True by done. apply sim_assoc.
  eapply sim_free; [done|apply lookup_insert_eq|]. rewrite fr_heap_twice. simpl.
  rewrite delete_insert_id by by rewrite lookup_insert_ne. intros w1 Hr1.
  eapply sim_free; [done|apply lookup_insert_eq|]. rewrite fr_heap_twice. simpl.
  rewrite delete_insert_id, set_fr_heap_id by done. intros w2 Hr2. by apply HK.
Qed.

(** ** The exchanges in closed form *)

(** A call that fetches a message. *)
Definition fetch_call (call : api_call) : option (ptr → M ptr) :=
  match call with
  | QueueGet name => Some (λ client, emq_queue_get client name)
  | QueuePop name timeout => Some (λ client, emq_queue_pop client name timeout)
  | _ => None
  end.

(** A call that sends a message of [size] bytes. *)
Definition push_call (call : api_call) (size : Z) : option (ptr → ptr → M Z) :=
  match call with
  | QueuePush name n => if decide (n = 4 + size)
      then Some (λ client msg, emq_queue_push client name msg) else None
  | RoutePush name key n => if decide (n = 4 + size)
      then Some (λ client msg, emq_route_push client name key msg) else None
  | ChannelPublish name topic n => if decide (n = size)
      then Some (λ client msg, emq_channel_publish client name topic msg) else None
  | _ => None
  end.

(** What follows the request: a queue message has its time to live first. *)
Definition push_payload (call : api_call) (m : emq_msg) (bs : list byte) : list byte :=
  match call with ChannelPublish _ _ _ => bs | _ => expiring m bs end.

Lemma simulates_fetch call m l :
  fetch_call call = Some m → simulates l (m (Some l)) (s_fetch call) new_msg.
Proof.
  intros Hm. destruct call; try discriminate Hm; injection Hm as <-.
  - apply simulates_get.
  - apply simulates_pop.
Qed.

Lemma sim_push_call call m l p msg bs f s w :
  push_call call (Z.of_nat (length bs)) = Some m → rep l s f w → msg_at (fr_heap f) p msg bs →
  180 + Z.of_nat (length bs) ≤ MAX_RW_COUNT →
  sim l s (m (Some l) (Some p)) (s_push call (push_payload call msg bs) (Z.of_nat (length bs)))
    (same f) w.
Proof.
  intros Hm Hr Hp Hlen. destruct call; try discriminate Hm; simpl in Hm; case_decide; try done;
    injection Hm as <-; subst.
  - by eapply sim_queue_push.
  - by eapply sim_route_push.
  - by eapply sim_channel_publish.
Qed.

Lemma s_fetch_success call s bs d tx wr tag body rest :
  ss_noack s = 0 → encode 0 call = Some bs → deliver (ss_wr s) bs = (d, tx, wr) → d ≠ Failed →
  0 ≤ tag < 2 ^ 64 → 8 + Z.of_nat (length body) < 2 ^ 31 → memory_available s →
  ss_rx s = (RxByte <$> response_header_bytes (reply_with call (8 + Z.of_nat (length body))) ++
    le_bytes 8 tag ++ body) ++ rest →
  s_fetch call s = Answer (Some (tag, body))
    (set_ss_status EMQ_STATUS_OK (received rest (after_sending s tx wr))).
Proof.
  intros Hno Henc Hd Hok Htag Hlen Hmem Hrx. rewrite <-Hno in Henc. unfold s_fetch.
  rewrite !fmap_app, <-!app_assoc in Hrx.
  rewrite (s_transmit_sent _ _ _ _ _ _ bs d tx wr); [|done|by rewrite app_nil_r|done].
  erewrite (s_expect_success _ _ _ (after_sending s tx wr) call (8 + Z.of_nat (length body)));
    [|lia| |exact Hrx].
  2:{ unfold emq_check_response_header_mini. by rewrite decide_False by (cbn; tauto). }
  unfold s_return_message, s_read_message_tag.
  unfold mbind at 1, Spec_bind at 1.
  erewrite s_recv_bind; [|apply length_le_bytes|reflexivity].
  cbn [res_bodylen reply_with].
  replace (8 + Z.of_nat (length body) - 8) with (Z.of_nat (length body)) by lia.
  rewrite u64_small by lia. unfold mbind at 1, Spec_bind at 1.
  rewrite (s_read_message_exact body rest) by (done || lia). cbn.
  rewrite le_value_bytes, Z.mod_small by (simpl; lia). done.
Qed.

Lemma s_push_success call payload size s bs d tx wr rest :
  ss_noack s = 0 → 1 ≤ size → encode 0 call = Some bs →
  deliver_once (ss_wr s) (bs ++ payload) = (d, tx, wr) → d ≠ Failed →
  ss_rx s = (RxByte <$> response_header_bytes (success_reply call)) ++ rest →
  s_push call payload size s =
    Answer EMQ_STATUS_OK (set_ss_status EMQ_STATUS_OK (set_ss_rx rest (after_sending s tx wr))).
Proof.
  intros Hno Hsize Henc Hd Hok Hrx. rewrite <-Hno in Henc. unfold s_push.
  rewrite decide_False by lia. rewrite (s_transmit_sent _ _ _ _ _ _ bs d tx wr) by done.
  by rewrite (s_acknowledged_success _ _ _ _ rest) by done.
Qed.

(** ** Message objects *)

Lemma wp_memcpy blk p q bs rest (cells : buffer) (Q : unit → world → Prop) w :
  points_to (w_heap w) q ((Some <$> bs) ++ rest : buffer) → points_to (w_heap w) p cells →
  length cells = length bs →
  Q tt (set_heap (<[p := inject (Some <$> bs : buffer)]> (w_heap w)) w) →
  wp blk (memcpy (Some p) (Some q) (Z.of_nat (length bs))) Q w.
Proof.
  intros Hq Hp Hlen HQ. apply wp_bind. eapply wp_load; [done|]. apply wp_bind.
  eapply wp_load; [done|]. rewrite length_app, length_fmap, decide_True by lia.
  rewrite Nat2Z.id, take_app_exact by apply length_fmap. rewrite drop_ge, app_nil_r by lia.
  by eapply wp_store.
Qed.

(** What [emq_msg_create] returns: nothing but [NULL], or a message of the bytes, which owns a
    copy of them unless it was asked not to copy. *)
Definition created (d : loc) (bs : list byte) (zero_copy : Z) (h : heap) (y : ptr) (h' : heap) :
    Prop :=
  match y with
  | None => h' = h
  | Some p => ∃ m, msg_at h' p m bs ∧ h !! p = None ∧ msg_tag m = 0 ∧ msg_expire m = 0 ∧
      msg_zero_copy m = Some zero_copy ∧
      if decide (zero_copy = 0)
      then ∃ c, msg_data m = Some c ∧ c ≠ p ∧ h !! c = None ∧ delete c (delete p h') = h
      else msg_data m = Some d ∧ delete p h' = h
  end.

Lemma wp_msg_create blk d bs rest zero_copy (Q : ptr → world → Prop) w :
  points_to (w_heap w) d ((Some <$> bs) ++ rest : buffer) →
  (∀ y w', created d bs zero_copy (w_heap w) y (w_heap w') →
    (hd true (w_mallocs w) = true → hd true (tail (w_mallocs w)) = true → y ≠ NULL) → Q y w') →
  wp blk (emq_msg_create (Some d) (Z.of_nat (length bs)) zero_copy) Q w.
Proof.
  intros Hd HQ. apply wp_bind, wp_malloc.
  { intros ms Hms. apply wp_ret, HQ; [done|]. by rewrite Hms. }
  intros p Hhd Hp. assert (p ≠ d) by (intros ->; congruence). case_decide as Hz.
  - apply wp_bind, wp_malloc; simpl; intros c.
    + intros Hms. apply wp_bind. eapply wp_modify; [apply lookup_insert_eq|]. simpl.
      rewrite insert_insert_eq. apply wp_bind. eapply wp_free; [apply lookup_insert_eq|]. simpl.
      rewrite delete_insert_id by done. apply wp_ret, HQ; [done|]. simpl. by rewrite Hms.
    + intros _ Hc. assert (c ≠ p) by (intros ->; by rewrite lookup_insert_eq in Hc).
      rewrite lookup_insert_ne in Hc by done. assert (c ≠ d) by (intros ->; congruence).
      apply wp_bind. eapply wp_modify; [simpl; by rewrite lookup_insert_ne, lookup_insert_eq|].
      simpl. rewrite (insert_insert_ne _ p c), insert_insert_eq by done. apply wp_bind.
      eapply wp_memcpy.
      * simpl. rewrite !lookup_insert_ne by done. exact Hd.
      * simpl. apply lookup_insert_eq.
      * unfold uninit. rewrite length_replicate. lia.
      * simpl. rewrite insert_insert_eq. apply wp_ret, HQ; [|done]. simpl. eexists.
        split; [split; [by rewrite lookup_insert_ne, lookup_insert_eq|]|].
        { split; [done|]. exists c, []. split; [done|]. rewrite app_nil_r. apply lookup_insert_eq. }
        rewrite Hz. do 4 (split; [done|]). exists c. do 3 (split; [done|]).
        rewrite (delete_insert_ne _ p c), delete_insert_id, delete_insert_id; try done.
        by rewrite lookup_delete_ne, lookup_insert_ne.
  - apply wp_bind. eapply wp_modify; [apply lookup_insert_eq|]. simpl. rewrite insert_insert_eq.
    apply wp_ret, HQ; [|done]. simpl. eexists.
    split; [split; [apply lookup_insert_eq|]|].
    { split; [done|]. exists d, rest. split; [done|]. by rewrite lookup_insert_ne. }
    do 4 (split; [done|]). rewrite decide_False by done. split; [done|].
    by rewrite delete_insert_id.
Qed.

Lemma wp_msg_release blk d bs zero_copy p h (Q : unit → world → Prop) w :
  created d bs zero_copy h (Some p) (w_heap w) → (∀ w', w_heap w' = h → Q tt w') →
  wp blk (emq_msg_release (Some p)) Q w.
Proof.
  intros (m & (Hp & Hsize & c & rest & Hc & Hbs) & Hfree & _ & _ & Hzc & Hm) HQ.
  apply wp_bind. eapply wp_load; [done|]. rewrite Hzc. apply wp_bind. case_decide.
  - destruct Hm as (c' & Hc' & Hne & _ & Hh). assert (c' = c) as -> by congruence. rewrite Hc.
    eapply wp_free; [done|]. eapply wp_free; [simpl; by rewrite lookup_delete_ne|].
    apply HQ. simpl. by rewrite delete_delete.
  - destruct Hm as [_ Hh]. apply wp_ret. eapply wp_free; [done|]. by apply HQ.
Qed.

Lemma wp_msg_copy blk p m bs (Q : ptr → world → Prop) w :
  msg_at (w_heap w) p m bs → hd true (w_mallocs w) = true → hd true (tail (w_mallocs w)) = true →
  (∀ q c w', w_heap w !! q = None → w_heap w !! c = None →
    msg_at (w_heap w') q (mk_msg (Some c) (msg_size m) (msg_tag m) (msg_expire m) None) bs →
    Q (Some q) w') →
  wp blk (emq_msg_copy (Some p)) Q w.
Proof.
  intros (Hp & Hsize & d & rest & Hd & Hbs) Hm1 Hm2 HQ. apply wp_bind, wp_malloc.
  { intros ms Hms. by rewrite Hms in Hm1. }
  intros q _ Hq. assert (q ≠ p) by (intros ->; congruence). assert (q ≠ d) by (intros ->; congruence).
  apply wp_bind. eapply wp_load; [simpl; by rewrite lookup_insert_ne|].
  apply wp_bind, wp_malloc; simpl.
  { intros ms Hms. by rewrite Hms in Hm2. }
  intros c _ Hc. assert (c ≠ q) by (intros ->; by rewrite lookup_insert_eq in Hc).
  rewrite lookup_insert_ne in Hc by done. assert (c ≠ d) by (intros ->; congruence).
  apply wp_bind. eapply wp_store; [simpl; by rewrite lookup_insert_ne, lookup_insert_eq|]. simpl.
  apply wp_bind. rewrite Hd, Hsize. eapply wp_memcpy.
  - simpl. rewrite !lookup_insert_ne by done. exact Hbs.
  - simpl. rewrite lookup_insert_ne by done. apply lookup_insert_eq.
  - unfold uninit. rewrite length_replicate. lia.
  - simpl. apply wp_ret, (HQ q c); [done|done|]. split.
    { simpl. rewrite lookup_insert_ne, lookup_insert_eq by done. by rewrite Hsize. }
    split; [done|]. exists c, []. split; [done|]. rewrite app_nil_r. apply lookup_insert_eq.
Qed.

(** ** Theorems *)

(** Fact: when the server answers with a tag and a body and memory is available,
    [emq_queue_get] and [emq_queue_pop] return a message with that tag and that body (any bytes
    at all), having sent the request and consumed exactly the reply. *)
Theorem fetch_success call m l f s w bs d tx wr tag body rest :
  fetch_call call = Some m → rep l s f w → ss_noack s = 0 → encode 0 call = Some bs →
  deliver (ss_wr s) bs = (d, tx, wr) → d ≠ Failed →
  0 ≤ tag < 2 ^ 64 → 8 + Z.of_nat (length body) < 2 ^ 31 → memory_available s →
  ss_rx s = (RxByte <$> response_header_bytes (reply_with call (8 + Z.of_nat (length body))) ++
    le_bytes 8 tag ++ body) ++ rest →
  ∃ p msg f' w', m (Some l) w = Returns (Some p) w' ∧ msg_at (fr_heap f') p msg body ∧
    msg_tag msg = tag ∧ fr_heap f ⊆ fr_heap f' ∧
    rep l (set_ss_status EMQ_STATUS_OK (received rest (after_sending s tx wr))) f' w'.
Proof.
  intros Hm Hr Hno Henc Hd Hok Htag Hlen Hmem Hrx.
  pose proof (sim_implements _ _ _ _ _ _ _ (simulates_fetch _ _ l Hm _ _ _ Hr)) as Hi.
  unfold implements in Hi. erewrite s_fetch_success in Hi by eassumption.
  destruct Hi as (y & f' & w' & Hw & Hr' & p & c & -> & Hne & Hp & Hc & ->).
  eexists p, _, _, w'. split; [done|]. split_and!; [| | |exact Hr'].
  - split; [by simpl; rewrite lookup_insert_ne, lookup_insert_eq|]. split; [done|].
    exists c, []. split; [done|]. simpl. rewrite app_nil_r. apply lookup_insert_eq.
  - done.
  - simpl. etrans; apply insert_subseteq; [exact Hp|]. by rewrite lookup_insert_ne.
Qed.

Lemma fetch_success_witness :
  let call := QueuePop [Byte.x71] 10 in
  let body := [Byte.x00; Byte.xff] in
  let rx := response_header_bytes (reply_with call 10) ++ le_bytes 8 7 ++ body in
  ∃ p msg f' w', emq_queue_pop (Some 1%positive) [Byte.x71] 10 (sample ∅ rx [] []) =
      Returns (Some p) w' ∧
    msg_at (fr_heap f') p msg body ∧ msg_tag msg = 7 ∧ fr_heap (sample_frame ∅) ⊆ fr_heap f' ∧
    rep 1%positive (set_ss_status EMQ_STATUS_OK
      (received [] (after_sending (sample_session rx [] []) (default [] (encode 0 call)) []))) f' w'.
Proof.
  intros call body rx.
  refine (fetch_success call (λ client, emq_queue_pop client [Byte.x71] 10) 1%positive
    (sample_frame ∅) (sample_session rx [] []) (sample ∅ rx [] []) (default [] (encode 0 call)) Sent
    (default [] (encode 0 call)) [] 7 body [] eq_refl _ eq_refl eq_refl eq_refl _ _ _ _ eq_refl);
    [apply sample_rep; by repeat constructor|discriminate|lia|simpl; lia|split; reflexivity].
Defined.

(** C6: [emq_queue_push], [emq_route_push] and [emq_channel_publish], for a message that one
    [writev] can take with its request (180 bytes less than [MAX_RW_COUNT]), do what the
    specification [s_push] says: an empty message is refused, otherwise one gather-write hands
    over the request followed by the time to live (not for a channel) and the bytes of the
    message, and the acknowledgement is judged as for any command; the message is not changed. *)
Theorem push_refines call m l p msg bs f s w :
  push_call call (Z.of_nat (length bs)) = Some m → rep l s f w → msg_at (fr_heap f) p msg bs →
  180 + Z.of_nat (length bs) ≤ MAX_RW_COUNT →
  ends_as l (m (Some l) (Some p))
    (s_push call (push_payload call msg bs) (Z.of_nat (length bs)) s) f w.
Proof.
  intros Hm Hr Hp Hlen.
  pose proof (sim_implements _ _ _ (same) _ _ _ (sim_push_call _ _ _ _ _ _ _ _ _ Hm Hr Hp Hlen)) as Hi.
  unfold implements, same in Hi. unfold ends_as.
  destruct (s_push _ _ _ s) as [r s'| |]; [|done|done].
  destruct Hi as (y & f' & w' & Hw & Hr' & -> & ->). eauto.
Qed.

Lemma push_refines_witness :
  let msg := mk_msg (Some 6%positive) 2 0 9 (Some 0) in
  let h : heap := <[5%positive := inject msg]>
    {[6%positive := inject (Some <$> [Byte.x41; Byte.x42] : buffer)]} in
  ends_as 1%positive (emq_route_push (Some 1%positive) [Byte.x72] [Byte.x6b] (Some 5%positive))
    (s_push (RoutePush [Byte.x72] [Byte.x6b] 6) (le_bytes 4 9 ++ [Byte.x41; Byte.x42]) 2
      (sample_session [] [WrIntr] [])) (sample_frame h) (sample h [] [WrIntr] []).
Proof.
  intros msg h.
  refine (push_refines (RoutePush [Byte.x72] [Byte.x6b] 6)
    (λ client msg, emq_route_push client [Byte.x72] [Byte.x6b] msg)
    1%positive 5%positive msg [Byte.x41; Byte.x42] (sample_frame h) (sample_session [] [WrIntr] [])
    (sample h [] [WrIntr] []) eq_refl _ _ _).
  - apply sample_rep. by repeat constructor.
  - split; [reflexivity|]. split; [reflexivity|]. exists 6%positive, []. split; reflexivity.
  - apply Z.leb_le. reflexivity.
Defined.

(** Fact: when the socket takes the message whole and the server acknowledges, the
    bytes that went out are the encoded request, the time to live and the message. *)
Theorem push_success call m l p msg bs f s w req tx wr rest :
  push_call call (Z.of_nat (length bs)) = Some m → rep l s f w → msg_at (fr_heap f) p msg bs →
  180 + Z.of_nat (length bs) ≤ MAX_RW_COUNT → bs ≠ [] → ss_noack s = 0 →
  encode 0 call = Some req →
  deliver_once (ss_wr s) (req ++ push_payload call msg bs) = (Sent, tx, wr) →
  ss_rx s = (RxByte <$> response_header_bytes (success_reply call)) ++ rest →
  ∃ w', m (Some l) (Some p) w = Returns EMQ_STATUS_OK w' ∧
    rep l (set_ss_status EMQ_STATUS_OK
      (set_ss_rx rest (after_sending s (req ++ push_payload call msg bs) wr))) f w'.
Proof.
  intros Hm Hr Hp Hlen Hbs Hno Henc Hd Hrx.
  pose proof (deliver_once_prefix (ss_wr s) (req ++ push_payload call msg bs)) as Htx.
  rewrite Hd in Htx. destruct Htx as [_ Htx]. specialize (Htx eq_refl). subst tx.
  pose proof (sim_implements _ _ _ (same) _ _ _ (sim_push_call _ _ _ _ _ _ _ _ _ Hm Hr Hp Hlen)) as Hi.
  unfold implements, same in Hi.
  erewrite s_push_success in Hi; [| |destruct bs; [done|simpl; lia]|..]; [|eassumption..|done|done].
  destruct Hi as (y & f' & w' & Hw & Hr' & -> & ->). eauto.
Qed.

Lemma push_success_witness :
  let msg := mk_msg (Some 6%positive) 2 0 9 (Some 0) in
  let h : heap := <[5%positive := inject msg]>
    {[6%positive := inject (Some <$> [Byte.x41; Byte.x42] : buffer)]} in
  let call := QueuePush [Byte.x71] 6 in
  let rx := response_header_bytes (success_reply call) in
  ∃ w', emq_queue_push (Some 1%positive) [Byte.x71] (Some 5%positive) (sample h rx [] []) =
      Returns EMQ_STATUS_OK w' ∧
    rep 1%positive (set_ss_status EMQ_STATUS_OK (set_ss_rx [] (after_sending
      (sample_session rx [] [])
      (default [] (encode 0 call) ++ le_bytes 4 9 ++ [Byte.x41; Byte.x42]) [])))
      (sample_frame h) w'.
Proof.
  intros msg h call rx.
  refine (push_success call (λ client msg, emq_queue_push client [Byte.x71] msg)
    1%positive 5%positive msg [Byte.x41; Byte.x42] (sample_frame h) (sample_session rx [] [])
    (sample h rx [] []) (default [] (encode 0 call)) _ [] [] eq_refl _ _ _ _ eq_refl eq_refl eq_refl
    eq_refl).
  - apply sample_rep. by repeat constructor.
  - split; [reflexivity|]. split; [reflexivity|]. exists 6%positive, []. split; reflexivity.
  - apply Z.leb_le. reflexivity.
  - discriminate.
Defined.

(** Fact: [emq_msg_create] makes a message of the bytes it is given, which owns
    a copy of them unless it was asked not to copy, or returns [NULL], only when an allocation
    fails and then without a leak; and [emq_msg_release] gives back exactly what it allocated. *)
Theorem msg_create_release d bs rest zero_copy w :
  points_to (w_heap w) d ((Some <$> bs) ++ rest : buffer) →
  ∃ y w1, emq_msg_create (Some d) (Z.of_nat (length bs)) zero_copy w = Returns y w1 ∧
    created d bs zero_copy (w_heap w) y (w_heap w1) ∧
    (hd true (w_mallocs w) = true → hd true (tail (w_mallocs w)) = true → y ≠ NULL) ∧
    (y ≠ NULL → ∃ w2, emq_msg_release y w1 = Returns tt w2 ∧ w_heap w2 = w_heap w).
Proof.
  intros Hd.
  assert (wp False (emq_msg_create (Some d) (Z.of_nat (length bs)) zero_copy) (λ y w',
    created d bs zero_copy (w_heap w) y (w_heap w') ∧
    (hd true (w_mallocs w) = true → hd true (tail (w_mallocs w)) = true → y ≠ NULL)) w) as Hw.
  { eapply wp_msg_create; [done|]. auto. }
  apply wp_returns in Hw as (y & w1 & Hw & Hc & Hy). exists y, w1. split_and!; [done..|].
  destruct y as [p|]; [intros _|done].
  assert (wp False (emq_msg_release (Some p)) (λ _ w', w_heap w' = w_heap w) w1) as Hw2.
  { eapply wp_msg_release; [done|]. auto. }
  apply wp_returns in Hw2 as ([] & w2 & Hw2 & Hh). eauto.
Qed.

Lemma msg_create_release_witness :
  let w := mk_world {[1%positive := inject (Some <$> [Byte.x41] : buffer)]} [true; false] ∅ [] [] in
  ∃ y w1, emq_msg_create (Some 1%positive) 1 0 w = Returns y w1 ∧
    created 1%positive [Byte.x41] 0 (w_heap w) y (w_heap w1) ∧
    (hd true (w_mallocs w) = true → hd true (tail (w_mallocs w)) = true → y ≠ NULL) ∧
    (y ≠ NULL → ∃ w2, emq_msg_release y w1 = Returns tt w2 ∧ w_heap w2 = w_heap w).
Proof.
  intros w. exact (msg_create_release 1%positive [Byte.x41] [] 0 w eq_refl).
Defined.

(** Fact: [emq_msg_copy] copies the bytes, the tag and the time to live, but
    leaves [zero_copy] unset: releasing the copy reads an uninitialised field. *)
Theorem msg_copy_unreleasable p m bs w :
  msg_at (w_heap w) p m bs → hd true (w_mallocs w) = true → hd true (tail (w_mallocs w)) = true →
  ∃ q c w', emq_msg_copy (Some p) w = Returns (Some q) w' ∧
    msg_at (w_heap w') q (mk_msg (Some c) (msg_size m) (msg_tag m) (msg_expire m) None) bs ∧
    Some c ≠ msg_data m ∧ emq_msg_release (Some q) w' = Faults Uninitialised.
Proof.
  intros Hm Hm1 Hm2.
  assert (wp False (emq_msg_copy (Some p)) (λ y w', ∃ q c, y = Some q ∧ w_heap w !! c = None ∧
    msg_at (w_heap w') q (mk_msg (Some c) (msg_size m) (msg_tag m) (msg_expire m) None) bs) w) as Hw.
  { eapply wp_msg_copy; [done..|]. eauto 10. }
  apply wp_returns in Hw as (y & w' & Hw & q & c & -> & Hc & Hq).
  exists q, c, w'. split_and!; [done|done| |].
  - destruct Hm as (_ & _ & d & rest & -> & Hd). intros [= ->]. congruence.
  - destruct Hq as [Hq _]. unfold emq_msg_release, mbind, M_bind, load. by rewrite Hq.
Qed.

Lemma msg_copy_unreleasable_witness :
  let m := mk_msg (Some 2%positive) 1 7 9 (Some 0) in
  let w := mk_world (<[1%positive := inject m]> {[2%positive := inject (Some <$> [Byte.x41] : buffer)]})
    [] ∅ [] [] in
  ∃ q c w', emq_msg_copy (Some 1%positive) w = Returns (Some q) w' ∧
    msg_at (w_heap w') q (mk_msg (Some c) 1 7 9 None) [Byte.x41] ∧
    Some c ≠ msg_data m ∧ emq_msg_release (Some q) w' = Faults Uninitialised.
Proof.
  intros m w. refine (msg_copy_unreleasable 1%positive m [Byte.x41] w _ eq_refl eq_refl).
  split; [reflexivity|]. split; [reflexivity|]. exists 2%positive, []. split; reflexivity.
Defined.

(** C30: when the stream fails after the tag of a message and before the
    end of its body, [emq_read_message_tag] stores the tag through the [NULL] that
    [emq_read_message] returned. *)
Theorem read_message_tag_crash l f s w size tag rest rest' :
  rep l s f w → 8 ≤ size < 2 ^ 31 → length tag = 8%nat →
  ss_rx s = (RxByte <$> tag) ++ rest → take_rx (Z.to_nat (size - 8)) rest = TkFail rest' →
  emq_read_message_tag (Some l) size w = Faults NullPointer.
Proof.
  intros Hr Hsize Htag Hrx Ht. unfold emq_read_message_tag.
  assert (implements l (emq_client_read (Some l) 8 8) (s_recv 8)
    (λ f f' y x, f' = f ∧ recv_result 8 y x) f s w) as Hi.
  { apply sim_implements. by apply (sim_recv l 8 8). }
  unfold implements in Hi. rewrite (s_recv_exact _ _ _ _ Htag Hrx) in Hi.
  destruct Hi as ([ret bytes] & f1 & w1 & Hw1 & Hr1 & -> & Hx). simpl in Hx.
  destruct Hx as [[= -> ->] _].
  unfold mbind, M_bind at 1. rewrite Hw1. rewrite decide_False by lia.
  pose proof (sim_implements _ _ _ _ _ _ _ (simulates_read_message l (u64 (size - 8)) _ _ _ Hr1)) as Hm.
  rewrite u64_small in Hm |- * by lia. unfold implements in Hm.
  assert (∃ s', s_read_message (size - 8) (set_ss_rx rest s) = Answer None s') as [s' Hs].
  { unfold s_read_message, mbind, Spec_bind, s_malloc.
    destruct (hd true _); cbn [negb]; [|by eexists]. destruct (hd true _); cbn [negb]; [|by eexists].
    rewrite decide_True by lia. unfold s_recv. cbn [ss_rx set_ss_mallocs set_ss_rx].
    rewrite Ht. by eexists. }
  rewrite Hs in Hm. destruct Hm as (y & f' & w2 & Hw2 & _ & _ & ->).
  unfold M_bind. by rewrite Hw2.
Qed.

Lemma read_message_tag_crash_witness :
  emq_read_message_tag (Some 1%positive) 9
    (mk_world (sample_heap ∅) [] {[3 := mk_sock [RdData (le_bytes 8 1); RdErr] [] []]} [] []) =
  Faults NullPointer.
Proof.
  refine (read_message_tag_crash 1%positive (sample_frame ∅)
    (new_session (mk_sock [RdData (le_bytes 8 1); RdErr] [] []) []) _ 9 (le_bytes 8 1) [RxFail] []
    _ _ eq_refl eq_refl eq_refl); [|lia].
  apply sample_sock_rep. by repeat constructor.
Defined.
