(* ===== verification/Queries.v ===== *)
(** The queries of [src/src/emq.c] that read a body of fixed size: [emq_queue_exist],
    [emq_route_exist], [emq_channel_exist], [emq_queue_size] and [emq_stat]. *)

From S2P Require Import Prelude Types Machine Lists Network Protocol Client Session Packet Commands.
From S2P Require Import Connection Sample.

(** ** Operations *)

(** [emq_client_read(client, (char* )&response.body, sizeof(response.body))] of one [uint32_t],
    returned as an [int]. *)
Definition read_word (client : ptr) (r : Z) : M Z :=
  '(ret, bytes) ← emq_client_read client 4 4;
  if decide (ret = -1) then fail_with client EMQ_ERROR_READ r else
  succeed client (i32 (le_value bytes)).

Definition query (client : ptr) (request : M Z) (cmd bodylen r : Z) : M Z :=
  EMQ_CLEAR_ERROR client;;
  transmit client request (write_request client) r
    (expect_header client (λ header, emq_check_response_header header cmd bodylen) r
       (λ _, read_word client r)).

Definition emq_queue_exist (client : ptr) (name : cstring) : M Z :=
  query client (emq_queue_exist_request client name) EMQ_PROTOCOL_CMD_QUEUE_EXIST
    (Z.of_nat (sizeof protocol_response_queue_exist)) 0.

Definition emq_queue_size (client : ptr) (name : cstring) : M Z :=
  query client (emq_queue_size_request client name) EMQ_PROTOCOL_CMD_QUEUE_SIZE
    (Z.of_nat (sizeof protocol_response_queue_size)) (-1).

Definition emq_route_exist (client : ptr) (name : cstring) : M Z :=
  query client (emq_route_exist_request client name) EMQ_PROTOCOL_CMD_ROUTE_EXIST
    (Z.of_nat (sizeof protocol_response_route_exist)) 0.

Definition emq_channel_exist (client : ptr) (name : cstring) : M Z :=
  query client (emq_channel_exist_request client name) EMQ_PROTOCOL_CMD_CHANNEL_EXIST
    (Z.of_nat (sizeof protocol_response_channel_exist)) 0.

(** The size of a whole [protocol_response_stat]. *)
Definition sizeof_stat : nat := (sizeof_header + sizeof protocol_response_stat)%nat.

(** [emq_stat(client, status)]: its result, and the bytes it stored in [*status] if it did. *)
Definition emq_stat (client : ptr) : M (Z * option (list byte)) :=
  EMQ_CLEAR_ERROR client;;
  transmit client (emq_stat_request client) (write_request client) (EMQ_STATUS_ERR, None) (
    '(ret, bytes) ← emq_client_read client (Z.of_nat sizeof_stat) (Z.of_nat sizeof_stat);
    if decide (ret = -1) then fail_with client EMQ_ERROR_READ (EMQ_STATUS_ERR, None) else
    let header := read_response_header bytes in
    examine client (λ header, emq_check_response_header header EMQ_PROTOCOL_CMD_STAT
        (Z.of_nat (sizeof protocol_response_stat))) header (EMQ_STATUS_ERR, None)
      (succeed client
         (EMQ_STATUS_OK, Some (take (sizeof emq_status) (drop sizeof_header bytes))))).

(** ** Specification *)

Definition s_query (call : api_call) (r : Z) : Spec Z :=
  s_put (set_ss_error "");;
  s_transmit deliver call [] r
    (s_expect (λ header, emq_check_response_header header (call_code call) 4) r (λ _,
       word ← s_recv 4;
       match word with
       | None => s_fail EMQ_ERROR_READ r
       | Some bytes => s_succeed (i32 (le_value bytes))
       end)).

Definition s_stat : Spec (Z * option (list byte)) :=
  s_put (set_ss_error "");;
  s_transmit deliver Stat [] (EMQ_STATUS_ERR, None) (
    reply ← s_recv sizeof_stat;
    match reply with
    | None => s_fail EMQ_ERROR_READ (EMQ_STATUS_ERR, None)
    | Some bytes =>
        s_examine (λ header, emq_check_response_header header EMQ_PROTOCOL_CMD_STAT 55)
          (read_response_header bytes) (EMQ_STATUS_ERR, None)
          (s_succeed (EMQ_STATUS_OK, Some (drop sizeof_header bytes)))
    end).

(** ** Refinement *)

Definition query_of (call : api_call) : option ((ptr → M Z) * Z) :=
  match call with
  | QueueExist name => Some (λ client, emq_queue_exist client name, 0)
  | QueueSize name => Some (λ client, emq_queue_size client name, -1)
  | RouteExist name => Some (λ client, emq_route_exist client name, 0)
  | ChannelExist name => Some (λ client, emq_channel_exist client name, 0)
  | _ => None
  end.

Section queries.
Context (l : loc).

Lemma refines_query call r :
  refines l (query (Some l) (request_of call (Some l)) (call_code call) 4 r) (s_query call r).
Proof.
  apply simulates_clear, simulates_transmit; [done|]. apply simulates_expect; [done|].
  intros _ f s w Hr. eapply sim_bind; [by apply (sim_recv l 4 4)|].
  intros [ret bytes] x f' s' w' Hr' [-> Hx]. destruct x as [bs|]; simpl in Hx.
  - destruct Hx as [[= -> ->] _]. rewrite decide_False by done. by apply simulates_succeed.
  - destruct Hx as [-> _]. rewrite decide_True by done. by apply simulates_fail.
Qed.

Lemma refines_query_of call m r :
  query_of call = Some (m, r) → refines l (m (Some l)) (s_query call r).
Proof.
  intros Hm. destruct call; try done; injection Hm as <- <-;
    match goal with |- refines _ _ (s_query ?c _) => exact (refines_query c _) end.
Qed.

Lemma refines_stat : refines l (emq_stat (Some l)) s_stat.
Proof.
  apply simulates_clear, (simulates_transmit l Stat); [done|].
  intros f s w Hr. eapply sim_bind; [by apply (sim_recv l _ sizeof_stat)|].
  intros [ret bytes] x f' s' w' Hr' [-> Hx]. destruct x as [bs|]; simpl in Hx.
  - destruct Hx as [[= -> ->] Hlen]. rewrite decide_False by done.
    rewrite take_ge by (by rewrite length_drop, Hlen).
    apply simulates_examine; [done| |done]. by apply simulates_succeed.
  - destruct Hx as [-> _]. rewrite decide_True by done. by apply simulates_fail.
Qed.
End queries.

(** ** Theorems *)

(** C35: [emq_queue_exist], [emq_queue_size], [emq_route_exist] and
    [emq_channel_exist] do exactly what the specification [s_query] says on every branch, and
    [emq_stat] what [s_stat] says; like the listings and unlike the commands, they wait for the
    reply whether or not acknowledgements are enabled. *)
Theorem query_refines l f s w :
  rep l s f w →
  (∀ call m r, query_of call = Some (m, r) → ends_as l (m (Some l)) (s_query call r s) f w) ∧
  ends_as l (emq_stat (Some l)) (s_stat s) f w.
Proof.
  intros Hr. split.
  - intros call m r Hm. eapply refines_outcome; [by apply refines_query_of|done].
  - eapply refines_outcome; [apply refines_stat|done].
Qed.

Lemma query_refines_witness :
  (∀ call m r, query_of call = Some (m, r) →
    ends_as 1%positive (m (Some 1%positive)) (s_query call r (sample_noack_session [] []))
      (sample_frame ∅) (sample_noack [] [])) ∧
  ends_as 1%positive (emq_stat (Some 1%positive)) (s_stat (sample_noack_session [] []))
    (sample_frame ∅) (sample_noack [] []).
Proof.
  exact (query_refines 1%positive (sample_frame ∅) (sample_noack_session [] []) (sample_noack [] [])
    (sample_noack_rep [] [])).
Defined.

(** C36: when the server answers with the word [v], a query returns [v] as an
    [int]: the word itself below 2^31, a negative number from there on, so that the size
    2^32-1 of a queue reads as the -1 of a failure. *)
Theorem query_success call m r l f s w bs d tx wr v rest :
  query_of call = Some (m, r) → rep l s f w → encode (ss_noack s) call = Some bs →
  deliver (ss_wr s) bs = (d, tx, wr) → d ≠ Failed → 0 ≤ v < 2 ^ 32 →
  ss_rx s = (RxByte <$> response_header_bytes (reply_with call 4) ++ le_bytes 4 v) ++ rest →
  ∃ w', m (Some l) w = Returns (if decide (v < 2 ^ 31) then v else v - 2 ^ 32) w' ∧
    rep l (set_ss_status EMQ_STATUS_OK (set_ss_rx rest (after_sending s tx wr))) f w'.
Proof.
  intros Hm Hr Henc Hd Hok Hv Hrx.
  refine (refines_answer _ _ _ _ _ _ _ _ (refines_query_of l _ _ _ Hm) Hr _).
  unfold s_query. rewrite fmap_app, <-app_assoc in Hrx.
  rewrite (s_transmit_sent _ _ _ _ _ _ bs d tx wr); [|done|by rewrite app_nil_r|done].
  erewrite (s_expect_success _ _ _ (after_sending s tx wr) call 4); [|done| |exact Hrx].
  2:{ unfold emq_check_response_header. by rewrite decide_False by (cbn; tauto). }
  erewrite s_recv_bind; [|apply length_le_bytes|reflexivity].
  unfold s_succeed, s_put, mbind, Spec_bind. cbn [mret Spec_ret].
  rewrite le_value_bytes, Z.mod_small by (simpl; lia).
  replace (i32 v) with (if decide (v < 2 ^ 31) then v else v - 2 ^ 32); [done|].
  case_decide; [by rewrite i32_small by lia|]. by rewrite i32_large by lia.
Qed.

Lemma query_success_witness :
  let call := QueueSize [Byte.x71] in
  let rx := response_header_bytes (reply_with call 4) ++ le_bytes 4 4294967295 in
  ∃ w', emq_queue_size (Some 1%positive) [Byte.x71] (sample ∅ rx [] []) = Returns (-1) w' ∧
    rep 1%positive (set_ss_status EMQ_STATUS_OK (set_ss_rx []
      (after_sending (sample_session rx [] []) (default [] (encode 0 call)) []))) (sample_frame ∅) w'.
Proof.
  intros call rx.
  refine (query_success call (λ client, emq_queue_size client [Byte.x71]) (-1) 1%positive
    (sample_frame ∅) (sample_session rx [] []) (sample ∅ rx [] []) (default [] (encode 0 call)) Sent
    (default [] (encode 0 call)) [] 4294967295 [] eq_refl _ eq_refl eq_refl _ _ eq_refl);
    [apply sample_rep; by repeat constructor|discriminate|lia].
Defined.

(** Fact: when the server answers with the 55 bytes of a [emq_status], [emq_stat]
    stores exactly those bytes and returns [EMQ_STATUS_OK]; it stores nothing otherwise. *)
Theorem stat_success l f s w bs d tx wr status rest :
  rep l s f w → encode (ss_noack s) Stat = Some bs →
  deliver (ss_wr s) bs = (d, tx, wr) → d ≠ Failed → length status = sizeof emq_status →
  ss_rx s = (RxByte <$> response_header_bytes
    (reply_with Stat (Z.of_nat (sizeof emq_status))) ++ status) ++ rest →
  ∃ w', emq_stat (Some l) w = Returns (EMQ_STATUS_OK, Some status) w' ∧
    rep l (set_ss_status EMQ_STATUS_OK (set_ss_rx rest (after_sending s tx wr))) f w'.
Proof.
  intros Hr Henc Hd Hok Hlen Hrx.
  refine (refines_answer _ _ _ _ _ _ _ _ (refines_stat l) Hr _).
  unfold s_stat.
  rewrite (s_transmit_sent _ _ _ _ _ _ bs d tx wr); [|done|by rewrite app_nil_r|done].
  erewrite s_recv_bind; [| |exact Hrx].
  2:{ by rewrite length_app, length_response_header_bytes, Hlen. }
  rewrite read_response_header_bytes.
  rewrite (drop_app_exact (response_header_bytes (reply_with Stat 55)))
    by apply length_response_header_bytes. reflexivity.
Qed.

Lemma stat_success_witness :
  let status := replicate (sizeof emq_status) Byte.x01 in
  let rx := response_header_bytes (reply_with Stat 55) ++ status in
  ∃ w', emq_stat (Some 1%positive) (sample ∅ rx [] []) = Returns (EMQ_STATUS_OK, Some status) w' ∧
    rep 1%positive (set_ss_status EMQ_STATUS_OK (set_ss_rx []
      (after_sending (sample_session rx [] []) (default [] (encode 0 Stat)) []))) (sample_frame ∅) w'.
Proof.
  intros status rx.
  refine (stat_success 1%positive
    (sample_frame ∅) (sample_session rx [] []) (sample ∅ rx [] []) (default [] (encode 0 Stat)) Sent
    (default [] (encode 0 Stat)) [] status [] _ eq_refl eq_refl _ eq_refl eq_refl);
    [apply sample_rep; by repeat constructor|discriminate].
Defined.
