(* ===== verification/Listings.v ===== *)
(** The listings of [src/src/emq.c]: [emq_user_list], [emq_queue_list], [emq_route_list],
    [emq_route_keys] and [emq_channel_list], which parse a body of records into a list.

    The five functions differ in the type of the record; [WireRecord] is the interface between
    the records and the loop that parses them. *)

From S2P Require Import Prelude Types Machine Lists Network Protocol Client Session Packet Commands.
From S2P Require Import Connection Sample.

(** ** Records *)

(** [memcpy(..., buffer + i, n)] *)
Definition copy_bytes (buf : ptr) (i : Z) (n : nat) : M (list byte) :=
  cells ← load (T := buffer) buf;
  if decide (i + Z.of_nat n ≤ Z.of_nat (length cells)) then
    match initialised (take n (drop (Z.to_nat i) cells)) with
    | Some bs => mret bs
    | None => undefined Uninitialised
    end
  else undefined OutOfBounds.

(** The new records, zeroed by [memset] or [calloc]. *)
Definition zero_user : emq_user := mk_user (replicate 32 NUL) (replicate 32 NUL) 0.
Definition zero_queue : emq_queue := mk_queue (replicate 64 NUL) 0 0 0 0 0 0.
Definition zero_route : emq_route := mk_route (replicate 64 NUL) 0 0.
Definition zero_route_key : emq_route_key := mk_route_key (replicate 32 NUL) (replicate 64 NUL).
Definition zero_channel : emq_channel := mk_channel (replicate 64 NUL) 0 0 0.

Definition emq_user_init : M ptr := malloc zero_user.
Definition emq_queue_init : M ptr := malloc zero_queue.
Definition emq_route_init : M ptr := malloc zero_route.
Definition emq_route_key_init : M ptr := malloc zero_route_key.
Definition emq_channel_init : M ptr := malloc zero_channel.

(** A type of records on the wire: the function that allocates a record, zeroed, the one that
    fills it from [buffer + i], what it means on the bytes, and the free handler of its lists. *)
Class WireRecord (T : Type) `{Storable T} := {
  wr_zero : T;
  wr_init : M ptr;
  wr_size : nat;
  wr_fill : ptr → Z → M T;
  wr_free : free_method;
  wr_parse : list byte → T;
  wr_init_zero : wr_init = malloc wr_zero;
  wr_size_pos : (0 < wr_size)%nat;
  wr_parse_take bs : wr_parse (take wr_size bs) = wr_parse bs;
  wr_fill_spec blk (Q : T → world → Prop) w b bs i :
    points_to (w_heap w) b (Some <$> bs : buffer) → (i + wr_size ≤ length bs)%nat →
    Z.of_nat (length bs) < 2 ^ 32 →
    Q (wr_parse (drop i bs)) w → wp blk (wr_fill (Some b) (Z.of_nat i)) Q w;
}.

(** The [n] bytes at [i]. *)
Definition bytes_at (i n : nat) (bs : list byte) : list byte := take n (drop i bs).

Definition fill_user (buf : ptr) (i : Z) : M emq_user :=
  name ← copy_bytes buf i 32;
  password ← copy_bytes buf (i + 32) 32;
  perm ← copy_bytes buf (i + 64) 8;
  mret (mk_user name password (le_value perm)).

Definition fill_queue (buf : ptr) (i : Z) : M emq_queue :=
  name ← copy_bytes buf i 64;
  let i := u32 (i + 64) in
  max_msg ← copy_bytes buf i 4;
  let i := u32 (i + 4) in
  max_msg_size ← copy_bytes buf i 4;
  let i := u32 (i + 4) in
  flags ← copy_bytes buf i 4;
  let i := u32 (i + 4) in
  size ← copy_bytes buf i 4;
  let i := u32 (i + 4) in
  declared_clients ← copy_bytes buf i 4;
  let i := u32 (i + 4) in
  subscribed_clients ← copy_bytes buf i 4;
  mret (mk_queue name (le_value max_msg) (le_value max_msg_size) (le_value flags)
    (le_value size) (le_value declared_clients) (le_value subscribed_clients)).

Definition fill_route (buf : ptr) (i : Z) : M emq_route :=
  name ← copy_bytes buf i 64;
  let i := u32 (i + 64) in
  flags ← copy_bytes buf i 4;
  let i := u32 (i + 4) in
  keys ← copy_bytes buf i 4;
  mret (mk_route name (le_value flags) (le_value keys)).

Definition fill_route_key (buf : ptr) (i : Z) : M emq_route_key :=
  key ← copy_bytes buf i 32;
  let i := u32 (i + 32) in
  queue ← copy_bytes buf i 64;
  mret (mk_route_key key queue).

Definition fill_channel (buf : ptr) (i : Z) : M emq_channel :=
  name ← copy_bytes buf i 64;
  let i := u32 (i + 64) in
  flags ← copy_bytes buf i 4;
  let i := u32 (i + 4) in
  topics ← copy_bytes buf i 4;
  let i := u32 (i + 4) in
  patterns ← copy_bytes buf i 4;
  mret (mk_channel name (le_value flags) (le_value topics) (le_value patterns)).

Lemma wp_copy_bytes blk (Q : list byte → world → Prop) w b bs i j n :
  points_to (w_heap w) b (Some <$> bs : buffer) → (j + n ≤ length bs)%nat → i = Z.of_nat j →
  Q (bytes_at j n bs) w → wp blk (copy_bytes (Some b) i n) Q w.
Proof.
  intros Hb Hlen -> HQ. apply wp_bind. eapply wp_load; [done|].
  rewrite length_fmap, decide_True by lia.
  rewrite Nat2Z.id, <-fmap_drop, <-fmap_take, initialised_Some. by apply wp_ret.
Qed.

Lemma bytes_at_drop i j n bs : bytes_at i n (drop j bs) = bytes_at (j + i) n bs.
Proof. unfold bytes_at. by rewrite drop_drop. Qed.

Lemma bytes_at_take i n m bs : (i + n ≤ m)%nat → bytes_at i n (take m bs) = bytes_at i n bs.
Proof.
  intros Hm. unfold bytes_at. rewrite skipn_firstn_comm, take_take. f_equal. lia.
Qed.

(** Runs a function that fills a record. *)
Ltac wp_fill1 :=
  cbv zeta; lazymatch goal with
  | |- wp _ (copy_bytes _ (u32 (Z.of_nat ?i + ?k)) _ ≫= _) _ _ =>
      let j := eval compute in (Z.to_nat k) in
      replace (u32 (Z.of_nat i + k)) with (Z.of_nat (i + j)%nat) by (rewrite u32_small; lia)
  | |- wp _ (copy_bytes _ (Z.of_nat ?i + ?k) _ ≫= _) _ _ =>
      let j := eval compute in (Z.to_nat k) in
      apply wp_bind; eapply (wp_copy_bytes _ _ _ _ _ _ (i + j)%nat); [done|lia|lia|]
  | |- wp _ (copy_bytes _ (Z.of_nat ?i) _ ≫= _) _ _ =>
      apply wp_bind; eapply (wp_copy_bytes _ _ _ _ _ _ i); [done|lia|lia|]
  end.
Ltac wp_fill :=
  intros blk Q w b bs i Hb Hlen H32 HQ; rewrite !bytes_at_drop in HQ; rewrite Nat.add_0_r in HQ;
  repeat wp_fill1; apply wp_ret; rewrite <-?Nat.add_assoc; exact HQ.

#[export] Program Instance user_record : WireRecord emq_user := {|
  wr_zero := zero_user;
  wr_init := emq_user_init;
  wr_size := 72;
  wr_fill := fill_user;
  wr_free := emq_user_list_free_handler;
  wr_parse bs := mk_user (bytes_at 0 32 bs) (bytes_at 32 32 bs) (le_value (bytes_at 64 8 bs));
|}.
Next Obligation. done. Qed.
Next Obligation. lia. Qed.
Next Obligation. intros bs. simpl. by rewrite !bytes_at_take by lia. Qed.
Next Obligation. unfold fill_user. wp_fill. Qed.

#[export] Program Instance queue_record : WireRecord emq_queue := {|
  wr_zero := zero_queue;
  wr_init := emq_queue_init;
  wr_size := 88;
  wr_fill := fill_queue;
  wr_free := emq_queue_list_free_handler;
  wr_parse bs := mk_queue (bytes_at 0 64 bs) (le_value (bytes_at 64 4 bs))
    (le_value (bytes_at 68 4 bs)) (le_value (bytes_at 72 4 bs)) (le_value (bytes_at 76 4 bs))
    (le_value (bytes_at 80 4 bs)) (le_value (bytes_at 84 4 bs));
|}.
Next Obligation. done. Qed.
Next Obligation. lia. Qed.
Next Obligation. intros bs. simpl. by rewrite !bytes_at_take by lia. Qed.
Next Obligation. unfold fill_queue. wp_fill. Qed.

#[export] Program Instance route_record : WireRecord emq_route := {|
  wr_zero := zero_route;
  wr_init := emq_route_init;
  wr_size := 72;
  wr_fill := fill_route;
  wr_free := emq_route_list_free_handler;
  wr_parse bs := mk_route (bytes_at 0 64 bs) (le_value (bytes_at 64 4 bs))
    (le_value (bytes_at 68 4 bs));
|}.
Next Obligation. done. Qed.
Next Obligation. lia. Qed.
Next Obligation. intros bs. simpl. by rewrite !bytes_at_take by lia. Qed.
Next Obligation. unfold fill_route. wp_fill. Qed.

#[export] Program Instance route_key_record : WireRecord emq_route_key := {|
  wr_zero := zero_route_key;
  wr_init := emq_route_key_init;
  wr_size := 96;
  wr_fill := fill_route_key;
  wr_free := emq_route_key_list_free_handler;
  wr_parse bs := mk_route_key (bytes_at 0 32 bs) (bytes_at 32 64 bs);
|}.
Next Obligation. done. Qed.
Next Obligation. lia. Qed.
Next Obligation. intros bs. simpl. by rewrite !bytes_at_take by lia. Qed.
Next Obligation. unfold fill_route_key. wp_fill. Qed.

#[export] Program Instance channel_record : WireRecord emq_channel := {|
  wr_zero := zero_channel;
  wr_init := emq_channel_init;
  wr_size := 76;
  wr_fill := fill_channel;
  wr_free := emq_channel_list_free_handler;
  wr_parse bs := mk_channel (bytes_at 0 64 bs) (le_value (bytes_at 64 4 bs))
    (le_value (bytes_at 68 4 bs)) (le_value (bytes_at 72 4 bs));
|}.
Next Obligation. done. Qed.
Next Obligation. lia. Qed.
Next Obligation. intros bs. simpl. by rewrite !bytes_at_take by lia. Qed.
Next Obligation. unfold fill_channel. wp_fill. Qed.

(** ** Operations *)

Section listing.
Context (T : Type) `{WireRecord T}.

(** The loop [for (i = 0; i < header.bodylen;)] and the exits after it. *)
Fixpoint parse_loop (fuel : nat) (client buf list : ptr) (bodylen i : Z) : M ptr :=
  match fuel with
  | O => out_of_fuel
  | S fuel =>
      if decide (i < bodylen) then
        value ← wr_init (T := T);
        match value with
        | None =>
            emq_client_set_error client EMQ_ERROR_ALLOC;;
            emq_list_release list;;
            free buf;;
            error_exit client NULL
        | Some _ =>
            x ← wr_fill (T := T) buf i;
            store value x;;
            _ ← emq_list_add_value list value;
            parse_loop fuel client buf list bodylen (u32 (i + Z.of_nat (wr_size (T := T))))
        end
      else
        free buf;;
        succeed client list
  end.

(** Reading the body into a buffer and parsing it. *)
Definition read_list (client : ptr) (header : protocol_response_header) : M ptr :=
  let bodylen := res_bodylen header in
  buf ← malloc (uninit bodylen);
  match buf with
  | None => fail_with client EMQ_ERROR_ALLOC NULL
  | Some _ =>
      '(ret, bytes) ← emq_client_read client bodylen (i32 bodylen);
      memcpy_to buf bytes;;
      if decide (ret = -1) then
        emq_client_set_error client EMQ_ERROR_READ;;
        free buf;;
        error_exit client NULL
      else
        list ← emq_list_init;
        match list with
        | None =>
            emq_client_set_error client EMQ_ERROR_ALLOC;;
            free buf;;
            error_exit client NULL
        | Some _ =>
            EMQ_LIST_SET_FREE_METHOD list (wr_free (T := T));;
            parse_loop (S (Z.to_nat bodylen)) client buf list bodylen 0
        end
  end.

Definition listing (client : ptr) (request : M Z) (cmd : Z) : M ptr :=
  EMQ_CLEAR_ERROR client;;
  transmit client request (write_request client) NULL
    (expect_header client (λ header, emq_check_response_header_mini header cmd) NULL
       (read_list client)).
End listing.

Definition emq_user_list (client : ptr) : M ptr :=
  listing emq_user client (emq_user_list_request client) EMQ_PROTOCOL_CMD_USER_LIST.
Definition emq_queue_list (client : ptr) : M ptr :=
  listing emq_queue client (emq_queue_list_request client) EMQ_PROTOCOL_CMD_QUEUE_LIST.
Definition emq_route_list (client : ptr) : M ptr :=
  listing emq_route client (emq_route_list_request client) EMQ_PROTOCOL_CMD_ROUTE_LIST.
Definition emq_route_keys (client : ptr) (name : cstring) : M ptr :=
  listing emq_route_key client (emq_route_keys_request client name) EMQ_PROTOCOL_CMD_ROUTE_KEYS.
Definition emq_channel_list (client : ptr) : M ptr :=
  listing emq_channel client (emq_channel_list_request client) EMQ_PROTOCOL_CMD_CHANNEL_LIST.

(** ** Specification *)

(** Cutting a body into [k] records of [n] bytes. *)
Fixpoint chunks (k n : nat) (bs : list byte) : list (list byte) :=
  match k with
  | O => []
  | S k => take n bs :: chunks k n (drop n bs)
  end.

(** Building the list of the records, the last one first; a record whose node cannot be
    allocated is lost, and its block is leaked. The result counts the leaked blocks. *)
Fixpoint s_records {T} (records acc : list T) (leaked : nat) : Spec (option (list T) * nat) :=
  match records with
  | [] => s_succeed (Some acc, leaked)
  | x :: records =>
      record ← s_malloc;
      if negb record then s_fail EMQ_ERROR_ALLOC (None, leaked) else
      node ← s_malloc;
      if node : bool then s_records records (x :: acc) leaked
      else s_records records acc (S leaked)
  end.

(** The records of a body, when it is made of whole records. *)
Definition parse_body (T : Type) `{WireRecord T} (bs : list byte) : list T :=
  wr_parse <$> chunks (length bs / wr_size (T := T)) (wr_size (T := T)) bs.

Definition s_read_list (T : Type) `{WireRecord T} (header : protocol_response_header) :
    Spec (option (list T) * nat) :=
  buf ← s_malloc;
  if negb buf then s_fail EMQ_ERROR_ALLOC (None, O) else
  if decide (0 ≤ res_bodylen header < 2 ^ 31) then
    body ← s_recv (Z.to_nat (res_bodylen header));
    match body with
    | None => s_fail EMQ_ERROR_READ (None, O)
    | Some bs =>
        list ← s_malloc;
        if negb list then s_fail EMQ_ERROR_ALLOC (None, O) else
        if decide (length bs mod wr_size (T := T) = 0)%nat then s_records (parse_body T bs) [] O
        else s_unspecified
    end
  else s_unspecified.

Definition s_listing (T : Type) `{WireRecord T} (call : api_call) :
    Spec (option (list T) * nat) :=
  s_put (set_ss_error "");;
  s_transmit deliver call [] (None, O)
    (s_expect (λ header, emq_check_response_header_mini header (call_code call)) (None, O)
       (s_read_list T)).

(** ** Simulation *)

Section simulation.
Context (T : Type) `{WireRecord T} (l : loc).
Let free_handler := wr_free (T := T).
Local Abbreviation size := (wr_size (T := T)).

(** The result of a listing: a list of its own blocks, and the blocks it leaked. *)
Definition list_result (f f' : frame) (y : ptr) (x : option (list T) * nat) : Prop :=
  ∃ leaked, length leaked = x.2 ∧ f' = set_fr_heap (fr_heap f') f ∧
    Forall (λ k, is_Some (fr_heap f' !! k)) leaked ∧
    match x.1 with
    | None => y = NULL ∧ NoDup leaked ∧ freed leaked (fr_heap f') (fr_heap f)
    | Some xs => ∃ lp ns, y = Some lp ∧
        dlist (fr_heap f') lp (Some free_handler) ns ∧
        Forall2 (λ v x, points_to (fr_heap f') v x) ns.*2 xs ∧
        NoDup (lp :: ns.*1 ++ ns.*2 ++ leaked) ∧
        freed (lp :: ns.*1 ++ ns.*2 ++ leaked) (fr_heap f') (fr_heap f)
    end.

(** The state of the loop. *)
Record parsing (f0 f : frame) (b : loc) (bs : list byte) (lp : loc) (ns : list (loc * loc))
    (acc : list T) (leaked : list loc) : Prop := {
  ps_frame : f = set_fr_heap (fr_heap f) f0;
  ps_freed : freed (b :: lp :: ns.*1 ++ ns.*2 ++ leaked) (fr_heap f) (fr_heap f0);
  ps_nodup : NoDup (b :: lp :: ns.*1 ++ ns.*2 ++ leaked);
  ps_alloc : Forall (λ k, is_Some (fr_heap f !! k)) (b :: lp :: ns.*1 ++ ns.*2 ++ leaked);
  ps_buffer : points_to (fr_heap f) b (Some <$> bs : buffer);
  ps_list : dlist (fr_heap f) lp (Some free_handler) ns;
  ps_values : Forall2 (λ v x, points_to (fr_heap f) v x) ns.*2 acc;
}.

(** A new record is outside of what was built. *)
Lemma parsing_alloc f0 f b bs lp ns acc leaked v (x : T) :
  parsing f0 f b bs lp ns acc leaked → fr_heap f !! v = None →
  parsing f0 (set_fr_heap (<[v := inject x]> (fr_heap f)) f) b bs lp ns acc (v :: leaked).
Proof.
  intros [Hf Hfreed Hnd Hall Hb Hl Hv] Hfresh.
  assert (v ∉ b :: lp :: ns.*1 ++ ns.*2 ++ leaked) as Hout.
  { intros Hin. rewrite Forall_forall in Hall. destruct (Hall _ Hin). congruence. }
  assert (b :: lp :: ns.*1 ++ ns.*2 ++ v :: leaked ≡ₚ v :: b :: lp :: ns.*1 ++ ns.*2 ++ leaked)
    as Hp.
  { symmetry. rewrite !(app_assoc ns.*1). apply (Permutation_middle (b :: lp :: _)). }
  constructor; simpl.
  - by rewrite Hf.
  - rewrite Hp. by apply freed_alloc.
  - rewrite Hp. by apply NoDup_cons.
  - rewrite Hp. constructor; [rewrite lookup_insert_eq; by eexists|].
    eapply Forall_impl; [exact Hall|]. intros k [o Hk]. apply lookup_insert_is_Some'. by right.
  - by rewrite lookup_insert_ne by congruence.
  - eapply dlist_weaken; [by apply insert_subseteq|done].
  - eapply Forall2_impl; [exact Hv|]. intros k y Hk. by rewrite lookup_insert_ne by congruence.
Qed.

(** Adding the node of a record that was built. *)
Lemma parsing_add f0 f b bs lp ns acc leaked v (x : T) n fh :
  parsing f0 f b bs lp ns acc (v :: leaked) → points_to (fr_heap f) v x →
  fr_heap f !! n = None → dlist fh lp (Some free_handler) ((n, v) :: ns) →
  (∀ k, k ≠ lp → k ≠ n → k ∉ ns.*1 → fh !! k = fr_heap f !! k) →
  parsing f0 (set_fr_heap fh f) b bs lp ((n, v) :: ns) (x :: acc) leaked.
Proof.
  intros [Hf Hfreed Hnd Hall Hb Hl Hv] Hx Hfresh Hd Hfh.
  assert (n ∉ b :: lp :: ns.*1 ++ ns.*2 ++ v :: leaked) as Hout.
  { intros Hin. rewrite Forall_forall in Hall. destruct (Hall _ Hin). congruence. }
  assert (b :: lp :: ((n, v) :: ns).*1 ++ ((n, v) :: ns).*2 ++ leaked ≡ₚ
    n :: b :: lp :: ns.*1 ++ ns.*2 ++ v :: leaked) as Hp.
  { csimpl. rewrite (Permutation_swap n lp), (Permutation_swap n b). do 3 constructor.
    rewrite !(app_assoc ns.*1), <-!(Permutation_middle _ _ v).
    by rewrite <-(app_assoc ns.*1). }
  constructor; simpl.
  - by rewrite Hf.
  - rewrite Hp. intros k. rewrite (Hfreed k).
    destruct (decide (k ∈ n :: _)) as [[->|Hk]%elem_of_cons|Hk].
    + by rewrite decide_False.
    + by rewrite decide_True.
    + split_nodup. rewrite decide_False by not_elem. by rewrite Hfh.
  - rewrite Hp. by apply NoDup_cons.
  - rewrite Hp. apply Forall_forall. intros k Hk.
    destruct (decide (k = lp ∨ k ∈ n :: ns.*1)) as [[->|Hin]|Hout'].
    + destruct Hd. eauto.
    + destruct (dlseg_node _ _ _ _ _ (dlist_nodes _ _ _ _ Hd) Hin) as [??]. eauto.
    + rewrite elem_of_cons in Hout'. rewrite Hfh by tauto. rewrite Forall_forall in Hall.
      apply Hall. apply elem_of_cons in Hk as [->|]; [tauto|done].
  - rewrite Hfh; split_nodup; done.
  - done.
  - assert (∀ k, k ∈ v :: ns.*2 → fh !! k = fr_heap f !! k) as Hk.
    { intros k Hk. assert (k ∉ lp :: n :: ns.*1) as Hk'; [|split_nodup; by apply Hfh].
      assert (k ∈ ns.*2 ++ v :: leaked) as Hin by in_list.
      apply not_elem_of_cons; split; [|apply not_elem_of_cons; split].
      - intros ->. apply NoDup_cons in Hnd as [_ [Hn _]%NoDup_cons]. in_list.
      - intros ->. in_list.
      - intros Hk'. apply NoDup_cons in Hnd as [_ [_ Hn]%NoDup_cons].
        apply NoDup_app in Hn as (_ & Hn & _). by apply (Hn k). }
    constructor; [rewrite Hk; [done|by left]|].
    eapply Forall2_points_to_frame; [|done]. intros k Hin. apply Hk. by right.
Qed.

(** The end of the loop, with or without the list. *)
Lemma parsing_done f0 f b bs lp ns acc leaked fh :
  parsing f0 f b bs lp ns acc leaked → freed [b] (fr_heap f) fh →
  list_result f0 (set_fr_heap fh f) (Some lp) (Some acc, length leaked).
Proof.
  intros [Hf Hfreed Hnd Hall Hb Hl Hv] Hfh. apply NoDup_cons in Hnd as [Hbn Hnd].
  assert (∀ k, k ∈ lp :: ns.*1 ++ ns.*2 ++ leaked → fh !! k = fr_heap f !! k) as Hk.
  { intros k Hk. rewrite Hfh, decide_False; [done|]. intros ->%list_elem_of_singleton. done. }
  exists leaked. split; [done|]. split; [by rewrite Hf|]. split.
  { apply Forall_cons in Hall as [_ Hall]. rewrite Forall_forall in Hall |- *. simpl.
    intros k Hin. rewrite Hk by in_list. apply Hall. in_list. }
  exists lp, ns. split; [done|].
  simpl. split; [|split; [|split; [done|]]].
  - eapply dlist_frame; [|done]. intros k Hin. apply Hk. in_list.
  - eapply Forall2_points_to_frame; [|done]. intros k Hin. apply Hk. in_list.
  - intros k. rewrite (Hfreed k), (Hfh k). repeat case_decide; try done; in_list.
Qed.

Lemma parsing_failed f0 f b bs lp ns acc leaked fh :
  parsing f0 f b bs lp ns acc leaked → freed (b :: lp :: ns.*1 ++ ns.*2) (fr_heap f) fh →
  list_result f0 (set_fr_heap fh f) NULL (None, length leaked).
Proof.
  intros [Hf Hfreed Hnd Hall Hb Hl Hv] Hfh.
  exists leaked. split; [done|]. split; [by rewrite Hf|]. split.
  { rewrite Forall_forall in Hall |- *. simpl. intros k Hin.
    rewrite Hfh, decide_False; [apply Hall; in_list|].
    change (NoDup ((b :: lp :: ns.*1) ++ ns.*2 ++ leaked)) in Hnd.
    rewrite app_assoc in Hnd. apply NoDup_app in Hnd as (_ & Hnd & _).
    intros Hk. by apply (Hnd k). }
  split; [done|]. split.
  - rewrite !app_assoc in Hnd. simpl in Hnd. change (NoDup ((b :: lp :: (ns.*1 ++ ns.*2)) ++ leaked)) in Hnd.
    by apply NoDup_app in Hnd as (_ & _ & ?).
  - simpl. intros k. rewrite (Hfreed k), (Hfh k).
    repeat case_decide; try done; in_list.
Qed.

Lemma sim_wr_fill b bs i f s (K : T → M ptr) {B} (a : Spec B) Φ w :
  rep l s f w → points_to (fr_heap f) b (Some <$> bs : buffer) → (i + size ≤ length bs)%nat →
  Z.of_nat (length bs) < 2 ^ 31 →
  sim l s (K (wr_parse (drop i bs))) a Φ w →
  sim l s (wr_fill (T := T) (Some b) (Z.of_nat i) ≫= K) a Φ w.
Proof.
  intros [g Hr] Hb Hi Hlen HK. destruct (frame_lookup _ _ _ _ _ _ _ Hr Hb) as [_ Hb'].
  apply sim_step. eapply wr_fill_spec; [done..|lia|done].
Qed.

Lemma freed_delete_cons k ls h h1 : freed ls h h1 → freed (k :: ls) h (delete k h1).
Proof.
  intros Hf j. rewrite lookup_delete. destruct (decide (k = j)) as [->|Hne].
  - by rewrite decide_True by by left.
  - rewrite (Hf j). apply decide_ext. rewrite elem_of_cons. naive_solver.
Qed.

Lemma sim_parse_loop f0 b lp bs k fuel i acc ns leaked f s w :
  rep l s f w → parsing f0 f b bs lp ns acc leaked →
  (i + k * size = length bs)%nat → (k < fuel)%nat → Z.of_nat (length bs) < 2 ^ 31 →
  (length ns ≤ i)%nat →
  sim l s (parse_loop T fuel (Some l) (Some b) (Some lp) (Z.of_nat (length bs)) (Z.of_nat i))
    (s_records (wr_parse <$> chunks k size (drop i bs)) acc (length leaked))
    (list_result f0) w.
Proof.
  pose proof (wr_size_pos (T := T)) as Hpos.
  revert fuel i acc ns leaked f s w.
  induction k as [|k IH]; intros [|fuel] i acc ns leaked f s w Hr Hps Hi Hf Hlen Hns; try lia;
    csimpl.
  - rewrite decide_False by lia. eapply sim_free; [done|by eapply ps_buffer|]. intros w1 Hr1.
    eapply sim_succeed; [done|]. eapply parsing_done; [done|].
    rewrite <-freed_delete. by apply freed_nil.
  - simpl in Hi. rewrite decide_True by lia. rewrite wr_init_zero. eapply sim_malloc; [done| |]; simpl.
    + intros v s1 w1 Hv Hr1.
      pose proof (parsing_alloc _ _ _ _ _ _ _ _ _ wr_zero Hps Hv) as Hps1.
      eapply sim_wr_fill; [done|by eapply ps_buffer|lia|done|].
      eapply sim_store; [done|apply lookup_insert_eq|]. rewrite fr_heap_twice. simpl.
      rewrite insert_insert_eq. intros w2 Hr2.
      rewrite wr_parse_take, drop_drop.
      pose proof (parsing_alloc _ _ _ _ _ _ _ _ _ (wr_parse (drop i bs)) Hps Hv) as Hps2.
      replace (u32 (Z.of_nat i + Z.of_nat size)) with (Z.of_nat (i + size))
        by (rewrite u32_small; lia).
      eapply sim_list_add; [done|apply (ps_list _ _ _ _ _ _ _ _ Hps2)|lia| |]; simpl.
      * intros n s3 fh w3 Hn Hr3 Hd Hfh. rewrite fr_heap_twice in Hr3.
        eapply (IH _ _ _ ((n, v) :: ns)); [exact Hr3| |lia|lia|lia|rewrite length_cons; lia].
        rewrite <-(fr_heap_twice fh (<[v := inject (wr_parse (drop i bs))]> (fr_heap f)) f).
        eapply parsing_add; [done|apply lookup_insert_eq|done|done|done].
      * intros s3 w3 Hr3. eapply (IH _ _ _ _ (v :: leaked)); [exact Hr3|done|lia|lia|lia|lia].
    + intros s1 w1 Hr1. eapply sim_failing; [done|done|]. intros s2 w2 Hr2.
      destruct (Hps) as [_ _ Hnd Hall Hb Hl Hv].
      apply NoDup_cons in Hnd as [Hbn Hnd].
      assert (NoDup (lp :: ns.*1 ++ ns.*2)) as Hnd'.
      { rewrite (app_assoc ns.*1) in Hnd. change (NoDup ((lp :: ns.*1 ++ ns.*2) ++ leaked)) in Hnd.
        by apply NoDup_app in Hnd as [? _]. }
      eapply sim_list_release; [done|done|done| |].
      { rewrite Forall_forall in Hall |- *. intros j Hj. apply Hall. simpl in Hj. in_list. }
      intros fh w3 Hr3 Hfh. simpl in Hfh.
      assert (fh !! b = Some (inject (Some <$> bs : buffer))) as Hb'.
      { rewrite Hfh, decide_False; [done|]. in_list. }
      eapply sim_free; [done|exact Hb'|]. rewrite fr_heap_twice. simpl. intros w4 Hr4.
      eapply sim_error_exit; [done|]. eapply parsing_failed; [done|]. by apply freed_delete_cons.
Qed.

Lemma list_result_none f f' : f' = f → list_result f f' NULL (None, O).
Proof.
  intros ->. exists []. split; [done|]. split; [symmetry; apply set_fr_heap_id|].
  split; [constructor|]. split; [done|]. split; [constructor|]. by apply freed_nil.
Qed.

(** The state in which the loop starts. *)
Lemma parsing_start f b (bs : list byte) lp :
  fr_heap f !! b = None →
  <[b := inject (Some <$> bs : buffer)]> (fr_heap f) !! lp = None →
  parsing f (set_fr_heap (<[lp := inject (mk_list NULL NULL 0 (Some free_handler))]>
    (<[b := inject (Some <$> bs : buffer)]> (fr_heap f))) f) b bs lp [] [] [].
Proof.
  intros Hb Hlp. assert (b ≠ lp) by (intros ->; by rewrite lookup_insert_eq in Hlp).
  constructor; simpl; [done| | | | | |constructor].
  - rewrite lookup_insert_ne in Hlp by done. intros k.
    destruct (decide (k = b)) as [->|Hkb]; [by rewrite decide_True by by left|].
    destruct (decide (k = lp)) as [->|Hkl]; [by rewrite decide_True by by right; left|].
    rewrite decide_False by in_list. by rewrite !lookup_insert_ne.
  - apply NoDup_cons. split; [in_list|]. apply NoDup_singleton.
  - repeat constructor; simplify_map_eq; by eexists.
  - by simplify_map_eq.
  - constructor; simpl; [by simplify_map_eq|done|constructor|lia].
Qed.

Lemma simulates_read_list header :
  simulates l (read_list T (Some l) header) (s_read_list T header) list_result.
Proof.
  pose proof (wr_size_pos (T := T)) as Hpos.
  intros f s w Hr. unfold read_list, s_read_list.
  eapply sim_malloc; [done| |]; cbn [negb].
  2:{ intros s1 w1 Hr1. apply simulates_fail; [done| |done]. intros. by apply list_result_none. }
  intros b s1 w1 Hb Hr1. case_decide as Hlen; [|apply sim_unspecified].
  remember (res_bodylen header) as n eqn:Hn. clear Hn. eapply sim_bind.
  { rewrite i32_small by lia. rewrite <-(Z2Nat.id n) at 2 by lia. apply sim_recv; [done|lia..]. }
  intros [ret bytes] x f2 s2 w2 Hr2 [-> Hx].
  assert (length bytes ≤ Z.to_nat n)%nat as Hle.
  { destruct x; simpl in Hx; [|by destruct Hx]. by destruct Hx as [[= -> ->] ->]. }
  eapply sim_memcpy_to; [done|apply lookup_insert_eq| |].
  { unfold uninit. by rewrite length_replicate. }
  rewrite fr_heap_twice. simpl. rewrite insert_insert_eq. intros w3 Hr3.
  destruct x as [bs|]; simpl in Hx.
  2:{ destruct Hx as [-> _]. rewrite decide_True by done. eapply sim_failing; [done|done|].
      intros s4 w4 Hr4. eapply sim_free; [done|apply lookup_insert_eq|].
      rewrite fr_heap_twice. simpl. rewrite delete_insert_id, set_fr_heap_id by done.
      intros w5 Hr5. eapply sim_error_exit; [done|]. by apply list_result_none. }
  destruct Hx as [[= -> ->] Hbs]. rewrite decide_False by lia.
  rewrite drop_ge, app_nil_r in Hr3 by (unfold uninit; rewrite length_replicate; lia).
  eapply sim_malloc; [done| |]; cbn [negb].
  2:{ intros s4 w4 Hr4. eapply sim_failing; [done|done|]. intros s5 w5 Hr5.
      eapply sim_free; [done|apply lookup_insert_eq|].
      rewrite fr_heap_twice. simpl. rewrite delete_insert_id, set_fr_heap_id by done.
      intros w6 Hr6. eapply sim_error_exit; [done|]. by apply list_result_none. }
  intros lp s4 w4 Hlp Hr4. simpl in Hlp. rewrite fr_heap_twice in Hr4. simpl in Hr4.
  eapply sim_modify; [done|apply lookup_insert_eq|]. rewrite fr_heap_twice. simpl.
  rewrite insert_insert_eq. intros w5 Hr5.
  destruct (decide (length bs mod size = 0)%nat) as [Hmod|]; [|apply sim_unspecified].
  assert (n = Z.of_nat (length bs)) as -> by lia. rewrite Nat2Z.id.
  eapply (sim_parse_loop f b lp bs (length bs / size) (S (length bs)) 0 [] [] []);
    [exact Hr5|by apply parsing_start| | |lia|simpl; lia].
  - rewrite Nat.add_0_l, Nat.mul_comm. symmetry. by apply Nat.Div0.div_exact.
  - pose proof (Nat.Div0.div_le_upper_bound (length bs) size (length bs)). nia.
Qed.

Lemma simulates_listing call :
  simulates l (listing T (Some l) (request_of call (Some l)) (call_code call))
    (s_listing T call) list_result.
Proof.
  apply simulates_clear, simulates_transmit; [intros; by apply list_result_none|].
  apply simulates_expect; [intros; by apply list_result_none|]. apply simulates_read_list.
Qed.
End simulation.

(** ** Theorems *)

Lemma s_records_available {T} (records acc : list T) leaked s :
  ss_mallocs s = [] →
  s_records records acc leaked s =
    Answer (Some (reverse records ++ acc), leaked) (set_ss_status EMQ_STATUS_OK s).
Proof.
  revert acc s. induction records as [|x records IH]; intros acc s Hs; [done|].
  cbn [s_records]. unfold mbind, Spec_bind, s_malloc. rewrite Hs. cbn -[s_records reverse].
  rewrite IH by done. rewrite reverse_cons, <-app_assoc. unfold set_ss_mallocs, set_ss_status.
  cbn. by rewrite Hs.
Qed.

Lemma chunks_concat n (records : list (list byte)) :
  Forall (λ r, length r = n) records → chunks (length records) n (concat records) = records.
Proof.
  induction 1 as [|r records Hr _ IH]; [done|]. simpl.
  by rewrite take_app_exact, drop_app_exact, IH.
Qed.

Lemma length_concat_records n (records : list (list byte)) :
  Forall (λ r, length r = n) records → length (concat records) = (length records * n)%nat.
Proof. induction 1 as [|r records Hr _ IH]; [done|]. simpl. rewrite length_app. lia. Qed.

Lemma parse_body_concat T `{WireRecord T} (records : list (list byte)) :
  Forall (λ r, length r = wr_size (T := T)) records →
  parse_body T (concat records) = wr_parse <$> records.
Proof.
  intros Hrs. unfold parse_body. rewrite (length_concat_records _ _ Hrs).
  rewrite Nat.div_mul by (pose proof (wr_size_pos (T := T)); lia). by rewrite chunks_concat.
Qed.

(** C27: when the server answers with whole records and memory is available, a
    listing returns the list of exactly these records, parsed field by field, in reverse order,
    and nothing else is left allocated: not the buffer, not a record. *)
Theorem listing_success T `{WireRecord T} call l f s w bs d tx wr records rest :
  rep l s f w → encode (ss_noack s) call = Some bs →
  deliver (ss_wr s) bs = (d, tx, wr) → d ≠ Failed → ss_mallocs s = [] →
  Forall (λ r, length r = wr_size (T := T)) records →
  Z.of_nat (length (concat records)) < 2 ^ 31 →
  ss_rx s = (RxByte <$> response_header_bytes
    (reply_with call (Z.of_nat (length (concat records)))) ++ concat records) ++ rest →
  ∃ y f' w', listing T (Some l) (request_of call (Some l)) (call_code call) w = Returns y w' ∧
    list_result T f f' y (Some (reverse (wr_parse <$> records)), O) ∧
    rep l (set_ss_status EMQ_STATUS_OK (set_ss_rx rest (after_sending s tx wr))) f' w'.
Proof.
  intros Hr Henc Hd Hok Hms Hrs Hlen Hrx.
  pose proof (sim_implements _ _ _ _ _ _ _ (simulates_listing T l call _ _ _ Hr)) as Hi.
  assert (s_listing T call s = Answer (Some (reverse (wr_parse <$> records)), O)
    (set_ss_status EMQ_STATUS_OK (set_ss_rx rest (after_sending s tx wr)))) as Ha.
  { unfold s_listing. rewrite fmap_app, <-app_assoc in Hrx.
    rewrite (s_transmit_sent _ _ _ _ _ _ bs d tx wr); [|done|by rewrite app_nil_r|done].
    erewrite (s_expect_success _ _ _ (after_sending s tx wr) call (Z.of_nat (length (concat records))));
      [|lia| |exact Hrx].
    2:{ unfold emq_check_response_header_mini. by rewrite decide_False by (cbn; tauto). }
    unfold s_read_list. unfold mbind at 1, Spec_bind at 1, s_malloc at 1.
    cbn [ss_mallocs set_ss_rx after_sending set_ss_wr set_ss_tx set_ss_error]. rewrite Hms.
    cbn [hd tail negb res_bodylen reply_with]. rewrite decide_True by lia. rewrite Nat2Z.id.
    erewrite s_recv_bind; [|done|reflexivity].
    unfold mbind at 1, Spec_bind at 1, s_malloc at 1. cbn [ss_mallocs set_ss_rx set_ss_mallocs hd tail negb].
    rewrite decide_True.
    2:{ rewrite (length_concat_records _ _ Hrs). apply Nat.Div0.mod_mul. }
    rewrite s_records_available, app_nil_r, parse_body_concat by done.
    unfold set_ss_mallocs, set_ss_status, set_ss_rx. cbn. by rewrite Hms. }
  unfold implements in Hi. rewrite Ha in Hi.
  destruct Hi as (y & f' & w' & Hw & Hr' & Hl). eauto 10.
Qed.

Lemma listing_success_witness :
  let key (b : byte) := array_of 32 [b] ++ array_of 64 [Byte.x71] in
  let records := [key Byte.x61; key Byte.x62] in
  let call := RouteKeys [Byte.x72] in
  let rx := response_header_bytes (reply_with call 192) ++ concat records in
  ∃ y f' w', emq_route_keys (Some 1%positive) [Byte.x72] (sample ∅ rx [] []) = Returns y w' ∧
    list_result emq_route_key (sample_frame ∅) f' y
      (Some [mk_route_key (array_of 32 [Byte.x62]) (array_of 64 [Byte.x71]);
             mk_route_key (array_of 32 [Byte.x61]) (array_of 64 [Byte.x71])], O) ∧
    rep 1%positive (set_ss_status EMQ_STATUS_OK (set_ss_rx []
      (after_sending (sample_session rx [] []) (default [] (encode 0 call)) []))) f' w'.
Proof.
  intros key records call rx.
  refine (listing_success emq_route_key call 1%positive (sample_frame ∅) (sample_session rx [] [])
    (sample ∅ rx [] []) (default [] (encode 0 call)) Sent (default [] (encode 0 call)) [] records []
    _ eq_refl eq_refl _ eq_refl _ _ eq_refl).
  - apply sample_rep. by repeat constructor.
  - discriminate.
  - by repeat constructor.
  - reflexivity.
Defined.
