(* ===== verification/Subscriptions.v ===== *)
(** Subscriptions (lines 322-365, 1533-1641 and 2478-2696 of [src/src/emq.c]): the two lists of
    the client behind one interface, [Slot], and the operations that add to them and remove
    from them. *)

From S2P Require Import Prelude Types Machine Lists Network Protocol Client Session Packet Commands.
From S2P Require Import Connection Sample.

(** ** The lists of a client

    [Slot T] is what the subscription list of the type [T] promises to the operations: where
    the client keeps it, and that a representation can be taken apart around the list and put
    together again with another list. *)

Class Slot (T : Type) `{Storable T} := {
  slot_ptr : emq_client → ptr;
  slot_free : free_method;
  slot_name : T → list byte;
  slot_wf : T → Prop;
  slot_get : session → list T;
  slot_set : list T → session → session;
  slot_loc : placement → loc;
  slot_nodes : placement → list (loc * loc);
  slot_rest : loc → placement → list loc;

  slot_get_mallocs ms s : slot_get (set_ss_mallocs ms s) = slot_get s;
  slot_get_set xs s : slot_get (slot_set xs s) = xs;
  slot_set_set xs ys s : slot_set xs (slot_set ys s) = slot_set xs s;
  slot_set_get s : slot_set (slot_get s) s = s;
  slot_wf_name x : slot_wf x → wf_name 64 (slot_name x);

  slot_rest_client l g : l ∈ slot_rest l g;

  slot_open l s f w g : rep_at l s f w g →
    slot_ptr (lo_client g) = Some (slot_loc g) ∧
    dlist (w_heap w) (slot_loc g) (Some slot_free) (slot_nodes g) ∧
    Forall2 (λ v x, points_to (w_heap w) v x) (slot_nodes g).*2 (slot_get s) ∧
    Forall slot_wf (slot_get s) ∧
    footprint l g ≡ₚ slot_loc g :: (slot_nodes g).*1 ++ (slot_nodes g).*2 ++ slot_rest l g;

  slot_close l s f w g h' ns xs fh ms :
    rep_at l s f w g →
    (∀ k, k ∈ slot_rest l g → h' !! k = w_heap w !! k) →
    dlist h' (slot_loc g) (Some slot_free) ns →
    Forall2 (λ v x, points_to h' v x) ns.*2 xs → Forall slot_wf xs →
    NoDup (slot_loc g :: ns.*1 ++ ns.*2 ++ slot_rest l g) →
    freed (slot_loc g :: ns.*1 ++ ns.*2 ++ slot_rest l g) h' fh →
    ∃ g', rep_at l (slot_set xs (set_ss_mallocs ms s)) (set_fr_heap fh f)
        (set_mallocs ms (set_heap h' w)) g' ∧
      slot_loc g' = slot_loc g ∧ slot_nodes g' = ns;
}.

(** The lists in a placement, the other fields being kept. *)
Definition set_lo_queue_nodes ns g := mk_placement (lo_client g) (lo_request g) (lo_cells g)
  (lo_queues g) ns (lo_channels g) (lo_channel_nodes g) (lo_sock g).
Definition set_lo_channel_nodes ns g := mk_placement (lo_client g) (lo_request g) (lo_cells g)
  (lo_queues g) (lo_queue_nodes g) (lo_channels g) ns (lo_sock g).

Definition queue_rest (l : loc) (g : placement) : list loc :=
  l :: lo_request g :: lo_channels g :: (lo_channel_nodes g).*1 ++ (lo_channel_nodes g).*2.
Definition channel_rest (l : loc) (g : placement) : list loc :=
  l :: lo_request g :: lo_queues g :: (lo_queue_nodes g).*1 ++ (lo_queue_nodes g).*2.

Lemma queue_footprint l g :
  footprint l g ≡ₚ
    lo_queues g :: (lo_queue_nodes g).*1 ++ (lo_queue_nodes g).*2 ++ queue_rest l g.
Proof.
  rewrite (app_assoc (lo_queue_nodes g).*1). unfold footprint, queue_rest.
  exact (Permutation_app_swap_app [l; lo_request g]
    (lo_queues g :: (lo_queue_nodes g).*1 ++ (lo_queue_nodes g).*2) _).
Qed.

Lemma channel_footprint l g :
  footprint l g ≡ₚ
    lo_channels g :: (lo_channel_nodes g).*1 ++ (lo_channel_nodes g).*2 ++ channel_rest l g.
Proof.
  rewrite (app_assoc (lo_channel_nodes g).*1). unfold footprint, channel_rest.
  exact (Permutation_app_comm
    (l :: lo_request g :: lo_queues g :: (lo_queue_nodes g).*1 ++ (lo_queue_nodes g).*2)
    (lo_channels g :: (lo_channel_nodes g).*1 ++ (lo_channel_nodes g).*2)).
Qed.

#[export] Program Instance queue_slot : Slot emq_queue_subscription := {|
  slot_ptr := client_queue_subscriptions;
  slot_free := emq_queue_subscription_list_free_handler;
  slot_name := qsub_name;
  slot_wf q := wf_name 64 (qsub_name q);
  slot_get := ss_queues;
  slot_set := set_ss_queues;
  slot_loc := lo_queues;
  slot_nodes := lo_queue_nodes;
  slot_rest := queue_rest;
|}.
Solve Obligations with (try done).
Next Obligation. by intros []. Qed.
Next Obligation. intros. by left. Qed.
Next Obligation.
  intros l s f w g []. split_and!; try done; [by destruct rep_wf|apply queue_footprint].
Qed.
Next Obligation.
  intros l s f w g h' ns xs fh ms Hr Hh Hd Hv Hwf Hnd Hf. exists (set_lo_queue_nodes ns g).
  pose proof (queue_footprint l (set_lo_queue_nodes ns g)) as Hp.
  destruct Hr. unfold queue_rest in Hh.
  split; [|done]. constructor; simpl; try done.
  - rewrite Hh; [done|by left].
  - rewrite Hh; [done|by right; left].
  - eapply dlist_frame; [|done]. intros k Hk. apply Hh. in_list.
  - eapply Forall2_points_to_frame; [|done]. intros k Hk. apply Hh. in_list.
  - rewrite Hp. done.
  - rewrite Hp. done.
  - destruct rep_wf. by constructor.
Qed.

#[export] Program Instance channel_slot : Slot emq_channel_subscription := {|
  slot_ptr := client_channel_subscriptions;
  slot_free := emq_channel_subscription_list_free_handler;
  slot_name := csub_name;
  slot_wf c := wf_name 64 (csub_name c) ∧ wf_name 32 (csub_channel c);
  slot_get := ss_channels;
  slot_set := set_ss_channels;
  slot_loc := lo_channels;
  slot_nodes := lo_channel_nodes;
  slot_rest := channel_rest;
|}.
Solve Obligations with (try done).
Next Obligation. by intros []. Qed.
Next Obligation. by intros x [? _]. Qed.
Next Obligation. intros. by left. Qed.
Next Obligation.
  intros l s f w g []. split_and!; try done; [by destruct rep_wf|apply channel_footprint].
Qed.
Next Obligation.
  intros l s f w g h' ns xs fh ms Hr Hh Hd Hv Hwf Hnd Hf. exists (set_lo_channel_nodes ns g).
  pose proof (channel_footprint l (set_lo_channel_nodes ns g)) as Hp.
  destruct Hr. unfold channel_rest in Hh.
  split; [|done]. constructor; simpl; try done.
  - rewrite Hh; [done|by left].
  - rewrite Hh; [done|by right; left].
  - eapply dlist_frame; [|done]. intros k Hk. apply Hh. in_list.
  - eapply Forall2_points_to_frame; [|done]. intros k Hk. apply Hh. in_list.
  - rewrite Hp. done.
  - rewrite Hp. done.
  - destruct rep_wf. by constructor.
Qed.

(** ** Operations *)

Definition emq_queue_subscription_create (name : cstring) (cb : callback) : M ptr :=
  subscription ← malloc (mk_queue_subscription (replicate 64 NUL) None);
  match subscription with
  | None => mret NULL
  | Some _ =>
      match field_bytes (Char 64) (VStr name) with
      | Some name =>
          store subscription (mk_queue_subscription name cb);;
          mret subscription
      | None => undefined OutOfBounds
      end
  end.

Definition emq_channel_subscription_create (name data : cstring) (cb : callback) : M ptr :=
  subscription ← malloc (mk_channel_subscription (replicate 64 NUL) (replicate 32 NUL) None);
  match subscription with
  | None => mret NULL
  | Some _ =>
      match field_bytes (Char 64) (VStr name), field_bytes (Char 32) (VStr data) with
      | Some name, Some data =>
          store subscription (mk_channel_subscription name data cb);;
          mret subscription
      | _, _ => undefined OutOfBounds
      end
  end.

Section operations.
Context (T : Type) `{Slot T}.

(** The end of a subscription: creating it and adding it to its list, whose result is not
    looked at. *)
Definition register (client : ptr) (create : M ptr) : M Z :=
  subscription ← create;
  match subscription with
  | None => fail_with client EMQ_ERROR_ALLOC EMQ_STATUS_ERR
  | Some _ =>
      c ← load client;
      _ ← emq_list_add_value (slot_ptr c) subscription;
      succeed client EMQ_STATUS_OK
  end.

Definition subscribe (client : ptr) (cb : callback) (request : M Z) (cmd : Z) (create : M ptr) :
    M Z :=
  EMQ_CLEAR_ERROR client;;
  match cb with
  | None => fail_with client EMQ_ERROR_DATA EMQ_STATUS_ERR
  | Some _ =>
      transmit client request (write_request client) EMQ_STATUS_ERR
        (acknowledged client (empty_reply cmd) EMQ_STATUS_ERR (register client create))
  end.

(** The loop that deletes the subscriptions of a name. *)
Fixpoint delete_loop (fuel : nat) (list iter : ptr) (name : cstring) : M unit :=
  match fuel with
  | O => out_of_fuel
  | S fuel =>
      '(node, iter) ← emq_list_next iter;
      match node with
      | None => mret tt
      | Some _ =>
          n ← load node;
          subscription ← load (T := T) (node_value n);
          match strcmp_eq (slot_name subscription) (c_bytes name) with
          | None => undefined OutOfBounds
          | Some equal =>
              (if equal : bool then emq_list_delete_node list node else mret tt);;
              delete_loop fuel list iter name
          end
      end
  end.

(** A list has as many nodes as its length says. *)
Definition loop_fuel (list : ptr) : M nat :=
  l ← load (T := emq_list) list; mret (S (Z.to_nat (list_length l))).

Definition remove_subscriptions (client : ptr) (name : cstring) : M unit :=
  c ← load client;
  iter ← emq_list_rewind (slot_ptr c);
  fuel ← loop_fuel (slot_ptr c);
  delete_loop fuel (slot_ptr c) iter name.

Definition unsubscribe (client : ptr) (request : M Z) (cmd : Z) (name : cstring) : M Z :=
  EMQ_CLEAR_ERROR client;;
  transmit client request (write_request client) EMQ_STATUS_ERR
    (acknowledged client (empty_reply cmd) EMQ_STATUS_ERR (
       remove_subscriptions client name;;
       succeed client EMQ_STATUS_OK)).
End operations.

Definition emq_queue_subscribe (client : ptr) (name : cstring) (flags : Z) (cb : callback) : M Z :=
  subscribe emq_queue_subscription client cb (emq_queue_subscribe_request client name flags)
    EMQ_PROTOCOL_CMD_QUEUE_SUBSCRIBE (emq_queue_subscription_create name cb).

Definition emq_queue_unsubscribe (client : ptr) (name : cstring) : M Z :=
  unsubscribe emq_queue_subscription client (emq_queue_unsubscribe_request client name)
    EMQ_PROTOCOL_CMD_QUEUE_UNSUBSCRIBE name.

Definition emq_channel_subscribe (client : ptr) (name topic : cstring) (cb : callback) : M Z :=
  subscribe emq_channel_subscription client cb (emq_channel_subscribe_request client name topic)
    EMQ_PROTOCOL_CMD_CHANNEL_SUBSCRIBE (emq_channel_subscription_create name topic cb).

Definition emq_channel_psubscribe (client : ptr) (name pattern : cstring) (cb : callback) : M Z :=
  subscribe emq_channel_subscription client cb (emq_channel_psubscribe_request client name pattern)
    EMQ_PROTOCOL_CMD_CHANNEL_PSUBSCRIBE (emq_channel_subscription_create name pattern cb).

Definition emq_channel_unsubscribe (client : ptr) (name topic : cstring) : M Z :=
  unsubscribe emq_channel_subscription client (emq_channel_unsubscribe_request client name topic)
    EMQ_PROTOCOL_CMD_CHANNEL_UNSUBSCRIBE name.

(** The reply it expects is the one of [EMQ_PROTOCOL_CMD_CHANNEL_UNSUBSCRIBE]. *)
Definition emq_channel_punsubscribe (client : ptr) (name pattern : cstring) : M Z :=
  unsubscribe emq_channel_subscription client
    (emq_channel_punsubscribe_request client name pattern)
    EMQ_PROTOCOL_CMD_CHANNEL_UNSUBSCRIBE name.

(** ** Specification *)

(** A new subscription; the flag says that its node could not be allocated, and then the
    subscription is lost although the operation succeeds. *)
Definition s_register {T} `{Slot T} (x : T) : Spec (Z * bool) :=
  block ← s_malloc;
  if negb block then s_fail EMQ_ERROR_ALLOC (EMQ_STATUS_ERR, false) else
  xs ← s_get slot_get;
  if decide (Z.of_nat (length xs) + 1 < 2 ^ 64) then
    node ← s_malloc;
    if node : bool then s_put (λ s, slot_set (x :: slot_get s) s);; s_succeed (EMQ_STATUS_OK, false)
    else s_succeed (EMQ_STATUS_OK, true)
  else s_unspecified.

Definition s_subscribe {T} `{Slot T} (call : api_call) (cb : callback) (x : T) : Spec (Z * bool) :=
  s_put (set_ss_error "");;
  match cb with
  | None => s_fail EMQ_ERROR_DATA (EMQ_STATUS_ERR, false)
  | Some _ =>
      s_transmit deliver call [] (EMQ_STATUS_ERR, false)
        (s_acknowledged (empty_reply (call_code call)) (EMQ_STATUS_ERR, false) (s_register x))
  end.

(** The subscriptions of the other names. *)
Definition others {T} `{Slot T} (name : cstring) (xs : list T) : list T :=
  filter (λ x, c_chars (slot_name x) ≠ c_chars name) xs.

Definition s_unsubscribe (T : Type) `{Slot T} (call : api_call) (cmd : Z) (name : cstring) : Spec Z :=
  s_put (set_ss_error "");;
  s_transmit deliver call [] EMQ_STATUS_ERR
    (s_acknowledged (empty_reply cmd) EMQ_STATUS_ERR (
       s_put (λ s, slot_set (others name (slot_get s)) s);;
       s_succeed EMQ_STATUS_OK)).

(** The result of a subscription: at most one leaked block. *)
Definition register_result (f f' : frame) (y : Z) (x : Z * bool) : Prop :=
  y = x.1 ∧
  if x.2 then ∃ k o, fr_heap f !! k = None ∧ f' = set_fr_heap (<[k := o]> (fr_heap f)) f
  else f' = f.

(** ** Simulation *)

(** [create] allocates [x]. *)
Definition creates {T} `{Storable T} (create : M ptr) (x : T) : Prop :=
  ∀ A B l s f w (K : ptr → M A) (K' : bool → Spec B) Φ,
    rep l s f w →
    (∀ v s' w', fr_heap f !! v = None →
      rep l s' (set_fr_heap (<[v := inject x]> (fr_heap f)) f) w' →
      sim l s' (K (Some v)) (K' true) Φ w') →
    (∀ s' w', rep l s' f w' → sim l s' (K NULL) (K' false) Φ w') →
    sim l s (create ≫= K) (s_malloc ≫= K') Φ w.

Lemma field_bytes_array n s :
  strlenz s ≤ Z.of_nat n → field_bytes (Char n) (VStr s) = Some (array_of n s).
Proof. intros Hs. simpl. by rewrite decide_True. Qed.

Lemma creates_queue name cb :
  strlenz name ≤ 64 →
  creates (emq_queue_subscription_create name cb) (mk_queue_subscription (array_of 64 name) cb).
Proof.
  intros Hname A B l s f w K K' Φ Hr Hok Hfail. unfold emq_queue_subscription_create.
  apply sim_assoc. eapply sim_malloc; [done| |done].
  intros v s1 w1 Hv Hr1. rewrite field_bytes_array by done. apply sim_assoc.
  eapply sim_store; [done|apply lookup_insert_eq|]. rewrite fr_heap_twice. simpl.
  rewrite insert_insert_eq. intros w2 Hr2. by eapply Hok.
Qed.

Lemma creates_channel name data cb :
  strlenz name ≤ 64 → strlenz data ≤ 32 →
  creates (emq_channel_subscription_create name data cb)
    (mk_channel_subscription (array_of 64 name) (array_of 32 data) cb).
Proof.
  intros Hname Hdata A B l s f w K K' Φ Hr Hok Hfail. unfold emq_channel_subscription_create.
  apply sim_assoc. eapply sim_malloc; [done| |done].
  intros v s1 w1 Hv Hr1. rewrite !field_bytes_array by done. apply sim_assoc.
  eapply sim_store; [done|apply lookup_insert_eq|]. rewrite fr_heap_twice. simpl.
  rewrite insert_insert_eq. intros w2 Hr2. by eapply Hok.
Qed.

Section slots.
Context {T : Type} `{Slot T} (l : loc).

(** A node and its value among the blocks of a client. *)
Lemma nodes_middle (k n v : loc) (a b : list (loc * loc)) (rest : list loc) :
  k :: (a ++ (n, v) :: b).*1 ++ (a ++ (n, v) :: b).*2 ++ rest ≡ₚ
    n :: v :: k :: (a ++ b).*1 ++ (a ++ b).*2 ++ rest.
Proof using.
  rewrite !fmap_app, !fmap_cons. simpl. rewrite <-!(app_assoc _ (_ :: _)). simpl.
  rewrite <-!Permutation_middle, (Permutation_swap n), (Permutation_swap v).
  by rewrite !app_assoc.
Qed.

(** Adding a block of the frame to the list. *)
Lemma sim_slot_add {A B} v (x : T) f s (K : Z → M A) (K' : bool → Spec B) Φ w :
  rep l s f w → points_to (fr_heap f) v x → slot_wf x →
  Z.of_nat (length (slot_get s)) + 1 < 2 ^ 64 →
  (∀ s' w', slot_get s' = slot_get s →
    rep l (slot_set (x :: slot_get s) s') (set_fr_heap (delete v (fr_heap f)) f) w' →
    sim l s' (K EMQ_STATUS_OK) (K' true) Φ w') →
  (∀ s' w', rep l s' f w' → sim l s' (K EMQ_STATUS_ERR) (K' false) Φ w') →
  sim l s (c ← load (Some l); emq_list_add_value (slot_ptr c) (Some v) ≫= K)
    (s_malloc ≫= K') Φ w.
Proof.
  intros [g Hg] Hv Hwf Hroom Hok Hfail. pose proof (rep_client _ _ _ _ _ Hg) as Hc.
  pose proof (rep_mallocs _ _ _ _ _ Hg) as Hms. pose proof (rep_nodup _ _ _ _ _ Hg) as Hnd.
  pose proof (frame_lookup _ _ _ _ _ _ _ Hg Hv) as [Hvout Hvw].
  destruct (slot_open _ _ _ _ _ Hg) as (Hptr & Hd & Hvals & Hwfs & Hfp).
  apply sim_step. eapply wp_load; [done|]. rewrite Hptr. intros Hns. apply wp_bind.
  unfold s_malloc, mbind, Spec_bind in Hns. rewrite Hms in Hns.
  unfold s_malloc, mbind, Spec_bind. rewrite Hms.
  eapply wp_list_add; [done| | |].
  { pose proof (Forall2_length _ _ _ Hvals) as Hl. rewrite length_fmap in Hl. lia. }
  - intros ms Hw. rewrite Hw in Hns |- *. simpl in *. eapply Hfail; [|done].
    apply rep_set_mallocs. by exists g.
  - intros n h' Hhd Hn Hd' Hh'. rewrite Hhd in Hns |- *.
    destruct (frame_fresh _ _ _ _ _ _ Hg Hn) as [Hnout Hnf].
    assert (n ≠ v) by congruence.
    rewrite Hfp in Hvout, Hnout, Hnd.
    pose proof (nodes_middle (slot_loc g) n v [] (slot_nodes g) (slot_rest l g)) as Hp.
    rewrite !app_nil_l in Hp.
    destruct (slot_close l s f w g h' ((n, v) :: slot_nodes g) (x :: slot_get s)
      (delete v (fr_heap f)) (tail (w_mallocs w)) Hg) as (g' & Hg' & _).
    + intros k Hk. destruct (NoDup_later _ _ _ k Hnd) as [??]; [in_list|].
      apply Hh'; [done| |done]. intros ->. in_list.
    + done.
    + constructor.
      * simpl. rewrite Hh'; [done|in_list|done|in_list].
      * eapply Forall2_points_to_frame; [|done]. intros k Hk.
        destruct (NoDup_later _ _ _ k Hnd) as [??]; [in_list|].
        apply Hh'; [done| |done]. intros ->. in_list.
    + by constructor.
    + rewrite Hp. do 2 (apply NoDup_cons; split; [in_list|]). done.
    + rewrite Hp. intros k. destruct (decide (k = v)) as [->|Hvk].
      { by rewrite lookup_delete_eq, decide_True by by right; left. }
      rewrite lookup_delete_ne by done.
      destruct (decide (k = n)) as [->|Hnk]; [by rewrite decide_True by by left|].
      rewrite (rep_frame _ _ _ _ _ Hg k).
      destruct (decide (k ∈ footprint l g)) as [Hk|Hk]; rewrite Hfp in Hk.
      * rewrite decide_True by in_list. done.
      * rewrite decide_False by in_list. symmetry. apply Hh'; in_list.
    + eapply (Hok _ _ (slot_get_mallocs _ _)); [by exists g'|done].
Qed.

Lemma simulates_register create (x : T) :
  slot_wf x → creates create x →
  simulates l (register T (Some l) create) (s_register x) register_result.
Proof.
  intros Hwf Hcreate f s w Hr. apply Hcreate with (1 := Hr); cbn [negb].
  - intros v s1 w1 Hv Hr1. apply sim_get. case_decide; [|apply sim_unspecified].
    eapply sim_slot_add; [done|apply lookup_insert_eq|done|done| |].
    + intros s2 w2 Hget Hr2. simpl in Hr2. rewrite fr_heap_twice, delete_insert_id in Hr2 by done.
      rewrite set_fr_heap_id in Hr2. apply sim_put. rewrite Hget.
      by eapply sim_succeed.
    + intros s2 w2 Hr2. eapply sim_succeed; [done|]. split; [done|]. simpl. eauto.
  - intros s1 w1 Hr1. by apply simulates_fail.
Qed.

Lemma simulates_subscribe call cb create (x : T) :
  (fits (call_layout call) (call_values call) → slot_wf x ∧ creates create x) →
  simulates l
    (subscribe T (Some l) cb (request_of call (Some l)) (call_code call) create)
    (s_subscribe call cb x) register_result.
Proof.
  intros Hx. apply simulates_clear. destruct cb; [|by apply simulates_fail].
  apply simulates_transmit_fits; [done|]. intros [Hwf Hcreate]%Hx.
  apply simulates_acknowledged; [done|]. by apply simulates_register.
Qed.

(** Deleting one node of the list. *)
Lemma wp_slot_delete blk s f w g a n v b xs (x : T) ys (Q : unit → world → Prop) :
  rep_at l s f w g → slot_nodes g = a ++ (n, v) :: b → slot_get s = xs ++ x :: ys →
  length a = length xs →
  (∀ w' g', rep_at l (slot_set (xs ++ ys) s) f w' g' → slot_nodes g' = a ++ b →
    slot_loc g' = slot_loc g → Q tt w') →
  wp blk (emq_list_delete_node (Some (slot_loc g)) (Some n)) Q w.
Proof.
  intros Hg Hns Hxs Hlen HQ. pose proof (rep_nodup _ _ _ _ _ Hg) as Hnd.
  destruct (slot_open _ _ _ _ _ Hg) as (Hptr & Hd & Hvals & Hwfs & Hfp).
  pose proof (nodes_middle (slot_loc g) n v a b (slot_rest l g)) as Hp.
  rewrite Hfp, Hns, Hp in Hnd. rewrite Hns in Hd. rewrite Hns, Hxs in Hvals.
  apply NoDup_cons in Hnd as [Hn Hnd]. apply NoDup_cons in Hnd as [Hv Hnd].
  rewrite fmap_app, fmap_cons in Hvals.
  apply Forall2_app_inv in Hvals as [Hva Hvb]; [|by rewrite length_fmap].
  apply Forall2_cons in Hvb as [Hvx Hvb]. simpl in Hvx.
  assert (v ≠ n) by (intros ->; in_list).
  eapply wp_list_delete; [exact Hd| | |by eexists|].
  - in_list.
  - rewrite fmap_app, fmap_cons. rewrite fmap_app in Hv. simpl. in_list.
  - intros h' Hd' Hhn Hhv Hh'.
    assert (∀ k, k ≠ slot_loc g → k ≠ v → k ≠ n → k ∉ (a ++ b).*1 → h' !! k = w_heap w !! k)
      as Hh.
    { intros k ???. rewrite fmap_app. intros ?. apply Hh'; [done|done|].
      rewrite fmap_app, fmap_cons. simpl. in_list. }
    pose proof (rep_mallocs _ _ _ _ _ Hg) as Hms.
    destruct (slot_close l s f w g h' (a ++ b) (xs ++ ys) (fr_heap f) (w_mallocs w) Hg)
      as (g' & Hg' & Hloc & Hnodes).
    + intros k Hk. destruct (NoDup_later _ _ _ k Hnd); [in_list|].
      apply Hh; [done|intros ->; in_list|intros ->; in_list|done].
    + done.
    + rewrite fmap_app. apply Forall2_app; (eapply Forall2_points_to_frame; [|done]);
        intros k Hk; (assert (k ∈ (a ++ b).*2) as Hk' by (rewrite fmap_app; in_list));
        (destruct (NoDup_later _ _ _ k Hnd); [in_list|]);
        (apply Hh; [done|intros ->; in_list|intros ->; in_list|done]).
    + rewrite Hxs in Hwfs. apply Forall_app in Hwfs as [? [_ ?]%Forall_cons].
      by apply Forall_app.
    + done.
    + intros k. rewrite (rep_frame _ _ _ _ _ Hg k).
      destruct (decide (k ∈ footprint l g)) as [Hk|Hk]; rewrite Hfp, Hns, Hp in Hk.
      * apply elem_of_cons in Hk as [->|Hk]; [by rewrite Hhn; case_decide|].
        apply elem_of_cons in Hk as [->|Hk]; [by rewrite Hhv; case_decide|].
        by rewrite decide_True.
      * rewrite decide_False by in_list. symmetry. apply Hh; in_list.
    + rewrite <-Hms, set_ss_mallocs_id, Hms, set_fr_heap_id in Hg'.
      by eapply HQ.
Qed.

(** A node of the list and its subscription. *)
Lemma slot_node s f w g a n v b xs (x : T) ys :
  rep_at l s f w g → slot_nodes g = a ++ (n, v) :: b → slot_get s = xs ++ x :: ys →
  length a = length xs →
  points_to (w_heap w) n (mk_node (last_ptr a NULL) (first_ptr b NULL) (Some v)) ∧
  points_to (w_heap w) v x ∧ NUL ∈ slot_name x ∧ length (slot_name x) = 64%nat ∧ v ≠ l.
Proof.
  intros Hg Hns Hxs Hlen.
  destruct (slot_open _ _ _ _ _ Hg) as (_ & [_ Hd _ _] & Hvals & Hwfs & Hfp).
  assert (v ≠ l) as Hvl.
  { pose proof (rep_nodup _ _ _ _ _ Hg) as Hnd. rewrite Hfp, (app_assoc (slot_nodes g).*1) in Hnd.
    destruct (NoDup_later _ _ _ l Hnd (slot_rest_client l g)) as [_ Hl].
    intros ->. apply Hl. rewrite Hns, !fmap_app, !fmap_cons. simpl. in_list. }
  rewrite Hns in Hd. rewrite Hns, Hxs, fmap_app, fmap_cons in Hvals. rewrite Hxs in Hwfs.
  apply dlseg_app in Hd as [_ [Hn _]].
  apply Forall2_app_inv in Hvals as [_ Hvals]; [|by rewrite length_fmap].
  apply Forall2_cons in Hvals as [Hv _].
  apply Forall_app in Hwfs as [_ [Hwf _]%Forall_cons]. by apply slot_wf_name in Hwf as [??].
Qed.

Lemma wp_delete_loop blk fuel name b a xs ys f s w g (Q : unit → world → Prop) :
  rep_at l s f w g → slot_nodes g = a ++ b → slot_get s = xs ++ ys → length a = length xs →
  length b = length ys → (length b < fuel)%nat →
  (∀ w', rep l (slot_set (xs ++ others name ys) s) f w' → Q tt w') →
  wp blk (delete_loop T fuel (Some (slot_loc g)) (first_ptr b NULL) name) Q w.
Proof.
  revert fuel a xs ys s w g Q.
  induction b as [|[n v] b IH]; intros [|fuel] a xs [|x ys] s w g Q Hg Hns Hxs Hax Hby Hf HQ;
    simpl in Hby, Hf; try lia; cbn [delete_loop first_ptr].
  - apply wp_bind, wp_ret. apply HQ. unfold others. rewrite filter_nil, <-Hxs, slot_set_get.
    by exists g.
  - destruct (slot_node _ _ _ _ _ _ _ _ _ _ _ Hg Hns Hxs Hax) as (Hn & Hv & Hnul & Hl & _).
    apply wp_bind. apply wp_bind. eapply wp_load; [exact Hn|]. apply wp_ret.
    apply wp_bind. eapply wp_load; [exact Hn|]. apply wp_bind. eapply wp_load; [exact Hv|].
    rewrite strcmp_eq_string by done. unfold others in HQ. rewrite filter_cons in HQ.
    apply wp_bind. case_bool_decide as Heq.
    + rewrite decide_False in HQ by (intros Hne; by apply Hne).
      eapply wp_slot_delete; [done..|]. intros w1 g1 Hg1 Hns1 Hloc. rewrite <-Hloc.
      eapply IH; [done|done|by rewrite slot_get_set|done|lia|lia|].
      intros w2. rewrite slot_set_set. apply HQ.
    + rewrite decide_True in HQ by done. apply wp_ret.
      eapply (IH fuel (a ++ [(n, v)]) (xs ++ [x])); [done|rewrite <-app_assoc; exact Hns|
        rewrite <-app_assoc; exact Hxs|rewrite !length_app; simpl; lia|lia|lia|].
      intros w2. rewrite <-app_assoc. apply HQ.
Qed.

Lemma refines_remove name :
  refines l (remove_subscriptions T (Some l) name)
    (s_put (λ s, slot_set (others name (slot_get s)) s)).
Proof.
  intros f s w [g Hg] _. pose proof (rep_client _ _ _ _ _ Hg) as Hc.
  destruct (slot_open _ _ _ _ _ Hg) as (Hptr & Hd & Hvals & _).
  apply wp_bind. eapply wp_load; [done|]. rewrite Hptr.
  apply wp_bind. unfold emq_list_rewind. apply wp_bind. eapply wp_load; [apply Hd|]. apply wp_ret.
  apply wp_bind. unfold loop_fuel. apply wp_bind. eapply wp_load; [apply Hd|]. apply wp_ret.
  cbn [list_length list_head]. rewrite Nat2Z.id.
  pose proof (Forall2_length _ _ _ Hvals) as Hlen. rewrite length_fmap in Hlen.
  eapply (wp_delete_loop _ _ _ (slot_nodes g) [] [] (slot_get s) f s w g);
    [done|done|done|done|lia|lia|].
  intros w' Hr. exists tt, (slot_set (others name (slot_get s)) s), f. done.
Qed.

Lemma refines_unsubscribe call cmd name :
  refines l (unsubscribe T (Some l) (request_of call (Some l)) cmd name)
    (s_unsubscribe T call cmd name).
Proof.
  apply simulates_clear, simulates_transmit; [done|]. apply simulates_acknowledged; [done|].
  apply simulates_bind; [apply refines_remove|intros []]. by apply simulates_succeed.
Qed.
End slots.

Lemma wf_name_array n s : strlenz s ≤ Z.of_nat n → wf_name n (array_of n s).
Proof. intros Hs. split; [by apply length_array_of|apply array_of_terminated]. Qed.

Section subscriptions.
Context (l : loc).

Lemma simulates_queue_subscribe name flags cb :
  simulates l (emq_queue_subscribe (Some l) name flags cb)
    (s_subscribe (QueueSubscribe name flags) cb (mk_queue_subscription (array_of 64 name) cb))
    register_result.
Proof.
  apply (simulates_subscribe l (QueueSubscribe name flags)). intros [Hname _].
  split; [by apply wf_name_array|by apply creates_queue].
Qed.

Lemma simulates_channel_subscribe name topic cb :
  simulates l (emq_channel_subscribe (Some l) name topic cb)
    (s_subscribe (ChannelSubscribe name topic) cb
       (mk_channel_subscription (array_of 64 name) (array_of 32 topic) cb))
    register_result.
Proof.
  apply (simulates_subscribe l (ChannelSubscribe name topic)). intros (Hname & Htopic & _).
  split; [split; by apply wf_name_array|by apply creates_channel].
Qed.

Lemma simulates_channel_psubscribe name pattern cb :
  simulates l (emq_channel_psubscribe (Some l) name pattern cb)
    (s_subscribe (ChannelPsubscribe name pattern) cb
       (mk_channel_subscription (array_of 64 name) (array_of 32 pattern) cb))
    register_result.
Proof.
  apply (simulates_subscribe l (ChannelPsubscribe name pattern)). intros (Hname & Hpattern & _).
  split; [split; by apply wf_name_array|by apply creates_channel].
Qed.

Lemma refines_queue_unsubscribe name :
  refines l (emq_queue_unsubscribe (Some l) name)
    (s_unsubscribe emq_queue_subscription (QueueUnsubscribe name)
       EMQ_PROTOCOL_CMD_QUEUE_UNSUBSCRIBE name).
Proof. apply (refines_unsubscribe l (QueueUnsubscribe name)). Qed.

Lemma refines_channel_unsubscribe name topic :
  refines l (emq_channel_unsubscribe (Some l) name topic)
    (s_unsubscribe emq_channel_subscription (ChannelUnsubscribe name topic)
       EMQ_PROTOCOL_CMD_CHANNEL_UNSUBSCRIBE name).
Proof. apply (refines_unsubscribe l (ChannelUnsubscribe name topic)). Qed.

Lemma refines_channel_punsubscribe name pattern :
  refines l (emq_channel_punsubscribe (Some l) name pattern)
    (s_unsubscribe emq_channel_subscription (ChannelPunsubscribe name pattern)
       EMQ_PROTOCOL_CMD_CHANNEL_UNSUBSCRIBE name).
Proof. apply (refines_unsubscribe l (ChannelPunsubscribe name pattern)). Qed.
End subscriptions.

(** The world in which an execution ends. *)
Definition final {A} (o : outcome A) (w : world) : world :=
  match o with Returns _ w' => w' | _ => w end.

(** The client of [Sample.v] once it has subscribed to the queue [q] with the callback [id]; the
    peer then sends [rx]. *)
Definition subscribed_world (id : nat) (rx : list byte) : world :=
  let w := sample ∅ (response_header_bytes (success_reply (QueueSubscribe [Byte.x71] 0)) ++ rx) [] []
  in final (emq_queue_subscribe (Some 1%positive) [Byte.x71] 0 (Some id) w) w.

Definition subscribed_session (id : nat) (rx : list byte) : session :=
  mk_session EMQ_STATUS_OK "" 0 [mk_queue_subscription (array_of 64 [Byte.x71]) (Some id)] []
    (RxByte <$> rx) [] (default [] (encode 0 (QueueSubscribe [Byte.x71] 0))) [].

(** The same client, subscribed to the topic [t] of the channel [c]. *)
Definition channel_world (id : nat) (rx : list byte) : world :=
  let w := sample ∅ (response_header_bytes
    (success_reply (ChannelSubscribe [Byte.x63] [Byte.x74])) ++ rx) [] []
  in final (emq_channel_subscribe (Some 1%positive) [Byte.x63] [Byte.x74] (Some id) w) w.

Definition channel_session (id : nat) (rx : list byte) : session :=
  mk_session EMQ_STATUS_OK "" 0 []
    [mk_channel_subscription (array_of 64 [Byte.x63]) (array_of 32 [Byte.x74]) (Some id)]
    (RxByte <$> rx) [] (default [] (encode 0 (ChannelSubscribe [Byte.x63] [Byte.x74]))) [].

Lemma subscribed_sample {T} `{Slot T} (m : M Z) (call : api_call) cb (x : T) s rx :
  simulates 1%positive m (s_subscribe call cb x) register_result →
  s_subscribe call cb x (sample_session rx [] []) = Answer (EMQ_STATUS_OK, false) s →
  rep 1%positive s (sample_frame ∅) (final (m (sample ∅ rx [] [])) (sample ∅ rx [] [])).
Proof.
  intros Hm Ha.
  assert (rep 1%positive (sample_session rx [] []) (sample_frame ∅) (sample ∅ rx [] [])) as Hr
    by (apply sample_rep; by repeat constructor).
  pose proof (sim_implements _ _ _ _ _ _ _ (Hm _ _ _ Hr)) as Hi. unfold implements in Hi.
  rewrite Ha in Hi. destruct Hi as (y & f & w' & -> & Hr' & Hy & Hf). simpl in Hf. by subst f.
Qed.

Lemma subscribed_rep id rx :
  rep 1%positive (subscribed_session id rx) (sample_frame ∅) (subscribed_world id rx).
Proof.
  refine (subscribed_sample _ _ _ _ _ (_ ++ rx)
    (simulates_queue_subscribe 1%positive [Byte.x71] 0 (Some id)) _).
  unfold subscribed_session. rewrite <-(app_nil_r (RxByte <$> rx)). by vm_compute.
Qed.

Lemma channel_rep id rx :
  rep 1%positive (channel_session id rx) (sample_frame ∅) (channel_world id rx).
Proof.
  refine (subscribed_sample _ _ _ _ _ (_ ++ rx)
    (simulates_channel_subscribe 1%positive [Byte.x63] [Byte.x74] (Some id)) _).
  unfold channel_session. rewrite <-(app_nil_r (RxByte <$> rx)). by vm_compute.
Qed.

(** ** The exchanges in closed form *)

Lemma s_subscribe_success {T} `{Slot T} call id (x : T) s bs d tx wr rest :
  ss_noack s = 0 → encode 0 call = Some bs → deliver (ss_wr s) bs = (d, tx, wr) → d ≠ Failed →
  ss_rx s = (RxByte <$> response_header_bytes (success_reply call)) ++ rest →
  memory_available s →
  (∀ s', ss_queues s' = ss_queues s → ss_channels s' = ss_channels s →
    Z.of_nat (length (slot_get s')) + 1 < 2 ^ 64) →
  s_subscribe call (Some id) x s =
    let s' := allocated 2 (set_ss_rx rest (after_sending s tx wr)) in
    Answer (EMQ_STATUS_OK, false) (set_ss_status EMQ_STATUS_OK (slot_set (x :: slot_get s') s')).
Proof.
  intros Hno Henc Hd Hok Hrx [Hm1 Hm2] Hlen. rewrite <-Hno in Henc. unfold s_subscribe.
  rewrite (s_transmit_sent _ _ _ _ _ _ bs d tx wr); [|done|by rewrite app_nil_r|done].
  rewrite (s_acknowledged_success _ _ _ _ rest) by done. unfold s_register, s_malloc.
  unfold mbind, Spec_bind. cbn [ss_mallocs set_ss_mallocs set_ss_rx after_sending set_ss_wr
    set_ss_tx set_ss_error]. rewrite Hm1. cbn [negb].
  unfold s_get. rewrite decide_True by by apply Hlen. cbn [ss_mallocs set_ss_mallocs]. rewrite Hm2.
  unfold allocated, s_put, s_succeed, set_ss_mallocs, set_ss_rx. cbn.
  by destruct (ss_mallocs s) as [|? [|??]].
Qed.

Lemma s_unsubscribe_success T `{Slot T} call name s bs d tx wr rest :
  ss_noack s = 0 → encode 0 call = Some bs → deliver (ss_wr s) bs = (d, tx, wr) → d ≠ Failed →
  ss_rx s = (RxByte <$> response_header_bytes (success_reply call)) ++ rest →
  s_unsubscribe T call (call_code call) name s =
    let s' := set_ss_rx rest (after_sending s tx wr) in
    Answer EMQ_STATUS_OK (set_ss_status EMQ_STATUS_OK (slot_set (others name (slot_get s')) s')).
Proof.
  intros Hno Henc Hd Hok Hrx. rewrite <-Hno in Henc. unfold s_unsubscribe.
  rewrite (s_transmit_sent _ _ _ _ _ _ bs d tx wr); [|done|by rewrite app_nil_r|done].
  by rewrite (s_acknowledged_success _ _ _ _ rest) by done.
Qed.

(** A call that subscribes: the operation, and the subscription it adds to the session. *)
Definition subscription_call (call : api_call) (cb : callback) :
    option ((ptr → M Z) * (session → session)) :=
  match call with
  | QueueSubscribe name flags => Some
      (λ client, emq_queue_subscribe client name flags cb,
       λ s, set_ss_queues (mk_queue_subscription (array_of 64 name) cb :: ss_queues s) s)
  | ChannelSubscribe name topic => Some
      (λ client, emq_channel_subscribe client name topic cb,
       λ s, set_ss_channels
         (mk_channel_subscription (array_of 64 name) (array_of 32 topic) cb :: ss_channels s) s)
  | ChannelPsubscribe name pattern => Some
      (λ client, emq_channel_psubscribe client name pattern cb,
       λ s, set_ss_channels
         (mk_channel_subscription (array_of 64 name) (array_of 32 pattern) cb :: ss_channels s) s)
  | _ => None
  end.

(** A call that unsubscribes: the operation, and what it leaves of the session. *)
Definition unsubscription_call (call : api_call) : option ((ptr → M Z) * (session → session)) :=
  match call with
  | QueueUnsubscribe name => Some
      (λ client, emq_queue_unsubscribe client name,
       λ s, set_ss_queues (others name (ss_queues s)) s)
  | ChannelUnsubscribe name topic => Some
      (λ client, emq_channel_unsubscribe client name topic,
       λ s, set_ss_channels (others name (ss_channels s)) s)
  | _ => None
  end.

(** What a subscription returns, and the block it may leak. *)
Lemma subscribe_ends {T} `{Slot T} (m : M Z) call cb (x : T) l f s w s' :
  simulates l m (s_subscribe call cb x) register_result → rep l s f w →
  s_subscribe call cb x s = Answer (EMQ_STATUS_OK, false) s' →
  ∃ w', m w = Returns EMQ_STATUS_OK w' ∧ rep l s' f w'.
Proof.
  intros Hm Hr Ha. pose proof (sim_implements _ _ _ _ _ _ _ (Hm _ _ _ Hr)) as Hi.
  unfold implements in Hi. rewrite Ha in Hi.
  destruct Hi as (y & f' & w' & Hw & Hr' & Hy & Hf). simpl in Hy, Hf. subst. eauto.
Qed.

(** ** Theorems *)

(** C7: the three subscribing operations do what the specification
    [s_subscribe] says on every branch: a missing callback or a string that does not fit is
    refused before anything is sent, a failed exchange or a failed allocation adds nothing, and a
    success adds exactly one subscription at the head of its list.  The flag of the specification
    is the one leak: when the node of the list cannot be allocated the operation returns
    [EMQ_STATUS_OK], the subscription is lost and its block stays behind. *)
Theorem subscribe_refines l f s w cb name flags topic :
  rep l s f w →
  implements l (emq_queue_subscribe (Some l) name flags cb)
    (s_subscribe (QueueSubscribe name flags) cb (mk_queue_subscription (array_of 64 name) cb))
    register_result f s w ∧
  implements l (emq_channel_subscribe (Some l) name topic cb)
    (s_subscribe (ChannelSubscribe name topic) cb
       (mk_channel_subscription (array_of 64 name) (array_of 32 topic) cb)) register_result f s w ∧
  implements l (emq_channel_psubscribe (Some l) name topic cb)
    (s_subscribe (ChannelPsubscribe name topic) cb
       (mk_channel_subscription (array_of 64 name) (array_of 32 topic) cb)) register_result f s w.
Proof.
  intros Hr. split_and!; apply sim_implements.
  - by apply simulates_queue_subscribe.
  - by apply simulates_channel_subscribe.
  - by apply simulates_channel_psubscribe.
Qed.

Lemma subscribe_refines_witness :
  let rx := response_header_bytes (success_reply (QueueSubscribe [Byte.x71] 0)) in
  let a := s_subscribe (QueueSubscribe [Byte.x71] 0) (Some 0%nat)
    (mk_queue_subscription (array_of 64 [Byte.x71]) (Some 0%nat)) in
  implements 1%positive (emq_queue_subscribe (Some 1%positive) [Byte.x71] 0 (Some 0%nat)) a
    register_result (sample_frame ∅) (sample_session rx [] [true; false])
    (sample ∅ rx [] [true; false]) ∧
  ∃ s', a (sample_session rx [] [true; false]) = Answer (EMQ_STATUS_OK, true) s' ∧ ss_queues s' = [].
Proof.
  intros rx a. split.
  - refine (proj1 (subscribe_refines 1%positive (sample_frame ∅)
      (sample_session rx [] [true; false]) (sample ∅ rx [] [true; false]) (Some 0%nat)
      [Byte.x71] 0 [] _)). apply sample_rep. by repeat constructor.
  - subst a. eexists. split; [vm_compute; reflexivity|reflexivity].
Defined.

(** Fact: when the server acknowledges and memory is available, a subscribing
    operation returns [EMQ_STATUS_OK], has sent its request, consumed the reply, and the new
    subscription, with its name and topic as the server knows them, is the first of its list. *)
Theorem subscribe_success call id m add l f s w bs d tx wr rest :
  subscription_call call (Some id) = Some (m, add) → rep l s f w → ss_noack s = 0 →
  encode 0 call = Some bs → deliver (ss_wr s) bs = (d, tx, wr) → d ≠ Failed →
  ss_rx s = (RxByte <$> response_header_bytes (success_reply call)) ++ rest →
  memory_available s →
  Z.of_nat (length (ss_queues s)) + 1 < 2 ^ 64 → Z.of_nat (length (ss_channels s)) + 1 < 2 ^ 64 →
  ∃ w', m (Some l) w = Returns EMQ_STATUS_OK w' ∧
    rep l (set_ss_status EMQ_STATUS_OK
      (add (allocated 2 (set_ss_rx rest (after_sending s tx wr))))) f w'.
Proof.
  intros Hcall Hr Hno Henc Hd Hok Hrx Hmem Hq Hc.
  destruct call; try discriminate Hcall; injection Hcall as <- <-.
  - refine (subscribe_ends _ _ _ _ _ _ _ _ _ (simulates_queue_subscribe l _ _ _) Hr _).
    rewrite (s_subscribe_success _ id _ s bs d tx wr rest Hno Henc Hd Hok Hrx Hmem); [done|]. intros s' Hs' _. cbn. by rewrite Hs'.
  - refine (subscribe_ends _ _ _ _ _ _ _ _ _ (simulates_channel_subscribe l _ _ _) Hr _).
    rewrite (s_subscribe_success _ id _ s bs d tx wr rest Hno Henc Hd Hok Hrx Hmem); [done|]. intros s' _ Hs'. cbn. by rewrite Hs'.
  - refine (subscribe_ends _ _ _ _ _ _ _ _ _ (simulates_channel_psubscribe l _ _ _) Hr _).
    rewrite (s_subscribe_success _ id _ s bs d tx wr rest Hno Henc Hd Hok Hrx Hmem); [done|]. intros s' _ Hs'. cbn. by rewrite Hs'.
Qed.

Lemma subscribe_success_witness :
  let call := ChannelPsubscribe [Byte.x63] [Byte.x2a] in
  let rx := response_header_bytes (success_reply call) in
  ∃ w', emq_channel_psubscribe (Some 1%positive) [Byte.x63] [Byte.x2a] (Some 5%nat)
      (sample ∅ rx [] []) = Returns EMQ_STATUS_OK w' ∧
    rep 1%positive (set_ss_status EMQ_STATUS_OK (set_ss_channels
      [mk_channel_subscription (array_of 64 [Byte.x63]) (array_of 32 [Byte.x2a]) (Some 5%nat)]
      (allocated 2 (set_ss_rx [] (after_sending (sample_session rx [] [])
        (default [] (encode 0 call)) []))))) (sample_frame ∅) w'.
Proof.
  intros call rx.
  apply (subscribe_success call 5 (λ client, emq_channel_psubscribe client [Byte.x63] [Byte.x2a]
      (Some 5%nat)) (λ s, set_ss_channels (mk_channel_subscription (array_of 64 [Byte.x63])
        (array_of 32 [Byte.x2a]) (Some 5%nat) :: ss_channels s) s)
    1%positive (sample_frame ∅) (sample_session rx [] []) (sample ∅ rx [] [])
    (default [] (encode 0 call)) Sent (default [] (encode 0 call)) [] []);
    [reflexivity|apply sample_rep; by repeat constructor|reflexivity|reflexivity|reflexivity|
     discriminate|reflexivity|split; reflexivity|reflexivity|reflexivity].
Defined.

(** C8: the three unsubscribing operations do what [s_unsubscribe] says on
    every branch, freeing exactly the nodes and the subscriptions that they remove;
    [emq_channel_punsubscribe] does so for the reply of another command than its own. *)
Theorem unsubscribe_refines l f s w name topic :
  rep l s f w →
  ends_as l (emq_queue_unsubscribe (Some l) name)
    (s_unsubscribe emq_queue_subscription (QueueUnsubscribe name)
       EMQ_PROTOCOL_CMD_QUEUE_UNSUBSCRIBE name s) f w ∧
  ends_as l (emq_channel_unsubscribe (Some l) name topic)
    (s_unsubscribe emq_channel_subscription (ChannelUnsubscribe name topic)
       EMQ_PROTOCOL_CMD_CHANNEL_UNSUBSCRIBE name s) f w ∧
  ends_as l (emq_channel_punsubscribe (Some l) name topic)
    (s_unsubscribe emq_channel_subscription (ChannelPunsubscribe name topic)
       EMQ_PROTOCOL_CMD_CHANNEL_UNSUBSCRIBE name s) f w.
Proof.
  intros Hr. split_and!; (eapply refines_outcome; [|exact Hr]).
  - apply refines_queue_unsubscribe.
  - apply refines_channel_unsubscribe.
  - apply refines_channel_punsubscribe.
Qed.

Lemma unsubscribe_refines_witness :
  ends_as 1%positive (emq_queue_unsubscribe (Some 1%positive) [Byte.x71])
    (s_unsubscribe emq_queue_subscription (QueueUnsubscribe [Byte.x71])
       EMQ_PROTOCOL_CMD_QUEUE_UNSUBSCRIBE [Byte.x71] (subscribed_session 0 [Byte.x00]))
    (sample_frame ∅) (subscribed_world 0 [Byte.x00]).
Proof.
  refine (proj1 (unsubscribe_refines 1%positive (sample_frame ∅) (subscribed_session 0 [Byte.x00])
    (subscribed_world 0 [Byte.x00]) [Byte.x71] [] _)).
  apply subscribed_rep.
Defined.

(** C28: when the server acknowledges, [emq_queue_unsubscribe] and
    [emq_channel_unsubscribe] return [EMQ_STATUS_OK] and leave exactly the subscriptions of the
    other names, in their order: for a channel the topic plays no part, the subscriptions of its
    other topics and patterns go too. *)
Theorem unsubscribe_success call m remove l f s w bs d tx wr rest :
  unsubscription_call call = Some (m, remove) → rep l s f w → ss_noack s = 0 →
  encode 0 call = Some bs → deliver (ss_wr s) bs = (d, tx, wr) → d ≠ Failed →
  ss_rx s = (RxByte <$> response_header_bytes (success_reply call)) ++ rest →
  ∃ w', m (Some l) w = Returns EMQ_STATUS_OK w' ∧
    rep l (set_ss_status EMQ_STATUS_OK (remove (set_ss_rx rest (after_sending s tx wr)))) f w'.
Proof.
  intros Hcall Hr Hno Henc Hd Hok Hrx.
  destruct call; try discriminate Hcall; injection Hcall as <- <-.
  - refine (refines_answer _ _ _ _ _ _ _ _ (refines_queue_unsubscribe l _) Hr _).
    change EMQ_PROTOCOL_CMD_QUEUE_UNSUBSCRIBE with (call_code (QueueUnsubscribe name)).
    by rewrite (s_unsubscribe_success _ _ name s bs d tx wr rest Hno Henc Hd Hok Hrx).
  - refine (refines_answer _ _ _ _ _ _ _ _ (refines_channel_unsubscribe l _ _) Hr _).
    change EMQ_PROTOCOL_CMD_CHANNEL_UNSUBSCRIBE with (call_code (ChannelUnsubscribe name topic)).
    by rewrite (s_unsubscribe_success _ _ name s bs d tx wr rest Hno Henc Hd Hok Hrx).
Qed.

Lemma unsubscribe_success_witness :
  let call := ChannelUnsubscribe [Byte.x63] [Byte.x75] in
  let rx := response_header_bytes (success_reply call) in
  ∃ w', emq_channel_unsubscribe (Some 1%positive) [Byte.x63] [Byte.x75] (channel_world 0 rx) =
      Returns EMQ_STATUS_OK w' ∧
    rep 1%positive (set_ss_status EMQ_STATUS_OK (set_ss_channels []
      (set_ss_rx [] (after_sending (channel_session 0 rx) (default [] (encode 0 call)) []))))
      (sample_frame ∅) w'.
Proof.
  intros call rx.
  refine (unsubscribe_success call
    (λ client, emq_channel_unsubscribe client [Byte.x63] [Byte.x75])
    (λ s, set_ss_channels (others [Byte.x63] (ss_channels s)) s)
    1%positive (sample_frame ∅) (channel_session 0 rx) (channel_world 0 rx)
    (default [] (encode 0 call)) Sent (default [] (encode 0 call)) [] [] _ _ _ _ _ _ _);
    [reflexivity|apply channel_rep|reflexivity|reflexivity|reflexivity|discriminate|reflexivity].
Defined.

(** C29: [emq_channel_punsubscribe] fails exactly when the server does as it
    is asked: to the acknowledgement of its own command it answers "Response error" and
    [EMQ_STATUS_ERR], and the subscription, which the server has dropped, stays in the client. *)
Theorem punsubscribe_rejects l f s w name pattern bs d tx wr rest :
  rep l s f w → ss_noack s = 0 → encode 0 (ChannelPunsubscribe name pattern) = Some bs →
  deliver (ss_wr s) bs = (d, tx, wr) → d ≠ Failed →
  ss_rx s = (RxByte <$> response_header_bytes (success_reply (ChannelPunsubscribe name pattern)))
    ++ rest →
  ∃ s' w', emq_channel_punsubscribe (Some l) name pattern w = Returns EMQ_STATUS_ERR w' ∧
    rep l s' f w' ∧ ss_error s' = "Response error"%string ∧ ss_channels s' = ss_channels s.
Proof.
  intros Hr Hno Henc Hd Hok Hrx. rewrite <-Hno in Henc.
  set (s' := set_ss_status EMQ_STATUS_ERR (set_ss_error "Response error"
    (set_ss_rx rest (after_sending s tx wr)))).
  destruct (refines_answer _ _ _ _ _ _ EMQ_STATUS_ERR s'
    (refines_channel_punsubscribe l name pattern) Hr) as (w' & Hw & Hr'); [|by exists s', w'].
  unfold s_unsubscribe.
  rewrite (s_transmit_sent _ _ _ _ _ _ bs d tx wr); [|done|by rewrite app_nil_r|done].
  unfold s_acknowledged, s_expect, s_recv, mbind, Spec_bind, s_get.
  cbn [ss_noack ss_rx after_sending set_ss_wr set_ss_tx set_ss_error].
  rewrite Hno. rewrite (decide_True (P := 0 = 0)) by done.
  change (ss_rx (after_sending s tx wr)) with (ss_rx s).
  rewrite Hrx, take_rx_exact by apply length_response_header_bytes.
  rewrite <-(app_nil_r (response_header_bytes _)), read_response_header_bytes. reflexivity.
Qed.

Lemma punsubscribe_rejects_witness :
  let rx := response_header_bytes (success_reply (ChannelPunsubscribe [Byte.x63] [Byte.x74])) in
  ∃ s' w', emq_channel_punsubscribe (Some 1%positive) [Byte.x63] [Byte.x74] (channel_world 0 rx) =
      Returns EMQ_STATUS_ERR w' ∧
    rep 1%positive s' (sample_frame ∅) w' ∧ ss_error s' = "Response error"%string ∧
    ss_channels s' = ss_channels (channel_session 0 rx).
Proof.
  intros rx.
  refine (punsubscribe_rejects 1%positive (sample_frame ∅) (channel_session 0 rx)
    (channel_world 0 rx) [Byte.x63] [Byte.x74]
    (default [] (encode 0 (ChannelPunsubscribe [Byte.x63] [Byte.x74]))) Sent
    (default [] (encode 0 (ChannelPunsubscribe [Byte.x63] [Byte.x74]))) [] [] _ _ _ _ _ _);
    [apply channel_rep|reflexivity|reflexivity|reflexivity|discriminate|reflexivity].
Defined.
