(* ===== verification/Kept.v ===== *)
(** What every operation does to the session: a relation that each primitive step of a
    specification respects ([Kept]) is respected by the specification of every operation of the
    library. The event loop uses this to terminate (the stream of the server never grows), the
    programs to know that memory does not run out, the types of the client to be preserved. *)

From S2P Require Import Prelude Types Machine Lists Network Protocol Client Session Packet Commands.
From S2P Require Import Messages Queries Listings Subscriptions.

(** ** Relations that the answers of a specification respect *)

Definition respects (R : relation session) {A} (a : Spec A) : Prop :=
  ∀ s x s', a s = Answer x s' → R s s'.

Section respects.
Context (R : relation session) `{!PreOrder R}.

Lemma respects_ret {A} (x : A) : respects R (mret x).
Proof. by intros s y s' [= _ <-]. Qed.

Lemma respects_bind {A B} (a : Spec A) (k : A → Spec B) :
  respects R a → (∀ x, respects R (k x)) → respects R (a ≫= k).
Proof.
  intros Ha Hk s y s'. unfold mbind, Spec_bind. destruct (a s) as [x s1| |] eqn:Hs; [|done..].
  intros Hy. etrans; [by eapply Ha|by eapply Hk].
Qed.

Lemma respects_get {A} (g : session → A) : respects R (s_get g).
Proof. by intros s x s' [= _ <-]. Qed.

Lemma respects_put g : (∀ s, R s (g s)) → respects R (s_put g).
Proof. intros Hg s x s' [= _ <-]. apply Hg. Qed.

Lemma respects_unspecified {A} : respects R (A := A) s_unspecified.
Proof. by intros s x s'. Qed.
End respects.

(** A relation that every primitive step of a specification respects is respected by every
    specification of the library. *)
Class Kept (R : relation session) : Prop := {
  #[global] kept_preorder :: PreOrder R;
  kept_status v s : v = EMQ_STATUS_OK ∨ v = EMQ_STATUS_ERR → R s (set_ss_status v s);
  kept_error e s : R s (set_ss_error (error_message e) s);
  kept_noack v s : v = 0 ∨ v = 1 → R s (set_ss_noack v s);
  kept_queues xs s : R s (set_ss_queues xs s);
  kept_channels xs s : R s (set_ss_channels xs s);
  kept_received n bs rest s :
    take_rx n (ss_rx s) = TkGot bs rest ∨ take_rx n (ss_rx s) = TkFail rest →
    R s (set_ss_rx rest s);
  kept_sent wr tx s : R s (set_ss_wr wr (set_ss_tx tx s));
  kept_allocated s : R s (set_ss_mallocs (tail (ss_mallocs s)) s);
}.

Section kept.
Context (R : relation session) `{!Kept R}.

Lemma respects_set_status v :
  v = EMQ_STATUS_OK ∨ v = EMQ_STATUS_ERR → respects R (s_put (set_ss_status v)).
Proof. intros Hv. apply respects_put. intros s. by apply kept_status. Qed.

Lemma respects_set_error e : respects R (s_put (set_ss_error (error_message e))).
Proof. apply respects_put. intros s. apply kept_error. Qed.

Lemma respects_clear_error : respects R (s_put (set_ss_error "")).
Proof. exact (respects_set_error 0). Qed.

Lemma respects_set_noack v : v = 0 ∨ v = 1 → respects R (s_put (set_ss_noack v)).
Proof. intros Hv. apply respects_put. intros s. by apply kept_noack. Qed.

Lemma respects_malloc : respects R s_malloc.
Proof. intros s x s' [= _ <-]. apply kept_allocated. Qed.

Lemma respects_send how bs : respects R (s_send how bs).
Proof.
  intros s x s'. unfold s_send. destruct (how _ bs) as [[r d] wr]. intros [= _ <-]. apply kept_sent.
Qed.

Lemma respects_recv n : respects R (s_recv n).
Proof.
  intros s x s'. unfold s_recv. destruct (take_rx n (ss_rx s)) eqn:Ht; [| |done]; intros [= _ <-].
  - eapply kept_received; eauto.
  - eapply (kept_received n []); eauto.
Qed.

Lemma respects_fail {A} e (r : A) : respects R (s_fail e r).
Proof.
  apply (respects_bind R); [apply respects_set_error|intros _].
  apply (respects_bind R); [by apply respects_set_status; right|intros _]. apply (respects_ret R).
Qed.
End kept.

Create HintDb kept.
#[export] Hint Extern 0 (PreOrder _) => exact _ : kept.
#[export] Hint Extern 0 (Kept _) => exact _ : kept.
#[export] Hint Extern 1 (respects _ (mret _)) => apply respects_ret : kept.
#[export] Hint Extern 1 (respects _ (s_get _)) => apply respects_get : kept.
#[export] Hint Extern 1 (respects _ s_unspecified) => apply respects_unspecified : kept.
#[export] Hint Extern 1 (respects _ (s_put (set_ss_status _))) =>
  apply respects_set_status; [exact _|first [by left|by right]] : kept.
#[export] Hint Extern 1 (respects _ (s_put (set_ss_error _))) =>
  first [apply respects_set_error|apply respects_clear_error] : kept.
#[export] Hint Extern 1 (respects _ (s_put (set_ss_noack _))) =>
  apply respects_set_noack; [exact _|first [by left|by right]] : kept.
#[export] Hint Resolve respects_malloc respects_send respects_recv respects_fail : kept.

(** Goes through a specification. *)
Ltac keep := repeat first
  [ solve [auto with kept]
  | apply respects_bind; [exact _| |intros]
  | case_match ].

(** ** The phases of an exchange *)

Section phases.
Context (R : relation session) `{!Kept R}.

Lemma respects_succeed {A} (r : A) : respects R (s_succeed r).
Proof. unfold s_succeed. keep. Qed.
Hint Resolve respects_succeed : kept.

Lemma respects_transmit {A} how call payload (r : A) k :
  respects R k → respects R (s_transmit how call payload r k).
Proof. intros Hk. unfold s_transmit. keep. Qed.

Lemma respects_examine {A} check header (r : A) k :
  respects R k → respects R (s_examine check header r k).
Proof. intros Hk. unfold s_examine. keep. Qed.

Lemma respects_expect {A} check (r : A) k :
  (∀ header, respects R (k header)) → respects R (s_expect check r k).
Proof. intros Hk. pose proof (@respects_examine A). unfold s_expect. keep. Qed.

Lemma respects_acknowledged {A} check (r : A) k :
  respects R k → respects R (s_acknowledged check r k).
Proof. intros Hk. pose proof (@respects_expect A). unfold s_acknowledged. keep. Qed.

Lemma respects_error {A} e (r : A) : respects R (s_error e r).
Proof. unfold s_error. keep. Qed.
Hint Resolve respects_error : kept.

Lemma respects_read_message size : respects R (s_read_message size).
Proof. unfold s_read_message. keep. Qed.

Lemma respects_records {T} (records acc : list T) leaked : respects R (s_records records acc leaked).
Proof. revert acc leaked. induction records as [|x records IH]; intros acc leaked; simpl; keep. Qed.
End phases.

#[export] Hint Resolve respects_succeed respects_error respects_read_message respects_records : kept.

(** Goes through the phases of an operation. *)
Ltac keep ::= repeat first
  [ solve [auto with kept]
  | lazymatch goal with
    | |- respects _ (s_transmit _ _ _ _ _) => apply respects_transmit; [exact _|]
    | |- respects _ (s_acknowledged _ _ _) => apply respects_acknowledged; [exact _|]
    | |- respects _ (s_expect _ _ _) => apply respects_expect; [exact _|intros]
    | |- respects _ (s_examine _ _ _ _) => apply respects_examine; [exact _|]
    end
  | apply respects_bind; [exact _| |intros]
  | case_match ].

(** ** The operations *)

(** The subscriptions of a client may be set. *)
Class KeptSlot (R : relation session) (T : Type) `{Slot T} : Prop :=
  kept_slot (xs : list T) s : R s (slot_set xs s).

#[export] Instance kept_slot_queues R `{!Kept R} : KeptSlot R emq_queue_subscription.
Proof. intros xs s. apply kept_queues. Qed.
#[export] Instance kept_slot_channels R `{!Kept R} : KeptSlot R emq_channel_subscription.
Proof. intros xs s. apply kept_channels. Qed.

Section operations.
Context (R : relation session) `{!Kept R}.

Lemma respects_command call : respects R (s_command call).
Proof. keep. Qed.

Lemma respects_query call r : respects R (s_query call r).
Proof. keep. Qed.

Lemma respects_stat : respects R s_stat.
Proof. keep. Qed.

Lemma respects_push call payload size : respects R (s_push call payload size).
Proof. keep. Qed.

Lemma respects_fetch call : respects R (s_fetch call).
Proof. keep. Qed.

Lemma respects_listing T `{WireRecord T} call : respects R (s_listing T call).
Proof. keep. Qed.

Lemma respects_slot {T} `{KeptSlot R T} (g : session → list T) :
  respects R (s_put (λ s, slot_set (g s) s)).
Proof. apply respects_put. intros s. apply kept_slot. Qed.
Hint Resolve respects_slot : kept.

Lemma respects_subscribe {T} `{KeptSlot R T} call cb (x : T) : respects R (s_subscribe call cb x).
Proof. pose proof (respects_slot (T := T) (λ s, x :: slot_get s)). keep. Qed.

Lemma respects_unsubscribe T `{KeptSlot R T} call cmd name :
  respects R (s_unsubscribe T call cmd name).
Proof. pose proof (respects_slot (T := T) (λ s, others name (slot_get s))). keep. Qed.
End operations.

#[export] Hint Extern 0 (KeptSlot _ _) => exact _ : kept.
#[export] Hint Resolve respects_command respects_query respects_stat respects_push respects_fetch
  respects_listing respects_subscribe respects_unsubscribe : kept.

(** ** Two relations *)

(** The bytes that the server sends get fewer. *)
Definition shorter : relation session := λ s s', (length (ss_rx s') ≤ length (ss_rx s))%nat.

#[export] Instance shorter_kept : Kept shorter.
Proof.
  unfold shorter. constructor; [split; [intros s|intros s1 s2 s3]; lia|done..| | |done].
  - intros n bs rest s Ht. pose proof (take_rx_shorter n (ss_rx s)) as Hl. simpl.
    destruct Ht as [Ht|Ht]; rewrite Ht in Hl; lia.
  - done.
Qed.

(** Memory that does not run out goes on not to. *)
Definition plentiful : relation session := λ s s', ss_mallocs s = [] → ss_mallocs s' = [].

#[export] Instance plentiful_kept : Kept plentiful.
Proof.
  unfold plentiful. constructor; [split; [intros s|intros s1 s2 s3]; auto|done..|].
  intros s Hs. simpl. by rewrite Hs.
Qed.
