(* ===== verification/Process.v ===== *)
(** Events (lines 2750-2908 of [src/src/emq.c]): [emq_queue_process], [emq_channel_process] and
    the loop of [emq_process], for any callbacks.

    Callbacks may keep a state of their own in memory: [Callbacks] is their contract, with the
    function that places this state in the frame, and what they promise on it. *)

From S2P Require Import Prelude Types Machine Lists Network Protocol Client Session Packet Commands.
From S2P Require Import Messages Subscriptions Kept Connection Sample.

(** ** Operations *)

(** The loop [while ((node = emq_list_next(&iter)) != NULL)] that looks for the subscription of a
    name; [NULL] when there is none. *)
Fixpoint find_loop (T : Type) `{Slot T} (fuel : nat) (iter : ptr) (name : list byte) : M ptr :=
  match fuel with
  | O => out_of_fuel
  | S fuel =>
      '(node, iter) ← emq_list_next iter;
      match node with
      | None => mret NULL
      | Some _ =>
          n ← load node;
          subscription ← load (T := T) (node_value n);
          match strcmp_eq (slot_name subscription) name with
          | None => undefined OutOfBounds
          | Some equal => if equal : bool then mret (node_value n) else find_loop T fuel iter name
          end
      end
  end.

Definition find_subscription (T : Type) `{Slot T} (client : ptr) (name : list byte) : M ptr :=
  c ← load client;
  iter ← emq_list_rewind (slot_ptr c);
  fuel ← loop_fuel (slot_ptr c);
  find_loop T fuel iter name.

(** [EMQ_LIST_LENGTH(list)] *)
Definition EMQ_LIST_LENGTH (list : ptr) : M Z := l ← load (T := emq_list) list; mret (list_length l).

Section process.
(** The functions behind the callback pointers: [callbacks id client type name topic pattern
    msg], the strings being passed by contents. *)
Context (callbacks : nat → ptr → Z → list byte → option (list byte) → option (list byte) →
  ptr → M Z).

(** [subscription->callback(...) && client->queue_subscriptions->length == 0] *)
Definition call_back (client : ptr) (cb : callback) (type : Z) (name : list byte)
    (topic pattern : option (list byte)) (msg : ptr) : M Z :=
  match cb with
  | None => undefined NullPointer
  | Some id =>
      r ← callbacks id client type name topic pattern msg;
      if decide (r = 0) then mret 0 else
      c ← load client;
      len ← EMQ_LIST_LENGTH (client_queue_subscriptions c);
      mret (if decide (len = 0) then 1 else 0)
  end.

Definition emq_queue_process (client : ptr) (header : protocol_event_header) : M Z :=
  '(ret, name) ← emq_client_read client 64 64;
  if decide (ret = -1) then emq_client_set_error client EMQ_ERROR_READ;; mret (-1) else
  found ← find_subscription emq_queue_subscription client name;
  match found with
  | None => mret (-1)
  | Some _ =>
      if decide (event_type header = EMQ_PROTOCOL_EVENT_MESSAGE) then
        msg ← emq_read_message client (u32 (event_bodylen header - 64));
        match msg with
        | None => mret (-1)
        | Some _ =>
            subscription ← load found;
            call_back client (qsub_callback subscription) EMQ_CALLBACK_QUEUE
              (qsub_name subscription) None None msg
        end
      else
        subscription ← load found;
        call_back client (qsub_callback subscription) EMQ_CALLBACK_QUEUE
          (qsub_name subscription) None None NULL
  end.

(** The end of [emq_channel_process], once the names are read. *)
Definition channel_dispatch (client : ptr) (header : protocol_event_header)
    (name topic : list byte) (pattern : option (list byte)) : M Z :=
  found ← find_subscription emq_channel_subscription client name;
  match found with
  | None => mret (-1)
  | Some _ =>
      msg ← emq_read_message client
        (u32 (event_bodylen header - match pattern with Some _ => 128 | None => 96 end));
      match msg with
      | None => mret (-1)
      | Some _ =>
          subscription ← load found;
          call_back client (csub_callback subscription) EMQ_CALLBACK_CHANNEL
            (csub_name subscription) (Some topic) pattern msg
      end
  end.

Definition emq_channel_process (client : ptr) (header : protocol_event_header)
    (extended : bool) : M Z :=
  '(ret, name) ← emq_client_read client 64 64;
  if decide (ret = -1) then emq_client_set_error client EMQ_ERROR_READ;; mret (-1) else
  '(ret, topic) ← emq_client_read client 32 32;
  if decide (ret = -1) then emq_client_set_error client EMQ_ERROR_READ;; mret (-1) else
  if extended then
    '(ret, pattern) ← emq_client_read client 32 32;
    if decide (ret = -1) then emq_client_set_error client EMQ_ERROR_READ;; mret (-1) else
    channel_dispatch client header name topic (Some pattern)
  else channel_dispatch client header name topic None.

(** The handler of an event, by its command. *)
Definition process_event (client : ptr) (header : protocol_event_header) : M Z :=
  if decide (event_cmd header = EMQ_PROTOCOL_CMD_QUEUE_SUBSCRIBE)
  then emq_queue_process client header else
  if decide (event_cmd header = EMQ_PROTOCOL_CMD_CHANNEL_SUBSCRIBE)
  then emq_channel_process client header false
  else emq_channel_process client header true.

(** One iteration of [for (;;)], which reads an event: it returns from the function, or goes on. *)
Definition process_one (client : ptr) : M (option Z) :=
  c ← load client;
  queues ← EMQ_LIST_LENGTH (client_queue_subscriptions c);
  channels ← EMQ_LIST_LENGTH (client_channel_subscriptions c);
  if decide (queues = 0 ∧ channels = 0) then succeed client (Some EMQ_STATUS_OK) else
  '(ret, bytes) ← emq_client_read client 8 8;
  if decide (ret = -1) then fail_with client EMQ_ERROR_READ (Some EMQ_STATUS_ERR) else
  let header := read_event_header bytes in
  if decide (emq_check_event_header header EMQ_PROTOCOL_EVENT_NOTIFY
               EMQ_PROTOCOL_EVENT_MESSAGE = EMQ_STATUS_ERR)
  then fail_with client EMQ_ERROR_READ (Some EMQ_STATUS_ERR) else
  if decide (event_cmd header ≠ EMQ_PROTOCOL_CMD_QUEUE_SUBSCRIBE ∧
             event_cmd header ≠ EMQ_PROTOCOL_CMD_CHANNEL_SUBSCRIBE ∧
             event_cmd header ≠ EMQ_PROTOCOL_CMD_CHANNEL_PSUBSCRIBE)
  then fail_with client EMQ_ERROR_READ (Some EMQ_STATUS_ERR) else
  status ← process_event client header;
  if decide (status = 1) then succeed client (Some EMQ_STATUS_OK) else
  if decide (status = -1) then error_exit client (Some EMQ_STATUS_ERR) else
  mret None.

Fixpoint process_loop (fuel : nat) (client : ptr) : M Z :=
  match fuel with
  | O => out_of_fuel
  | S fuel =>
      r ← process_one client;
      match r with
      | Some status => mret status
      | None => process_loop fuel client
      end
  end.

Definition emq_process (fuel : nat) (client : ptr) : M Z :=
  EMQ_CLEAR_ERROR client;;
  process_loop fuel client.
End process.

(** ** Specification *)

(** The most recent subscription of a name. *)
Definition subscription_of {T} `{Slot T} (name : list byte) (xs : list T) : option T :=
  snd <$> list_find (λ x, c_chars (slot_name x) = c_chars name) xs.

(** The callbacks have a state of their own, of the type [U], in memory that is not the
    library's: a specification takes it and returns the next. *)
Section spec.
Context {U : Type}.
Context (s_callbacks : nat → Z → list byte → option (list byte) → option (list byte) →
  option (list byte) → U → Spec (Z * U)).

(** What [call_back] does; nothing is promised for a subscription without a callback. *)
Definition s_call_back (cb : callback) (type : Z) (name : list byte)
    (topic pattern : option (list byte)) (msg : option (list byte)) (u : U) : Spec (Z * U) :=
  match cb with
  | None => s_unspecified
  | Some id =>
      '(r, u) ← s_callbacks id type name topic pattern msg u;
      if decide (r = 0) then mret (0, u) else
      queues ← s_get ss_queues;
      mret (if decide (queues = []) then 1 else 0, u)
  end.

Definition s_queue_process (header : protocol_event_header) (u : U) : Spec (Z * U) :=
  name ← s_recv 64;
  match name with
  | None => s_error EMQ_ERROR_READ (-1, u)
  | Some name =>
      queues ← s_get ss_queues;
      match subscription_of name queues with
      | None => mret (-1, u)
      | Some x =>
          if decide (event_type header = EMQ_PROTOCOL_EVENT_MESSAGE) then
            msg ← s_read_message (u32 (event_bodylen header - 64));
            match msg with
            | None => mret (-1, u)
            | Some bs =>
                s_call_back (qsub_callback x) EMQ_CALLBACK_QUEUE (qsub_name x) None None (Some bs) u
            end
          else s_call_back (qsub_callback x) EMQ_CALLBACK_QUEUE (qsub_name x) None None None u
      end
  end.

Definition s_channel_dispatch (header : protocol_event_header) (name topic : list byte)
    (pattern : option (list byte)) (u : U) : Spec (Z * U) :=
  channels ← s_get ss_channels;
  match subscription_of name channels with
  | None => mret (-1, u)
  | Some x =>
      msg ← s_read_message
        (u32 (event_bodylen header - match pattern with Some _ => 128 | None => 96 end));
      match msg with
      | None => mret (-1, u)
      | Some bs =>
          s_call_back (csub_callback x) EMQ_CALLBACK_CHANNEL (csub_name x) (Some topic) pattern
            (Some bs) u
      end
  end.

Definition s_channel_process (header : protocol_event_header) (extended : bool) (u : U) :
    Spec (Z * U) :=
  name ← s_recv 64;
  match name with
  | None => s_error EMQ_ERROR_READ (-1, u)
  | Some name =>
      topic ← s_recv 32;
      match topic with
      | None => s_error EMQ_ERROR_READ (-1, u)
      | Some topic =>
          if extended then
            pattern ← s_recv 32;
            match pattern with
            | None => s_error EMQ_ERROR_READ (-1, u)
            | Some pattern => s_channel_dispatch header name topic (Some pattern) u
            end
          else s_channel_dispatch header name topic None u
      end
  end.

Definition s_process_event (header : protocol_event_header) (u : U) : Spec (Z * U) :=
  if decide (event_cmd header = EMQ_PROTOCOL_CMD_QUEUE_SUBSCRIBE)
  then s_queue_process header u else
  if decide (event_cmd header = EMQ_PROTOCOL_CMD_CHANNEL_SUBSCRIBE)
  then s_channel_process header false u
  else s_channel_process header true u.

(** An event that the loop accepts. *)
Definition known_event (header : protocol_event_header) : Prop :=
  event_magic header = EMQ_PROTOCOL_EVENT ∧
  (event_type header = EMQ_PROTOCOL_EVENT_NOTIFY ∨ event_type header = EMQ_PROTOCOL_EVENT_MESSAGE) ∧
  (event_cmd header = EMQ_PROTOCOL_CMD_QUEUE_SUBSCRIBE ∨
   event_cmd header = EMQ_PROTOCOL_CMD_CHANNEL_SUBSCRIBE ∨
   event_cmd header = EMQ_PROTOCOL_CMD_CHANNEL_PSUBSCRIBE).

#[export] Instance known_event_dec header : Decision (known_event header) := _.

Definition s_process_one (u : U) : Spec (option Z * U) :=
  idle ← s_get (λ s, bool_decide (ss_queues s = [] ∧ ss_channels s = []));
  if idle : bool then s_succeed (Some EMQ_STATUS_OK, u) else
  header ← s_recv 8;
  match header with
  | None => s_fail EMQ_ERROR_READ (Some EMQ_STATUS_ERR, u)
  | Some bytes =>
      let header := read_event_header bytes in
      if decide (known_event header) then
        '(status, u) ← s_process_event header u;
        if decide (status = 1) then s_succeed (Some EMQ_STATUS_OK, u) else
        if decide (status = -1)
        then s_put (set_ss_status EMQ_STATUS_ERR);; mret (Some EMQ_STATUS_ERR, u)
        else mret (None, u)
      else s_fail EMQ_ERROR_READ (Some EMQ_STATUS_ERR, u)
  end.

Fixpoint s_process_loop (fuel : nat) (u : U) : Spec (Z * U) :=
  match fuel with
  | O => s_unspecified
  | S fuel =>
      '(r, u) ← s_process_one u;
      match r with
      | Some status => mret (status, u)
      | None => s_process_loop fuel u
      end
  end.

(** Every iteration takes bytes off the stream: its length bounds their number. *)
Definition s_process (u : U) : Spec (Z * U) :=
  s_put (set_ss_error "");;
  ((λ s, s_process_loop (S (length (ss_rx s))) u s) : Spec (Z * U)).
End spec.

(** ** Simulation *)

(** Partial correctness, for what an operation leaves alone. *)
Definition wlp {A} (m : M A) (Q : A → world → Prop) (w : world) : Prop :=
  match m w with Returns a w' => Q a w' | _ => True end.

Lemma wlp_bind {A B} (m : M A) (k : A → M B) Q w :
  wlp m (λ a w', wlp (k a) Q w') w → wlp (m ≫= k) Q w.
Proof. unfold wlp, mbind, M_bind. by destruct (m w). Qed.

Lemma wlp_malloc {T} `{Storable T} (x : T) (Q : ptr → world → Prop) w :
  (∀ w', w_heap w' = w_heap w → Q NULL w') →
  (∀ k w', w_heap w !! k = None → w_heap w' = <[k := inject x]> (w_heap w) → Q (Some k) w') →
  wlp (malloc x) Q w.
Proof.
  intros Hfail Hok. unfold wlp, malloc.
  pose proof (is_fresh (dom (w_heap w))) as Hfresh%not_elem_of_dom.
  by destruct (w_mallocs w) as [|[] ms]; [eapply Hok..|apply Hfail].
Qed.

Section keeps.
Context (v : loc) (o : block).

(** [m] leaves the block [v] as it is, from any world in which it is allocated and is not one
    of the blocks [m] works on. *)
Definition keeps {A} (m : M A) : Prop :=
  ∀ w, w_heap w !! v = Some o → wlp m (λ _ w', w_heap w' !! v = Some o) w.

Lemma keeps_ret {A} (a : A) : keeps (mret a).
Proof. by intros w. Qed.

Lemma keeps_bind {A B} (m : M A) (k : A → M B) : keeps m → (∀ a, keeps (k a)) → keeps (m ≫= k).
Proof.
  intros Hm Hk w Hv. apply wlp_bind. specialize (Hm w Hv). unfold wlp in *.
  destruct (m w); [by apply Hk|done..].
Qed.

Lemma keeps_load {T} `{Storable T} p : keeps (load (T := T) p).
Proof.
  intros w Hv. unfold wlp, load. destruct p as [k|]; [|done].
  destruct (w_heap w !! k) as [b|]; [|done]. by destruct (project b).
Qed.

Lemma keeps_store {T} `{Storable T} p (x : T) : p ≠ Some v → keeps (store p x).
Proof.
  intros Hp w Hv. unfold wlp, store. destruct p as [k|]; [|done].
  destruct (w_heap w !! k) as [b|]; [|done]. destruct (project b); [|done].
  simpl. by rewrite lookup_insert_ne by congruence.
Qed.

Lemma keeps_modify {T} `{Storable T} p (upd : T → T) : p ≠ Some v → keeps (modify p upd).
Proof. intros Hp. apply keeps_bind; [apply keeps_load|intros x; by apply keeps_store]. Qed.

Lemma keeps_free p : p ≠ Some v → keeps (free p).
Proof.
  intros Hp w Hv. unfold wlp, free. destruct p as [k|]; [|done].
  destruct (w_heap w !! k) as [b|]; [|done]. simpl. by rewrite lookup_delete_ne by congruence.
Qed.

Lemma keeps_malloc {T A} `{Storable T} (x : T) (k : ptr → M A) :
  (∀ p, p ≠ Some v → keeps (k p)) → keeps (malloc x ≫= k).
Proof.
  intros Hk w Hv. apply wlp_bind, wlp_malloc.
  - intros w' Hw. apply Hk; [done|by rewrite Hw].
  - intros j w' Hj Hw. apply Hk; [congruence|]. rewrite Hw. by rewrite lookup_insert_ne by congruence.
Qed.

Lemma keeps_undefined {A} e : keeps (undefined (A := A) e).
Proof. by intros w. Qed.

Lemma keeps_sys_read fd len room : keeps (sys_read fd len room).
Proof.
  intros w Hv. unfold wlp, sys_read. destruct (w_socks w !! fd); [|done].
  destruct (sk_rx s) as [|[]]; [done| |done]. by case_decide.
Qed.

Lemma keeps_client_read client cap count : keeps (emq_client_read client cap count).
Proof.
  apply keeps_bind; [apply keeps_load|intros c]. apply keeps_bind; [by intros w|intros fuel].
  generalize (client_fd c) 0 (@nil byte).
  induction fuel as [|fuel IH]; intros fd tot buf; simpl; [by intros w|].
  case_decide; [apply keeps_ret|].
  apply keeps_bind; [apply keeps_sys_read|intros [n bs]]. case_decide; [apply keeps_ret|apply IH].
Qed.

Lemma keeps_memcpy_to p bs : p ≠ Some v → keeps (memcpy_to p bs).
Proof.
  intros Hp. apply keeps_bind; [apply keeps_load|intros cells].
  case_decide; [by apply keeps_store|apply keeps_undefined].
Qed.

Lemma keeps_set_error client error : client ≠ Some v → keeps (emq_client_set_error client error).
Proof.
  intros Hp. unfold emq_client_set_error.
  destruct (emq_error_array !! _); [by apply keeps_modify|apply keeps_undefined].
Qed.

Lemma keeps_read_message client size : client ≠ Some v → keeps (emq_read_message client size).
Proof.
  intros Hc. apply keeps_malloc. intros msg Hmsg. destruct msg as [m|].
  2:{ apply keeps_bind; [by apply keeps_set_error|intros; apply keeps_ret]. }
  apply keeps_malloc. intros data Hdata. apply keeps_bind; [by apply keeps_store|intros _].
  destruct data as [d|].
  2:{ repeat (apply keeps_bind; [first [by apply keeps_set_error|by apply keeps_free]|intros _]).
      apply keeps_ret. }
  apply keeps_bind; [apply keeps_client_read|intros [ret bytes]].
  apply keeps_bind; [by apply keeps_memcpy_to|intros _]. case_decide; [|apply keeps_ret].
  repeat (apply keeps_bind; [first [by apply keeps_set_error|by apply keeps_free]|intros _]).
  apply keeps_ret.
Qed.
End keeps.

Lemma sim_bind_wlp {A B A' B'} l (m : M A) (a : Spec B) (k : A → M A') (k' : B → Spec B') s
    (Φ : frame → A → B → Prop) Ψ (P : A → world → Prop) w :
  sim l s m a Φ w → wlp m P w →
  (∀ y x f s w, rep l s f w → Φ f y x → P y w → sim l s (k y) (k' x) Ψ w) →
  sim l s (m ≫= k) (a ≫= k') Ψ w.
Proof.
  intros Hm HP Hk Hns. apply wp_bind.
  assert (a s ≠ Unspecified) as Ha.
  { intros Ha. apply Hns. unfold mbind, Spec_bind. by rewrite Ha. }
  specialize (Hm Ha). unfold wp, wlp in *. unfold mbind, Spec_bind in *.
  destruct (m w) as [y w'| | |]; [|done| |done].
  - destruct Hm as (x & s' & f' & Ha' & Hr & HΦ). specialize (Hk _ _ _ _ _ Hr HΦ HP).
    rewrite Ha' in Hns |- *. by apply Hk.
  - by rewrite Hm.
Qed.

Section finding.
Context (T : Type) `{Slot T} (l : loc).

Lemma subscription_of_cons name (x : T) xs :
  subscription_of name (x :: xs) =
  if bool_decide (c_chars (slot_name x) = c_chars name) then Some x else subscription_of name xs.
Proof.
  unfold subscription_of. simpl. case_bool_decide as Hx.
  - by rewrite decide_True.
  - rewrite decide_False by done. by destruct (list_find _ xs) as [[]|].
Qed.

Lemma wp_find_loop blk fuel name b a xs ys f s w g (Q : ptr → world → Prop) :
  rep_at l s f w g → slot_nodes g = a ++ b → slot_get s = xs ++ ys → length a = length xs →
  length b = length ys → (length b < fuel)%nat → length name = 64%nat →
  (subscription_of name ys = None → Q NULL w) →
  (∀ v x, subscription_of name ys = Some x → points_to (w_heap w) v x → v ≠ l → Q (Some v) w) →
  wp blk (find_loop T fuel (first_ptr b NULL) name) Q w.
Proof.
  intros Hg. revert fuel a xs ys.
  induction b as [|[n v] b IH]; intros [|fuel] a xs [|x ys] Hns Hxs Hax Hby Hf Hlen Hnone Hsome;
    simpl in Hby, Hf; try lia; cbn [find_loop first_ptr].
  - apply wp_bind, wp_ret. by apply Hnone.
  - destruct (slot_node _ _ _ _ _ _ _ _ _ _ _ _ Hg Hns Hxs Hax) as (Hn & Hv & Hnul & Hl & Hvl).
    rewrite subscription_of_cons in Hnone, Hsome.
    apply wp_bind. apply wp_bind. eapply wp_load; [exact Hn|]. apply wp_ret.
    apply wp_bind. eapply wp_load; [exact Hn|]. apply wp_bind. eapply wp_load; [exact Hv|].
    rewrite strcmp_eq_safe by (done || lia). case_bool_decide as Heq.
    + apply wp_ret. by eapply Hsome.
    + eapply (IH fuel (a ++ [(n, v)]) (xs ++ [x])); [rewrite <-app_assoc; exact Hns|
        rewrite <-app_assoc; exact Hxs|rewrite !length_app; simpl; lia|lia|lia|done|done|done].
Qed.

Lemma sim_find {A B} name f s (K : ptr → M A) (a : Spec B) Φ w :
  rep l s f w → length name = 64%nat →
  (subscription_of name (slot_get s) = None → sim l s (K NULL) a Φ w) →
  (∀ v (x : T), subscription_of name (slot_get s) = Some x → points_to (w_heap w) v x → v ≠ l →
    sim l s (K (Some v)) a Φ w) →
  sim l s (find_subscription T (Some l) name ≫= K) a Φ w.
Proof.
  intros [g Hg] Hlen Hnone Hsome. apply sim_step. pose proof (rep_client _ _ _ _ _ Hg) as Hc.
  destruct (slot_open _ _ _ _ _ Hg) as (Hptr & Hd & Hvals & _).
  apply wp_bind. eapply wp_load; [done|]. rewrite Hptr.
  apply wp_bind. unfold emq_list_rewind. apply wp_bind. eapply wp_load; [apply Hd|]. apply wp_ret.
  apply wp_bind. unfold loop_fuel. apply wp_bind. eapply wp_load; [apply Hd|]. apply wp_ret.
  cbn [list_length list_head]. rewrite Nat2Z.id.
  pose proof (Forall2_length _ _ _ Hvals) as Hl. rewrite length_fmap in Hl.
  eapply (wp_find_loop _ _ name (slot_nodes g) [] [] (slot_get s) f s w g);
    [done|done|done|done|lia|lia|done|done|done].
Qed.
End finding.

(** [place u f] is the frame [f] with the state [u] of the callbacks in it; a function of the
    program returns the value and the state that its specification says. *)
Definition placed {U A} (place : U → frame → frame) (f f' : frame) (y : A) (x : A * U) : Prop :=
  f' = place x.2 f ∧ y = x.1.

(** The contract of the callbacks: each does what its specification says, changes its own state
    only, releases the message it is given, and changes the session as the operations of the
    library do. *)
Class Callbacks {U : Type} (place : U → frame → frame)
    (callbacks : nat → ptr → Z → list byte → option (list byte) → option (list byte) → ptr → M Z)
    (s_callbacks : nat → Z → list byte → option (list byte) → option (list byte) →
      option (list byte) → U → Spec (Z * U)) : Prop := {
  callbacks_sim id type name topic pattern l u f0 f s w y x :
    rep l s f w → new_msg (place u f0) f y (pair 0 <$> x) →
    sim l s (callbacks id (Some l) type name topic pattern y)
      (s_callbacks id type name topic pattern x u) (placed place f0) w;
  callbacks_kept R (HR : Kept R) id type name topic pattern x u :
    respects R (s_callbacks id type name topic pattern x u);
}.

Section simulation.
Context `{Callbacks U place callbacks s_callbacks} (l : loc).

(** A handler does what its specification says, from any state of the callbacks. *)
Definition handles {A} (m : M A) (a : U → Spec (A * U)) : Prop :=
  ∀ u f s w, rep l s (place u f) w → sim l s m (a u) (placed place f) w.

Lemma wp_list_length blk lp fm ns (Q : Z → world → Prop) w :
  dlist (w_heap w) lp fm ns → Q (Z.of_nat (length ns)) w → wp blk (EMQ_LIST_LENGTH (Some lp)) Q w.
Proof. intros Hd HQ. apply wp_bind. eapply wp_load; [apply Hd|]. by apply wp_ret. Qed.

Lemma list_nil_length {A B} (vs : list A) (xs : list B) :
  length vs = length xs → Z.of_nat (length vs) = 0 ↔ xs = [].
Proof. intros ->. destruct xs; simpl; split; (done || lia). Qed.

Lemma rep_lengths s f w g :
  rep_at l s f w g →
  (Z.of_nat (length (lo_queue_nodes g)) = 0 ↔ ss_queues s = []) ∧
  (Z.of_nat (length (lo_channel_nodes g)) = 0 ↔ ss_channels s = []).
Proof.
  intros []. apply Forall2_length in rep_queue_values, rep_channel_values.
  rewrite length_fmap in rep_queue_values, rep_channel_values.
  split; by apply list_nil_length.
Qed.

Lemma sim_call_back u f0 f cb type name topic pattern y x s w :
  rep l s f w → new_msg (place u f0) f y (pair 0 <$> x) →
  sim l s (call_back callbacks (Some l) cb type name topic pattern y)
    (s_call_back s_callbacks cb type name topic pattern x u) (placed place f0) w.
Proof.
  intros Hr Hm. destruct cb as [id|]; [|apply sim_unspecified].
  eapply sim_bind; [by eapply callbacks_sim|]. intros r [r' u1] f1 s1 w1 Hr1 [-> ->]. simpl in *.
  case_decide; [by eapply sim_ret|]. apply sim_get.
  destruct (Hr1) as [g Hg]. pose proof (rep_lengths _ _ _ _ Hg) as [Hlen _].
  destruct (Hg). apply sim_step. eapply wp_load; [done|]. rewrite rep_queues.
  apply sim_step. eapply wp_list_length; [done|]. eapply sim_ret; [done|]. split; [done|].
  apply decide_ext, Hlen.
Qed.

Lemma sim_read_error {A B} error (r : A) (r' : B) f s (Φ : frame → A → B → Prop) w :
  0 ≤ error ≤ EMQ_ERROR_NO_DATA → rep l s f w → Φ f r r' →
  sim l s (emq_client_set_error (Some l) error;; mret r) (s_error error r') Φ w.
Proof.
  intros He Hr HΦ. apply (sim_error l error f); [done|done|]. intros s' w' Hr'. by eapply sim_ret.
Qed.

Lemma sim_fail {A B} error (r : A) (r' : B) f s (Φ : frame → A → B → Prop) w :
  0 ≤ error ≤ EMQ_ERROR_NO_DATA → rep l s f w → Φ f r r' →
  sim l s (fail_with (Some l) error r) (s_fail error r') Φ w.
Proof.
  intros He Hr HΦ. eapply sim_mono.
  - by apply (simulates_fail l error r r' (λ f f' y x, f' = f ∧ y = r ∧ x = r')).
  - intros f' y x (-> & -> & ->). done.
Qed.

(** Reading an array of the event. *)
Lemma simulates_array n (k : list byte → M Z) (k' : list byte → U → Spec (Z * U)) :
  Z.of_nat n < 2 ^ 31 →
  (∀ bs, length bs = n → handles (k bs) (k' bs)) →
  handles
    ('(ret, bs) ← emq_client_read (Some l) (Z.of_nat n) (Z.of_nat n);
     if decide (ret = -1) then emq_client_set_error (Some l) EMQ_ERROR_READ;; mret (-1) else k bs)
    (λ u, o ← s_recv n;
     match o with None => s_error EMQ_ERROR_READ (-1, u) | Some bs => k' bs u end).
Proof.
  intros Hn Hk u f s w Hr. eapply sim_bind; [by apply sim_recv|].
  intros [ret bytes] x f1 s1 w1 Hr1 [-> Hx]. destruct x as [bs|]; simpl in Hx.
  - destruct Hx as [[= -> ->] Hlen]. rewrite decide_False by lia. by apply Hk.
  - destruct Hx as [-> _]. rewrite decide_True by done. by eapply sim_read_error.
Qed.

Lemma simulates_queue_process header :
  handles (emq_queue_process callbacks (Some l) header) (s_queue_process s_callbacks header).
Proof.
  apply (simulates_array 64); [done|]. intros name Hlen u f s w Hr. apply sim_get.
  eapply sim_find; [done|done|intros Hx; simpl in Hx; rewrite Hx; by eapply sim_ret|].
  intros v x Hx Hv Hvl. simpl in Hx. rewrite Hx. case_decide.
  - eapply sim_bind_wlp; [by apply simulates_read_message| |].
    { eapply (keeps_read_message v); [congruence|exact Hv]. }
    intros y m f2 s2 w2 Hr2 Hm Hv2. destruct m as [bs|].
    + destruct (Hm) as (p & d & -> & _). apply sim_step. eapply wp_load; [exact Hv2|].
      by eapply sim_call_back.
    + destruct Hm as [-> ->]. by eapply sim_ret.
  - apply sim_step. eapply wp_load; [exact Hv|]. by eapply sim_call_back.
Qed.

Lemma simulates_channel_dispatch header name topic pattern :
  length name = 64%nat →
  handles (channel_dispatch callbacks (Some l) header name topic pattern)
    (s_channel_dispatch s_callbacks header name topic pattern).
Proof.
  intros Hlen u f s w Hr. apply sim_get.
  eapply sim_find; [done|done|intros Hx; simpl in Hx; rewrite Hx; by eapply sim_ret|]. intros v x Hx Hv Hvl. simpl in Hx. rewrite Hx.
  eapply sim_bind_wlp; [by apply simulates_read_message| |].
  { eapply (keeps_read_message v); [congruence|exact Hv]. }
  intros y m f2 s2 w2 Hr2 Hm Hv2. destruct m as [bs|].
  - destruct (Hm) as (p & d & -> & _). apply sim_step. eapply wp_load; [exact Hv2|].
    by eapply sim_call_back.
  - destruct Hm as [-> ->]. by eapply sim_ret.
Qed.

Lemma simulates_channel_process header extended :
  handles (emq_channel_process callbacks (Some l) header extended)
    (s_channel_process s_callbacks header extended).
Proof.
  apply (simulates_array 64); [done|]. intros name Hname.
  apply (simulates_array 32); [done|]. intros topic _.
  destruct extended; [|by apply simulates_channel_dispatch].
  apply (simulates_array 32); [done|]. intros pattern _. by apply simulates_channel_dispatch.
Qed.

Lemma simulates_process_event header :
  handles (process_event callbacks (Some l) header) (s_process_event s_callbacks header).
Proof.
  unfold process_event, s_process_event. repeat case_decide;
    first [apply simulates_queue_process|apply simulates_channel_process].
Qed.

Lemma simulates_process_one :
  handles (process_one callbacks (Some l)) (s_process_one s_callbacks).
Proof.
  intros u f s w Hr. unfold process_one, s_process_one. apply sim_get.
  destruct (Hr) as [g Hg]. pose proof (rep_lengths _ _ _ _ Hg) as [Hq Hc]. destruct (Hg).
  apply sim_step. eapply wp_load; [done|]. rewrite rep_queues, rep_channels.
  apply sim_step. eapply wp_list_length; [done|].
  apply sim_step. eapply wp_list_length; [done|].
  destruct (decide (_ ∧ _)) as [[Hq0 Hc0]|Hidle].
  { rewrite bool_decide_true by tauto. by eapply sim_succeed. }
  rewrite bool_decide_false by tauto.
  eapply sim_bind; [by apply (sim_recv l 8 8)|].
  intros [ret bytes] x f1 s1 w1 Hr1 [-> Hx]. destruct x as [bs|]; simpl in Hx.
  2:{ destruct Hx as [-> _]. rewrite decide_True by done. by eapply sim_fail. }
  destruct Hx as [[= -> ->] Hlen]. rewrite decide_False by done. cbv zeta.
  set (header := read_event_header bs).
  destruct (decide (known_event header)) as [Hk|Hk].
  - destruct Hk as (Hmagic & Htype & Hcmd).
    rewrite decide_False; [|unfold emq_check_event_header; rewrite decide_False by tauto; done].
    rewrite decide_False by tauto.
    eapply sim_bind; [by apply simulates_process_event|].
    intros status [status' u2] f2 s2 w2 Hr2 [-> ->]. simpl in *.
    case_decide; [by eapply sim_succeed|]. case_decide; [by eapply sim_error_exit|].
    by eapply sim_ret.
  - case_decide as Hcheck; [by eapply sim_fail|].
    rewrite decide_True; [by eapply sim_fail|].
    unfold emq_check_event_header in Hcheck. unfold known_event in Hk.
    case_decide; [done|]. tauto.
Qed.

Lemma simulates_process_loop fuel :
  handles (process_loop callbacks fuel (Some l)) (s_process_loop s_callbacks fuel).
Proof.
  induction fuel as [|fuel IH]; intros u f s w Hr; [apply sim_unspecified|].
  cbn [process_loop s_process_loop]. eapply sim_bind; [by apply simulates_process_one|].
  intros r [r' u2] f2 s2 w2 Hr2 [-> ->]. simpl in *.
  destruct r' as [status|]; [by eapply sim_ret|by apply IH].
Qed.

Lemma simulates_process fuel :
  handles (emq_process callbacks fuel (Some l))
    (λ u, s_put (set_ss_error "");; s_process_loop s_callbacks fuel u).
Proof.
  intros u f s w Hr. eapply sim_bind; [by apply refines_clear_error|].
  intros [] [] f1 s1 w1 Hr1 [-> _]. by apply simulates_process_loop.
Qed.
End simulation.

(** ** Termination *)

Section termination.
Context `{Callbacks U place callbacks s_callbacks}.

Lemma respects_process_event R `{!Kept R} header u : respects R (s_process_event s_callbacks header u).
Proof.
  pose proof (λ id type name topic pattern x u,
    callbacks_kept R _ id type name topic pattern x u) as Hcallbacks.
  unfold s_process_event, s_queue_process, s_channel_process, s_channel_dispatch, s_call_back. keep.
Qed.

Lemma respects_process_one R `{!Kept R} u : respects R (s_process_one s_callbacks u).
Proof. pose proof (respects_process_event R). unfold s_process_one. keep. Qed.

Lemma respects_process R `{!Kept R} u : respects R (s_process s_callbacks u).
Proof.
  assert (∀ fuel u, respects R (s_process_loop s_callbacks fuel u)) as Hloop.
  { pose proof (respects_process_one R). induction fuel as [|fuel IH]; intros v; simpl; keep. }
  unfold s_process. keep. intros s y s'. apply Hloop.
Qed.

(** An iteration that goes on has taken bytes off the stream. *)
Lemma s_process_one_shorter u s u1 s1 :
  s_process_one s_callbacks u s = Answer (None, u1) s1 → (length (ss_rx s1) < length (ss_rx s))%nat.
Proof.
  unfold s_process_one, mbind, Spec_bind, s_get. destruct (bool_decide _); [done|]. unfold s_recv.
  pose proof (take_rx_shorter 8 (ss_rx s)) as Ht.
  destruct (take_rx 8 (ss_rx s)) as [bs rest|rest|]; [|done..].
  cbn zeta. case_decide; [|done].
  destruct (s_process_event _ _ _ _) as [[status u2] s2| |] eqn:Hs; [|done..].
  apply (respects_process_event shorter) in Hs. unfold shorter in Hs. cbn [ss_rx set_ss_rx] in Hs.
  case_decide; [done|]. case_decide; [done|]. intros [= -> ->]. lia.
Qed.

(** The loop stops before its fuel does. *)
Lemma s_process_loop_fuel n1 n2 u s :
  (length (ss_rx s) < n1)%nat → (length (ss_rx s) < n2)%nat →
  s_process_loop s_callbacks n1 u s = s_process_loop s_callbacks n2 u s.
Proof.
  revert n2 u s. induction n1 as [|n1 IH]; intros [|n2] u s Hn1 Hn2; try lia.
  cbn [s_process_loop]. unfold mbind at 1 2, Spec_bind at 1 2.
  destruct (s_process_one s_callbacks u s) as [[[status|] u1] s1| |] eqn:Hs; [done| |done..].
  apply s_process_one_shorter in Hs. apply IH; lia.
Qed.

(** What the program does next, once the callback of an event has returned. *)
Definition after_callback (fuel : nat) (r : Z * U) : Spec (Z * U) :=
  queues ← s_get ss_queues;
  if decide (r.1 ≠ 0 ∧ queues = []) then s_succeed (EMQ_STATUS_OK, r.2)
  else s_process_loop s_callbacks fuel r.2.

(** The loop from an event that a subscription receives. *)
Lemma s_process_loop_event fuel u s bs rest id type name topic pattern x s' :
  (ss_queues s ≠ [] ∨ ss_channels s ≠ []) → take_rx 8 (ss_rx s) = TkGot bs rest →
  known_event (read_event_header bs) →
  s_process_event s_callbacks (read_event_header bs) u (set_ss_rx rest s) =
    s_call_back s_callbacks (Some id) type name topic pattern x u s' →
  s_process_loop s_callbacks (S fuel) u s =
    (s_callbacks id type name topic pattern x u ≫= after_callback fuel) s'.
Proof.
  intros Hidle Ht Hk He. cbn [s_process_loop]. unfold s_process_one, after_callback, mbind, Spec_bind, s_get.
  rewrite bool_decide_false by tauto. unfold s_recv. rewrite Ht. cbn zeta.
  rewrite decide_True by done. rewrite He.
  unfold s_call_back, mbind, Spec_bind, s_get.
  destruct (s_callbacks _ _ _ _ _ _ _ _) as [[r u1] s1| |]; [|done..]. cbn [fst snd].
  destruct (decide (r = 0)) as [->|Hr].
  { by rewrite (decide_False (P := _ ∧ _)) by tauto. }
  destruct (decide (ss_queues s1 = [])) as [Hq|Hq]; cbn.
  - by rewrite (decide_True (P := _ ∧ _)).
  - by rewrite (decide_False (P := _ ∧ _)) by tauto.
Qed.
End termination.

(** ** Enough fuel

    The fuel of [process_loop] is no part of the program: [run_process] is [emq_process] with as
    much of it as the socket of the client has bytes to read. *)

Definition pending_bytes (client : ptr) (w : world) : nat :=
  match client with
  | None => O
  | Some l =>
      match w_heap w !! l with
      | Some (BClient c) =>
          match w_socks w !! client_fd c with
          | Some sk => length (flatten (sk_rx sk))
          | None => O
          end
      | _ => O
      end
  end.

Definition run_process (callbacks : nat → ptr → Z → list byte → option (list byte) →
    option (list byte) → ptr → M Z) (client : ptr) : M Z :=
  λ w, emq_process callbacks (S (pending_bytes client w)) client w.

Lemma pending_bytes_rep l s f w : rep l s f w → pending_bytes (Some l) w = length (ss_rx s).
Proof.
  intros [g []]. unfold pending_bytes. rewrite rep_client.
  change (inject (lo_client g)) with (BClient (lo_client g)). cbv beta iota. by rewrite rep_sock, rep_rx.
Qed.

Lemma simulates_run_process `{Callbacks U place callbacks s_callbacks} l :
  handles (place := place) l (run_process callbacks (Some l)) (s_process s_callbacks).
Proof.
  intros u f s w Hr. pose proof (pending_bytes_rep _ _ _ _ Hr) as Hp.
  pose proof (simulates_process l (S (length (ss_rx s))) u f s w Hr) as Hs.
  unfold run_process, sim, wp in *. rewrite Hp. exact Hs.
Qed.

(** ** Events on the wire *)

Definition queue_event (name bs : list byte) : list byte :=
  event_header_bytes (mk_event_header EMQ_PROTOCOL_EVENT EMQ_PROTOCOL_CMD_QUEUE_SUBSCRIBE
    EMQ_PROTOCOL_EVENT_MESSAGE (64 + Z.of_nat (length bs))) ++ name ++ bs.

Definition channel_event (name topic : list byte) (pattern : option (list byte)) (bs : list byte) :
    list byte :=
  event_header_bytes
    (match pattern with
     | None => mk_event_header EMQ_PROTOCOL_EVENT EMQ_PROTOCOL_CMD_CHANNEL_SUBSCRIBE
         EMQ_PROTOCOL_EVENT_MESSAGE (96 + Z.of_nat (length bs))
     | Some _ => mk_event_header EMQ_PROTOCOL_EVENT EMQ_PROTOCOL_CMD_CHANNEL_PSUBSCRIBE
         EMQ_PROTOCOL_EVENT_MESSAGE (128 + Z.of_nat (length bs))
     end) ++ name ++ topic ++ default [] pattern ++ bs.

Section events.
Context `{Callbacks U place callbacks s_callbacks}.

Lemma s_queue_event name bs x rest u s :
  length name = 64%nat → 64 + Z.of_nat (length bs) < 2 ^ 31 → memory_available s →
  subscription_of name (ss_queues s) = Some x →
  ss_rx s = (RxByte <$> queue_event name bs) ++ rest →
  ∃ hb rest', take_rx 8 (ss_rx s) = TkGot hb rest' ∧ known_event (read_event_header hb) ∧
    s_process_event s_callbacks (read_event_header hb) u (set_ss_rx rest' s) =
    s_call_back s_callbacks (qsub_callback x) EMQ_CALLBACK_QUEUE (qsub_name x) None None (Some bs)
      u (received rest s).
Proof.
  intros Hname Hlen Hmem Hx Hs. unfold queue_event in Hs.
  rewrite !fmap_app, <-!app_assoc in Hs.
  eexists _, _. split; [rewrite Hs; by apply take_rx_exact|].
  rewrite <-(app_nil_r (event_header_bytes _)), read_event_header_bytes.
  cbn [event_magic event_cmd event_type event_bodylen].
  rewrite (u32_small (64 + _)) by lia. split.
  { split; [done|]. split; [by right|by left]. }
  unfold s_process_event. rewrite decide_True by done. unfold s_queue_process.
  erewrite s_recv_bind; [|exact Hname|reflexivity]. unfold mbind at 1, Spec_bind, s_get.
  cbn [ss_queues set_ss_rx]. rewrite Hx. rewrite decide_True by done. cbn [event_bodylen].
  replace (64 + Z.of_nat (length bs) - 64) with (Z.of_nat (length bs)) by lia.
  rewrite u32_small by lia. unfold mbind at 1.
  by erewrite s_read_message_exact; [|done|lia|done].
Qed.

Lemma s_channel_event name topic pattern bs x rest u s :
  length name = 64%nat → length topic = 32%nat → from_option (λ p, length p = 32%nat) True pattern →
  128 + Z.of_nat (length bs) < 2 ^ 31 → memory_available s →
  subscription_of name (ss_channels s) = Some x →
  ss_rx s = (RxByte <$> channel_event name topic pattern bs) ++ rest →
  ∃ hb rest', take_rx 8 (ss_rx s) = TkGot hb rest' ∧ known_event (read_event_header hb) ∧
    s_process_event s_callbacks (read_event_header hb) u (set_ss_rx rest' s) =
    s_call_back s_callbacks (csub_callback x) EMQ_CALLBACK_CHANNEL (csub_name x) (Some topic)
      pattern (Some bs) u (received rest s).
Proof.
  intros Hname Htopic Hpat Hlen Hmem Hx Hs. unfold channel_event in Hs.
  rewrite !fmap_app, <-!app_assoc in Hs.
  assert (∀ pl, pl = 96 ∨ pl = 128 →
    s_read_message (u32 (pl + Z.of_nat (length bs) - pl))
      (set_ss_rx ((RxByte <$> bs) ++ rest) s) = Answer (Some bs) (received rest s)) as Hread.
  { intros pl Hpl. replace (pl + Z.of_nat (length bs) - pl) with (Z.of_nat (length bs)) by lia.
    rewrite u32_small by lia. by apply (s_read_message_exact bs rest (set_ss_rx ((RxByte <$> bs) ++ rest) s)); [|lia|]. }
  eexists _, _. split; [rewrite Hs; apply take_rx_exact; by destruct pattern|].
  rewrite <-(app_nil_r (event_header_bytes _)), read_event_header_bytes.
  unfold s_process_event, s_channel_process.
  destruct pattern as [p|]; cbn [event_magic event_cmd event_type event_bodylen default] in *.
  - rewrite (u32_small (128 + _)) by lia. split; [split; [done|split; [by right|by right; right]]|].
    rewrite !decide_False by done.
    erewrite s_recv_bind; [|exact Hname|reflexivity].
    erewrite s_recv_bind; [|exact Htopic|reflexivity].
    erewrite s_recv_bind; [|exact Hpat|reflexivity].
    unfold s_channel_dispatch. unfold mbind at 1, Spec_bind, s_get. cbn [ss_channels set_ss_rx].
    rewrite Hx. cbn [event_bodylen]. unfold mbind at 1.
    change (set_ss_rx ?r (set_ss_rx _ _)) with (set_ss_rx r s). by rewrite Hread by tauto.
  - rewrite (u32_small (96 + _)) by lia. split; [split; [done|split; [by right|by right; left]]|].
    rewrite decide_False, decide_True by done.
    erewrite s_recv_bind; [|exact Hname|reflexivity].
    erewrite s_recv_bind; [|exact Htopic|reflexivity].
    unfold s_channel_dispatch. unfold mbind at 1, Spec_bind, s_get. cbn [ss_channels set_ss_rx].
    rewrite Hx. cbn [event_bodylen]. unfold mbind at 1.
    change (set_ss_rx ?r (set_ss_rx _ _)) with (set_ss_rx r s). simpl. by rewrite Hread by tauto.
Qed.
End events.

(** ** A pair of callbacks *)

(** As the callbacks of the examples of the library do, the callback 0 consumes its message and
    goes on; any other unsubscribes from the queue, consumes the message and asks to stop. *)
Definition sample_callbacks (queue : cstring) (id : nat) (client : ptr) (type : Z)
    (name : list byte) (topic pattern : option (list byte)) (msg : ptr) : M Z :=
  match id with
  | O => emq_msg_release msg;; mret 0
  | S _ =>
      emq_noack_enable client;;
      _ ← emq_queue_unsubscribe client queue;
      emq_noack_disable client;;
      emq_msg_release msg;;
      mret 1
  end.

Definition s_sample_callbacks (queue : cstring) (id : nat) (type : Z) (name : list byte)
    (topic pattern : option (list byte)) (msg : option (list byte)) (_ : unit) : Spec (Z * unit) :=
  match msg with
  | None => s_unspecified
  | Some _ =>
      match id with
      | O => mret (0, tt)
      | S _ =>
          s_put (set_ss_noack 1);;
          _ ← s_unsubscribe emq_queue_subscription (QueueUnsubscribe queue)
                EMQ_PROTOCOL_CMD_QUEUE_UNSUBSCRIBE queue;
          s_put (set_ss_noack 0);;
          mret (1, tt)
      end
  end.

(** Callbacks without a state. *)
Definition stateless (_ : unit) (f : frame) : frame := f.

#[export] Instance sample_contract queue :
  Callbacks stateless (sample_callbacks queue) (s_sample_callbacks queue).
Proof.
  constructor.
  - intros id type name topic pattern l [] f0 f s w y x Hr Hm. unfold stateless in Hm.
    destruct x as [bs|]; [|apply sim_unspecified]. destruct id as [|id]; cbn [sample_callbacks].
    { eapply sim_msg_release; [done|exact Hm|]. intros w1 Hr1. by eapply sim_ret. }
    eapply sim_bind; [by apply refines_noack_enable|]. intros [] [] f1 s1 w1 Hr1 [-> _].
    eapply sim_bind; [by apply refines_queue_unsubscribe|]. intros ? _ f2 s2 w2 Hr2 [-> <-].
    eapply sim_bind; [by apply refines_noack_disable|]. intros [] [] f3 s3 w3 Hr3 [-> _].
    eapply sim_msg_release; [done|exact Hm|]. intros w4 Hr4. by eapply sim_ret.
  - intros R HR id type name topic pattern x u. unfold s_sample_callbacks. keep.
Qed.

(** ** Theorems *)

(** The execution of [m] from [w] ends as [b] says, beside the frame [f] with the state of the
    callbacks. *)
Definition ends_with {U} (place : U → frame → frame) (l : loc) (m : M Z) (b : answer (Z * U))
    (f : frame) (w : world) : Prop :=
  match b with
  | Answer (r, u) s => ∃ w', m w = Returns r w' ∧ rep l s (place u f) w'
  | Starved => ∃ w', m w = Blocks w'
  | Unspecified => True
  end.

Lemma handles_ends {U} (place : U → frame → frame) l m a u f s w :
  handles (place := place) l m a → rep l s (place u f) w → ends_with place l m (a u s) f w.
Proof.
  intros Hm Hr.
  pose proof (sim_implements l m (a u) (λ _, placed place f) f s w (Hm u f s w Hr)) as Hi.
  unfold implements in Hi. unfold ends_with.
  destruct (a u s) as [[r u'] s'| |]; [|done..]. destruct Hi as (y & f' & w' & ? & ? & -> & ->). eauto.
Qed.

(** C2: [emq_process] terminates: for callbacks that honour their contract, a
    number of iterations above the length of the stream is enough for it to return what its
    specification says (or to wait for the peer), without undefined behaviour and without a
    block leaked; the callbacks may call the library on the same client. *)
Theorem process_refines {U} (place : U → frame → frame) callbacks s_callbacks l u f s w fuel :
  Callbacks place callbacks s_callbacks → rep l s (place u f) w → (length (ss_rx s) < fuel)%nat →
  ends_with place l (emq_process callbacks fuel (Some l)) (s_process s_callbacks u s) f w.
Proof.
  intros Hcb Hr Hfuel.
  pose proof (handles_ends place l _ _ u f s w (simulates_process l fuel) Hr) as Ho.
  unfold s_process, mbind, Spec_bind, s_put in *.
  erewrite s_process_loop_fuel; [exact Ho|simpl; lia..].
Qed.

(** Fact: a message event of a subscribed queue is delivered: [emq_process]
    calls the callback of the most recent subscription of the queue with exactly the bytes of
    the event, and goes on with the rest of the stream; it stops when the callback returns
    non-zero and no queue subscription is left. *)
Theorem process_queue_message {U} (place : U → frame → frame) callbacks s_callbacks l u f s w fuel
    name bs x id rest :
  Callbacks place callbacks s_callbacks → rep l s (place u f) w →
  length name = 64%nat → 64 + Z.of_nat (length bs) < 2 ^ 31 → memory_available s →
  subscription_of name (ss_queues s) = Some x → qsub_callback x = Some id →
  ss_rx s = (RxByte <$> queue_event name bs) ++ rest →
  ends_with place l (emq_process callbacks (S fuel) (Some l))
    ((s_callbacks id EMQ_CALLBACK_QUEUE (qsub_name x) None None (Some bs) u ≫=
      after_callback (s_callbacks := s_callbacks) fuel) (received rest (set_ss_error "" s))) f w.
Proof.
  intros Hcb Hr Hname Hlen Hmem Hx Hid Hs.
  destruct (s_queue_event (s_callbacks := s_callbacks) name bs x rest u (set_ss_error "" s))
    as (hb & rest' & Ht & Hk & He); [done..|].
  rewrite Hid in He. erewrite <-s_process_loop_event; [|left|exact Ht|done|exact He].
  - exact (handles_ends place l _ _ u f s w (simulates_process l (S fuel)) Hr).
  - simpl. by intros Hq; rewrite Hq in Hx.
Qed.


Lemma process_refines_witness :
  let rx := queue_event (array_of 64 [Byte.x71]) [Byte.x41] in
  ends_with stateless 1%positive (emq_process (sample_callbacks [Byte.x71]) 100 (Some 1%positive))
    (s_process (s_sample_callbacks [Byte.x71]) tt (subscribed_session 1 rx)) (sample_frame ∅)
    (subscribed_world 1 rx) ∧
  ∃ s', s_process (s_sample_callbacks [Byte.x71]) tt (subscribed_session 1 rx) =
    Answer (EMQ_STATUS_OK, tt) s' ∧ ss_queues s' = [] ∧ ss_rx s' = [].
Proof.
  intros rx. split.
  - apply (process_refines stateless (sample_callbacks [Byte.x71]) (s_sample_callbacks [Byte.x71])
      1%positive tt (sample_frame ∅) (subscribed_session 1 rx) (subscribed_world 1 rx) 100);
      [apply sample_contract|apply subscribed_rep|apply Nat.ltb_lt; vm_compute; reflexivity].
  - eexists. split; [vm_compute; reflexivity|done].
Defined.

Lemma process_queue_message_witness :
  let rx := queue_event (array_of 64 [Byte.x71]) [Byte.x41; Byte.x42] in
  ends_with stateless 1%positive (emq_process (sample_callbacks [Byte.x71]) 1 (Some 1%positive))
    ((s_sample_callbacks [Byte.x71] 1 EMQ_CALLBACK_QUEUE (array_of 64 [Byte.x71]) None None
        (Some [Byte.x41; Byte.x42]) tt ≫=
      after_callback (s_callbacks := s_sample_callbacks [Byte.x71]) 0)
      (received [] (set_ss_error "" (subscribed_session 1 rx)))) (sample_frame ∅)
    (subscribed_world 1 rx).
Proof.
  intros rx.
  apply (process_queue_message stateless (sample_callbacks [Byte.x71])
    (s_sample_callbacks [Byte.x71]) 1%positive tt (sample_frame ∅) (subscribed_session 1 rx) (subscribed_world 1 rx) 0
    (array_of 64 [Byte.x71]) [Byte.x41; Byte.x42]
    (mk_queue_subscription (array_of 64 [Byte.x71]) (Some 1%nat)) 1 []);
    [apply sample_contract|apply subscribed_rep|reflexivity|reflexivity|split; reflexivity|
     reflexivity..].
Defined.

(** Fact: an event of a queue without a subscription ends [emq_process] with
    [EMQ_STATUS_ERR] and an empty error message, and leaves the body of the event in the stream,
    where the next reply is expected. *)
Theorem process_unknown {U} (place : U → frame → frame) callbacks s_callbacks l u f s w fuel name bs
    rest :
  Callbacks place callbacks s_callbacks → rep l s (place u f) w → ss_queues s ≠ [] ∨ ss_channels s ≠ [] →
  length name = 64%nat → 64 + Z.of_nat (length bs) < 2 ^ 31 →
  subscription_of name (ss_queues s) = None →
  ss_rx s = (RxByte <$> queue_event name bs) ++ rest →
  ∃ w', emq_process callbacks (S fuel) (Some l) w = Returns EMQ_STATUS_ERR w' ∧
    rep l (set_ss_status EMQ_STATUS_ERR
      (set_ss_error "" (set_ss_rx ((RxByte <$> bs) ++ rest) s))) (place u f) w'.
Proof.
  intros Hcb Hr Hidle Hname Hlen Hx Hs.
  pose proof (handles_ends place l _ _ u f s w (simulates_process l (S fuel)) Hr) as He.
  cbv beta in He. match type of He with ends_with _ _ _ ?b _ _ =>
    enough (b = Answer (EMQ_STATUS_ERR, u) (set_ss_status EMQ_STATUS_ERR
      (set_ss_error "" (set_ss_rx ((RxByte <$> bs) ++ rest) s)))) as Hb by by rewrite Hb in He end.
  clear He. unfold queue_event in Hs. rewrite !fmap_app, <-!app_assoc in Hs.
  enough (s_process_one s_callbacks u (set_ss_error "" s) = Answer (Some EMQ_STATUS_ERR, u)
    (set_ss_status EMQ_STATUS_ERR (set_ss_error "" (set_ss_rx ((RxByte <$> bs) ++ rest) s)))) as Hone.
  { cbn [s_process_loop]. unfold mbind, Spec_bind, s_put. by rewrite Hone. }
  unfold s_process_one. unfold mbind at 1, Spec_bind, s_get.
  cbn [ss_queues ss_channels set_ss_error]. rewrite bool_decide_false by tauto.
  erewrite s_recv_bind; [|apply length_event_header_bytes|exact Hs]. cbv zeta.
  rewrite <-(app_nil_r (event_header_bytes _)), read_event_header_bytes.
  cbn [event_magic event_cmd event_type event_bodylen].
  rewrite decide_True; [|split; [done|split; [by right|by left]]].
  unfold mbind at 1, s_process_event. rewrite decide_True by done. unfold s_queue_process.
  erewrite s_recv_bind; [|exact Hname|reflexivity]. unfold mbind, Spec_bind, s_get.
  cbn [ss_queues set_ss_rx set_ss_error]. by rewrite Hx.
Qed.

Lemma process_unknown_witness :
  let name := array_of 64 [Byte.x72] in
  let rx := queue_event name [Byte.x41] in
  ∃ w', emq_process (sample_callbacks [Byte.x71]) 1 (Some 1%positive) (subscribed_world 0 rx) =
      Returns EMQ_STATUS_ERR w' ∧
    rep 1%positive (set_ss_status EMQ_STATUS_ERR (set_ss_error ""
      (set_ss_rx ((RxByte <$> [Byte.x41]) ++ []) (subscribed_session 0 rx)))) (sample_frame ∅) w'.
Proof.
  intros name rx.
  apply (process_unknown stateless (sample_callbacks [Byte.x71]) (s_sample_callbacks [Byte.x71])
    1%positive tt (sample_frame ∅) (subscribed_session 0 rx) (subscribed_world 0 rx) 0 name [Byte.x41] []);
    [apply sample_contract|apply subscribed_rep|left; discriminate|reflexivity..].
Defined.

(** Fact: a message event of a subscribed channel, with or without a
    pattern, is delivered with its topic to the most recent subscription of the channel's name,
    whatever topic or pattern that subscription has.  After it, as after an event of a queue,
    [emq_process] stops when the callback returned non-zero and no {e queue} subscription is
    left: the channel subscriptions do not count. *)
Theorem process_channel_message {U} (place : U → frame → frame) callbacks s_callbacks l u f s w fuel
    name topic pattern bs x id rest :
  Callbacks place callbacks s_callbacks → rep l s (place u f) w →
  length name = 64%nat → length topic = 32%nat →
  from_option (λ p, length p = 32%nat) True pattern →
  128 + Z.of_nat (length bs) < 2 ^ 31 → memory_available s →
  subscription_of name (ss_channels s) = Some x → csub_callback x = Some id →
  ss_rx s = (RxByte <$> channel_event name topic pattern bs) ++ rest →
  ends_with place l (emq_process callbacks (S fuel) (Some l))
    ((s_callbacks id EMQ_CALLBACK_CHANNEL (csub_name x) (Some topic) pattern (Some bs) u ≫=
      after_callback (s_callbacks := s_callbacks) fuel) (received rest (set_ss_error "" s))) f w.
Proof.
  intros Hcb Hr Hname Htopic Hpat Hlen Hmem Hx Hid Hs.
  destruct (s_channel_event (s_callbacks := s_callbacks) name topic pattern bs x rest u
    (set_ss_error "" s)) as (hb & rest' & Ht & Hk & He); [done..|].
  rewrite Hid in He. erewrite <-s_process_loop_event; [|right|exact Ht|done|exact He].
  - exact (handles_ends place l _ _ u f s w (simulates_process l (S fuel)) Hr).
  - simpl. by intros Hq; rewrite Hq in Hx.
Qed.

Lemma process_channel_message_witness :
  let name := array_of 64 [Byte.x63] in
  let topic := array_of 32 [Byte.x74] in
  let rx := channel_event name topic None [Byte.x41] in
  let a := (s_sample_callbacks [Byte.x71] 1 EMQ_CALLBACK_CHANNEL name (Some topic) None
        (Some [Byte.x41]) tt ≫=
      after_callback (s_callbacks := s_sample_callbacks [Byte.x71]) 0)
      (received [] (set_ss_error "" (channel_session 1 rx))) in
  ends_with stateless 1%positive (emq_process (sample_callbacks [Byte.x71]) 1 (Some 1%positive))
    a (sample_frame ∅) (channel_world 1 rx) ∧
  ∃ s', a = Answer (EMQ_STATUS_OK, tt) s' ∧ ss_channels s' ≠ [].
Proof.
  intros name topic rx a. split.
  - apply (process_channel_message stateless (sample_callbacks [Byte.x71])
      (s_sample_callbacks [Byte.x71]) 1%positive tt (sample_frame ∅) (channel_session 1 rx) (channel_world 1 rx) 0
      name topic None [Byte.x41]
      (mk_channel_subscription name (array_of 32 [Byte.x74]) (Some 1%nat)) 1 []);
      [apply sample_contract|apply channel_rep|reflexivity|reflexivity|exact I|reflexivity|
       split; reflexivity|reflexivity..].
  - eexists. split; [vm_compute; reflexivity|discriminate].
Defined.
