(* ===== verification/Delivery.v ===== *)
(** From one client to another: a message that a client sends reaches the callback of the client
    that is subscribed, whatever its bytes, when the server forwards it as it came.

    The server is not part of the program. What is assumed of it is in the statements: the event
    that the subscriber receives has the name, the topic and the message of the request, byte by
    byte, at the places where the structures of [src/src/protocol.h] have them. *)

From S2P Require Import Prelude Types Machine Lists Network Protocol Client Session Packet Commands.
From S2P Require Import Messages Subscriptions Kept Process Connection Sample.

(** ** The fields of a request, as bytes *)

(** [name[64]], the first field after the header. *)
Definition name_field (request : list byte) : list byte := take 64 (drop sizeof_header request).

(** [topic[32]] of [protocol_request_channel_publish]. *)
Definition topic_field (request : list byte) : list byte := take 32 (drop (sizeof_header + 64) request).

(** The message of a push to a queue, after the name and the time to live. *)
Definition queue_message (request : list byte) : list byte := drop (sizeof_header + 64 + 4) request.

(** The message of a publication, after the name and the topic. *)
Definition channel_message (request : list byte) : list byte := drop (sizeof_header + 64 + 32) request.

(** The events that forward them; a server adds the pattern of a subscription by pattern. *)
Definition queue_forward (request : list byte) : list byte :=
  queue_event (name_field request) (queue_message request).
Definition channel_forward (pattern : option (list byte)) (request : list byte) : list byte :=
  channel_event (name_field request) (topic_field request) pattern (channel_message request).

(** ** What the sending functions put there *)

Lemma struct_bytes_char n ts name vs b :
  struct_bytes (Char n :: ts) (VStr name :: vs) = Some b →
  strlenz name ≤ Z.of_nat n ∧ ∃ b', struct_bytes ts vs = Some b' ∧ b = array_of n name ++ b'.
Proof.
  cbn [struct_bytes field_bytes]. case_decide as Hn; [|done]. cbn.
  intros (b' & Hb' & Heq)%bind_Some. apply (inj Some) in Heq as <-. eauto.
Qed.

Lemma struct_bytes_nil b : struct_bytes [] [] = Some b → b = [].
Proof. by intros [= <-]. Qed.

Lemma encode_name noack call name ts vs req :
  encode noack call = Some req → call_layout call = Char 64 :: ts → call_values call = VStr name :: vs →
  strlenz name ≤ 64 ∧ ∃ header b, length header = sizeof_header ∧ struct_bytes ts vs = Some b ∧
    req = header ++ array_of 64 name ++ b.
Proof.
  unfold encode. intros (b & Hb & Heq)%bind_Some Hts Hvs. apply (inj Some) in Heq as <-.
  rewrite Hts, Hvs in Hb. apply struct_bytes_char in Hb as (Hn & b' & Hb' & ->).
  split; [done|]. exists (request_header_bytes (call_header noack call)), b'.
  split; [apply length_request_header_bytes|done].
Qed.

(** A field between what precedes it and what follows. *)
Lemma field_at i n (before field after : list byte) :
  length before = i → length field = n → take n (drop i (before ++ field ++ after)) = field.
Proof. intros Hi Hn. rewrite drop_app_exact by done. by apply take_app_exact. Qed.

Lemma queue_push_bytes name n req msg bs :
  encode 0 (QueuePush name n) = Some req →
  strlenz name ≤ 64 ∧ name_field (req ++ expiring msg bs) = array_of 64 name ∧
  queue_message (req ++ expiring msg bs) = bs.
Proof.
  intros Henc. destruct (encode_name _ _ name [] [] _ Henc eq_refl eq_refl)
    as (Hn & header & b & Hh & ->%struct_bytes_nil & ->).
  assert (length (array_of 64 name) = 64%nat) as Ha by by apply length_array_of.
  rewrite <-!app_assoc. split; [done|]. split; [by apply field_at|].
  unfold queue_message, expiring. rewrite !(assoc_L (++)). apply drop_app_exact.
  rewrite !length_app, length_le_bytes, Hh, Ha. done.
Qed.

Lemma channel_publish_bytes name topic n req bs :
  encode 0 (ChannelPublish name topic n) = Some req →
  strlenz name ≤ 64 ∧ strlenz topic ≤ 32 ∧
  name_field (req ++ bs) = array_of 64 name ∧ topic_field (req ++ bs) = array_of 32 topic ∧
  channel_message (req ++ bs) = bs.
Proof.
  intros Henc. destruct (encode_name _ _ name [Char 32] [VStr topic] _ Henc eq_refl eq_refl)
    as (Hn & header & b & Hh & Hb & ->).
  apply struct_bytes_char in Hb as (Ht & b' & ->%struct_bytes_nil & ->).
  assert (length (array_of 64 name) = 64%nat) as Ha by by apply length_array_of.
  assert (length (array_of 32 topic) = 32%nat) as Hb by by apply length_array_of.
  rewrite app_nil_r, <-!app_assoc. do 2 (split; [done|]). split; [by apply field_at|].
  rewrite (assoc_L (++)). split; [apply field_at; [by rewrite length_app, Hh, Ha|done]|].
  unfold channel_message. rewrite (assoc_L (++)). apply drop_app_exact.
  by rewrite !length_app, Hh, Ha, Hb.
Qed.

Lemma subscription_of_array {T} `{Slot T} n name (xs : list T) :
  subscription_of (array_of n name) xs = subscription_of name xs.
Proof. unfold subscription_of. by rewrite c_chars_array_of. Qed.

Lemma deliver_once_all wr bs tx wr' : deliver_once wr bs = (Sent, tx, wr') → tx = bs.
Proof. intros Hd. pose proof (deliver_once_prefix wr bs) as Htx. rewrite Hd in Htx. by apply Htx. Qed.

(** ** Delivery *)

(** A client that gets or pops the message [bs] from a queue, when the reply has it as [body]. *)
Definition fetches (body bs : list byte) : Prop :=
  ∀ call m l f s w req d tx wr tag rest, fetch_call call = Some m → rep l s f w → ss_noack s = 0 →
    encode 0 call = Some req → deliver (ss_wr s) req = (d, tx, wr) → d ≠ Failed →
    0 ≤ tag < 2 ^ 64 → memory_available s →
    ss_rx s = (RxByte <$> response_header_bytes (reply_with call (8 + Z.of_nat (length body))) ++
      le_bytes 8 tag ++ body) ++ rest →
    ∃ p msg f' w', m (Some l) w = Returns (Some p) w' ∧ msg_at (fr_heap f') p msg bs ∧
      msg_tag msg = tag.

Section delivery.
Context `{Callbacks U place callbacks s_callbacks}.

(** The subscriber is about to receive [event]; its callback [id] gets these arguments, and the
    event loop goes on as it does after any callback. *)
Definition delivers (event : list byte) (callback : nat) (type : Z) (name : list byte)
    (topic pattern : option (list byte)) (bs : list byte) (s : session) : Prop :=
  ∀ l u f w fuel rest, rep l s (place u f) w → memory_available s →
    ss_rx s = (RxByte <$> event) ++ rest →
    ends_with place l (emq_process callbacks (S fuel) (Some l))
      ((s_callbacks callback type name topic pattern (Some bs) u ≫=
        after_callback (s_callbacks := s_callbacks) fuel) (received rest (set_ss_error "" s))) f w.

(** C25: a message pushed to a queue. When the server acknowledges, [emq_queue_push] has
    succeeded, and what it sent is the request and the message; an event with the name and the
    message of these bytes makes [emq_process] of any client that is subscribed to the queue call
    its callback with exactly the bytes of the message, of any length and content; and a reply with
    the message of these bytes makes [emq_queue_get] and [emq_queue_pop] of any client return it. *)
Theorem queue_message_travels l p msg bs name req tx wr rest f s w :
  rep l s f w → msg_at (fr_heap f) p msg bs → bs ≠ [] →
  180 + Z.of_nat (length bs) ≤ MAX_RW_COUNT → ss_noack s = 0 →
  encode 0 (QueuePush name (4 + Z.of_nat (length bs))) = Some req →
  deliver_once (ss_wr s) (req ++ expiring msg bs) = (Sent, tx, wr) →
  ss_rx s = (RxByte <$> response_header_bytes (success_reply (QueuePush name 0))) ++ rest →
  ∃ s' w', emq_queue_push (Some l) name (Some p) w = Returns EMQ_STATUS_OK w' ∧ rep l s' f w' ∧
    ss_tx s' = ss_tx s ++ tx ∧ ss_rx s' = rest ∧
    (∀ sub x id, subscription_of name (ss_queues sub) = Some x → qsub_callback x = Some id →
      delivers (queue_forward tx) id EMQ_CALLBACK_QUEUE (qsub_name x) None None bs sub) ∧
    fetches (queue_message tx) bs.
Proof.
  intros Hr Hp Hbs Hlen Hno Henc Hd Hrx.
  pose proof (deliver_once_all _ _ _ _ Hd) as ->.
  edestruct (push_success (QueuePush name (4 + Z.of_nat (length bs)))
    (λ c m, emq_queue_push c name m)) as (w' & Hw & Hr'); [|done..|].
  { unfold push_call. by rewrite decide_True. }
  eexists _, w'. split; [exact Hw|]. split; [exact Hr'|]. split; [done|]. split; [done|].
  destruct (queue_push_bytes _ _ _ msg bs Henc) as (Hname & Hn & Hm). unfold MAX_RW_COUNT in Hlen.
  assert (8 + Z.of_nat (length bs) < 2 ^ 31) as Hsize by lia. split.
  - intros sub x id Hx Hid lb u fb wb fuel restb Hrb Hmem Hs.
    unfold queue_forward in Hs. rewrite Hn, Hm in Hs.
    eapply process_queue_message; [done..| | |done| |done|exact Hs].
    + by apply length_array_of.
    + lia.
    + by rewrite subscription_of_array.
  - rewrite Hm. intros call m lg fg sg wg reqg d txg wrg tag restg Hcall Hrg Hnog Heg Hdg Hok Htag
      Hmem Hs.
    destruct (fetch_success _ _ _ _ _ _ _ _ _ _ _ _ _ Hcall Hrg Hnog Heg Hdg Hok Htag
      Hsize Hmem Hs) as (q & msg' & f' & wg' & ? & ? & ? & _). eauto 10.
Qed.
(** C26: a message published to a channel, in the same way: an event with the name, the topic and
    the message of the bytes that [emq_channel_publish] sent, and with the pattern of a
    subscription by pattern or without one, makes [emq_process] of a client that is subscribed to
    the channel call its callback with the topic as it was published and with exactly the bytes of
    the message. After it, as after an event of a queue, [emq_process] stops when the callback
    returned non-zero and no {e queue} subscription is left: the channel subscriptions do not
    count ([after_callback]). *)
Theorem channel_message_travels l p msg bs name topic pattern req tx wr rest f s w :
  rep l s f w → msg_at (fr_heap f) p msg bs → bs ≠ [] →
  180 + Z.of_nat (length bs) ≤ MAX_RW_COUNT → ss_noack s = 0 →
  from_option (λ q, length q = 32%nat) True pattern →
  encode 0 (ChannelPublish name topic (Z.of_nat (length bs))) = Some req →
  deliver_once (ss_wr s) (req ++ bs) = (Sent, tx, wr) →
  ss_rx s = (RxByte <$> response_header_bytes (success_reply (ChannelPublish name topic 0))) ++ rest →
  ∃ s' w', emq_channel_publish (Some l) name topic (Some p) w = Returns EMQ_STATUS_OK w' ∧
    rep l s' f w' ∧ ss_tx s' = ss_tx s ++ tx ∧ ss_rx s' = rest ∧
    ∀ sub x id, subscription_of name (ss_channels sub) = Some x → csub_callback x = Some id →
      delivers (channel_forward pattern tx) id EMQ_CALLBACK_CHANNEL (csub_name x)
        (Some (array_of 32 topic)) pattern bs sub.
Proof.
  intros Hr Hp Hbs Hlen Hno Hpat Henc Hd Hrx.
  pose proof (deliver_once_all _ _ _ _ Hd) as ->.
  edestruct (push_success (ChannelPublish name topic (Z.of_nat (length bs)))
    (λ c m, emq_channel_publish c name topic m)) as (w' & Hw & Hr'); [|done..|].
  { unfold push_call. by rewrite decide_True. }
  eexists _, w'. split; [exact Hw|]. split; [exact Hr'|]. split; [done|]. split; [done|].
  intros sub x id Hx Hid lb u fb wb fuel restb Hrb Hmem Hs.
  destruct (channel_publish_bytes _ _ _ _ bs Henc) as (Hname & Htopic & Hn & Ht & Hm).
  unfold channel_forward in Hs. rewrite Hn, Ht, Hm in Hs.
  eapply process_channel_message; [done..| | |exact Hpat| |done| |done|exact Hs].
  - by apply length_array_of.
  - by apply length_array_of.
  - unfold MAX_RW_COUNT in Hlen. lia.
  - by rewrite subscription_of_array.
Qed.
End delivery.

(** A message of two bytes, one of them NUL, pushed to the queue [q], handed to a client that is
    subscribed to it and popped by another; and published to the channel [c]. *)
Definition sample_msg : emq_msg := mk_msg (Some 6%positive) 2 0 9 (Some 0).
Definition sample_msg_heap : heap :=
  <[5%positive := inject sample_msg]> {[6%positive := inject (Some <$> [Byte.x00; Byte.x42] : buffer)]}.

Lemma sample_msg_at : msg_at (fr_heap (sample_frame sample_msg_heap)) 5%positive sample_msg [Byte.x00; Byte.x42].
Proof. split; [reflexivity|]. split; [reflexivity|]. exists 6%positive, []. split; reflexivity. Defined.

Lemma queue_message_travels_witness :
  let bs := [Byte.x00; Byte.x42] in
  let call := QueuePush [Byte.x71] 6 in
  let tx := default [] (encode 0 call) ++ le_bytes 4 9 ++ bs in
  let rx := queue_forward tx in
  let reply := response_header_bytes (reply_with (QueueGet [Byte.x71]) 10) ++ le_bytes 8 7 ++ queue_message tx in
  (∃ s' w', emq_queue_push (Some 1%positive) [Byte.x71] (Some 5%positive)
      (sample sample_msg_heap (response_header_bytes (success_reply call)) [] []) =
        Returns EMQ_STATUS_OK w' ∧ rep 1%positive s' (sample_frame sample_msg_heap) w' ∧ ss_tx s' = tx) ∧
  ends_with stateless 1%positive (emq_process (sample_callbacks [Byte.x71]) 1 (Some 1%positive))
    ((s_sample_callbacks [Byte.x71] 1 EMQ_CALLBACK_QUEUE (array_of 64 [Byte.x71]) None None
        (Some bs) tt ≫=
      after_callback (s_callbacks := s_sample_callbacks [Byte.x71]) 0)
      (received [] (set_ss_error "" (subscribed_session 1 rx)))) (sample_frame ∅)
    (subscribed_world 1 rx) ∧
  ∃ p msg f' w', emq_queue_get (Some 1%positive) [Byte.x71] (sample ∅ reply [] []) =
    Returns (Some p) w' ∧ msg_at (fr_heap f') p msg bs ∧ msg_tag msg = 7.
Proof.
  intros bs call tx rx reply.
  destruct (queue_message_travels (H := sample_contract [Byte.x71]) 1%positive 5%positive sample_msg bs
    [Byte.x71] (default [] (encode 0 call)) tx [] [] (sample_frame sample_msg_heap)
    (sample_session (response_header_bytes (success_reply call)) [] [])
    (sample sample_msg_heap (response_header_bytes (success_reply call)) [] []))
    as (s' & w' & Hw & Hr & Htx & _ & Hdeliver & Hfetch); [|exact sample_msg_at|discriminate| |
      reflexivity..|].
  { apply sample_rep. by repeat constructor. }
  { apply Z.leb_le. reflexivity. }
  split; [by exists s', w'|]. split.
  - apply (Hdeliver (subscribed_session 1 rx) (mk_queue_subscription (array_of 64 [Byte.x71]) (Some 1%nat))
      1%nat eq_refl eq_refl 1%positive tt (sample_frame ∅) (subscribed_world 1 rx) 0%nat []);
      [apply subscribed_rep|split; reflexivity|by rewrite app_nil_r].
  - apply (Hfetch (QueueGet [Byte.x71]) _ 1%positive (sample_frame ∅) (sample_session reply [] [])
      (sample ∅ reply [] []) (default [] (encode 0 (QueueGet [Byte.x71]))) Sent
      (default [] (encode 0 (QueueGet [Byte.x71]))) [] 7 [] eq_refl);
      [apply sample_rep; by repeat constructor|reflexivity..|discriminate|lia|split; reflexivity|].
    by rewrite app_nil_r.
Defined.

Lemma channel_message_travels_witness :
  let bs := [Byte.x00; Byte.x42] in
  let call := ChannelPublish [Byte.x63] [Byte.x74] 2 in
  let tx := default [] (encode 0 call) ++ bs in
  let rx := channel_forward None tx in
  (∃ s' w', emq_channel_publish (Some 1%positive) [Byte.x63] [Byte.x74] (Some 5%positive)
      (sample sample_msg_heap (response_header_bytes (success_reply call)) [] []) =
        Returns EMQ_STATUS_OK w' ∧ rep 1%positive s' (sample_frame sample_msg_heap) w' ∧ ss_tx s' = tx) ∧
  ends_with stateless 1%positive (emq_process (sample_callbacks [Byte.x71]) 1 (Some 1%positive))
    ((s_sample_callbacks [Byte.x71] 1 EMQ_CALLBACK_CHANNEL (array_of 64 [Byte.x63])
        (Some (array_of 32 [Byte.x74])) None (Some bs) tt ≫=
      after_callback (s_callbacks := s_sample_callbacks [Byte.x71]) 0)
      (received [] (set_ss_error "" (channel_session 1 rx)))) (sample_frame ∅)
    (channel_world 1 rx).
Proof.
  intros bs call tx rx.
  destruct (channel_message_travels (H := sample_contract [Byte.x71]) 1%positive 5%positive sample_msg bs
    [Byte.x63] [Byte.x74] None (default [] (encode 0 call)) tx [] [] (sample_frame sample_msg_heap)
    (sample_session (response_header_bytes (success_reply call)) [] [])
    (sample sample_msg_heap (response_header_bytes (success_reply call)) [] []))
    as (s' & w' & Hw & Hr & Htx & _ & Hdeliver); [|exact sample_msg_at|discriminate| |
      reflexivity|exact I|reflexivity..|].
  { apply sample_rep. by repeat constructor. }
  { apply Z.leb_le. reflexivity. }
  split; [by exists s', w'|].
  apply (Hdeliver (channel_session 1 rx)
    (mk_channel_subscription (array_of 64 [Byte.x63]) (array_of 32 [Byte.x74]) (Some 1%nat))
    1%nat eq_refl eq_refl 1%positive tt (sample_frame ∅) (channel_world 1 rx) 0%nat []);
    [apply channel_rep|split; reflexivity|by rewrite app_nil_r].
Defined.
