(* ===== verification/Program.v ===== *)
(** Client programs: computations that call the library, print and may exit, as the example
    programs and the benchmark of the repository do; their specifications, which count the blocks
    the program leaks; and the life of a connection around them.

    The output of a program is the list of its calls of [printf] ([Machine.printed]): the format
    and the arguments, a string argument by its characters. *)

From S2P Require Import Prelude Types Machine Lists Network Protocol Client Session Packet Commands.
From S2P Require Import Messages Queries Listings Subscriptions Kept Connection Sample.

(** ** Leaks *)

(** Between [f] and [f'] the program allocated [n] blocks that it never released, and touched
    nothing else. *)
Record leaks (n : nat) (f f' : frame) : Prop := {
  leaks_heap : fr_heap f ⊆ fr_heap f';
  leaks_size : size (fr_heap f') = (size (fr_heap f) + n)%nat;
  leaks_rest : f' = set_fr_heap (fr_heap f') f;
}.

Lemma leaks_refl f : leaks 0 f f.
Proof. constructor; [done|lia|symmetry; apply set_fr_heap_id]. Qed.

Lemma leaks_trans n1 n2 f1 f2 f3 : leaks n1 f1 f2 → leaks n2 f2 f3 → leaks (n1 + n2) f1 f3.
Proof.
  intros [H1 S1 R1] [H2 S2 R2]. constructor; [by etrans|lia|]. rewrite R2. by rewrite R1.
Qed.

Lemma leaks_none f f' : leaks 0 f f' → f' = f.
Proof.
  intros [Hh Hs ->]. rewrite Nat.add_0_r in Hs.
  assert (fr_heap f = fr_heap f') as <- by (apply map_subseteq_size_eq; [done|lia]).
  apply set_fr_heap_id.
Qed.

#[export] Hint Resolve leaks_refl : emq.

(** Blocks that are allocated and not freed are leaked. *)
Lemma freed_size ls h h' :
  NoDup ls → Forall (λ k, is_Some (h !! k)) ls → freed ls h h' →
  h' ⊆ h ∧ size h = (size h' + length ls)%nat.
Proof.
  intros Hnd Hall Hf. split.
  { apply map_subseteq_spec. intros k o Hk. rewrite Hf in Hk. by case_decide. }
  revert h Hall Hf. induction Hnd as [|k ls Hk Hnd IH]; intros h Hall Hf.
  - apply freed_nil in Hf as ->. simpl. lia.
  - apply Forall_cons in Hall as [[o Ho] Hall]. apply freed_delete in Hf.
    rewrite <-(insert_delete_id _ _ _ Ho), map_size_insert_None by apply lookup_delete_eq.
    rewrite (IH (delete k h)); [simpl; lia| |done].
    rewrite Forall_forall in Hall |- *. intros j Hj. rewrite lookup_delete_ne; [by apply Hall|].
    by intros ->.
Qed.

Lemma freed_leaks ls f f' :
  NoDup ls → Forall (λ k, is_Some (fr_heap f' !! k)) ls → f' = set_fr_heap (fr_heap f') f →
  freed ls (fr_heap f') (fr_heap f) → leaks (length ls) f f'.
Proof. intros Hnd Hall Hf Hfr. destruct (freed_size _ _ _ Hnd Hall Hfr). by constructor. Qed.

(** ** Programs *)

(** A program returns a value or ends the process with [exit(code)]. *)
Definition Prog (A : Type) : Type := M (list printed * (A + Z)).

#[export] Instance Prog_ret : MRet Prog := λ A a, (mret ([], inl a) : M _).
#[export] Instance Prog_bind : MBind Prog := λ A B k m,
  (m : M _) ≫= λ '(o, r),
    match r with
    | inl a => (k a : M _) ≫= λ '(o', r'), mret (o ++ o', r')
    | inr code => mret (o, inr code)
    end.

Definition lift {A} (m : M A) : Prog A := (m : M A) ≫= λ a, mret (M := M) ([], inl a).
Definition exit {A} (code : Z) : Prog A := (mret ([], inr code) : M _).
Definition printf (fmt : string) (args : list argument) : Prog unit :=
  if decide (Forall terminated args)
  then (mret ([mk_printed fmt (shown <$> args)], inl tt) : M _)
  else lift (undefined OutOfBounds).

(** A call of [printf]. *)
Definition line : Type := string * list argument.
Definition lines_of (T : Type) : Type := T → list line.

(** A list of calls of [printf]. *)
Definition printf_all (lines : list line) : Prog unit :=
  foldr (λ line k, printf line.1 line.2;; k) (mret tt) lines.

(** [for (i = 0; i < n; i++) body] *)
Definition for_loop (n : Z) (body : Prog unit) : Prog unit :=
  Nat.iter (Z.to_nat n) (λ k, body;; k) (mret tt).

(** The memory at a [char *] pointer. *)
Definition string_at (p : ptr) : M (list byte) :=
  cells ← load (T := buffer) p;
  match initialised cells with
  | Some bs => mret bs
  | None => undefined Uninitialised
  end.

(** ** Specifications of programs *)

(** What is printed, how many blocks are leaked, and the result. *)
Definition SProg (A : Type) : Type := Spec (list printed * nat * (A + Z)).

#[export] Instance SProg_ret : MRet SProg := λ A a, (mret ([], O, inl a) : Spec _).
#[export] Instance SProg_bind : MBind SProg := λ A B k m,
  (m : Spec _) ≫= λ '(o, n, r),
    match r with
    | inl a => (k a : Spec _) ≫= λ '(o', n', r'), mret (o ++ o', (n + n')%nat, r')
    | inr code => mret (o, n, inr code)
    end.

Definition s_lift {A} (a : Spec A) : SProg A := (a : Spec A) ≫= λ x, mret (M := Spec) ([], O, inl x).
Definition s_exit {A} (code : Z) : SProg A := (mret ([], O, inr code) : Spec _).

(** An operation that reports the number of the blocks it leaks. *)
Definition s_leaky {A} (a : Spec (A * nat)) : SProg A :=
  (a : Spec (A * nat)) ≫= λ '(x, n), mret (M := Spec) ([], n, inl x).

Definition s_printf (fmt : string) (args : list argument) : SProg unit :=
  if decide (Forall terminated args)
  then (mret ([mk_printed fmt (shown <$> args)], O, inl tt) : Spec _)
  else s_lift s_unspecified.

Definition s_printf_all (lines : list line) : SProg unit :=
  foldr (λ line k, s_printf line.1 line.2;; k) (mret tt) lines.

Definition s_for_loop (n : Z) (body : SProg unit) : SProg unit :=
  Nat.iter (Z.to_nat n) (λ k, body;; k) (mret tt).

(** What the calls of a program do to the session. *)
Section respects.
Context (R : relation session) `{!Kept R}.

Lemma respects_lift {A} (a : Spec A) : respects R a → respects R (s_lift a).
Proof. intros Ha. apply (respects_bind R); [done|]. intros x. apply (respects_ret R ([], O, inl x)). Qed.

Lemma respects_prog_ret {A} (x : A) : respects R (mret x : SProg A).
Proof. apply (respects_ret R ([], O, inl x)). Qed.

Lemma respects_prog_bind {A B} (a : SProg A) (k : A → SProg B) :
  respects R a → (∀ x, respects R (k x)) → respects R (a ≫= k).
Proof.
  intros Ha Hk. unfold mbind, SProg_bind. apply (respects_bind R); [exact Ha|].
  intros [[o n] [x|code]]; [|apply (respects_ret R)].
  apply (respects_bind R); [apply Hk|]. intros [[o' n'] r']. apply (respects_ret R).
Qed.

Lemma respects_printf fmt args : respects R (s_printf fmt args).
Proof.
  unfold s_printf. case_decide; [apply (respects_ret R (_, O, inl tt))|].
  apply respects_lift, (respects_unspecified R).
Qed.
End respects.
#[export] Hint Resolve respects_prog_ret respects_printf : kept.

(** Goes through the specification of a program. *)
Ltac keep_prog := repeat first
  [ solve [auto with kept]
  | apply respects_lift; [exact _|]
  | apply respects_prog_bind; [exact _| |intros]
  | progress keep ].

(** ** Programs that do what their specification says *)

(** From the frame [f], the program prints what the specification says; if it goes on, its
    value, the number of leaked blocks and the frame it leaves satisfy [R]. *)
Definition outputs {A} (R : A → nat → frame → Prop) (f' : frame) (y : list printed * (A + Z))
    (x : list printed * nat * (A + Z)) : Prop :=
  y = (x.1.1, x.2) ∧ match x.2 with inl v => R v x.1.2 f' | inr _ => True end.

Definition runs {A} (l : loc) (f : frame) (m : Prog A) (a : SProg A) (R : A → nat → frame → Prop) :
    Prop :=
  ∀ s w, rep l s f w → sim l s m a (outputs R) w.

(** The program leaks what the specification counts. *)
Definition performs {A} (l : loc) (f : frame) (m : Prog A) (a : SProg A) : Prop :=
  runs l f m a (λ _ n f', leaks n f f').

(** The program leaves the frame as it was. *)
Definition steady {A} (l : loc) (f : frame) (m : Prog A) (a : SProg A) : Prop :=
  runs l f m a (λ _ n f', n = O ∧ f' = f).

(** A lifted step is the step. *)
Lemma lift_bind {A B} (m : M A) (k : A → Prog B) w : (lift m ≫= k) w = (m ≫= (k : A → M _)) w.
Proof.
  unfold mbind, Prog_bind, lift, mbind, M_bind, mret, M_ret. destruct (m w) as [x w'| | |]; [|done..].
  by destruct (k x w') as [[o r] ?| | |].
Qed.

Lemma s_lift_bind {A B} (a : Spec A) (k : A → SProg B) s :
  (s_lift a ≫= k) s = (a ≫= (k : A → Spec _)) s.
Proof.
  unfold mbind, SProg_bind, s_lift, mbind, Spec_bind, mret, Spec_ret. destruct (a s) as [x s'| |]; [|done..].
  by destruct (k x s') as [[[o n] r] ?| |].
Qed.

Lemma sim_eq {A B} l s (m m' : M A) (a a' : Spec B) Φ w :
  m' w = m w → a' s = a s → sim l s m a Φ w → sim l s m' a' Φ w.
Proof. unfold sim, wp. by intros -> ->. Qed.

Section runs.
Context (l : loc).

Lemma runs_mono {A} f (m : Prog A) a (R R' : A → nat → frame → Prop) :
  runs l f m a R → (∀ x n f', R x n f' → R' x n f') → runs l f m a R'.
Proof.
  intros Hm HR s w Hr. eapply sim_mono; [by apply Hm|]. intros f' y [[o n] r] [-> Hn].
  split; [done|]. destruct r; [|done]. by apply HR.
Qed.

Lemma runs_bind {A B} f (m : Prog A) a (k : A → Prog B) k' R R' :
  runs l f m a R →
  (∀ x n f', R x n f' → runs l f' (k x) (k' x) (λ y n', R' y (n + n')%nat)) →
  runs l f (m ≫= k) (a ≫= k') R'.
Proof.
  intros Hm Hk s w Hr. refine (sim_bind l m a _ _ s _ _ w (Hm s w Hr) _).
  intros [o r] [[o' n] r'] f' s' w' Hr' [[= -> ->] Hn]. destruct r' as [x|code].
  - refine (sim_bind l (k x) (k' x) _ _ s' _ _ w' (Hk x n f' Hn s' w' Hr') _).
    intros [o2 r2] [[o2' n2] r2'] f2 s2 w2 Hr2 [[= -> ->] Hn2].
    eapply sim_ret; [done|]. by split.
  - eapply sim_ret; [done|]. by split.
Qed.

(** A step that leaks nothing. *)
Lemma runs_step {A B} f (m : Prog A) a (k : A → Prog B) k' R :
  steady l f m a → (∀ x, runs l f (k x) (k' x) R) → runs l f (m ≫= k) (a ≫= k') R.
Proof. intros Hm Hk. eapply runs_bind; [exact Hm|]. intros x n f' [-> ->]. apply Hk. Qed.

(** A step that leaks: what follows counts from where it starts. *)
Lemma performs_bind {A B} f (m : Prog A) a (k : A → Prog B) k' :
  performs l f m a → (∀ x n f', leaks n f f' → performs l f' (k x) (k' x)) →
  performs l f (m ≫= k) (a ≫= k').
Proof.
  intros Hm Hk. eapply runs_bind; [exact Hm|]. simpl. intros x n f' Hn.
  eapply runs_mono; [by eapply Hk|]. simpl. intros _ n' f'' Hn'. by eapply leaks_trans.
Qed.

Lemma runs_ret {A} (x : A) f (R : A → nat → frame → Prop) : R x O f → runs l f (mret x) (mret x) R.
Proof. intros HR s w Hr. by eapply sim_ret. Qed.

Lemma runs_exit {A} code f R : runs l f (exit (A := A) code) (s_exit code) R.
Proof. intros s w Hr. by eapply sim_ret. Qed.

Lemma runs_unspecified {A} f (m : Prog A) R : runs l f m (s_lift s_unspecified) R.
Proof. intros s w Hr Hns. exfalso. by apply Hns. Qed.

Lemma steady_ret {A} (x : A) f : steady l f (mret x) (mret x).
Proof. by apply runs_ret. Qed.

Lemma steady_performs {A} f (m : Prog A) a : steady l f m a → performs l f m a.
Proof. intros Hm. eapply runs_mono; [exact Hm|]. simpl. intros _ n f' [-> ->]. apply leaks_refl. Qed.

Lemma performs_ret {A} (x : A) f : performs l f (mret x) (mret x).
Proof. apply steady_performs, steady_ret. Qed.

Lemma steady_bind {A B} f (m : Prog A) a (k : A → Prog B) k' :
  steady l f m a → (∀ x, steady l f (k x) (k' x)) → steady l f (m ≫= k) (a ≫= k').
Proof. apply runs_step. Qed.

(** An operation of the library. *)
Lemma runs_lift {A} f (m : M A) (a : Spec A) R :
  (∀ s w, rep l s f w → sim l s m a (λ f' y x, y = x ∧ R x O f') w) →
  runs l f (lift m) (s_lift a) R.
Proof.
  intros Hm s w Hr. eapply (sim_bind l m a); [by apply Hm|].
  intros y x f' s' w' Hr' [-> HR]. by eapply sim_ret.
Qed.

Lemma steady_lift {A} f (m : M A) (a : Spec A) : refines l m a → steady l f (lift m) (s_lift a).
Proof.
  intros Hm. apply runs_lift. intros s w Hr. eapply sim_mono; [by apply Hm|].
  intros f' y x [-> ->]. done.
Qed.

Lemma steady_lift_at {A} f (m : M A) (a : Spec A) :
  (∀ s w, rep l s f w → sim l s m a (same f) w) → steady l f (lift m) (s_lift a).
Proof.
  intros Hm. apply runs_lift. intros s w Hr. eapply sim_mono; [by apply Hm|].
  intros f' y x [-> ->]. done.
Qed.

Lemma runs_eta {A} f (m : Prog A) a R : runs l f (m ≫= mret) a R → runs l f m a R.
Proof.
  intros Hm s w Hr. eapply sim_eq; [|done|exact (Hm s w Hr)].
  unfold mbind, Prog_bind, mbind, M_bind, mret, Prog_ret, M_ret, mret.
  destruct (m w) as [[o [x|code]] w'| | |]; [by rewrite app_nil_r|done..].
Qed.

Lemma runs_s_eta {A} f (m : Prog A) a R : runs l f m (a ≫= mret) R → runs l f m a R.
Proof.
  intros Hm s w Hr. eapply sim_eq; [done| |exact (Hm s w Hr)].
  unfold mbind, SProg_bind, mbind, Spec_bind, mret, SProg_ret, Spec_ret, mret.
  destruct (a s) as [[[o n] [x|code]] s'| |]; [by rewrite app_nil_r, Nat.add_0_r|done..].
Qed.

(** A step of the program alone, which reads the memory. *)
Lemma runs_pure {A B} f (m : M A) x (k : A → Prog B) a R :
  (∀ s w, rep l s f w → m w = Returns x w) → runs l f (k x) a R → runs l f (lift m ≫= k) a R.
Proof.
  intros Hm Hk s w Hr. eapply sim_eq; [|done|exact (Hk s w Hr)].
  rewrite lift_bind. unfold mbind, M_bind. by rewrite (Hm s w Hr).
Qed.

Lemma runs_load {T} `{Storable T} {B} f k (x : T) (K : T → Prog B) a R :
  points_to (fr_heap f) k x → runs l f (K x) a R → runs l f (lift (load (Some k)) ≫= K) a R.
Proof.
  intros Hk. apply runs_pure. intros s w Hr.
  pose proof (lookup_weaken _ _ _ _ Hk (frame_subseteq _ _ _ _ Hr)) as Hw.
  unfold load. by rewrite Hw, project_inject.
Qed.

(** Reading a field, or the memory at a pointer. *)
Lemma runs_field {T} `{Storable T} {V B} f k (x : T) (g : T → V) (K : V → Prog B) a R :
  points_to (fr_heap f) k x → runs l f (K (g x)) a R →
  runs l f (lift (y ← load (Some k); mret (g y)) ≫= K) a R.
Proof.
  intros Hk. apply runs_pure. intros s w Hr.
  pose proof (lookup_weaken _ _ _ _ Hk (frame_subseteq _ _ _ _ Hr)) as Hw.
  unfold mbind, M_bind, load. by rewrite Hw, project_inject.
Qed.

Lemma runs_string_at {B} f k bs (K : list byte → Prog B) a R :
  points_to (fr_heap f) k (Some <$> bs : buffer) → runs l f (K bs) a R →
  runs l f (lift (string_at (Some k)) ≫= K) a R.
Proof.
  intros Hk. apply runs_pure. intros s w Hr.
  pose proof (lookup_weaken _ _ _ _ Hk (frame_subseteq _ _ _ _ Hr)) as Hw.
  unfold string_at, mbind, M_bind, load. by rewrite Hw, project_inject, initialised_Some.
Qed.

Lemma steady_printf f fmt args : steady l f (printf fmt args) (s_printf fmt args).
Proof.
  intros s w Hr. unfold printf, s_printf. case_decide.
  - by eapply sim_ret.
  - intros Hns. exfalso. by apply Hns.
Qed.

Lemma steady_printf_all f lines : steady l f (printf_all lines) (s_printf_all lines).
Proof.
  induction lines as [|[fmt args] lines IH]; [apply steady_ret|].
  apply steady_bind; [apply steady_printf|done].
Qed.

Lemma steady_for f n body body' :
  steady l f body body' → steady l f (for_loop n body) (s_for_loop n body').
Proof.
  intros Hbody. unfold for_loop, s_for_loop.
  induction (Z.to_nat n) as [|k IH]; [apply steady_ret|]. by apply steady_bind.
Qed.
End runs.

(** ** Messages of programs *)

(** The memory holds the characters of a string literal at [d]. *)
Definition literal (d : loc) (s : string) (f : frame) : Prop :=
  points_to (fr_heap f) d (Some <$> c_bytes (String.list_byte_of_string s) : buffer).

Lemma literal_leaks d s n f f' : leaks n f f' → literal d s f → literal d s f'.
Proof. intros [Hh _ _] Hd. exact (lookup_weaken _ _ _ _ Hd Hh). Qed.

(** [f] is [f0] and the message [m] at [p], which does not own its data. *)
Record holds (p : loc) (m : emq_msg) (f0 f : frame) : Prop := {
  holds_fresh : fr_heap f0 !! p = None;
  holds_borrowed : msg_zero_copy m = Some EMQ_ZEROCOPY_ON;
  holds_frame : f = set_fr_heap (<[p := inject m]> (fr_heap f0)) f0;
}.

Section messages.
Context (l : loc).

Lemma holds_msg p m f0 f d bs rest :
  holds p m f0 f → msg_size m = Z.of_nat (length bs) → msg_data m = Some d →
  points_to (fr_heap f0) d ((Some <$> bs) ++ rest : buffer) → msg_at (fr_heap f) p m bs.
Proof.
  intros [Hp _ ->] Hs Hd Hbs. split; [apply lookup_insert_eq|]. split; [done|].
  exists d, rest. split; [done|]. simpl. rewrite lookup_insert_ne; [done|]. intros ->. congruence.
Qed.

(** Creating a message of a literal allocates one block. *)
Lemma runs_msg_create {A} f d size (K : ptr → Prog A) K' R :
  (∀ p f', holds p (mk_msg (Some d) size 0 0 (Some EMQ_ZEROCOPY_ON)) f f' →
    runs l f' (K (Some p)) (K' true) R) →
  runs l f (K NULL) (K' false) R →
  runs l f (lift (emq_msg_create (Some d) size EMQ_ZEROCOPY_ON) ≫= K) (s_lift s_malloc ≫= K') R.
Proof.
  intros Hok Hfail s w Hr. eapply sim_eq; [by apply lift_bind|by apply s_lift_bind|].
  apply sim_assoc. eapply sim_malloc; [done| |]; simpl.
  - intros p s1 w1 Hp Hr1. apply sim_assoc. eapply sim_modify; [done|apply lookup_insert_eq|].
    rewrite fr_heap_twice. simpl. rewrite insert_insert_eq. intros w2 Hr2.
    by apply (Hok p _ ltac:(by constructor)).
  - intros s1 w1 Hr1. by apply Hfail.
Qed.

(** Releasing it frees this block. *)
Lemma runs_msg_release {A} p m f0 f (K : unit → Prog A) a R :
  holds p m f0 f → runs l f0 (K tt) a R →
  runs l f (lift (emq_msg_release (Some p)) ≫= K) a R.
Proof.
  intros [Hp Hm ->] HK s w Hr. eapply sim_eq; [by apply lift_bind|done|].
  apply sim_assoc. eapply sim_load; [done|apply lookup_insert_eq|]. rewrite Hm.
  rewrite decide_False by done. eapply sim_free; [done|apply lookup_insert_eq|].
  rewrite fr_heap_twice. simpl. rewrite delete_insert_id, set_fr_heap_id by done.
  intros w1 Hr1. by apply HK.
Qed.

(** Sending it. *)
Lemma steady_push call m p msg bs f :
  push_call call (Z.of_nat (length bs)) = Some m → msg_at (fr_heap f) p msg bs →
  180 + Z.of_nat (length bs) ≤ MAX_RW_COUNT →
  steady l f (lift (m (Some l) (Some p)))
    (s_lift (s_push call (push_payload call msg bs) (Z.of_nat (length bs)))).
Proof. intros Hc Hm Hlen. apply steady_lift_at. intros s w Hr. by apply sim_push_call. Qed.

(** Setting its time to live. *)
Lemma runs_msg_expire {A} p m f0 f time (K : unit → Prog A) a R :
  holds p m f0 f →
  (∀ f', holds p (set_msg_expire time m) f0 f' → runs l f' (K tt) a R) →
  runs l f (lift (emq_msg_expire (Some p) time) ≫= K) a R.
Proof.
  intros [Hp Hm ->] HK s w Hr. eapply sim_eq; [by apply lift_bind|done|].
  eapply sim_modify; [done|apply lookup_insert_eq|]. rewrite fr_heap_twice. simpl.
  rewrite insert_insert_eq. intros w1 Hr1.
  by apply (HK (set_fr_heap (<[p := inject (set_msg_expire time m)]> (fr_heap f0)) f0)).
Qed.

(** Receiving a message, which owns its data. *)
Lemma runs_fetch {A} call m f (K : ptr → Prog A) K' R :
  fetch_call call = Some m →
  runs l f (K NULL) (K' None) R →
  (∀ p f' x, new_msg f f' (Some p) (Some x) → runs l f' (K (Some p)) (K' (Some x)) R) →
  runs l f (lift (m (Some l)) ≫= K) (s_lift (s_fetch call) ≫= K') R.
Proof.
  intros Hc Hnone Hsome s w Hr. eapply sim_eq; [by apply lift_bind|by apply s_lift_bind|].
  eapply sim_bind; [by eapply simulates_fetch|]. intros y x f' s' w' Hr' Hn.
  destruct x as [x|].
  - destruct x as [tag bs]. destruct (Hn) as (p & d & -> & _). by eapply Hsome.
  - destruct Hn as [-> ->]. by apply Hnone.
Qed.

(** Releasing it gives both its blocks back. *)
Lemma runs_fetched_release {A} f0 f p x (K : unit → Prog A) a R :
  new_msg f0 f (Some p) (Some x) → runs l f0 (K tt) a R →
  runs l f (lift (emq_msg_release (Some p)) ≫= K) a R.
Proof.
  intros Hn HK s w Hr. eapply sim_eq; [by apply lift_bind|done|].
  eapply sim_msg_release; [done|exact Hn|]. intros w1 Hr1. by apply HK.
Qed.

(** Its accessors. *)
Lemma new_msg_blocks f0 f p tag bs :
  new_msg f0 f (Some p) (Some (tag, bs)) → ∃ d,
    points_to (fr_heap f) p
      (mk_msg (Some d) (Z.of_nat (length bs)) tag 0 (Some EMQ_ZEROCOPY_OFF)) ∧
    points_to (fr_heap f) d (Some <$> bs : buffer).
Proof.
  intros (p' & d & [= <-] & Hpd & _ & _ & ->). exists d. simpl.
  rewrite lookup_insert_ne, !lookup_insert_eq by done. done.
Qed.
End messages.

(** ** Printing the lists of the library *)

Section lists.
Context (T : Type) `{WireRecord T}.

(** [emq_list_rewind(list, &iter); while ((node = emq_list_next(&iter)) != NULL) ...] that
    prints the value of every node. *)
Fixpoint print_nodes (fuel : nat) (iter : ptr) (show : lines_of T) :
    Prog unit :=
  match fuel with
  | O => lift out_of_fuel
  | S fuel =>
      '(node, iter) ← lift (emq_list_next iter);
      match node with
      | None => mret tt
      | Some _ =>
          n ← lift (load (T := emq_list_node) node);
          x ← lift (load (T := T) (node_value n));
          printf_all (show x);;
          print_nodes fuel iter show
      end
  end.

Definition print_list (client list : ptr) (title : string)
    (show : lines_of T) (error : string) : Prog unit :=
  printf title [];;
  match list with
  | Some _ =>
      iter ← lift (emq_list_rewind list);
      fuel ← lift (loop_fuel list);
      print_nodes fuel iter show;;
      lift (emq_list_release list)
  | None =>
      message ← lift (EMQ_GET_ERROR client);
      printf error [AStr (c_bytes (String.list_byte_of_string message))]
  end.

Fixpoint s_print_nodes (xs : list T) (show : lines_of T) : SProg unit :=
  match xs with
  | [] => mret tt
  | x :: xs => s_printf_all (show x);; s_print_nodes xs show
  end.

Definition s_print_list (xs : option (list T)) (title : string)
    (show : lines_of T) (error : string) : SProg unit :=
  s_printf title [];;
  match xs with
  | Some xs => s_print_nodes xs show;; mret tt
  | None =>
      message ← s_lift (s_get ss_error);
      s_printf error [AStr (c_bytes (String.list_byte_of_string message))]
  end.

Context (l : loc).

Lemma steady_print_nodes f show p ns xs fuel :
  dlseg (fr_heap f) p ns NULL → Forall2 (λ v x, points_to (fr_heap f) v x) ns.*2 xs →
  (length ns < fuel)%nat →
  steady l f (print_nodes fuel (first_ptr ns NULL) show) (s_print_nodes xs show).
Proof.
  revert p xs fuel. induction ns as [|[k v] ns IH]; intros p xs [|fuel] Hn Hv Hf; simpl in *; try lia.
  - apply Forall2_nil_inv_l in Hv as ->. eapply (runs_pure l f _ (NULL, NULL)); [done|].
    apply steady_ret.
  - apply Forall2_cons_inv_l in Hv as (x & xs' & Hx & Hv & ->). destruct Hn as [Hk Hn].
    eapply (runs_pure l f _ (Some k, first_ptr ns NULL)).
    { intros s w Hr. pose proof (lookup_weaken _ _ _ _ Hk (frame_subseteq _ _ _ _ Hr)) as Hw.
      unfold emq_list_next, mbind, M_bind, load. by rewrite Hw, project_inject. }
    eapply runs_load; [exact Hk|]. eapply runs_load; [exact Hx|].
    apply steady_bind; [apply steady_printf_all|]. intros _. eapply IH; [exact Hn|done|lia].
Qed.

(** An operation that leaks what it reports. *)
Lemma sim_map {A B C} s (m : M A) (a : Spec B) (g : B → C) (Φ : frame → A → B → Prop) Ψ w :
  sim l s m a Φ w → (∀ f y x, Φ f y x → Ψ f y (g x)) →
  sim l s m (a ≫= λ x, mret (g x)) Ψ w.
Proof.
  intros Hm HΨ Hns. assert (a s ≠ Unspecified) as Ha.
  { intros Ha. apply Hns. unfold mbind, Spec_bind. by rewrite Ha. }
  specialize (Hm Ha). unfold sim, wp, mbind, Spec_bind in *. destruct (m w) as [y w'| | |]; [|done| |done].
  - destruct Hm as (x & s' & f' & -> & Hr & HΦ). eexists _, _, _. eauto.
  - by rewrite Hm.
Qed.

Lemma s_leaky_bind {A B} (a : Spec (A * nat)) (k : A → SProg B) s :
  (s_leaky a ≫= k) s =
    (a ≫= λ '(x, n), (k x : Spec _) ≫= λ y, mret (M := Spec) (y.1.1, (n + y.1.2)%nat, y.2)) s.
Proof.
  unfold mbind, SProg_bind, s_leaky, mbind, Spec_bind, mret, Spec_ret.
  destruct (a s) as [[x n] s'| |]; [|done..]. by destruct (k x s') as [[[o n'] r] ?| |].
Qed.

Lemma runs_leaky {A A' B} f (m : M A) (a : Spec (A' * nat)) Φ (K : A → Prog B) (K' : A' → SProg B) R :
  simulates l m a Φ →
  (∀ y x n f', Φ f f' y (x, n) → runs l f' (K y) (K' x) (λ v n', R v (n + n')%nat)) →
  runs l f (lift m ≫= K) (s_leaky a ≫= K') R.
Proof.
  intros Hm HK s w Hr. eapply sim_eq; [by apply lift_bind|by apply s_leaky_bind|].
  eapply sim_bind; [by apply Hm|]. intros y [x n] f' s' w' Hr' HΦ.
  eapply sim_map; [exact (HK y x n f' HΦ s' w' Hr')|]. intros f2 y2 [[o2 n2] r2] [-> H2]. done.
Qed.

Lemma runs_list_release {B} f lp fm ns (K : unit → Prog B) a R :
  dlist (fr_heap f) lp fm ns → NoDup (lp :: ns.*1 ++ owned fm ns) →
  Forall (λ v, is_Some (fr_heap f !! v)) (owned fm ns) →
  (∀ fh, freed (lp :: ns.*1 ++ owned fm ns) (fr_heap f) fh → runs l (set_fr_heap fh f) (K tt) a R) →
  runs l f (lift (emq_list_release (Some lp)) ≫= K) a R.
Proof.
  intros Hd Hnd Hall HK s w Hr. eapply sim_eq; [by apply lift_bind|done|].
  eapply sim_list_release; [done..|]. intros fh w' Hr' Hf. exact (HK fh Hf s w' Hr').
Qed.

(** What is left once the list of a listing was released. *)
Lemma released_leaks f f1 lp ns leaked fh :
  f1 = set_fr_heap (fr_heap f1) f → NoDup (lp :: ns.*1 ++ ns.*2 ++ leaked) →
  Forall (λ k, is_Some (fr_heap f1 !! k)) leaked →
  freed (lp :: ns.*1 ++ ns.*2 ++ leaked) (fr_heap f1) (fr_heap f) →
  freed (lp :: ns.*1 ++ ns.*2) (fr_heap f1) fh →
  leaks (length leaked) f (set_fr_heap fh f1).
Proof.
  intros Hf1 Hnd Hall Hf Hfh.
  rewrite (app_assoc ns.*1) in Hnd. change (NoDup ((lp :: ns.*1 ++ ns.*2) ++ leaked)) in Hnd.
  apply NoDup_app in Hnd as (_ & Hdisj & Hnd). apply freed_leaks; simpl; [done| |by rewrite Hf1|].
  - rewrite Forall_forall in Hall |- *. intros k Hk. rewrite Hfh, decide_False; [by apply Hall|].
    intros Hk'. by apply (Hdisj k).
  - intros k. rewrite (Hf k), (Hfh k). repeat case_decide; try done; in_list.
Qed.

Lemma performs_print_list f m call title show error :
  simulates l m (s_listing T call) (list_result T) →
  performs l f (list ← lift m; print_list (Some l) list title show error)
    (xs ← s_leaky (s_listing T call); s_print_list xs title show error).
Proof.
  intros Hm. eapply runs_leaky; [exact Hm|].
  intros y x n f1 (leaked & Hn & Hf1 & Hall & Hres). simpl in Hn. subst n.
  apply runs_step; [apply steady_printf|]. intros _. destruct x as [xs|]; simpl in Hres.
  - destruct Hres as (lp & ns & -> & Hd & Hv & Hnd & Hf). pose proof Hd as [Hl Hns _ _].
    eapply (runs_pure l f1 _ (first_ptr ns NULL)); [|eapply (runs_pure l f1 _ (S (length ns)))].
    1,2: intros s w Hr; pose proof (lookup_weaken _ _ _ _ Hl (frame_subseteq _ _ _ _ Hr)) as Hw;
      unfold emq_list_rewind, loop_fuel, mbind, M_bind, load; rewrite Hw, project_inject; cbn;
      by rewrite ?Nat2Z.id.
    eapply runs_step; [by eapply steady_print_nodes; [exact Hns|exact Hv|lia]|].
    intros _. pose proof Hnd as Hnd'. rewrite (app_assoc ns.*1) in Hnd'.
    change (NoDup ((lp :: ns.*1 ++ ns.*2) ++ leaked)) in Hnd'. apply NoDup_app in Hnd' as (Hnd' & _ & _).
    apply runs_eta. eapply runs_list_release; [exact Hd|exact Hnd'| |].
    + apply Forall_forall. intros v Hin. exact (Forall2_points_to_some _ _ _ _ Hv Hin).
    + intros fh Hfh. apply runs_ret. rewrite Nat.add_0_r. by eapply released_leaks.
  - destruct Hres as (-> & Hnd & Hf).
    assert (leaks (length leaked) f f1) as Hleaks by by apply freed_leaks.
    eapply runs_mono.
    { apply (steady_bind l f1 _ (s_lift (s_get ss_error))); [apply steady_lift, refines_last_error|].
      intros message. apply steady_printf. }
    simpl. intros _ n' f' [-> ->]. by rewrite Nat.add_0_r.
Qed.
End lists.

(** ** The life of a connection *)

Lemma prog_assoc {A B C} (m : Prog A) (k : A → Prog B) (k' : B → Prog C) w :
  ((m ≫= k) ≫= k') w = (m ≫= λ x, k x ≫= k') w.
Proof.
  unfold mbind, Prog_bind, mbind, M_bind, mret, M_ret. destruct (m w) as [[o [x|code]] w'| | |]; [|done..].
  destruct (k x w') as [[o' [y|code]] w''| | |]; [|done..].
  destruct (k' y w'') as [[o'' r] w3| | |]; [by rewrite app_assoc|done..].
Qed.

Lemma prog_bind_ext {A B} (m : Prog A) (k k' : A → Prog B) w :
  (∀ x w, k x w = k' x w) → (m ≫= k) w = (m ≫= k') w.
Proof.
  intros Hk. unfold mbind, Prog_bind, mbind, M_bind. destruct (m w) as [[o [x|code]] w'| | |]; [|done..].
  by rewrite Hk.
Qed.

Lemma prog_ret_l {A B} (x : A) (k : A → Prog B) w : (mret x ≫= k) w = k x w.
Proof.
  unfold mbind, Prog_bind, mbind, M_bind, mret, Prog_ret, M_ret, mret.
  by destruct (k x w) as [[o r] ?| | |].
Qed.

Lemma prog_ret_r {A} (m : Prog A) k w : (∀ x w, k x w = (mret x : Prog A) w) → (m ≫= k) w = m w.
Proof.
  intros Hk. unfold mbind, Prog_bind, mbind, M_bind, mret, M_ret.
  destruct (m w) as [[o [x|code]] w'| | |]; [|done..]. rewrite Hk.
  unfold mret, Prog_ret, mret, M_ret. by rewrite app_nil_r.
Qed.

(** Executing the first part of a program. *)
Lemma prog_returns {A B} (m : Prog A) (k : A → Prog B) o o' x r w w1 w2 :
  m w = Returns (o, inl x) w1 → k x w1 = Returns (o', r) w2 →
  (m ≫= k) w = Returns (o ++ o', r) w2.
Proof.
  intros Hm Hk. unfold mbind, Prog_bind, mbind, M_bind, mret, M_ret. by rewrite Hm, Hk.
Qed.

Lemma prog_bind_inv {A B} (m : Prog A) (k : A → Prog B) o y w w2 :
  (m ≫= k) w = Returns (o, inl y) w2 →
  ∃ o1 x w1 o2, m w = Returns (o1, inl x) w1 ∧ k x w1 = Returns (o2, inl y) w2.
Proof.
  unfold mbind, Prog_bind, mbind, M_bind, mret, M_ret.
  destruct (m w) as [[o1 [x|code]] w1| | |]; [|done..].
  destruct (k x w1) as [[o2 [z|code]] w3| | |] eqn:Hk; [|done..].
  intros [= <- <- <-]. by exists o1, x, w1, o2.
Qed.

Lemma prog_exits {A B} (m : Prog A) (k : A → Prog B) o code w w1 :
  m w = Returns (o, inr code) w1 → (m ≫= k) w = Returns (o, inr code) w1.
Proof. intros Hm. unfold mbind, Prog_bind, mbind, M_bind, mret, M_ret. by rewrite Hm. Qed.

Lemma prog_blocks {A B} (m : Prog A) (k : A → Prog B) w w1 :
  m w = Blocks w1 → (m ≫= k) w = Blocks w1.
Proof. intros Hm. unfold mbind, Prog_bind, mbind, M_bind, mret, M_ret. by rewrite Hm. Qed.

(** Following an execution to a fault. *)
Lemma lift_step {A B} (m : M A) (k : A → Prog B) x w w' :
  m w = Returns x w' → (lift m ≫= k) w = k x w'.
Proof. intros Hm. rewrite lift_bind. unfold mbind, M_bind. by rewrite Hm. Qed.

Lemma lift_faults {A B} (m : M A) (k : A → Prog B) e w :
  m w = Faults e → (lift m ≫= k) w = Faults e.
Proof. intros Hm. rewrite lift_bind. unfold mbind, M_bind. by rewrite Hm. Qed.

Lemma printf_faults {B} fmt args (k : unit → Prog B) e w :
  Forall terminated args → k tt w = Faults e → (printf fmt args ≫= k) w = Faults e.
Proof.
  intros Hargs Hk. unfold printf. rewrite decide_True by done.
  unfold mbind, Prog_bind, mbind, M_bind, mret, M_ret. by rewrite Hk.
Qed.

(** How a program that disconnected ends: it returns what the specification says, in a process
    that is the frame [R] describes; or it exits, or waits for the peer. *)
Definition finishes {A} (R : A → nat → frame → Prop) (b : answer (list printed * nat * (A + Z)))
    (out : outcome (list printed * (A + Z))) : Prop :=
  match b with
  | Answer (o, n, inl x) s => ∃ f, out = Returns (o, inl x) (world_of f (ss_mallocs s)) ∧ R x n f
  | Answer (o, _, inr code) _ => ∃ w, out = Returns (o, inr code) w
  | Starved => ∃ w, out = Blocks w
  | Unspecified => True
  end.

(** With the heap [h] and the sockets [socks] before: the counted leaks and no new socket. *)
Definition completes {A} (b : answer (list printed * nat * (A + Z))) (h : heap) (socks : gmap Z sock)
    (out : outcome (list printed * (A + Z))) : Prop :=
  match b with
  | Answer (o, n, inl x) _ => ∃ w, out = Returns (o, inl x) w ∧ h ⊆ w_heap w ∧
      size (w_heap w) = (size h + n)%nat ∧ w_socks w = socks
  | Answer (o, _, inr code) _ => ∃ w, out = Returns (o, inr code) w
  | Starved => ∃ w, out = Blocks w
  | Unspecified => True
  end.

Lemma finishes_completes {A} f (b : answer (list printed * nat * (A + Z))) out :
  finishes (λ _ n f', leaks n f f') b out → completes b (fr_heap f) (fr_socks f) out.
Proof.
  unfold finishes, completes. destruct b as [[[o n] [x|code]] s| |]; [|done..].
  intros (f' & -> & [H1 H2 H3]). eexists. by split_and!; [..|rewrite H3].
Qed.

(** [client = connect; if (client != NULL) { body; emq_disconnect(client); } else failed] *)
Definition with_connection {A} (connect : M ptr) (body : ptr → Prog A) (failed : Prog A) : Prog A :=
  client ← lift connect;
  match client with
  | Some _ => x ← body client; lift (emq_disconnect client);; mret x
  | None => failed
  end.

Lemma lift_returns {A} (m : M A) x w w' : m w = Returns x w' → lift m w = Returns ([], inl x) w'.
Proof. intros Hw. unfold lift, mbind, M_bind. by rewrite Hw. Qed.

Lemma disconnect_finishes {A} l f (m : Prog A) a R s w :
  runs l f m a R → rep l s f w →
  finishes R (a s) ((x ← m; lift (emq_disconnect (Some l));; mret x) w).
Proof.
  intros Hm Hr. pose proof (sim_implements l m a (λ _, outputs R) f s w (Hm s w Hr)) as Hi.
  unfold implements in Hi. unfold finishes. destruct (a s) as [[[o n] r] s'| |]; [| |done].
  - destruct Hi as (y & f' & w' & Hw & Hr' & -> & HR). simpl in Hw, HR.
    destruct r as [x|code]; [|by eexists; apply prog_exits].
    exists f'. split; [|done]. rewrite <-(app_nil_r o). eapply prog_returns; [exact Hw|].
    by rewrite (lift_step _ _ _ _ _ (disconnect_returns _ _ _ _ Hr')).
  - destruct Hi as [w' Hw]. exists w'. by apply prog_blocks.
Qed.

(** The session that a connection starts from [w], and its frame. *)
Definition first_session (w : world) : session := new_session (next_sock w) (drop 4 (w_mallocs w)).
Definition first_frame (n : nat) (w : world) : frame :=
  mk_frame (w_heap w) (w_socks w) (drop n (w_sys w)) (tail (w_peers w)).

(** A function that connects, with [n] calls of the system after that of [socket], unless memory or
    the system fail. *)
Definition opens (n : nat) (connect : M ptr) : Prop := ∀ w,
  allocs 4 w → calls n w →
  ∃ l w', connect w = Returns (Some l) w' ∧ rep l (first_session w) (first_frame n w) w'.

Lemma connected_opens n connect :
  (∀ w (Q : ptr → world → Prop), allocs 4 w → calls n w →
    (∀ l w', connected n w l w' → Q (Some l) w') → wp False connect Q w) →
  opens n connect.
Proof.
  intros Hconnect w Ha Hs.
  destruct (proj1 (wp_returns connect (λ y w', ∃ l, y = Some l ∧ connected n w l w') w))
    as (y & w' & Hw & l & -> & Hc); [apply Hconnect; eauto|].
  by exists l, w'.
Qed.

Lemma opens_tcp_connect addr port : opens (tcp_calls addr) (emq_tcp_connect addr port).
Proof. apply connected_opens. intros w Q Ha Hs HQ. by apply wp_tcp_connect. Qed.

(** A process whose memory and system calls do not fail, with the peers of its next sockets. *)
Definition at_peers (h : heap) (socks : gmap Z sock) (peers : list sock) : world :=
  mk_world h [] socks [] peers.

Lemma allocs_at n h socks peers : allocs n (at_peers h socks peers).
Proof. unfold allocs, all_true. simpl. by rewrite take_nil. Qed.
Lemma calls_at n h socks peers : calls n (at_peers h socks peers).
Proof. unfold calls, all_none. simpl. by rewrite take_nil. Qed.
#[export] Hint Resolve allocs_at calls_at : emq.

Lemma connection_finishes {A} n connect body failed (a : SProg A) R w :
  (∀ Q : ptr → world → Prop, (∀ l w', connected n w l w' → Q (Some l) w') → wp False connect Q w) →
  (∀ l, runs l (first_frame n w) (body (Some l)) a R) →
  finishes R (a (first_session w)) (with_connection connect body failed w).
Proof.
  intros Hconnect Hbody. unfold with_connection. rewrite lift_bind.
  destruct (proj1 (wp_returns connect (λ y w', ∃ l, y = Some l ∧ connected n w l w') w))
    as (y & w1 & Hw & l & -> & Hc); [apply Hconnect; eauto|].
  unfold mbind at 1, M_bind at 1. rewrite Hw.
  exact (disconnect_finishes l _ _ a R _ _ (Hbody l) Hc).
Qed.

Lemma connection_completes {A} n connect body failed (a : SProg A) w :
  (∀ Q : ptr → world → Prop, (∀ l w', connected n w l w' → Q (Some l) w') → wp False connect Q w) →
  (∀ l f, fr_heap f = w_heap w → performs l f (body (Some l)) a) →
  completes (a (first_session w)) (w_heap w) (w_socks w) (with_connection connect body failed w).
Proof.
  intros Hconnect Hbody. apply (finishes_completes (first_frame n w)).
  apply (connection_finishes n); [done|]. intros l. by apply Hbody.
Qed.

(** Beside a connected client, a message of a literal is one more block of the frame, until it
    is released. *)
Lemma msg_create_rep l s f w d size :
  rep l s f w → hd true (ss_mallocs s) = true →
  ∃ p w' f', emq_msg_create (Some d) size EMQ_ZEROCOPY_ON w = Returns (Some p) w' ∧
    rep l (allocated 1 s) f' w' ∧
    holds p (mk_msg (Some d) size 0 0 (Some EMQ_ZEROCOPY_ON)) f f'.
Proof.
  intros Hr Hm. pose proof (sim_implements l
    (emq_msg_create (Some d) size EMQ_ZEROCOPY_ON) s_malloc
    (λ f f' y x, if x : bool then ∃ p, y = Some p ∧
      holds p (mk_msg (Some d) size 0 0 (Some EMQ_ZEROCOPY_ON)) f f' else True) f s w) as Hi.
  unfold implements, s_malloc in Hi. rewrite Hm in Hi.
  destruct Hi as (y & f' & w' & Hw & Hr' & p & -> & Hp).
  - refine (sim_ext l _ (s_malloc ≫= mret) s_malloc s _ w _ _).
    { unfold mbind, Spec_bind, s_malloc. by rewrite Hm. }
    eapply sim_malloc; [done| |]; simpl.
    + intros p s1 w1 Hp Hr1. eapply sim_modify; [done|apply lookup_insert_eq|].
      rewrite fr_heap_twice. simpl. rewrite insert_insert_eq. intros w2 Hr2.
      eapply sim_ret; [done|]. exists p. split; [done|]. by constructor.
    + intros s1 w1 Hr1. by eapply sim_ret.
  - exists p, w', f'. split; [done|]. split; [|done]. unfold allocated.
    by replace (drop 1 (ss_mallocs s)) with (tail (ss_mallocs s)) by by destruct (ss_mallocs s).
Qed.

Lemma allocs_le m n w : (m ≤ n)%nat → allocs n w → allocs m w.
Proof.
  intros Hm Ha. unfold allocs, all_true in *. replace m with (m `min` n)%nat by lia.
  rewrite <-take_take. by apply Forall_take.
Qed.

Lemma allocs_nth n w : allocs (S n) w → hd true (drop n (w_mallocs w)) = true.
Proof.
  unfold allocs. revert n. induction (w_mallocs w) as [|b ms IH]; intros n Hn; [by rewrite drop_nil|].
  apply all_true_S in Hn as [Hb Hn]. destruct n as [|n]; [done|]. simpl. by apply IH.
Qed.

Lemma msg_release_frame p m f0 f ms :
  holds p m f0 f → emq_msg_release (Some p) (world_of f ms) = Returns tt (world_of f0 ms).
Proof.
  intros [Hp Hz ->]. unfold emq_msg_release, free, mbind, M_bind, load, world_of.
  cbn [w_heap fr_heap set_fr_heap]. rewrite lookup_insert_eq, project_inject, Hz.
  rewrite decide_False by done. unfold mret, M_ret. cbn beta iota. cbn [w_heap].
  rewrite lookup_insert_eq. unfold set_heap. simpl. by rewrite delete_insert_id by done.
Qed.

(** ** Theorems *)

(** C19: any program that does what its specification says on a connected
    client, put between [emq_tcp_connect] and [emq_disconnect], does it from start to end: it
    prints and returns what the specification says of the session that the connection starts,
    and leaves the process as it found it, but for as many blocks as the specification says it
    leaks. *)
Theorem connection_lifecycle {A} addr port body failed (a : SProg A) w :
  allocs 4 w → calls (tcp_calls addr) w →
  (∀ l f, fr_heap f = w_heap w → performs l f (body (Some l)) a) →
  completes (a (first_session w)) (w_heap w) (w_socks w)
    (with_connection (emq_tcp_connect addr port) body failed w).
Proof.
  intros Ha Hs. apply (connection_completes (tcp_calls addr)). intros Q HQ. by apply wp_tcp_connect.
Qed.

(** A program that pings the server twice. *)
Definition two_pings (client : ptr) : Prog Z := _ ← lift (emq_ping client); lift (emq_ping client).
Definition s_two_pings : SProg Z := _ ← s_lift (s_command Ping); s_lift (s_command Ping).

Lemma performs_two_pings l f : performs l f (two_pings (Some l)) s_two_pings.
Proof.
  eapply runs_step; [by apply steady_lift, (refines_command_of l Ping _ eq_refl)|intros _].
  by apply steady_performs, steady_lift, (refines_command_of l Ping _ eq_refl).
Qed.

Lemma connection_lifecycle_witness :
  let reply := response_header_bytes (success_reply Ping) in
  let w := idle_world [] [] (mk_sock [RdData reply; RdData reply] [] []) in
  ∃ w', with_connection (emq_tcp_connect "localhost" 7851) two_pings (mret (-1)) w =
      Returns ([], inl EMQ_STATUS_OK) w' ∧
    w_heap w ⊆ w_heap w' ∧ size (w_heap w') = (size (w_heap w) + 0)%nat ∧ w_socks w' = w_socks w.
Proof.
  intros reply w.
  exact (connection_lifecycle "localhost" 7851 two_pings (mret (-1)) s_two_pings w (Forall_nil_2 _)
    (Forall_nil_2 _) (λ l f _, performs_two_pings l f)).
Defined.
