(* ===== verification/Typing.v ===== *)
(** The types of the client object: whatever a program does with the library, the fields of
    [emq_client] keep to the values that [src/src/emq.h] and [src/src/emq.c] give them, the names
    in the subscriptions stay terminated strings in their arrays, and no operation is undefined. *)

From S2P Require Import Prelude Types Machine Lists Network Protocol Client Session Packet Commands.
From S2P Require Import Messages Queries Listings Subscriptions Kept Process Connection Sample.

(** ** Types *)

(** The last error is a text of the table, so it fits in [error[EMQ_ERROR_BUF_SIZE]]. *)
Record typed_session (s : session) : Prop := {
  typed_status : ss_status s = EMQ_STATUS_OK ∨ ss_status s = EMQ_STATUS_ERR;
  typed_error : ss_error s ∈ emq_error_array;
  typed_noack : ss_noack s = 0 ∨ ss_noack s = 1;
}.

(** The object in memory. *)
Record typed_client (h : heap) (c : emq_client) : Prop := {
  client_status_typed : client_status c = EMQ_STATUS_OK ∨ client_status c = EMQ_STATUS_ERR;
  client_error_typed : Z.of_nat (String.length (client_error c)) < EMQ_ERROR_BUF_SIZE;
  client_noack_typed : client_noack c = 0 ∨ client_noack c = 1;
  client_request_typed : ∃ r (cells : buffer), client_request c = Some r ∧ points_to h r cells ∧
    client_size c = Z.of_nat (length cells) ∧ EMQ_DEFAULT_REQUEST_SIZE ≤ client_size c;
  client_queues_typed : ∃ q ns, client_queue_subscriptions c = Some q ∧
    dlist h q (Some emq_queue_subscription_list_free_handler) ns ∧
    Forall (λ v, ∃ x, points_to h v x ∧ wf_name 64 (qsub_name x)) ns.*2;
  client_channels_typed : ∃ q ns, client_channel_subscriptions c = Some q ∧
    dlist h q (Some emq_channel_subscription_list_free_handler) ns ∧
    Forall (λ v, ∃ x, points_to h v x ∧ wf_name 64 (csub_name x) ∧ wf_name 32 (csub_channel x)) ns.*2;
}.

Lemma Forall2_Forall {A B} (P : A → B → Prop) (R : B → Prop) xs ys :
  Forall2 P xs ys → Forall R ys → Forall (λ x, ∃ y, P x y ∧ R y) xs.
Proof. induction 1; intros HR; [constructor|]. apply Forall_cons in HR as [? ?]. constructor; eauto. Qed.

Lemma error_array_fits e : e ∈ emq_error_array → Z.of_nat (String.length e) < EMQ_ERROR_BUF_SIZE.
Proof.
  assert (Forall (λ e, Z.of_nat (String.length e) < EMQ_ERROR_BUF_SIZE) emq_error_array) as Hall.
  { by repeat constructor. }
  rewrite Forall_forall in Hall. apply Hall.
Qed.

(** A typed session is represented by a typed object. *)
Lemma rep_typed l s f w :
  rep l s f w → typed_session s →
  ∃ c, points_to (w_heap w) l c ∧ typed_client (w_heap w) c.
Proof.
  intros [g Hr] [Hs He Hn]. pose proof Hr as []. exists (lo_client g). split; [done|].
  destruct rep_wf as [Hq Hc]. constructor.
  - by rewrite rep_status.
  - rewrite rep_error. by apply error_array_fits.
  - by rewrite rep_noack.
  - eauto 10.
  - exists (lo_queues g), (lo_queue_nodes g). split_and!; [done..|]. by eapply Forall2_Forall.
  - exists (lo_channels g), (lo_channel_nodes g). split_and!; [done..|]. by eapply Forall2_Forall.
Qed.

(** ** The specifications keep to the types *)

Definition retyped : relation session := λ s s', typed_session s → typed_session s'.

Lemma error_message_typed e : error_message e ∈ emq_error_array.
Proof.
  unfold error_message. destruct (emq_error_array !! Z.to_nat e) as [t|] eqn:He; [|left].
  by eapply list_elem_of_lookup_2.
Qed.

#[export] Instance retyped_kept : Kept retyped.
Proof.
  constructor; [split; [by intros s Hs|intros s1 s2 s3; unfold retyped; auto]|..];
    try (intros; intros [??]; constructor; done).
  intros e s [? ? ?]. constructor; [done|apply error_message_typed|done].
Qed.

(** ** The calls of the library on a client

    [offers l f m a Φ]: on the client at [l], beside the frame [f], [m] is an operation of the
    library; [a] is its specification, and [Φ] relates the results and the frame it leaves. *)
Inductive offers (l : loc) (f : frame) :
    ∀ A B : Type, M A → Spec B → (frame → A → B → Prop) → Prop :=
  | offers_noack_enable : offers l f unit unit (emq_noack_enable (Some l)) (s_put (set_ss_noack 1)) (same f)
  | offers_noack_disable : offers l f unit unit (emq_noack_disable (Some l)) (s_put (set_ss_noack 0)) (same f)
  | offers_last_error : offers l f string string (emq_last_error (Some l)) (s_get ss_error) (same f)
  | offers_command call m :
      command_of call = Some m → offers l f Z Z (m (Some l)) (s_command call) (same f)
  | offers_query call m r :
      query_of call = Some (m, r) → offers l f Z Z (m (Some l)) (s_query call r) (same f)
  | offers_stat : offers l f (Z * option (list byte)) (Z * option (list byte)) (emq_stat (Some l)) s_stat (same f)
  | offers_fetch call m :
      fetch_call call = Some m →
      offers l f ptr (option (Z * list byte)) (m (Some l)) (s_fetch call) (new_msg f)
  | offers_push call m p msg bs :
      push_call call (Z.of_nat (length bs)) = Some m → msg_at (fr_heap f) p msg bs →
      180 + Z.of_nat (length bs) ≤ MAX_RW_COUNT →
      offers l f Z Z (m (Some l) (Some p))
        (s_push call (push_payload call msg bs) (Z.of_nat (length bs))) (same f)
  | offers_user_list : offers l f ptr (option (list emq_user) * nat)
      (emq_user_list (Some l)) (s_listing emq_user UserList) (list_result emq_user f)
  | offers_queue_list : offers l f ptr (option (list emq_queue) * nat)
      (emq_queue_list (Some l)) (s_listing emq_queue QueueList) (list_result emq_queue f)
  | offers_route_list : offers l f ptr (option (list emq_route) * nat)
      (emq_route_list (Some l)) (s_listing emq_route RouteList) (list_result emq_route f)
  | offers_route_keys name : offers l f ptr (option (list emq_route_key) * nat)
      (emq_route_keys (Some l) name) (s_listing emq_route_key (RouteKeys name)) (list_result emq_route_key f)
  | offers_channel_list : offers l f ptr (option (list emq_channel) * nat)
      (emq_channel_list (Some l)) (s_listing emq_channel ChannelList) (list_result emq_channel f)
  | offers_queue_subscribe name flags cb : offers l f Z (Z * bool)
      (emq_queue_subscribe (Some l) name flags cb)
      (s_subscribe (QueueSubscribe name flags) cb (mk_queue_subscription (array_of 64 name) cb))
      (register_result f)
  | offers_channel_subscribe name topic cb : offers l f Z (Z * bool)
      (emq_channel_subscribe (Some l) name topic cb)
      (s_subscribe (ChannelSubscribe name topic) cb
        (mk_channel_subscription (array_of 64 name) (array_of 32 topic) cb)) (register_result f)
  | offers_channel_psubscribe name pattern cb : offers l f Z (Z * bool)
      (emq_channel_psubscribe (Some l) name pattern cb)
      (s_subscribe (ChannelPsubscribe name pattern) cb
        (mk_channel_subscription (array_of 64 name) (array_of 32 pattern) cb)) (register_result f)
  | offers_queue_unsubscribe name : offers l f Z Z (emq_queue_unsubscribe (Some l) name)
      (s_unsubscribe emq_queue_subscription (QueueUnsubscribe name)
        EMQ_PROTOCOL_CMD_QUEUE_UNSUBSCRIBE name) (same f)
  | offers_channel_unsubscribe name topic : offers l f Z Z (emq_channel_unsubscribe (Some l) name topic)
      (s_unsubscribe emq_channel_subscription (ChannelUnsubscribe name topic)
        EMQ_PROTOCOL_CMD_CHANNEL_UNSUBSCRIBE name) (same f)
  | offers_channel_punsubscribe name pattern :
      offers l f Z Z (emq_channel_punsubscribe (Some l) name pattern)
      (s_unsubscribe emq_channel_subscription (ChannelPunsubscribe name pattern)
        EMQ_PROTOCOL_CMD_CHANNEL_UNSUBSCRIBE name) (same f)
  | offers_process U (place : U → frame → frame) callbacks s_callbacks u f0 :
      Callbacks place callbacks s_callbacks → f = place u f0 →
      offers l f Z (Z * U) (run_process callbacks (Some l)) (s_process s_callbacks u) (placed place f0).

Lemma offers_sim l f {A B} (m : M A) (a : Spec B) Φ s w :
  offers l f A B m a Φ → rep l s f w → sim l s m a Φ w.
Proof.
  intros Hm Hr. destruct Hm.
  - by apply refines_noack_enable.
  - by apply refines_noack_disable.
  - by apply refines_last_error.
  - by eapply refines_command_of.
  - by eapply refines_query_of.
  - by apply refines_stat.
  - by eapply simulates_fetch.
  - by eapply sim_push_call.
  - by apply (simulates_listing emq_user l UserList).
  - by apply (simulates_listing emq_queue l QueueList).
  - by apply (simulates_listing emq_route l RouteList).
  - by apply (simulates_listing emq_route_key l (RouteKeys name)).
  - by apply (simulates_listing emq_channel l ChannelList).
  - by apply simulates_queue_subscribe.
  - by apply simulates_channel_subscribe.
  - by apply simulates_channel_psubscribe.
  - by apply refines_queue_unsubscribe.
  - by apply refines_channel_unsubscribe.
  - by apply refines_channel_punsubscribe.
  - subst. by apply (simulates_run_process (place := place)).
Qed.

Lemma offers_respects R `{!Kept R} l f {A B} (m : M A) (a : Spec B) Φ :
  offers l f A B m a Φ → respects R a.
Proof. intros []; eauto using respects_process with kept; apply (respects_listing R). Qed.

(** ** Reachable states

    A program connects, calls the library in any order, and does what it likes with the rest of
    its memory. *)
Inductive reachable (l : loc) : session → frame → world → Prop :=
  | reachable_connect n w w' :
      connected n w l w' →
      reachable l (new_session (next_sock w) (drop 4 (w_mallocs w)))
        (mk_frame (w_heap w) (w_socks w) (drop n (w_sys w)) (tail (w_peers w))) w'
  | reachable_call s f w A B (m : M A) (a : Spec B) Φ y x s' f' w' :
      reachable l s f w → offers l f A B m a Φ →
      a s = Answer x s' → m w = Returns y w' → rep l s' f' w' → Φ f' y x → reachable l s' f' w'
  | reachable_elsewhere s f w f' w' :
      reachable l s f w → rep l s f' w' → reachable l s f' w'.

Lemma reachable_rep l s f w : reachable l s f w → rep l s f w ∧ typed_session s.
Proof.
  induction 1 as [n w w' Hc|s f w A B m a Φ y x s' f' w' _ [Hr Hs] Hm Ha _ Hr' _|s f w f' w' _ [_ Hs] Hr'].
  - split; [exact Hc|]. constructor; [by left|by left|by left].
  - split; [done|]. exact (offers_respects retyped _ _ _ _ _ Hm _ _ _ Ha Hs).
  - done.
Qed.

(** C13: type safety of the client object. Whatever calls a program makes on a
    client, in any order and whatever the server answers, the object keeps its type: the status is
    one of the two, the error text fits its array, the request buffer has the size that is
    recorded, the subscriptions are well-formed lists of terminated names; and the next call of
    the library, unless its specification promises nothing, returns or waits for the server, but
    is never undefined. *)
Theorem client_type_safety l s f w :
  reachable l s f w →
  (∃ c, points_to (w_heap w) l c ∧ typed_client (w_heap w) c) ∧
  ∀ A B (m : M A) (a : Spec B) Φ, offers l f A B m a Φ →
    match a s with
    | Answer x s' => ∃ y f' w', m w = Returns y w' ∧ Φ f' y x ∧ reachable l s' f' w'
    | Starved => ∃ w', m w = Blocks w'
    | Unspecified => True
    end.
Proof.
  intros Hreach. destruct (reachable_rep _ _ _ _ Hreach) as [Hr Hs].
  split; [by eapply rep_typed|]. intros A B m a Φ Hm.
  pose proof (sim_implements l m a (λ _, Φ) f s w (offers_sim _ _ _ _ _ _ _ Hm Hr)) as Hi.
  unfold implements in Hi. destruct (a s) as [x s'| |] eqn:Ha; [|done|done].
  destruct Hi as (y & f' & w' & Hw & Hr' & HΦ). exists y, f', w'. split_and!; [done..|].
  by eapply reachable_call.
Qed.

(** A connection, and a subscription that the server refuses. *)
Lemma client_type_safety_witness :
  let sk := mk_sock [RdData (response_header_bytes (mk_response_header EMQ_PROTOCOL_RES
    EMQ_PROTOCOL_CMD_QUEUE_SUBSCRIBE EMQ_PROTOCOL_STATUS_ERROR_ACCESS 0))] [] [] in
  let w := idle_world [] [] sk in
  ∃ l w' s f w2, emq_tcp_connect "localhost" 7851 w = Returns (Some l) w' ∧
    emq_queue_subscribe (Some l) [Byte.x71] 0 (Some 0%nat) w' = Returns EMQ_STATUS_ERR w2 ∧
    reachable l s f w2 ∧ ss_error s = error_message EMQ_ERROR_ACCESS ∧
    ∃ c, points_to (w_heap w2) l c ∧ typed_client (w_heap w2) c.
Proof.
  intros sk w.
  destruct (proj1 (wp_returns (emq_tcp_connect "localhost" 7851)
    (λ y w', ∃ l, y = Some l ∧ connected 5 w l w') w)) as (y & w' & Hw & l & -> & Hc).
  { apply wp_tcp_connect; [constructor|constructor|eauto]. }
  pose proof (reachable_connect l 5 w w' Hc) as Hreach.
  destruct (proj2 (client_type_safety l _ _ w' Hreach) Z (Z * bool)%type _ _ _
    (offers_queue_subscribe l _ [Byte.x71] 0 (Some 0%nat))) as (y & f' & w2 & Hw2 & Hy & Hreach2).
  destruct Hy as [-> _]. eexists l, w', _, f', w2. split_and!; [done|exact Hw2|exact Hreach2|done|].
  exact (proj1 (client_type_safety _ _ _ _ Hreach2)).
Defined.
