(* ===== verification/Specified.v ===== *)
(** Where the specifications promise something. [Session.answer] has a third case besides an
    answer and waiting: nothing is promised when the server breaks the protocol in a way that the
    code does not defend against. Here this is bounded: most operations never need that case, and
    the others only when the reply is one that no server that keeps to [src/src/protocol.h]
    sends, or when memory for a message runs out. So the refinements of the listings and of the
    operations that fetch a message are stated here, together with what they promise. *)

From S2P Require Import Prelude Types Machine Lists Network Protocol Client Session Packet Commands.
From S2P Require Import Messages Queries Listings Subscriptions Kept Process Connection Sample Program.
From S2P Require Import Typing.

(** ** Weakest preconditions of specifications *)

(** [a] promises something in [s], and if it answers, then as [Q] says. *)
Definition answers_with {A} (Q : A → session → Prop) (a : Spec A) (s : session) : Prop :=
  match a s with Answer x s' => Q x s' | Starved => True | Unspecified => False end.

Definition specified {A} (a : Spec A) (s : session) : Prop := answers_with (λ _ _, True) a s.

Lemma answers_bind {A B} (a : Spec A) (k : A → Spec B) Q s :
  answers_with (λ x s', answers_with Q (k x) s') a s → answers_with Q (a ≫= k) s.
Proof. unfold answers_with, mbind, Spec_bind. by destruct (a s). Qed.

Lemma answers_mono {A} (Q Q' : A → session → Prop) a s :
  answers_with Q a s → (∀ x s', Q x s' → Q' x s') → answers_with Q' a s.
Proof. unfold answers_with. intros Ha HQ. destruct (a s); auto. Qed.

Lemma answers_recv {A} n (k : option (list byte) → Spec A) Q s :
  (∀ bs rest, take_rx n (ss_rx s) = TkGot bs rest → answers_with Q (k (Some bs)) (set_ss_rx rest s)) →
  (∀ rest, take_rx n (ss_rx s) = TkFail rest → answers_with Q (k None) (set_ss_rx rest s)) →
  answers_with Q (s_recv n ≫= k) s.
Proof.
  intros Hgot Hfail. unfold answers_with, mbind, Spec_bind, s_recv in *.
  destruct (take_rx n (ss_rx s)); [by apply Hgot|by apply Hfail|done].
Qed.

(** Bytes that are there are received. *)
Lemma answers_recv_exact {A} bs rest (k : option (list byte) → Spec A) Q s n :
  length bs = n → ss_rx s = (RxByte <$> bs) ++ rest →
  answers_with Q (k (Some bs)) (set_ss_rx rest s) → answers_with Q (s_recv n ≫= k) s.
Proof.
  intros Hn Hs HQ. unfold answers_with, mbind, Spec_bind in *. by erewrite s_recv_exact.
Qed.

Lemma answers_malloc {A} (k : bool → Spec A) Q s :
  answers_with Q (k (hd true (ss_mallocs s))) (set_ss_mallocs (tail (ss_mallocs s)) s) →
  answers_with Q (s_malloc ≫= k) s.
Proof. done. Qed.

Lemma answers_put {A} g (k : Spec A) Q s : answers_with Q k (g s) → answers_with Q (s_put g;; k) s.
Proof. done. Qed.

Lemma answers_get {A B} (g : session → A) (k : A → Spec B) Q s :
  answers_with Q (k (g s)) s → answers_with Q (s_get g ≫= k) s.
Proof. done. Qed.

Lemma specified_bind {A B} (a : Spec A) (k : A → Spec B) s :
  specified a s → (∀ x s', a s = Answer x s' → specified (k x) s') → specified (a ≫= k) s.
Proof.
  unfold specified, answers_with, mbind, Spec_bind. intros Ha Hk.
  destruct (a s) as [x s'| |] eqn:Hs; [|done..]. by apply Hk.
Qed.

Lemma specified_put g {A} (k : Spec A) s : specified k (g s) → specified (s_put g;; k) s.
Proof. done. Qed.

Lemma specified_get {A B} (g : session → A) (k : A → Spec B) s :
  specified (k (g s)) s → specified (s_get g ≫= k) s.
Proof. done. Qed.

Lemma specified_ret {A} (x : A) s : specified (mret x) s.
Proof. done. Qed.

Lemma specified_fail {A} e (r : A) s : specified (s_fail e r) s.
Proof. done. Qed.

Lemma specified_succeed {A} (r : A) s : specified (s_succeed r) s.
Proof. done. Qed.

Lemma specified_malloc {A} (k : bool → Spec A) s :
  specified (k (hd true (ss_mallocs s))) (set_ss_mallocs (tail (ss_mallocs s)) s) →
  specified (s_malloc ≫= k) s.
Proof. done. Qed.

Lemma specified_recv {A} n (k : option (list byte) → Spec A) s :
  (∀ bs rest, take_rx n (ss_rx s) = TkGot bs rest → specified (k (Some bs)) (set_ss_rx rest s)) →
  (∀ rest, take_rx n (ss_rx s) = TkFail rest → specified (k None) (set_ss_rx rest s)) →
  specified (s_recv n ≫= k) s.
Proof. apply answers_recv. Qed.

(** ** The phases of an exchange *)

Lemma specified_transmit {A} how call payload (r : A) k s :
  (∀ tx wr, specified k (set_ss_wr wr (set_ss_tx tx s))) →
  specified (s_transmit how call payload r k) s.
Proof.
  intros Hk. unfold s_transmit. apply specified_get. case_match; [|done].
  apply specified_bind.
  - unfold specified, answers_with, s_send. by destruct (how _ _) as [[? ?] ?].
  - intros d s'. unfold s_send. destruct (how _ _) as [[d' tx] wr]. intros [= <- <-].
    destruct d'; [exact (Hk (ss_tx s ++ tx) wr)..|done].
Qed.

(** The reply that the client expects next is one that says that the call succeeded. *)
Definition success_next (check : protocol_response_header → Z) (s : session)
    (header : protocol_response_header) (rest : list rx_item) : Prop :=
  ∃ bs, take_rx 8 (ss_rx s) = TkGot bs rest ∧ header = read_response_header bs ∧
    check header ≠ EMQ_STATUS_ERR ∧ res_status header = EMQ_PROTOCOL_STATUS_SUCCESS.

Lemma specified_expect {A} check (r : A) k s :
  (∀ header rest, success_next check s header rest → specified (k header) (set_ss_rx rest s)) →
  specified (s_expect check r k) s.
Proof.
  intros Hk. apply specified_recv; [|done]. intros bs rest Ht. cbn zeta. unfold s_examine.
  case_decide; [done|]. case_decide; [|done]. apply Hk. by exists bs.
Qed.

Lemma specified_acknowledged {A} check (r : A) k s :
  (∀ rest, specified k (set_ss_rx rest s)) → specified (s_acknowledged check r k) s.
Proof.
  intros Hk. unfold s_acknowledged. apply specified_get. case_decide.
  - by apply specified_expect.
  - specialize (Hk (ss_rx s)). by destruct s.
Qed.

Create HintDb specified.
#[export] Hint Resolve specified_ret specified_fail specified_succeed : specified.

(** ** The operations *)

Lemma specified_command call s : specified (s_command call) s.
Proof.
  apply specified_put, specified_transmit. intros tx wr. by apply specified_acknowledged.
Qed.

Lemma specified_query call r s : specified (s_query call r) s.
Proof.
  apply specified_put, specified_transmit. intros tx wr. apply specified_expect. intros header rest _.
  by apply specified_recv.
Qed.

Lemma specified_stat s : specified s_stat s.
Proof.
  apply specified_put, specified_transmit. intros tx wr. apply specified_recv; [|done].
  intros bs rest _. unfold s_examine. repeat (case_decide; [done|]). done.
Qed.

Lemma specified_push call payload size s : specified (s_push call payload size) s.
Proof.
  apply specified_put. case_decide; [done|]. apply specified_transmit. intros tx wr.
  by apply specified_acknowledged.
Qed.

Lemma specified_unsubscribe T `{Slot T} call cmd name s : specified (s_unsubscribe T call cmd name) s.
Proof.
  apply specified_put, specified_transmit. intros tx wr. by apply specified_acknowledged.
Qed.

(** A subscription needs room for one more in the count of its list. *)
Lemma specified_subscribe {T} `{Slot T} call cb (x : T) s :
  (∀ st e q rx wr tx ms, slot_get (mk_session st e q (ss_queues s) (ss_channels s) rx wr tx ms) =
    slot_get s) →
  Z.of_nat (length (slot_get s)) + 1 < 2 ^ 64 → specified (s_subscribe call cb x) s.
Proof.
  intros Hslot Hroom. apply specified_put. destruct cb; [|done]. apply specified_transmit. intros tx wr.
  apply specified_acknowledged. intros rest. unfold s_register. apply specified_malloc.
  case_match; [done|]. apply specified_get. rewrite (decide_True (P := _ < _)).
  - apply specified_malloc. by case_match.
  - unfold set_ss_mallocs, set_ss_rx, set_ss_wr, set_ss_tx, set_ss_error. simpl. by rewrite Hslot.
Qed.

Lemma specified_records {T} (records acc : list T) leaked s : specified (s_records records acc leaked) s.
Proof.
  revert acc leaked s. induction records as [|x records IH]; intros acc leaked s; [done|]. simpl.
  apply specified_malloc. case_match; [done|]. apply specified_malloc. case_match; apply IH.
Qed.

(** A listing needs whole records, fewer than 2^31 bytes of them. *)
Definition whole_records (n : nat) (bodylen : Z) : Prop :=
  0 ≤ bodylen < 2 ^ 31 ∧ bodylen mod Z.of_nat n = 0.

Definition lists_whole (T : Type) `{WireRecord T} (call : api_call) (s : session) : Prop :=
  ∀ header rest, success_next (λ header, emq_check_response_header_mini header (call_code call))
    s header rest → whole_records (wr_size (T := T)) (res_bodylen header).

Lemma specified_listing T `{WireRecord T} call s :
  lists_whole T call s → specified (s_listing T call) s.
Proof.
  intros Hwhole. apply specified_put, specified_transmit. intros tx wr. apply specified_expect.
  intros header rest Hnext. destruct (Hwhole header rest Hnext) as [Hlen Hmod].
  pose proof (wr_size_pos (T := T)) as Hpos.
  unfold s_read_list. apply specified_malloc. case_match; [done|]. rewrite decide_True by done.
  apply specified_recv; [|done]. intros bs rest' [Hbs _]%take_rx_length. apply specified_malloc.
  case_match; [done|]. rewrite decide_True; [apply specified_records|].
  rewrite Hbs. apply (inj Z.of_nat). rewrite Nat2Z.inj_mod, Z2Nat.id by lia. exact Hmod.
Qed.

(** A message needs a tag, a body that fits in an [int] and can be read, and memory. *)
Definition whole_message (s : session) (bodylen : Z) (rest : list rx_item) : Prop :=
  ∀ tag rest', take_rx 8 rest = TkGot tag rest' →
    memory_available s ∧ 8 ≤ bodylen < 8 + 2 ^ 31 ∧
    ∀ rest'', take_rx (Z.to_nat (bodylen - 8)) rest' ≠ TkFail rest''.

Definition fetches_whole (call : api_call) (s : session) : Prop :=
  ∀ header rest, success_next (λ header, emq_check_response_header_mini header (call_code call))
    s header rest → whole_message s (res_bodylen header) rest.

(** Such a body is read. *)
Lemma s_read_message_whole size s x s' :
  memory_available s → 0 ≤ size < 2 ^ 31 →
  (∀ rest, take_rx (Z.to_nat size) (ss_rx s) ≠ TkFail rest) →
  s_read_message size s = Answer x s' → x ≠ None.
Proof.
  intros [Hm1 Hm2] Hsize Hbody. unfold s_read_message, mbind, Spec_bind, s_malloc. rewrite Hm1. simpl.
  rewrite Hm2. simpl. rewrite decide_True by done. unfold s_recv. simpl.
  destruct (take_rx (Z.to_nat size) (ss_rx s)) as [bs rest|rest|] eqn:Ht; [|by destruct (Hbody rest)|done].
  by intros [= <- _].
Qed.

Lemma specified_read_message size s : 0 ≤ size < 2 ^ 31 → specified (s_read_message size) s.
Proof.
  intros Hsize. do 2 (apply specified_malloc; case_match; [done|]).
  rewrite decide_True by done. by apply specified_recv.
Qed.

Lemma specified_fetch call s : fetches_whole call s → specified (s_fetch call) s.
Proof.
  intros Hwhole. apply specified_put, specified_transmit. intros tx wr. apply specified_expect.
  intros header rest Hnext. specialize (Hwhole header rest Hnext). unfold s_return_message.
  apply specified_bind; [|intros [?|] s' _; done].
  apply specified_recv; [|done]. intros tag rest' Htag.
  destruct (Hwhole tag rest' Htag) as (Hmem & Hlen & Hbody).
  rewrite u64_small by lia. apply specified_bind; [apply specified_read_message; lia|].
  intros [bs|] s' Hread; [done|]. by eapply s_read_message_whole in Hread; [|exact Hmem|lia|exact Hbody].
Qed.

(** ** Specifications of programs that promise something *)

Lemma specified_prog_bind {A B} (a : SProg A) (k : A → SProg B) s :
  specified a s → (∀ x s', specified (k x) s') → specified (a ≫= k) s.
Proof.
  intros Ha Hk. unfold mbind, SProg_bind. apply specified_bind; [exact Ha|].
  intros [[o n] [x|code]] s' _; [|done]. apply specified_bind; [apply Hk|].
  by intros [[o' n'] r'] s'' _.
Qed.

Lemma specified_lift {A} (a : Spec A) s : specified a s → specified (s_lift a) s.
Proof. intros Ha. by apply specified_bind. Qed.

Lemma specified_printf fmt args s : Forall terminated args → specified (s_printf fmt args) s.
Proof. intros Hargs. unfold s_printf. by rewrite decide_True. Qed.

#[export] Hint Resolve specified_lift specified_command specified_query : specified.

(** Texts and numbers can be printed. *)
Lemma terminated_bytes s : terminated (AStr (c_bytes s)).
Proof. simpl. unfold c_bytes. apply elem_of_app. right. by left. Qed.

Ltac print_texts := repeat first [apply Forall_nil_2|apply Forall_cons_2|apply terminated_bytes|exact I].
#[export] Hint Extern 1 (specified (s_printf _ _) _) =>
  apply specified_printf; print_texts : specified.

(** Goes through the specification of a program. *)
Ltac specify := repeat first
  [ solve [auto with specified|exact I]
  | apply specified_prog_bind; [|intros]
  | case_match ].

(** ** The event loop

    The messages of a stream of events. [copes id name topic pattern bs]: the callback [id] copes
    with a message [bs] for the subscription [name]. *)
Inductive event :=
  | QueueMessage (name bs : list byte)
  | ChannelMessage (name topic : list byte) (pattern : option (list byte)) (bs : list byte).

Definition event_bytes (ev : event) : list byte :=
  match ev with
  | QueueMessage name bs => queue_event name bs
  | ChannelMessage name topic pattern bs => channel_event name topic pattern bs
  end.

Definition wf_event (ev : event) : Prop :=
  match ev with
  | QueueMessage name bs => length name = 64%nat ∧ 64 + Z.of_nat (length bs) < 2 ^ 31
  | ChannelMessage name topic pattern bs =>
      length name = 64%nat ∧ length topic = 32%nat ∧
      from_option (λ p, length p = 32%nat) True pattern ∧ 128 + Z.of_nat (length bs) < 2 ^ 31
  end.

Lemma event_bytes_pos ev : (0 < length (event_bytes ev))%nat.
Proof. destruct ev; simpl; unfold queue_event, channel_event; rewrite !length_app; simpl; lia. Qed.

Definition acceptance : Type :=
  nat → list byte → option (list byte) → option (list byte) → list byte → Prop.

(** Whichever subscription the event is for, its callback copes with it. *)
Definition expected (copes : acceptance) (ev : event) (s : session) : Prop :=
  match ev with
  | QueueMessage _ bs =>
      ∀ x, x ∈ ss_queues s → ∃ id, qsub_callback x = Some id ∧ copes id (qsub_name x) None None bs
  | ChannelMessage _ topic pattern bs =>
      ∀ x, x ∈ ss_channels s → ∃ id, csub_callback x = Some id ∧
        copes id (csub_name x) (Some topic) pattern bs
  end.

(** The second session has no subscription that the first has not. *)
Definition narrows : relation session := λ s s',
  ss_queues s' ⊆ ss_queues s ∧ ss_channels s' ⊆ ss_channels s.

Lemma expected_narrows copes ev s s' : narrows s s' → expected copes ev s → expected copes ev s'.
Proof. intros [Hq Hc]. destruct ev; simpl; auto. Qed.

Section process.
Context {U : Type} (s_callbacks : nat → Z → list byte → option (list byte) → option (list byte) →
  option (list byte) → U → Spec (Z * U)).
Context (copes : acceptance) (ok : nat → U → Prop).

(** The callbacks cope with what they should, [ok k] being what they need of their state for [k]
    more messages: they leave the stream alone and no new subscription, or ask to stop. *)
Definition calm : Prop := ∀ id type name topic pattern bs k u s,
  copes id name topic pattern bs → ok (S k) u →
  answers_with (λ x s', x.1 ≠ 0 ∧ ss_queues s' = [] ∨
      ss_rx s' = ss_rx s ∧ narrows s s' ∧ ok k x.2)
    (s_callbacks id type name topic pattern (Some bs) u) s.

Context (Hcalm : calm).

(** What a handler leaves: the stream from [rest] on, unless the loop is given up. *)
Definition handled (k : nat) (rest : list rx_item) (s0 : session) (x : Z * U) (s : session) : Prop :=
  x.1 = -1 ∨ x.1 = 1 ∨ ss_rx s = rest ∧ narrows s0 s ∧ ok k x.2.

Lemma answers_read_message bs rest (k : option (list byte) → Spec (Z * U)) Q s :
  Z.of_nat (length bs) < 2 ^ 31 → ss_rx s = (RxByte <$> bs) ++ rest →
  (∀ s', answers_with Q (k None) s') →
  (∀ s', narrows s s' → ss_rx s' = rest → answers_with Q (k (Some bs)) s') →
  answers_with Q (s_read_message (Z.of_nat (length bs)) ≫= k) s.
Proof using.
  intros Hlen Hs Hnone Hsome. apply answers_bind.
  apply answers_malloc. case_match; [by apply Hnone|].
  apply answers_malloc. case_match; [by apply Hnone|].
  rewrite decide_True by lia. eapply (answers_recv_exact bs rest); [lia|exact Hs|]. by apply Hsome.
Qed.

Lemma answers_call_back k id type name topic pattern bs u s0 s :
  copes id name topic pattern bs → ok (S k) u → narrows s0 s →
  answers_with (handled k (ss_rx s) s0)
    (s_call_back s_callbacks (Some id) type name topic pattern (Some bs) u) s.
Proof using Hcalm.
  intros Hcopes Hu [Hq Hc]. apply answers_bind. eapply answers_mono; [by apply Hcalm|].
  intros [r u'] s' [[Hr Hnone]|(Hrx & [Hq' Hc'] & Hu')]; cbn [fst snd] in *.
  - rewrite decide_False by done. right. left. simpl. by rewrite decide_True.
  - assert (narrows s0 s') by (split; etrans; eauto).
    case_decide; [by right; right|]. unfold handled, answers_with. simpl. case_decide; auto.
Qed.

(** Any event of the stream is one that the loop knows, and its handler copes with it. *)
Definition managed (ev : event) : Prop := ∀ k rest u s,
  expected copes ev s → ok (S k) u → ss_rx s = (RxByte <$> event_bytes ev) ++ rest →
  ∃ hb rest', take_rx 8 (ss_rx s) = TkGot hb rest' ∧ known_event (read_event_header hb) ∧
    answers_with (handled k rest s) (s_process_event s_callbacks (read_event_header hb) u)
      (set_ss_rx rest' s).

Lemma subscription_of_elem {T} `{Slot T} name xs x : subscription_of name xs = Some x → x ∈ xs.
Proof using.
  intros ([i x'] & [Hi _]%list_find_Some & ->)%fmap_Some. by eapply list_elem_of_lookup_2.
Qed.

Lemma managed_queue name bs : wf_event (QueueMessage name bs) → managed (QueueMessage name bs).
Proof using Hcalm.
  intros (Hname & Hlen) k rest u s Hs Hu Hrx. cbn [event_bytes] in Hrx. unfold queue_event in Hrx.
  rewrite !fmap_app, <-!app_assoc in Hrx.
  eexists _, _. split; [rewrite Hrx; by apply take_rx_exact|].
  rewrite <-(app_nil_r (event_header_bytes _)), read_event_header_bytes.
  cbn [event_magic event_cmd event_type event_bodylen].
  rewrite (u32_small (64 + _)) by lia. split.
  { split; [done|]. split; [by right|by left]. }
  unfold s_process_event. rewrite decide_True by done. unfold s_queue_process.
  eapply answers_recv_exact; [exact Hname|reflexivity|]. unfold mbind at 1, Spec_bind at 1, s_get.
  unfold answers_with at 1. cbn [ss_queues set_ss_rx].
  destruct (subscription_of name (ss_queues s)) as [x|] eqn:Hx; [|by left].
  rewrite decide_True by done. cbn [event_bodylen].
  replace (64 + Z.of_nat (length bs) - 64) with (Z.of_nat (length bs)) by lia. rewrite u32_small by lia.
  apply (answers_read_message bs rest); [lia|done|by left|]. intros s' Hn <-.
  destruct (Hs x (subscription_of_elem _ _ _ Hx)) as (id & -> & Hid). by apply answers_call_back.
Qed.

Lemma answers_dispatch k cmd len name topic pattern bs rest u s0 s :
  expected copes (ChannelMessage name topic pattern bs) s → ok (S k) u → narrows s0 s →
  128 + Z.of_nat (length bs) < 2 ^ 31 → ss_rx s = (RxByte <$> bs) ++ rest →
  len = match pattern with Some _ => 128 | None => 96 end + Z.of_nat (length bs) →
  answers_with (handled k rest s0) (s_channel_dispatch s_callbacks
    (mk_event_header EMQ_PROTOCOL_EVENT cmd EMQ_PROTOCOL_EVENT_MESSAGE len) name topic pattern u) s.
Proof using Hcalm.
  intros Hs Hu [Hq Hc] Hlen Hrx ->. unfold s_channel_dispatch, mbind at 1, Spec_bind at 1, s_get.
  unfold answers_with at 1.
  destruct (subscription_of name (ss_channels s)) as [x|] eqn:Hx; [|by left]. cbn [event_bodylen].
  match goal with |- context [u32 ?z] => replace (u32 z) with (Z.of_nat (length bs))
    by (destruct pattern; rewrite u32_small; lia) end.
  apply (answers_read_message bs rest); [lia|done|by left|]. intros s' [Hq' Hc'] <-.
  destruct (Hs x (subscription_of_elem _ _ _ Hx)) as (id & -> & Hid).
  apply answers_call_back; [done..|]. split; by etrans.
Qed.

Lemma managed_channel name topic pattern bs :
  wf_event (ChannelMessage name topic pattern bs) → managed (ChannelMessage name topic pattern bs).
Proof using Hcalm.
  intros (Hname & Htopic & Hpat & Hlen) k rest u s Hs Hu Hrx. cbn [event_bytes] in Hrx.
  unfold channel_event in Hrx. rewrite !fmap_app, <-!app_assoc in Hrx.
  eexists _, _. split; [rewrite Hrx; apply take_rx_exact; by destruct pattern|].
  rewrite <-(app_nil_r (event_header_bytes _)), read_event_header_bytes.
  unfold s_process_event, s_channel_process.
  destruct pattern as [p|]; cbn [event_magic event_cmd event_type event_bodylen default] in *.
  - rewrite (u32_small (128 + _)) by lia. split; [split; [done|split; [by right|by right; right]]|].
    rewrite !decide_False by done.
    eapply answers_recv_exact; [exact Hname|reflexivity|].
    eapply answers_recv_exact; [exact Htopic|reflexivity|].
    eapply answers_recv_exact; [exact Hpat|reflexivity|].
    by apply answers_dispatch with (bs := bs).
  - rewrite (u32_small (96 + _)) by lia. split; [split; [done|split; [by right|by right; left]]|].
    rewrite decide_False, decide_True by done.
    eapply answers_recv_exact; [exact Hname|reflexivity|].
    eapply answers_recv_exact; [exact Htopic|reflexivity|].
    by apply answers_dispatch with (bs := bs).
Qed.

Lemma event_managed ev : wf_event ev → managed ev.
Proof using Hcalm. destruct ev; [apply managed_queue|apply managed_channel]. Qed.

(** A stream of whole event messages that ends, breaks, or goes on with what the loop does not
    know after them; the callbacks are ready for that many. *)
Definition event_stream (u : U) (s : session) : Prop := ∃ evs rest,
  (∀ ev, ev ∈ evs → wf_event ev ∧ expected copes ev s) ∧ ok (length evs) u ∧
  (∀ bs rest', take_rx 8 rest = TkGot bs rest' → ¬ known_event (read_event_header bs)) ∧
  ss_rx s = (RxByte <$> concat (event_bytes <$> evs)) ++ rest.

(** An iteration that goes on has read one message. *)
Lemma answers_process_one u s :
  event_stream u s →
  answers_with (λ x s', x.1 = None → event_stream x.2 s' ∧ (length (ss_rx s') < length (ss_rx s))%nat)
    (s_process_one s_callbacks u) s.
Proof using Hcalm.
  intros (evs & rest & Hevs & Hu & Hrest & Hrx). unfold s_process_one.
  apply answers_get. case_match; [done|]. destruct evs as [|ev evs].
  - simpl in Hrx. apply answers_recv; [|done]. intros bs rest' Ht. rewrite Hrx in Ht.
    cbn zeta. rewrite decide_False; [done|]. by eapply Hrest.
  - csimpl in Hrx. rewrite fmap_app, <-app_assoc in Hrx.
    destruct (Hevs ev ltac:(left)) as [Hev Hs].
    destruct (event_managed ev Hev (length evs) _ u s Hs Hu Hrx) as (hb & rest' & Ht & Hknown & Hev').
    apply answers_recv; [|intros ? Hf; by rewrite Ht in Hf].
    intros bs rest'' Ht'. rewrite Ht in Ht'. injection Ht' as <- <-. cbn zeta.
    rewrite decide_True by done. apply answers_bind. eapply answers_mono; [exact Hev'|].
    intros [status u'] s' Hstatus. case_decide; [done|]. case_decide; [done|].
    destruct Hstatus as [?|[?|(Hrx' & Hn & Hu')]]; [done..|]. intros _. split.
    + exists evs, rest. split; [|done]. intros ev' Hin.
      destruct (Hevs ev' ltac:(by right)). eauto using expected_narrows.
    + rewrite Hrx', Hrx, (length_app (RxByte <$> event_bytes ev)), length_fmap.
      pose proof (event_bytes_pos ev). lia.
Qed.

Lemma specified_process_loop fuel u s :
  event_stream u s → (length (ss_rx s) < fuel)%nat →
  specified (s_process_loop s_callbacks fuel u) s.
Proof using Hcalm.
  revert u s. induction fuel as [|fuel IH]; intros u s Hs Hfuel; [lia|]. cbn [s_process_loop].
  apply answers_bind. eapply answers_mono; [by apply answers_process_one|].
  intros [[status|] u'] s' Hs'; [done|]. destruct (Hs' eq_refl). apply IH; [done|lia].
Qed.

Lemma specified_process u s : event_stream u s → specified (s_process s_callbacks u) s.
Proof using Hcalm. intros Hev. apply specified_put, specified_process_loop; [done|simpl; lia]. Qed.
End process.

(** ** Conforming replies

    [conforms s a]: in the session [s], the next reply is one that [a] copes with. *)
Inductive conforms (s : session) : ∀ B : Type, Spec B → Prop :=
  | conforms_noack_enable : conforms s unit (s_put (set_ss_noack 1))
  | conforms_noack_disable : conforms s unit (s_put (set_ss_noack 0))
  | conforms_last_error : conforms s string (s_get ss_error)
  | conforms_command call : conforms s Z (s_command call)
  | conforms_query call r : conforms s Z (s_query call r)
  | conforms_stat : conforms s (Z * option (list byte)) s_stat
  | conforms_push call payload size : conforms s Z (s_push call payload size)
  | conforms_queue_unsubscribe call cmd name :
      conforms s Z (s_unsubscribe emq_queue_subscription call cmd name)
  | conforms_channel_unsubscribe call cmd name :
      conforms s Z (s_unsubscribe emq_channel_subscription call cmd name)
  | conforms_queue_subscribe call cb (x : emq_queue_subscription) :
      Z.of_nat (length (ss_queues s)) + 1 < 2 ^ 64 → conforms s (Z * bool) (s_subscribe call cb x)
  | conforms_channel_subscribe call cb (x : emq_channel_subscription) :
      Z.of_nat (length (ss_channels s)) + 1 < 2 ^ 64 → conforms s (Z * bool) (s_subscribe call cb x)
  | conforms_fetch call :
      fetches_whole call s →
      conforms s (option (Z * list byte)) (s_fetch call)
  | conforms_listing T `{WireRecord T} call :
      lists_whole T call s →
      conforms s (option (list T) * nat) (s_listing T call)
  | conforms_process U (s_callbacks : nat → Z → list byte → option (list byte) →
      option (list byte) → option (list byte) → U → Spec (Z * U)) copes ok u :
      calm s_callbacks copes ok → event_stream copes ok u s →
      conforms s (Z * U) (s_process s_callbacks u).

Lemma conforms_specified s B (a : Spec B) : conforms s B a → specified a s.
Proof.
  intros []; [done..| | | | | | | | | | |].
  - apply specified_command.
  - apply specified_query.
  - apply specified_stat.
  - apply specified_push.
  - apply specified_unsubscribe.
  - apply specified_unsubscribe.
  - by apply specified_subscribe.
  - by apply specified_subscribe.
  - by apply specified_fetch.
  - by apply specified_listing.
  - by eapply specified_process.
Qed.

(** ** Replies that keep to the protocol *)

(** The reply that announces success. *)
Lemma success_next_reply call bodylen items s header rest :
  success_next (λ header, emq_check_response_header_mini header (call_code call)) s header rest →
  ss_rx s = (RxByte <$> response_header_bytes (reply_with call bodylen)) ++ items → 0 ≤ bodylen < 2 ^ 32 →
  res_bodylen header = bodylen ∧ rest = items.
Proof.
  intros (bs & Ht & -> & _ & _) Hrx Hlen. rewrite Hrx, take_rx_exact in Ht by reflexivity.
  injection Ht as <- <-. rewrite <-(app_nil_r (response_header_bytes _)), read_response_header_bytes.
  split; [|done]. simpl. by rewrite u32_small.
Qed.

Lemma lists_whole_reply T `{WireRecord T} call s bodylen items :
  ss_rx s = (RxByte <$> response_header_bytes (reply_with call bodylen)) ++ items →
  0 ≤ bodylen < 2 ^ 31 → bodylen mod Z.of_nat (wr_size (T := T)) = 0 → lists_whole T call s.
Proof.
  intros Hrx Hlen Hmod header rest Hnext.
  destruct (success_next_reply _ bodylen _ _ _ _ Hnext Hrx) as [-> _]; [lia|]. by split.
Qed.

Lemma fetches_whole_reply call s tag body items :
  ss_rx s = (RxByte <$> response_header_bytes (reply_with call (8 + Z.of_nat (length body)))) ++
    (RxByte <$> le_bytes 8 tag) ++ (RxByte <$> body) ++ items →
  8 + Z.of_nat (length body) < 2 ^ 31 → memory_available s → fetches_whole call s.
Proof.
  intros Hrx Hlen Hmem header rest Hnext.
  destruct (success_next_reply _ (8 + Z.of_nat (length body)) _ _ _ _ Hnext Hrx) as [-> ->]; [lia|].
  intros bs rest' Ht. split; [done|]. split; [lia|]. intros rest''.
  rewrite take_rx_exact in Ht by apply length_le_bytes. injection Ht as _ <-.
  replace (8 + _ - 8) with (Z.of_nat (length body)) by lia. by rewrite Nat2Z.id, take_rx_exact.
Qed.

(** What a specification answers, and what the function returns then. *)
Definition answer_of {A} (a : Spec A) (s : session) : option A :=
  match a s with Answer x _ => Some x | _ => None end.

Lemma implements_answer {A B} l (m : M A) (a : Spec B) Φ f s w x :
  implements l m a Φ f s w → answer_of a s = Some x →
  ∃ y f' w' s', m w = Returns y w' ∧ rep l s' f' w' ∧ Φ f f' y x.
Proof.
  unfold implements, answer_of. destruct (a s) as [x' s'| |]; [|done..].
  intros (y & f' & w' & Hw & Hr & HΦ) [= ->]. by exists y, f', w', s'.
Qed.

(** C4: the five listings do what the specification [s_listing] says, and it says something unless
    a reply announces success with a body that is not whole records, or has 2^31 bytes or more: for
    such a body nothing is promised. Otherwise a listing returns a well-formed list of fresh blocks
    that holds the records of the body, the last one first, or [NULL]; or it waits for the server.
    When memory runs out, a record whose node cannot be allocated is missing from the list and
    leaked, since the result of [emq_list_add_value] is ignored (emq.c:1200); the
    specification counts these records, and nothing else is leaked. *)
Theorem listing_refines l f s w name :
  rep l s f w →
  let refines_listing T `{WireRecord T} m call :=
    implements l m (s_listing T call) (list_result T) f s w ∧
    (lists_whole T call s → specified (s_listing T call) s) in
  refines_listing emq_user (emq_user_list (Some l)) UserList ∧
  refines_listing emq_queue (emq_queue_list (Some l)) QueueList ∧
  refines_listing emq_route (emq_route_list (Some l)) RouteList ∧
  refines_listing emq_route_key (emq_route_keys (Some l) name) (RouteKeys name) ∧
  refines_listing emq_channel (emq_channel_list (Some l)) ChannelList.
Proof.
  intros Hr refines_listing.
  split; [|split; [|split; [|split]]]; (split; [apply sim_implements|apply specified_listing]).
  - by apply (simulates_listing emq_user l UserList).
  - by apply (simulates_listing emq_queue l QueueList).
  - by apply (simulates_listing emq_route l RouteList).
  - by apply (simulates_listing emq_route_key l (RouteKeys name)).
  - by apply (simulates_listing emq_channel l ChannelList).
Qed.

(** Two users, and no memory for the node of the first. *)
Definition users_reply : list byte :=
  response_header_bytes (reply_with UserList 144) ++ replicate 72 Byte.x61 ++ replicate 72 Byte.x62.
Definition users_mallocs : list bool := [true; true; true; false].
Definition users_session : session := sample_session users_reply [] users_mallocs.
Definition users_world : world := sample ∅ users_reply [] users_mallocs.

Lemma users_whole : lists_whole emq_user UserList users_session.
Proof. eapply lists_whole_reply; [exact eq_refl|lia|reflexivity]. Qed.

Lemma listing_refines_witness :
  specified (s_listing emq_user UserList) users_session ∧
  ∃ y f' w' s', emq_user_list (Some 1%positive) users_world = Returns y w' ∧
    rep 1%positive s' f' w' ∧
    list_result emq_user (sample_frame ∅) f' y (Some [wr_parse (replicate 72 Byte.x62)], 1%nat).
Proof.
  assert (rep 1%positive users_session (sample_frame ∅) users_world) as Hr
    by (apply sample_rep; by repeat constructor).
  pose proof (proj1 (listing_refines 1%positive (sample_frame ∅) users_session users_world [] Hr)) as [Hi Hs].
  split; [exact (Hs users_whole)|].
  refine (implements_answer _ _ _ _ _ _ _ _ Hi _). vm_compute. reflexivity.
Defined.

(** C5: [emq_queue_get] and [emq_queue_pop] do what the specification [s_fetch] says, and it says
    something unless a reply announces success and then either memory for the message runs out, or
    its body cannot be read, or is no size of an [int]: nothing is promised then, since the code
    dereferences [NULL] when it has no message ([read_message_tag_crash]). Otherwise they
    return one new message, made of two fresh blocks, that holds exactly the tag and the bytes of
    the reply; or [NULL] with nothing allocated; or they wait for the server. *)
Theorem fetch_refines call m l f s w :
  fetch_call call = Some m → rep l s f w →
  implements l (m (Some l)) (s_fetch call) new_msg f s w ∧
  (fetches_whole call s → specified (s_fetch call) s).
Proof.
  intros Hm Hr. split; [|apply specified_fetch]. apply sim_implements. by apply simulates_fetch.
Qed.

(** A message with a tag and one byte. *)
Definition message_reply : list byte :=
  response_header_bytes (reply_with (QueueGet [Byte.x71]) 9) ++ le_bytes 8 5 ++ [Byte.x41].
Definition message_session : session := sample_session message_reply [] [].

Lemma message_whole : fetches_whole (QueueGet [Byte.x71]) message_session.
Proof.
  eapply (fetches_whole_reply _ _ 5 [Byte.x41]); [exact eq_refl|simpl; lia|split; reflexivity].
Qed.

Lemma fetch_refines_witness :
  let call := QueueGet [Byte.x71] in
  specified (s_fetch call) message_session ∧
  ∃ y f' w' s', emq_queue_get (Some 1%positive) [Byte.x71] (sample ∅ message_reply [] []) = Returns y w' ∧
    rep 1%positive s' f' w' ∧ new_msg (sample_frame ∅) f' y (Some (5, [Byte.x41])).
Proof.
  intros call.
  assert (rep 1%positive message_session (sample_frame ∅) (sample ∅ message_reply [] [])) as Hr
    by (apply sample_rep; by repeat constructor).
  pose proof (fetch_refines call (λ client, emq_queue_get client [Byte.x71]) 1%positive (sample_frame ∅)
    message_session _ eq_refl Hr) as [Hi Hs].
  split; [exact (Hs message_whole)|].
  refine (implements_answer _ _ _ _ _ _ _ _ Hi _). vm_compute. reflexivity.
Defined.

(** C14: no operation is undefined with a server that keeps to the protocol. On a client in any
    state that a program can bring about, a call returns, or waits for the server: the commands,
    the queries, [emq_stat], the three sending and the three unsubscribing functions whatever the
    server answers; the subscribing functions while the list has room for one more; the listings
    when a successful reply announces whole records, fewer than 2^31 bytes of them; [emq_queue_get]
    and [emq_queue_pop] when a successful reply comes with a tag and a readable body and memory is
    available; [emq_process] while the server sends whole event messages that the callbacks of the
    subscriptions cope with, leaving the stream alone. *)
Theorem calls_defined l s f w A B (m : M A) (a : Spec B) Φ :
  reachable l s f w → offers l f A B m a Φ → conforms s B a →
  (∃ y f' w' x s', m w = Returns y w' ∧ Φ f' y x ∧ reachable l s' f' w') ∨ ∃ w', m w = Blocks w'.
Proof.
  intros Hreach Hm Ha%conforms_specified. destruct (reachable_rep _ _ _ _ Hreach) as [Hr _].
  pose proof (sim_implements l m a (λ _, Φ) f s w (offers_sim _ _ _ _ _ _ _ Hm Hr)) as Hi.
  unfold implements in Hi. unfold specified, answers_with in Ha.
  destruct (a s) as [x s'| |] eqn:Hs; [left|by right|done].
  destruct Hi as (y & f' & w' & Hw & Hr' & HΦ). exists y, f', w', x, s'. split_and!; [done..|].
  by eapply reachable_call.
Qed.

(** A connection, and a message taken from a queue. *)
Lemma calls_defined_witness :
  let sk := mk_sock [RdData (response_header_bytes (reply_with (QueueGet [Byte.x71]) 10) ++
    le_bytes 8 7 ++ [Byte.x41; Byte.x42])] [] [] in
  let w := idle_world [] [] sk in
  ∃ l w', emq_tcp_connect "localhost" 7851 w = Returns (Some l) w' ∧
    ((∃ y f' w2 x s', emq_queue_get (Some l) [Byte.x71] w' = Returns y w2 ∧ new_msg
        (mk_frame (w_heap w) (w_socks w) (drop 5 (w_sys w)) (tail (w_peers w))) f' y x ∧
        reachable l s' f' w2) ∨
      ∃ w2, emq_queue_get (Some l) [Byte.x71] w' = Blocks w2).
Proof.
  intros sk w.
  destruct (proj1 (wp_returns (emq_tcp_connect "localhost" 7851)
    (λ y w', ∃ l, y = Some l ∧ connected 5 w l w') w)) as (y & w' & Hw & l & -> & Hc).
  { apply wp_tcp_connect; [constructor|constructor|eauto]. }
  pose proof (reachable_connect l 5 w w' Hc) as Hreach. exists l, w'. split; [exact Hw|].
  apply (calls_defined l _ _ w' ptr (option (Z * list byte)) _ _ _ Hreach
    (offers_fetch l _ (QueueGet [Byte.x71]) _ eq_refl)).
  apply conforms_fetch. intros header rest (bs & Ht & -> & _ & _).
  vm_compute in Ht. injection Ht as <- <-. intros tag rest' Ht.
  split; [split; reflexivity|]. vm_compute in Ht. injection Ht as <- <-.
  replace (res_bodylen _) with 10 by (vm_compute; reflexivity). split; [lia|].
  intros rest''. vm_compute. discriminate.
Defined.
