(* ===== verification/Pool.v ===== *)
(** Several clients in one process: what a part of the process owns, the separation of the parts,
    and the independence of clients whose calls are interleaved.

    The library keeps no state of its own: a client owns the blocks it was allocated and the
    socket it opened, and its functions touch nothing else ([Session.rep] with its frame). Here
    this is put as a separating conjunction of the clients, messages and blocks of a process
    whose memory and system calls do not fail. *)

From S2P Require Import Prelude Types Machine Lists Network Protocol Client Session Packet Commands.
From S2P Require Import Messages Queries Listings Subscriptions Kept Connection Sample Program.

(** ** Separation

    An assertion on the blocks and the sockets that a part of the process owns. *)
Definition assn : Type := heap → gmap Z sock → Prop.

#[export] Instance assn_equiv : Equiv assn := λ P P', ∀ h k, P h k ↔ P' h k.
#[export] Instance assn_equivalence : Equivalence (≡@{assn}).
Proof.
  split; [by intros P h k|intros P P' HP h k; symmetry; apply HP|].
  intros P1 P2 P3 H1 H2 h k. etrans; [apply H1|apply H2].
Qed.

Definition emp : assn := λ h k, h = ∅ ∧ k = ∅.
Definition star (P R : assn) : assn := λ h k, ∃ h1 k1 h2 k2, P h1 k1 ∧ R h2 k2 ∧
  h1 ##ₘ h2 ∧ k1 ##ₘ k2 ∧ h = h1 ∪ h2 ∧ k = k1 ∪ k2.
Declare Scope assn_scope.
Delimit Scope assn_scope with assn.
Bind Scope assn_scope with assn.
Infix "∗" := star (at level 60, right associativity) : assn_scope.
#[global] Open Scope assn_scope.

Definition stars (Ps : list assn) : assn := foldr star emp Ps.

(** A block at a location. *)
Definition owns (p : loc) (o : block) : assn := λ h k, h = {[p := o]} ∧ k = ∅.

#[export] Instance star_proper : Proper ((≡) ==> (≡) ==> (≡)) star.
Proof.
  intros P P' HP R R' HR h k. unfold star.
  split; intros (h1 & k1 & h2 & k2 & ?%HP & ?%HR & ?); eauto 10.
Qed.

Lemma star_comm P R : P ∗ R ≡ R ∗ P.
Proof.
  assert (∀ P R h k, (P ∗ R) h k → (R ∗ P) h k) as Hc; [|by split; apply Hc].
  clear. intros P R h k (h1 & k1 & h2 & k2 & ? & ? & ? & ? & -> & ->).
  exists h2, k2, h1, k1. split_and!; try done. 1-2: by apply map_union_comm.
Qed.

Lemma star_assoc P Q R : (P ∗ Q) ∗ R ≡ P ∗ (Q ∗ R).
Proof.
  intros h k. split.
  - intros (h12 & k12 & h3 & k3 & (h1 & k1 & h2 & k2 & HP & HQ & Hh & Hk & -> & ->) & HR & Hh3 & Hk3 & -> & ->).
    apply map_disjoint_union_l in Hh3 as [? ?]. apply map_disjoint_union_l in Hk3 as [? ?].
    exists h1, k1, (h2 ∪ h3), (k2 ∪ k3). split; [done|]. split; [by exists h2, k2, h3, k3|].
    rewrite !map_disjoint_union_r, !(assoc_L (∪)). by split_and!.
  - intros (h1 & k1 & h23 & k23 & HP & (h2 & k2 & h3 & k3 & HQ & HR & Hh & Hk & -> & ->) & Hh1 & Hk1 & -> & ->).
    apply map_disjoint_union_r in Hh1 as [? ?]. apply map_disjoint_union_r in Hk1 as [? ?].
    exists (h1 ∪ h2), (k1 ∪ k2), h3, k3. split; [by exists h1, k1, h2, k2|]. split; [done|].
    rewrite !map_disjoint_union_l, !(assoc_L (∪)). by split_and!.
Qed.

Lemma star_emp P : P ∗ emp ≡ P.
Proof.
  intros h k. split.
  - intros (h1 & k1 & h2 & k2 & HP & [-> ->] & _ & _ & -> & ->). by rewrite !(right_id_L ∅ (∪)).
  - intros HP. exists h, k, ∅, ∅. rewrite !(right_id_L ∅ (∪)).
    split_and!; try done; apply map_disjoint_empty_r.
Qed.

#[export] Instance stars_proper : Proper ((≡ₚ) ==> (≡)) stars.
Proof.
  induction 1 as [|P Ps Ps' _ IH|P P' Ps|]; simpl; [done|by rewrite IH| |by etrans].
  by rewrite <-!star_assoc, (star_comm P P').
Qed.

Lemma stars_app Ps Ps' : stars (Ps ++ Ps') ≡ stars Ps ∗ stars Ps'.
Proof.
  induction Ps as [|P Ps IH]; simpl; [by rewrite star_comm, star_emp|]. by rewrite IH, star_assoc.
Qed.

(** One of several parts, and the others. *)
Lemma stars_lookup Ps i P : Ps !! i = Some P → stars Ps ≡ P ∗ stars (delete i Ps).
Proof. intros Hi. exact (stars_proper _ _ (delete_Permutation _ _ _ Hi)). Qed.

Lemma stars_insert Ps i P P' : Ps !! i = Some P → stars (<[i := P']> Ps) ≡ P' ∗ stars (delete i Ps).
Proof.
  intros Hi. rewrite (stars_lookup _ i P').
  - by rewrite delete_insert_same.
  - apply list_lookup_insert_eq. by eapply lookup_lt_Some.
Qed.

(** ** A part beside the rest of the process

    [beside P f w]: in [w], whose memory does not run out, the part [P] and the frame [f]. *)
Record beside (P : assn) (f : frame) (w : world) : Prop := mk_beside {
  beside_mallocs : w_mallocs w = [];
  beside_sys : fr_sys f = w_sys w;
  beside_peers : fr_peers f = w_peers w;
  beside_parts : ∃ h k, P h k ∧ h ##ₘ fr_heap f ∧ k ##ₘ fr_socks f ∧
    w_heap w = h ∪ fr_heap f ∧ w_socks w = k ∪ fr_socks f;
}.

#[export] Instance beside_proper : Proper ((≡) ==> eq ==> eq ==> iff) beside.
Proof.
  intros P P' HP f _ <- w _ <-.
  split; intros [? ? ? (h & k & ?%HP & ?)]; constructor; eauto.
Qed.

Lemma beside_emp f w : beside emp f w ↔ w = world_of f [].
Proof.
  split.
  - intros [Hm Hs Hp (h & k & [-> ->] & _ & _ & Hh & Hk)]. rewrite (left_id_L ∅ (∪)) in Hh. rewrite (left_id_L ∅ (∪)) in Hk.
    destruct w, f; simpl in *; by subst.
  - intros ->. constructor; [done..|]. exists ∅, ∅. rewrite !(left_id_L ∅ (∪)).
    split_and!; try done; apply map_disjoint_empty_l.
Qed.

(** Half of what stands beside [f], with the other half in the frame. *)
Lemma beside_star P R f w :
  beside (P ∗ R) f w ↔ ∃ f1, beside P f1 w ∧ beside R f (world_of f1 []).
Proof.
  split.
  - intros [Hm Hs Hp (h & k & (h1 & k1 & h2 & k2 & HP & HR & Hh & Hk & -> & ->) & Hhf & Hkf & Hw & Hwk)].
    apply map_disjoint_union_l in Hhf as [? ?]. apply map_disjoint_union_l in Hkf as [? ?].
    exists (mk_frame (h2 ∪ fr_heap f) (k2 ∪ fr_socks f) (w_sys w) (w_peers w)). split.
    + constructor; [done..|]. exists h1, k1. simpl. rewrite !map_disjoint_union_r, !(assoc_L (∪)).
      by split_and!.
    + constructor; [done..|]. by exists h2, k2.
  - intros (f1 & [Hm Hs Hp (h1 & k1 & HP & Hh1 & Hk1 & Hw & Hwk)] & [_ Hs' Hp' (h2 & k2 & HR & Hh2 & Hk2 & Hf & Hfk)]).
    simpl in *. rewrite Hf in Hh1, Hw. rewrite Hfk in Hk1, Hwk.
    apply map_disjoint_union_r in Hh1 as [? ?]. apply map_disjoint_union_r in Hk1 as [? ?].
    constructor; [done|congruence..|]. exists (h1 ∪ h2), (k1 ∪ k2).
    split; [by exists h1, k1, h2, k2|]. rewrite !map_disjoint_union_l, Hw, Hwk, !(assoc_L (∪)).
    by split_and!.
Qed.

(** The frame of a part holds the frame of the whole. *)
Lemma beside_frame P f w : beside P f w → fr_heap f ⊆ w_heap w.
Proof. intros [_ _ _ (h & k & _ & Hh & _ & -> & _)]. by apply map_union_subseteq_r. Qed.

(** A change of the peers to come. *)
Definition set_fr_peers ps f := mk_frame (fr_heap f) (fr_socks f) (fr_sys f) ps.

Lemma beside_set_peers P f w ps : beside P f w → beside P (set_fr_peers ps f) (set_peers ps w).
Proof. intros [? ? ? ?]. by constructor. Qed.

(** A block. *)
Lemma beside_owns p o R f w :
  beside (owns p o ∗ R) f w ↔ w_heap w !! p = Some o ∧ beside R f (set_heap (delete p (w_heap w)) w).
Proof.
  rewrite beside_star. split.
  - intros (f1 & [Hm Hs Hp (h & k & [-> ->] & Hh & _ & Hw & Hk)] & HR).
    rewrite (left_id_L ∅ (∪)) in Hk. apply map_disjoint_singleton_l in Hh.
    rewrite <-insert_union_singleton_l in Hw. split; [by rewrite Hw, lookup_insert_eq|].
    rewrite Hw, delete_insert_id by done. destruct w, f1; unfold set_heap, world_of in *.
    simpl in *. by subst.
  - intros [Hp HR]. exists (mk_frame (delete p (w_heap w)) (w_socks w) (w_sys w) (w_peers w)).
    pose proof (beside_mallocs _ _ _ HR) as Hm. simpl in Hm. split.
    + constructor; [done..|]. exists {[p := o]}, ∅. simpl. split; [done|].
      rewrite map_disjoint_singleton_l, lookup_delete_eq, (left_id_L ∅ (∪)).
      rewrite <-insert_union_singleton_l, insert_delete_id by done.
      split_and!; try done. apply map_disjoint_empty_l.
    + destruct w; unfold set_heap, world_of in *. simpl in *. by subst.
Qed.

(** ** Clients *)

(** A connected client that represents [s]. *)
Definition client (l : loc) (s : session) : assn := λ h k,
  ss_mallocs s = [] ∧ rep l s (mk_frame ∅ ∅ [] []) (mk_world h [] k [] []).

(** The representation depends on the blocks and the socket of the client alone. *)
Lemma rep_transfer l s f w g f' w' :
  rep_at l s f w g → (∀ k, k ∈ footprint l g → w_heap w' !! k = w_heap w !! k) →
  freed (footprint l g) (w_heap w') (fr_heap f') →
  w_socks w' !! client_fd (lo_client g) = Some (lo_sock g) →
  fr_socks f' = delete (client_fd (lo_client g)) (w_socks w') →
  fr_sys f' = w_sys w' → fr_peers f' = w_peers w' → w_mallocs w' = w_mallocs w →
  rep_at l s f' w' g.
Proof.
  intros [] Hh Hf Hsock Hsocks Hsys Hpeers Hms. unfold footprint in Hh.
  constructor; try done; try congruence; rewrite ?Hh by set_solver; try done.
  - eapply dlist_frame; [|done]. intros k Hk. apply Hh. set_solver.
  - eapply Forall2_points_to_frame; [|done]. intros k Hk. apply Hh. set_solver.
  - eapply dlist_frame; [|done]. intros k Hk. apply Hh. set_solver.
  - eapply Forall2_points_to_frame; [|done]. intros k Hk. apply Hh. set_solver.
Qed.

Lemma rep_beside_client l s f w :
  ss_mallocs s = [] → rep l s f w → beside (client l s) f w.
Proof.
  intros Hs [g Hr]. pose proof Hr as []. set (ls := footprint l g).
  set (h := filter (λ p, p.1 ∈ ls) (w_heap w)).
  assert (∀ k, h !! k = if decide (k ∈ ls) then w_heap w !! k else None) as Hh.
  { intros k. unfold h. case_decide as Hk.
    - destruct (w_heap w !! k) as [o|] eqn:Ho; [by apply map_lookup_filter_Some|].
      apply map_lookup_filter_None. left. exact Ho.
    - apply map_lookup_filter_None. right. by intros o _ Hn. }
  constructor; [congruence|done..|]. exists h, {[client_fd (lo_client g) := lo_sock g]}. split_and!.
  - split; [done|]. exists g. eapply rep_transfer; [exact Hr|..]; simpl; try done.
    + intros k Hk. by rewrite Hh, decide_True.
    + intros k. rewrite lookup_empty, Hh. by repeat case_decide.
    + apply lookup_insert_eq.
    + by rewrite delete_singleton_eq.
    + congruence.
  - apply map_disjoint_spec. intros k o o' Ho Ho'. rewrite Hh in Ho. rewrite rep_frame in Ho'.
    by repeat case_decide.
  - apply map_disjoint_singleton_l. rewrite rep_socks. apply lookup_delete_eq.
  - apply map_eq. intros k. rewrite lookup_union, Hh, rep_frame.
    repeat case_decide; by destruct (w_heap w !! k).
  - rewrite rep_socks, <-insert_union_singleton_l, insert_delete_id by done. done.
Qed.

Lemma beside_client_rep l s f w :
  beside (client l s) f w → rep l s f w ∧ ss_mallocs s = [].
Proof.
  intros [Hm Hsys Hp (h & k & [Hs [g Hr]] & Hh & Hk & Hw & Hwk)]. split; [|done]. exists g.
  pose proof Hr as []. simpl in *.
  assert (k = {[client_fd (lo_client g) := lo_sock g]}) as ->.
  { rewrite <-(insert_delete_id _ _ _ rep_sock), <-rep_socks. done. }
  apply map_disjoint_singleton_l in Hk. rewrite <-insert_union_singleton_l in Hwk.
  eapply rep_transfer; [exact Hr|..]; simpl; try done.
  - intros j Hj. destruct (footprint_allocated _ _ _ _ _ _ Hr Hj) as [o Ho]. simpl in Ho.
    rewrite Hw, Ho. by apply lookup_union_Some_l.
  - intros j. rewrite Hw. specialize (rep_frame j). rewrite lookup_empty in rep_frame.
    case_decide as Hj; [|by rewrite lookup_union, <-rep_frame; destruct (fr_heap f !! j)].
    destruct (footprint_allocated _ _ _ _ _ _ Hr Hj) as [o Ho].
    by eapply map_disjoint_Some_l.
  - rewrite Hwk. apply lookup_insert_eq.
  - by rewrite Hwk, delete_insert_id.
Qed.

Lemma rep_client l s f w : rep l s f w ∧ ss_mallocs s = [] ↔ beside (client l s) f w.
Proof. split; [intros [? ?]; by apply rep_beside_client|apply beside_client_rep]. Qed.

(** A client among other parts. *)
Lemma beside_client l s R f w :
  beside (client l s ∗ R) f w ↔
    ∃ f1, rep l s f1 w ∧ ss_mallocs s = [] ∧ beside R f (world_of f1 []).
Proof.
  rewrite beside_star. apply exist_proper. intros f1. rewrite <-rep_client. tauto.
Qed.

(** ** Interleaved calls

    The operations that return a status, a flag or a number: the commands, the queries, and
    sending the message [m] at [p] with the bytes [bs]. *)
Inductive operation :=
  | Plain (call : api_call)
  | Sending (call : api_call) (p : loc) (m : emq_msg) (bs : list byte).

Definition function_of (op : operation) : option (ptr → M Z) :=
  match op with
  | Plain call =>
      match query_of call with Some (m, _) => Some m | None => command_of call end
  | Sending call p m bs =>
      (λ send client, send client (Some p)) <$> push_call call (Z.of_nat (length bs))
  end.

Definition op_code (op : operation) (client : ptr) : M Z :=
  match function_of op with Some m => m client | None => undefined BadPointer end.

Definition op_spec (op : operation) : Spec Z :=
  match op with
  | Plain call => match query_of call with Some (_, r) => s_query call r | None => s_command call end
  | Sending call p m bs => s_push call (push_payload call m bs) (Z.of_nat (length bs))
  end.

(** The messages are in the blocks [shared], which all clients may read. *)
Definition possible (shared : heap) (op : operation) : Prop :=
  is_Some (function_of op) ∧
  match op with
  | Plain _ => True
  | Sending _ p m bs => msg_at shared p m bs ∧ 180 + Z.of_nat (length bs) ≤ MAX_RW_COUNT
  end.

Lemma msg_at_weaken h h' p m bs : msg_at h p m bs → h ⊆ h' → msg_at h' p m bs.
Proof.
  intros (Hp & Hs & d & rest & Hd & Hbs) Hh. split; [by eapply lookup_weaken|]. split; [done|].
  exists d, rest. split; [done|]. by eapply lookup_weaken.
Qed.

Lemma op_sim shared op l f s w :
  possible shared op → shared ⊆ fr_heap f → rep l s f w →
  sim l s (op_code op (Some l)) (op_spec op) (same f) w.
Proof.
  intros [[m Hm] Hop] Hf Hr. unfold op_code. rewrite Hm.
  destruct op as [call|call p msg bs]; simpl in Hm |- *.
  - destruct (query_of call) as [[m' r]|] eqn:Hq.
    + injection Hm as <-. by eapply (refines_query_of l call).
    + by eapply (refines_command_of l call).
  - apply fmap_Some in Hm as (send & Hsend & ->). destruct Hop as [Hmsg Hlen].
    eapply sim_push_call; [exact Hsend|done|by eapply msg_at_weaken|done].
Qed.

Lemma op_plentiful op : respects plentiful (op_spec op).
Proof. destruct op; simpl; keep. Qed.

(** A schedule: the numbers of the clients and the operations they call, in order. *)
Fixpoint interleave (ls : list loc) (schedule : list (nat * operation)) : M (list (nat * Z)) :=
  match schedule with
  | [] => mret []
  | (i, op) :: schedule =>
      x ← op_code op (ls !! i);
      xs ← interleave ls schedule;
      mret ((i, x) :: xs)
  end.

(** What one client takes part in. *)
Definition of_client {B} (i : nat) (xs : list (nat * B)) : list B := (filter (λ x, x.1 = i) xs).*2.

(** The calls of one client alone. *)
Fixpoint s_alone (ops : list operation) : Spec (list Z) :=
  match ops with
  | [] => mret []
  | op :: ops => x ← op_spec op; xs ← s_alone ops; mret (x :: xs)
  end.

Lemma of_client_cons {B} i j (x : B) xs :
  of_client i ((j, x) :: xs) = if decide (j = i) then x :: of_client i xs else of_client i xs.
Proof. unfold of_client. rewrite filter_cons. simpl. by case_decide. Qed.

Lemma s_alone_cons op ops s xs s' :
  s_alone (op :: ops) s = Answer xs s' →
  ∃ x s1 xs1, op_spec op s = Answer x s1 ∧ s_alone ops s1 = Answer xs1 s' ∧ xs = x :: xs1.
Proof.
  simpl. unfold mbind, Spec_bind. destruct (op_spec op s) as [x s1| |]; [|done..].
  destruct (s_alone ops s1) as [xs1 s2| |] eqn:H1; [|done..]. intros [= <- <-]. eauto 10.
Qed.

(** The clients [ls] represent the sessions [ss]. *)
Definition clients_at (ls : list loc) (ss : list session) : assn := stars (zip_with client ls ss).

(** One client calls an operation. *)
Lemma clients_call shared ls ss i l s op x s' f w :
  ls !! i = Some l → ss !! i = Some s → possible shared op → shared ⊆ fr_heap f → beside (clients_at ls ss) f w →
  op_spec op s = Answer x s' →
  ∃ w', op_code op (Some l) w = Returns x w' ∧ beside (clients_at ls (<[i := s']> ss)) f w'.
Proof.
  intros Hl Hs Hop Hshared Hw Ha. unfold clients_at in *.
  assert (zip_with client ls ss !! i = Some (client l s)) as Hi.
  { apply lookup_zip_with_Some. eauto. }
  rewrite (stars_lookup _ _ _ Hi) in Hw.
  apply beside_client in Hw as (f1 & Hr & Hm & Hrest).
  assert (shared ⊆ fr_heap f1) as Hf1 by (etrans; [exact Hshared|exact (beside_frame _ _ _ Hrest)]).
  pose proof (sim_implements l _ _ same f1 s w (op_sim shared op l f1 s w Hop Hf1 Hr)) as Hi'.
  unfold implements in Hi'. rewrite Ha in Hi'. destruct Hi' as (y & f' & w' & Hw' & Hr' & -> & ->).
  exists w'. split; [done|].
  replace (zip_with client ls (<[i := s']> ss))
    with (<[i := client l s']> (zip_with client ls ss)).
  - rewrite (stars_insert _ _ _ _ Hi). apply beside_client. exists f1. split_and!; try done.
    exact (op_plentiful op _ _ _ Ha Hm).
  - by rewrite (insert_zip_with client ls ss i l s'), (list_insert_id ls).
Qed.

(** C15: clients of one process whose calls are interleaved in any order do not
    disturb each other: every call returns what it would return if its client were the only one,
    every client ends in the session it would end in alone, and the rest of the process is
    unchanged, the messages that several of them send included. *)
Theorem clients_independent shared ls ss schedule f w :
  length ls = length ss → shared ⊆ fr_heap f → beside (clients_at ls ss) f w →
  Forall (λ c, (c.1 < length ls)%nat ∧ possible shared c.2) schedule →
  (∀ i s, ss !! i = Some s → ∃ xs s', s_alone (of_client i schedule) s = Answer xs s') →
  ∃ xs ss' w', interleave ls schedule w = Returns xs w' ∧ beside (clients_at ls ss') f w' ∧
    ∀ i s, ss !! i = Some s → ∃ s', ss' !! i = Some s' ∧
      s_alone (of_client i schedule) s = Answer (of_client i xs) s'.
Proof.
  intros Hlen Hshared Hw Hall. revert ss Hlen w Hw.
  induction Hall as [|[i op] schedule [Hi Hop] Hall IH]; intros ss Hlen w Hw Halone.
  { exists [], ss, w. split_and!; [done..|]. intros i s Hs. by exists s. }
  simpl in Hi, Hop. destruct (lookup_lt_is_Some_2 ls i) as [l Hl]; [done|].
  destruct (lookup_lt_is_Some_2 ss i) as [s Hs]; [congruence|].
  destruct (Halone i s Hs) as (xs0 & s0 & H0). rewrite of_client_cons, decide_True in H0 by done.
  apply s_alone_cons in H0 as (x & s1 & xs1 & Ha & H1 & ->).
  destruct (clients_call shared ls ss i l s op x s1 f w Hl Hs Hop Hshared Hw Ha) as (w1 & Hw1 & Hb1).
  destruct (IH (<[i := s1]> ss)) with (w := w1) as (xs & ss' & w' & Hrun & Hb & Hres);
    [by rewrite length_insert|done| |].
  - intros j sj Hj. destruct (decide (i = j)) as [<-|Hne].
    + rewrite list_lookup_insert_eq in Hj by congruence. injection Hj as <-. eauto.
    + rewrite list_lookup_insert_ne in Hj by done. destruct (Halone j sj Hj) as (ys & s' & Hj').
      rewrite of_client_cons, decide_False in Hj' by done. eauto.
  - exists ((i, x) :: xs), ss', w'. split_and!; [|done|].
    { simpl. rewrite Hl. unfold mbind, M_bind. by rewrite Hw1, Hrun. }
    intros j sj Hj. rewrite !of_client_cons. destruct (decide (i = j)) as [<-|Hne].
    + destruct (Hres i s1) as (s' & Hs' & Hr'); [apply list_lookup_insert_eq; congruence|].
      exists s'. split; [done|]. simpl. unfold mbind, Spec_bind.
      replace sj with s by congruence. by rewrite Ha, Hr'.
    + apply Hres. by rewrite list_lookup_insert_ne.
Qed.

(** ** Two clients *)

(** The clients at 1 and 5 with the peers [sk] and [sk'] at the descriptors 3 and 4. *)
Definition pair_heap (h : heap) : heap :=
  <[5%positive := inject (set_client_fd 4 (initial_client 6%positive 7%positive 8%positive))]>
    (<[6%positive := inject (uninit EMQ_DEFAULT_REQUEST_SIZE)]>
      (<[7%positive := inject (empty_list emq_queue_subscription_list_free_handler)]>
        (<[8%positive := inject (empty_list emq_channel_subscription_list_free_handler)]>
          (sample_heap h)))).
Definition pair_world (h : heap) (sk sk' : sock) : world :=
  mk_world (pair_heap h) [] (<[4 := sk']> {[3 := sk]}) [] [].

Lemma beside_pair h sk sk' :
  Forall (λ k, h !! k = None) [1; 2; 3; 4]%positive →
  Forall (λ k, h !! k = None) [5; 6; 7; 8]%positive →
  beside (clients_at [5; 1]%positive [new_session sk' []; new_session sk []])
    (mk_frame h ∅ [] []) (pair_world h sk sk').
Proof.
  intros Hlow Hhigh. unfold clients_at. simpl. apply beside_client.
  exists (mk_frame (sample_heap h) {[3 := sk]} [] []). split; [|split; [done|]].
  - refine (rep_new (mk_world (sample_heap h) [] {[3 := sk]} [] []) 5%positive 6%positive 7%positive
      8%positive 4 sk' _ _ _ (pair_world h sk sk') (uninit EMQ_DEFAULT_REQUEST_SIZE) _ _ _); try done.
    + apply (bool_decide_unpack _). by vm_compute.
    + repeat (apply Forall_cons in Hhigh as [? Hhigh]). repeat constructor; simpl; unfold sample_heap;
        by rewrite !lookup_insert_ne.
  - apply beside_client. exists (sample_frame h). split; [|split; [done|]].
    + by apply sample_sock_rep.
    + by apply beside_emp.
Qed.

(** The message ["A"] at 9, which both clients send; one is answered, the other, between its
    calls, fails to read. *)
Definition shared_message : heap :=
  <[9%positive := inject (mk_msg (Some 10%positive) 1 0 0 (Some EMQ_ZEROCOPY_ON))]>
    {[10%positive := inject (Some <$> [Byte.x41] : buffer)]}.

Lemma clients_independent_witness :
  let accept call := response_header_bytes (success_reply call) in
  let name := [Byte.x71] in
  let send := Sending (QueuePush name 5) 9%positive
    (mk_msg (Some 10%positive) 1 0 0 (Some EMQ_ZEROCOPY_ON)) [Byte.x41] in
  let schedule := [(1%nat, Plain Ping); (0%nat, send); (1%nat, send)] in
  let sk := mk_sock [RdData (accept Ping); RdData (accept (QueuePush name 5))] [] [] in
  let sk' := mk_sock [RdErr] [] [] in
  ∃ xs ss' w', interleave [5; 1]%positive schedule (pair_world shared_message sk sk') = Returns xs w' ∧
    beside (clients_at [5; 1]%positive ss') (mk_frame shared_message ∅ [] []) w' ∧
    ∀ i s, [new_session sk' []; new_session sk []] !! i = Some s → ∃ s', ss' !! i = Some s' ∧
      s_alone (of_client i schedule) s = Answer (of_client i xs) s'.
Proof.
  intros accept name send schedule sk sk'.
  apply (clients_independent shared_message [5; 1]%positive [new_session sk' []; new_session sk []]).
  - reflexivity.
  - done.
  - by apply beside_pair; repeat constructor.
  - repeat constructor; simpl; try lia; try (by eexists); try (by vm_compute).
    all: by exists 10%positive, [].
  - intros [|[|i]] s [= <-]; eexists _, _; vm_compute; reflexivity.
Defined.
