(* ===== verification/Simple.v ===== *)
(** The program [src/src/examples/simple.c]: a tour of the interface on one connection.

    [test_message] is the location of the literal ["test message"]. *)

From S2P Require Import Prelude Types Machine Lists Network Protocol Client Session Packet Commands.
From S2P Require Import Messages Queries Listings Subscriptions Connection Sample Program.

(** ** Output *)

Definition ESC : string := String (Ascii.ascii_of_nat 27) EmptyString.
Definition QUOTE : string := String (Ascii.ascii_of_nat 34) EmptyString.
Definition LF : string := String (Ascii.ascii_of_nat 10) EmptyString.

Definition GREEN (text : string) : string := ESC +:+ "[0;32m" +:+ text +:+ ESC +:+ "[0;0m".
Definition RED (text : string) : string := ESC +:+ "[0;31m" +:+ text +:+ ESC +:+ "[0;0m".
Definition YELLOW (text : string) : string := ESC +:+ "[0;33m" +:+ text +:+ ESC +:+ "[0;0m".
Definition MAGENTA (text : string) : string := ESC +:+ "[0;35m" +:+ text +:+ ESC +:+ "[0;0m".

Definition str (s : string) : cstring := String.list_byte_of_string s.
Definition quoted (s : string) : string := QUOTE +:+ s +:+ QUOTE.
Definition ln (s : string) : string := s +:+ LF.
Definition AText (s : string) : argument := AStr (c_bytes (str s)).

Definition CHECK_STATUS (text : string) (status : Z) : Prog unit :=
  if decide (status = EMQ_STATUS_OK)
  then printf (GREEN "[Success]" +:+ ln " %s") [AText text]
  else printf (RED "[Error]" +:+ ln " %s") [AText text].

Definition s_CHECK_STATUS (text : string) (status : Z) : SProg unit :=
  if decide (status = EMQ_STATUS_OK)
  then s_printf (GREEN "[Success]" +:+ ln " %s") [AText text]
  else s_printf (RED "[Error]" +:+ ln " %s") [AText text].

Definition ADDR : string := "localhost".
Definition separator : line := (ln "-----------------------", []).

(** A [uint32_t] printed with [%d]. *)
Definition AInt32 (z : Z) : argument := AInt (i32 z).

(** The field of [n] bytes at the offset [i] of a structure. *)
Definition field (i n : nat) (bs : list byte) : list byte := take n (drop i bs).

Definition status_lines : lines_of (list byte) := λ stat,
  [ (YELLOW (ln "[Status]"), []);
    (ln "Version", []);
    (ln " Major: %d", [AInt (le_value (field 0 1 stat))]);
    (ln " Minor: %d", [AInt (le_value (field 1 1 stat))]);
    (ln " Patch: %d", [AInt (le_value (field 2 1 stat))]);
    (ln "Uptime: %d", [AInt32 (le_value (field 3 4 stat))]);
    (ln "CPU sys: %f", [AFloat (field 7 4 stat)]);
    (ln "CPU user: %f", [AFloat (field 11 4 stat)]);
    (ln "Memory: %d", [AInt32 (le_value (field 15 4 stat))]);
    (ln "Memory RSS: %d", [AInt32 (le_value (field 19 4 stat))]);
    (ln "Memory fragmentation: %f", [AFloat (field 23 4 stat)]);
    (ln "Clients: %d", [AInt32 (le_value (field 27 4 stat))]);
    (ln "Users: %d", [AInt32 (le_value (field 31 4 stat))]);
    (ln "Queues: %d", [AInt32 (le_value (field 35 4 stat))]);
    (ln "Routes: %d", [AInt32 (le_value (field 39 4 stat))]);
    (ln "Channels: %d", [AInt32 (le_value (field 43 4 stat))]) ].

Definition show_user : lines_of emq_user := λ user,
  [ (ln "Username: %s", [AStr (user_name user)]);
    (ln "Password: %s", [AStr (user_password user)]);
    (ln "Permissions: %lu", [AInt (user_perm user)]);
    separator ].

Definition show_queue : lines_of emq_queue := λ queue,
  [ (ln "Name: %s", [AStr (queue_name queue)]);
    (ln "Max msg: %u", [AInt (queue_max_msg queue)]);
    (ln "Max msg size: %d", [AInt32 (queue_max_msg_size queue)]);
    (ln "Flags: %d", [AInt32 (queue_flags queue)]);
    (ln "Size: %d", [AInt32 (queue_size queue)]);
    (ln "Declared clients: %d", [AInt32 (queue_declared_clients queue)]);
    (ln "Subscribed clients: %d", [AInt32 (queue_subscribed_clients queue)]);
    separator ].

Definition show_route : lines_of emq_route := λ route,
  [ (ln "Name: %s", [AStr (route_name route)]);
    (ln "Flags: %d", [AInt32 (route_flags route)]);
    (ln "Keys: %d", [AInt32 (route_keys route)]);
    separator ].

Definition show_route_key : lines_of emq_route_key := λ route_key,
  [ (ln "Key: %s", [AStr (route_key_key route_key)]);
    (ln "Queue: %s", [AStr (route_key_queue route_key)]);
    separator ].

Definition show_channel : lines_of emq_channel := λ channel,
  [ (ln "Name: %s", [AStr (channel_name channel)]);
    (ln "Flags: %d", [AInt32 (channel_flags channel)]);
    (ln "Topics: %d", [AInt32 (channel_topics channel)]);
    (ln "Patterns: %d", [AInt32 (channel_patterns channel)]);
    separator ].

(** [printf(YELLOW("[Success]") " <what>: %d\n", z)] *)
Definition success_line (what : string) (z : Z) : line :=
  (YELLOW "[Success]" +:+ " " +:+ what +:+ ln ": %d", [AInt z]).
Definition say (x : line) : Prog unit := printf x.1 x.2.
Definition s_say (x : line) : SProg unit := s_printf x.1 x.2.

Definition exists_line (kind name : string) (status : Z) : line :=
  success_line (kind +:+ " " +:+ quoted name +:+ " exist") status.
Definition size_line (name : string) (size : Z) : line :=
  success_line ("Queue " +:+ quoted name +:+ " size") size.

(** An operation whose status is reported. *)
Definition checked (text : string) (m : M Z) : Prog unit :=
  status ← lift m;
  CHECK_STATUS text status.

(** An operation whose answer is reported. *)
Definition asked (m : M Z) (report : Z → line) : Prog Z :=
  answer ← lift m;
  say (report answer);;
  mret answer.

(** ** The program *)

Section program.
Context (test_message : loc).

Definition basic (client : ptr) : Prog unit :=
  checked "Auth" (emq_auth client (str "eagle") (str "eagle"));;
  checked "Ping" (emq_ping client);;
  '(status, stat) ← lift (emq_stat client);
  CHECK_STATUS "Stat" status;;
  match stat with
  | Some stat => printf_all (status_lines stat)
  | None => lift (undefined Uninitialised)
  end.

Definition user_management (client : ptr) : Prog unit :=
  checked "User create" (emq_user_create client (str "first.user") (str "password") EMQ_QUEUE_PERM);;
  checked "User create" (emq_user_create client (str "user_2") (str "password") EMQ_QUEUE_PERM);;
  (users ← lift (emq_user_list client);
   print_list emq_user client users (YELLOW (ln "[User list]")) show_user
     (RED "[Error]" +:+ ln " emq_user_list(%s)"));;
  checked "User rename" (emq_user_rename client (str "user_2") (str "user"));;
  checked "User set perm" (emq_user_set_perm client (str "user") (Z.lor EMQ_QUEUE_PERM EMQ_ADMIN_PERM));;
  checked "User delete" (emq_user_delete client (str "first.user"));;
  checked "User delete" (emq_user_delete client (str "user")).

(** The body of the loop that gets the messages of [".queue_test"]. *)
Definition get_message (client : ptr) : Prog unit :=
  queue_msg ← lift (emq_queue_get client (str ".queue_test"));
  match queue_msg with
  | Some _ =>
      data ← lift (emq_msg_data queue_msg);
      memory ← lift (string_at data);
      size ← lift (emq_msg_size queue_msg);
      printf (YELLOW "[Success]" +:+ ln " Get message: %s(%zu)") [AStr memory; AInt size];;
      lift (emq_msg_release queue_msg)
  | None => mret tt
  end.

(** The body of the loop that pops and confirms the messages of ["queue-2"]. *)
Definition pop_message (client : ptr) : Prog unit :=
  queue_msg ← lift (emq_queue_pop client (str "queue-2") 1000);
  match queue_msg with
  | Some _ =>
      data ← lift (emq_msg_data queue_msg);
      memory ← lift (string_at data);
      size ← lift (emq_msg_size queue_msg);
      printf (YELLOW "[Success]" +:+ ln " Pop message: %s(%zu)") [AStr memory; AInt size];;
      lift (emq_msg_release queue_msg);;
      tag ← lift (emq_msg_tag queue_msg);
      checked "Queue confirm" (emq_queue_confirm client (str "queue-2") tag)
  | None => mret tt
  end.

(** The body of the loop that pushes the test message to both queues. *)
Definition push_messages (client msg : ptr) : Prog unit :=
  checked "Queue push" (emq_queue_push client (str ".queue_test") msg);;
  checked "Queue push" (emq_queue_push client (str "queue-2") msg);;
  say separator.

Definition queue_management (client : ptr) : Prog unit :=
  checked "Queue create" (emq_queue_create client (str ".queue_1") EMQ_MAX_MSG EMQ_MAX_MSG_SIZE EMQ_QUEUE_NONE);;
  checked "Queue create" (emq_queue_create client (str "queue-2") (EMQ_MAX_MSG / 2) (EMQ_MAX_MSG_SIZE / 100)
    EMQ_QUEUE_NONE);;
  checked "Queue declare" (emq_queue_declare client (str ".queue_1"));;
  checked "Queue declare" (emq_queue_declare client (str "queue-2"));;
  asked (emq_queue_exist client (str ".queue_1")) (exists_line "Queue" ".queue_1");;
  asked (emq_queue_exist client (str "queue-2")) (exists_line "Queue" "queue-2");;
  asked (emq_queue_exist client (str "not-exist-queue")) (exists_line "Queue" "not-exist-queue");;
  (queues ← lift (emq_queue_list client);
   print_list emq_queue client queues (YELLOW (ln "[Queue list]")) show_queue
     (RED "[Error]" +:+ ln " emq_queue_list(%s)"));;
  checked "Queue rename" (emq_queue_rename client (str ".queue_1") (str ".queue_test"));;
  msg ← lift (emq_msg_create (Some test_message) (strlenz (str "test message")) EMQ_ZEROCOPY_ON);
  match msg with
  | None =>
      printf (RED "[Error]" +:+ ln " emq_msg_create") [];;
      exit 1
  | Some _ =>
      for_loop 5 (push_messages client msg);;
      queue_size ← asked (emq_queue_size client (str ".queue_test")) (size_line ".queue_test");
      for_loop queue_size (get_message client);;
      queue_size ← asked (emq_queue_size client (str ".queue_test")) (size_line ".queue_test");
      queue_size ← asked (emq_queue_size client (str "queue-2")) (size_line "queue-2");
      for_loop queue_size (pop_message client);;
      queue_size ← asked (emq_queue_size client (str "queue-2")) (size_line "queue-2");
      checked "Queue purge" (emq_queue_purge client (str ".queue_test"));;
      queue_size ← asked (emq_queue_size client (str ".queue_test")) (size_line ".queue_test");
      checked "Queue delete" (emq_queue_delete client (str ".queue_test"));;
      checked "Queue delete" (emq_queue_delete client (str "queue-2"));;
      lift (emq_msg_release msg);;
      mret tt
  end.

(** The body of the loop that pushes the test message through both keys. *)
Definition push_route (client msg : ptr) : Prog unit :=
  checked "Route push" (emq_route_push client (str ".route_test") (str "key1") msg);;
  checked "Route push" (emq_route_push client (str ".route_test") (str "key2") msg);;
  say separator.

Definition route_management (client : ptr) : Prog unit :=
  checked "Route create" (emq_route_create client (str ".route_1") EMQ_ROUTE_NONE);;
  checked "Queue create" (emq_queue_create client (str ".queue_1") EMQ_MAX_MSG EMQ_MAX_MSG_SIZE EMQ_QUEUE_NONE);;
  checked "Queue create" (emq_queue_create client (str ".queue_2") EMQ_MAX_MSG EMQ_MAX_MSG_SIZE EMQ_QUEUE_NONE);;
  asked (emq_route_exist client (str ".route_1")) (exists_line "Route" ".route_1");;
  asked (emq_route_exist client (str "not-exist-route")) (exists_line "Route" "not-exist-route");;
  (routes ← lift (emq_route_list client);
   print_list emq_route client routes (YELLOW (ln "[Route list]")) show_route
     (RED "[Error]" +:+ ln " emq_queue_list(%s)"));;
  checked "Route bind" (emq_route_bind client (str ".route_1") (str ".queue_1") (str "key1"));;
  checked "Route bind" (emq_route_bind client (str ".route_1") (str ".queue_2") (str "key1"));;
  checked "Route bind" (emq_route_bind client (str ".route_1") (str ".queue_2") (str "key2"));;
  (route_keys ← lift (emq_route_keys client (str ".route_1"));
   print_list emq_route_key client route_keys (YELLOW (ln "[Route keys]")) show_route_key
     (RED "[Error]" +:+ ln " emq_queue_list(%s)"));;
  checked "Route rename" (emq_route_rename client (str ".route_1") (str ".route_test"));;
  msg ← lift (emq_msg_create (Some test_message) (strlenz (str "test message")) EMQ_ZEROCOPY_ON);
  match msg with
  | None =>
      printf (RED "[Error]" +:+ ln " emq_msg_create") [];;
      exit 1
  | Some _ =>
      for_loop 5 (push_route client msg);;
      lift (emq_msg_release msg);;
      queue_size ← asked (emq_queue_size client (str ".queue_1")) (size_line ".queue_1");
      queue_size ← asked (emq_queue_size client (str ".queue_2")) (size_line ".queue_2");
      checked "Route unbind" (emq_route_unbind client (str ".route_test") (str ".queue_1") (str "key1"));;
      checked "Route unbind" (emq_route_unbind client (str ".route_test") (str ".queue_2") (str "key1"));;
      checked "Route unbind" (emq_route_unbind client (str ".route_test") (str ".queue_2") (str "key2"));;
      checked "Route delete" (emq_route_delete client (str ".route_test"));;
      checked "Queue delete" (emq_queue_delete client (str ".queue_1"));;
      checked "Queue delete" (emq_queue_delete client (str ".queue_2"))
  end.

Definition channel_management (client : ptr) : Prog unit :=
  checked "Channel create" (emq_channel_create client (str ".channel_1") EMQ_CHANNEL_NONE);;
  checked "Channel create" (emq_channel_create client (str ".channel_2") EMQ_CHANNEL_NONE);;
  asked (emq_channel_exist client (str ".channel_1")) (exists_line "Channel" ".channel_1");;
  asked (emq_channel_exist client (str "not-exist-channel")) (exists_line "Channel" "not-exist-channel");;
  (channels ← lift (emq_channel_list client);
   print_list emq_channel client channels (YELLOW (ln "[Channel list]")) show_channel
     (RED "[Error]" +:+ ln " emq_channel_list(%s)"));;
  checked "Channel delete" (emq_channel_delete client (str ".channel_1"));;
  checked "Channel delete" (emq_channel_delete client (str ".channel_2")).

(** The first lines that [main] prints. *)
Definition banner : list line :=
  [ (MAGENTA (ln "This is a simple example of using libemq"), []);
    (MAGENTA (ln "libemq version: %d.%d"), [AInt EMQ_VERSION_MAJOR; AInt EMQ_VERSION_MINOR]) ].
Definition connected_line : line :=
  (YELLOW "[Success]" +:+ ln " Connected to %s:%d", [AText ADDR; AInt EMQ_DEFAULT_PORT]).
Definition unconnected_line : line :=
  (RED "[Error]" +:+ ln " Error connect to %s:%d", [AText ADDR; AInt EMQ_DEFAULT_PORT]).

(** What [main] does with a connection, before it disconnects. *)
Definition tour (client : ptr) : Prog unit :=
  say connected_line;;
  basic client;;
  user_management client;;
  queue_management client;;
  route_management client;;
  channel_management client;;
  checked "Flush all data" (emq_flush client
    (Z.lor (Z.lor (Z.lor EMQ_FLUSH_USER EMQ_FLUSH_QUEUE) EMQ_FLUSH_ROUTE) EMQ_FLUSH_CHANNEL)).

Definition main : Prog Z :=
  client ← lift (emq_tcp_connect ADDR EMQ_DEFAULT_PORT);
  printf_all banner;;
  match client with
  | Some _ =>
      tour client;;
      lift (emq_disconnect client);;
      mret 0
  | None =>
      say unconnected_line;;
      mret 0
  end.
End program.

(** ** Specification

    The same conversation by values: nothing is promised once a status is printed that was never
    received, a string is printed that has no terminator, or a popped message is used after its
    release. *)

Definition test_bytes : list byte := c_bytes (str "test message").

(** A command whose status is reported. *)
Definition s_checked (text : string) (call : api_call) : SProg unit :=
  status ← s_lift (s_command call);
  s_CHECK_STATUS text status.

(** A query whose answer is reported. *)
Definition s_asked (call : api_call) (r : Z) (report : Z → line) : SProg Z :=
  answer ← s_lift (s_query call r);
  s_say (report answer);;
  mret answer.

Definition s_basic : SProg unit :=
  s_checked "Auth" (Auth (str "eagle") (str "eagle"));;
  s_checked "Ping" Ping;;
  '(status, stat) ← s_lift s_stat;
  s_CHECK_STATUS "Stat" status;;
  match stat with
  | Some stat => s_printf_all (status_lines stat)
  | None => s_lift s_unspecified
  end.

Definition s_user_management : SProg unit :=
  s_checked "User create" (UserCreate (str "first.user") (str "password") EMQ_QUEUE_PERM);;
  s_checked "User create" (UserCreate (str "user_2") (str "password") EMQ_QUEUE_PERM);;
  (users ← s_leaky (s_listing emq_user UserList);
   s_print_list emq_user users (YELLOW (ln "[User list]")) show_user
     (RED "[Error]" +:+ ln " emq_user_list(%s)"));;
  s_checked "User rename" (UserRename (str "user_2") (str "user"));;
  s_checked "User set perm" (UserSetPerm (str "user") (Z.lor EMQ_QUEUE_PERM EMQ_ADMIN_PERM));;
  s_checked "User delete" (UserDelete (str "first.user"));;
  s_checked "User delete" (UserDelete (str "user")).

(** Sending the test message, and the report of its status. *)
Definition s_sent (text : string) (call : api_call) : SProg unit :=
  status ← s_lift (s_push call (le_bytes 4 0 ++ test_bytes) (Z.of_nat (length test_bytes)));
  s_CHECK_STATUS text status.

Definition s_push_messages : SProg unit :=
  s_sent "Queue push" (QueuePush (str ".queue_test") (4 + Z.of_nat (length test_bytes)));;
  s_sent "Queue push" (QueuePush (str "queue-2") (4 + Z.of_nat (length test_bytes)));;
  s_say separator.

Definition s_push_route : SProg unit :=
  s_sent "Route push"
    (RoutePush (str ".route_test") (str "key1") (4 + Z.of_nat (length test_bytes)));;
  s_sent "Route push"
    (RoutePush (str ".route_test") (str "key2") (4 + Z.of_nat (length test_bytes)));;
  s_say separator.

Definition s_get_message : SProg unit :=
  msg ← s_lift (s_fetch (QueueGet (str ".queue_test")));
  match msg with
  | Some (_, bs) =>
      s_printf (YELLOW "[Success]" +:+ ln " Get message: %s(%zu)")
        [AStr bs; AInt (Z.of_nat (length bs))];;
      mret tt
  | None => mret tt
  end.

(** The tag of a popped message is read after the message was released. *)
Definition s_pop_message : SProg unit :=
  msg ← s_lift (s_fetch (QueuePop (str "queue-2") 1000));
  match msg with
  | Some _ => s_lift s_unspecified
  | None => mret tt
  end.

Definition s_queue_management : SProg unit :=
  s_checked "Queue create" (QueueCreate (str ".queue_1") EMQ_MAX_MSG EMQ_MAX_MSG_SIZE EMQ_QUEUE_NONE);;
  s_checked "Queue create" (QueueCreate (str "queue-2") (EMQ_MAX_MSG / 2) (EMQ_MAX_MSG_SIZE / 100)
    EMQ_QUEUE_NONE);;
  s_checked "Queue declare" (QueueDeclare (str ".queue_1"));;
  s_checked "Queue declare" (QueueDeclare (str "queue-2"));;
  s_asked (QueueExist (str ".queue_1")) 0 (exists_line "Queue" ".queue_1");;
  s_asked (QueueExist (str "queue-2")) 0 (exists_line "Queue" "queue-2");;
  s_asked (QueueExist (str "not-exist-queue")) 0 (exists_line "Queue" "not-exist-queue");;
  (queues ← s_leaky (s_listing emq_queue QueueList);
   s_print_list emq_queue queues (YELLOW (ln "[Queue list]")) show_queue
     (RED "[Error]" +:+ ln " emq_queue_list(%s)"));;
  s_checked "Queue rename" (QueueRename (str ".queue_1") (str ".queue_test"));;
  msg ← s_lift s_malloc;
  match msg with
  | false =>
      s_printf (RED "[Error]" +:+ ln " emq_msg_create") [];;
      s_exit 1
  | true =>
      s_for_loop 5 s_push_messages;;
      queue_size ← s_asked (QueueSize (str ".queue_test")) (-1) (size_line ".queue_test");
      s_for_loop queue_size s_get_message;;
      queue_size ← s_asked (QueueSize (str ".queue_test")) (-1) (size_line ".queue_test");
      queue_size ← s_asked (QueueSize (str "queue-2")) (-1) (size_line "queue-2");
      s_for_loop queue_size s_pop_message;;
      queue_size ← s_asked (QueueSize (str "queue-2")) (-1) (size_line "queue-2");
      s_checked "Queue purge" (QueuePurge (str ".queue_test"));;
      queue_size ← s_asked (QueueSize (str ".queue_test")) (-1) (size_line ".queue_test");
      s_checked "Queue delete" (QueueDelete (str ".queue_test"));;
      s_checked "Queue delete" (QueueDelete (str "queue-2"));;
      mret tt
  end.

Definition s_route_management : SProg unit :=
  s_checked "Route create" (RouteCreate (str ".route_1") EMQ_ROUTE_NONE);;
  s_checked "Queue create" (QueueCreate (str ".queue_1") EMQ_MAX_MSG EMQ_MAX_MSG_SIZE EMQ_QUEUE_NONE);;
  s_checked "Queue create" (QueueCreate (str ".queue_2") EMQ_MAX_MSG EMQ_MAX_MSG_SIZE EMQ_QUEUE_NONE);;
  s_asked (RouteExist (str ".route_1")) 0 (exists_line "Route" ".route_1");;
  s_asked (RouteExist (str "not-exist-route")) 0 (exists_line "Route" "not-exist-route");;
  (routes ← s_leaky (s_listing emq_route RouteList);
   s_print_list emq_route routes (YELLOW (ln "[Route list]")) show_route
     (RED "[Error]" +:+ ln " emq_queue_list(%s)"));;
  s_checked "Route bind" (RouteBind (str ".route_1") (str ".queue_1") (str "key1"));;
  s_checked "Route bind" (RouteBind (str ".route_1") (str ".queue_2") (str "key1"));;
  s_checked "Route bind" (RouteBind (str ".route_1") (str ".queue_2") (str "key2"));;
  (route_keys ← s_leaky (s_listing emq_route_key (RouteKeys (str ".route_1")));
   s_print_list emq_route_key route_keys (YELLOW (ln "[Route keys]")) show_route_key
     (RED "[Error]" +:+ ln " emq_queue_list(%s)"));;
  s_checked "Route rename" (RouteRename (str ".route_1") (str ".route_test"));;
  msg ← s_lift s_malloc;
  match msg with
  | false =>
      s_printf (RED "[Error]" +:+ ln " emq_msg_create") [];;
      s_exit 1
  | true =>
      s_for_loop 5 s_push_route;;
      queue_size ← s_asked (QueueSize (str ".queue_1")) (-1) (size_line ".queue_1");
      queue_size ← s_asked (QueueSize (str ".queue_2")) (-1) (size_line ".queue_2");
      s_checked "Route unbind" (RouteUnbind (str ".route_test") (str ".queue_1") (str "key1"));;
      s_checked "Route unbind" (RouteUnbind (str ".route_test") (str ".queue_2") (str "key1"));;
      s_checked "Route unbind" (RouteUnbind (str ".route_test") (str ".queue_2") (str "key2"));;
      s_checked "Route delete" (RouteDelete (str ".route_test"));;
      s_checked "Queue delete" (QueueDelete (str ".queue_1"));;
      s_checked "Queue delete" (QueueDelete (str ".queue_2"))
  end.

Definition s_channel_management : SProg unit :=
  s_checked "Channel create" (ChannelCreate (str ".channel_1") EMQ_CHANNEL_NONE);;
  s_checked "Channel create" (ChannelCreate (str ".channel_2") EMQ_CHANNEL_NONE);;
  s_asked (ChannelExist (str ".channel_1")) 0 (exists_line "Channel" ".channel_1");;
  s_asked (ChannelExist (str "not-exist-channel")) 0 (exists_line "Channel" "not-exist-channel");;
  (channels ← s_leaky (s_listing emq_channel ChannelList);
   s_print_list emq_channel channels (YELLOW (ln "[Channel list]")) show_channel
     (RED "[Error]" +:+ ln " emq_channel_list(%s)"));;
  s_checked "Channel delete" (ChannelDelete (str ".channel_1"));;
  s_checked "Channel delete" (ChannelDelete (str ".channel_2")).

Definition s_tour : SProg unit :=
  s_say connected_line;;
  s_basic;;
  s_user_management;;
  s_queue_management;;
  s_route_management;;
  s_channel_management;;
  s_checked "Flush all data" (Flush
    (Z.lor (Z.lor (Z.lor EMQ_FLUSH_USER EMQ_FLUSH_QUEUE) EMQ_FLUSH_ROUTE) EMQ_FLUSH_CHANNEL)).

(** ** Simulation *)

Create HintDb programs.
#[export] Hint Resolve steady_ret steady_printf steady_printf_all steady_for : programs.

(** The operations of the library refine their specifications. *)
Ltac library_call :=
  lazymatch goal with
  | |- refines ?l _ (s_command ?c) => exact (refines_command_of l c _ eq_refl)
  | |- refines ?l _ (s_query ?c ?r) => exact (refines_query_of l c _ r eq_refl)
  | |- refines ?l _ s_stat => exact (refines_stat l)
  end.
#[export] Hint Extern 1 (refines _ _ _) => library_call : programs.

(** Executes the steps in front that leak nothing. *)
Ltac run := repeat (eapply runs_step; [solve [eauto with programs]|intros ?; cbv beta]).

Section simulation.
Context (l : loc).

Lemma steady_say f x : steady l f (say x) (s_say x).
Proof. apply steady_printf. Qed.

Lemma steady_CHECK_STATUS f text status :
  steady l f (CHECK_STATUS text status) (s_CHECK_STATUS text status).
Proof. unfold CHECK_STATUS, s_CHECK_STATUS. case_decide; apply steady_printf. Qed.
Hint Resolve steady_say steady_CHECK_STATUS : programs.

Lemma steady_checked f text m call :
  refines l m (s_command call) → steady l f (checked text m) (s_checked text call).
Proof. intros Hm. apply steady_bind; [by apply steady_lift|eauto with programs]. Qed.

Lemma steady_asked f m call r report :
  refines l m (s_query call r) → steady l f (asked m report) (s_asked call r report).
Proof.
  intros Hm. apply steady_bind; [by apply steady_lift|]. intros answer.
  apply steady_bind; eauto with programs.
Qed.
Hint Resolve steady_checked steady_asked : programs.

Lemma steady_basic f : steady l f (basic (Some l)) s_basic.
Proof.
  unfold steady, basic, s_basic. run. eapply runs_step; [apply steady_lift; library_call|].
  intros [status stat]. eapply runs_step; [apply steady_CHECK_STATUS|]. intros _.
  destruct stat; [apply steady_printf_all|apply runs_unspecified].
Qed.

Lemma performs_user_management f : performs l f (user_management (Some l)) s_user_management.
Proof.
  unfold performs, user_management, s_user_management. run.
  apply performs_bind; [apply (performs_print_list emq_user); apply simulates_listing|].
  intros _ n f' _. unfold performs. run. apply steady_performs. eauto with programs.
Qed.

Lemma steady_sent f text m call p msg d :
  push_call call (Z.of_nat (length test_bytes)) = Some m →
  msg_at (fr_heap f) p msg test_bytes → msg_data msg = Some d → msg_expire msg = 0 →
  push_payload call msg test_bytes = expiring msg test_bytes →
  steady l f (checked text (m (Some l) (Some p))) (s_sent text call).
Proof.
  intros Hm Hp Hd He Hpay. apply steady_bind; [|eauto with programs].
  pose proof (steady_push l call m p msg test_bytes f Hm Hp ltac:(by vm_compute)) as Hs.
  rewrite Hpay in Hs. unfold expiring in Hs. by rewrite He in Hs.
Qed.

Lemma steady_get_message f : steady l f (get_message (Some l)) s_get_message.
Proof.
  apply (runs_fetch l (QueueGet (str ".queue_test")) (λ c, emq_queue_get c (str ".queue_test")));
    [done|apply steady_ret|].
  intros p f' [tag bs] Hn. destruct (new_msg_blocks _ _ _ _ _ Hn) as (d & Hp & Hd).
  eapply (runs_field l f' p _ msg_data); [exact Hp|]. eapply runs_string_at; [exact Hd|].
  eapply (runs_field l f' p _ msg_size); [exact Hp|].
  eapply runs_step; [apply steady_printf|]. intros _.
  apply runs_eta. eapply runs_fetched_release; [exact Hn|]. apply steady_ret.
Qed.

Lemma steady_pop_message f : steady l f (pop_message (Some l)) s_pop_message.
Proof.
  apply (runs_fetch l (QueuePop (str "queue-2") 1000) (λ c, emq_queue_pop c (str "queue-2") 1000));
    [done|apply steady_ret|].
  intros p f' [tag bs] Hn. apply runs_unspecified.
Qed.
Hint Resolve steady_get_message steady_pop_message : programs.

(** The message that is sent. *)
Context (d : loc).
Definition test_msg : emq_msg :=
  mk_msg (Some d) (Z.of_nat (length test_bytes)) 0 0 (Some EMQ_ZEROCOPY_ON).

Lemma test_msg_at p f0 f :
  literal d "test message" f0 → holds p test_msg f0 f → msg_at (fr_heap f) p test_msg test_bytes.
Proof.
  intros Hd Hp. eapply (holds_msg p test_msg f0 f d test_bytes []); [done..|].
  rewrite app_nil_r. exact Hd.
Qed.

Lemma steady_push_messages p f :
  msg_at (fr_heap f) p test_msg test_bytes →
  steady l f (push_messages (Some l) (Some p)) s_push_messages.
Proof.
  intros Hp. unfold push_messages, s_push_messages.
  apply steady_bind; [refine (steady_sent f _ (λ c m, emq_queue_push c (str ".queue_test") m)
    (QueuePush (str ".queue_test") (4 + Z.of_nat (length test_bytes)))
    p test_msg d eq_refl Hp eq_refl eq_refl eq_refl)|intros _].
  apply steady_bind; [refine (steady_sent f _ (λ c m, emq_queue_push c (str "queue-2") m)
    (QueuePush (str "queue-2") (4 + Z.of_nat (length test_bytes)))
    p test_msg d eq_refl Hp eq_refl eq_refl eq_refl)|eauto with programs].
Qed.

Lemma steady_push_route p f :
  msg_at (fr_heap f) p test_msg test_bytes →
  steady l f (push_route (Some l) (Some p)) s_push_route.
Proof.
  intros Hp. unfold push_route, s_push_route.
  apply steady_bind; [refine (steady_sent f _ (λ c m, emq_route_push c (str ".route_test") (str "key1") m)
    (RoutePush (str ".route_test") (str "key1") (4 + Z.of_nat (length test_bytes)))
    p test_msg d eq_refl Hp eq_refl eq_refl eq_refl)|intros _].
  apply steady_bind; [refine (steady_sent f _ (λ c m, emq_route_push c (str ".route_test") (str "key2") m)
    (RoutePush (str ".route_test") (str "key2") (4 + Z.of_nat (length test_bytes)))
    p test_msg d eq_refl Hp eq_refl eq_refl eq_refl)|eauto with programs].
Qed.

Lemma performs_queue_management f :
  literal d "test message" f → performs l f (queue_management d (Some l)) s_queue_management.
Proof.
  intros Hd. unfold performs, queue_management, s_queue_management. run.
  apply performs_bind; [apply (performs_print_list emq_queue); apply simulates_listing|].
  intros _ n f' Hn. pose proof (literal_leaks _ _ _ _ _ Hn Hd) as Hd'. unfold performs. run.
  apply runs_msg_create; [|run; apply runs_exit]. intros p f2 Hp.
  pose proof (test_msg_at _ _ _ Hd' Hp) as Hm. pose proof (steady_push_messages _ _ Hm) as Hpush.
  run. eapply runs_msg_release; [exact Hp|]. apply performs_ret.
Qed.

Lemma performs_route_management f :
  literal d "test message" f → performs l f (route_management d (Some l)) s_route_management.
Proof.
  intros Hd. unfold performs, route_management, s_route_management. run.
  apply performs_bind; [apply (performs_print_list emq_route); apply simulates_listing|].
  intros _ n f' Hn. pose proof (literal_leaks _ _ _ _ _ Hn Hd) as Hd'. unfold performs. run.
  apply performs_bind; [apply (performs_print_list emq_route_key); apply simulates_listing|].
  intros _ n2 f2 Hn2. pose proof (literal_leaks _ _ _ _ _ Hn2 Hd') as Hd2. unfold performs. run.
  apply runs_msg_create; [|run; apply runs_exit]. intros p f3 Hp.
  pose proof (test_msg_at _ _ _ Hd2 Hp) as Hm. pose proof (steady_push_route _ _ Hm) as Hpush.
  run. eapply runs_msg_release; [exact Hp|]. run. apply steady_performs. eauto with programs.
Qed.

Lemma performs_channel_management f : performs l f (channel_management (Some l)) s_channel_management.
Proof.
  unfold performs, channel_management, s_channel_management. run.
  apply performs_bind; [apply (performs_print_list emq_channel); apply simulates_listing|].
  intros _ n f' _. unfold performs. run. apply steady_performs. eauto with programs.
Qed.

Lemma performs_tour f :
  literal d "test message" f → performs l f (tour d (Some l)) s_tour.
Proof.
  intros Hd. unfold performs, tour, s_tour. run.
  eapply runs_step; [apply steady_basic|intros _].
  apply performs_bind; [apply performs_user_management|intros _ n1 f1 H1].
  apply (literal_leaks _ _ _ _ _ H1) in Hd.
  apply performs_bind; [by apply performs_queue_management|intros _ n2 f2 H2].
  apply (literal_leaks _ _ _ _ _ H2) in Hd.
  apply performs_bind; [by apply performs_route_management|intros _ n3 f3 H3].
  apply performs_bind; [apply performs_channel_management|intros _ n4 f4 H4].
  apply steady_performs. eauto with programs.
Qed.
End simulation.

(** ** Theorems *)

Definition s_main : SProg Z :=
  s_printf_all banner;;
  s_tour;;
  mret 0.

Lemma performs_main l d f :
  literal d "test message" f →
  performs l f (printf_all banner;; tour d (Some l);; mret 0) s_main.
Proof.
  intros Hd. eapply runs_step; [apply steady_printf_all|intros _].
  apply performs_bind; [by apply performs_tour|]. intros _ n f' _. apply performs_ret.
Qed.

Lemma main_with_connection d w :
  main d w = with_connection (emq_tcp_connect ADDR EMQ_DEFAULT_PORT)
    (λ client, printf_all banner;; tour d client;; mret 0)
    (printf_all banner;; say unconnected_line;; mret 0) w.
Proof.
  apply prog_bind_ext. intros [l|] w'; [|done].
  rewrite prog_assoc. apply prog_bind_ext. intros _ w2.
  rewrite prog_assoc. apply prog_bind_ext. intros _ w3. by rewrite prog_ret_l.
Qed.

Lemma CHECK_STATUS_faults {B} text status (k : unit → Prog B) e w :
  k tt w = Faults e → (CHECK_STATUS text status ≫= k) w = Faults e.
Proof.
  intros Hk. unfold CHECK_STATUS.
  assert (Forall terminated [AText text]) as Ht.
  { constructor; [|done]. simpl. unfold c_bytes. apply elem_of_app. right. by left. }
  case_decide; by apply printf_faults.
Qed.

(** What [main] reports when it is not connected. *)
Definition unconnected_report : list printed :=
  (λ l : line, mk_printed l.1 (shown <$> l.2)) <$> banner ++ [unconnected_line].

Lemma main_unconnected d w w' :
  emq_tcp_connect ADDR EMQ_DEFAULT_PORT w = Returns NULL w' →
  main d w = Returns (unconnected_report, inl 0) w'.
Proof. intros Hw. unfold main. by rewrite (lift_step _ _ _ _ _ Hw). Qed.

(** C21: the program [simple.c], connected or not. When [emq_tcp_connect] fails, the program says
    so and returns 0, leaving what the failed connection left. When memory and the calls of the
    system last for the connection, it does what its specification [s_main] says, as far as that
    promises anything: it prints its report line by line and, when the conversation goes to its
    end, returns 0, disconnected, with the sockets of before and nothing more in memory than the
    records that the listings leaked when memory ran out; it exits with 1 when a message cannot be
    allocated (the process ends: nothing is said of its memory); or it waits for the server.
    Nothing is promised once the statistics were not received ([basic_uninitialised]), a text
    without terminator is printed, a reply announces success with less than whole records or with a
    message that memory does not suffice for, or a message is popped ([pop_use_after_release]). So
    the run that the program is meant for, in which the server hands out the messages of "queue-2",
    is not one of those that the theorem speaks of: it is undefined. *)
Theorem simple_completes d w :
  (∀ w', emq_tcp_connect ADDR EMQ_DEFAULT_PORT w = Returns NULL w' →
    main d w = Returns (unconnected_report, inl 0) w') ∧
  (literal d "test message" (mk_frame (w_heap w) ∅ [] []) → allocs 4 w → calls 5 w →
    completes (s_main (first_session w)) (w_heap w) (w_socks w) (main d w)).
Proof.
  split; [by apply main_unconnected|].
  intros Hd Ha Hs. rewrite main_with_connection. apply (connection_completes 5).
  - intros Q HQ. by apply wp_tcp_connect.
  - intros l f Hf. apply performs_main. unfold literal in *. by rewrite Hf.
Qed.

(** Replies of a server: acknowledgements, and the word that answers a query. *)
Definition accepts (calls : list api_call) : list rd_event :=
  RdData ∘ response_header_bytes ∘ success_reply <$> calls.
Definition answers (call : api_call) (v : Z) : list rd_event :=
  [RdData (response_header_bytes (reply_with call 4) ++ le_bytes 4 v)].

Definition refuses (call : api_call) : list rd_event :=
  [RdData (response_header_bytes (mk_response_header EMQ_PROTOCOL_RES (call_code call)
    EMQ_PROTOCOL_STATUS_ERROR 0))].
Definition sends (call : api_call) (body : list byte) : list rd_event :=
  [RdData (response_header_bytes (reply_with call (Z.of_nat (length body))) ++ body)].

(** A server that answers the whole conversation: it accepts every command, knows a user, delivers
    a message from [".queue_test"], and refuses the one of ["queue-2"]. *)
Definition whole_conversation : list rd_event :=
  accepts [Auth [] []; Ping] ++ sends Stat (replicate 55 Byte.x01) ++
  accepts (replicate 2 (UserCreate [] [] 0)) ++
  sends UserList (array_of 32 (str "eagle") ++ array_of 32 (str "eagle") ++ le_bytes 8 3) ++
  accepts [UserRename [] []; UserSetPerm [] 0; UserDelete []; UserDelete []] ++
  accepts (replicate 2 (QueueCreate [] 0 0 0) ++ replicate 2 (QueueDeclare [])) ++
  answers (QueueExist []) 1 ++ answers (QueueExist []) 1 ++ answers (QueueExist []) 0 ++
  sends QueueList [] ++ accepts (QueueRename [] [] :: replicate 10 (QueuePush [] 0)) ++
  answers (QueueSize []) 1 ++ sends (QueueGet []) (le_bytes 8 7 ++ [Byte.x41; NUL]) ++
  answers (QueueSize []) 1 ++ answers (QueueSize []) 1 ++ refuses (QueuePop [] 0) ++
  answers (QueueSize []) 1 ++ accepts [QueuePurge []] ++ answers (QueueSize []) 0 ++
  accepts [QueueDelete []; QueueDelete []] ++
  accepts [RouteCreate [] 0; QueueCreate [] 0 0 0; QueueCreate [] 0 0 0] ++
  answers (RouteExist []) 1 ++ answers (RouteExist []) 0 ++ sends RouteList [] ++
  accepts (replicate 3 (RouteBind [] [] [])) ++ sends (RouteKeys []) [] ++
  accepts (RouteRename [] [] :: replicate 10 (RoutePush [] [] 0)) ++
  answers (QueueSize []) 5 ++ answers (QueueSize []) 5 ++
  accepts (replicate 3 (RouteUnbind [] [] []) ++ [RouteDelete []; QueueDelete []; QueueDelete []]) ++
  accepts [ChannelCreate [] 0; ChannelCreate [] 0] ++
  answers (ChannelExist []) 1 ++ answers (ChannelExist []) 0 ++ sends ChannelList [] ++
  accepts [ChannelDelete []; ChannelDelete []; Flush 0].

Definition simple_world : world :=
  mk_world {[1%positive := inject (Some <$> test_bytes : buffer)]} [] ∅ []
    [mk_sock whole_conversation [] []].

(** The lines of failures. *)
Definition failures (o : list printed) : nat :=
  length (filter (λ p, String.prefix (RED "[Error]") (format p)) o).

Lemma simple_completes_witness :
  completes (s_main (first_session simple_world)) (w_heap simple_world) (w_socks simple_world)
    (main 1%positive simple_world) ∧
  match s_main (first_session simple_world) with
  | Answer (o, n, inl r) s => n = O ∧ r = 0 ∧ failures o = O ∧ length o = 108%nat ∧ ss_rx s = []
  | _ => False
  end.
Proof.
  split.
  - exact (proj2 (simple_completes 1%positive simple_world) eq_refl (Forall_nil_2 _) (Forall_nil_2 _)).
  - vm_compute. repeat split; reflexivity.
Defined.

(** Fact: whenever a message with a terminated text is popped from
    ["queue-2"], the example reads the tag of the message after it released it, to confirm it:
    the behaviour is undefined (a dangling pointer) before any confirmation is sent. *)
Theorem pop_use_after_release l f s w tag bs s' :
  rep l s f w → s_fetch (QueuePop (str "queue-2") 1000) s = Answer (Some (tag, bs)) s' →
  NUL ∈ bs → pop_message (Some l) w = Faults DanglingPointer.
Proof.
  intros Hr Ha Hnul.
  pose proof (sim_implements l _ _ _ f s w
    (simulates_fetch (QueuePop (str "queue-2") 1000) _ l eq_refl f s w Hr)) as Hi.
  unfold implements in Hi. rewrite Ha in Hi. destruct Hi as (y & f1 & w1 & Hw & Hr1 & Hn).
  pose proof Hn as (p & d & -> & Hpd & _). destruct (new_msg_blocks _ _ _ _ _ Hn) as (d' & Hp & Hd).
  pose proof (lookup_weaken _ _ _ _ Hp (frame_subseteq _ _ _ _ Hr1)) as Hp1.
  pose proof (lookup_weaken _ _ _ _ Hd (frame_subseteq _ _ _ _ Hr1)) as Hd1.
  unfold pop_message. rewrite (lift_step _ _ _ _ _ Hw).
  rewrite (lift_step _ _ (Some d') w1 w1); [|unfold emq_msg_data, mbind, M_bind, load; by rewrite Hp1, project_inject].
  rewrite (lift_step _ _ bs w1 w1);
    [|unfold string_at, mbind, M_bind, load; by rewrite Hd1, project_inject, initialised_Some].
  rewrite (lift_step _ _ (Z.of_nat (length bs)) w1 w1);
    [|unfold emq_msg_size, mbind, M_bind, load; by rewrite Hp1, project_inject].
  apply printf_faults; [by repeat constructor|].
  assert (p ≠ d') as Hne by (intros ->; rewrite Hp1 in Hd1; discriminate Hd1).
  rewrite (lift_step _ _ tt w1 (set_heap (delete p (delete d' (w_heap w1))) w1)).
  - apply lift_faults. unfold emq_msg_tag, mbind, M_bind, load. simpl. by rewrite lookup_delete_eq.
  - unfold emq_msg_release, free, mbind, M_bind, load. rewrite Hp1, project_inject.
    change (msg_data _) with (Some d'). cbv beta iota. simpl. rewrite Hd1. simpl.
    by rewrite lookup_delete_ne, Hp1 by done.
Qed.

(** A server that delivers the message ["A"] of the tag 7. *)
Definition delivery : list byte :=
  response_header_bytes (reply_with (QueuePop [] 0) 10) ++ le_bytes 8 7 ++ [Byte.x41; NUL].

Lemma pop_use_after_release_witness :
  pop_message (Some 1%positive) (sample ∅ delivery [] []) = Faults DanglingPointer.
Proof.
  refine (pop_use_after_release 1%positive (sample_frame ∅) (sample_session delivery [] [])
    (sample ∅ delivery [] []) 7 [Byte.x41; NUL] _ _ _ _).
  - apply sample_rep. by repeat constructor.
  - vm_compute. reflexivity.
  - apply (bool_decide_unpack _). by vm_compute.
Defined.

(** Fact: the example prints the statistics whether or not they were received:
    when the server refuses them or is gone, it reads an uninitialised structure. *)
Theorem basic_uninitialised l f s w e s' :
  rep l s f w →
  (_ ← s_command (Auth (str "eagle") (str "eagle")); _ ← s_command Ping; s_stat) s =
    Answer (e, None) s' →
  basic (Some l) w = Faults Uninitialised.
Proof.
  intros Hr Ha. unfold mbind at 1, Spec_bind at 1 in Ha.
  destruct (s_command (Auth _ _) s) as [r1 s1| |] eqn:H1; [|done..].
  destruct (refines_answer _ _ _ _ _ _ _ _
    (refines_command_of l (Auth (str "eagle") (str "eagle")) _ eq_refl) Hr H1) as (w1 & Hw1 & Hr1).
  unfold mbind at 1, Spec_bind at 1 in Ha.
  destruct (s_command Ping s1) as [r2 s2| |] eqn:H2; [|done..].
  destruct (refines_answer _ _ _ _ _ _ _ _ (refines_command_of l Ping _ eq_refl) Hr1 H2)
    as (w2 & Hw2 & Hr2).
  destruct (refines_answer _ _ _ _ _ _ _ _ (refines_stat l) Hr2 Ha) as (w3 & Hw3 & _).
  unfold basic, checked. rewrite prog_assoc, (lift_step _ _ _ _ _ Hw1).
  apply CHECK_STATUS_faults. rewrite prog_assoc, (lift_step _ _ _ _ _ Hw2).
  apply CHECK_STATUS_faults. rewrite (lift_step _ _ _ _ _ Hw3).
  by apply CHECK_STATUS_faults.
Qed.

Lemma basic_uninitialised_witness :
  basic (Some 1%positive) (mk_world (sample_heap ∅) [] {[3 := mk_sock (replicate 3 RdErr) [] []]} [] []) =
    Faults Uninitialised.
Proof.
  refine (basic_uninitialised 1%positive (sample_frame ∅)
    (new_session (mk_sock (replicate 3 RdErr) [] []) []) _ EMQ_STATUS_ERR _ _ _).
  - apply sample_sock_rep. by repeat constructor.
  - vm_compute. reflexivity.
Defined.
