(* ===== verification/Subscribers.v ===== *)
(** The subscribing programs [src/src/examples/queue-subscribe.c] and
    [src/src/examples/channel-subscribe.c]: their callbacks, which count the messages in a static
    variable and unsubscribe after the last one, the conversation of [main], and the worker that
    sends the messages.

    The two callbacks form one table: the callback pointer 0 is [queue_message_callback], 1 is
    [channel_message_callback]. They print to the standard output, an object in memory, while
    [main] waits in [emq_process]; what they printed is taken over when [emq_process] returns. The
    worker runs in a thread of its own, on a connection of its own. *)

From S2P Require Import Prelude Types Machine Lists Network Protocol Client Session Packet Commands.
From S2P Require Import Messages Queries Listings Subscriptions Kept Process Connection Sample Program.
From S2P Require Import Simple.

Definition MESSAGES : Z := 10.
Definition TEST_MESSAGE : string := "Hello EagleMQ".

(** The names that both programs use. *)
Definition queue_test : cstring := str ".queue-test".
Definition channel_test : cstring := str ".channel-test".
Definition belarus : cstring := str "world.belarus.*".

(** ** The callbacks *)

Section callbacks.
Context (stdout message_counter : loc).

(** [++message_counter] *)
Definition increment : M Z :=
  bytes ← read_bytes (Some message_counter) 4;
  let v := i32 (le_value bytes) in
  if decide (v = 2 ^ 31 - 1) then undefined SignedOverflow else
  memcpy_to (Some message_counter) (le_bytes 4 (v + 1));;
  mret (v + 1).

(** [printf] inside of a callback. *)
Definition print (l : line) : M unit :=
  if decide (Forall terminated l.2) then
    o ← load (Some stdout);
    store (Some stdout) (mk_stream (written o ++ [mk_printed l.1 (shown <$> l.2)]))
  else undefined OutOfBounds.

Definition queue_event_line (memory name : list byte) : line :=
  (YELLOW "[Success]" +:+ ln " [Event] Message '%s' in queue %s", [AStr memory; AStr name]).
Definition queue_end_line : line := (YELLOW "[Success]" +:+ ln " [Event] Queue unsubscribe", []).

Definition queue_message_callback (client : ptr) (name : list byte) (msg : ptr) : M Z :=
  data ← emq_msg_data msg;
  memory ← string_at data;
  print (queue_event_line memory name);;
  counter ← increment;
  if decide (MESSAGES ≤ counter) then
    emq_noack_enable client;;
    print queue_end_line;;
    _ ← emq_queue_unsubscribe client queue_test;
    emq_noack_disable client;;
    emq_msg_release msg;;
    mret 1
  else
    emq_msg_release msg;;
    mret 0.

Definition channel_event_line (memory name pattern topic : list byte) : line :=
  (YELLOW "[Success]" +:+ ln " [Event] Message '%s' (channel: %s, pattern: %s, topic: %s) ",
   [AStr memory; AStr name; AStr pattern; AStr topic]).
Definition channel_end_line : line :=
  (YELLOW "[Success]" +:+ ln " [Event] Channel punsubscribe", []).

Definition channel_message_callback (client : ptr) (name : list byte)
    (topic pattern : option (list byte)) (msg : ptr) : M Z :=
  data ← emq_msg_data msg;
  memory ← string_at data;
  match topic, pattern with
  | Some topic, Some pattern =>
      print (channel_event_line memory name pattern topic);;
      counter ← increment;
      if decide (MESSAGES ≤ counter) then
        emq_noack_enable client;;
        print channel_end_line;;
        _ ← emq_channel_punsubscribe client channel_test belarus;
        emq_noack_disable client;;
        emq_msg_release msg;;
        mret 1
      else
        emq_msg_release msg;;
        mret 0
  | _, _ => undefined NullPointer
  end.

(** The table of the callbacks. *)
Definition callbacks (id : nat) (client : ptr) (type : Z) (name : list byte)
    (topic pattern : option (list byte)) (msg : ptr) : M Z :=
  match id with
  | 0%nat => queue_message_callback client name msg
  | 1%nat => channel_message_callback client name topic pattern msg
  | _ => undefined BadPointer
  end.

(** ** Their specification *)

(** The state of the callbacks: the counter, and what they printed. *)
Definition tally : Type := Z * list printed.

Definition print_line (l : line) : printed := mk_printed l.1 (shown <$> l.2).

(** Reporting and counting a message; after the last one, [unsubscribe]. *)
Definition s_counted (event last : line) (unsubscribe : Spec Z) (u : tally) : Spec (Z * tally) :=
  let '(n, o) := u in
  if decide (Forall terminated event.2 ∧ 0 ≤ n < 2 ^ 31 - 1) then
    if decide (MESSAGES ≤ n + 1) then
      s_put (set_ss_noack 1);;
      _ ← unsubscribe;
      s_put (set_ss_noack 0);;
      mret (1, (n + 1, o ++ [print_line event; print_line last]))
    else mret (0, (n + 1, o ++ [print_line event]))
  else s_unspecified.

Definition s_callbacks (id : nat) (type : Z) (name : list byte) (topic pattern : option (list byte))
    (msg : option (list byte)) (u : tally) : Spec (Z * tally) :=
  match id, msg, topic, pattern with
  | 0%nat, Some bs, _, _ =>
      s_counted (queue_event_line bs name) queue_end_line
        (s_unsubscribe emq_queue_subscription (QueueUnsubscribe queue_test)
           EMQ_PROTOCOL_CMD_QUEUE_UNSUBSCRIBE queue_test) u
  | 1%nat, Some bs, Some topic, Some pattern =>
      s_counted (channel_event_line bs name pattern topic) channel_end_line
        (s_unsubscribe emq_channel_subscription (ChannelPunsubscribe channel_test belarus)
           EMQ_PROTOCOL_CMD_CHANNEL_UNSUBSCRIBE channel_test) u
  | _, _, _, _ => s_unspecified
  end.

(** A block of the program in a frame. *)
Definition with_block (c : loc) (o : block) (f : frame) : frame :=
  set_fr_heap (<[c := o]> (fr_heap f)) f.

(** The counter and the output in memory. *)
Definition counter_cells (n : Z) : block := inject (Some <$> le_bytes 4 n : buffer).
Definition counting (u : tally) (f : frame) : frame :=
  with_block stdout (inject (mk_stream u.2)) (with_block message_counter (counter_cells u.1) f).

(** Receiving a message and changing another block are independent. *)
Lemma new_msg_with_block k o o' f0 f y x :
  new_msg (with_block k o f0) f y (Some x) →
  fr_heap f !! k = Some o ∧ new_msg (with_block k o' f0) (with_block k o' f) y (Some x).
Proof.
  destruct x as [tag bs]. intros (p & d & -> & Hpd & Hp & Hd & ->). simpl in *.
  assert (p ≠ k) by (intros ->; by rewrite lookup_insert_eq in Hp).
  assert (d ≠ k) by (intros ->; by rewrite lookup_insert_eq in Hd).
  rewrite lookup_insert_ne in Hp, Hd by done. split.
  { by rewrite !lookup_insert_ne, lookup_insert_eq by done. }
  exists p, d. unfold with_block. simpl. rewrite !lookup_insert_ne by done. split_and!; try done.
  rewrite !fr_heap_twice. f_equal.
  rewrite (insert_insert_ne _ k d), (insert_insert_ne _ k p) by done.
  by rewrite insert_insert_eq.
Qed.

Lemma with_block_comm k k' o o' f :
  k ≠ k' → with_block k o (with_block k' o' f) = with_block k' o' (with_block k o f).
Proof. intros Hk. unfold with_block. simpl. rewrite !fr_heap_twice. f_equal. by apply insert_insert_ne. Qed.

Context (Hdistinct : stdout ≠ message_counter).

Lemma sim_increment {A B} l n o f0 f y x s (K : Z → M A) (a : Spec B) Φ w :
  rep l s f w → new_msg (counting (n, o) f0) f y (Some x) → 0 ≤ n < 2 ^ 31 - 1 →
  (∀ f w, rep l s f w → new_msg (counting (n + 1, o) f0) f y (Some x) →
    sim l s (K (n + 1)) a Φ w) →
  sim l s (increment ≫= K) a Φ w.
Proof using Hdistinct.
  intros Hr Hm Hn HK. unfold counting in Hm. rewrite with_block_comm in Hm by done.
  destruct (new_msg_with_block _ _ (counter_cells (n + 1)) _ _ _ _ Hm) as [Hc Hm'].
  destruct (Hr) as [g Hg]. destruct (frame_lookup _ _ _ _ _ _ _ Hg Hc) as [_ Hw].
  unfold increment. apply sim_assoc, sim_step.
  change 4 with (Z.of_nat (length (le_bytes 4 n))) at 1.
  eapply wp_read_bytes; [exact Hw|symmetry; apply app_nil_r|].
  assert (i32 (le_value (le_bytes 4 n)) = n) as ->.
  { rewrite le_value_bytes, Z.mod_small by (simpl; lia). by rewrite i32_small by lia. }
  cbv zeta. rewrite decide_False by lia. apply sim_assoc.
  eapply sim_memcpy_to; [done|exact Hc|by rewrite length_fmap, !length_le_bytes|].
  rewrite drop_ge, app_nil_r by (by rewrite length_fmap, !length_le_bytes). intros w' Hr'.
  eapply HK; [done|]. unfold counting. by rewrite with_block_comm.
Qed.

Lemma sim_print {A B} l n o line f0 f y x s (K : unit → M A) (a : Spec B) Φ w :
  rep l s f w → new_msg (counting (n, o) f0) f y (Some x) → Forall terminated line.2 →
  (∀ f w, rep l s f w → new_msg (counting (n, o ++ [print_line line]) f0) f y (Some x) →
    sim l s (K tt) a Φ w) →
  sim l s (print line ≫= K) a Φ w.
Proof using.
  intros Hr Hm Hl HK. unfold print. rewrite decide_True by done.
  destruct (new_msg_with_block _ _ (inject (mk_stream (o ++ [print_line line]))) _ _ _ _ Hm) as [Hc Hm'].
  apply sim_assoc. eapply sim_load; [done|exact Hc|]. eapply sim_store; [done|exact Hc|].
  intros w' Hr'. by eapply HK.
Qed.

(** The messages that were received. *)
Lemma sim_message_text {A B} l f0 f p tag bs s (K : list byte → M A) (a : Spec B) Φ w :
  rep l s f w → new_msg f0 f (Some p) (Some (tag, bs)) → sim l s (K bs) a Φ w →
  sim l s (data ← emq_msg_data (Some p); memory ← string_at data; K memory) a Φ w.
Proof.
  intros Hr Hm HK. destruct (new_msg_blocks _ _ _ _ _ Hm) as (d & Hp & Hd).
  unfold emq_msg_data. apply sim_assoc. eapply sim_load; [done|exact Hp|].
  apply sim_step, wp_ret. unfold string_at. apply sim_assoc. eapply sim_load; [done|exact Hd|].
  rewrite initialised_Some. by apply sim_step, wp_ret.
Qed.

(** The end of both callbacks. *)
Lemma sim_counted l n o f0 f event last y x s (unsubscribe : M Z) s_unsubscribe w :
  refines l unsubscribe s_unsubscribe → Forall terminated last.2 →
  rep l s f w → new_msg (counting (n, o) f0) f y (Some x) →
  sim l s
    (print event;;
     counter ← increment;
     if decide (MESSAGES ≤ counter) then
       emq_noack_enable (Some l);;
       print last;;
       _ ← unsubscribe;
       emq_noack_disable (Some l);;
       emq_msg_release y;;
       mret 1
     else
       emq_msg_release y;;
       mret 0)
    (s_counted event last s_unsubscribe (n, o)) (placed counting f0) w.
Proof using Hdistinct.
  intros Hun Hlast Hr Hm. simpl. case_decide as Hc; [|apply sim_unspecified].
  destruct Hc as [Hs Hn]. eapply sim_print; [done|exact Hm|done|].
  clear f w Hr Hm. intros f w Hr Hm. eapply sim_increment; [done|exact Hm|done|].
  clear f w Hr Hm. intros f w Hr Hm. case_decide.
  - eapply sim_bind; [by apply refines_noack_enable|]. intros [] [] f1 s1 w1 Hr1 [-> _].
    eapply sim_print; [exact Hr1|exact Hm|done|]. clear f w Hr Hm w1 Hr1. intros f w1 Hr1 Hm.
    eapply sim_bind; [by apply Hun|]. intros ? _ f2 s2 w2 Hr2 [-> <-].
    eapply sim_bind; [by apply refines_noack_disable|]. intros [] [] f3 s3 w3 Hr3 [-> _].
    eapply sim_msg_release; [done|exact Hm|]. intros w4 Hr4. eapply sim_ret; [done|].
    by rewrite <-app_assoc.
  - eapply sim_msg_release; [done|exact Hm|]. intros w4 Hr4. by eapply sim_ret.
Qed.

Lemma counting_contract : Callbacks counting callbacks s_callbacks.
Proof using Hdistinct.
  constructor.
  - intros id type name topic pattern l [n o] f0 f s w y x Hr Hm.
    destruct x as [bs|]; [|destruct id as [|[|id]]; apply sim_unspecified].
    destruct (Hm) as (p & d & -> & _). destruct id as [|[|id]]; [| |apply sim_unspecified].
    + eapply sim_message_text; [done|exact Hm|].
      eapply sim_counted; [apply refines_queue_unsubscribe|done|done|exact Hm].
    + destruct topic as [topic|]; [|apply sim_unspecified].
      destruct pattern as [pattern|]; [|apply sim_unspecified].
      eapply sim_message_text; [done|exact Hm|].
      eapply sim_counted; [apply refines_channel_punsubscribe|done|done|exact Hm].
  - intros R HR id type name topic pattern x [n o]. unfold s_callbacks, s_counted. keep.
Qed.

(** ** The programs

    [pthread_create] is the result of the call that starts a worker. *)

Definition init_worker (pthread_create : Z) : Prog unit :=
  if decide (pthread_create = 0) then mret tt
  else printf (RED (ln "Error create thread")) [];; exit (-1).

(** What the callbacks print while [m] runs is output of the program. *)
Definition printing {A} (m : M A) : Prog A :=
  (m : M A) ≫= λ a,
    o ← load (Some stdout); store (Some stdout) (mk_stream []);; mret (M := M) (written o, inl a).

Definition queue_session (pthread_create : Z) (client : ptr) : Prog unit :=
  say connected_line;;
  checked "Auth" (emq_auth client (str "eagle") (str "eagle"));;
  checked "Queue create" (emq_queue_create client queue_test 10 100
    (Z.lor EMQ_QUEUE_FORCE_PUSH EMQ_QUEUE_AUTODELETE));;
  checked "Queue declare" (emq_queue_declare client queue_test);;
  checked "Queue subscribe"
    (emq_queue_subscribe client queue_test EMQ_QUEUE_SUBSCRIBE_MSG (Some 0%nat));;
  init_worker pthread_create;;
  status ← printing (run_process callbacks client);
  CHECK_STATUS "Queue process" status.

Definition channel_session (pthread_create1 pthread_create2 : Z) (client : ptr) : Prog unit :=
  say connected_line;;
  checked "Auth" (emq_auth client (str "eagle") (str "eagle"));;
  checked "Channel create" (emq_channel_create client channel_test
    (Z.lor EMQ_CHANNEL_AUTODELETE EMQ_CHANNEL_ROUND_ROBIN));;
  checked "Channel psubscribe" (emq_channel_psubscribe client channel_test belarus (Some 1%nat));;
  init_worker pthread_create1;;
  init_worker pthread_create2;;
  status ← printing (run_process callbacks client);
  CHECK_STATUS "Channel process" status.

(** [main] of both programs, by what it does with the connection. *)
Definition subscriber_main (session : ptr → Prog unit) : Prog Z :=
  client ← lift (emq_tcp_connect ADDR EMQ_DEFAULT_PORT);
  printf_all banner;;
  match client with
  | Some _ =>
      session client;;
      lift (emq_disconnect client);;
      mret 0
  | None =>
      say unconnected_line;;
      mret 0
  end.

(** ** Their specification *)

Definition s_init_worker (pthread_create : Z) : SProg unit :=
  if decide (pthread_create = 0) then mret tt
  else s_printf (RED (ln "Error create thread")) [];; s_exit (-1).

(** A subscription, which leaks a block when its node cannot be allocated. *)
Definition s_subscribed {T} `{Slot T} (text : string) (call : api_call) (cb : callback) (x : T) :
    SProg unit :=
  status ← s_leaky (r ← s_subscribe call cb x; mret (r.1, if r.2 : bool then 1 else 0)%nat);
  s_CHECK_STATUS text status.

(** The event loop, the counter being 0 and nothing printed. *)
Definition s_printing (a : Spec (Z * tally)) : SProg Z :=
  (a : Spec _) ≫= λ x, mret (M := Spec) (x.2.2, O, inl x.1).
Definition s_processed (text : string) : SProg unit :=
  status ← s_printing (s_process s_callbacks (0, []));
  s_CHECK_STATUS text status.

Definition s_queue_session (pthread_create : Z) : SProg unit :=
  s_say connected_line;;
  s_checked "Auth" (Auth (str "eagle") (str "eagle"));;
  s_checked "Queue create" (QueueCreate queue_test 10 100
    (Z.lor EMQ_QUEUE_FORCE_PUSH EMQ_QUEUE_AUTODELETE));;
  s_checked "Queue declare" (QueueDeclare queue_test);;
  s_subscribed "Queue subscribe" (QueueSubscribe queue_test EMQ_QUEUE_SUBSCRIBE_MSG) (Some 0%nat)
    (mk_queue_subscription (array_of 64 queue_test) (Some 0%nat));;
  s_init_worker pthread_create;;
  s_processed "Queue process".

Definition s_channel_session (pthread_create1 pthread_create2 : Z) : SProg unit :=
  s_say connected_line;;
  s_checked "Auth" (Auth (str "eagle") (str "eagle"));;
  s_checked "Channel create" (ChannelCreate channel_test
    (Z.lor EMQ_CHANNEL_AUTODELETE EMQ_CHANNEL_ROUND_ROBIN));;
  s_subscribed "Channel psubscribe" (ChannelPsubscribe channel_test belarus) (Some 1%nat)
    (mk_channel_subscription (array_of 64 channel_test) (array_of 32 belarus) (Some 1%nat));;
  s_init_worker pthread_create1;;
  s_init_worker pthread_create2;;
  s_processed "Channel process".

Definition s_subscriber_main (session : SProg unit) : SProg Z :=
  s_printf_all banner;;
  session;;
  mret 0.
End callbacks.

(** ** Simulation *)

Section simulation.
Context (out c l : loc).

(** The counter is 0 and nothing is printed. *)
Definition tally_reset (f : frame) : Prop :=
  fr_heap f !! c = Some (counter_cells 0) ∧ points_to (fr_heap f) out (mk_stream []).

Lemma tally_reset_leaks n f f' : leaks n f f' → tally_reset f → tally_reset f'.
Proof. intros [Hh _ _] [Hc Ho]. by split; eapply lookup_weaken. Qed.

Lemma tally_distinct f : tally_reset f → out ≠ c.
Proof. intros [Hc Ho] ->. rewrite Hc in Ho. discriminate Ho. Qed.

Lemma with_block_id k o f : fr_heap f !! k = Some o → with_block k o f = f.
Proof. intros Hk. unfold with_block. rewrite insert_id by exact Hk. apply set_fr_heap_id. Qed.

Lemma counting_reset f : tally_reset f → counting out c (0, []) f = f.
Proof. intros [Hc Ho]. unfold counting. simpl. by rewrite (with_block_id c), with_block_id. Qed.

(** Once the output is taken over, the counter is left. *)
Lemma taken_over u f :
  tally_reset f →
  with_block out (inject (mk_stream [])) (counting out c u f) = with_block c (counter_cells u.1) f.
Proof.
  intros Hf. pose proof (tally_distinct f Hf) as Hne. destruct Hf as [_ Ho]. unfold counting.
  assert (∀ o o' f, with_block out o (with_block out o' f) = with_block out o f) as Htwice.
  { intros o o' f'. unfold with_block. simpl. by rewrite fr_heap_twice, insert_insert_eq. }
  by rewrite Htwice, (with_block_comm out c), (with_block_id out).
Qed.

(** What is left of the memory: the counter, and the blocks that were leaked. *)
Definition counted {A} (f : frame) (_ : A) (n : nat) (f' : frame) : Prop :=
  ∃ f1 u, leaks n f f1 ∧ f' = with_block c (counter_cells u) f1.

Lemma steady_init_worker r f : steady l f (init_worker r) (s_init_worker r).
Proof.
  unfold init_worker, s_init_worker. case_decide; [apply steady_ret|].
  apply steady_bind; [apply steady_printf|]. intros _. apply runs_exit.
Qed.
Hint Resolve steady_init_worker steady_say steady_CHECK_STATUS steady_checked : programs.

Lemma performs_subscribed {T} `{Slot T} text call cb (x : T) m f :
  simulates l m (s_subscribe call cb x) register_result →
  performs l f (checked text m) (s_subscribed text call cb x).
Proof.
  intros Hm. unfold performs, checked, s_subscribed.
  eapply (runs_leaky l f m _ (λ f f' y x, y = x.1 ∧ leaks x.2 f f')).
  - intros f0 s w Hr. eapply (sim_map l); [by apply Hm|].
    intros f' y [r lost] [-> Hf]. simpl in *. split; [done|]. destruct lost.
    + destruct Hf as (k & o & Hk & ->). constructor; simpl; [by apply insert_subseteq| |done].
      rewrite map_size_insert_None by done. lia.
    + subst. apply leaks_refl.
  - intros y r n f' [-> Hn]. simpl in Hn |- *. eapply runs_mono; [apply steady_CHECK_STATUS|].
    simpl. intros _ n' f2 [-> ->]. by rewrite Nat.add_0_r.
Qed.

Lemma runs_printing f :
  tally_reset f →
  runs l f (printing out (run_process (callbacks out c) (Some l)))
    (s_printing (s_process s_callbacks (0, [])))
    (λ _ n f', n = O ∧ ∃ u, f' = with_block c (counter_cells u) f).
Proof.
  intros Hf s w Hr. pose proof (counting_contract out c (tally_distinct f Hf)) as Hcontract.
  eapply sim_bind.
  - apply (simulates_run_process (place := counting out c) l (0, []) f). by rewrite counting_reset.
  - intros y [r u] f' s' w' Hr' [-> ->]. simpl.
    eapply sim_load; [done|apply lookup_insert_eq|].
    eapply sim_store; [done|apply lookup_insert_eq|]. intros w2 Hr2.
    eapply sim_ret; [exact Hr2|]. split; [done|]. split; [done|]. exists u.1. by apply taken_over.
Qed.

Lemma runs_processed text f :
  tally_reset f →
  runs l f (status ← printing out (run_process (callbacks out c) (Some l)); CHECK_STATUS text status)
    (s_processed text) (λ _ n f', n = O ∧ ∃ u, f' = with_block c (counter_cells u) f).
Proof.
  intros Hf. eapply runs_bind; [by apply runs_printing|].
  intros y n f' [-> Hf']. eapply runs_mono; [apply steady_CHECK_STATUS|]. simpl.
  intros _ n f2 [-> ->]. eauto.
Qed.

(** After the subscription: the workers are started, and the events are processed. *)
Lemma runs_subscriber {T} `{Slot T} text call cb (x : T) m (k : Prog unit) k' f :
  tally_reset f → simulates l m (s_subscribe call cb x) register_result →
  (∀ f, tally_reset f → runs l f k k' (λ _ n f', n = O ∧ ∃ u, f' = with_block c (counter_cells u) f)) →
  runs l f (checked text m;; k) (s_subscribed text call cb x;; k') (counted f).
Proof.
  intros Hc Hm Hk. eapply runs_bind; [by apply performs_subscribed|]. intros [] n f1 Hn.
  eapply runs_mono; [eapply Hk, tally_reset_leaks; eauto|]. simpl.
  intros [] n' f' [-> [u ->]]. rewrite Nat.add_0_r. by exists f1, u.
Qed.

Lemma runs_queue_session r f :
  tally_reset f →
  runs l f (queue_session out c r (Some l)) (s_queue_session r) (counted f).
Proof.
  intros Hc. unfold queue_session, s_queue_session. run.
  apply runs_subscriber; [done|apply simulates_queue_subscribe|].
  clear f Hc. intros f Hc. run. by apply runs_processed.
Qed.

Lemma runs_channel_session r1 r2 f :
  tally_reset f →
  runs l f (channel_session out c r1 r2 (Some l)) (s_channel_session r1 r2) (counted f).
Proof.
  intros Hc. unfold channel_session, s_channel_session. run.
  apply runs_subscriber; [done|apply simulates_channel_psubscribe|].
  clear f Hc. intros f Hc. run. by apply runs_processed.
Qed.
End simulation.

(** ** Theorems *)

Lemma subscriber_main_connection session w :
  subscriber_main session w = with_connection (emq_tcp_connect ADDR EMQ_DEFAULT_PORT)
    (λ client, printf_all banner;; session client;; mret 0)
    (printf_all banner;; say unconnected_line;; mret 0) w.
Proof.
  apply prog_bind_ext. intros [l|] w'; [|done].
  rewrite prog_assoc. apply prog_bind_ext. intros _ w2.
  rewrite prog_assoc. apply prog_bind_ext. intros _ w3. by rewrite prog_ret_l.
Qed.

Lemma subscriber_finishes out c session s_session w :
  tally_reset out c (first_frame 5 w) → allocs 4 w → calls 5 w →
  (∀ l f, tally_reset out c f → runs l f (session (Some l)) s_session (counted c f)) →
  finishes (counted c (first_frame 5 w)) (s_subscriber_main s_session (first_session w))
    (subscriber_main session w).
Proof.
  intros Hc Ha Hs Hsession. rewrite subscriber_main_connection.
  apply (connection_finishes 5); [intros Q HQ; by apply wp_tcp_connect|].
  intros l. unfold s_subscriber_main. eapply runs_step; [apply steady_printf_all|intros _].
  eapply runs_bind; [by apply Hsession|]. intros x n f' Hf'. apply runs_ret.
  destruct Hf' as (f1 & u & Hn & ->). rewrite Nat.add_0_r. by exists f1, u.
Qed.

(** C20: the two subscribing programs, from [main] to the end: they subscribe,
    hand every message of the stream to their callback, which prints it, counts it in static
    memory, unsubscribes after the tenth and makes [emq_process] return; what they print is, in
    order, what [main] and the callbacks print; they disconnect, and leave the memory as it was but
    for the counter and the blocks leaked by a subscription that ran out of memory. *)
Theorem subscribers_finish out c r1 r2 w :
  tally_reset out c (first_frame 5 w) → allocs 4 w → calls 5 w →
  finishes (counted c (first_frame 5 w))
    (s_subscriber_main (s_queue_session r1) (first_session w))
    (subscriber_main (queue_session out c r1) w) ∧
  finishes (counted c (first_frame 5 w))
    (s_subscriber_main (s_channel_session r1 r2) (first_session w))
    (subscriber_main (channel_session out c r1 r2) w).
Proof.
  intros Hc Ha Hs. split; (apply (subscriber_finishes out); [done..|]).
  - intros l f. apply runs_queue_session.
  - intros l f. apply runs_channel_session.
Qed.

(** A server that accepts the commands and then delivers ten messages. *)
Definition hello : list byte := c_bytes (str TEST_MESSAGE).
Definition delivering (commands : list api_call) (event : list byte) : sock :=
  mk_sock (((λ call, RdData (response_header_bytes (success_reply call))) <$> commands) ++
    replicate 10 (RdData event)) [] [].
Definition subscriber_world (sk : sock) : world :=
  mk_world (<[2%positive := inject (mk_stream [])]> {[1%positive := counter_cells 0]}) [] ∅ [] [sk].

Definition queue_server : world :=
  subscriber_world (delivering
    [Auth [] []; QueueCreate [] 0 0 0; QueueDeclare []; QueueSubscribe [] 0]
    (queue_event (array_of 64 queue_test) hello)).
Definition channel_server : world :=
  subscriber_world (delivering [Auth [] []; ChannelCreate [] 0; ChannelPsubscribe [] []]
    (channel_event (array_of 64 channel_test) (array_of 32 (str "world.belarus.minsk"))
       (Some (array_of 32 belarus)) hello)).

(** The program returned 0 after the whole stream, without a subscription left, having printed
    [events] after [before] lines, and one line after them. *)
Definition all_received (a : answer (list printed * nat * (Z + Z))) (before : nat)
    (events : list printed) : Prop :=
  match a with
  | Answer (o, n, inl r) s =>
      n = O ∧ r = 0 ∧ ss_rx s = [] ∧ ss_queues s = [] ∧ ss_channels s = [] ∧
      drop before o = events ++ drop (before + length events) o ∧
      length o = (before + length events + 1)%nat
  | _ => False
  end.

Definition queue_events : list printed :=
  replicate 10 (print_line (queue_event_line hello (array_of 64 queue_test))) ++
  [print_line queue_end_line].
Definition channel_events : list printed :=
  replicate 10 (print_line (channel_event_line hello (array_of 64 channel_test)
    (array_of 32 belarus) (array_of 32 (str "world.belarus.minsk")))) ++
  [print_line channel_end_line].

Lemma subscribers_finish_witness :
  finishes (counted 1%positive (first_frame 5 queue_server))
    (s_subscriber_main (s_queue_session 0) (first_session queue_server))
    (subscriber_main (queue_session 2%positive 1%positive 0) queue_server) ∧
  all_received (s_subscriber_main (s_queue_session 0) (first_session queue_server)) 7 queue_events ∧
  finishes (counted 1%positive (first_frame 5 channel_server))
    (s_subscriber_main (s_channel_session 0 0) (first_session channel_server))
    (subscriber_main (channel_session 2%positive 1%positive 0 0) channel_server) ∧
  all_received (s_subscriber_main (s_channel_session 0 0) (first_session channel_server)) 6
    channel_events.
Proof.
  split; [|split; [|split]].
  - refine (proj1 (subscribers_finish 2%positive 1%positive 0 0 queue_server _ (Forall_nil_2 _)
      (Forall_nil_2 _))). by split.
  - vm_compute. repeat split; reflexivity.
  - refine (proj2 (subscribers_finish 2%positive 1%positive 0 0 channel_server _ (Forall_nil_2 _)
      (Forall_nil_2 _))). by split.
  - vm_compute. repeat split; reflexivity.
Defined.

(** ** The workers *)

(** The line that a worker prints once it is connected. *)
Definition worker_line : line :=
  (YELLOW "[Success]" +:+ ln " [Worker] Connected to %s:%d",
   [AText ADDR; AInt EMQ_DEFAULT_PORT]).

Definition queue_worker_session (client msg : ptr) : Prog unit :=
  say worker_line;;
  checked "[Worker] Auth" (emq_auth client (str "eagle") (str "eagle"));;
  checked "[Worker] Queue declare" (emq_queue_declare client queue_test);;
  for_loop MESSAGES (checked "[Worker] Queue push" (emq_queue_push client queue_test msg)).

Definition channel_worker_session (client msg : ptr) : Prog unit :=
  say worker_line;;
  checked "[Worker] Auth" (emq_auth client (str "eagle") (str "eagle"));;
  for_loop (MESSAGES / 2) (
    checked "[Worker] Channel publish"
      (emq_channel_publish client channel_test (str "world.russia.moscow") msg);;
    checked "[Worker] Channel publish"
      (emq_channel_publish client channel_test (str "world.belarus.minsk") msg)).

(** [worker] of both programs, by what it does with the connection; [test_message] is the
    location of the literal [TEST_MESSAGE]. *)
Definition worker (test_message : loc) (session : ptr → ptr → Prog unit) : Prog unit :=
  client ← lift (emq_tcp_connect ADDR EMQ_DEFAULT_PORT);
  msg ← lift (emq_msg_create (Some test_message) (strlenz (str TEST_MESSAGE)) EMQ_ZEROCOPY_ON);
  match client with
  | Some _ =>
      session client msg;;
      lift (emq_disconnect client);;
      lift (emq_msg_release msg)
  | None =>
      say unconnected_line;;
      lift (emq_msg_release msg)
  end.

(** Sending the message, and the report of its status. *)
Definition s_delivered (text : string) (call : api_call) (payload : list byte) : SProg unit :=
  status ← s_lift (s_push call payload (Z.of_nat (length hello)));
  s_CHECK_STATUS text status.

Definition s_queue_worker_session : SProg unit :=
  s_say worker_line;;
  s_checked "[Worker] Auth" (Auth (str "eagle") (str "eagle"));;
  s_checked "[Worker] Queue declare" (QueueDeclare queue_test);;
  s_for_loop MESSAGES
    (s_delivered "[Worker] Queue push" (QueuePush queue_test (4 + Z.of_nat (length hello)))
       (le_bytes 4 0 ++ hello)).

Definition s_channel_worker_session : SProg unit :=
  s_say worker_line;;
  s_checked "[Worker] Auth" (Auth (str "eagle") (str "eagle"));;
  s_for_loop (MESSAGES / 2) (
    s_delivered "[Worker] Channel publish"
      (ChannelPublish channel_test (str "world.russia.moscow") (Z.of_nat (length hello))) hello;;
    s_delivered "[Worker] Channel publish"
      (ChannelPublish channel_test (str "world.belarus.minsk") (Z.of_nat (length hello))) hello).

Definition hello_msg (d : loc) : emq_msg :=
  mk_msg (Some d) (strlenz (str TEST_MESSAGE)) 0 0 (Some EMQ_ZEROCOPY_ON).

Section workers.
Context (l d p : loc) (f : frame) (Hp : msg_at (fr_heap f) p (hello_msg d) hello).
Hint Resolve steady_say steady_CHECK_STATUS steady_checked : programs.

Lemma steady_delivered text m call payload :
  push_call call (Z.of_nat (length hello)) = Some m →
  push_payload call (hello_msg d) hello = payload →
  steady l f (checked text (m (Some l) (Some p))) (s_delivered text call payload).
Proof.
  intros Hm <-. apply steady_bind; [|eauto with programs].
  exact (steady_push l call m p (hello_msg d) hello f Hm Hp ltac:(by vm_compute)).
Qed.

Lemma steady_queue_worker :
  steady l f (queue_worker_session (Some l) (Some p)) s_queue_worker_session.
Proof.
  unfold queue_worker_session, s_queue_worker_session, steady. run. apply steady_for.
  exact (steady_delivered "[Worker] Queue push" (λ c m, emq_queue_push c queue_test m)
    (QueuePush queue_test (4 + Z.of_nat (length hello))) (le_bytes 4 0 ++ hello) eq_refl eq_refl).
Qed.

Lemma steady_channel_worker :
  steady l f (channel_worker_session (Some l) (Some p)) s_channel_worker_session.
Proof.
  unfold channel_worker_session, s_channel_worker_session, steady. run. apply steady_for.
  apply steady_bind; [|intros _].
  - exact (steady_delivered "[Worker] Channel publish"
      (λ c m, emq_channel_publish c channel_test (str "world.russia.moscow") m)
      (ChannelPublish channel_test (str "world.russia.moscow") (Z.of_nat (length hello))) hello
      eq_refl eq_refl).
  - exact (steady_delivered "[Worker] Channel publish"
      (λ c m, emq_channel_publish c channel_test (str "world.belarus.minsk") m)
      (ChannelPublish channel_test (str "world.belarus.minsk") (Z.of_nat (length hello))) hello
      eq_refl eq_refl).
Qed.
End workers.

(** A worker ends with its message released and its connection closed. *)
Lemma worker_restores d session s_session w :
  literal d TEST_MESSAGE (first_frame 5 w) → allocs 5 w → calls 5 w →
  (∀ l p f, msg_at (fr_heap f) p (hello_msg d) hello →
    steady l f (session (Some l) (Some p)) s_session) →
  match s_session (allocated 1 (first_session w)) with
  | Answer (o, _, inl _) _ =>
      ∃ w', worker d session w = Returns (o, inl tt) w' ∧ is_frame (first_frame 5 w) w'
  | Answer (o, _, inr code) _ => ∃ w', worker d session w = Returns (o, inr code) w'
  | Starved => ∃ w', worker d session w = Blocks w'
  | Unspecified => True
  end.
Proof.
  intros Hd Ha Hs Hsession.
  destruct (proj1 (wp_returns (emq_tcp_connect ADDR EMQ_DEFAULT_PORT)
    (λ y w', ∃ l, y = Some l ∧ connected 5 w l w') w)) as (y & w1 & Hw1 & l & -> & Hc).
  { apply wp_tcp_connect; [|done|eauto]. by apply (allocs_le 4 5); [lia|]. }
  destruct (msg_create_rep l _ _ w1 d (strlenz (str TEST_MESSAGE)) Hc) as (p & w2 & f2 & Hw2 & Hr2 & Hp).
  { by apply (allocs_nth 4). }
  assert (msg_at (fr_heap f2) p (hello_msg d) hello) as Hm.
  { eapply (holds_msg p _ _ f2 d hello []); [exact Hp|done|done|]. rewrite app_nil_r. exact Hd. }
  pose proof (disconnect_finishes l f2 _ _ _ _ w2 (Hsession l p f2 Hm) Hr2) as Hf.
  unfold worker. rewrite (lift_step _ _ _ _ _ Hw1), (lift_step _ _ _ _ _ Hw2).
  unfold finishes in Hf.
  assert ((session (Some l) (Some p);; lift (emq_disconnect (Some l));;
      lift (emq_msg_release (Some p))) w2 =
    ((x ← session (Some l) (Some p); lift (emq_disconnect (Some l));; mret x) ≫= λ _,
      lift (emq_msg_release (Some p))) w2) as ->.
  { rewrite prog_assoc. apply prog_bind_ext. intros [] w3.
    rewrite prog_assoc. apply prog_bind_ext. intros [] w4. by rewrite prog_ret_l. }
  destruct (s_session _) as [[[o n] [[]|code]] s'| |]; [| | |done].
  - destruct Hf as (f3 & Hw3 & [-> ->]). eexists. split; [|apply is_frame_world_of].
    rewrite <-(app_nil_r o). by eapply prog_returns, lift_returns, msg_release_frame.
  - destruct Hf as (w3 & Hw3). exists w3. by apply prog_exits.
  - destruct Hf as (w3 & Hw3). exists w3. by apply prog_blocks.
Qed.

(** C38: connected to a server, a worker authenticates, sends its message the ten
    times and reports every status; whatever the server answers, it then disconnects and
    releases its message, and leaves memory and sockets as they were. *)
Theorem workers_restore d w :
  literal d TEST_MESSAGE (first_frame 5 w) → allocs 5 w → calls 5 w →
  (∀ o n s', s_queue_worker_session (allocated 1 (first_session w)) = Answer (o, n, inl tt) s' →
    ∃ w', worker d queue_worker_session w = Returns (o, inl tt) w' ∧
      is_frame (first_frame 5 w) w') ∧
  (∀ o n s', s_channel_worker_session (allocated 1 (first_session w)) = Answer (o, n, inl tt) s' →
    ∃ w', worker d channel_worker_session w = Returns (o, inl tt) w' ∧
      is_frame (first_frame 5 w) w').
Proof.
  intros Hd Ha Hs. split; intros o n s' He.
  - pose proof (worker_restores d queue_worker_session s_queue_worker_session w Hd Ha Hs) as Hw.
    rewrite He in Hw. apply Hw. intros l p f. apply steady_queue_worker.
  - pose proof (worker_restores d channel_worker_session s_channel_worker_session w Hd Ha Hs) as Hw.
    rewrite He in Hw. apply Hw. intros l p f. apply steady_channel_worker.
Qed.

(** A server that accepts everything a worker of the queue does. *)
Definition accepting_server : world :=
  mk_world {[1%positive := inject (Some <$> hello : buffer)]} [] ∅ []
    [mk_sock ((λ call, RdData (response_header_bytes (success_reply call))) <$>
      ([Auth [] []; QueueDeclare []] ++ replicate 10 (QueuePush [] 0))) [] []].

Lemma workers_restore_witness :
  ∃ w', worker 1%positive queue_worker_session accepting_server =
      Returns (mk_printed (worker_line.1) (shown <$> worker_line.2) ::
        ((λ text, mk_printed (GREEN "[Success]" +:+ ln " %s") [AStr (str text)]) <$>
          (["[Worker] Auth"%string; "[Worker] Queue declare"%string] ++
           replicate 10 "[Worker] Queue push"%string)), inl tt) w' ∧
    is_frame (first_frame 5 accepting_server) w'.
Proof.
  refine (proj1 (workers_restore 1%positive accepting_server eq_refl (Forall_nil_2 _)
    (Forall_nil_2 _)) _ O _ _). vm_compute. reflexivity.
Defined.
