(* ===== verification/Served.v ===== *)
(** The subscribing programs of [src/src/examples/] with a server that acknowledges their commands
    and then delivers whole messages: the handlers and the callbacks cope with every one of them, so
    that the programs are never undefined. *)

From S2P Require Import Prelude Types Machine Lists Network Protocol Client Session Packet Commands.
From S2P Require Import Messages Queries Listings Subscriptions Kept Process Connection Sample Program.
From S2P Require Import Typing Specified Simple Subscribers.

(** ** Sockets that take what they are given *)

Definition accepting (wr : list wr_event) : Prop := Forall (λ e, ∃ n, e = WrAccept n) wr.

Lemma deliver_accepting wr bs :
  accepting wr → (deliver wr bs).1.1 ≠ Failed ∧ accepting (deliver wr bs).2.
Proof.
  intros Hwr. revert bs. induction Hwr as [|e wr [n ->] Hwr IH]; intros [|b bs]; simpl;
    try (split; [done|by constructor; eauto]).
  destruct (n `min` S (length bs))%nat as [|m]; [done|].
  destruct (IH (drop m bs)) as [Hs Ha]. by destruct (deliver _ _) as [[s d] wr'].
Qed.

(** ** Waiting for replies

    After [k] more replies, which may be of any content, or missing, the stream is as [Q] says. *)
Fixpoint after_replies (k : nat) (Q : list rx_item → Prop) (items : list rx_item) : Prop :=
  match k with
  | O => Q items
  | S k =>
      match take_rx 8 items with
      | TkGot _ rest | TkFail rest => after_replies k Q rest
      | TkStarved => True
      end
  end.

Lemma after_replies_app k Q bs items :
  length bs = (8 * k)%nat → Q items → after_replies k Q ((RxByte <$> bs) ++ items).
Proof.
  intros Hbs HQ. revert bs Hbs. induction k as [|k IH]; intros bs Hbs.
  - by apply nil_length_inv in Hbs as ->.
  - cbn [after_replies]. rewrite <-(take_drop 8 bs), fmap_app, <-app_assoc, take_rx_exact
      by (rewrite length_take; lia). apply IH. rewrite length_drop. lia.
Qed.

Section waiting.
Context (Q : list rx_item → Prop).

(** The replies to [k] commands are to come, to a client with these subscriptions. *)
Record awaiting (k : nat) (queues : list emq_queue_subscription)
    (channels : list emq_channel_subscription) (s : session) : Prop := {
  awaiting_noack : ss_noack s = 0;
  awaiting_wr : accepting (ss_wr s);
  awaiting_rx : after_replies k Q (ss_rx s);
  awaiting_queues : ss_queues s = queues;
  awaiting_channels : ss_channels s = channels;
}.

(** A command that can be encoded takes one reply, whether it succeeds or not. *)
Lemma answers_exchange {A} call check (r : A) a k queues channels P s :
  awaiting (S k) queues channels s → is_Some (encode 0 call) →
  (∀ s', awaiting k queues channels s' → answers_with P a s') →
  (∀ s', awaiting k queues channels s' → P r s') →
  answers_with P (s_transmit deliver call [] r (s_acknowledged check r a)) s.
Proof using.
  intros [Hn Hw Hr Hq Hc] [bs Hbs] Ha Hfail. apply answers_get. rewrite Hn, Hbs. apply answers_bind. unfold answers_with at 1, s_send.
  destruct (deliver_accepting (ss_wr s) (bs ++ []) Hw) as [Hd Hw'].
  destruct (deliver (ss_wr s) (bs ++ [])) as [[d tx] wr]. cbn [fst snd] in Hd, Hw'.
  set (s1 := set_ss_wr wr (set_ss_tx (ss_tx s ++ tx) s)).
  assert (∀ rest, after_replies k Q rest → awaiting k queues channels (set_ss_rx rest s1)) as Hs1.
  { intros rest Hrest. by constructor. }
  cbn [after_replies] in Hr.
  assert (answers_with P (s_acknowledged check r a) s1) as Hack.
  { apply answers_get. rewrite decide_True by exact Hn. unfold s_expect. apply answers_recv; cbn [ss_rx s1].
    - intros got rest Ht. change (ss_rx s1) with (ss_rx s) in Ht. rewrite Ht in Hr.
      unfold s_examine.
      case_decide; [by apply Hfail; destruct (Hs1 rest Hr)|].
      case_decide; [by apply Ha, Hs1|by apply Hfail; destruct (Hs1 rest Hr)].
    - intros rest Ht. change (ss_rx s1) with (ss_rx s) in Ht. rewrite Ht in Hr.
      by apply Hfail; destruct (Hs1 rest Hr). }
  destruct d; [exact Hack|exact Hack|done].
Qed.

Lemma awaiting_succeed {A} (r : A) k queues channels (P : A → session → Prop) s :
  awaiting k queues channels s → (∀ s', awaiting k queues channels s' → P r s') →
  answers_with P (s_succeed r) s.
Proof using. intros [] HP. by apply HP. Qed.

Lemma answers_command call k queues channels s :
  awaiting (S k) queues channels s → is_Some (encode 0 call) →
  answers_with (λ _, awaiting k queues channels) (s_command call) s.
Proof using.
  intros Hs Hcall. apply answers_put. apply (answers_exchange _ _ _ _ k queues channels); [|done| |done].
  - by destruct Hs.
  - intros s' Hs'. by eapply awaiting_succeed.
Qed.
End waiting.

(** ** The callbacks of the programs *)

(** What the callbacks print are C strings, and the counter does not overflow. *)
Definition printable (id : nat) (name : list byte) (topic pattern : option (list byte))
    (bs : list byte) : Prop :=
  NUL ∈ bs ∧ NUL ∈ name ∧
  match id with
  | 0%nat => True
  | 1%nat => ∃ t p, topic = Some t ∧ pattern = Some p ∧ NUL ∈ t ∧ NUL ∈ p
  | _ => False
  end.

Definition countable (k : nat) (u : tally) : Prop := 0 ≤ u.1 ∧ u.1 + Z.of_nat k < 2 ^ 31.

Lemma others_subseteq {T} `{Slot T} name xs : others name xs ⊆ xs.
Proof. intros x. unfold others. rewrite list_elem_of_filter. tauto. Qed.

(** With acknowledgements disabled, unsubscribing leaves the stream alone. *)
Lemma answers_unsubscribe_noack {T} `{Slot T} call cmd name s :
  ss_noack s = 1 →
  (∀ s, ss_rx (slot_set (others name (slot_get s)) s) = ss_rx s ∧
    narrows s (slot_set (others name (slot_get s)) s)) →
  answers_with (λ _ s', ss_rx s' = ss_rx s ∧ narrows s s') (s_unsubscribe T call cmd name) s.
Proof.
  intros Hn Hset. apply answers_put, answers_get. change (ss_noack _) with (ss_noack s). rewrite Hn.
  case_match; [|done]. apply answers_bind. unfold answers_with at 1, s_send.
  destruct (deliver _ _) as [[d tx] wr]. set (s1 := set_ss_wr wr _).
  assert (answers_with (λ _ s', ss_rx s' = ss_rx s ∧ narrows s s')
    (s_acknowledged (empty_reply cmd) EMQ_STATUS_ERR (
       s_put (λ s, slot_set (others name (slot_get s)) s);; s_succeed EMQ_STATUS_OK)) s1) as Hack.
  { apply answers_get. rewrite decide_False by (change (ss_noack s1) with (ss_noack s); by rewrite Hn).
    apply answers_put. exact (Hset s1). }
  destruct d; [exact Hack|exact Hack|done].
Qed.

Lemma narrows_others_queues name s :
  narrows s (slot_set (T := emq_queue_subscription) (others name (slot_get s)) s).
Proof. split; [apply others_subseteq|done]. Qed.

Lemma narrows_others_channels name s :
  narrows s (slot_set (T := emq_channel_subscription) (others name (slot_get s)) s).
Proof. split; [done|apply others_subseteq]. Qed.

Lemma counted_calm event last (unsubscribe : Spec Z) k u s :
  Forall terminated event.2 → countable (S k) u →
  (∀ s, ss_noack s = 1 → answers_with (λ _ s', ss_rx s' = ss_rx s ∧ narrows s s') unsubscribe s) →
  answers_with (λ x s', x.1 ≠ 0 ∧ ss_queues s' = [] ∨
      ss_rx s' = ss_rx s ∧ narrows s s' ∧ countable k x.2)
    (s_counted event last unsubscribe u) s.
Proof.
  destruct u as [n o]. unfold countable. cbn [fst]. intros Hev Hn Hun. unfold s_counted.
  rewrite decide_True by (split; [done|lia]). case_decide.
  - apply answers_put, answers_bind. eapply answers_mono; [by apply Hun|].
    intros _ s' [Hrx Hs']. apply answers_put. right. split; [exact Hrx|]. split; [exact Hs'|].
    cbn [fst snd]. lia.
  - right. split_and!; [done| | |]; cbn [fst snd]; [done|lia..].
Qed.

Lemma callbacks_calm : calm s_callbacks printable countable.
Proof.
  intros [|[|id]] type name topic pattern bs k u s (Hbs & Hname & Hid) Hu; [| |done].
  - apply counted_calm; [by repeat constructor|done|]. intros s' Hs'.
    apply answers_unsubscribe_noack; [done|]. intros s2. split; [done|apply narrows_others_queues].
  - destruct Hid as (t & p & -> & -> & Ht & Hp).
    apply counted_calm; [by repeat constructor|done|]. intros s' Hs'.
    apply answers_unsubscribe_noack; [done|]. intros s2. split; [done|apply narrows_others_channels].
Qed.

(** ** The sessions of the programs *)

(** A whole event message whose texts are C strings. *)
Definition text_event (ev : event) : Prop :=
  wf_event ev ∧
  match ev with
  | QueueMessage _ bs => NUL ∈ bs
  | ChannelMessage _ topic pattern bs =>
      NUL ∈ bs ∧ NUL ∈ topic ∧ ∃ p, pattern = Some p ∧ NUL ∈ p
  end.

(** Whole messages, after which the stream ends, breaks, or goes on with what is no event. *)
Definition deliveries (items : list rx_item) : Prop := ∃ evs rest,
  Forall text_event evs ∧ Z.of_nat (length evs) < 2 ^ 31 ∧
  (∀ bs rest', take_rx 8 rest = TkGot bs rest' → ¬ known_event (read_event_header bs)) ∧
  items = (RxByte <$> concat (event_bytes <$> evs)) ++ rest.

(** The subscriptions of the programs. *)
Definition queue_subscription : emq_queue_subscription :=
  mk_queue_subscription (array_of 64 queue_test) (Some 0%nat).
Definition channel_subscription : emq_channel_subscription :=
  mk_channel_subscription (array_of 64 channel_test) (array_of 32 belarus) (Some 1%nat).

Lemma text_event_expected queues channels ev s :
  awaiting deliveries 0 queues channels s →
  queues ⊆ [queue_subscription] → channels ⊆ [channel_subscription] →
  text_event ev → expected printable ev s.
Proof.
  intros [_ _ _ Hq Hc] Hqs Hcs [_ Hev].
  destruct ev as [name bs|name topic pattern bs]; simpl in *; intros x Hx.
  - rewrite Hq in Hx. apply Hqs, list_elem_of_singleton in Hx as ->. exists 0%nat.
    split; [done|]. split; [done|]. split; [|done]. by apply (bool_decide_unpack _).
  - rewrite Hc in Hx. apply Hcs, list_elem_of_singleton in Hx as ->.
    destruct Hev as (Hbs & Ht & p & -> & Hp). exists 1%nat.
    split; [done|]. split; [done|]. split; [by apply (bool_decide_unpack _)|]. by exists topic, p.
Qed.

Lemma specified_printing queues channels s :
  awaiting deliveries 0 queues channels s →
  queues ⊆ [queue_subscription] → channels ⊆ [channel_subscription] →
  specified (s_printing (s_process s_callbacks (0, []))) s.
Proof.
  intros Hs Hq Hc. apply specified_bind; [|done]. apply (specified_process s_callbacks printable countable).
  { apply callbacks_calm. }
  destruct (awaiting_rx _ _ _ _ _ Hs) as (evs & rest & Hevs & Hlen & Hrest & Hrx).
  exists evs, rest. split_and!; [|unfold countable; simpl; lia|done|done].
  intros ev Hin. rewrite Forall_forall in Hevs. specialize (Hevs ev Hin).
  split; [by destruct Hevs|]. by eapply text_event_expected.
Qed.

(** A step of a program, after which the rest is specified. *)
Lemma specified_step {A B} (P : session → Prop) (a : SProg A) (k : A → SProg B) s :
  answers_with (λ _, P) a s → (∀ x s', P s' → specified (k x) s') → specified (a ≫= k) s.
Proof.
  intros Ha Hk. apply answers_bind. eapply answers_mono; [exact Ha|].
  intros [[o n] [x|code]] s' HP; [|done]. apply answers_bind. eapply answers_mono; [by apply Hk|].
  by intros [[o' n'] r'] s'' _.
Qed.

Section sessions.
Context (Q : list rx_item → Prop).

(** The report of a status leaves the session alone. *)
Lemma answers_CHECK_STATUS text status (P : session → Prop) s :
  P s → answers_with (λ _, P) (s_CHECK_STATUS text status) s.
Proof using. intros HP. unfold s_CHECK_STATUS, s_printf. case_decide; rewrite decide_True; print_texts; auto. Qed.

Lemma answers_prog_bind {A B} (P : session → Prop) (a : SProg A) (k : A → SProg B) s :
  answers_with (λ x s', match x.2 with
    | inl y => answers_with (λ _, P) (k y) s'
    | inr _ => P s'
    end) a s → answers_with (λ _, P) (a ≫= k) s.
Proof using.
  intros Ha. apply answers_bind. eapply answers_mono; [exact Ha|].
  intros [[o n] [x|code]] s' Hs'; [|exact Hs']. apply answers_bind. eapply answers_mono; [exact Hs'|].
  by intros [[o' n'] r'] s'' ?.
Qed.

Lemma specified_checked {A} text call k queues channels (rest : unit → SProg A) s :
  awaiting Q (S k) queues channels s → is_Some (encode 0 call) →
  (∀ s', awaiting Q k queues channels s' → specified (rest tt) s') →
  specified (s_checked text call ≫= rest) s.
Proof using.
  intros Hs Hcall Hk. eapply specified_step; [|intros [] s' Hs'; by apply Hk].
  apply answers_prog_bind, answers_bind. eapply answers_mono; [by eapply (answers_command Q)|].
  intros status s' Hs'. by apply answers_CHECK_STATUS.
Qed.

Lemma answers_subscribe {T} `{Slot T} call (x : T) id k s (P : session → Prop) :
  awaiting Q (S k) [] [] s → is_Some (encode 0 call) →
  (∀ s' : session, awaiting Q k [] [] s' → P s') →
  (∀ s' : session, awaiting Q k [] [] s' →
    slot_get s' = [] ∧ P (set_ss_status EMQ_STATUS_OK (slot_set (x :: slot_get s') s'))) →
  answers_with (λ _, P) (s_subscribe call (Some id) x) s.
Proof using.
  intros Hs Hcall Hsame Hput.
  apply answers_put. eapply (answers_exchange Q); [by destruct Hs|done| |auto].
  intros s' Hs'. apply answers_malloc. case_match; [by apply Hsame; destruct Hs'|].
  apply answers_get. rewrite decide_True.
  - apply answers_malloc. case_match; [|by apply Hsame; destruct Hs'].
    apply answers_put. set (s2 := set_ss_mallocs _ _).
    assert (awaiting Q k [] [] s2) as Hs2 by (by destruct Hs'). by destruct (Hput s2 Hs2).
  - rewrite slot_get_mallocs. by destruct (Hput s' Hs') as [-> _].
Qed.
End sessions.

(** A client whose only subscription, if any, is that of the program. *)
Definition listening (s : session) : Prop := ∃ queues channels,
  awaiting deliveries 0 queues channels s ∧
  queues ⊆ [queue_subscription] ∧ channels ⊆ [channel_subscription].

Lemma listening_unsubscribed s : awaiting deliveries 0 [] [] s → listening s.
Proof. intros Hs. exists [], []. split_and!; [done|apply list_subseteq_nil..]. Qed.

Lemma specified_listening s :
  listening s → specified (s_printing (s_process s_callbacks (0, []))) s.
Proof. intros (queues & channels & Hs & Hq & Hc). by eapply specified_printing. Qed.

Lemma specified_processed text s : listening s → specified (s_processed text) s.
Proof.
  intros Hs. apply specified_prog_bind; [by apply specified_listening|].
  intros. unfold s_CHECK_STATUS. specify.
Qed.

(** The subscriptions of the programs. *)
Lemma answers_queue_subscribed s :
  awaiting deliveries 1 [] [] s →
  answers_with (λ _, listening) (s_subscribe (QueueSubscribe queue_test EMQ_QUEUE_SUBSCRIBE_MSG)
    (Some 0%nat) queue_subscription) s.
Proof.
  intros Hs. eapply (answers_subscribe deliveries); [exact Hs|by vm_compute; eauto|..].
  - apply listening_unsubscribed.
  - intros s' [Hn Hw Hr Hq Hc]. change (slot_get s') with (ss_queues s'). rewrite Hq. split; [done|].
    exists [queue_subscription], []. by split_and!; [constructor|..|apply list_subseteq_nil].
Qed.

Lemma answers_channel_subscribed s :
  awaiting deliveries 1 [] [] s →
  answers_with (λ _, listening) (s_subscribe (ChannelPsubscribe channel_test belarus)
    (Some 1%nat) channel_subscription) s.
Proof.
  intros Hs. eapply (answers_subscribe deliveries); [exact Hs|by vm_compute; eauto|..].
  - apply listening_unsubscribed.
  - intros s' [Hn Hw Hr Hq Hc]. change (slot_get s') with (ss_channels s'). rewrite Hc. split; [done|].
    exists [], [channel_subscription]. by split_and!; [constructor|apply list_subseteq_nil|].
Qed.

Lemma specified_subscribed {A T} `{Slot T} text call (x : T) id s (P : session → Prop)
    (rest : unit → SProg A) :
  answers_with (λ _, P) (s_subscribe call (Some id) x) s →
  (∀ s', P s' → specified (rest tt) s') → specified (s_subscribed text call (Some id) x ≫= rest) s.
Proof.
  intros Hs Hk. eapply specified_step; [|intros [] s' Hs'; by apply Hk].
  apply answers_prog_bind, answers_bind, answers_bind. eapply answers_mono; [exact Hs|].
  intros [r lost] s' Hs'. by apply answers_CHECK_STATUS.
Qed.

Lemma specified_init_worker {A} r (k : unit → SProg A) s :
  specified (k tt) s → specified (s_init_worker r ≫= k) s.
Proof.
  intros Hk. eapply (specified_step (λ s', s' = s)); [|by intros [] ? ->].
  unfold s_init_worker. by case_decide.
Qed.

Lemma specified_say {A} x (k : unit → SProg A) s :
  Forall terminated x.2 → specified (k tt) s → specified (s_say x ≫= k) s.
Proof.
  intros Hx Hk. eapply (specified_step (λ s', s' = s)); [|by intros [] ? ->].
  unfold s_say, s_printf. by rewrite decide_True.
Qed.

Ltac next_command :=
  match goal with Hs : awaiting _ _ _ _ ?s |- _ =>
    eapply specified_checked; [exact Hs|by vm_compute; eauto|clear s Hs; intros s Hs]
  end.

Lemma specified_queue_session r s :
  awaiting deliveries 4 [] [] s → specified (s_queue_session r) s.
Proof.
  intros Hs. unfold s_queue_session. apply specified_say; [print_texts|].
  do 3 next_command.
  eapply specified_subscribed; [by apply answers_queue_subscribed|].
  intros s' Hs'. apply specified_init_worker. by apply specified_processed.
Qed.

Lemma specified_channel_session r1 r2 s :
  awaiting deliveries 3 [] [] s → specified (s_channel_session r1 r2) s.
Proof.
  intros Hs. unfold s_channel_session. apply specified_say; [print_texts|].
  do 2 next_command.
  eapply specified_subscribed; [by apply answers_channel_subscribed|].
  intros s' Hs'. do 2 apply specified_init_worker. by apply specified_processed.
Qed.

Lemma specified_subscriber_main session s :
  specified session s → specified (s_subscriber_main session) s.
Proof.
  intros Hs. eapply (specified_step (λ s', s' = s)); [by vm_compute|].
  intros [] ? ->. by apply specified_prog_bind.
Qed.

(** The server replies to the first [k] commands, then sends whole messages; the socket takes what
    it is given. *)
Definition served (k : nat) (sk : sock) : Prop :=
  accepting (sk_wr sk) ∧ after_replies k deliveries (flatten (sk_rx sk)).

Lemma served_awaiting k w :
  served k (next_sock w) → awaiting deliveries k [] [] (first_session w).
Proof. by intros []. Qed.

(** A program that ends, or waits for the server for ever. *)
Definition never_undefined {A} (out : outcome A) : Prop :=
  (∃ x w', out = Returns x w') ∨ ∃ w', out = Blocks w'.

Lemma finishes_never_undefined {A} R (a : SProg A) s out :
  finishes R (a s) out → specified a s → never_undefined out.
Proof.
  unfold finishes, specified, answers_with.
  destruct (a s) as [[[o n] [x|code]] s'| |].
  - intros (f & -> & _) _. left. eauto.
  - intros (w & ->) _. left. eauto.
  - intros (w & ->) _. right. eauto.
  - done.
Qed.

(** The two subscribing programs are never undefined with a server that replies to their
    commands - with anything: acceptance, refusal, or what is no reply - and then sends any number
    of whole event messages below 2^31, whose texts are terminated. The messages may be for
    subscriptions that the program does not have, may arrive in any pieces, go on after the program
    has unsubscribed, and end in what is no event; memory may run out after the connection. *)
Fact subscribers_never_undefined out c r1 r2 w :
  tally_reset out c (first_frame 5 w) → allocs 4 w → calls 5 w →
  (served 4 (next_sock w) → never_undefined (subscriber_main (queue_session out c r1) w)) ∧
  (served 3 (next_sock w) → never_undefined (subscriber_main (channel_session out c r1 r2) w)).
Proof.
  intros Hc Ha Hs. split; intros Hserved%served_awaiting.
  - eapply finishes_never_undefined;
      [|by apply specified_subscriber_main, (specified_queue_session r1)].
    apply (subscriber_finishes out c); [done..|]. intros l f. apply runs_queue_session.
  - eapply finishes_never_undefined;
      [|by apply specified_subscriber_main, (specified_channel_session r1 r2)].
    apply (subscriber_finishes out c); [done..|]. intros l f. apply runs_channel_session.
Qed.

(** Replies, and messages of the same kind. *)
Lemma served_stream wr replies ev n rest rx :
  accepting wr → text_event ev → Z.of_nat n < 2 ^ 31 → take_rx 8 rest = TkFail [] →
  flatten rx = (RxByte <$> concat (response_header_bytes <$> replies)) ++
    (RxByte <$> concat (event_bytes <$> replicate n ev)) ++ rest →
  served (length replies) (mk_sock rx wr []).
Proof.
  intros Hwr Hev Hn Hrest Hrx. split; [done|]. simpl. rewrite Hrx. apply after_replies_app.
  - clear. induction replies as [|r replies IH]; [done|].
    rewrite fmap_cons. cbn [concat length]. rewrite length_app, length_response_header_bytes, IH. unfold sizeof_header. lia.
  - exists (replicate n ev), rest. split_and!; [by apply Forall_replicate|by rewrite length_replicate| |done].
    intros bs rest'. by rewrite Hrest.
Qed.

(** A server that refuses to create the queue, sends two messages in pieces, and is gone; and one
    that sends messages to the channel and waits no longer. *)
Definition queue_hello : event := QueueMessage (array_of 64 queue_test) hello.
Definition channel_hello : event := ChannelMessage (array_of 64 channel_test)
  (array_of 32 (str "world.belarus.minsk")) (Some (array_of 32 belarus)) hello.
Definition rough_sock : sock :=
  let event := event_bytes queue_hello in
  mk_sock
    [RdData (response_header_bytes (success_reply (Auth [] [])));
     RdData (response_header_bytes (mk_response_header EMQ_PROTOCOL_RES EMQ_PROTOCOL_CMD_QUEUE_CREATE
       EMQ_PROTOCOL_STATUS_ERROR_MEMORY 0));
     RdData (response_header_bytes (success_reply (QueueDeclare [])) ++
       response_header_bytes (success_reply (QueueSubscribe [] 0)) ++ take 5 event);
     RdData (drop 5 event ++ event); RdErr] [WrAccept 7] [].
Definition leaving_sock : sock :=
  mk_sock (((λ call, RdData (response_header_bytes (success_reply call))) <$>
       [Auth [] []; ChannelCreate [] 0; ChannelPsubscribe [] []]) ++
     [RdData (event_bytes channel_hello); RdErr]) [] [].

Lemma rough_served : served 4 rough_sock.
Proof.
  apply (served_stream _ [success_reply (Auth [] []); mk_response_header EMQ_PROTOCOL_RES
      EMQ_PROTOCOL_CMD_QUEUE_CREATE EMQ_PROTOCOL_STATUS_ERROR_MEMORY 0;
      success_reply (QueueDeclare []); success_reply (QueueSubscribe [] 0)] queue_hello 2 [RxFail]);
    [repeat constructor; eauto| |lia|done|vm_compute; reflexivity].
  by apply (bool_decide_unpack _).
Qed.

Lemma leaving_served : served 3 leaving_sock.
Proof.
  apply (served_stream _ [success_reply (Auth [] []); success_reply (ChannelCreate [] 0);
      success_reply (ChannelPsubscribe [] [])] channel_hello 1 [RxFail]);
    [constructor| |lia|done|vm_compute; reflexivity].
  split; [by split_and!|]. split; [by apply (bool_decide_unpack _)|].
  split; [by apply (bool_decide_unpack _)|]. eexists. split; [reflexivity|].
  by apply (bool_decide_unpack _).
Qed.

Lemma subscribers_never_undefined_witness :
  never_undefined (subscriber_main (queue_session 2%positive 1%positive 0)
    (subscriber_world rough_sock)) ∧
  never_undefined (subscriber_main (channel_session 2%positive 1%positive 0 0)
    (subscriber_world leaving_sock)).
Proof.
  split.
  - refine (proj1 (subscribers_never_undefined 2%positive 1%positive 0 0 (subscriber_world rough_sock)
      _ (Forall_nil_2 _) (Forall_nil_2 _)) rough_served). by split.
  - refine (proj2 (subscribers_never_undefined 2%positive 1%positive 0 0 (subscriber_world leaving_sock)
      _ (Forall_nil_2 _) (Forall_nil_2 _)) leaving_served). by split.
Defined.
