(* ===== verification/Benchmark.v ===== *)
(** The benchmark [src/src/benchmark.c]: its configuration and command line, the message that its
    workers send, and the statistics.

    [atoi] is the function of the GNU C library. The numbers that [rand] returns after
    [srand(time(NULL))] are an argument. *)

From Stdlib Require Import Floats.SpecFloat.
From coqutil Require Import Byte.
From stdpp Require Import pretty.
From S2P Require Import Prelude Types Machine Lists Network Protocol Client Session Packet Commands.
From S2P Require Import Messages Queries Listings Subscriptions Connection Sample Program Simple.

(** ** Configuration *)

Definition DEFAULT_HOST : string := "localhost".
Definition DEFAULT_PORT : Z := 7851.
Definition DEFAULT_USER_NAME : string := "eagle".
Definition DEFAULT_USER_PASSWORD : string := "eagle".
Definition DEFAULT_EXPIRATION_TIME : Z := 0.
Definition DEFAULT_CLIENTS : Z := 50.
Definition DEFAULT_MESSAGES : Z := 100000.
Definition DEFAULT_MSG_SIZE : Z := 1000.
Definition QUEUE_NAME : cstring := str ".queue-benchmark".

Record config := mk_config {
  host : string;
  port : Z;
  unix_socket : option string;
  user_name : string;
  user_password : string;
  clients : Z;
  messages : Z;
  msg_size : Z;
  expiration : Z;
  noack : Z;
}.

Definition set_host v c := mk_config v (port c) (unix_socket c) (user_name c) (user_password c)
  (clients c) (messages c) (msg_size c) (expiration c) (noack c).
Definition set_port v c := mk_config (host c) v (unix_socket c) (user_name c) (user_password c)
  (clients c) (messages c) (msg_size c) (expiration c) (noack c).
Definition set_unix_socket v c := mk_config (host c) (port c) v (user_name c) (user_password c)
  (clients c) (messages c) (msg_size c) (expiration c) (noack c).
Definition set_user_name v c := mk_config (host c) (port c) (unix_socket c) v (user_password c)
  (clients c) (messages c) (msg_size c) (expiration c) (noack c).
Definition set_user_password v c := mk_config (host c) (port c) (unix_socket c) (user_name c) v
  (clients c) (messages c) (msg_size c) (expiration c) (noack c).
Definition set_clients v c := mk_config (host c) (port c) (unix_socket c) (user_name c)
  (user_password c) v (messages c) (msg_size c) (expiration c) (noack c).
Definition set_messages v c := mk_config (host c) (port c) (unix_socket c) (user_name c)
  (user_password c) (clients c) v (msg_size c) (expiration c) (noack c).
Definition set_msg_size v c := mk_config (host c) (port c) (unix_socket c) (user_name c)
  (user_password c) (clients c) (messages c) v (expiration c) (noack c).
Definition set_expiration v c := mk_config (host c) (port c) (unix_socket c) (user_name c)
  (user_password c) (clients c) (messages c) (msg_size c) v (noack c).
Definition set_noack v c := mk_config (host c) (port c) (unix_socket c) (user_name c)
  (user_password c) (clients c) (messages c) (msg_size c) (expiration c) v.

Definition init_config : config :=
  mk_config DEFAULT_HOST DEFAULT_PORT None DEFAULT_USER_NAME DEFAULT_USER_PASSWORD DEFAULT_CLIENTS
    DEFAULT_MESSAGES DEFAULT_MSG_SIZE DEFAULT_EXPIRATION_TIME 0.

(** ** Command line *)

(** [(int)strtol(s, NULL, 10)]: white space, a sign and digits, up to the first other character;
    [strtol] saturates to a [long]. *)
Definition is_space (c : Ascii.ascii) : bool :=
  let n := Z.of_nat (Ascii.nat_of_ascii c) in bool_decide (9 ≤ n ≤ 13 ∨ n = 32).

Definition digit (c : Ascii.ascii) : option Z :=
  let n := Z.of_nat (Ascii.nat_of_ascii c) - 48 in if decide (0 ≤ n ≤ 9) then Some n else None.

Fixpoint digits (acc : Z) (s : string) : Z :=
  match s with
  | EmptyString => acc
  | String c s => match digit c with Some d => digits (10 * acc + d) s | None => acc end
  end.

Fixpoint signed_digits (s : string) : Z :=
  match s with
  | EmptyString => 0
  | String c rest =>
      if is_space c then signed_digits rest else
      if decide (c = Ascii.ascii_of_nat 45) then - digits 0 rest else
      if decide (c = Ascii.ascii_of_nat 43) then digits 0 rest else digits 0 s
  end.

Definition atoi (s : string) : Z := i32 (Z.max (- 2 ^ 63) (Z.min (2 ^ 63 - 1) (signed_digits s))).

(** [!strcmp(argv[i], name) && !last_arg], with [argv[i + 1]]. *)
Definition option_value (name arg : string) (rest : list string) : option string :=
  if decide (arg = name) then head rest else None.

(** One iteration of the loop: the new configuration, unless the help is asked for. *)
Definition parse_arg (arg : string) (rest : list string) (c : config) : option config :=
  match option_value "-h" arg rest with Some v => Some (set_host v c) | None =>
  match option_value "-p" arg rest with Some v => Some (set_port (atoi v) c) | None =>
  match option_value "-u" arg rest with Some v => Some (set_unix_socket (Some v) c) | None =>
  match option_value "--name" arg rest with Some v => Some (set_user_name v c) | None =>
  match option_value "--password" arg rest with Some v => Some (set_user_password v c) | None =>
  match option_value "-c" arg rest with Some v => Some (set_clients (atoi v) c) | None =>
  match option_value "-m" arg rest with Some v => Some (set_messages (atoi v) c) | None =>
  match option_value "-s" arg rest with Some v => Some (set_msg_size (atoi v) c) | None =>
  match option_value "-e" arg rest with Some v => Some (set_expiration (atoi v) c) | None =>
  if decide (arg = "--noack"%string) then Some (set_noack 1 c) else
  if decide (arg = "-h"%string ∨ arg = "--help"%string) then None else
  Some c
  end end end end end end end end end.

Definition usage : Prog unit :=
  printf (ln "libemq simple benchmark" +:+ ln "Usage: benchmark [options]" +:+
    ln "-h <hostname> - server IP (default: %s)" +:+
    ln "-p <port> - server port (default: %d)" +:+
    ln "-u <unix socket> - server socket" +:+
    ln "--name <name> - user name (default: %s)" +:+
    ln "--password <password> - user password (default: %s)" +:+
    ln "-c <clients> - number of parallel connections (default: %d)" +:+
    ln "-m <messages> - number of messages for all connections (default: %d)" +:+
    ln "-s <message size> - size of one message (default: %d)" +:+
    ln "-e <expiration time> - time of message expiration (default: %d ms)" +:+
    ln "--noack - enable noack mode" +:+
    ln "-h or --help - show this message and exit")
    [AText DEFAULT_HOST; AInt DEFAULT_PORT; AText DEFAULT_USER_NAME; AText DEFAULT_USER_PASSWORD;
     AInt DEFAULT_CLIENTS; AInt DEFAULT_MESSAGES; AInt DEFAULT_MSG_SIZE;
     AInt DEFAULT_EXPIRATION_TIME].

(** The loop over the arguments after the name of the program. *)
Fixpoint parse_args (args : list string) (c : config) : Prog config :=
  match args with
  | [] => mret c
  | arg :: rest =>
      match parse_arg arg rest c with
      | Some c => parse_args rest c
      | None => usage;; exit 0
      end
  end.

(** What the options of a command line say: the values that follow the occurrences of a name, in
    order. *)
Fixpoint values (name : string) (args : list string) : list string :=
  match args with
  | [] => []
  | arg :: rest =>
      match option_value name arg rest with
      | Some v => v :: values name rest
      | None => values name rest
      end
  end.

Definition last_value (name : string) (args : list string) (d : string) : string :=
  default d (last (values name args)).
Definition last_number (name : string) (args : list string) (d : Z) : Z :=
  default d (atoi <$> last (values name args)).

(** The command line asks for the help: [--help] is one of the arguments, or [-h] the last. *)
Definition help (args : list string) : Prop :=
  "--help"%string ∈ args ∨ last args = Some "-h"%string.
#[export] Instance help_dec args : Decision (help args) := _.

(** The configuration that a command line describes. *)
Definition described (args : list string) (c : config) : config :=
  mk_config
    (last_value "-h" args (host c))
    (last_number "-p" args (port c))
    (match last (values "-u" args) with Some v => Some v | None => unix_socket c end)
    (last_value "--name" args (user_name c))
    (last_value "--password" args (user_password c))
    (last_number "-c" args (clients c))
    (last_number "-m" args (messages c))
    (last_number "-s" args (msg_size c))
    (last_number "-e" args (expiration c))
    (if bool_decide ("--noack"%string ∈ args) then 1 else noack c).

(** The last value, when the command line has one more argument. *)
Lemma last_values_cons name arg rest :
  last (values name (arg :: rest)) =
    match last (values name rest) with Some v => Some v | None => option_value name arg rest end.
Proof. simpl. destruct (option_value _ _ _); [rewrite last_cons|]; by destruct (last _). Qed.

(** An argument that is not an option with a value, and one that is. *)
Lemma option_value_other name arg rest : arg ≠ name → option_value name arg rest = None.
Proof. intros Ha. unfold option_value. by rewrite decide_False. Qed.
Lemma option_value_same name rest : option_value name name rest = head rest.
Proof. unfold option_value. by rewrite decide_True. Qed.

Lemma help_cons arg rest :
  help (arg :: rest) ↔ arg = "--help"%string ∨ (arg = "-h"%string ∧ rest = []) ∨ help rest.
Proof.
  unfold help. rewrite elem_of_cons. destruct rest as [|v rest]; simpl.
  - rewrite elem_of_nil. naive_solver.
  - naive_solver.
Qed.

Lemma parse_arg_exits arg rest c :
  arg = "--help"%string ∨ (arg = "-h"%string ∧ rest = []) → parse_arg arg rest c = None.
Proof. intros [->|[-> ->]]; done. Qed.

(** The new configuration is known, and has the fields of the old one. *)
Ltac same_fields := eexists; (split; [reflexivity|]); simpl; f_equal; by repeat case_match.

(** An iteration and the rest of the command line. *)
Lemma parse_arg_goes_on arg rest c :
  ¬ (arg = "--help"%string ∨ (arg = "-h"%string ∧ rest = [])) →
  ∃ c', parse_arg arg rest c = Some c' ∧ described (arg :: rest) c = described rest c'.
Proof.
  intros Hh. unfold described, last_value, last_number. rewrite !last_values_cons.
  assert (arg ≠ "--noack"%string →
    bool_decide ("--noack"%string ∈ arg :: rest) = bool_decide ("--noack"%string ∈ rest)) as Hno.
  { intros Hn. apply bool_decide_ext. rewrite elem_of_cons. naive_solver. }
  let any_rest := (repeat match goal with |- context [last ?vs] => generalize (last vs) end;
    generalize (bool_decide ("--noack"%string ∈ rest)); intros) in
  let known := (rewrite Hno, ?option_value_same, ?option_value_other by done; any_rest;
    destruct rest; [try (by destruct Hh; right)|]; same_fields) in
  let rec names l := lazymatch l with
  | ?name :: ?l => destruct (decide (arg = name)) as [->|?]; [known|names l]
  | _ => idtac
  end in
  unfold parse_arg; names ["-h"; "-p"; "-u"; "--name"; "--password"; "-c"; "-m"; "-s"; "-e"]%string;
  rewrite !option_value_other by done;
  (destruct (decide (arg = "--noack"%string)) as [->|];
    [rewrite bool_decide_true by (by apply list_elem_of_here)|rewrite Hno by done]);
  any_rest; [same_fields|].
  clear Hno. case_decide; [exfalso; tauto|same_fields].
Qed.

(** What [usage] prints. *)
Definition usage_text : list printed :=
  match usage (mk_world ∅ [] ∅ [] []) with Returns (o, _) _ => o | _ => [] end.

Lemma usage_returns w : usage w = Returns (usage_text, inl tt) w.
Proof. reflexivity. Qed.

Lemma parse_args_eq args c w :
  parse_args args c w =
    if decide (help args) then Returns (usage_text, inr 0) w
    else Returns ([], inl (described args c)) w.
Proof.
  revert c. induction args as [|arg rest IH]; intros c; cbn [parse_args].
  { rewrite decide_False; [by destruct c|]. intros [[]%elem_of_nil|[=]]. }
  destruct (decide (arg = "--help"%string ∨ (arg = "-h"%string ∧ rest = []))) as [Hh|Hh].
  - rewrite parse_arg_exits, decide_True; [reflexivity|apply help_cons; tauto|done].
  - destruct (parse_arg_goes_on arg rest c Hh) as (c' & -> & ->). rewrite IH.
    apply decide_ext. rewrite help_cons. tauto.
Qed.

(** ** Command lines that say a configuration *)

Definition starts_digit (s : string) : Prop :=
  match s with String c _ => is_Some (digit c) | EmptyString => False end.

Lemma digit_pretty (d : N) : (d < 10)%N → digit (pretty_N_char d) = Some (Z.of_N d).
Proof.
  intros Hd. assert (d = 0 ∨ d = 1 ∨ d = 2 ∨ d = 3 ∨ d = 4 ∨ d = 5 ∨ d = 6 ∨ d = 7 ∨ d = 8 ∨ d = 9)%N
    as Hcases by lia. by repeat destruct Hcases as [->|Hcases]; [..|subst].
Qed.

Lemma digits_pretty_go x s : digits 0 (pretty_N_go x s) = digits (Z.of_N x) s.
Proof.
  revert s. induction (N.lt_wf_0 x) as [x _ IH]; intros s.
  assert (x = 0 ∨ 0 < x)%N as [->|Hx] by lia; [done|].
  rewrite pretty_N_go_step, IH by (done || by apply N.div_lt).
  cbn [digits]. rewrite digit_pretty by by apply N.mod_lt. f_equal.
  pose proof (N.div_mod x 10). lia.
Qed.

Lemma starts_digit_go x s : (0 < x)%N ∨ starts_digit s → starts_digit (pretty_N_go x s).
Proof.
  revert s. induction (N.lt_wf_0 x) as [x _ IH]; intros s Hs.
  assert (x = 0 ∨ 0 < x)%N as [->|Hx] by lia.
  - destruct Hs as [Hs|Hs]; [lia|done].
  - rewrite pretty_N_go_step by done. apply IH; [by apply N.div_lt|]. right. simpl.
    rewrite digit_pretty by by apply N.mod_lt. eauto.
Qed.

Lemma signed_digits_digit s : starts_digit s → signed_digits s = digits 0 s.
Proof.
  destruct s as [|c s]; [done|]. intros [d Hd]. simpl in Hd. unfold digit in Hd.
  case_decide as Hc; [|done]. cbn [signed_digits]. unfold is_space.
  rewrite bool_decide_false by lia.
  rewrite !decide_False; [done|intros ->; by destruct Hc as [Hc _]; apply Hc..].
Qed.

(** The numbers of [int] are read as they are written. *)
Lemma atoi_pretty n : - 2 ^ 31 ≤ n < 2 ^ 31 → atoi (pretty n) = n.
Proof.
  intros Hn. unfold atoi. assert (signed_digits (pretty n) = n) as ->.
  - destruct n as [|p|p]; [done| |].
    + change (pretty (Z.pos p)) with (pretty_N_go (N.pos p) "").
      rewrite signed_digits_digit by (by apply starts_digit_go; left). apply digits_pretty_go.
    + change (signed_digits (pretty (Z.neg p))) with (- digits 0 (pretty_N_go (N.pos p) "")).
      by rewrite digits_pretty_go.
  - rewrite Z.min_r, Z.max_r, i32_small by lia. done.
Qed.

(** A word that is not taken for an option. *)
Definition word (s : string) : Prop := ∀ t, s ≠ "-" +:+ t.

Lemma word_number n : 0 ≤ n → word (pretty n).
Proof.
  intros Hn t. destruct n as [|p|p]; [done| |lia].
  exact (pretty_N_go_ne_dash (N.pos p) "" t ltac:(done)).
Qed.

(** The command line of a configuration. *)
Definition command_line (c : config) : list string :=
  ["-h"; host c; "-p"; pretty (port c); "--name"; user_name c; "--password"; user_password c;
   "-c"; pretty (clients c); "-m"; pretty (messages c); "-s"; pretty (msg_size c);
   "-e"; pretty (expiration c)]%string ++
  match unix_socket c with Some path => ["-u"; path]%string | None => [] end ++
  if decide (noack c = 0) then [] else ["--noack"%string].

(** The configurations that a command line can say. *)
Record wf_config (c : config) : Prop := {
  wf_words : Forall word ([host c; user_name c; user_password c] ++ option_list (unix_socket c));
  wf_numbers : Forall (λ n, 0 ≤ n < 2 ^ 31) [port c; clients c; messages c; msg_size c; expiration c];
  wf_noack : noack c = 0 ∨ noack c = 1;
}.

Lemma values_other name arg rest : arg ≠ name → values name (arg :: rest) = values name rest.
Proof. intros Ha. simpl. by rewrite option_value_other. Qed.
Lemma values_same name v rest : values name (name :: v :: rest) = v :: values name (v :: rest).
Proof. simpl. by rewrite option_value_same. Qed.
Lemma word_ne s t : word s → s ≠ "-" +:+ t.
Proof. intros Hs. apply Hs. Qed.

(** Looks the options up in a command line whose other words are words. *)
Ltac read_options :=
  repeat first
    [ rewrite values_same
    | rewrite values_other by first [done | by apply word_ne] ].

Ltac not_among := repeat (apply not_elem_of_cons; split;
  [first [done | by apply not_eq_sym, word_ne]|]); apply not_elem_of_nil.

(** The words of a command line. *)
Ltac command_line_words c Hc :=
  destruct c as [h p u n pw cl m sz e na]; destruct Hc as [Hw Hn Ha]; simpl in Hw, Hn, Ha;
  rewrite !Forall_cons in Hw; rewrite !Forall_cons in Hn;
  destruct Hw as (Hh & Hname & Hpw & Hu'); destruct Hn as (Hp & Hcl & Hm & Hsz & He & _);
  pose proof (word_number p (proj1 Hp)); pose proof (word_number cl (proj1 Hcl));
  pose proof (word_number m (proj1 Hm)); pose proof (word_number sz (proj1 Hsz));
  pose proof (word_number e (proj1 He)); unfold command_line; simpl option_list in Hu';
  destruct u as [u|]; [apply Forall_cons in Hu' as [Hu' _]|]; destruct Ha as [-> | ->].

Lemma not_help_command_line c : wf_config c → ¬ help (command_line c).
Proof.
  intros Hc. command_line_words c Hc; simpl.
  all: intros [Hin|Hlast]; [revert Hin; not_among|].
  all: try done; injection Hlast; by apply word_ne.
Qed.

Lemma described_command_line c d :
  wf_config c → unix_socket d = None → noack d = 0 → described (command_line c) d = c.
Proof.
  intros Hc Hu Hd. unfold described, last_value, last_number. rewrite Hu, Hd.
  command_line_words c Hc; cbn [host port unix_socket user_name user_password clients messages
    msg_size expiration noack app].
  all: try rewrite decide_True by done; try rewrite decide_False by done; cbn [app].
  all: read_options; cbn; rewrite ?atoi_pretty by lia.
  1,3: by rewrite bool_decide_false by not_among.
  all: by rewrite bool_decide_true by (rewrite !elem_of_cons; tauto).
Qed.

(** ** Arithmetic

    Signed arithmetic that overflows is undefined. *)

Definition int_range (bits : Z) (z : Z) : Prop := - 2 ^ (bits - 1) ≤ z < 2 ^ (bits - 1).
#[export] Instance int_range_dec bits z : Decision (int_range bits z) := _.

Definition arith (bits : Z) (z : Z) : M Z :=
  if decide (int_range bits z) then mret z else undefined SignedOverflow.

(** [a / b] of two [int]. *)
Definition int_div (a b : Z) : M Z :=
  if decide (b = 0) then undefined DivisionByZero else arith 32 (Z.quot a b).

(** The result of [gettimeofday], in milliseconds. *)
Definition mstime (tv_sec tv_usec : Z) : M Z :=
  mst ← arith 64 (tv_sec * 1000);
  arith 64 (mst + Z.quot tv_usec 1000).

(** ** The message *)

(** [str[i] = b] *)
Definition store_byte (p : ptr) (i : Z) (b : byte) : M unit :=
  cells ← load (T := buffer) p;
  if decide (0 ≤ i < Z.of_nat (length cells))
  then store p (<[Z.to_nat i := Some b]> cells)
  else undefined OutOfBounds.

(** The character for a number of [rand]. *)
Definition random_char (r : Z) : byte :=
  let rand_char := Z.rem r (26 + 26 + 10) in
  if decide (rand_char < 26) then byte.of_Z (97 + rand_char)
  else if decide (rand_char < 26 + 26) then byte.of_Z (65 + rand_char - 26)
  else byte.of_Z (48 + rand_char - 26 - 26).

(** [malloc(n)] of an [int] that becomes a [size_t]; there are no blocks of more than
    [PTRDIFF_MAX] bytes. *)
Definition allocate (n : Z) : M ptr :=
  if decide (u64 n < 2 ^ 63) then malloc (uninit (u64 n)) else mret NULL.

(** Letters and digits. *)
Definition alphanumeric (b : byte) : Prop :=
  let z := byte.unsigned b in 48 ≤ z ≤ 57 ∨ 65 ≤ z ≤ 90 ∨ 97 ≤ z ≤ 122.

Lemma random_char_alphanumeric r : 0 ≤ r → alphanumeric (random_char r).
Proof.
  intros Hr. pose proof (Z.rem_bound_pos r 62 Hr ltac:(lia)) as Hb.
  unfold alphanumeric, random_char. change (26 + 26 + 10) with 62. cbv zeta.
  repeat case_decide; rewrite byte.unsigned_of_Z; unfold byte.wrap; rewrite Z.mod_small by lia; lia.
Qed.

Lemma alphanumeric_not_nul b : alphanumeric b → b ≠ NUL.
Proof. intros Hb ->. unfold alphanumeric in Hb. change (byte.unsigned NUL) with 0 in Hb. lia. Qed.

Section message.
(** The numbers of [rand]. *)
Context (rand : nat → Z).

(** [n] more iterations of the loop, from the index [i]. *)
Fixpoint generate_loop (str : ptr) (i : nat) (n : nat) : M unit :=
  match n with
  | O => mret tt
  | S n => store_byte str (Z.of_nat i) (random_char (rand i));; generate_loop str (S i) n
  end.

Definition generate_string (str : ptr) (len : Z) : M unit :=
  generate_loop str 0 (Z.to_nat len);;
  store_byte str len NUL.

(** The result is the value of [message_data]. *)
Definition init_message (c : config) : Prog ptr :=
  size ← lift (arith 32 (msg_size c + 1));
  message_data ← lift (allocate size);
  match message_data with
  | None => printf (ln "Error allocate memory") [];; exit (-1)
  | Some _ => lift (generate_string message_data (msg_size c));; mret message_data
  end.

Definition destroy_message (message_data : ptr) : M unit := free message_data.

(** The text of a message of [n] characters. *)
Definition random_text (n : nat) : list byte := random_char ∘ rand <$> seq 0 n.
Arguments random_text n : simpl never.

Lemma length_random_text n : length (random_text n) = n.
Proof. unfold random_text. by rewrite length_fmap, length_seq. Qed.

Lemma random_text_S n : random_text (S n) = random_text n ++ [random_char (rand n)].
Proof. unfold random_text. by rewrite seq_S, fmap_app. Qed.

Lemma wp_store_byte l (cells : buffer) i b (Q : unit → world → Prop) w :
  points_to (w_heap w) l cells → (i < length cells)%nat →
  Q tt (set_heap (<[l := inject (<[i := Some b]> cells)]> (w_heap w)) w) →
  wp False (store_byte (Some l) (Z.of_nat i) b) Q w.
Proof.
  intros Hl Hi HQ. apply wp_bind. eapply wp_load; [done|]. rewrite decide_True by lia.
  eapply wp_store; [done|]. by rewrite Nat2Z.id.
Qed.

(** Storing the next character of a text that is being written. *)
Lemma insert_next (bs : list byte) (b : byte) (rest : buffer) :
  (0 < length rest)%nat →
  <[length bs := Some b]> ((Some <$> bs) ++ rest : buffer) = (Some <$> (bs ++ [b])) ++ tail rest.
Proof.
  intros Hr. destruct rest as [|x rest]; [simpl in Hr; lia|].
  unfold buffer. rewrite insert_app_r_alt by by rewrite length_fmap. rewrite length_fmap, Nat.sub_diag.
  rewrite fmap_app, <-app_assoc. done.
Qed.

Lemma wp_generate_loop l i n rest (Q : unit → world → Prop) w :
  points_to (w_heap w) l ((Some <$> random_text i) ++ rest : buffer) → (n ≤ length rest)%nat →
  Q tt (set_heap (<[l := inject ((Some <$> random_text (i + n)) ++ drop n rest : buffer)]>
    (w_heap w)) w) →
  wp False (generate_loop (Some l) i n) Q w.
Proof.
  revert i rest w. induction n as [|n IH]; intros i rest w Hl Hn HQ.
  - rewrite Nat.add_0_r, drop_0, insert_id in HQ by exact Hl. by destruct w.
  - apply wp_bind. eapply wp_store_byte; [exact Hl| |].
    { rewrite length_app, length_fmap, length_random_text. lia. }
    pose proof (insert_next (random_text i) (random_char (rand i)) rest ltac:(lia)) as Hi.
    rewrite length_random_text, <-random_text_S in Hi. rewrite Hi.
    apply (IH (S i) (tail rest)); [apply lookup_insert_eq|destruct rest; simpl in *; lia|].
    rewrite set_heap_set_heap. unfold set_heap at 2. cbn [w_heap]. rewrite insert_insert_eq.
    rewrite Nat.add_succ_r in HQ. destruct rest; [simpl in Hn; lia|exact HQ].
Qed.

(** Filling a block of [n + 1] bytes. *)
Lemma wp_generate_string l n (Q : unit → world → Prop) w :
  points_to (w_heap w) l (uninit (Z.of_nat n + 1)) →
  Q tt (set_heap (<[l := inject (Some <$> (random_text n ++ [NUL]) : buffer)]> (w_heap w)) w) →
  wp False (generate_string (Some l) (Z.of_nat n)) Q w.
Proof.
  intros Hl HQ. unfold generate_string. rewrite Nat2Z.id. apply wp_bind.
  assert (length (uninit (Z.of_nat n + 1)) = S n) as Hlen.
  { unfold uninit. rewrite length_replicate. lia. }
  eapply (wp_generate_loop l 0 n); [exact Hl|lia|].
  eapply wp_store_byte; [apply lookup_insert_eq| |].
  { rewrite length_app, length_drop, length_fmap, length_random_text. lia. }
  rewrite set_heap_set_heap. unfold set_heap at 2. cbn [w_heap]. rewrite insert_insert_eq.
  pose proof (insert_next (random_text n) NUL (drop n (uninit (Z.of_nat n + 1)))) as Hi.
  rewrite length_random_text, length_drop in Hi. rewrite Nat.add_0_l, Hi by lia.
  rewrite drop_tail, drop_ge, app_nil_r by lia. exact HQ.
Qed.

Lemma random_text_alphanumeric n : (∀ i, 0 ≤ rand i) → Forall alphanumeric (random_text n).
Proof.
  intros Hr. unfold random_text. apply Forall_fmap, Forall_true. intros i.
  by apply random_char_alphanumeric.
Qed.

Lemma strlen_random_text n : (∀ i, 0 ≤ rand i) → strlen (random_text n ++ [NUL]) = Z.of_nat n.
Proof.
  intros Hr. pose proof (random_text_alphanumeric n Hr) as Ha. rewrite Forall_forall in Ha.
  assert (NUL ∉ random_text n) as Hn.
  { intros Hin. by apply (alphanumeric_not_nul NUL (Ha _ Hin)). }
  unfold strlen. rewrite <-(c_chars_id (random_text n) Hn) at 1.
  by rewrite c_chars_app_nul, (c_chars_id _ Hn), length_random_text.
Qed.
End message.

(** The outcome of an allocation. *)
Lemma allocate_ok n w :
  0 ≤ n < 2 ^ 63 → hd true (w_mallocs w) = true →
  ∃ p, w_heap w !! p = None ∧ allocate n w = Returns (Some p)
    (set_mallocs (tail (w_mallocs w)) (set_heap (<[p := inject (uninit n)]> (w_heap w)) w)).
Proof.
  intros Hn Hm. unfold allocate. rewrite u64_small, decide_True by lia.
  assert (wp False (malloc (uninit n)) (λ y w', ∃ p, y = Some p ∧ w_heap w !! p = None ∧
    w' = set_mallocs (tail (w_mallocs w)) (set_heap (<[p := inject (uninit n)]> (w_heap w)) w)) w)
    as (y & w' & Hy & p & -> & Hp & ->)%wp_returns.
  { apply wp_malloc; [intros ms Hf; by rewrite Hf in Hm|intros p _ Hp; eauto]. }
  by exists p.
Qed.

Lemma allocate_fails n w :
  0 ≤ n < 2 ^ 63 → hd true (w_mallocs w) = false →
  ∃ w', allocate n w = Returns NULL w' ∧ w_heap w' = w_heap w.
Proof.
  intros Hn Hm. unfold allocate. rewrite u64_small, decide_True by lia. unfold malloc.
  destruct (w_mallocs w) as [|[] ms]; [done..|eauto].
Qed.

Lemma arith_in bits z w : int_range bits z → arith bits z w = Returns z w.
Proof. intros Hz. unfold arith. by rewrite decide_True. Qed.

(** The message is created. *)
Lemma init_message_returns rand c w :
  0 ≤ msg_size c < 2 ^ 31 - 1 → hd true (w_mallocs w) = true →
  ∃ p, w_heap w !! p = None ∧ init_message rand c w = Returns ([], inl (Some p))
    (set_mallocs (tail (w_mallocs w)) (set_heap (<[p := inject
      (Some <$> (random_text rand (Z.to_nat (msg_size c)) ++ [NUL]) : buffer)]> (w_heap w)) w)).
Proof.
  intros Hsize Hm. unfold init_message.
  rewrite (lift_step _ _ (msg_size c + 1) w w) by (apply arith_in; unfold int_range; lia).
  set (n := Z.to_nat (msg_size c)). assert (msg_size c = Z.of_nat n) as -> by lia.
  destruct (allocate_ok (Z.of_nat n + 1) w ltac:(lia) Hm) as (p & Hp & Ha).
  exists p. split; [done|]. rewrite (lift_step _ _ _ _ _ Ha).
  set (w1 := set_mallocs _ _) in *.
  destruct (proj1 (wp_returns (generate_string rand (Some p) (Z.of_nat n)) (λ _ w', w' =
    set_heap (<[p := inject (Some <$> (random_text rand n ++ [NUL]) : buffer)]> (w_heap w1)) w1) w1))
    as ([] & w2 & Hg & ->).
  { eapply wp_generate_string; [apply lookup_insert_eq|done]. }
  rewrite (lift_step _ _ _ _ _ Hg). unfold w1. cbn [w_heap set_heap set_mallocs].
  by rewrite insert_insert_eq.
Qed.

(** ** The statistics

    [float] and [double] are the binary formats of IEEE 754 with 24 and 53 bits of precision,
    every operation is rounded to the nearest in the format of its type. *)

Definition to_float (x : spec_float) : spec_float :=
  match x with
  | S754_finite s m e => binary_normalize 24 128 (cond_Zopp s (Z.pos m)) e s
  | _ => x
  end.
Definition float_of_int (z : Z) : spec_float := binary_normalize 24 128 z 0 false.
Definition double_of_int (z : Z) : spec_float := binary_normalize 53 1024 z 0 false.

(** The literal [0.000001]: the double nearest to it. *)
Definition micro : spec_float := SFdiv 53 1024 (double_of_int 1) (double_of_int 1000000).

Definition print_statistics (c : config) (start end_ : Z) : Prog unit :=
  ms ← lift (arith 64 (end_ - start));
  let sec := to_float (SFdiv 53 1024 (double_of_int ms) (double_of_int 1000)) in
  total_bytes ← lift (arith 32 (messages c * msg_size c));
  let total_megabytes :=
    to_float (SFmul 53 1024 (SFmul 53 1024 (float_of_int total_bytes) (double_of_int 1)) micro) in
  printf_all [
    (ln "===== Information =====", []);
    (ln "Clients: %d", [AInt (clients c)]);
    (ln "Total messages: %d", [AInt (messages c)]);
    (ln "Message size: %d", [AInt (msg_size c)]);
    (ln "===== Results =====", []);
    (ln "%d requests completed in %lld miliseconds (%.2f seconds)",
      [AInt (messages c); AInt ms; AReal sec]);
    (ln "%.2f requests per second", [AReal (SFdiv 24 128 (float_of_int (messages c)) sec)]);
    (ln "%d bytes (%.2f MB) sent in the queue", [AInt total_bytes; AReal total_megabytes])
  ].

(** What is printed, when nothing overflows. *)
Definition report (c : config) (start end_ : Z) : list printed :=
  match print_statistics c start end_ (mk_world ∅ [] ∅ [] []) with Returns (o, _) _ => o | _ => [] end.

Lemma print_statistics_eq c start end_ w :
  print_statistics c start end_ w =
    if decide (int_range 64 (end_ - start) ∧ int_range 32 (messages c * msg_size c))
    then Returns (report c start end_, inl tt) w else Faults SignedOverflow.
Proof.
  unfold report, print_statistics, arith. unfold mbind, Prog_bind, lift, mbind, M_bind.
  destruct (decide (_ ∧ _)) as [[H1 H2]|Hn].
  - by rewrite !(decide_True _ _ H1), !(decide_True _ _ H2).
  - destruct (decide (int_range 64 _)) as [H1|]; [|done].
    destruct (decide (int_range 32 _)) as [H2|]; [by destruct Hn|done].
Qed.

(** The integers among the arguments of an output. *)
Definition integers (o : list printed) : list Z :=
  o ≫= λ p, arguments p ≫= λ a, match a with AInt z => [z] | _ => [] end.

(** The floats. *)
Definition reals (o : list printed) : list spec_float :=
  o ≫= λ p, arguments p ≫= λ a, match a with AReal x => [x] | _ => [] end.

(** A hundred thousand messages in five seconds: 5.00 seconds, 20000.00 requests per second and
    100.00 MB, all exactly. *)
Example statistics_default :
  match print_statistics init_config 0 5000 (mk_world ∅ [] ∅ [] []) with
  | Returns (o, inl tt) _ =>
      reals o = [float_of_int 5; float_of_int 20000; float_of_int 100]
  | _ => False
  end.
Proof. vm_compute. reflexivity. Qed.

(** ** Theorems *)

(** C39: the command line is parsed as it reads: every option takes the value
    after its last occurrence, the other fields keep their defaults; the usage is printed and the
    process exits with 0 exactly when [--help] is an argument or [-h] is the last one. *)
Theorem parse_args_described args c w :
  parse_args args c w =
    if decide (help args) then Returns (usage_text, inr 0) w
    else Returns ([], inl (described args c)) w.
Proof. apply parse_args_eq. Qed.

(** Fact: the command line written for a configuration (numbers in decimal,
    words that are not options) parses to exactly this configuration. *)
Theorem command_line_parses c w :
  wf_config c → parse_args (command_line c) init_config w = Returns ([], inl c) w.
Proof.
  intros Hc. rewrite parse_args_eq, decide_False by by apply not_help_command_line.
  by rewrite described_command_line.
Qed.

Lemma command_line_parses_witness :
  let c := mk_config "example.org" 7000 (Some "/tmp/eagle.sock") "eagle" "secret" 4 2000 64 500 1 in
  parse_args (command_line c) init_config (mk_world ∅ [] ∅ [] []) =
    Returns ([], inl c) (mk_world ∅ [] ∅ [] []).
Proof.
  intros c. apply (command_line_parses c). constructor.
  - repeat constructor; intros t; done.
  - repeat constructor; done.
  - by right.
Defined.

(** C40: when [msg_size] is not negative and its successor is an [int], [init_message] allocates
    a block of [msg_size + 1] bytes and fills it with [msg_size] letters and digits and a
    terminator, so that the message is a C string of the configured length, which [destroy_message]
    gives back; without memory it reports it and exits. *)
Theorem message_generated rand c w :
  (∀ i, 0 ≤ rand i) → 0 ≤ msg_size c < 2 ^ 31 - 1 →
  if hd true (w_mallocs w) then
    ∃ p text w', text = random_text rand (Z.to_nat (msg_size c)) ∧
      init_message rand c w = Returns ([], inl (Some p)) w' ∧ w_heap w !! p = None ∧
      w_heap w' = <[p := inject (Some <$> (text ++ [NUL]) : buffer)]> (w_heap w) ∧
      Forall alphanumeric text ∧ strlen (text ++ [NUL]) = msg_size c ∧
      destroy_message (Some p) w' = Returns tt (set_heap (w_heap w) w')
  else ∃ w', w_heap w' = w_heap w ∧
    init_message rand c w = Returns ([mk_printed (ln "Error allocate memory") []], inr (-1)) w'.
Proof.
  intros Hrand Hsize. destruct (hd true (w_mallocs w)) eqn:Hm.
  - destruct (init_message_returns rand c w Hsize Hm) as (p & Hp & Hi).
    eexists p, _, _. split; [done|]. split; [exact Hi|]. split_and!; [done..| | |].
    + by apply random_text_alphanumeric.
    + rewrite strlen_random_text by done. lia.
    + unfold destroy_message, free. cbn [w_heap set_heap set_mallocs].
      by rewrite lookup_insert_eq, delete_insert_id.
  - destruct (allocate_fails (msg_size c + 1) w ltac:(lia) Hm) as (w1 & Ha & Hw1).
    exists w1. split; [done|]. unfold init_message.
    rewrite (lift_step _ _ (msg_size c + 1) w w) by (apply arith_in; unfold int_range; lia).
    by rewrite (lift_step _ _ _ _ _ Ha).
Qed.


(** Fact: with [-s -1] the block has no byte, and the terminator is written
    before it. *)
Theorem message_size_negative rand c w :
  msg_size c = -1 → hd true (w_mallocs w) = true → init_message rand c w = Faults OutOfBounds.
Proof.
  intros Hs Hm. unfold init_message. rewrite Hs.
  rewrite (lift_step _ _ 0 w w) by by apply arith_in.
  destruct (allocate_ok 0 w ltac:(lia) Hm) as (p & _ & Ha). rewrite (lift_step _ _ _ _ _ Ha).
  apply lift_faults. unfold generate_string, store_byte, mbind, M_bind, load. simpl.
  rewrite lookup_insert_eq. reflexivity.
Qed.

(** Fact: the report has the clients, the messages, their size, the time and
    the number of the bytes sent; it is undefined exactly when the time or the number of bytes
    overflows. *)
Theorem statistics_reported c start end_ w :
  match print_statistics c start end_ w with
  | Returns (o, r) w' =>
      w' = w ∧ r = inl tt ∧ length o = 8%nat ∧
      integers o = [clients c; messages c; msg_size c; messages c; end_ - start;
        messages c * msg_size c] ∧
      int_range 32 (messages c * msg_size c) ∧ int_range 64 (end_ - start)
  | Faults e => e = SignedOverflow ∧
      ¬ (int_range 32 (messages c * msg_size c) ∧ int_range 64 (end_ - start))
  | _ => False
  end.
Proof.
  rewrite print_statistics_eq. case_decide as Hr; [|split; [done|tauto]]. destruct Hr as [H1 H2].
  unfold report, print_statistics, arith. unfold mbind, Prog_bind, lift, mbind, M_bind.
  rewrite !(decide_True _ _ H1), !(decide_True _ _ H2).
  cbn -[SFdiv SFmul to_float float_of_int double_of_int]. done.
Qed.

Lemma message_generated_witness :
  let c := set_msg_size 3 init_config in
  let w := mk_world ∅ [] ∅ [] [] in
  ∃ p text w', text = random_text (λ i, Z.of_nat i * 30) 3 ∧
    init_message (λ i, Z.of_nat i * 30) c w = Returns ([], inl (Some p)) w' ∧
    w_heap w !! p = None ∧
    w_heap w' = <[p := inject (Some <$> (text ++ [NUL]) : buffer)]> (w_heap w) ∧
    Forall alphanumeric text ∧ strlen (text ++ [NUL]) = 3 ∧
    destroy_message (Some p) w' = Returns tt (set_heap (w_heap w) w').
Proof.
  intros c w. apply (message_generated (λ i, Z.of_nat i * 30) c w).
  - intros i. apply Z.mul_nonneg_nonneg; [apply Nat2Z.is_nonneg|done].
  - by vm_compute.
Defined.

Lemma message_size_negative_witness :
  let w := mk_world ∅ [] ∅ [] [] in
  parse_args ["-s"; "-1"]%string init_config w = Returns ([], inl (set_msg_size (-1) init_config)) w ∧
  init_message (λ _, 0) (set_msg_size (-1) init_config) w = Faults OutOfBounds.
Proof.
  intros w. split; [reflexivity|].
  exact (message_size_negative (λ _, 0) (set_msg_size (-1) init_config) w eq_refl eq_refl).
Defined.
