(* ===== verification/Load.v ===== *)
(** The conversations of the benchmark [src/src/benchmark.c] with the server: the preparation of
    the queue, one worker, and the cleaning up.

    A worker runs in a thread of its own, on a connection of its own; it shares the configuration
    and the message with the others, which nothing changes while they run. *)

From S2P Require Import Prelude Types Machine Lists Network Protocol Client Session Packet Commands.
From S2P Require Import Messages Queries Listings Subscriptions Connection Sample Program Simple.
From S2P Require Import Benchmark.

(** ** The programs *)

(** The name and the words of the configuration as C strings. *)
Definition connect (c : config) : M ptr :=
  match unix_socket c with
  | None => emq_tcp_connect (host c) (port c)
  | Some path => emq_unix_connect path
  end.

Definition refused_line : line := (ln "Error connect to server...", []).

Definition setup_server (c : config) : Prog unit :=
  client ← lift (connect c);
  match client with
  | Some _ =>
      status ← lift (emq_auth client (str (user_name c)) (str (user_password c)));
      if decide (status ≠ EMQ_STATUS_OK) then
        printf (ln "Authorization error (%s/%s)")
          [AText (user_name c); AText (user_password c)];;
        lift (emq_disconnect client);;
        exit (-1)
      else
      status ← lift (emq_queue_exist client QUEUE_NAME);
      (if decide (status ≠ 0) then _ ← lift (emq_queue_delete client QUEUE_NAME); mret tt
       else mret tt);;
      status ← lift (emq_queue_create client QUEUE_NAME EMQ_MAX_MSG EMQ_MAX_MSG_SIZE 0);
      if decide (status ≠ EMQ_STATUS_OK) then
        printf (ln "Error create queue '.queue-benchmark'") [];;
        lift (emq_disconnect client);;
        exit (-1)
      else lift (emq_disconnect client)
  | None => say refused_line;; exit (-1)
  end.

Definition cleanup_server (c : config) : Prog unit :=
  client ← lift (connect c);
  match client with
  | Some _ =>
      _ ← lift (emq_auth client (str (user_name c)) (str (user_password c)));
      status ← lift (emq_queue_exist client QUEUE_NAME);
      (if decide (status ≠ 0) then
         size ← lift (emq_queue_size client QUEUE_NAME);
         printf (ln "Delete queue '%s' (size: %d)") [AStr (c_bytes QUEUE_NAME); AInt size];;
         _ ← lift (emq_queue_delete client QUEUE_NAME); mret tt
       else mret tt);;
      lift (emq_disconnect client)
  | None => say refused_line;; exit (-1)
  end.

(** The loop that pushes [n] messages; [false] when a push fails, and the worker returns. *)
Fixpoint push_loop (n : nat) (client message : ptr) : Prog bool :=
  match n with
  | O => mret true
  | S n =>
      status ← lift (emq_queue_push client QUEUE_NAME message);
      if decide (status ≠ EMQ_STATUS_OK) then
        error ← lift (emq_last_error client);
        printf (ln "Error push message to the queue: %s") [AText error];;
        mret false
      else push_loop n client message
  end.

(** [if (config.noack) emq_noack_enable(client);] *)
Definition configure_noack (c : config) (client : ptr) : M unit :=
  if decide (noack c ≠ 0) then emq_noack_enable client else mret tt.

Definition worker (c : config) (message_data : ptr) : Prog unit :=
  msg ← lift (int_div (messages c) (clients c));
  client ← lift (connect c);
  match client with
  | Some _ =>
      lift (configure_noack c client);;
      _ ← lift (emq_auth client (str (user_name c)) (str (user_password c)));
      _ ← lift (emq_queue_declare client QUEUE_NAME);
      message ← lift (emq_msg_create message_data (u64 (msg_size c)) EMQ_ZEROCOPY_ON);
      lift (emq_msg_expire message (u32 (expiration c)));;
      pushed ← push_loop (Z.to_nat msg) client message;
      if pushed : bool then
        lift (emq_msg_release message);;
        lift (emq_disconnect client)
      else mret tt
  | None => say refused_line
  end.

(** ** Their specification

    [true]: the conversation went to its end; [false]: it was given up. *)

Definition s_setup (c : config) : SProg bool :=
  status ← s_lift (s_command (Auth (str (user_name c)) (str (user_password c))));
  if decide (status ≠ EMQ_STATUS_OK) then
    s_printf (ln "Authorization error (%s/%s)")
      [AText (user_name c); AText (user_password c)];;
    mret false
  else
  status ← s_lift (s_query (QueueExist QUEUE_NAME) 0);
  (if decide (status ≠ 0) then _ ← s_lift (s_command (QueueDelete QUEUE_NAME)); mret tt
   else mret tt);;
  status ← s_lift (s_command (QueueCreate QUEUE_NAME EMQ_MAX_MSG EMQ_MAX_MSG_SIZE 0));
  if decide (status ≠ EMQ_STATUS_OK) then
    s_printf (ln "Error create queue '.queue-benchmark'") [];;
    mret false
  else mret true.

Definition s_cleanup (c : config) : SProg bool :=
  _ ← s_lift (s_command (Auth (str (user_name c)) (str (user_password c))));
  status ← s_lift (s_query (QueueExist QUEUE_NAME) 0);
  (if decide (status ≠ 0) then
     size ← s_lift (s_query (QueueSize QUEUE_NAME) (-1));
     s_printf (ln "Delete queue '%s' (size: %d)") [AStr (c_bytes QUEUE_NAME); AInt size];;
     _ ← s_lift (s_command (QueueDelete QUEUE_NAME)); mret tt
   else mret tt);;
  mret true.

(** The payload of a push: the time to live and the text. *)
Fixpoint s_push_loop (n : nat) (payload text : list byte) : SProg bool :=
  match n with
  | O => mret true
  | S n =>
      status ← s_lift (s_push (QueuePush QUEUE_NAME (4 + Z.of_nat (length text))) payload
        (Z.of_nat (length text)));
      if decide (status ≠ EMQ_STATUS_OK) then
        error ← s_lift (s_get ss_error);
        s_printf (ln "Error push message to the queue: %s") [AText error];;
        mret false
      else s_push_loop n payload text
  end.

Definition s_configure_noack (c : config) : Spec unit :=
  if decide (noack c ≠ 0) then s_put (set_ss_noack 1) else mret tt.

(** One worker that sends the text [n] times; nothing is promised without memory for the
    message. *)
Definition s_worker (c : config) (n : nat) (text : list byte) : SProg bool :=
  s_lift (s_configure_noack c);;
  _ ← s_lift (s_command (Auth (str (user_name c)) (str (user_password c))));
  _ ← s_lift (s_command (QueueDeclare QUEUE_NAME));
  created ← s_lift s_malloc;
  if created : bool then s_push_loop n (le_bytes 4 (u32 (expiration c)) ++ text) text
  else s_lift s_unspecified.

(** ** The programs by their sessions *)

Definition setup_session (c : config) (client : ptr) : Prog bool :=
  status ← lift (emq_auth client (str (user_name c)) (str (user_password c)));
  if decide (status ≠ EMQ_STATUS_OK) then
    printf (ln "Authorization error (%s/%s)")
      [AText (user_name c); AText (user_password c)];;
    mret false
  else
  status ← lift (emq_queue_exist client QUEUE_NAME);
  (if decide (status ≠ 0) then _ ← lift (emq_queue_delete client QUEUE_NAME); mret tt
   else mret tt);;
  status ← lift (emq_queue_create client QUEUE_NAME EMQ_MAX_MSG EMQ_MAX_MSG_SIZE 0);
  if decide (status ≠ EMQ_STATUS_OK) then
    printf (ln "Error create queue '.queue-benchmark'") [];;
    mret false
  else mret true.

Definition cleanup_session (c : config) (client : ptr) : Prog bool :=
  _ ← lift (emq_auth client (str (user_name c)) (str (user_password c)));
  status ← lift (emq_queue_exist client QUEUE_NAME);
  (if decide (status ≠ 0) then
     size ← lift (emq_queue_size client QUEUE_NAME);
     printf (ln "Delete queue '%s' (size: %d)") [AStr (c_bytes QUEUE_NAME); AInt size];;
     _ ← lift (emq_queue_delete client QUEUE_NAME); mret tt
   else mret tt);;
  mret true.

Definition worker_session (c : config) (message_data : ptr) (n : nat) (client : ptr) : Prog bool :=
  lift (configure_noack c client);;
  _ ← lift (emq_auth client (str (user_name c)) (str (user_password c)));
  _ ← lift (emq_queue_declare client QUEUE_NAME);
  message ← lift (emq_msg_create message_data (u64 (msg_size c)) EMQ_ZEROCOPY_ON);
  lift (emq_msg_expire message (u32 (expiration c)));;
  pushed ← push_loop n client message;
  if pushed : bool then lift (emq_msg_release message);; mret true else mret false.

(** The process ends with -1 unless the conversation went to its end. *)
Definition or_exit (ok : bool) : Prog unit := if ok then mret tt else exit (-1).

(** Follows two programs that do the same, up to the places of their parentheses. *)
Ltac same_program :=
  repeat first
    [ done
    | progress rewrite ?prog_assoc, ?prog_ret_l
    | apply prog_bind_ext; intros ? ?
    | case_decide
    | case_match ];
  symmetry; apply prog_ret_r; intros [] ?; by rewrite prog_ret_l.

Lemma setup_server_session c w :
  setup_server c w =
    (with_connection (connect c) (setup_session c) (say refused_line;; mret false) ≫= or_exit) w.
Proof. unfold setup_server, with_connection, setup_session. same_program. Qed.

Lemma cleanup_server_session c w :
  cleanup_server c w =
    (with_connection (connect c) (cleanup_session c) (say refused_line;; mret false) ≫= or_exit) w.
Proof. unfold cleanup_server, with_connection, cleanup_session. same_program. Qed.

Lemma worker_with_session c d w :
  worker c d w = (msg ← lift (int_div (messages c) (clients c));
    client ← lift (connect c);
    match client with
    | Some _ =>
        pushed ← worker_session c d (Z.to_nat msg) client;
        if pushed : bool then lift (emq_disconnect client) else mret tt
    | None => say refused_line
    end) w.
Proof.
  unfold worker, worker_session. apply prog_bind_ext. intros msg w1. apply prog_bind_ext.
  intros [l|] w2; [|done].
  rewrite prog_assoc; apply prog_bind_ext; intros _ w3.
  do 4 (rewrite prog_assoc; apply prog_bind_ext; intros ? ?).
  rewrite prog_assoc. apply prog_bind_ext. intros [|] ?; [|by rewrite prog_ret_l].
  rewrite prog_assoc. apply prog_bind_ext. intros ? ?. by rewrite prog_ret_l.
Qed.

(** ** Simulation *)

Section simulation.
Context (l : loc).

Lemma refines_configure_noack c : refines l (configure_noack c (Some l)) (s_configure_noack c).
Proof.
  unfold configure_noack, s_configure_noack.
  case_decide; [apply refines_noack_enable|apply refines_ret].
Qed.

Lemma steady_setup c f : steady l f (setup_session c (Some l)) (s_setup c).
Proof.
  unfold steady, setup_session, s_setup.
  eapply runs_step; [apply steady_lift; library_call|intros status].
  case_decide; [apply steady_bind; eauto with programs|].
  eapply runs_step; [apply steady_lift; library_call|intros exist].
  eapply runs_step.
  { case_decide; [|apply steady_ret]. apply steady_bind; [apply steady_lift; library_call|].
    intros _. apply steady_ret. }
  intros _. eapply runs_step; [apply steady_lift; library_call|intros created].
  case_decide; [apply steady_bind; eauto with programs|apply steady_ret].
Qed.

Lemma steady_cleanup c f : steady l f (cleanup_session c (Some l)) (s_cleanup c).
Proof.
  unfold steady, cleanup_session, s_cleanup.
  do 2 (eapply runs_step; [apply steady_lift; library_call|intros ?]).
  eapply runs_step; [|intros _; apply steady_ret].
  case_decide; [|apply steady_ret].
  apply steady_bind; [apply steady_lift; library_call|]. intros size.
  apply steady_bind; [apply steady_printf|]. intros _.
  apply steady_bind; [apply steady_lift; library_call|]. intros _. apply steady_ret.
Qed.

(** The message of the workers. *)
Definition worker_msg (c : config) (d : loc) : emq_msg :=
  mk_msg (Some d) (msg_size c) 0 (u32 (expiration c)) (Some EMQ_ZEROCOPY_ON).

Lemma steady_push_loop c d p text n f :
  msg_at (fr_heap f) p (worker_msg c d) text →
  180 + Z.of_nat (length text) ≤ MAX_RW_COUNT →
  steady l f (push_loop n (Some l) (Some p))
    (s_push_loop n (le_bytes 4 (u32 (expiration c)) ++ text) text).
Proof.
  intros Hm Hlen. induction n as [|n IH]; [apply steady_ret|]. simpl push_loop. simpl s_push_loop.
  apply steady_bind.
  { exact (steady_push l (QueuePush QUEUE_NAME (4 + Z.of_nat (length text)))
      (λ c m, emq_queue_push c QUEUE_NAME m) p (worker_msg c d) text f
      ltac:(simpl; by rewrite decide_True) Hm Hlen). }
  intros status. case_decide; [|done].
  apply steady_bind; [apply steady_lift, refines_last_error|intros error].
  apply steady_bind; eauto with programs.
Qed.

(** What a worker leaves: nothing, or its message. *)
Definition worker_leaves (c : config) (d : loc) (f : frame) (ok : bool) (_ : nat) (f' : frame) : Prop :=
  if ok then f' = f else ∃ p, holds p (worker_msg c d) f f'.

Lemma runs_worker c d text n f :
  points_to (fr_heap f) d (Some <$> (text ++ [NUL]) : buffer) → msg_size c = Z.of_nat (length text) →
  180 + Z.of_nat (length text) ≤ MAX_RW_COUNT →
  runs l f (worker_session c (Some d) n (Some l)) (s_worker c n text) (worker_leaves c d f).
Proof.
  intros Hd Hs Hlen. unfold worker_session, s_worker.
  eapply runs_step; [apply steady_lift, refines_configure_noack|intros _]. do 2 (eapply runs_step; [apply steady_lift; library_call|intros _]).
  apply runs_msg_create; [|apply runs_unspecified]. intros p f1 Hp.
  eapply runs_msg_expire; [exact Hp|]. clear f1 Hp. intros f1 Hp.
  assert (u64 (msg_size c) = msg_size c) as Hu.
  { apply u64_small. unfold MAX_RW_COUNT in Hlen. lia. }
  rewrite Hu in Hp. change (set_msg_expire _ _) with (worker_msg c d) in Hp.
  assert (msg_at (fr_heap f1) p (worker_msg c d) text) as Hm.
  { eapply (holds_msg p _ _ f1 d text [Some NUL]); [exact Hp|done|done|].
    by rewrite fmap_app in Hd. }
  apply runs_s_eta. eapply runs_step; [by apply (steady_push_loop c d)|intros [|]].
  - eapply runs_msg_release; [exact Hp|]. by apply runs_ret.
  - apply runs_ret. by exists p.
Qed.
End simulation.

(** ** Theorems *)

(** The calls of the system that a connection makes. *)
Definition connect_calls (c : config) : nat := match unix_socket c with None => tcp_calls (host c) | Some _ => 3 end.

Lemma wp_connect_config blk c (Q : ptr → world → Prop) w :
  allocs 4 w → calls (connect_calls c) w →
  (∀ l w', connected (connect_calls c) w l w' → Q (Some l) w') → wp blk (connect c) Q w.
Proof.
  unfold connect, connect_calls. destruct (unix_socket c).
  - by apply wp_unix_connect.
  - by apply wp_tcp_connect.
Qed.

(** The process after a conversation: as before it, and alive if the conversation went to its
    end. *)
Definition conversed (f : frame) (b : answer (list printed * nat * (bool + Z)))
    (out : outcome (list printed * (unit + Z))) : Prop :=
  match b with
  | Answer (o, _, inl ok) s =>
      out = Returns (o, if ok then inl tt else inr (-1)) (world_of f (ss_mallocs s))
  | Answer (o, _, inr code) _ => ∃ w, out = Returns (o, inr code) w
  | Starved => ∃ w, out = Blocks w
  | Unspecified => True
  end.

Lemma session_conversed c session (a : SProg bool) w :
  allocs 4 w → calls (connect_calls c) w →
  (∀ l f, steady l f (session (Some l)) a) →
  conversed (first_frame (connect_calls c) w) (a (first_session w))
    ((with_connection (connect c) session (say refused_line;; mret false) ≫= or_exit) w).
Proof.
  intros Ha Hs Hsession.
  pose proof (connection_finishes (connect_calls c) (connect c) session
    (say refused_line;; mret false) a _ w (λ Q HQ, wp_connect_config False c Q w Ha Hs HQ)
    (λ l, Hsession l _)) as Hf.
  unfold finishes in Hf. unfold conversed. destruct (a _) as [[[o n] [ok|code]] s| |]; [| | |done].
  - destruct Hf as (f & Hw & [-> ->]). rewrite <-(app_nil_r o). eapply prog_returns; [exact Hw|]. by destruct ok.
  - destruct Hf as (w' & Hw). exists w'. by eapply prog_exits.
  - destruct Hf as (w' & Hw). exists w'. by eapply prog_blocks.
Qed.

(** A peer that sends these events; the message ["A"] is at the location 1. *)
Definition bench_world (rx : list rd_event) : world :=
  mk_world {[1%positive := inject (Some <$> [Byte.x41; NUL] : buffer)]} [] ∅ [] [mk_sock rx [] []].
Definition bench_config : config := set_clients 2 (set_messages 4 (set_msg_size 1 init_config)).

(** Fact: [setup_server] and [cleanup_server], connected: they authenticate, look for the
    queue, delete it if it exists, the former creates it anew; whatever the server answers,
    they disconnect, leave memory and sockets as they found them, and the former exits with -1
    exactly when the server refused the credentials or the queue. *)
Theorem server_prepared c w :
  allocs 4 w → calls (connect_calls c) w →
  conversed (first_frame (connect_calls c) w) (s_setup c (first_session w)) (setup_server c w) ∧
  conversed (first_frame (connect_calls c) w) (s_cleanup c (first_session w)) (cleanup_server c w).
Proof.
  intros Ha Hs. rewrite setup_server_session, cleanup_server_session.
  split; apply session_conversed; try done; intros l f; [apply steady_setup|apply steady_cleanup].
Qed.

(** The queue exists: it is deleted and created anew, and deleted at the end. *)
Definition setup_world : world :=
  bench_world (accepts [Auth [] []] ++ answers (QueueExist []) 1 ++
    accepts [QueueDelete []; QueueCreate [] 0 0 0]).
Definition cleanup_world : world :=
  bench_world (accepts [Auth [] []] ++ answers (QueueExist []) 1 ++ answers (QueueSize []) 7 ++
    accepts [QueueDelete []]).

Lemma server_prepared_witness :
  (∃ w', is_frame (first_frame 5 setup_world) w' ∧
    setup_server init_config setup_world = Returns ([], inl tt) w') ∧
  ∃ w', is_frame (first_frame 5 cleanup_world) w' ∧
    cleanup_server init_config cleanup_world = Returns ([mk_printed
      (ln "Delete queue '%s' (size: %d)") [AStr QUEUE_NAME; AInt 7]], inl tt) w'.
Proof.
  split.
  - pose proof (proj1 (server_prepared init_config setup_world (Forall_nil_2 _) (Forall_nil_2 _))) as H.
    assert (s_setup init_config (first_session setup_world) = Answer ([], O, inl true)
      (match s_setup init_config (first_session setup_world) with Answer _ s => s
       | _ => first_session setup_world end)) as Hs by (vm_compute; reflexivity).
    rewrite Hs in H. eexists. split; [apply is_frame_world_of|exact H].
  - pose proof (proj2 (server_prepared init_config cleanup_world (Forall_nil_2 _) (Forall_nil_2 _))) as H.
    assert (s_cleanup init_config (first_session cleanup_world) = Answer ([mk_printed
      (ln "Delete queue '%s' (size: %d)") [AStr QUEUE_NAME; AInt 7]], O, inl true)
      (match s_cleanup init_config (first_session cleanup_world) with Answer _ s => s
       | _ => first_session cleanup_world end)) as Hs by (vm_compute; reflexivity).
    rewrite Hs in H. eexists. split; [apply is_frame_world_of|exact H].
Defined.

Lemma int_div_positive a b w :
  0 < b → int_range 32 a → int_div a b w = Returns (Z.quot a b) w.
Proof.
  intros Hb Ha. unfold int_div. rewrite decide_False by lia. apply arith_in.
  unfold int_range in *. destruct (decide (0 ≤ a)) as [Hp|Hp].
  - rewrite Z.quot_div_nonneg by lia. pose proof (Z.div_pos a b). pose proof (Z.div_le_upper_bound a b a).
    nia.
  - rewrite <-(Z.opp_involutive a), Z.quot_opp_l, Z.quot_div_nonneg by lia.
    pose proof (Z.div_pos (- a) b). pose proof (Z.div_le_upper_bound (- a) b (- a)). nia.
Qed.

Lemma opens_connect c : opens (connect_calls c) (connect c).
Proof. apply connected_opens. intros w Q Ha Hs HQ. by apply wp_connect_config. Qed.

Lemma worker_outcome c d text w :
  allocs 4 w → calls (connect_calls c) w → 0 < clients c → int_range 32 (messages c) →
  points_to (w_heap w) d (Some <$> (text ++ [NUL]) : buffer) →
  msg_size c = Z.of_nat (length text) → 180 + Z.of_nat (length text) ≤ MAX_RW_COUNT →
  let f := first_frame (connect_calls c) w in
  match s_worker c (Z.to_nat (Z.quot (messages c) (clients c))) text (first_session w) with
  | Answer (o, _, inl true) s' => worker c (Some d) w = Returns (o, inl tt) (world_of f (ss_mallocs s'))
  | Answer (o, _, inl false) s' =>
      ∃ w' f' l p, worker c (Some d) w = Returns (o, inl tt) w' ∧
        holds p (worker_msg c d) f f' ∧ rep l s' f' w'
  | Answer (o, _, inr code) _ => ∃ w', worker c (Some d) w = Returns (o, inr code) w'
  | Starved => ∃ w', worker c (Some d) w = Blocks w'
  | Unspecified => True
  end.
Proof.
  intros Ha Hs Hcl Hm Hd Hsize Hlen f. rewrite worker_with_session.
  rewrite (lift_step _ _ _ _ _ (int_div_positive _ _ w Hcl Hm)).
  destruct (opens_connect c w Ha Hs) as (l & w1 & Hw1 & Hr). rewrite (lift_step _ _ _ _ _ Hw1).
  set (n := Z.to_nat _).
  pose proof (sim_implements l _ _ (λ f, outputs (worker_leaves c d f)) f _ w1
    (runs_worker l c d text n f Hd Hsize Hlen _ _ Hr)) as Hi.
  unfold implements in Hi. destruct (s_worker _ _ _ _) as [[[o k] [ok|code]] s'| |]; [| | |done].
  - destruct Hi as (y & f' & w2 & Hw2 & Hr2 & -> & Hok). simpl in Hw2, Hok. destruct ok; simpl in Hok.
    + subst f'. rewrite <-(app_nil_r o). eapply prog_returns; [exact Hw2|].
      by apply lift_returns, disconnect_returns.
    + destruct Hok as [p Hp]. exists w2, f', l, p. split; [|done]. rewrite <-(app_nil_r o).
      by eapply prog_returns; [exact Hw2|].
  - destruct Hi as (y & f' & w2 & Hw2 & _ & -> & _). exists w2. by apply prog_exits.
  - destruct Hi as [w2 Hw2]. exists w2. by apply prog_blocks.
Qed.

(** C22: a worker, connected: it enables the mode without acknowledgement if it is configured,
    authenticates, declares the queue and pushes its share of the messages; when all pushes
    succeed, memory and sockets are as before; at the first that fails it prints the error and
    returns with its connection still open and its message still allocated. *)
Theorem worker_pushes c d text w :
  allocs 4 w → calls (connect_calls c) w → 0 < clients c → int_range 32 (messages c) →
  points_to (w_heap w) d (Some <$> (text ++ [NUL]) : buffer) →
  msg_size c = Z.of_nat (length text) → 180 + Z.of_nat (length text) ≤ MAX_RW_COUNT →
  let f := first_frame (connect_calls c) w in
  match s_worker c (Z.to_nat (Z.quot (messages c) (clients c))) text (first_session w) with
  | Answer (o, _, inl true) s' => worker c (Some d) w = Returns (o, inl tt) (world_of f (ss_mallocs s'))
  | Answer (o, _, inl false) s' =>
      ∃ w' f' l p, worker c (Some d) w = Returns (o, inl tt) w' ∧
        holds p (worker_msg c d) f f' ∧ rep l s' f' w'
  | Answer (o, _, inr code) _ => ∃ w', worker c (Some d) w = Returns (o, inr code) w'
  | Starved => ∃ w', worker c (Some d) w = Blocks w'
  | Unspecified => True
  end.
Proof. apply worker_outcome. Qed.

(** Two messages per worker; the server takes both, or refuses the second. *)
Definition taking : world :=
  bench_world (accepts [Auth [] []; QueueDeclare []; QueuePush [] 0; QueuePush [] 0]).
Definition losing : world :=
  bench_world (accepts [Auth [] []; QueueDeclare []; QueuePush [] 0] ++ [RdErr]).

Lemma worker_pushes_witness :
  (∃ w', worker bench_config (Some 1%positive) taking = Returns ([], inl tt) w' ∧
    is_frame (first_frame 5 taking) w') ∧
  ∃ o s' w' f' l p, worker bench_config (Some 1%positive) losing = Returns (o, inl tt) w' ∧
    length o = 1%nat ∧ holds p (worker_msg bench_config 1%positive) (first_frame 5 losing) f' ∧
    rep l s' f' w'.
Proof.
  split.
  - pose proof (worker_pushes bench_config 1%positive [Byte.x41] taking (Forall_nil_2 _)
      (Forall_nil_2 _) eq_refl ltac:(by vm_compute) eq_refl eq_refl ltac:(by vm_compute)) as H.
    destruct (s_worker _ _ _ _) as [[[o n] [ok|code]] s| |] eqn:Hs; vm_compute in Hs; simplify_eq.
    eexists. split; [exact H|apply is_frame_world_of].
  - pose proof (worker_pushes bench_config 1%positive [Byte.x41] losing (Forall_nil_2 _)
      (Forall_nil_2 _) eq_refl ltac:(by vm_compute) eq_refl eq_refl ltac:(by vm_compute)) as H.
    destruct (s_worker _ _ _ _) as [[[o n] [ok|code]] s| |] eqn:Hs; vm_compute in Hs; simplify_eq.
    destruct H as (w' & f' & l & p & Hw & Hp & Hr). eauto 10.
Defined.

(** What a worker does before it creates its message. *)
Definition s_announce (c : config) : Spec unit :=
  s_configure_noack c;;
  _ ← s_command (Auth (str (user_name c)) (str (user_password c)));
  _ ← s_command (QueueDeclare QUEUE_NAME);
  mret tt.

(** Fact: the workers do not check the result of [emq_msg_create]: when there
    is no memory for the message, setting its time to live dereferences the null pointer,
    whatever the server answered before. *)
Theorem worker_null_message c d n l f s w s' :
  rep l s f w → s_announce c s = Answer tt s' → hd true (ss_mallocs s') = false →
  worker_session c d n (Some l) w = Faults NullPointer.
Proof.
  intros Hr Ha Hm. unfold s_announce in Ha. unfold mbind at 1, Spec_bind at 1 in Ha.
  destruct (s_configure_noack c s) as [[] s1| |] eqn:H1; [|done..].
  destruct (refines_answer _ _ _ _ _ _ _ _ (refines_configure_noack l c) Hr H1) as (w1 & Hw1 & Hr1).
  unfold mbind at 1, Spec_bind at 1 in Ha.
  destruct (s_command (Auth _ _) s1) as [r2 s2| |] eqn:H2; [|done..].
  destruct (refines_answer _ _ _ _ _ _ _ _ (refines_command_of l (Auth (str (user_name c))
    (str (user_password c))) _ eq_refl) Hr1 H2) as (w2 & Hw2 & Hr2).
  unfold mbind at 1, Spec_bind at 1 in Ha.
  destruct (s_command (QueueDeclare _) s2) as [r3 s3| |] eqn:H3; [|done..].
  destruct (refines_answer _ _ _ _ _ _ _ _ (refines_command_of l (QueueDeclare QUEUE_NAME) _ eq_refl)
    Hr2 H3) as (w3 & Hw3 & [g Hg]). injection Ha as ->.
  pose proof (rep_mallocs _ _ _ _ _ Hg) as Hms. rewrite Hms in Hm.
  unfold worker_session.
  rewrite (lift_step _ _ _ _ _ Hw1), (lift_step _ _ _ _ _ Hw2), (lift_step _ _ _ _ _ Hw3).
  unfold emq_msg_create. destruct (w_mallocs w3) as [|[] ms] eqn:Hm3; [done..|].
  rewrite (lift_step _ _ NULL w3 (set_mallocs ms w3)); [by apply lift_faults|].
  unfold malloc, mbind, M_bind. by rewrite Hm3.
Qed.

(** A server that accepts the two first commands, and no memory for the message. *)
Lemma worker_null_message_witness :
  let w := mk_world (sample_heap ∅) [false] {[3 := mk_sock
    (RdData ∘ response_header_bytes ∘ success_reply <$> [Auth [] []; QueueDeclare []]) [] []]} [] [] in
  worker_session init_config NULL 10 (Some 1%positive) w = Faults NullPointer.
Proof.
  intros w. refine (worker_null_message init_config NULL 10 1%positive (sample_frame ∅)
    (new_session (mk_sock
      (RdData ∘ response_header_bytes ∘ success_reply <$> [Auth [] []; QueueDeclare []]) [] [])
      [false]) w _ _ _ _).
  - apply sample_sock_rep. by repeat constructor.
  - vm_compute. reflexivity.
  - reflexivity.
Defined.

