(* ===== verification/Threads.v ===== *)
(** The threads of the benchmark [src/src/benchmark.c]: the table of the threads that run the
    workers, its creation, the joins, and its release.

    A [pthread_t] has eight bytes. [pthread_create] and [pthread_join] are functions of the
    system: the former gives the [i]th thread an identifier, or fails; the latter has a result
    for every identifier. What the threads do is in [Load]. *)

From S2P Require Import Prelude Types Machine Lists Network Protocol Client Session Packet Commands.
From S2P Require Import Messages Queries Listings Subscriptions Connection Sample Program Simple.
From S2P Require Import Benchmark.

(** [memcpy(p + offset, bs, |bs|)] *)
Definition store_at (p : ptr) (offset : nat) (bs : list byte) : M unit :=
  cells ← load (T := buffer) p;
  if decide (offset + length bs ≤ length cells)%nat
  then store p (take offset cells ++ (Some <$> bs) ++ drop (offset + length bs) cells)
  else undefined OutOfBounds.

(** The [n] bytes at [p + offset], all of which must be initialised. *)
Definition read_at (p : ptr) (offset n : nat) : M (list byte) :=
  cells ← load (T := buffer) p;
  if decide (offset + n ≤ length cells)%nat then
    match initialised (take n (drop offset cells)) with
    | Some bs => mret bs
    | None => undefined Uninitialised
    end
  else undefined OutOfBounds.

Section threads.
Context (pthread_create : nat → option Z) (pthread_join : Z → Z).

(** [n] more iterations of the loops, from the index [i]. *)
Fixpoint create_loop (threads : ptr) (i n : nat) : Prog unit :=
  match n with
  | O => mret tt
  | S n =>
      match pthread_create i with
      | Some id => lift (store_at threads (8 * i) (le_bytes 8 id));; create_loop threads (S i) n
      | None => printf (ln "Error create thread %d") [AInt (Z.of_nat i)];; exit (-1)
      end
  end.

(** The result is the list of the threads that are joined. *)
Fixpoint join_loop (threads : ptr) (i n : nat) : Prog (list Z) :=
  match n with
  | O => mret []
  | S n =>
      bytes ← lift (read_at threads (8 * i) 8);
      let id := le_value bytes in
      (if decide (pthread_join id ≠ 0)
       then printf (ln "Error process thread %d") [AInt (Z.of_nat i)] else mret tt);;
      ids ← join_loop threads (S i) n;
      mret (id :: ids)
  end.

(** The result is the value of [threads]. *)
Definition init_threads (c : config) : Prog ptr :=
  threads ← lift (allocate (8 * clients c));
  match threads with
  | None => printf (ln "Error allocate memory") [];; exit (-1)
  | Some _ => create_loop threads 0 (Z.to_nat (clients c));; mret threads
  end.

Definition process_threads (c : config) (threads : ptr) : Prog (list Z) :=
  join_loop threads 0 (Z.to_nat (clients c)).

Definition destroy_threads (threads : ptr) : M unit := free threads.

(** ** The table *)

Definition table (ids : list Z) : list byte := ids ≫= le_bytes 8.

Lemma length_table ids : length (table ids) = (8 * length ids)%nat.
Proof.
  induction ids as [|id ids IH]; [done|].
  change (table (id :: ids)) with (le_bytes 8 id ++ table ids).
  rewrite length_app, IH, length_le_bytes. simpl. lia.
Qed.

Lemma table_snoc ids id : table (ids ++ [id]) = table ids ++ le_bytes 8 id.
Proof. unfold table. rewrite bind_app.
  change ([id] ≫= le_bytes 8) with (le_bytes 8 id ++ []). by rewrite app_nil_r. Qed.

(** The threads [i .. i + n - 1]. *)
Definition threads_created (i n : nat) (ids : list Z) : Prop :=
  length ids = n ∧ ∀ j id, ids !! j = Some id → pthread_create (i + j)%nat = Some id.

Lemma threads_created_cons i n id ids :
  threads_created i (S n) (id :: ids) ↔ pthread_create i = Some id ∧ threads_created (S i) n ids.
Proof.
  unfold threads_created. simpl. split.
  - intros [Hl Hids]. split; [by rewrite <-(Hids O), Nat.add_0_r|]. split; [lia|].
    intros j x Hx. rewrite <-(Hids (S j) x Hx). f_equal. lia.
  - intros (Hid & Hl & Hids). split; [lia|]. intros [|j] x Hx; simplify_eq/=.
    + by rewrite Nat.add_0_r.
    + rewrite <-(Hids j x Hx). f_equal. lia.
Qed.

Lemma store_at_next p (ids : list Z) (id : Z) (rest : buffer) w :
  points_to (w_heap w) p ((Some <$> table ids) ++ rest : buffer) → (8 ≤ length rest)%nat →
  store_at (Some p) (8 * length ids) (le_bytes 8 id) w =
    Returns tt (set_heap (<[p := inject ((Some <$> table (ids ++ [id])) ++ drop 8 rest : buffer)]>
      (w_heap w)) w).
Proof.
  intros Hp Hr. unfold store_at, mbind, M_bind, load. rewrite Hp, project_inject.
  rewrite length_app, length_fmap, length_table, length_le_bytes, decide_True by lia.
  unfold store. rewrite Hp, project_inject. do 4 f_equal. unfold buffer.
  rewrite take_app_exact by (by rewrite length_fmap, length_table).
  rewrite drop_app, length_fmap, length_table, drop_ge by (rewrite length_fmap, length_table; lia).
  replace (8 * length ids + 8 - 8 * length ids)%nat with 8%nat by lia.
  by rewrite table_snoc, fmap_app, <-app_assoc.
Qed.

Lemma create_loop_returns p n ids0 ids rest w :
  threads_created (length ids0) n ids → points_to (w_heap w) p ((Some <$> table ids0) ++ rest : buffer) →
  (8 * n ≤ length rest)%nat →
  create_loop (Some p) (length ids0) n w =
    Returns ([], inl tt) (set_heap
      (<[p := inject ((Some <$> table (ids0 ++ ids)) ++ drop (8 * n) rest : buffer)]> (w_heap w)) w).
Proof.
  revert ids0 ids rest w. induction n as [|n IH]; intros ids0 ids rest w Hids Hp Hr.
  - destruct Hids as [Hl _]. apply nil_length_inv in Hl as ->.
    rewrite app_nil_r, drop_0, insert_id by exact Hp. by destruct w.
  - destruct ids as [|id ids]; [by destruct Hids|]. apply threads_created_cons in Hids as [Hid Hids].
    simpl create_loop. rewrite Hid.
    assert (8 ≤ length rest)%nat as H8. { lia. }
    rewrite (lift_step _ _ _ _ _ (store_at_next p ids0 id rest w Hp H8)).
    pose proof (IH (ids0 ++ [id]) ids (drop 8 rest)) as IH'.
    rewrite length_app, Nat.add_1_r in IH'. rewrite IH'; [|done| |rewrite length_drop; lia].
    + rewrite set_heap_set_heap. unfold set_heap at 2. cbn [w_heap].
      rewrite insert_insert_eq, <-app_assoc, drop_drop. do 4 f_equal.
      by replace (8 * S n)%nat with (8 + 8 * n)%nat by lia.
    + apply lookup_insert_eq.
Qed.

(** A thread that cannot be created. *)
Lemma create_loop_fails p k n ids0 ids rest w :
  threads_created (length ids0) k ids → pthread_create (length ids0 + k) = None → (k < n)%nat →
  points_to (w_heap w) p ((Some <$> table ids0) ++ rest : buffer) → (8 * n ≤ length rest)%nat →
  ∃ w', create_loop (Some p) (length ids0) n w =
    Returns ([mk_printed (ln "Error create thread %d") [AInt (Z.of_nat (length ids0 + k))]], inr (-1)) w'.
Proof.
  revert n ids0 ids rest w. induction k as [|k IH]; intros [|n] ids0 ids rest w Hids Hk Hn Hp Hr;
    [lia| |lia|].
  - rewrite Nat.add_0_r in *. exists w. simpl create_loop. by rewrite Hk.
  - destruct ids as [|id ids]; [by destruct Hids|]. apply threads_created_cons in Hids as [Hid Hids].
    simpl create_loop. rewrite Hid. assert (8 ≤ length rest)%nat as H8 by lia.
    rewrite (lift_step _ _ _ _ _ (store_at_next p ids0 id rest w Hp H8)).
    pose proof (IH n (ids0 ++ [id]) ids (drop 8 rest)) as IH'.
    rewrite length_app, Nat.add_1_r, Nat.add_succ_comm in IH'.
    apply IH'; [done|done|lia|apply lookup_insert_eq|rewrite length_drop; lia].
Qed.

(** The joins that fail are reported. *)
Fixpoint join_errors (i : nat) (ids : list Z) : list printed :=
  match ids with
  | [] => []
  | id :: ids =>
      (if decide (pthread_join id ≠ 0)
       then [mk_printed (ln "Error process thread %d") [AInt (Z.of_nat i)]] else []) ++
      join_errors (S i) ids
  end.

Lemma read_at_table p ids0 id ids w :
  points_to (w_heap w) p (Some <$> table (ids0 ++ id :: ids) : buffer) →
  read_at (Some p) (8 * length ids0) 8 w = Returns (le_bytes 8 id) w.
Proof.
  intros Hp. unfold read_at, mbind, M_bind, load. rewrite Hp, project_inject.
  rewrite length_fmap, length_table, length_app, decide_True by (simpl; lia).
  unfold table. rewrite bind_app, fmap_app, drop_app_exact
    by (rewrite length_fmap; apply length_table).
  change ((id :: ids) ≫= le_bytes 8) with (le_bytes 8 id ++ table ids).
  rewrite fmap_app, take_app_exact by (by rewrite length_fmap, length_le_bytes).
  by rewrite initialised_Some.
Qed.

Lemma join_loop_returns p ids0 ids w :
  points_to (w_heap w) p (Some <$> table (ids0 ++ ids) : buffer) →
  Forall (λ id, 0 ≤ id < 2 ^ 64) ids →
  join_loop (Some p) (length ids0) (length ids) w =
    Returns (join_errors (length ids0) ids, inl ids) w.
Proof.
  revert ids0. induction ids as [|id ids IH]; intros ids0 Hp Hids; [done|].
  apply Forall_cons in Hids as [Hid Hids]. simpl join_loop.
  rewrite (lift_step _ _ _ _ _ (read_at_table p ids0 id ids w Hp)).
  rewrite le_value_bytes, Z.mod_small by exact Hid. cbv zeta.
  change (join_errors _ (id :: ids)) with ((if decide (pthread_join id ≠ 0)
    then [mk_printed (ln "Error process thread %d") [AInt (Z.of_nat (length ids0))]] else []) ++
      join_errors (S (length ids0)) ids).
  eapply (prog_returns _ _ _ _ tt _ _ w); [by case_decide|].
  rewrite <-(app_nil_r (join_errors _ _)). eapply prog_returns; [|done].
  pose proof (IH (ids0 ++ [id])) as IH'. rewrite length_app, Nat.add_1_r, <-app_assoc in IH'.
  by apply IH'.
Qed.
End threads.

(** The threads are created, joined, and their table is released. *)
Lemma init_threads_returns pthread_create c ids w :
  0 ≤ clients c < 2 ^ 31 → hd true (w_mallocs w) = true →
  threads_created pthread_create 0 (Z.to_nat (clients c)) ids →
  ∃ p, w_heap w !! p = None ∧ init_threads pthread_create c w = Returns ([], inl (Some p))
    (set_mallocs (tail (w_mallocs w))
      (set_heap (<[p := inject (Some <$> table ids : buffer)]> (w_heap w)) w)).
Proof.
  intros Hc Hm Hids. destruct (allocate_ok (8 * clients c) w ltac:(lia) Hm) as (p & Hp & Ha).
  exists p. split; [done|]. set (w1 := set_mallocs _ _) in Ha.
  assert (length (uninit (8 * clients c)) = (8 * Z.to_nat (clients c))%nat) as Hlen.
  { unfold uninit. rewrite length_replicate. lia. }
  pose proof (create_loop_returns pthread_create p (Z.to_nat (clients c)) [] ids
    (uninit (8 * clients c)) w1 Hids (lookup_insert_eq _ _ _)) as Hcreate.
  rewrite drop_ge, app_nil_r in Hcreate by lia. unfold w1 in Hcreate at 2 3.
  cbn [w_heap set_heap set_mallocs] in Hcreate. rewrite insert_insert_eq in Hcreate.
  unfold init_threads. rewrite (lift_step _ _ _ _ _ Ha). rewrite <-(app_nil_r []).
  eapply prog_returns; [|done]. apply Hcreate. lia.
Qed.

Lemma process_threads_returns pthread_join c p ids w :
  points_to (w_heap w) p (Some <$> table ids : buffer) → length ids = Z.to_nat (clients c) →
  Forall (λ id, 0 ≤ id < 2 ^ 64) ids →
  process_threads pthread_join c (Some p) w = Returns (join_errors pthread_join 0 ids, inl ids) w.
Proof.
  intros Hp Hl Hids. unfold process_threads. rewrite <-Hl. by apply (join_loop_returns pthread_join p [] ids).
Qed.

(** ** Theorems *)

(** Fact: when every thread can be created, the table has room for all of them, and
    exactly the threads that were created are joined, each once and in order; the joins that
    fail are reported, and the table is given back. *)
Theorem threads_joined pthread_create pthread_join c ids w :
  0 ≤ clients c < 2 ^ 31 → hd true (w_mallocs w) = true →
  threads_created pthread_create 0 (Z.to_nat (clients c)) ids → Forall (λ id, 0 ≤ id < 2 ^ 64) ids →
  ∃ p w', init_threads pthread_create c w = Returns ([], inl (Some p)) w' ∧
    process_threads pthread_join c (Some p) w' = Returns (join_errors pthread_join 0 ids, inl ids) w' ∧
    destroy_threads (Some p) w' = Returns tt (set_heap (w_heap w) w').
Proof.
  intros Hc Hm Hids Hrange.
  destruct (init_threads_returns pthread_create c ids w Hc Hm Hids) as (p & Hp & Hi).
  eexists p, _. split; [exact Hi|]. split.
  - apply process_threads_returns; [apply lookup_insert_eq|apply Hids|done].
  - unfold destroy_threads, free. cbn [w_heap set_heap set_mallocs].
    by rewrite lookup_insert_eq, delete_insert_id.
Qed.

Lemma threads_joined_witness :
  let w := mk_world ∅ [] ∅ [] [] in
  let create := λ i, Some (Z.of_nat i + 100) in
  let join := λ id, if decide (id = 101) then 3 else 0 in
  ∃ p w', init_threads create (set_clients 3 init_config) w = Returns ([], inl (Some p)) w' ∧
    process_threads join (set_clients 3 init_config) (Some p) w' =
      Returns ([mk_printed (ln "Error process thread %d") [AInt 1]], inl [100; 101; 102]) w' ∧
    destroy_threads (Some p) w' = Returns tt (set_heap (w_heap w) w').
Proof.
  intros w create join.
  apply (threads_joined create join (set_clients 3 init_config) [100; 101; 102] w).
  - by vm_compute.
  - reflexivity.
  - split; [reflexivity|]. by intros [|[|[|j]]] id [= <-].
  - by repeat constructor.
Defined.

(** Fact: the first thread that cannot be created is reported, and the
    process exits with -1. *)
Theorem thread_creation_fails pthread_create c k ids w :
  0 ≤ clients c < 2 ^ 31 → hd true (w_mallocs w) = true → Z.of_nat k < clients c →
  threads_created pthread_create 0 k ids → pthread_create k = None →
  ∃ w', init_threads pthread_create c w =
    Returns ([mk_printed (ln "Error create thread %d") [AInt (Z.of_nat k)]], inr (-1)) w'.
Proof.
  intros Hc Hm Hk Hids Hnone.
  destruct (allocate_ok (8 * clients c) w ltac:(lia) Hm) as (p & Hp & Ha).
  set (w1 := set_mallocs _ _) in Ha.
  destruct (create_loop_fails pthread_create p k (Z.to_nat (clients c)) [] ids
    (uninit (8 * clients c)) w1 Hids Hnone) as [w2 Hw2]; [lia|apply lookup_insert_eq| |].
  - unfold uninit. rewrite length_replicate. lia.
  - exists w2. unfold init_threads. rewrite (lift_step _ _ _ _ _ Ha). by apply prog_exits.
Qed.

Lemma thread_creation_fails_witness :
  ∃ w', init_threads (λ i, if decide (i = 2%nat) then None else Some 9) init_config
      (mk_world ∅ [] ∅ [] []) =
    Returns ([mk_printed (ln "Error create thread %d") [AInt 2]], inr (-1)) w'.
Proof.
  apply (thread_creation_fails (λ i, if decide (i = 2%nat) then None else Some 9) init_config 2
    [9; 9] (mk_world ∅ [] ∅ [] [])).
  - by vm_compute.
  - reflexivity.
  - by vm_compute.
  - split; [reflexivity|]. by intros [|[|j]] id [= <-].
  - reflexivity.
Defined.
