(* ===== verification/Run.v ===== *)
(** [main] of the benchmark [src/src/benchmark.c], with its parts and its threads put together.

    The threads are scheduled in the simplest way: they run to their ends, one after the other,
    after the last was created and before the first is joined. The other schedules are in
    [Concurrent]. *)

From S2P Require Import Prelude Types Machine Lists Network Protocol Client Session Packet Commands.
From S2P Require Import Messages Queries Listings Subscriptions Kept Connection Sample Program Simple.
From S2P Require Import Pool Benchmark Load Threads.

(** [start] and [end_] are the seconds and microseconds of the two calls of [gettimeofday]. *)
Definition benchmark_main (rand : nat → Z) (pthread_create : nat → option Z) (pthread_join : Z → Z)
    (start end_ : Z * Z) (args : list string) : Prog Z :=
  c ← parse_args args init_config;
  printf (ln "Starting benchmarking...") [];;
  start ← lift (mstime start.1 start.2);
  setup_server c;;
  message_data ← init_message rand c;
  threads ← init_threads pthread_create c;
  for_loop (clients c) (worker c message_data);;
  _ ← process_threads pthread_join c threads;
  end_ ← lift (mstime end_.1 end_.2);
  print_statistics c start end_;;
  lift (destroy_message message_data);;
  lift (destroy_threads threads);;
  cleanup_server c;;
  mret 0.

(** ** Memory that does not run out *)

Lemma plentiful_setup c : respects plentiful (s_setup c).
Proof. unfold s_setup. keep_prog. Qed.
Lemma plentiful_cleanup c : respects plentiful (s_cleanup c).
Proof. unfold s_cleanup. keep_prog. Qed.
Lemma plentiful_push_loop n payload text : respects plentiful (s_push_loop n payload text).
Proof. induction n as [|n IH]; simpl; keep_prog. Qed.
Lemma plentiful_worker c n text : respects plentiful (s_worker c n text).
Proof. unfold s_worker, s_configure_noack. pose proof plentiful_push_loop. keep_prog. Qed.

(** ** The run *)

Lemma conversation h socks sk peers k (a : SProg bool) o n s out :
  conversed (first_frame k (at_peers h socks (sk :: peers))) (a (first_session (at_peers h socks (sk :: peers))))
    out → respects plentiful a → a (new_session sk []) = Answer (o, n, inl true) s →
  out = Returns (o, inl tt) (at_peers h socks peers).
Proof.
  intros Hc Ha Hs. change (first_session _) with (new_session sk []) in Hc.
  rewrite Hs in Hc. simpl in Hc. rewrite Hc. unfold world_of, first_frame, at_peers. simpl.
  by rewrite (Ha _ _ _ Hs eq_refl), drop_nil.
Qed.

(** The peer of a worker takes all its messages. *)
Definition takes_all (c : config) (n : nat) (text : list byte) (sk : sock) : Prop :=
  ∃ k s, s_worker c n text (new_session sk []) = Answer ([], k, inl true) s.

Lemma workers_run c d text h socks peers rest :
  0 < clients c → int_range 32 (messages c) → points_to h d (Some <$> (text ++ [NUL]) : buffer) →
  msg_size c = Z.of_nat (length text) → 180 + Z.of_nat (length text) ≤ MAX_RW_COUNT →
  Forall (takes_all c (Z.to_nat (Z.quot (messages c) (clients c))) text) peers →
  Nat.iter (length peers) (λ k : Prog unit, worker c (Some d);; k) (mret tt)
    (at_peers h socks (peers ++ rest)) = Returns ([], inl tt) (at_peers h socks rest).
Proof.
  intros Hc Hm Hd Hs Hlen. induction 1 as [|sk peers (k & s & Hw) _ IH]; [done|].
  simpl. rewrite <-(app_nil_r []). eapply prog_returns; [|exact IH].
  pose proof (worker_outcome c d text (at_peers h socks (sk :: peers ++ rest)) (allocs_at _ _ _ _)
    (calls_at _ _ _ _) Hc Hm Hd Hs Hlen) as Ho.
  cbv zeta in Ho. change (first_session _) with (new_session sk []) in Ho. rewrite Hw in Ho.
  rewrite Ho. unfold world_of, first_frame, at_peers. simpl.
  by rewrite (plentiful_worker _ _ _ _ _ _ Hw eq_refl), drop_nil.
Qed.

(** A step that prints nothing. *)
Lemma prog_silent {A B} (m : Prog A) (k : A → Prog B) o x r w w1 w2 :
  m w = Returns ([], inl x) w1 → k x w1 = Returns (o, r) w2 → (m ≫= k) w = Returns (o, r) w2.
Proof. intros Hm Hk. rewrite <-(app_nil_l o). by eapply prog_returns. Qed.

(** A time whose milliseconds are a [long long]. *)
Definition clock (t : Z * Z) : Prop := 0 ≤ t.1 < 2 ^ 40 ∧ 0 ≤ t.2 < 1000000.
Definition milliseconds (t : Z * Z) : Z := t.1 * 1000 + Z.quot t.2 1000.

Lemma mstime_returns t w :
  clock t → mstime t.1 t.2 w = Returns (milliseconds t) w ∧ 0 ≤ milliseconds t < 2 ^ 51.
Proof.
  intros [H1 H2]. unfold mstime, milliseconds. rewrite Z.quot_div_nonneg by lia.
  pose proof (Z.div_pos t.2 1000). pose proof (Z.div_lt_upper_bound t.2 1000 1000).
  split; [|lia]. unfold mbind, M_bind. rewrite arith_in by (unfold int_range; lia).
  apply arith_in. unfold int_range. lia.
Qed.

(** The configurations that the benchmark can run with: the statistics do not overflow, and a
    message can be sent in one piece. *)
Record runnable (c : config) : Prop := {
  runnable_clients : 1 ≤ clients c < 2 ^ 31;
  runnable_messages : int_range 32 (messages c);
  runnable_bytes : int_range 32 (messages c * msg_size c);
  runnable_size : 0 ≤ msg_size c ≤ MAX_RW_COUNT - 180;
}.

(** The end of the run: the message and the table are released, the server is cleaned up. *)
Lemma benchmark_ends c d t text_cells ids_cells start end_ h socks sk o n s :
  runnable c → 0 ≤ start < 2 ^ 51 → clock end_ → h !! d = None → <[d := text_cells]> h !! t = None →
  s_cleanup c (new_session sk []) = Answer (o, n, inl true) s →
  (end_ms ← lift (mstime end_.1 end_.2);
   print_statistics c start end_ms;;
   lift (destroy_message (Some d));;
   lift (destroy_threads (Some t));;
   cleanup_server c;;
   (mret 0 : Prog Z)) (at_peers (<[t := ids_cells]> (<[d := text_cells]> h)) socks [sk]) =
    Returns (report c start (milliseconds end_) ++ o, inl 0) (at_peers h socks []).
Proof.
  intros [] Hstart Hend Hd Ht Hs. set (w := at_peers _ _ _).
  destruct (mstime_returns end_ w Hend) as [Hms Hrange]. rewrite (lift_step _ _ _ _ _ Hms).
  eapply prog_returns.
  { rewrite print_statistics_eq, decide_True; [done|]. split; [unfold int_range; lia|done]. }
  assert (t ≠ d) as Htd by (intros ->; by rewrite lookup_insert_eq in Ht).
  rewrite (lift_step _ _ tt w (at_peers (<[t := ids_cells]> h) socks [sk])).
  2:{ unfold destroy_message, free, w, at_peers, set_heap. simpl.
      rewrite lookup_insert_ne, lookup_insert_eq by done. do 2 f_equal.
      by rewrite delete_insert_ne, delete_insert_id by done. }
  rewrite (lift_step _ _ tt _ (at_peers h socks [sk])).
  2:{ unfold destroy_threads, free, at_peers, set_heap. simpl. rewrite lookup_insert_eq.
      rewrite lookup_insert_ne in Ht by done. by rewrite delete_insert_id. }
  rewrite <-(app_nil_r o). eapply prog_returns; [|done].
  eapply conversation; [|apply plentiful_cleanup|exact Hs]. rewrite cleanup_server_session.
  apply session_conversed; [auto with emq..|]. intros l f. apply steady_cleanup.
Qed.

(** The beginning of the run: the command line, the server and the message. *)
Lemma benchmark_begins rand start args c h socks sk rest o n s :
  ¬ help args → described args init_config = c → runnable c → clock start →
  s_setup c (new_session sk []) = Answer (o, n, inl true) s →
  let text := random_text rand (Z.to_nat (msg_size c)) in
  length text = Z.to_nat (msg_size c) ∧
  ∃ d, h !! d = None ∧ ∀ A (K : config → Z → ptr → Prog A) o' r w,
    K c (milliseconds start) (Some d)
      (at_peers (<[d := inject (Some <$> (text ++ [NUL]) : buffer)]> h) socks rest) =
        Returns (o', r) w →
    (c ← parse_args args init_config;
     printf (ln "Starting benchmarking...") [];;
     start ← lift (mstime start.1 start.2);
     setup_server c;;
     message_data ← init_message rand c;
     K c start message_data) (at_peers h socks (sk :: rest)) =
      Returns ([mk_printed (ln "Starting benchmarking...") []] ++ o ++ o', r) w.
Proof.
  intros Hh Hargs [Hcl Hm Hb Hs] Hstart Hsetup text. split; [apply length_random_text|].
  destruct (init_message_returns rand c (at_peers h socks rest)) as (d & Hd & Hmsg);
    [unfold MAX_RW_COUNT in Hs; lia|done|].
  exists d. split; [done|]. intros A K o' r w HK. eapply prog_silent.
  { rewrite parse_args_eq, decide_False by done. by rewrite Hargs. }
  eapply prog_returns; [done|].
  destruct (mstime_returns start (at_peers h socks (sk :: rest)) Hstart) as [Hms _].
  rewrite (lift_step _ _ _ _ _ Hms). eapply prog_returns.
  { eapply conversation; [|apply plentiful_setup|exact Hsetup]. rewrite setup_server_session.
    apply session_conversed; [auto with emq..|]. intros l f. apply steady_setup. }
  eapply prog_silent; [exact Hmsg|]. exact HK.
Qed.

(** Fact: [main] of the benchmark, its threads scheduled one after the other, on a
    server that accepts its conversations: the queue is prepared, every worker pushes its share
    of the one message, every thread is joined, the statistics are printed, the queue is deleted;
    the process returns 0 with its memory and its sockets as before. *)
Theorem benchmark_completes rand pthread_create pthread_join start end_ args c ids h socks
    sk_setup sk_workers sk_cleanup o1 n1 s1 o2 n2 s2 :
  ¬ help args → described args init_config = c → runnable c → clock start → clock end_ →
  threads_created pthread_create 0 (Z.to_nat (clients c)) ids →
  Forall (λ id, 0 ≤ id < 2 ^ 64) ids → length sk_workers = Z.to_nat (clients c) →
  s_setup c (new_session sk_setup []) = Answer (o1, n1, inl true) s1 →
  Forall (takes_all c (Z.to_nat (Z.quot (messages c) (clients c)))
    (random_text rand (Z.to_nat (msg_size c)))) sk_workers →
  s_cleanup c (new_session sk_cleanup []) = Answer (o2, n2, inl true) s2 →
  benchmark_main rand pthread_create pthread_join start end_ args
      (at_peers h socks (sk_setup :: sk_workers ++ [sk_cleanup])) =
    Returns ([mk_printed (ln "Starting benchmarking...") []] ++ o1 ++ join_errors pthread_join 0 ids ++
      report c (milliseconds start) (milliseconds end_) ++ o2, inl 0) (at_peers h socks []).
Proof.
  intros Hh Hargs Hc Ht1 Ht2 Hids Hrange Hl H1 Hw H2. pose proof Hc as [Hcl Hm Hb Hs].
  destruct (mstime_returns start (at_peers h socks []) Ht1) as [_ ?].
  destruct (benchmark_begins rand start args c h socks sk_setup (sk_workers ++ [sk_cleanup]) o1 n1 s1)
    as (Hlen & d & Hd & Hbegin); [done..|].
  set (text := random_text rand _) in *. set (h1 := <[d := _]> h) in *.
  destruct (init_threads_returns pthread_create c ids (at_peers h1 socks (sk_workers ++ [sk_cleanup])))
    as (t & Ht & Hthreads); [lia|done|done|].
  apply Hbegin. eapply prog_silent; [exact Hthreads|].
  change (set_mallocs _ _) with
    (at_peers (<[t := inject (Some <$> table ids : buffer)]> h1) socks (sk_workers ++ [sk_cleanup])).
  set (h2 := <[t := _]> h1). eapply prog_silent.
  { unfold for_loop. rewrite <-Hl.
    apply (workers_run c d text h2 socks sk_workers [sk_cleanup]); try done; [lia| |lia|lia].
    unfold h2. rewrite lookup_insert_ne by (intros ->; unfold h1 in Ht; cbn in Ht;
      by rewrite lookup_insert_eq in Ht). apply lookup_insert_eq. }
  eapply prog_returns.
  { apply process_threads_returns; [apply lookup_insert_eq|apply Hids|done]. }
  by eapply benchmark_ends.
Qed.

(** Two workers with two messages each. *)
Definition run_args : list string := ["-c"; "2"; "-m"; "4"; "-s"; "1"].
Definition run_peers : list sock :=
  let peer rx := mk_sock rx [] [] in
  let taking := peer (accepts [Auth [] []; QueueDeclare []; QueuePush [] 0; QueuePush [] 0]) in
  [ peer (accepts [Auth [] []] ++ answers (QueueExist []) 0 ++ accepts [QueueCreate [] 0 0 0]);
    taking; taking;
    peer (accepts [Auth [] []] ++ answers (QueueExist []) 1 ++ answers (QueueSize []) 4 ++
      accepts [QueueDelete []]) ].

Lemma benchmark_completes_witness :
  benchmark_main (λ i, Z.of_nat i) (λ i, Some (Z.of_nat i + 1)) (λ _, 0) (10, 0) (12, 500000)
      run_args (at_peers ∅ ∅ run_peers) =
    Returns ([mk_printed (ln "Starting benchmarking...") []] ++ [] ++ [] ++
      report bench_config 10000 12500 ++
      [mk_printed (ln "Delete queue '%s' (size: %d)") [AStr QUEUE_NAME; AInt 4]], inl 0)
      (at_peers ∅ ∅ []).
Proof.
  eapply (benchmark_completes (λ i, Z.of_nat i) (λ i, Some (Z.of_nat i + 1)) (λ _, 0) (10, 0)
    (12, 500000) run_args bench_config [1; 2] ∅ ∅ _ [_; _]).
  - apply (bool_decide_unpack _). by vm_compute.
  - reflexivity.
  - constructor; by vm_compute.
  - by vm_compute.
  - by vm_compute.
  - split; [reflexivity|]. by intros [|[|j]] id [= <-].
  - by repeat constructor.
  - reflexivity.
  - vm_compute. reflexivity.
  - repeat constructor; eexists _, _; vm_compute; reflexivity.
  - vm_compute. reflexivity.
Defined.
