(* ===== verification/Schedule.v ===== *)
(** Threads of a process, as the programs create them with [pthread_create] and wait for them with
    [pthread_join], and their schedules.

    A thread is a program cut into steps; between two steps other threads may run. A step is a
    call that the program makes: of the library, of the C library or of the system; and the loop
    of [emq_process] is cut between its events. So a whole function of the library is one turn,
    and so are one event and the callback that it runs; a schedule says nothing of an order
    inside of them.

    With one exception nothing could be observed there: the functions of the library and the
    callbacks touch the blocks and the socket of their own client, its message and the variables
    of [main] ([Pool.beside_client]), and the allocator and [stdout] serialize their callers
    ([strerror], which need not be safe for threads, is only called when a call of the system has
    failed, and the theorems on schedules are about those that do not). The
    exception is [gethostbyname] (network.c:100), which returns a static object that the library
    then reads: two threads may not be inside of it at once. So [emq_tcp_connect] of a host name
    takes two turns: the thread enters it, and the connection is made; and the process [Races] when
    a thread enters while another one is inside. What else the function does is local to its
    thread, so that it is the only place where the order matters. *)

From stdpp Require Import relations.
From S2P Require Import Prelude Types Machine Lists Network Client Session Messages Kept Connection.
From S2P Require Import Commands Program Specified Pool.

(** ** Threads *)

(** Where the step of a thread is: it may have to do with the static object of [gethostbyname]. *)
Inductive region := Outside | Entering | Inside.

#[export] Instance region_eq_dec : EqDecision region.
Proof. solve_decision. Defined.

Inductive thread :=
  | Ended
  | Act (r : region) {A : Type} (m : Prog A) (k : A → thread)
  | Create (child : thread) (k : option Z → thread)
  | Join (id : Z) (k : Z → thread).

Abbreviation Step := (Act Outside).

(** The region in which [emq_tcp_connect] connects to [addr]: [gethostbyname] is called when it is
    not the text of an address. *)
Definition resolution (addr : string) : region := if inet_aton addr then Outside else Entering.

(** The thread is inside of [gethostbyname]. *)
Definition inside (th : thread) : bool := match th with Act Inside _ _ => true | _ => false end.

(** The thread is about to enter it. *)
Definition entering (th : thread) : bool := match th with Act Entering _ _ => true | _ => false end.

(** What a thread that neither creates nor joins others does when nothing else runs. *)
Fixpoint alone (th : thread) : Prog unit :=
  match th with
  | Ended => mret tt
  | Act _ m k => x ← m; alone (k x)
  | Create _ _ | Join _ _ => lift out_of_fuel
  end.

(** The state of a process: its threads with their identifiers, how many calls of
    [pthread_create] it made, its output, and everything else. *)
Record process := mk_process {
  pr_threads : list (Z * thread);
  pr_created : nat;
  pr_output : list printed;
  pr_world : world;
}.

(** The turn of a thread: it makes a step; the process ends; the thread waits, for another thread
    or for its peer, or has ended; or it is undefined, by itself or because it enters
    [gethostbyname] while another thread is inside. *)
Inductive turn :=
  | Turns (p : process)
  | Ends (code : Z) (o : list printed) (w : world)
  | Waits
  | Crashes (e : fault)
  | Hangs
  | Races.

Definition ESRCH : Z := 3.

(** The thread with an identifier. *)
Fixpoint find_thread (id : Z) (ths : list (Z * thread)) : option thread :=
  match ths with
  | [] => None
  | (id', th) :: ths => if decide (id' = id) then Some th else find_thread id ths
  end.

Lemma find_thread_lookup i id th ths :
  NoDup ths.*1 → ths !! i = Some (id, th) → find_thread id ths = Some th.
Proof.
  revert i. induction ths as [|[id' th'] ths IH]; intros i Hnd Hi; [done|]. csimpl in *.
  apply NoDup_cons in Hnd as [Hid Hnd]. destruct i as [|i]; simpl in Hi.
  - injection Hi as -> ->. by rewrite decide_True.
  - rewrite decide_False; [by eapply IH|]. intros ->. apply Hid.
    apply list_elem_of_lookup_2 in Hi. exact (list_elem_of_fmap_2 fst _ _ Hi).
Qed.

Section schedule.
(** The identifier of the [i]th thread, unless it cannot be created. *)
Context (pthread_create : nat → option Z).

(** [pthread_join] waits for the end of the thread and returns 0, or fails when there is none. *)
Definition take_turn (i : nat) (p : process) : turn :=
  match pr_threads p !! i with
  | None | Some (_, Ended) => Waits
  | Some (id, Act Entering m k) =>
      if existsb (inside ∘ snd) (pr_threads p) then Races
      else Turns (mk_process (<[i := (id, Act Inside m k)]> (pr_threads p)) (pr_created p)
        (pr_output p) (pr_world p))
  | Some (id, Act _ m k) =>
      match m (pr_world p) with
      | Returns (o, inl x) w =>
          Turns (mk_process (<[i := (id, k x)]> (pr_threads p)) (pr_created p) (pr_output p ++ o) w)
      | Returns (o, inr code) w => Ends code (pr_output p ++ o) w
      | Faults e => Crashes e
      | Blocks _ => Waits
      | OutOfFuel => Hangs
      end
  | Some (id, Create child k) =>
      let r := pthread_create (pr_created p) in
      Turns (mk_process (<[i := (id, k r)]> (pr_threads p) ++
          match r with Some id' => [(id', child)] | None => [] end)
        (S (pr_created p)) (pr_output p) (pr_world p))
  | Some (id, Join id' k) =>
      match find_thread id' (pr_threads p) with
      | Some Ended => Turns (mk_process (<[i := (id, k 0)]> (pr_threads p)) (pr_created p)
          (pr_output p) (pr_world p))
      | Some _ => Waits
      | None => Turns (mk_process (<[i := (id, k ESRCH)]> (pr_threads p)) (pr_created p)
          (pr_output p) (pr_world p))
      end
  end.

(** The turn of a thread that is not about to enter. *)
Lemma take_turn_outside {A} i p id r (m : Prog A) k :
  pr_threads p !! i = Some (id, Act r m k) → r ≠ Entering →
  take_turn i p =
    match m (pr_world p) with
    | Returns (o, inl x) w =>
        Turns (mk_process (<[i := (id, k x)]> (pr_threads p)) (pr_created p) (pr_output p ++ o) w)
    | Returns (o, inr code) w => Ends code (pr_output p ++ o) w
    | Faults e => Crashes e
    | Blocks _ => Waits
    | OutOfFuel => Hangs
    end.
Proof using. intros Hi Hr. unfold take_turn. rewrite Hi. by destruct r. Qed.

Lemma take_turn_act {A} i p id r (m : Prog A) k o x w :
  pr_threads p !! i = Some (id, Act r m k) → r ≠ Entering → m (pr_world p) = Returns (o, inl x) w →
  take_turn i p = Turns (mk_process (<[i := (id, k x)]> (pr_threads p)) (pr_created p)
    (pr_output p ++ o) w).
Proof using. intros Hi Hr Hm. by rewrite (take_turn_outside i p id r m k Hi Hr), Hm. Qed.

Lemma take_turn_step {A} i p id (m : Prog A) k o x w :
  pr_threads p !! i = Some (id, Step m k) → m (pr_world p) = Returns (o, inl x) w →
  take_turn i p = Turns (mk_process (<[i := (id, k x)]> (pr_threads p)) (pr_created p)
    (pr_output p ++ o) w).
Proof using. intros Hi. by apply (take_turn_act i p id Outside m k). Qed.

Lemma take_turn_end {A} i p id (m : Prog A) k o code w :
  pr_threads p !! i = Some (id, Step m k) → m (pr_world p) = Returns (o, inr code) w →
  take_turn i p = Ends code (pr_output p ++ o) w.
Proof using. intros Hi Hm. unfold take_turn. by rewrite Hi, Hm. Qed.

(** A thread enters, unless another one is inside. *)
Lemma take_turn_enter {A} i p id (m : Prog A) k :
  pr_threads p !! i = Some (id, Act Entering m k) →
  take_turn i p = Turns (mk_process (<[i := (id, Act Inside m k)]> (pr_threads p)) (pr_created p)
    (pr_output p) (pr_world p)) ∨
  take_turn i p = Races ∧ ∃ j id' th, pr_threads p !! j = Some (id', th) ∧ inside th.
Proof using.
  intros Hi. unfold take_turn. rewrite Hi. destruct (existsb _ _) eqn:Hin; [right|by left].
  split; [done|]. apply existsb_exists in Hin as ([id' th] & Hin & Hth).
  apply list_elem_of_In, list_elem_of_lookup in Hin as [j Hj]. exists j, id', th.
  split; [done|]. by apply Is_true_true.
Qed.

(** Any thread may be scheduled next. *)
Definition turns : relation process := λ p p', ∃ i, take_turn i p = Turns p'.

(** A schedule: the numbers of the threads, in the order of their turns. *)
Fixpoint follow (schedule : list nat) (p : process) : option process :=
  match schedule with
  | [] => Some p
  | i :: schedule => match take_turn i p with Turns q => follow schedule q | _ => None end
  end.

(** After a schedule, the process races at the turn of the thread [i]. *)
Definition races_after (schedule : list nat) (i : nat) (p : process) : bool :=
  match follow schedule p with
  | Some q => match take_turn i q with Races => true | _ => false end
  | None => false
  end.

Lemma follow_turns schedule p q : follow schedule p = Some q → rtc turns p q.
Proof using.
  revert p. induction schedule as [|i schedule IH]; intros p; simpl; [by intros [= ->]|].
  destruct (take_turn i p) as [p'| | | | |] eqn:Hp; [|done..]. intros Hq.
  eapply rtc_l; [by exists i|by apply IH].
Qed.

(** Every schedule of [p] ends the process after [n] turns, with this result, output and state;
    on the way no thread is undefined, and the process is never stuck; it does not race unless it
    is [racy]. *)
Definition always_ends (racy : Prop) (n : nat) (p : process) (code : Z) (o : list printed) (w : world) : Prop :=
  ∀ k q, nsteps turns k p q →
    (k ≤ n)%nat ∧
    ((k < n)%nat → ∃ q', turns q q') ∧
    (k = n → ∃ i, take_turn i q = Ends code o w) ∧
    ∀ i, match take_turn i q with
         | Turns _ => (k < n)%nat
         | Ends code' o' w' => k = n ∧ code' = code ∧ o' = o ∧ w' = w
         | Waits => True
         | Races => racy
         | Crashes _ | Hangs => False
         end.

Section ends.
Context (racy : Prop).

(** The first turn of a process with a single thread. *)
Lemma always_ends_first n id th p q code o w :
  pr_threads p = [(id, th)] → take_turn 0 p = Turns q → always_ends racy n q code o w →
  always_ends racy (S n) p code o w.
Proof using.
  intros Hp Hq Hn. assert (∀ i, i ≠ O → take_turn i p = Waits) as Hother.
  { intros [|i] Hi; [done|]. unfold take_turn. by rewrite Hp. }
  intros k r Hr. inversion Hr as [|k' ? q' ? [i Hi] Hr']; subst.
  - split; [lia|]. split; [intros _; by exists q, O|]. split; [done|].
    intros i. destruct (decide (i = O)) as [->|Hi]; [rewrite Hq; lia|by rewrite Hother].
  - destruct (decide (i = O)) as [->|Hi0]; [|by rewrite Hother in Hi].
    assert (q' = q) as -> by congruence. destruct (Hn k' r Hr') as (Hle & Hlt & Heq & Hall).
    split; [lia|]. split; [intros ?; apply Hlt; lia|]. split; [intros ?; apply Heq; lia|].
    intros j. specialize (Hall j). destruct (take_turn j r); try done; [lia|].
    destruct Hall as (-> & Hall). done.
Qed.
End ends.

(** Races that do not happen. *)
Lemma always_ends_races (racy racy' : Prop) n p code o w :
  always_ends racy n p code o w → (∀ q i, rtc turns p q → take_turn i q = Races → racy') →
  always_ends racy' n p code o w.
Proof using.
  intros Hp Hr k q Hq. destruct (Hp k q Hq) as (H1 & H2 & H3 & Hall). split_and!; [done..|].
  intros i. specialize (Hall i). destruct (take_turn i q) eqn:Hi; try done.
  eapply Hr; [|exact Hi]. apply rtc_nsteps. by exists k.
Qed.

(** An invariant that counts the turns to come. *)
Section countdown.
Context (racy : Prop) (Inv : nat → process → Prop) (code : Z) (o : list printed) (w : world).
Hypothesis inv_turn : ∀ n p i, Inv (S n) p →
  match take_turn i p with
  | Turns q => Inv n q
  | Waits => True
  | Races => racy
  | _ => False
  end.
Hypothesis inv_progress : ∀ n p, Inv (S n) p → ∃ q, turns p q.
Hypothesis inv_last : ∀ p i, Inv 0 p →
  match take_turn i p with
  | Ends code' o' w' => code' = code ∧ o' = o ∧ w' = w
  | Waits => True
  | Races => racy
  | _ => False
  end.
Hypothesis inv_end : ∀ p, Inv 0 p → ∃ i, take_turn i p = Ends code o w.

Lemma inv_always_ends n p : Inv n p → always_ends racy n p code o w.
Proof using All.
  intros Hp k q Hq. revert n Hp. induction Hq as [p|k p q r [i Hi] Hq IH]; intros n Hp.
  - split; [lia|]. destruct n as [|n].
    + split; [lia|]. split; [by intros _; apply inv_end|].
      intros i. specialize (inv_last p i Hp). by destruct (take_turn i p).
    + split; [by intros _; eapply inv_progress|]. split; [done|].
      intros i. specialize (inv_turn n p i Hp). destruct (take_turn i p); try done. lia.
  - destruct n as [|n]; [specialize (inv_last p i Hp); by rewrite Hi in inv_last|].
    specialize (inv_turn n p i Hp). rewrite Hi in inv_turn.
    destruct (IH n inv_turn) as (Hle & Hlt & Heq & Hall).
    split; [lia|]. split; [intros ?; apply Hlt; lia|]. split; [intros ?; apply Heq; lia|].
    intros j. specialize (Hall j). destruct (take_turn j r); try done; [lia|].
    destruct Hall as (-> & Hall). done.
Qed.
End countdown.
End schedule.

(** ** A new client *)

Lemma opens_beside n connect f :
  opens n connect → fr_sys f = [] →
  ∃ l w', connect (world_of f []) = Returns (Some l) w' ∧
    beside (client l (new_session (next_sock (world_of f [])) []) ∗ emp)
      (set_fr_peers (drop 1 (fr_peers f)) f) w'.
Proof.
  destruct f as [h socks sys ps]. simpl. intros Hc ->.
  destruct (Hc (at_peers h socks ps) (allocs_at _ _ _ _) (calls_at _ _ _ _)) as (l & w' & Hw & Hr).
  exists l, w'. split; [exact Hw|]. apply beside_client. exists (first_frame n (at_peers h socks ps)).
  split; [exact Hr|]. split; [done|]. apply beside_emp. unfold first_frame, world_of. simpl.
  rewrite drop_nil. by destruct ps.
Qed.

(** ** Steps that return

    [triple P m P']: in a part of a process that owns [P], [m] returns, and owns [P'] then,
    whatever the rest of the process is. *)
Definition triple {A} (P : assn) (m : M A) (P' : A → assn) : Prop :=
  ∀ f w, beside P f w → ∃ x w', m w = Returns x w' ∧ beside (P' x) f w'.

Lemma triple_disconnect l s R : triple (client l s ∗ R) (emq_disconnect (Some l)) (λ _, R).
Proof.
  intros f w (f1 & Hr & Hs & HR)%beside_client. exists tt, (world_of f1 []).
  split; [|done]. rewrite (disconnect_returns _ _ _ _ Hr). by rewrite Hs.
Qed.

(** The messages of a thread. *)
Definition borrowed (d : loc) (size expire : Z) : emq_msg :=
  mk_msg (Some d) size 0 expire (Some EMQ_ZEROCOPY_ON).

Definition created_msg (d : loc) (size : Z) (R : assn) (x : ptr) : assn :=
  match x with Some p => owns p (inject (borrowed d size 0)) ∗ R | None => λ _ _, False end.

Lemma triple_msg_create l s d size R :
  triple (client l s ∗ R) (emq_msg_create (Some d) size EMQ_ZEROCOPY_ON)
    (created_msg d size (client l s ∗ R)).
Proof.
  intros f w (f1 & Hr & Hs & HR)%beside_client.
  destruct (msg_create_rep l s f1 w d size Hr) as (p & w' & f' & Hw' & Hr' & [Hp _ ->]); [by rewrite Hs|].
  unfold allocated in Hr'. rewrite Hs, drop_nil, <-Hs, set_ss_mallocs_id in Hr'.
  exists (Some p), w'. split; [exact Hw'|]. simpl. rewrite <-star_assoc, (star_comm (owns _ _)), star_assoc.
  apply beside_client. eexists. split; [exact Hr'|]. split; [done|]. apply beside_owns. simpl.
  rewrite lookup_insert_eq. split; [done|]. unfold set_heap, world_of in HR |- *. simpl.
  by rewrite delete_insert_id.
Qed.

Lemma triple_msg_expire p m time R :
  triple (owns p (inject m) ∗ R) (emq_msg_expire (Some p) time)
    (λ _, owns p (inject (set_msg_expire time m)) ∗ R).
Proof.
  intros f w [Hp HR]%beside_owns. eexists tt, _. split.
  - unfold emq_msg_expire, modify, mbind, M_bind, load, store. by rewrite Hp, project_inject, Hp, project_inject.
  - apply beside_owns. simpl. rewrite lookup_insert_eq. split; [done|]. unfold set_heap. simpl.
    by rewrite delete_insert_eq.
Qed.

Lemma triple_msg_release p d size expire R :
  triple (owns p (inject (borrowed d size expire)) ∗ R) (emq_msg_release (Some p)) (λ _, R).
Proof.
  intros f w [Hp HR]%beside_owns. eexists tt, _. split; [|exact HR].
  unfold emq_msg_release, free, mbind, M_bind, load. rewrite Hp, project_inject.
  cbn [borrowed msg_zero_copy]. rewrite decide_False by done. unfold mret, M_ret. cbn beta iota. by rewrite Hp.
Qed.

(** ** Threads that work on their own resources

    [safe shared Q n th t P]: beside any other parts of the process, the thread [th] that owns [P]
    makes [n] steps, prints nothing, and ends owning nothing; it may read the blocks [shared], and
    connects to the next [t] peers, which satisfy [Q]. *)
Section safe.
Context (shared : heap) (Q : sock → Prop).

(** The frame of a thread that will make [t] more connections. *)
Record ready (t : nat) (f : frame) : Prop := {
  ready_shared : shared ⊆ fr_heap f;
  ready_sys : fr_sys f = [];
  ready_enough : (t ≤ length (fr_peers f))%nat;
  ready_peers : Forall Q (take t (fr_peers f));
}.

(** The frame after [n] more connections. *)
Definition after_peers (n : nat) (f : frame) : frame := set_fr_peers (drop n (fr_peers f)) f.

Fixpoint safe (n : nat) (th : thread) (t : nat) (P : assn) : Prop :=
  match n with
  | O => th = Ended ∧ t = O ∧ P ≡ emp
  | S n =>
      match th with
      | Act Entering m k => safe n (Act Inside m k) t P
      | Act _ m k => ∀ f w, ready t f → beside P f w →
          ∃ x w' t' P', m w = Returns ([], inl x) w' ∧
            (t' ≤ t)%nat ∧ beside P' (after_peers (t - t') f) w' ∧ safe n (k x) t' P'
      | _ => False
      end
  end.

#[export] Instance safe_proper n th t : Proper ((≡) ==> iff) (safe n th t).
Proof.
  intros P P' HP. revert th. induction n as [|n IH]; intros th; simpl; [by rewrite HP|].
  destruct th as [|[| |] A m k| |]; [done|..|done|done]; [|by apply IH|];
    (split; intros Hs f w Hf Hw; apply Hs; try done; by rewrite HP in *).
Qed.

Lemma ready_le t t' f : ready t f → (t' ≤ t)%nat → ready t' f.
Proof.
  intros [H1 H2 H3 H4] Ht. constructor; [done|done|lia|].
  replace t' with (t' `min` t)%nat by lia. rewrite <-take_take. by apply Forall_take.
Qed.

(** A step of one thread beside the others. *)
Lemma safe_step n r A (m : Prog A) k t P R f w :
  safe (S n) (Act r m k) t P → r ≠ Entering → ready t f → beside (P ∗ R) f w →
  ∃ x w' t' P', m w = Returns ([], inl x) w' ∧
    (t' ≤ t)%nat ∧ beside (P' ∗ R) (after_peers (t - t') f) w' ∧ safe n (k x) t' P'.
Proof.
  intros Hs Hr [H1 H2 H3 H4] (f1 & Hw & HR)%beside_star.
  assert (fr_sys f1 = fr_sys f) as Hsys by by rewrite (beside_sys _ _ _ HR).
  assert (fr_peers f1 = fr_peers f) as Hpeers by by rewrite (beside_peers _ _ _ HR).
  assert (ready t f1) as Hf1.
  { constructor; [|congruence..]. etrans; [exact H1|]. exact (beside_frame _ _ _ HR). }
  assert (∃ x w' t' P', m w = Returns ([], inl x) w' ∧ (t' ≤ t)%nat ∧
    beside P' (after_peers (t - t') f1) w' ∧ safe n (k x) t' P') as (x & w' & t' & P' & Hm & Ht & Hw' & Hk)
    by (destruct r; [|done|]; by apply Hs).
  exists x, w', t', P'. split_and!; try done.
  apply beside_star. exists (after_peers (t - t') f1). split; [done|].
  unfold after_peers. rewrite Hpeers. exact (beside_set_peers _ _ _ (drop (t - t') (fr_peers f)) HR).
Qed.

(** A thread that has steps to make makes one. *)
Lemma safe_acts n th t P : safe (S n) th t P → ∃ r A (m : Prog A) k, th = Act r m k.
Proof. destruct th as [|r A m k| |]; [done|by exists r, A, m, k|done..]. Qed.

(** ** Steps of such threads *)

Lemma after_no_peers n f : after_peers (n - n) f = f.
Proof. unfold after_peers. rewrite Nat.sub_diag, drop_0. by destruct f. Qed.

Lemma safe_ended : safe 0 Ended 0 emp.
Proof. by simpl. Qed.

(** A thread that enters [gethostbyname] first. *)
Lemma safe_act {A} n r (m : Prog A) k t P :
  safe (S n) (Step m k) t P →
  safe ((if decide (r = Entering) then 1 else 0) + S n) (Act r m k) t P.
Proof. by destruct r. Qed.

(** A call of the library that connects to no peer. *)
Lemma safe_lift {A} n (m : M A) k t P :
  (∀ f w, ready t f → beside P f w →
    ∃ x w' P', m w = Returns x w' ∧ beside P' f w' ∧ safe n (k x) t P') →
  safe (S n) (Step (lift m) k) t P.
Proof.
  intros Hm f w Hf Hw.
  destruct (Hm f w Hf Hw) as (x & w' & P' & Hx & Hw' & Hs). exists x, w', t, P'.
  split; [by apply lift_returns|]. split; [done|]. by rewrite after_no_peers.
Qed.

Lemma safe_pure {A} n (m : M A) x k t P :
  (∀ w, m w = Returns x w) → safe n (k x) t P → safe (S n) (Step (lift m) k) t P.
Proof. intros Hm Hs. apply safe_lift. intros f w _ Hw. exists x, w, P. by rewrite Hm. Qed.

Lemma safe_triple {A} n (m : M A) k t P (P' : A → assn) :
  triple P m P' → (∀ x, (∃ h socks, P' x h socks) → safe n (k x) t (P' x)) →
  safe (S n) (Step (lift m) k) t P.
Proof.
  intros Hm Hk. apply safe_lift. intros f w _ Hw. destruct (Hm f w Hw) as (x & w' & Hx & Hw').
  exists x, w', (P' x). split; [done|]. split; [done|]. apply Hk.
  destruct (beside_parts _ _ _ Hw') as (h & socks & Hp & _). eauto.
Qed.

(** An operation of a client, according to the rest [K] of the specification of its thread. *)
Lemma safe_call {A B} n l s (m : M A) (a : Spec A) k R (K : A → SProg B) ans :
  (∀ f f1 w, shared ⊆ fr_heap f → beside R f (world_of f1 []) → rep l s f1 w →
    sim l s m a (same f1) w) →
  respects plentiful a → ss_mallocs s = [] →
  (s_lift a ≫= K) s = ans → (match ans with Answer _ _ => True | _ => False end) →
  (∀ x s1, ss_mallocs s1 = [] → K x s1 = ans → safe n (k x) 0 (client l s1 ∗ R)) →
  safe (S n) (Step (lift m) k) 0 (client l s ∗ R).
Proof.
  intros Hm Ha Hs HK Hans Hk. apply safe_lift. intros f w Hf Hw.
  apply beside_client in Hw as (f1 & Hr & _ & HR).
  rewrite s_lift_bind in HK. unfold mbind, Spec_bind in HK.
  destruct (a s) as [x s1| |] eqn:Hx; [|by subst ans..].
  pose proof (sim_implements l m a same f1 s w (Hm f f1 w (ready_shared _ _ Hf) HR Hr)) as Hi.
  unfold implements in Hi. rewrite Hx in Hi. destruct Hi as (y & f' & w' & Hw' & Hr' & -> & ->).
  assert (ss_mallocs s1 = []) as Hs1 by exact (Ha _ _ _ Hx Hs).
  exists x, w', (client l s1 ∗ R). split; [done|]. split; [|by apply Hk].
  apply beside_client. by exists f1.
Qed.

End safe.

(** ** Threads that are never undefined

    [secure shared th P]: whatever its peers do, and whatever other parts the process has, no step
    of the thread [th], which owns [P], is undefined but for races; it may read the blocks [shared];
    it may print, give up, leave blocks behind, or wait for ever. If it is the [leader], it may create
    threads, which own nothing at first, wait for them, and end the process. *)
Section secure.
Context (shared : heap) (leader : Prop).

Fixpoint secure (th : thread) (P : assn) : Prop :=
  match th with
  | Ended => True
  | Act _ m k => ∀ f w, shared ⊆ fr_heap f → fr_sys f = [] → beside P f w →
      match m w with
      | Returns (_, inl x) w' => ∃ P' n, beside P' (after_peers n f) w' ∧ secure (k x) P'
      | Returns (_, inr _) _ => leader
      | Blocks _ => True
      | _ => False
      end
  | Create child k => leader ∧ secure child emp ∧ ∀ r, secure (k r) P
  | Join _ k => leader ∧ ∀ r, secure (k r) P
  end.

#[export] Instance secure_proper th : Proper ((≡) ==> iff) (secure th).
Proof.
  intros P P' HP. induction th as [|r A m k IH|child _ k IH|id k IH]; simpl; [done| | |].
  - split; intros Hs f w Hf Hsys Hw; apply Hs; try done; by rewrite HP in *.
  - by setoid_rewrite IH.
  - by setoid_rewrite IH.
Qed.

(** A step beside the other parts of the process. *)
Lemma secure_step {A} r (m : Prog A) k P R f w :
  secure (Act r m k) P → shared ⊆ fr_heap f → fr_sys f = [] → beside (P ∗ R) f w →
  match m w with
  | Returns (_, inl x) w' => ∃ P' n, beside (P' ∗ R) (after_peers n f) w' ∧ secure (k x) P'
  | Returns (_, inr _) _ => leader
  | Blocks _ => True
  | _ => False
  end.
Proof.
  intros Hs Hf Hsys (f1 & Hw & HR)%beside_star.
  assert (fr_sys f1 = fr_sys f) as Hsys1 by by rewrite (beside_sys _ _ _ HR).
  assert (fr_peers f1 = fr_peers f) as Hpeers by by rewrite (beside_peers _ _ _ HR).
  specialize (Hs f1 w ltac:(etrans; [exact Hf|exact (beside_frame _ _ _ HR)]) ltac:(congruence) Hw).
  destruct (m w) as [[o [x|code]] w'| | |]; try done.
  destruct Hs as (P' & n & Hw' & Hk). exists P', n. split; [|done].
  apply beside_star. exists (after_peers n f1). split; [done|].
  unfold after_peers. rewrite Hpeers. exact (beside_set_peers _ _ _ (drop n (fr_peers f)) HR).
Qed.

Lemma secure_lift {A} (m : M A) k P :
  (∀ f w, shared ⊆ fr_heap f → fr_sys f = [] → beside P f w →
    match m w with
    | Returns x w' => ∃ P' n, beside P' (after_peers n f) w' ∧ secure (k x) P'
    | Blocks _ => True
    | Faults _ | OutOfFuel => False
    end) →
  secure (Step (lift m) k) P.
Proof.
  intros Hm f w Hf Hsys Hw. specialize (Hm f w Hf Hsys Hw).
  unfold lift, mbind, M_bind. by destruct (m w).
Qed.

Lemma secure_pure {A} (m : M A) x k P :
  (∀ w, m w = Returns x w) → secure (k x) P → secure (Step (lift m) k) P.
Proof.
  intros Hm Hs. apply secure_lift. intros f w _ _ Hw. rewrite Hm. exists P, O.
  by rewrite (after_no_peers 0).
Qed.

Lemma secure_triple {A} (m : M A) k P (P' : A → assn) :
  triple P m P' → (∀ x, (∃ h socks, P' x h socks) → secure (k x) (P' x)) → secure (Step (lift m) k) P.
Proof.
  intros Hm Hk. apply secure_lift. intros f w _ _ Hw. destruct (Hm f w Hw) as (x & w' & -> & Hw').
  exists (P' x), O. rewrite (after_no_peers 0). split; [done|]. apply Hk.
  destruct (beside_parts _ _ _ Hw') as (h & socks & Hp & _). eauto.
Qed.

(** Connecting to a server. *)
Lemma secure_opens r n connect k :
  opens n connect →
  (∀ l sk, secure (k (Some l)) (client l (new_session sk []) ∗ emp)) →
  secure (Act r (lift connect) k) emp.
Proof.
  intros Hc Hk. cut (secure (Step (lift connect) k) emp); [done|].
  apply secure_lift. intros f w _ Hsys ->%beside_emp.
  destruct (opens_beside n connect f Hc Hsys) as (l & w' & -> & Hw).
  eexists _, 1%nat. split; [exact Hw|apply Hk].
Qed.

Lemma secure_printf fmt args k P :
  Forall terminated args → secure (k tt) P → secure (Step (printf fmt args) k) P.
Proof.
  intros Hargs Hk f w _ _ Hw. unfold printf. rewrite decide_True by done. cbn.
  exists P, O. by rewrite (after_no_peers 0).
Qed.

(** A step on a client beside what the thread owns. *)
Lemma secure_client {A} l s (m : Prog A) k R :
  (∀ f f1 w, shared ⊆ fr_heap f → beside R f (world_of f1 []) → rep l s f1 w →
    match m w with
    | Returns (_, inl x) w' => ∃ s1 f2 R', rep l s1 f2 w' ∧ ss_mallocs s1 = [] ∧
        beside R' f (world_of f2 []) ∧ secure (k x) (client l s1 ∗ R')
    | Returns (_, inr _) _ => leader
    | Blocks _ => True
    | Faults _ | OutOfFuel => False
    end) →
  secure (Step m k) (client l s ∗ R).
Proof.
  intros Hm f w Hf Hsys Hw. apply beside_client in Hw as (f1 & Hr & _ & HR).
  specialize (Hm f f1 w Hf HR Hr). destruct (m w) as [[o [x|code]] w'| | |]; try done.
  destruct Hm as (s1 & f2 & R' & Hr' & Hs1 & HR' & Hk). exists (client l s1 ∗ R'), O.
  rewrite (after_no_peers 0). split; [|done]. apply beside_client. by exists f2.
Qed.

(** An operation of a client, with any server. *)
Lemma secure_call {A} (P : A → session → Prop) l s (m : M A) (a : Spec A) k R :
  (∀ f f1 w, shared ⊆ fr_heap f → beside R f (world_of f1 []) → rep l s f1 w →
    sim l s m a (same f1) w) →
  respects plentiful a → ss_mallocs s = [] → answers_with P a s →
  (∀ x s1, ss_mallocs s1 = [] → P x s1 → secure (k x) (client l s1 ∗ R)) →
  secure (Step (lift m) k) (client l s ∗ R).
Proof.
  intros Hm Ha Hs Hspec Hk. apply secure_client. intros f f1 w Hf HR Hr.
  pose proof (sim_implements l m a same f1 s w (Hm f f1 w Hf HR Hr)) as Hi.
  unfold implements in Hi. unfold answers_with in Hspec.
  unfold lift, mbind, M_bind. destruct (a s) as [x s1| |] eqn:Hx; [| |done].
  - destruct Hi as (y & f' & w' & -> & Hr' & -> & ->).
    assert (ss_mallocs s1 = []) as Hs1 by exact (Ha _ _ _ Hx Hs).
    exists s1, f1, R. split_and!; [done..|]. by apply Hk.
  - by destruct Hi as [w' ->].
Qed.

(** A call whose result the thread does not depend on. *)
Lemma secure_refined {A} l s (m : M A) (a : Spec A) k R :
  refines l m a → respects plentiful a → ss_mallocs s = [] → specified a s →
  (∀ x s1, ss_mallocs s1 = [] → secure (k x) (client l s1 ∗ R)) →
  secure (Step (lift m) k) (client l s ∗ R).
Proof.
  intros Hm Ha Hs Hspec Hk. eapply secure_call; [|exact Ha|done|exact Hspec|by auto].
  intros f f1 w _ _ Hr. by apply Hm.
Qed.

Lemma secure_create child k P :
  leader → secure child emp → (∀ r, secure (k r) P) → secure (Create child k) P.
Proof. done. Qed.
End secure.

(** ** Processes of such threads *)

Section secure_process.
Context (pthread_create : nat → option Z) (shared : heap).

Record secured (p : process) : Prop := {
  secured_parts : ∃ Ps f, Forall2 (λ th P, secure shared True th.2 P) (pr_threads p) Ps ∧
    shared ⊆ fr_heap f ∧ fr_sys f = [] ∧ beside (stars Ps) f (pr_world p);
}.

Lemma secured_turn i p :
  secured p →
  match take_turn pthread_create i p with
  | Turns q => secured q
  | Ends _ _ _ | Waits | Races => True
  | Crashes _ | Hangs => False
  end.
Proof.
  intros [(Ps & f & Hths & Hf & Hsys & Hw)].
  destruct (pr_threads p !! i) as [[id th]|] eqn:Hi; [|unfold take_turn; by rewrite Hi].
  destruct (Forall2_lookup_l _ _ _ _ _ Hths Hi) as (P & HP & Hth). cbn [snd] in Hth.
  destruct th as [|r A m k|child k|id' k]; [unfold take_turn; by rewrite Hi|..].
  - destruct (decide (r = Entering)) as [->|Hr].
    { destruct (take_turn_enter pthread_create i p id m k Hi) as [->|[-> _]]; [|done].
      constructor. exists Ps, f. split; [|done].
      rewrite <-(list_insert_id _ _ _ HP). by apply Forall2_insert. }
    rewrite (stars_lookup _ _ _ HP) in Hw.
    pose proof (secure_step shared True r m k P _ f _ Hth Hf Hsys Hw) as Hstep.
    rewrite (take_turn_outside pthread_create i p id r m k Hi Hr).
    destruct (m (pr_world p)) as [[o [x|code]] w'| | |]; [|done..].
    destruct Hstep as (P' & n & Hw' & Hx). constructor. exists (<[i := P']> Ps), (after_peers n f).
    split; [by apply Forall2_insert|]. split; [done|]. split; [done|]. simpl.
    by rewrite (stars_insert _ _ _ _ HP).
  - destruct Hth as (_ & Hchild & Hk). unfold take_turn. rewrite Hi. constructor.
    exists (Ps ++ if pthread_create (pr_created p) is Some _ then [emp] else []), f.
    split; [|split_and!; [done..|]].
    + apply Forall2_app.
      * rewrite <-(list_insert_id _ _ _ HP). apply Forall2_insert; [done|]. apply Hk.
      * destruct (pthread_create _); simpl; [|done]. constructor; [exact Hchild|done].
    + rewrite stars_app. destruct (pthread_create _); simpl; by rewrite ?star_emp.
  - destruct Hth as (_ & Hk).
    assert (∀ r, secured (mk_process (<[i := (id, k r)]> (pr_threads p)) (pr_created p)
      (pr_output p) (pr_world p))) as Hr.
    { intros r. constructor. exists Ps, f. split; [|done].
      rewrite <-(list_insert_id _ _ _ HP). apply Forall2_insert; [done|]. apply Hk. }
    unfold take_turn. rewrite Hi. destruct (find_thread _ _) as [[]|]; try done; apply Hr.
Qed.

Lemma secured_turns p q : secured p → rtc (turns pthread_create) p q → secured q.
Proof.
  intros Hp Hq. induction Hq as [|p p' q [i Hi] Hq IH]; [done|]. apply IH.
  pose proof (secured_turn i p Hp) as Ht. by rewrite Hi in Ht.
Qed.
End secure_process.

(** ** Processes that do not race

    [resolves n th]: at any time at most [n] of the threads that [th] and its children have become
    are inside of [gethostbyname]; a thread that creates another one hands over its share. *)
Fixpoint resolves (n : nat) (th : thread) : Prop :=
  match th with
  | Ended => True
  | Act r m k => (r = Outside ∨ (0 < n)%nat) ∧
      ∀ w o x w', m w = Returns (o, inl x) w' → resolves n (k x)
  | Create child k => ∃ n1 n2, (n1 + n2 ≤ n)%nat ∧ resolves n1 child ∧ ∀ r, resolves n2 (k r)
  | Join _ k => ∀ r, resolves n (k r)
  end.

(** At most one thread of the process can be inside. *)
Definition serial (p : process) : Prop := ∃ ns,
  Forall2 (λ th n, resolves n th.2) (pr_threads p) ns ∧ (sum_list ns ≤ 1)%nat.

Lemma sum_list_two ns i j n m :
  ns !! i = Some n → ns !! j = Some m → i ≠ j → (n + m ≤ sum_list ns)%nat.
Proof.
  revert i j. induction ns as [|k ns IH]; intros i j Hi Hj Hne; [done|].
  assert (∀ i m, ns !! i = Some m → m ≤ sum_list ns)%nat as Hone.
  { intros i' m' Hi'. pose proof (sum_insert id ns i' m' 0%nat Hi'). unfold id in *. lia. }
  destruct i as [|i], j as [|j]; simplify_eq/=.
  - apply Hone in Hj. lia.
  - apply Hone in Hi. lia.
  - specialize (IH i j Hi Hj ltac:(lia)). lia.
Qed.

Lemma resolves_mono n n' th : resolves n th → (n ≤ n')%nat → resolves n' th.
Proof.
  revert n n'. induction th as [|r A m k IH|child _ k IH|id k IH]; intros n n'; simpl; [done|..].
  - intros [Hr Hk] Hn. split; [destruct Hr; [by left|right; lia]|]. eauto.
  - intros (n1 & n2 & Hle & Hc & Hk) Hn. exists n1, n2. split; [lia|done].
  - eauto.
Qed.

Section serial.
Context (pthread_create : nat → option Z).

Lemma serial_turn i p :
  serial p →
  match take_turn pthread_create i p with Turns q => serial q | Races => False | _ => True end.
Proof.
  intros (ns & Hths & Hle).
  destruct (pr_threads p !! i) as [[id th]|] eqn:Hi; [|unfold take_turn; by rewrite Hi].
  destruct (Forall2_lookup_l _ _ _ _ _ Hths Hi) as (n & Hn & Hth). cbn [snd] in Hth.
  assert (∀ th', resolves n th' → serial (mk_process (<[i := (id, th')]> (pr_threads p))
    (pr_created p) (pr_output p) (pr_world p))) as Hput.
  { intros th' Hth'. exists ns. split; [|done].
    rewrite <-(list_insert_id _ _ _ Hn). by apply Forall2_insert. }
  destruct th as [|r A m k|child k|id' k]; [unfold take_turn; by rewrite Hi|..].
  - destruct Hth as [Hr Hk]. destruct (decide (r = Entering)) as [->|Hne].
    + destruct (take_turn_enter pthread_create i p id m k Hi) as [->|[-> (j & id' & th & Hj & Hin)]].
      { apply Hput. split; [right; by destruct Hr|done]. }
      destruct (Forall2_lookup_l _ _ _ _ _ Hths Hj) as (n' & Hn' & Hth'). cbn [snd] in Hth'.
      assert (i ≠ j) as Hij by (intros <-; rewrite Hi in Hj; by injection Hj as _ <-).
      assert (0 < n')%nat by (destruct th as [|[] B m' k'| |]; try done; by destruct Hth' as [[] _]).
      destruct Hr as [?|Hr]; [done|].
      pose proof (sum_list_two _ _ _ _ _ Hn Hn' Hij). lia.
    + rewrite (take_turn_outside pthread_create i p id r m k Hi Hne).
      destruct (m (pr_world p)) as [[o [x|code]] w'| | |] eqn:Hm; try done.
      apply Hk in Hm. exact (Hput _ Hm).
  - unfold take_turn. rewrite Hi. destruct Hth as (n1 & n2 & Hn12 & Hchild & Hk).
    exists (<[i := n2]> ns ++ if pthread_create (pr_created p) is Some _ then [n1] else []).
    pose proof (sum_insert (λ x, x) ns i n n2 Hn) as Hsum. split.
    + apply Forall2_app; [apply Forall2_insert; [done|apply Hk]|].
      destruct (pthread_create _); by repeat constructor.
    + rewrite sum_list_with_app. change (@Datatypes.id nat) with (λ x : nat, x) in *. destruct (pthread_create _); simpl; lia.
  - unfold take_turn. rewrite Hi. destruct (find_thread _ _) as [[]|]; try done; by apply Hput.
Qed.

Lemma serial_turns p q : serial p → rtc (turns pthread_create) p q → serial q.
Proof.
  intros Hp Hq. induction Hq as [|p p' q [i Hi] Hq IH]; [done|]. apply IH.
  pose proof (serial_turn i p Hp) as Ht. by rewrite Hi in Ht.
Qed.

Lemma serial_never_races p q i :
  serial p → rtc (turns pthread_create) p q → take_turn pthread_create i q ≠ Races.
Proof.
  intros Hp Hq Hr. pose proof (serial_turn i q (serial_turns p q Hp Hq)) as Ht. by rewrite Hr in Ht.
Qed.
End serial.
