(* ===== verification/Concurrent.v ===== *)
(** The benchmark [src/src/benchmark.c] with its threads running concurrently: the worker as a
    thread, [main] as the thread that creates and joins the workers, and every schedule of
    them. Workers that connect to a host by its name may race in [gethostbyname] ([racy]). *)

From stdpp Require Import relations.
From S2P Require Import Prelude Types Machine Lists Network Protocol Client Session Packet Commands.
From S2P Require Import Messages Queries Listings Subscriptions Kept Connection Sample Program Simple.
From S2P Require Import Pool Schedule Benchmark Load Threads Run.

(** ** The worker *)

Fixpoint push_thread (n : nat) (client message : ptr) : thread :=
  match n with
  | O =>
      Step (lift (emq_msg_release message)) (λ _,
      Step (lift (emq_disconnect client)) (λ _, Ended))
  | S n =>
      Step (lift (emq_queue_push client QUEUE_NAME message)) (λ status,
      if decide (status ≠ EMQ_STATUS_OK) then
        Step (lift (emq_last_error client)) (λ error,
        Step (printf (ln "Error push message to the queue: %s") [AText error]) (λ _, Ended))
      else push_thread n client message)
  end.

(** The region in which the worker connects: a socket of the domain AF_UNIX needs no address. *)
Definition connection (c : config) : region :=
  match unix_socket c with Some _ => Outside | None => resolution (host c) end.

Definition worker_thread (c : config) (message_data : ptr) : thread :=
  Step (lift (int_div (messages c) (clients c))) (λ msg,
  Act (connection c) (lift (connect c)) (λ client,
  match client with
  | Some _ =>
      Step (lift (configure_noack c client)) (λ _,
      Step (lift (emq_auth client (str (user_name c)) (str (user_password c)))) (λ _,
      Step (lift (emq_queue_declare client QUEUE_NAME)) (λ _,
      Step (lift (emq_msg_create message_data (u64 (msg_size c)) EMQ_ZEROCOPY_ON)) (λ message,
      Step (lift (emq_msg_expire message (u32 (expiration c)))) (λ _,
      push_thread (Z.to_nat msg) client message)))))
  | None => Step (say refused_line) (λ _, Ended)
  end)).

(** Run by itself, the thread is the program [worker]. *)
Lemma push_thread_alone n client message w :
  alone (push_thread n client message) w =
    (pushed ← push_loop n client message;
     if pushed : bool then
       lift (emq_msg_release message);;
       lift (emq_disconnect client)
     else mret tt) w.
Proof.
  revert w. induction n as [|n IH]; intros w; simpl.
  - rewrite prog_ret_l. apply prog_bind_ext. intros _ w1. apply prog_ret_r. by intros [] ?.
  - rewrite prog_assoc. apply prog_bind_ext. intros status w1. case_decide; [|apply IH].
    simpl. rewrite prog_assoc. apply prog_bind_ext. intros error w2.
    rewrite prog_assoc. apply prog_bind_ext. intros _ w3. by rewrite prog_ret_l.
Qed.

Lemma worker_thread_alone c d w : alone (worker_thread c d) w = worker c d w.
Proof.
  unfold worker_thread, worker. simpl. do 2 (apply prog_bind_ext; intros ? ?).
  case_match; simpl.
  - do 5 (apply prog_bind_ext; intros ? ?). apply push_thread_alone.
  - apply prog_ret_r. by intros [] ?.
Qed.

(** ** Its steps are safe *)

Section worker.
Context (c : config) (d : loc) (text : list byte) (shared : heap).
Context (Hd : points_to shared d (Some <$> (text ++ [NUL]) : buffer)).
Context (Hsize : msg_size c = Z.of_nat (length text)).
Context (Hlen : 180 + Z.of_nat (length text) ≤ MAX_RW_COUNT).
Context (Hclients : 0 < clients c) (Hmessages : int_range 32 (messages c)).

(** What the worker may assume of its peer. *)
Definition share : nat := Z.to_nat (Z.quot (messages c) (clients c)).
(** Its turns: one more when it enters [gethostbyname]. *)
Definition worker_turns : nat := S ((if decide (connection c = Entering) then 1 else 0) + (8 + share)).
Abbreviation peer := (takes_all c share text).
Abbreviation worker_safe := (safe shared peer).

(** The message of the worker beside the shared text. *)
Lemma worker_msg_at p f f1 :
  shared ⊆ fr_heap f → beside (owns p (inject (worker_msg c d)) ∗ emp) f (world_of f1 []) →
  msg_at (fr_heap f1) p (worker_msg c d) text.
Proof using Hd Hsize.
  intros Hf Hb. pose proof (beside_frame _ _ _ Hb) as Hsub. apply beside_owns in Hb as [Hp _].
  split; [exact Hp|]. split; [exact Hsize|]. exists d, [Some NUL]. split; [done|].
  pose proof Hd as Hd'. rewrite fmap_app in Hd'.
  exact (lookup_weaken _ _ _ _ (lookup_weaken _ _ _ _ Hd' Hf) Hsub).
Qed.

(** The rest of the worker's specification answers without an output. *)
Definition ends_well (b : answer (list printed * nat * (bool + Z))) : Prop :=
  ∃ k s, b = Answer ([], k, inl true) s.

Lemma ends_well_lift {A} (a : Spec A) x s1 (K : A → SProg bool) s :
  a s = Answer x s1 → ends_well ((s_lift a ≫= K) s) → ends_well (K x s1).
Proof using. intros Ha. rewrite s_lift_bind. unfold mbind, Spec_bind. by rewrite Ha. Qed.

Lemma push_thread_safe n l p s :
  ss_mallocs s = [] →
  ends_well (s_push_loop n (le_bytes 4 (u32 (expiration c)) ++ text) text s) →
  worker_safe (2 + n) (push_thread n (Some l) (Some p)) 0
    (client l s ∗ owns p (inject (worker_msg c d)) ∗ emp).
Proof using Hd Hsize Hlen.
  revert s. induction n as [|n IH]; intros s Hs Hw.
  - simpl push_thread. rewrite <-star_assoc, (star_comm (client l s)), star_assoc.
    eapply safe_triple; [apply triple_msg_release|intros [] _].
    eapply safe_triple; [apply triple_disconnect|intros [] _]. apply safe_ended.
  - destruct Hw as (k & s' & Hw). simpl in Hw.
    refine (safe_call _ _ _ l s _ _ _ _ _ _ _ _ Hs Hw I _).
    + intros f f1 w Hf Hb Hr.
      apply (sim_push_call (QueuePush QUEUE_NAME (4 + Z.of_nat (length text)))
        (λ c m, emq_queue_push c QUEUE_NAME m) l p (worker_msg c d) text);
        [simpl; by rewrite decide_True|done|by eapply worker_msg_at|done].
    + apply (respects_push plentiful).
    + intros status s1 Hs1 Hw1. case_decide as Hst; [|apply IH; [done|by exists k, s']].
      exfalso. revert Hw1. unfold mbind, SProg_bind, s_lift, mbind, Spec_bind, s_get, s_printf.
      simpl. case_decide; simpl; [|done]. by intros [= ? ?].
Qed.

Lemma safe_connect n k :
  (∀ l sk, peer sk → worker_safe n (k (Some l)) 0 (client l (new_session sk []) ∗ emp)) →
  worker_safe ((if decide (connection c = Entering) then 1 else 0) + S n)
    (Act (connection c) (lift (connect c)) k) 1 emp.
Proof using.
  intros Hk. apply safe_act. intros f w [_ Hsys Hlt Hps] ->%beside_emp.
  destruct (opens_beside _ _ f (opens_connect c) Hsys) as (l & w' & Hw & Hl).
  exists (Some l), w', O. eexists. split; [by apply lift_returns|]. split; [lia|].
  split; [exact Hl|]. apply Hk. destruct (fr_peers f) as [|sk ps] eqn:Hf; [simpl in Hlt; lia|].
  apply Forall_cons in Hps as [Hsk _]. unfold next_sock. simpl. by rewrite Hf.
Qed.

(** A call whose result the worker does not look at. *)
Lemma safe_announce {A} n l s (m : M A) (a : Spec A) k R (K : A → SProg bool) :
  ends_well ((s_lift a ≫= K) s) → refines l m a → respects plentiful a → ss_mallocs s = [] →
  (∀ x s1, ss_mallocs s1 = [] → ends_well (K x s1) → worker_safe n (k x) 0 (client l s1 ∗ R)) →
  worker_safe (S n) (Step (lift m) k) 0 (client l s ∗ R).
Proof using.
  intros (q & s' & Hw) Hm Ha Hs Hk. refine (safe_call _ _ _ l s _ _ _ _ _ _ _ Ha Hs Hw I _).
  - intros f f1 w _ _ Hr. by apply Hm.
  - intros x s1 Hs1 Hw1. apply Hk; [done|]. by exists q, s'.
Qed.

Lemma worker_thread_safe : worker_safe worker_turns (worker_thread c (Some d)) 1 emp.
Proof using Hd Hsize Hlen Hclients Hmessages.
  eapply safe_pure; [intros w; by apply int_div_positive|]. apply safe_connect.
  intros l sk (q & s' & Hw). assert (ends_well (s_worker c share text (new_session sk []))) as Hends.
  { by exists q, s'. }
  clear q s' Hw. unfold s_worker in Hends.
  eapply safe_announce; [exact Hends|apply refines_configure_noack|unfold s_configure_noack; keep|done|].
  clear Hends. intros ? s1 Hs1 Hends.
  eapply safe_announce; [exact Hends|library_call|apply (respects_command plentiful)|done|].
  clear Hends. intros ? s2 Hs2 Hends.
  eapply safe_announce; [exact Hends|library_call|apply (respects_command plentiful)|done|].
  clear Hends. intros ? s3 Hs3 Hends. apply (ends_well_lift _ true s3) in Hends.
  2:{ unfold s_malloc. rewrite Hs3. simpl. f_equal. destruct s3; simpl in *; by subst. }
  eapply safe_triple; [apply triple_msg_create|intros [p|] (? & ? & Hp); [clear Hp|done]].
  eapply safe_triple; [apply triple_msg_expire|intros [] _].
  rewrite <-star_assoc, (star_comm _ (client l s3)), star_assoc.
  assert (set_msg_expire (u32 (expiration c)) (borrowed d (u64 (msg_size c)) 0) = worker_msg c d) as ->.
  { unfold borrowed, worker_msg, set_msg_expire. simpl. rewrite u64_small; [done|].
    unfold MAX_RW_COUNT in Hlen. lia. }
  by apply push_thread_safe.
Qed.
End worker.

(** ** [main] *)

(** [n] more iterations of the loop of [init_threads] from the index [i], and of the one of
    [process_threads], before [finish]. *)
Fixpoint create_threads (threads : ptr) (child : thread) (i n : nat) (finish : thread) : thread :=
  match n with
  | O => finish
  | S n =>
      Create child (λ r,
      match r with
      | Some id => Step (lift (store_at threads (8 * i) (le_bytes 8 id))) (λ _,
          create_threads threads child (S i) n finish)
      | None => Step (printf (ln "Error create thread %d") [AInt (Z.of_nat i)];; exit (-1))
          (λ _ : unit, Ended)
      end)
  end.

Definition report_join (i : nat) (r : Z) : Prog unit :=
  if decide (r ≠ 0) then printf (ln "Error process thread %d") [AInt (Z.of_nat i)] else mret tt.

Fixpoint join_threads (threads : ptr) (i n : nat) (finish : thread) : thread :=
  match n with
  | O => finish
  | S n =>
      Step (lift (read_at threads (8 * i) 8)) (λ bytes,
      Join (le_value bytes) (λ r,
      Step (report_join i r) (λ _, join_threads threads (S i) n finish)))
  end.

(** [main] up to the first [pthread_create]: the configuration, the time, the message and the
    table of the threads. *)
Definition main_begin (rand : nat → Z) (start : Z * Z) (args : list string) :
    Prog (config * Z * ptr * ptr) :=
  c ← parse_args args init_config;
  printf (ln "Starting benchmarking...") [];;
  start ← lift (mstime start.1 start.2);
  setup_server c;;
  message_data ← init_message rand c;
  threads ← lift (allocate (8 * clients c));
  match threads with
  | None => printf (ln "Error allocate memory") [];; exit (-1)
  | Some _ => mret (c, start, message_data, threads)
  end.

(** [main] after the last [pthread_join]. *)
Definition main_end (end_ : Z * Z) (c : config) (start : Z) (message_data threads : ptr) : Prog Z :=
  end_ ← lift (mstime end_.1 end_.2);
  print_statistics c start end_;;
  lift (destroy_message message_data);;
  lift (destroy_threads threads);;
  cleanup_server c;;
  mret 0.

(** The process ends when [main] returns. *)
Definition main_finish (end_ : Z * Z) (c : config) (start : Z) (message_data threads : ptr) : thread :=
  Step (code ← main_end end_ c start message_data threads; exit code) (λ _ : unit, Ended).

Definition main_thread (rand : nat → Z) (start end_ : Z * Z) (args : list string) : thread :=
  Step (main_begin rand start args) (λ '(c, start, message_data, threads),
  let n := Z.to_nat (clients c) in
  create_threads threads (worker_thread c message_data) 0 n
    (join_threads threads 0 n (main_finish end_ c start message_data threads))).

(** The process when [main] is called. *)
Definition benchmark_process (rand : nat → Z) (start end_ : Z * Z) (args : list string) (self : Z)
    (w : world) : process :=
  mk_process [(self, main_thread rand start end_ args)] 0 [] w.

(** ** The phases of [main]

    Where [main] is, with the identifiers of the threads that are done with and to do: it is about
    to create the next thread; it has to store its identifier; to read it, to join the thread,
    and to report the result. *)

Inductive phase :=
  | Creating (done : list Z) (id : Z) (todo : list Z)
  | Storing (done : list Z) (id : Z) (todo : list Z)
  | Reading (done todo : list Z)
  | Joining (done : list Z) (id : Z) (todo : list Z)
  | Reporting (done : list Z) (id : Z) (todo : list Z).

Definition phase_ids (ph : phase) : list Z :=
  match ph with
  | Creating ids1 id ids2 | Storing ids1 id ids2 | Joining ids1 id ids2 | Reporting ids1 id ids2 =>
      ids1 ++ id :: ids2
  | Reading ids1 ids2 => ids1 ++ ids2
  end.

(** The threads that exist, and those whose identifiers are in the table. *)
Definition phase_created (ph : phase) : list Z :=
  match ph with
  | Creating ids1 _ _ => ids1
  | Storing ids1 id _ => ids1 ++ [id]
  | _ => phase_ids ph
  end.
Definition phase_stored (ph : phase) : list Z :=
  match ph with
  | Creating ids1 _ _ | Storing ids1 _ _ => ids1
  | _ => phase_ids ph
  end.
(** The number of the threads that were joined. *)
Definition phase_joined (ph : phase) : nat :=
  match ph with
  | Reading ids1 _ | Joining ids1 _ _ => length ids1
  | Reporting ids1 _ _ => S (length ids1)
  | _ => O
  end.

(** All threads are joined. *)
Definition last_phase (ph : phase) : Prop := match ph with Reading _ [] => True | _ => False end.
#[export] Instance last_phase_dec ph : Decision (last_phase ph).
Proof. destruct ph as [| |? []| |]; simpl; apply _. Defined.

Section phases.
Context (pthread_create : nat → option Z) (end_ : Z * Z).
Context (self : Z) (c : config) (start : Z) (ids : list Z) (d t : loc).

Definition child : thread := worker_thread c (Some d).
Definition finish : thread := main_finish end_ c start (Some d) (Some t).
Definition joins (i n : nat) : thread := join_threads (Some t) i n finish.
Definition creations (i n : nat) : thread :=
  create_threads (Some t) child i n (joins 0 (length ids)).

Definition phase_thread (ph : phase) : thread :=
  match ph with
  | Creating ids1 _ ids2 => creations (length ids1) (S (length ids2))
  | Storing ids1 id ids2 =>
      Step (lift (store_at (Some t) (8 * length ids1) (le_bytes 8 id))) (λ _,
        creations (S (length ids1)) (length ids2))
  | Reading ids1 ids2 => joins (length ids1) (length ids2)
  | Joining ids1 id ids2 =>
      Join id (λ r, Step (report_join (length ids1) r) (λ _, joins (S (length ids1)) (length ids2)))
  | Reporting ids1 _ ids2 =>
      Step (report_join (length ids1) 0) (λ _, joins (S (length ids1)) (length ids2))
  end.

(** What follows a phase, and the thread that it creates. *)
Definition next_phase (ph : phase) : phase :=
  match ph with
  | Creating ids1 id ids2 => Storing ids1 id ids2
  | Storing ids1 id [] => Reading [] ids
  | Storing ids1 id (id' :: ids2) => Creating (ids1 ++ [id]) id' ids2
  | Reading ids1 (id :: ids2) => Joining ids1 id ids2
  | Reading _ [] => ph
  | Joining ids1 id ids2 => Reporting ids1 id ids2
  | Reporting ids1 id ids2 => Reading (ids1 ++ [id]) ids2
  end.
Definition spawned (ph : phase) : list (Z * thread) :=
  match ph with Creating _ id _ => [(id, child)] | _ => [] end.

Lemma next_phase_ids ph : phase_ids ph = ids → phase_ids (next_phase ph) = ids.
Proof using.
  destruct ph as [ids1 id ids2|ids1 id [|id' ids2]|ids1 [|id ids2]|ids1 id ids2|ids1 id ids2]; simpl;
    try done; intros <-; by rewrite <-app_assoc.
Qed.

Lemma next_phase_created ph :
  phase_ids ph = ids → phase_created (next_phase ph) = phase_created ph ++ (spawned ph).*1.
Proof using.
  destruct ph as [ids1 id ids2|ids1 id [|id' ids2]|ids1 [|id ids2]|ids1 id ids2|ids1 id ids2]; simpl;
    intros <-; rewrite ?app_nil_r; try done; by rewrite <-app_assoc.
Qed.

(** The table with the first identifiers. *)
Definition cells (stored : list Z) : buffer :=
  (Some <$> table stored) ++ replicate (8 * (length ids - length stored)) None.

Lemma cells_full : cells ids = (Some <$> table ids).
Proof using. unfold cells. rewrite Nat.sub_diag. apply app_nil_r. Qed.

(** The table after one more store. *)
Lemma store_cells ids1 id R f w :
  (length ids1 < length ids)%nat → beside (owns t (inject (cells ids1)) ∗ R) f w →
  ∃ w', store_at (Some t) (8 * length ids1) (le_bytes 8 id) w = Returns tt w' ∧
    beside (owns t (inject (cells (ids1 ++ [id]))) ∗ R) f w'.
Proof using.
  intros Hlt [Ht HR]%beside_owns. unfold cells in Ht.
  eexists. split.
  - apply store_at_next; [exact Ht|]. rewrite length_replicate. lia.
  - apply beside_owns. simpl. rewrite lookup_insert_eq. split.
    + do 2 f_equal. unfold cells. f_equal. rewrite drop_replicate. f_equal.
      rewrite length_app. simpl. lia.
    + unfold set_heap. simpl. by rewrite delete_insert_eq.
Qed.

Context (Hids : threads_created pthread_create 0 (length ids) ids) (Hnodup : NoDup (self :: ids)).
Context (Hrange : Forall (λ id, 0 ≤ id < 2 ^ 64) ids).

(** The process in a phase, with the threads [ths] that [main] created. *)
Definition in_phase (ph : phase) (ths : list (Z * thread)) (o : list printed) (w : world) : process :=
  mk_process ((self, phase_thread ph) :: ths) (length (phase_created ph)) o w.

(** What the turn of [main] has found out: the thread that it joined has ended. *)
Definition found_ended (ph : phase) (ths : list (Z * thread)) : Prop :=
  match ph with Joining ids1 id _ => ths !! length ids1 = Some (id, Ended) | _ => True end.

(** The turn of [main] goes on to the next phase, beside anything else in the process. *)
Definition main_goes_on (ph : phase) (ths : list (Z * thread)) (R : assn) (f : frame)
    (o : list printed) (w : world) : Prop :=
  ∃ w', take_turn pthread_create 0 (in_phase ph ths o w) =
      Turns (in_phase (next_phase ph) (ths ++ spawned ph) o w') ∧
    beside (owns t (inject (cells (phase_stored (next_phase ph)))) ∗ R) f w' ∧ found_ended ph ths.

Lemma main_creates ids1 id ids2 ths R f o w :
  ids1 ++ id :: ids2 = ids → beside (owns t (inject (cells ids1)) ∗ R) f w →
  main_goes_on (Creating ids1 id ids2) ths R f o w.
Proof using Hids.
  intros Heq Hb. assert (pthread_create (length ids1) = Some id) as Hc.
  { apply (proj2 Hids). by rewrite <-Heq, list_lookup_middle. }
  exists w. split; [|done]. unfold take_turn. simpl. rewrite Hc. unfold in_phase. simpl.
  by rewrite length_app, Nat.add_1_r.
Qed.

Lemma main_stores ids1 id ids2 ths R f o w :
  ids1 ++ id :: ids2 = ids → beside (owns t (inject (cells ids1)) ∗ R) f w →
  main_goes_on (Storing ids1 id ids2) ths R f o w.
Proof using.
  intros Heq Hb.
  assert (length ids = length ids1 + S (length ids2))%nat as Hn by by rewrite <-Heq, length_app.
  destruct (store_cells ids1 id _ _ _ ltac:(lia) Hb) as (w' & Hw & Hb'). exists w'.
  split; [|split; [|done]].
  - erewrite take_turn_step; [|done|by apply lift_returns]. unfold in_phase. simpl.
    rewrite !app_nil_r. destruct ids2 as [|id' ids2]; simpl.
    + by rewrite Heq.
    + by rewrite length_app, Nat.add_1_r.
  - destruct ids2; [|exact Hb']. simpl. by rewrite Heq in Hb'.
Qed.

Lemma main_reads ids1 id ids2 ths R f o w :
  ids1 ++ id :: ids2 = ids → beside (owns t (inject (cells ids)) ∗ R) f w →
  main_goes_on (Reading ids1 (id :: ids2)) ths R f o w.
Proof using Hrange.
  intros Heq Hb. exists w. split; [|by simpl; rewrite Heq].
  assert (read_at (Some t) (8 * length ids1) 8 w = Returns (le_bytes 8 id) w) as Hw.
  { apply beside_owns in Hb as [Ht _]. rewrite cells_full, <-Heq in Ht. by eapply read_at_table. }
  assert (0 ≤ id < 2 ^ 64) as Hi.
  { pose proof Hrange as Hr. rewrite <-Heq, Forall_app, Forall_cons in Hr. apply Hr. }
  erewrite take_turn_step; [|done|by apply lift_returns]. unfold in_phase. simpl.
  by rewrite !app_nil_r, le_value_bytes, Z.mod_small by exact Hi.
Qed.

Lemma main_reports ids1 id ids2 ths R f o w :
  ids1 ++ id :: ids2 = ids → beside (owns t (inject (cells ids)) ∗ R) f w →
  main_goes_on (Reporting ids1 id ids2) ths R f o w.
Proof using.
  intros Heq Hb. assert ((ids1 ++ [id]) ++ ids2 = ids) as Heq' by by rewrite <-app_assoc.
  exists w. split; [|by simpl; rewrite Heq'].
  erewrite take_turn_step; [|done|done]. unfold in_phase. simpl.
  by rewrite !app_nil_r, Heq, Heq', length_app, Nat.add_1_r.
Qed.

(** Joining goes on when the thread has ended, and waits until then. *)
Lemma main_joins ids1 id ids2 ths R f o w th :
  ids1 ++ id :: ids2 = ids → ths.*1 = ids → ths !! length ids1 = Some (id, th) →
  beside (owns t (inject (cells ids)) ∗ R) f w →
  (th = Ended → main_goes_on (Joining ids1 id ids2) ths R f o w) ∧
  (th ≠ Ended → take_turn pthread_create 0 (in_phase (Joining ids1 id ids2) ths o w) = Waits).
Proof using Hnodup.
  intros Heq Hths Hth Hb.
  assert (find_thread id ((self, phase_thread (Joining ids1 id ids2)) :: ths) = Some th) as Hfind.
  { apply (find_thread_lookup (S (length ids1))); [|done]. csimpl. by rewrite Hths. }
  unfold main_goes_on, take_turn, in_phase. cbn [pr_threads lookup list_lookup phase_thread] in Hfind |- *.
  rewrite Hfind. split; [intros ->|by destruct th].
  exists w. simpl. by rewrite app_nil_r, Heq.
Qed.

(** The turn of [main], until all threads are joined. *)
Lemma main_turn ph ths R f o w :
  phase_ids ph = ids → ths.*1 = phase_created ph → ¬ last_phase ph →
  beside (owns t (inject (cells (phase_stored ph))) ∗ R) f w →
  main_goes_on ph ths R f o w ∨
  take_turn pthread_create 0 (in_phase ph ths o w) = Waits ∧
    ∃ i id th, ths !! i = Some (id, th) ∧ th ≠ Ended.
Proof using Hids Hnodup Hrange.
  intros Heq Hths Hlast Hb.
  destruct ph as [ids1 id ids2|ids1 id ids2|ids1 [|id ids2]|ids1 id ids2|ids1 id ids2];
    cbn [phase_ids phase_created phase_stored last_phase] in *; try rewrite Heq in Hb; try done.
  - left. by apply main_creates.
  - left. by apply main_stores.
  - left. by apply main_reads.
  - rewrite Heq in Hths. assert (ths.*1 !! length ids1 = Some id) as Hi.
    { by rewrite Hths, <-Heq, list_lookup_middle. }
    rewrite list_lookup_fmap in Hi. destruct (ths !! length ids1) as [[id' th]|] eqn:Hth; [|done].
    injection Hi as [= ->].
    destruct (main_joins ids1 id ids2 ths R f o w th Heq Hths Hth Hb) as [Hgo Hwait].
    destruct th; [left; by apply Hgo|right; split; [by apply Hwait|by eauto]..].
  - left. by apply main_reports.
Qed.
End phases.

(** ** The invariant of the run

    Where a thread of the benchmark stands: what it still does, and what it owns. *)
Record stand := mk_stand {
  st_id : Z;
  st_thread : thread;
  st_steps : nat;
  st_peers : nat;
  st_assn : assn;
}.

Definition entry (st : stand) : Z * thread := (st_id st, st_thread st).

Lemma entries_ids sts : (entry <$> sts).*1 = st_id <$> sts.
Proof. by rewrite <-list_fmap_compose. Qed.

Section run.
Context (pthread_create : nat → option Z) (end_ : Z * Z).
Context (self : Z) (c : config) (start : Z) (ids : list Z).
Context (d t : loc) (text : list byte) (h : heap) (socks : gmap Z sock) (rest : list sock).
Context (out : list printed).

Abbreviation main_at := (in_phase end_ self c start ids d t).
Abbreviation next := (next_phase ids).

(** The turns that [main] has to make. *)
Definition phase_steps (ph : phase) : nat :=
  match ph with
  | Creating _ _ ids2 => 2 + 2 * length ids2 + 3 * length ids
  | Storing _ _ ids2 => 1 + 2 * length ids2 + 3 * length ids
  | Reading _ ids2 => 3 * length ids2
  | Joining _ _ ids2 => 2 + 3 * length ids2
  | Reporting _ _ ids2 => 1 + 3 * length ids2
  end.

(** The rest of the process, with the peers that the workers have not connected to. *)
Definition base (peers : list sock) : frame := mk_frame h socks [] (peers ++ rest).

Definition steps_left (ph : phase) (sts : list stand) : nat :=
  phase_steps ph + sum_list_with st_steps sts +
  (length ids - length (phase_created ph)) * worker_turns c.

(** What holds of the memory and of the peers. *)
Definition holding (ph : phase) (sts : list stand) (peers : list sock) (w : world) : Prop :=
  beside (owns t (inject (cells ids (phase_stored ph))) ∗ stars (st_assn <$> sts)) (base peers) w ∧
  length peers =
    (sum_list_with st_peers sts + (length ids - length (phase_created ph)))%nat ∧
  Forall (takes_all c (share c) text) peers.

Definition stand_safe (st : stand) : Prop :=
  safe h (takes_all c (share c) text) (st_steps st) (st_thread st) (st_peers st) (st_assn st).

(** What is known of the threads in a phase. *)
Record standing (ph : phase) (sts : list stand) : Prop := {
  standing_phase : phase_ids ph = ids;
  standing_ids : st_id <$> sts = phase_created ph;
  standing_safe : Forall stand_safe sts;
  standing_joined : Forall (λ st, st_steps st = O) (take (phase_joined ph) sts);
}.

Definition running (k : nat) (p : process) : Prop := ∃ ph sts peers w,
  p = main_at ph (entry <$> sts) out w ∧ standing ph sts ∧ holding ph sts peers w ∧
  k = steps_left ph sts.

(** *** The turn of a worker *)

Lemma base_ready ph sts peers w i st :
  holding ph sts peers w → sts !! i = Some st →
  ready h (takes_all c (share c) text) (st_peers st) (base peers).
Proof using.
  intros (_ & Hl & Hp) Hi.
  assert (st_peers st ≤ length peers)%nat as Hle.
  { pose proof (sum_list_with_in st st_peers sts (list_elem_of_lookup_2 _ _ _ Hi)). lia. }
  constructor; [done|done|simpl; rewrite length_app; lia|]. simpl.
  rewrite take_app_le by done. by apply Forall_take.
Qed.

Lemma worker_step ph sts peers w i st n :
  holding ph sts peers w → sts !! i = Some st → stand_safe st → st_steps st = S n →
  entering (st_thread st) = false →
  ∃ st' peers' w', stand_safe st' ∧ st_id st' = st_id st ∧ st_steps st' = n ∧
    holding ph (<[i := st']> sts) peers' w' ∧
    take_turn pthread_create (S i) (main_at ph (entry <$> sts) out w) =
      Turns (main_at ph (entry <$> <[i := st']> sts) out w').
Proof using.
  intros Hh Hi Hst Hn Hout. pose proof (base_ready _ _ _ _ _ _ Hh Hi) as Hready.
  destruct Hh as (Hb & Hl & Hp). unfold stand_safe in Hst. rewrite Hn in Hst.
  destruct (safe_acts _ _ _ _ _ _ Hst) as (r & A & m & k & Hth). rewrite Hth in Hst, Hout.
  assert (r ≠ Entering) as Hr by by destruct r.
  assert ((st_assn <$> sts) !! i = Some (st_assn st)) as Hai by by rewrite list_lookup_fmap, Hi.
  rewrite (stars_lookup _ _ _ Hai), <-star_assoc, (star_comm (owns _ _)), star_assoc in Hb.
  destruct (safe_step _ _ _ _ _ _ _ _ _ _ _ _ Hst Hr Hready Hb)
    as (x & w' & t' & P' & Hm & Ht' & Hb' & Hs').
  set (st' := mk_stand (st_id st) (k x) n t' P').
  exists st', (drop (st_peers st - t') peers), w'.
  assert (st_peers st ≤ length peers)%nat as Hle.
  { pose proof (sum_list_with_in st st_peers sts (list_elem_of_lookup_2 _ _ _ Hi)). lia. }
  split; [exact Hs'|]. split; [done|]. split; [done|]. split.
  - split; [|split].
    + rewrite list_fmap_insert, (stars_insert _ _ _ _ Hai).
      rewrite <-star_assoc, (star_comm (owns _ _)), star_assoc.
      unfold base. replace (after_peers (st_peers st - t') (base peers)) with
        (base (drop (st_peers st - t') peers)) in Hb'; [exact Hb'|].
      unfold base, after_peers, set_fr_peers. simpl. by rewrite drop_app_le by lia.
    + rewrite length_drop. pose proof (sum_insert st_peers sts i st st' Hi) as Hsum.
      change (st_peers st') with t' in Hsum. lia.
    + by apply Forall_drop.
  - erewrite (take_turn_act pthread_create (S i) _ (st_id st) r m k); [|simpl|done|exact Hm].
    + unfold in_phase. simpl. by rewrite app_nil_r, list_fmap_insert.
    + rewrite list_lookup_fmap, Hi. simpl. unfold entry. by rewrite Hth.
Qed.

(** [main] is never inside of [gethostbyname]: its own connections are made when no worker runs. *)
Lemma main_outside ph : inside (phase_thread end_ c start ids d t ph) = false.
Proof using.
  destruct ph as [ids1 id ids2|ids1 id ids2|ids1 [|id ids2]|ids1 id ids2|ids1 id ids2]; done.
Qed.

(** A worker enters, or another worker is inside. *)
Lemma worker_enters ph sts peers w i st n :
  holding ph sts peers w → sts !! i = Some st → stand_safe st → st_steps st = S n →
  entering (st_thread st) = true →
  (∃ st', stand_safe st' ∧ st_id st' = st_id st ∧ st_steps st' = n ∧
    holding ph (<[i := st']> sts) peers w ∧
    take_turn pthread_create (S i) (main_at ph (entry <$> sts) out w) =
      Turns (main_at ph (entry <$> <[i := st']> sts) out w)) ∨
  take_turn pthread_create (S i) (main_at ph (entry <$> sts) out w) = Races ∧
    ∃ j st2, sts !! j = Some st2 ∧ inside (st_thread st2).
Proof using.
  intros Hh Hi Hst Hn Hent. unfold stand_safe in Hst. rewrite Hn in Hst.
  destruct (safe_acts _ _ _ _ _ _ Hst) as (r & A & m & k & Hth). rewrite Hth in Hst, Hent.
  destruct r; try done.
  destruct (take_turn_enter pthread_create (S i) (main_at ph (entry <$> sts) out w) (st_id st) m k)
    as [->|[-> (j & id & th & Hj & Hin)]].
  { simpl. rewrite list_lookup_fmap, Hi. simpl. unfold entry. by rewrite Hth. }
  - left. set (st' := mk_stand (st_id st) (Act Inside m k) n (st_peers st) (st_assn st)).
    exists st'. split; [exact Hst|]. split; [done|]. split; [done|]. split.
    + destruct Hh as (Hb & Hl & Hp). split; [|split; [|done]].
      * rewrite list_fmap_insert, list_insert_id; [done|]. by rewrite list_lookup_fmap, Hi.
      * pose proof (sum_insert st_peers sts i st st' Hi) as Hsum.
        change (st_peers st') with (st_peers st) in Hsum. lia.
    + unfold in_phase. simpl. by rewrite list_fmap_insert.
  - right. split; [done|]. destruct j as [|j].
    + injection Hj as <- <-. by rewrite main_outside in Hin.
    + simpl in Hj. rewrite list_lookup_fmap in Hj. destruct (sts !! j) as [st2|] eqn:Hst2; [|done].
      injection Hj as _ <-. by exists j, st2.
Qed.

Lemma stand_ended st : stand_safe st → st_steps st = O → st_thread st = Ended.
Proof using. unfold stand_safe. intros Hs Hn. rewrite Hn in Hs. by destruct Hs. Qed.

Lemma stand_steps st : stand_safe st → st_thread st = Ended → st_steps st = O.
Proof using.
  unfold stand_safe. destruct (st_steps st) as [|n]; [done|]. by intros Hs Hend; rewrite Hend in Hs.
Qed.

(** The threads after the turn of a worker. *)
Lemma standing_insert ph sts i st st' n :
  standing ph sts → sts !! i = Some st → st_steps st = S n → stand_safe st' → st_id st' = st_id st →
  standing ph (<[i := st']> sts).
Proof using.
  intros [Heq Hid Hsafe Hjoined] Hi Hn Hst' Hid'. constructor; [done| | |].
  - rewrite list_fmap_insert, Hid', <-Hid. apply list_insert_id. by rewrite list_lookup_fmap, Hi.
  - by apply Forall_insert.
  - apply Forall_lookup. intros j x [Hj Hlt]%lookup_take_Some. rewrite Forall_lookup in Hjoined.
    assert (j ≠ i) as Hne.
    { intros ->. specialize (Hjoined i st). rewrite lookup_take_Some in Hjoined.
      rewrite Hjoined in Hn by done. done. }
    rewrite list_lookup_insert_ne in Hj by done. apply (Hjoined j). by apply lookup_take_Some.
Qed.

Lemma worker_turn k i p :
  running k p →
  match take_turn pthread_create (S i) p with
  | Turns q => ∃ k', k = S k' ∧ running k' q
  | Waits | Races => True
  | _ => False
  end.
Proof using.
  intros (ph & sts & peers & w & -> & Hsts & Hholds & ->).
  destruct (sts !! i) as [st|] eqn:Hi.
  2:{ unfold take_turn. simpl. by rewrite list_lookup_fmap, Hi. }
  pose proof (Forall_lookup_1 _ _ _ _ (standing_safe _ _ Hsts) Hi) as Hst.
  destruct (st_steps st) as [|n] eqn:Hn.
  { unfold take_turn. simpl. rewrite list_lookup_fmap, Hi. simpl.
    unfold entry at 1. by rewrite (stand_ended st Hst Hn). }
  assert (∀ st' peers' w', stand_safe st' → st_id st' = st_id st → st_steps st' = n →
    holding ph (<[i := st']> sts) peers' w' →
    ∃ k', steps_left ph sts = S k' ∧ running k' (main_at ph (entry <$> <[i := st']> sts) out w')) as Hgo.
  { intros st' peers' w' Hst' Hid' Hn' Hholds'. exists (steps_left ph (<[i := st']> sts)). split.
    - unfold steps_left. pose proof (sum_insert st_steps sts i st st' Hi) as Hsum. lia.
    - exists ph, (<[i := st']> sts), peers', w'. split_and!; try done. by eapply standing_insert. }
  destruct (entering (st_thread st)) eqn:Hent.
  - destruct (worker_enters _ _ _ _ _ _ _ Hholds Hi Hst Hn Hent)
      as [(st' & Hst' & Hid' & Hn' & Hholds' & ->)|[-> _]]; [by eapply Hgo|done].
  - destruct (worker_step _ _ _ _ _ _ _ Hholds Hi Hst Hn Hent)
      as (st' & peers' & w' & Hst' & Hid' & Hn' & Hholds' & ->). by eapply Hgo.
Qed.

(** When a worker has not ended, one can go on: it, or the one that is inside. *)
Lemma worker_goes_on ph sts peers w i st :
  holding ph sts peers w → Forall stand_safe sts → sts !! i = Some st → st_thread st ≠ Ended →
  ∃ j q, take_turn pthread_create (S j) (main_at ph (entry <$> sts) out w) = Turns q.
Proof using.
  intros Hholds Hsafe.
  assert (∀ i st, sts !! i = Some st → entering (st_thread st) = false → st_thread st ≠ Ended →
    ∃ q, take_turn pthread_create (S i) (main_at ph (entry <$> sts) out w) = Turns q) as Hact.
  { clear i st. intros i st Hi Hent Hn. pose proof (Forall_lookup_1 _ _ _ _ Hsafe Hi) as Hs.
    destruct (st_steps st) as [|n] eqn:Hst; [by rewrite (stand_ended st Hs Hst) in Hn|].
    destruct (worker_step _ _ _ _ _ _ _ Hholds Hi Hs Hst Hent)
      as (st' & peers' & w' & _ & _ & _ & _ & ->). eauto. }
  intros Hi Hn. destruct (entering (st_thread st)) eqn:Hent; [|exists i; by eapply Hact].
  pose proof (Forall_lookup_1 _ _ _ _ Hsafe Hi) as Hs.
  destruct (st_steps st) as [|n] eqn:Hst; [by rewrite (stand_ended st Hs Hst) in Hn|].
  destruct (worker_enters _ _ _ _ _ _ _ Hholds Hi Hs Hst Hent)
    as [(st' & _ & _ & _ & _ & Hturn)|[_ (j & st2 & Hj & Hin)]]; [by eauto|].
  exists j. eapply Hact; [exact Hj|by destruct (st_thread st2) as [|[]| |]..].
Qed.

(** *** The turn of [main] *)

Context (Hids : threads_created pthread_create 0 (length ids) ids) (Hnodup : NoDup (self :: ids)).
Context (Hrange : Forall (λ id, 0 ≤ id < 2 ^ 64) ids).
Context (Hd : points_to h d (Some <$> (text ++ [NUL]) : buffer)).
Context (Hsize : msg_size c = Z.of_nat (length text)).
Context (Hlen : 180 + Z.of_nat (length text) ≤ MAX_RW_COUNT).
Context (Hclients : 0 < clients c) (Hmessages : int_range 32 (messages c)).

(** The threads in the next phase: one more when one was created. *)
Definition next_stands (ph : phase) (sts : list stand) : list stand :=
  sts ++ match ph with Creating _ id _ => [mk_stand id (child c d) (worker_turns c) 1 emp] | _ => [] end.

Lemma next_entries ph sts : entry <$> next_stands ph sts = (entry <$> sts) ++ spawned c d ph.
Proof using. unfold next_stands. rewrite fmap_app. by destruct ph. Qed.

Lemma standing_next ph sts :
  standing ph sts → found_ended ph (entry <$> sts) → standing (next ph) (next_stands ph sts).
Proof using Hd Hsize Hlen Hclients Hmessages.
  intros [Heq Hid Hsafe Hjoined] Hfound. constructor.
  - by apply next_phase_ids.
  - rewrite <-entries_ids, next_entries, fmap_app, entries_ids, Hid.
    symmetry. by apply (next_phase_created c ids d).
  - apply Forall_app. split; [done|]. destruct ph; [constructor; [|done]|done..].
    exact (worker_thread_safe c d text h Hd Hsize Hlen Hclients Hmessages).
  - unfold next_stands. destruct ph as [ids1 id ids2|ids1 id [|id' ids2]|ids1 [|id ids2]|ids1 id ids2|ids1 id ids2];
      rewrite ?app_nil_r; simpl in *; rewrite ?take_0; try done.
    + rewrite list_lookup_fmap in Hfound. destruct (sts !! length ids1) as [st|] eqn:Hst; [|done].
      rewrite (take_S_r _ _ _ Hst). apply Forall_app. split; [done|]. constructor; [|done].
      injection Hfound as _ Hend. apply stand_steps; [|done]. by eapply Forall_lookup_1.
    + by rewrite length_app, Nat.add_1_r.
Qed.

Lemma steps_next ph sts :
  phase_ids ph = ids → ¬ last_phase ph → steps_left ph sts = S (steps_left (next ph) (next_stands ph sts)).
Proof using text.
  intros Heq Hlast. unfold steps_left, next_stands. rewrite sum_list_with_app.
  generalize (worker_turns c); intros k.
  assert (length (phase_ids ph) = length ids) as Hl by by rewrite Heq.
  destruct ph as [ids1 id ids2|ids1 id [|id' ids2]|ids1 [|id ids2]|ids1 id ids2|ids1 id ids2];
    try (by destruct Hlast); simpl in *; rewrite ?length_app in *; simpl in *; try nia.
Qed.

Lemma peers_next ph sts (peers : list sock) :
  phase_ids ph = ids → ¬ last_phase ph →
  length peers = (sum_list_with st_peers sts + (length ids - length (phase_created ph)))%nat →
  length peers = (sum_list_with st_peers (next_stands ph sts) +
    (length ids - length (phase_created (next ph))))%nat.
Proof using text.
  intros Heq Hlast ->. unfold next_stands. rewrite sum_list_with_app.
  assert (length (phase_ids ph) = length ids) as Hl by by rewrite Heq.
  destruct ph as [ids1 id ids2|ids1 id [|id' ids2]|ids1 [|id ids2]|ids1 id ids2|ids1 id ids2];
    try (by destruct Hlast); simpl in *; rewrite ?length_app in *; simpl in *; lia.
Qed.

Lemma running_next ph sts peers w w' :
  standing ph sts → ¬ last_phase ph → holding ph sts peers w → found_ended ph (entry <$> sts) →
  beside (owns t (inject (cells ids (phase_stored (next ph)))) ∗ stars (st_assn <$> sts)) (base peers) w' →
  ∃ k, steps_left ph sts = S k ∧ running k (main_at (next ph) ((entry <$> sts) ++ spawned c d ph) out w').
Proof using Hd Hsize Hlen Hclients Hmessages.
  intros Hsts Hlast (_ & Hl & Hp) Hfound Hb. pose proof (standing_phase _ _ Hsts) as Heq.
  exists (steps_left (next ph) (next_stands ph sts)). split; [by apply steps_next|].
  exists (next ph), (next_stands ph sts), peers, w'. rewrite next_entries.
  split_and!; [done|by apply standing_next| |done]. split; [|split; [by apply peers_next|done]].
  unfold next_stands. rewrite fmap_app, stars_app. destruct ph; simpl; by rewrite ?star_emp.
Qed.

(** *** The end *)

Context (h0 : heap) (sk : sock) (o2 : list printed) (n2 : nat) (s2 : session).
Context (Hh : h = <[d := inject (Some <$> (text ++ [NUL]) : buffer)]> h0).
Context (Hmessage : h0 !! d = None) (Htable : h !! t = None).
Context (Hrest : rest = [sk]) (Hrun : runnable c) (Hstart : 0 ≤ start < 2 ^ 51) (Hend : clock end_).
Context (Hcleanup : s_cleanup c (new_session sk []) = Answer (o2, n2, inl true) s2).

Definition final_output : list printed := out ++ report c start (milliseconds end_) ++ o2.

Lemma all_ended sts :
  Forall stand_safe sts → Forall (λ st, st_steps st = O) sts →
  stars (st_assn <$> sts) ≡ emp ∧ sum_list_with st_peers sts = O ∧ sum_list_with st_steps sts = O.
Proof using.
  induction 1 as [|st sts Hst Hsts IH]; intros Hn; [done|]. apply Forall_cons in Hn as [Hn1 Hn].
  destruct (IH Hn) as (IH1 & IH2 & IH3). unfold stand_safe in Hst. rewrite Hn1 in Hst.
  destruct Hst as (_ & Ht & HP). simpl. rewrite IH2, IH3, Hn1, Ht. split; [|done].
  rewrite HP, IH1. apply star_emp.
Qed.

(** In the last phase all workers have ended. *)
Lemma standing_last ids1 sts :
  standing (Reading ids1 []) sts → ids1 = ids ∧ Forall (λ st, st_steps st = O) sts.
Proof using.
  intros [Heq Hid _ Hjoined]. simpl in *. rewrite app_nil_r in Heq, Hid. split; [done|].
  by rewrite take_ge in Hjoined by (by rewrite <-(length_fmap st_id sts), Hid).
Qed.

Lemma main_ends sts peers w :
  Forall stand_safe sts → Forall (λ st, st_steps st = O) sts → holding (Reading ids []) sts peers w →
  take_turn pthread_create 0 (main_at (Reading ids []) (entry <$> sts) out w) =
    Ends 0 final_output (at_peers h0 socks []).
Proof using Hh Hmessage Htable Hrest Hrun Hstart Hend Hcleanup.
  intros Hsafe Hended (Hb & Hl & _). destruct (all_ended _ Hsafe Hended) as (Hs & Hn & _).
  assert (peers = []) as ->.
  { apply nil_length_inv. rewrite Hl, Hn. simpl. rewrite app_nil_r. lia. }
  simpl phase_stored in Hb. rewrite app_nil_r, Hs in Hb. apply beside_owns in Hb as [Ht Hw].
  apply beside_emp in Hw.
  assert (w = at_peers (<[t := inject (cells ids ids)]> h) socks [sk]) as ->.
  { unfold base, world_of, set_heap in Hw. rewrite Hrest in Hw.
    destruct w as [wh ms ws sys ps]. unfold at_peers. simpl in *.
    injection Hw as Hw -> -> -> ->. f_equal. rewrite <-Hw. by rewrite insert_delete_id. }
  assert (main_end end_ c start (Some d) (Some t) (at_peers (<[t := inject (cells ids ids)]> h) socks [sk]) =
    Returns (report c start (milliseconds end_) ++ o2, inl 0) (at_peers h0 socks [])) as He.
  { rewrite Hh in Htable |- *. by eapply benchmark_ends. }
  unfold final_output. rewrite <-(app_nil_r (report _ _ _ ++ o2)).
  eapply take_turn_end; [done|]. eapply prog_returns; [exact He|done].
Qed.

(** *** Every turn *)

Lemma running_turn k p :
  running k p →
  match take_turn pthread_create 0 p with
  | Turns q => ∃ k', k = S k' ∧ running k' q
  | Ends code o w => k = O ∧ code = 0 ∧ o = final_output ∧ w = at_peers h0 socks []
  | Waits => ∃ i q, take_turn pthread_create (S i) p = Turns q
  | _ => False
  end.
Proof using All.
  intros (ph & sts & peers & w & -> & Hsts & Hholds & ->). pose proof (standing_safe _ _ Hsts) as Hsafe.
  destruct (decide (last_phase ph)) as [Hlast|Hlast].
  - destruct ph as [| |ids1 []| |]; try done.
    destruct (standing_last ids1 sts Hsts) as [-> Hended].
    rewrite (main_ends sts peers w Hsafe Hended Hholds). split; [|done].
    destruct (all_ended _ Hsafe Hended) as (_ & _ & Hs).
    unfold steps_left. cbn [phase_steps phase_created phase_ids]. by rewrite Hs, app_nil_r, Nat.sub_diag.
  - destruct (main_turn pthread_create end_ self c start ids d t Hids Hnodup Hrange ph (entry <$> sts)
      (stars (st_assn <$> sts)) (base peers) out w) as [(w' & -> & Hb & Hfound)|[-> (i & id & th & Hi & Hth)]];
      [apply Hsts|rewrite entries_ids; apply Hsts|done|apply Hholds|by eapply running_next|].
    rewrite list_lookup_fmap in Hi. destruct (sts !! i) as [st|] eqn:Hst; [|done].
    injection Hi as <- <-. by eapply worker_goes_on.
Qed.

Lemma running_always_ends k p :
  running k p → always_ends pthread_create True k p 0 final_output (at_peers h0 socks []).
Proof using All.
  assert (∀ k p, running k p → match k with O => ∃ i, take_turn pthread_create i p =
    Ends 0 final_output (at_peers h0 socks []) | S _ => ∃ q, turns pthread_create p q end) as Hgo.
  { clear k p. intros k p Hp. pose proof (running_turn k p Hp) as Hm.
    destruct (take_turn pthread_create 0 p) as [q|code o w| | | |] eqn:Hq; try done.
    - destruct Hm as (k' & -> & _). by exists q, O.
    - destruct Hm as (-> & -> & -> & ->). by exists O.
    - destruct Hm as (i & q & Hi). pose proof (worker_turn k i p Hp) as Hw. rewrite Hi in Hw.
      destruct Hw as (k' & -> & _). by exists q, (S i). }
  assert (∀ k p i, running k p → match take_turn pthread_create i p with
    | Turns q => ∃ k', k = S k' ∧ running k' q
    | Ends code o w => k = O ∧ code = 0 ∧ o = final_output ∧ w = at_peers h0 socks []
    | Waits | Races => True | _ => False end) as Hall.
  { clear k p. intros k p [|i] Hp; [pose proof (running_turn k p Hp) as Hm|pose proof (worker_turn k i p Hp) as Hm];
      by destruct (take_turn _ _ _). }
  apply (inv_always_ends pthread_create True running).
  - intros n q i Hq. specialize (Hall (S n) q i Hq). destruct (take_turn _ i q); try done.
    + by destruct Hall as (k' & [= <-] & Hk').
    + by destruct Hall.
  - intros n q Hq. exact (Hgo (S n) q Hq).
  - intros q i Hq. specialize (Hall O q i Hq). destruct (take_turn _ i q); try done.
    + by destruct Hall as (k' & ? & _).
    + by destruct Hall.
  - intros q Hq. exact (Hgo O q Hq).
Qed.
End run.

(** ** Theorems *)

(** The memory, the table and the peers before the first thread is created. *)
Lemma running_starts end_ self c start ids d t text h socks workers rest out :
  ids ≠ [] → length workers = length ids → Forall (takes_all c (share c) text) workers →
  h !! t = None →
  running end_ self c start ids d t text h socks rest out
    (5 * length ids + length ids * worker_turns c)
    (mk_process [(self, creations end_ c start ids d t 0 (length ids))] 0 out
      (at_peers (<[t := inject (uninit (8 * Z.of_nat (length ids)))]> h) socks (workers ++ rest))).
Proof.
  intros Hids Hl Hworkers Ht. destruct ids as [|id ids]; [done|].
  eexists (Creating [] id ids), [], workers, _. split_and!; [done|by constructor| |].
  - split; [|split; [simpl in *; by rewrite Hl|done]].
    apply beside_owns. simpl phase_stored. unfold cells, at_peers. simpl w_heap. split.
    + rewrite lookup_insert_eq. do 2 f_equal. unfold uninit.
      replace (Z.to_nat _) with (8 * (length (id :: ids) - length (@nil Z)))%nat; [done|cbn [length]; lia].
    + unfold set_heap. simpl. rewrite delete_insert_id by done. by apply beside_emp.
  - unfold steps_left. cbn [phase_steps phase_created length sum_list_with]. lia.
Qed.

(** ** Races *)

(** Two workers of the benchmark may look up the name of its host at the same time. *)
Definition racy (c : config) : Prop := connection c = Entering ∧ 1 < clients c.
#[export] Instance racy_dec c : Decision (racy c) := _.

(** How often a worker can be inside of [gethostbyname] at a time. *)
Definition lookups (c : config) : nat := if decide (connection c = Entering) then 1 else 0.

Lemma push_thread_resolves n m client message : resolves m (push_thread n client message).
Proof.
  induction n as [|n IH]; simpl; [auto 6|]. split; [by left|]. intros _ _ status _ _.
  case_decide; simpl; auto 6.
Qed.

Lemma worker_thread_resolves c d : resolves (lookups c) (worker_thread c d).
Proof.
  simpl. split; [by left|]. intros _ _ msg _ _. split.
  { unfold lookups. case_decide as Hc; [right; lia|]. left. revert Hc.
    unfold connection, resolution. by repeat case_match. }
  intros _ _ [l|] _ _; [|simpl; auto 6].
  do 5 (split; [by left|intros ? ? ? ? _]). apply push_thread_resolves.
Qed.

Lemma create_threads_resolves threads child i n m finish :
  resolves m child → resolves 0 finish → resolves (n * m) (create_threads threads child i n finish).
Proof.
  intros Hc Hf. revert i. induction n as [|n IH]; intros i; [done|].
  exists m, (n * m)%nat. split; [lia|]. split; [done|]. intros [id|]; (split; [by left|]); [auto|done].
Qed.

Lemma join_threads_resolves threads i n finish : resolves 0 finish → resolves 0 (join_threads threads i n finish).
Proof.
  intros Hf. revert i. induction n as [|n IH]; intros i; [done|].
  split; [by left|]. intros ? ? ? ? _ ?. split; [by left|]. auto.
Qed.

(** The configuration with which [main] begins is the one that the command line describes. *)
Lemma main_begin_config rand start args w o c ms message threads w' :
  main_begin rand start args w = Returns (o, inl (c, ms, message, threads)) w' →
  c = described args init_config.
Proof.
  intros (o1 & c' & w1 & o2 & Hc & Hw)%prog_bind_inv. rewrite parse_args_eq in Hc.
  case_decide; [done|]. injection Hc as <- <- <-.
  do 5 (apply prog_bind_inv in Hw as (? & ? & ? & ? & _ & Hw)). case_match; [by injection Hw|].
  apply prog_bind_inv in Hw as (? & ? & ? & ? & _ & Hw). discriminate Hw.
Qed.

Lemma main_thread_resolves rand start end_ args c :
  described args init_config = c →
  resolves (Z.to_nat (clients c) * lookups c) (main_thread rand start end_ args).
Proof.
  intros Hargs. split; [by left|]. intros w o [[[c' ms] message] threads] w' Hw.
  apply main_begin_config in Hw. rewrite Hargs in Hw. subst c'.
  apply create_threads_resolves; [apply worker_thread_resolves|].
  apply join_threads_resolves. split; [by left|done].
Qed.

(** So it races only if it is racy. *)
Lemma benchmark_races rand pthread_create start end_ args c self w q i :
  described args init_config = c → 
  rtc (turns pthread_create) (benchmark_process rand start end_ args self w) q →
  take_turn pthread_create i q = Races → racy c.
Proof.
  intros Hargs Hq Hr. destruct (decide (racy c)) as [|Hn]; [done|].
  exfalso. eapply serial_never_races; [|exact Hq|exact Hr].
  exists [(Z.to_nat (clients c) * lookups c)%nat]. split.
  - constructor; [by apply main_thread_resolves|done].
  - simpl. unfold lookups. case_decide; [|simpl; lia]. unfold racy in Hn.
    assert (¬ 1 < clients c) by tauto. simpl. lia.
Qed.

(** Every schedule that does not race. *)
Lemma benchmark_ends_or_races rand pthread_create start end_ args c self ids h socks
    sk_setup sk_workers sk_cleanup o1 n1 s1 o2 n2 s2 :
  ¬ help args → described args init_config = c → runnable c → clock start → clock end_ →
  threads_created pthread_create 0 (Z.to_nat (clients c)) ids → NoDup (self :: ids) →
  Forall (λ id, 0 ≤ id < 2 ^ 64) ids → length sk_workers = Z.to_nat (clients c) →
  s_setup c (new_session sk_setup []) = Answer (o1, n1, inl true) s1 →
  Forall (takes_all c (share c) (random_text rand (Z.to_nat (msg_size c)))) sk_workers →
  s_cleanup c (new_session sk_cleanup []) = Answer (o2, n2, inl true) s2 →
  always_ends pthread_create True (1 + 5 * length ids + length ids * worker_turns c)
    (benchmark_process rand start end_ args self
      (at_peers h socks (sk_setup :: sk_workers ++ [sk_cleanup])))
    0 ([mk_printed (ln "Starting benchmarking...") []] ++ o1 ++
      report c (milliseconds start) (milliseconds end_) ++ o2) (at_peers h socks []).
Proof.
  intros Hh Hargs Hc Ht1 Ht2 Hids Hnd Hrange Hl H1 Hw H2. pose proof Hc as [Hcl Hm Hb Hs].
  destruct (benchmark_begins rand start args c h socks sk_setup (sk_workers ++ [sk_cleanup]) o1 n1 s1)
    as (Hlen & d & Hd & Hbegin); [done..|].
  set (text := random_text rand _) in *. set (h1 := <[d := _]> h) in *.
  assert (Z.to_nat (clients c) = length ids) as Hn by (symmetry; apply Hids).
  assert (clients c = Z.of_nat (length ids)) as Hcn by lia. rewrite Hn in Hids, Hl.
  destruct (allocate_ok (8 * clients c) (at_peers h1 socks (sk_workers ++ [sk_cleanup])))
    as (t & Ht & Hthreads); [lia|done|].
  destruct (mstime_returns start (at_peers h socks []) Ht1) as [_ ?].
  set (out := [mk_printed (ln "Starting benchmarking...") []] ++ o1).
  set (w1 := at_peers (<[t := inject (uninit (8 * Z.of_nat (length ids)))]> h1)
    socks (sk_workers ++ [sk_cleanup])).
  assert (main_begin rand start args (at_peers h socks (sk_setup :: sk_workers ++ [sk_cleanup])) =
    Returns (out, inl (c, milliseconds start, Some d, Some t)) w1) as Hmain.
  { unfold out. rewrite <-(app_nil_r o1). apply Hbegin. rewrite (lift_step _ _ _ _ _ Hthreads).
    unfold w1. by rewrite <-Hcn. }
  eapply (always_ends_first pthread_create True _ self); [done| |].
  { eapply take_turn_step; [done|exact Hmain]. }
  cbn [pr_threads pr_created pr_output]. rewrite Hn.
  eapply (running_always_ends pthread_create end_ self c (milliseconds start) ids d t text h1 socks
    [sk_cleanup] out); try done; try lia.
  - apply lookup_insert_eq.
  - eapply (running_starts end_ self c (milliseconds start) ids d t text h1 socks
      sk_workers [sk_cleanup] out); try done. intros ->. simpl in *. lia.
Qed.


(** Two workers with two messages each that connect to an address, under any schedule. *)
Definition address_args : list string := ["-h"; "127.0.0.1"; "-c"; "2"; "-m"; "4"; "-s"; "1"].
Definition address_config : config := described address_args init_config.


(** Fact: the benchmark with two workers on its default host, "localhost": when both of them are
    about to connect, the second enters [gethostbyname] while the first is inside. *)
Theorem benchmark_may_race :
  races_after (λ i, Some (Z.of_nat i + 1)) (replicate 5 0 ++ [1; 1; 2])%nat 2
    (benchmark_process (λ i, Z.of_nat i) (10, 0) (12, 500000) run_args 0 (at_peers ∅ ∅ run_peers)).
Proof. by vm_compute. Qed.
