(* ===== verification/Robust.v ===== *)
(** The benchmark [src/src/benchmark.c] with servers that do anything at all: no thread is ever
    undefined by itself, under any schedule, it races only when several workers connect to a host by
    its name, and the process ends only when all its workers have. *)

From stdpp Require Import relations.
From S2P Require Import Prelude Types Machine Lists Network Protocol Client Session Packet Commands.
From S2P Require Import Messages Queries Listings Subscriptions Kept Connection Sample Program.
From S2P Require Import Specified Simple Pool Benchmark Load Threads Run Schedule Concurrent.

(** ** The prepared queue *)

Lemma specified_setup c s : specified (s_setup c) s.
Proof. unfold s_setup. specify. Qed.

Lemma specified_cleanup c s : specified (s_cleanup c) s.
Proof. unfold s_cleanup. specify. Qed.

(** ** The worker *)

Section worker.
Context (c : config) (d : loc) (text : list byte) (shared : heap).
Context (Hd : points_to shared d (Some <$> (text ++ [NUL]) : buffer)).
Context (Hsize : msg_size c = Z.of_nat (length text)).
Context (Hlen : 180 + Z.of_nat (length text) ≤ MAX_RW_COUNT).
Context (Hclients : 0 < clients c) (Hmessages : int_range 32 (messages c)).

Lemma push_thread_secure n l p s :
  ss_mallocs s = [] →
  secure shared False (push_thread n (Some l) (Some p)) (client l s ∗ owns p (inject (worker_msg c d)) ∗ emp).
Proof using Hd Hsize Hlen.
  revert s. induction n as [|n IH]; intros s Hs; cbn [push_thread].
  - rewrite <-star_assoc, (star_comm (client l s)), star_assoc.
    eapply secure_triple; [apply triple_msg_release|intros [] _].
    by eapply secure_triple; [apply triple_disconnect|intros [] _].
  - eapply secure_call; [| |exact Hs|apply specified_push|].
    + intros f f1 w Hf Hb Hr.
      apply (sim_push_call (QueuePush QUEUE_NAME (4 + Z.of_nat (length text)))
        (λ c m, emq_queue_push c QUEUE_NAME m) l p (worker_msg c d) text);
        [simpl; by rewrite decide_True|done|by eapply worker_msg_at|done].
    + apply (respects_push plentiful).
    + intros status s1 Hs1 _. case_decide; [|by apply IH].
      eapply secure_refined; [apply refines_last_error|apply (respects_get plentiful)|done|done|].
      intros error s2 _. apply secure_printf; [print_texts|done].
Qed.

Lemma worker_thread_secure : secure shared False (worker_thread c (Some d)) emp.
Proof using Hd Hsize Hlen Hclients Hmessages.
  eapply secure_pure; [intros w; by apply int_div_positive|]. eapply secure_opens; [apply opens_connect|]. intros l sk.
  eapply secure_refined; [apply refines_configure_noack|unfold s_configure_noack; keep|done| |].
  { unfold s_configure_noack. by case_decide. }
  intros _ s1 Hs1.
  eapply (secure_refined _ _ _ _ _ (s_command (Auth (str (user_name c)) (str (user_password c)))));
    [library_call|apply (respects_command plentiful)|done|apply specified_command|].
  intros _ s2 Hs2.
  eapply (secure_refined _ _ _ _ _ (s_command (QueueDeclare QUEUE_NAME)));
    [library_call|apply (respects_command plentiful)|done|apply specified_command|].
  intros _ s3 Hs3.
  eapply secure_triple; [apply triple_msg_create|intros [p|] (? & ? & Hp); [clear Hp|done]].
  eapply secure_triple; [apply triple_msg_expire|intros [] _].
  rewrite <-star_assoc, (star_comm _ (client l s3)), star_assoc.
  assert (set_msg_expire (u32 (expiration c)) (borrowed d (u64 (msg_size c)) 0) = worker_msg c d) as ->.
  { unfold borrowed, worker_msg, set_msg_expire. simpl. rewrite u64_small; [done|].
    unfold MAX_RW_COUNT in Hlen. lia. }
  by apply push_thread_secure.
Qed.
End worker.

(** ** Executions that are not undefined

    [ends_in Q out]: the execution [out] is not undefined, and if it returns, then as [Q] says; it
    may end the process, or wait for ever. *)
Definition ends_in {A} (Q : A → world → Prop) (out : outcome (list printed * (A + Z))) : Prop :=
  match out with
  | Returns (_, inl x) w => Q x w
  | Returns (_, inr _) _ | Blocks _ => True
  | Faults _ | OutOfFuel => False
  end.

Lemma ends_in_bind {A B} (m : Prog A) (k : A → Prog B) Q w :
  ends_in (λ x w', ends_in Q (k x w')) (m w) → ends_in Q ((m ≫= k) w).
Proof.
  unfold mbind, Prog_bind, mbind, M_bind. destruct (m w) as [[o [x|code]] w'| | |]; simpl; try done.
  by destruct (k x w') as [[o' [y|code]] w''| | |].
Qed.

Lemma ends_in_mono {A} (Q Q' : A → world → Prop) out :
  ends_in Q out → (∀ x w, Q x w → Q' x w) → ends_in Q' out.
Proof. intros HQ HQ'. destruct out as [[o [x|code]] w| | |]; simpl in *; auto. Qed.

(** A step that returns. *)
Lemma ends_in_step {A B} (m : Prog A) (k : A → Prog B) Q o x w w' :
  m w = Returns (o, inl x) w' → ends_in Q (k x w') → ends_in Q ((m ≫= k) w).
Proof. intros Hm HQ. apply ends_in_bind. by rewrite Hm. Qed.

(** The turn of a thread that is about to end the process. *)
Lemma take_turn_ends_in {A} pthread_create i p id (m : Prog A) k :
  pr_threads p !! i = Some (id, Step m k) → ends_in (λ _ _, False) (m (pr_world p)) →
  match take_turn pthread_create i p with Ends _ _ _ | Waits => True | _ => False end.
Proof.
  intros Hi. unfold take_turn. rewrite Hi. by destruct (m (pr_world p)) as [[o [x|code]] w| | |].
Qed.

(** A conversation with a server that does anything at all. *)
Lemma ends_in_conversed f (a : SProg bool) s out :
  conversed f (a s) out → specified a s → respects plentiful a → ss_mallocs s = [] →
  ends_in (λ _ w, w = world_of f []) out.
Proof.
  intros Hc Hs Ha Hm. unfold conversed, specified, answers_with in *.
  destruct (a s) as [[[o n] [ok|code]] s1| |] eqn:Has; [| | |done].
  - subst out. destruct ok; [|done]. simpl. f_equal. exact (Ha _ _ _ Has Hm).
  - by destruct Hc as [w ->].
  - by destruct Hc as [w ->].
Qed.

(** ** [main] *)

Lemma setup_ends c h socks peers :
  ends_in (λ _ w, w = at_peers h socks (tail peers)) (setup_server c (at_peers h socks peers)).
Proof.
  rewrite setup_server_session.
  pose proof (session_conversed c (setup_session c) (s_setup c) (at_peers h socks peers)
    (allocs_at _ _ _ _) (calls_at _ _ _ _) (λ l f, steady_setup l c f)) as Hc.
  eapply ends_in_mono; [eapply ends_in_conversed; [exact Hc|apply specified_setup|apply plentiful_setup|done]|].
  intros _ w ->. unfold world_of, first_frame. simpl. by rewrite drop_nil.
Qed.

Lemma cleanup_ends c h socks peers :
  ends_in (λ _ _, True) (cleanup_server c (at_peers h socks peers)).
Proof.
  rewrite cleanup_server_session.
  pose proof (session_conversed c (cleanup_session c) (s_cleanup c) (at_peers h socks peers)
    (allocs_at _ _ _ _) (calls_at _ _ _ _) (λ l f, steady_cleanup l c f)) as Hc.
  eapply ends_in_mono; [eapply ends_in_conversed; [exact Hc|apply specified_cleanup|apply plentiful_cleanup|done]|done].
Qed.

(** [main] up to the first thread: the message and the table are allocated. *)
Lemma main_begin_ends rand start args c h socks peers :
  described args init_config = c → runnable c → clock start →
  let text := random_text rand (Z.to_nat (msg_size c)) in
  ends_in (λ '(c', start', message, threads) w, ∃ d t,
      c' = c ∧ start' = milliseconds start ∧ message = Some d ∧ threads = Some t ∧
      <[d := inject (Some <$> (text ++ [NUL]) : buffer)]> h !! t = None ∧
      w = at_peers (<[t := inject (uninit (8 * clients c))]>
        (<[d := inject (Some <$> (text ++ [NUL]) : buffer)]> h)) socks (tail peers))
    (main_begin rand start args (at_peers h socks peers)).
Proof.
  intros Hargs [Hcl Hm Hb Hs] Hstart text. unfold main_begin. apply ends_in_bind.
  rewrite parse_args_eq. case_decide; [done|]. rewrite Hargs. simpl.
  eapply ends_in_step; [done|].
  destruct (mstime_returns start (at_peers h socks peers) Hstart) as [Hms _].
  eapply ends_in_step; [by apply lift_returns|]. apply ends_in_bind.
  eapply ends_in_mono; [apply setup_ends|]. intros [] w ->.
  destruct (init_message_returns rand c (at_peers h socks (tail peers))) as (d & Hd & Hmsg);
    [unfold MAX_RW_COUNT in Hs; lia|done|].
  eapply ends_in_step; [exact Hmsg|].
  destruct (allocate_ok (8 * clients c) (at_peers (<[d := inject (Some <$> (text ++ [NUL]) : buffer)]> h)
    socks (tail peers))) as (t & Ht & Hthreads); [lia|done|].
  eapply ends_in_step; [apply lift_returns; exact Hthreads|]. simpl. by exists d, t.
Qed.

(** [main] after the last join. *)
Lemma main_end_ends end_ c start d t text_cells ids_cells h socks peers :
  runnable c → 0 ≤ start < 2 ^ 51 → clock end_ → d ≠ t →
  h !! d = Some text_cells → h !! t = Some ids_cells →
  ends_in (λ _ _, True) (main_end end_ c start (Some d) (Some t) (at_peers h socks peers)).
Proof.
  intros [] Hstart Hend Hdt Hd Ht. unfold main_end.
  destruct (mstime_returns end_ (at_peers h socks peers) Hend) as [Hms Hrange].
  eapply ends_in_step; [apply lift_returns; exact Hms|]. eapply ends_in_step.
  { rewrite print_statistics_eq, decide_True; [done|]. split; [unfold int_range; lia|done]. }
  assert (destroy_message (Some d) (at_peers h socks peers) =
    Returns tt (at_peers (delete d h) socks peers)) as Hmsg.
  { unfold destroy_message, free, at_peers, set_heap. simpl. by rewrite Hd. }
  eapply ends_in_step; [apply lift_returns; exact Hmsg|].
  assert (destroy_threads (Some t) (at_peers (delete d h) socks peers) =
    Returns tt (at_peers (delete t (delete d h)) socks peers)) as Hthreads.
  { unfold destroy_threads, free, at_peers, set_heap. simpl. by rewrite lookup_delete_ne, Ht. }
  eapply ends_in_step; [apply lift_returns; exact Hthreads|]. apply ends_in_bind.
  eapply ends_in_mono; [apply cleanup_ends|done].
Qed.

(** ** The invariant of the run

    A worker: its thread and what it owns. *)
Record part := mk_part { pt_id : Z; pt_thread : thread; pt_assn : assn }.
Definition pt_entry (pt : part) : Z * thread := (pt_id pt, pt_thread pt).

Lemma parts_ids pts : (pt_entry <$> pts).*1 = pt_id <$> pts.
Proof. by rewrite <-list_fmap_compose. Qed.

Section run.
Context (pthread_create : nat → option Z) (end_ : Z * Z).
Context (self : Z) (c : config) (start : Z) (ids : list Z).
Context (d t : loc) (text : list byte) (h : heap) (socks : gmap Z sock).

Abbreviation main_at := (in_phase end_ self c start ids d t).
Abbreviation next := (next_phase ids).

Record guarding (ph : phase) (pts : list part) (peers : list sock) (w : world) : Prop := {
  guarding_phase : phase_ids ph = ids;
  guarding_ids : pt_id <$> pts = phase_created ph;
  guarding_secure : Forall (λ pt, secure h False (pt_thread pt) (pt_assn pt)) pts;
  guarding_joined : Forall (λ pt, pt_thread pt = Ended) (take (phase_joined ph) pts);
  guarding_memory :
    beside (owns t (inject (cells ids (phase_stored ph))) ∗ stars (pt_assn <$> pts))
      (mk_frame h socks [] peers) w;
}.

Definition guarded (p : process) : Prop := ∃ ph pts peers o w,
  p = main_at ph (pt_entry <$> pts) o w ∧ guarding ph pts peers w.

(** The workers after the turn of one of them. *)
Lemma guarding_insert ph pts peers w i pt x P peers' w' :
  guarding ph pts peers w → pts !! i = Some pt → pt_thread pt ≠ Ended → secure h False x P →
  beside (owns t (inject (cells ids (phase_stored ph))) ∗ P ∗ stars (delete i (pt_assn <$> pts)))
    (mk_frame h socks [] peers') w' →
  guarding ph (<[i := mk_part (pt_id pt) x P]> pts) peers' w'.
Proof using.
  intros [Heq Hid Hsec Hjoined Hb] Hi Hne Hx Hb'.
  assert ((pt_assn <$> pts) !! i = Some (pt_assn pt)) as Hai by by rewrite list_lookup_fmap, Hi.
  constructor; [done| | | |].
  - rewrite list_fmap_insert. simpl. rewrite <-Hid. apply list_insert_id. by rewrite list_lookup_fmap, Hi.
  - by apply Forall_insert.
  - apply Forall_lookup. intros j y [Hj Hlt]%lookup_take_Some. rewrite Forall_lookup in Hjoined.
    assert (j ≠ i) as Hji.
    { intros ->. apply Hne, (Hjoined i). by apply lookup_take_Some. }
    rewrite list_lookup_insert_ne in Hj by done. apply (Hjoined j). by apply lookup_take_Some.
  - by rewrite list_fmap_insert, (stars_insert _ _ _ _ Hai).
Qed.

Lemma guarded_worker i p :
  guarded p →
  match take_turn pthread_create (S i) p with
  | Turns q => guarded q
  | Waits | Races => True
  | _ => False
  end.
Proof using.
  intros (ph & pts & peers & o & w & -> & Hg). set (p := main_at ph (pt_entry <$> pts) o w).
  assert (pr_threads p !! S i = pt_entry <$> pts !! i) as Hp by (simpl; apply list_lookup_fmap).
  destruct (pts !! i) as [pt|] eqn:Hi; [|unfold take_turn; by rewrite Hp].
  assert (secure h False (pt_thread pt) (pt_assn pt)) as Hsec
    by exact (Forall_lookup_1 _ _ _ _ (guarding_secure _ _ _ _ Hg) Hi).
  change (pr_threads p !! S i = Some (pt_id pt, pt_thread pt)) in Hp.
  destruct (pt_thread pt) as [|r A m k|ch k|id k] eqn:Hth; [unfold take_turn; by rewrite Hp| |by destruct Hsec..].
  pose proof (guarding_memory _ _ _ _ Hg) as Hb.
  assert ((pt_assn <$> pts) !! i = Some (pt_assn pt)) as Hai by by rewrite list_lookup_fmap, Hi.
  rewrite (stars_lookup _ _ _ Hai), <-star_assoc, (star_comm (owns _ _)), star_assoc in Hb.
  destruct (decide (r = Entering)) as [->|Hr].
  { destruct (take_turn_enter pthread_create (S i) p (pt_id pt) m k Hp) as [->|[-> _]]; [|done].
    exists ph, (<[i := mk_part (pt_id pt) (Act Inside m k) (pt_assn pt)]> pts), peers, o, w. split.
    - unfold in_phase. simpl. by rewrite list_fmap_insert.
    - eapply guarding_insert; [done|done|by rewrite Hth|exact Hsec|].
      by rewrite <-star_assoc, (star_comm (owns _ _)), star_assoc. }
  rewrite (take_turn_outside pthread_create (S i) p (pt_id pt) r m k Hp Hr). cbn [p pr_world in_phase].
  pose proof (secure_step h False r m k _ _ (mk_frame h socks [] peers) _ Hsec (reflexivity h) eq_refl Hb) as Hstep.
  destruct (m w) as [[o' [x|code]] w'| | |]; [|done..].
  destruct Hstep as (P' & n & Hb' & Hx).
  exists ph, (<[i := mk_part (pt_id pt) (k x) P']> pts), (drop n peers), (o ++ o'), w'. split.
  - unfold in_phase. by rewrite list_fmap_insert.
  - eapply guarding_insert; [done|done|by rewrite Hth|done|].
    by rewrite <-star_assoc, (star_comm (owns _ _)), star_assoc.
Qed.

Context (Hids : threads_created pthread_create 0 (length ids) ids) (Hnodup : NoDup (self :: ids)).
Context (Hrange : Forall (λ id, 0 ≤ id < 2 ^ 64) ids).
Context (Hd : points_to h d (Some <$> (text ++ [NUL]) : buffer)).
Context (Hsize : msg_size c = Z.of_nat (length text)).
Context (Hrun : runnable c) (Hstart : 0 ≤ start < 2 ^ 51) (Hend : clock end_).

(** The workers in the next phase: one more when one was created. *)
Definition next_parts (ph : phase) (pts : list part) : list part :=
  pts ++ match ph with Creating _ id _ => [mk_part id (child c d) emp] | _ => [] end.

Lemma next_part_entries ph pts : pt_entry <$> next_parts ph pts = (pt_entry <$> pts) ++ spawned c d ph.
Proof using. unfold next_parts. rewrite fmap_app. by destruct ph. Qed.

Lemma guarding_next ph pts peers w w' :
  guarding ph pts peers w → found_ended ph (pt_entry <$> pts) →
  beside (owns t (inject (cells ids (phase_stored (next ph)))) ∗ stars (pt_assn <$> pts))
    (mk_frame h socks [] peers) w' →
  guarding (next ph) (next_parts ph pts) peers w'.
Proof using Hd Hsize Hrun.
  intros [Heq Hid Hsec Hjoined _] Hfound Hb. constructor.
  - by apply next_phase_ids.
  - rewrite <-parts_ids, next_part_entries, fmap_app, parts_ids, Hid.
    symmetry. by apply (next_phase_created c ids d).
  - apply Forall_app. split; [done|]. destruct ph; [constructor; [|done]|done..].
    destruct Hrun. apply (worker_thread_secure c d text h Hd Hsize); [lia|lia|done].
  - unfold next_parts. destruct ph as [ids1 id ids2|ids1 id [|id' ids2]|ids1 [|id ids2]|ids1 id ids2|ids1 id ids2];
      rewrite ?app_nil_r; simpl in *; rewrite ?take_0; try done.
    + rewrite list_lookup_fmap in Hfound. destruct (pts !! length ids1) as [pt|] eqn:Hpt; [|done].
      rewrite (take_S_r _ _ _ Hpt). apply Forall_app. split; [done|]. constructor; [|done].
      by injection Hfound.
    + by rewrite length_app, Nat.add_1_r.
  - unfold next_parts. rewrite fmap_app, stars_app. destruct ph; simpl; by rewrite ?star_emp.
Qed.

(** The end of [main] is not undefined, whatever the workers left behind. *)
Lemma main_finishes ph pts peers w :
  guarding ph pts peers w →
  ends_in (λ _ _, False) ((code ← main_end end_ c start (Some d) (Some t); exit (A := unit) code) w).
Proof using Hd Hrun Hstart Hend.
  intros Hg. pose proof (guarding_memory _ _ _ _ Hg) as Hb.
  assert (w = at_peers (w_heap w) (w_socks w) (w_peers w)) as Hw.
  { destruct Hb as [Hms Hsys _ _], w. unfold at_peers. simpl in *. by subst. }
  apply beside_owns in Hb as [Ht Hb]. pose proof (beside_frame _ _ _ Hb) as Hsub.
  pose proof (lookup_weaken _ _ _ _ Hd Hsub) as Hdw. simpl in Hdw. apply lookup_delete_Some in Hdw as [Hne Hdw].
  rewrite Hw. apply ends_in_bind. eapply ends_in_mono; [by eapply main_end_ends|done].
Qed.

(** In the last phase all workers have ended. *)
Lemma guarding_last ids1 pts peers w :
  guarding (Reading ids1 []) pts peers w → Forall (λ pt, pt_thread pt = Ended) pts.
Proof using.
  intros [Heq Hid _ Hjoined _]. simpl in *. rewrite app_nil_r in Heq, Hid.
  by rewrite take_ge in Hjoined by (by rewrite <-(length_fmap pt_id pts), Hid, Heq).
Qed.

Lemma guarded_main p :
  guarded p →
  match take_turn pthread_create 0 p with
  | Turns q => guarded q
  | Ends _ _ _ => Forall (λ '(_, th), th = Ended) (tail (pr_threads p))
  | Waits => True
  | _ => False
  end.
Proof using Hids Hnodup Hrange Hd Hsize Hrun Hstart Hend.
  intros (ph & pts & peers & o & w & -> & Hg). destruct (decide (last_phase ph)) as [Hlast|Hlast].
  - destruct ph as [| |ids1 []| |]; try done. pose proof (guarding_last _ _ _ _ Hg) as Hended.
    pose proof (main_finishes _ _ _ _ Hg) as Hf.
    assert (Forall (λ '(_, th), th = Ended) (pt_entry <$> pts)) as Hall.
    { apply Forall_fmap. by eapply Forall_impl. }
    pose proof (take_turn_ends_in pthread_create 0 (main_at (Reading ids1 []) (pt_entry <$> pts) o w)
      self _ _ eq_refl Hf) as Hturn. by destruct (take_turn _ _ _).
  - destruct (main_turn pthread_create end_ self c start ids d t Hids Hnodup Hrange ph (pt_entry <$> pts)
      (stars (pt_assn <$> pts)) (mk_frame h socks [] peers) o w) as [(w' & -> & Hb & Hfound)|[-> _]];
      [apply Hg|rewrite parts_ids; apply Hg|done|apply Hg| |done].
    exists (next ph), (next_parts ph pts), peers, o, w'. rewrite next_part_entries.
    split; [done|]. by eapply guarding_next.
Qed.
End run.

(** ** Theorems *)

Section benchmark.
Context (rand : nat → Z) (pthread_create : nat → option Z) (start end_ : Z * Z) (args : list string).
Context (c : config) (self : Z) (ids : list Z) (h : heap) (socks : gmap Z sock) (peers : list sock).
Context (Hargs : described args init_config = c) (Hrun : runnable c).
Context (Hstart : clock start) (Hend : clock end_).
Context (Hids : threads_created pthread_create 0 (Z.to_nat (clients c)) ids) (Hnodup : NoDup (self :: ids)).
Context (Hrange : Forall (λ id, 0 ≤ id < 2 ^ 64) ids).

Abbreviation text := (random_text rand (Z.to_nat (msg_size c))).
Abbreviation first_process := (benchmark_process rand start end_ args self (at_peers h socks peers)).

(** The process at the beginning, or once the message and the table are allocated. *)
Definition benchmark_state (p : process) : Prop :=
  p = first_process ∨
  ∃ d t, guarded end_ self c (milliseconds start) ids d t
    (<[d := inject (Some <$> (text ++ [NUL]) : buffer)]> h) socks p.

(** What a turn of such a process may be. *)
Definition sound_turn (p : process) (tn : turn) : Prop :=
  match tn with
  | Turns q => benchmark_state q
  | Ends _ _ _ => Forall (λ '(_, th), th = Ended) (tail (pr_threads p))
  | Waits | Races => True
  | Crashes _ | Hangs => False
  end.

Lemma first_turn i : sound_turn first_process (take_turn pthread_create i first_process).
Proof using Hargs Hrun Hstart Hids Hnodup Hrange.
  destruct i as [|i]; [|done].
  pose proof (main_begin_ends rand start args c h socks peers Hargs Hrun Hstart) as Hm. cbv zeta in Hm.
  unfold take_turn. cbn [benchmark_process pr_threads lookup list_lookup main_thread pr_world].
  destruct (main_begin _ _ _ _) as [[o [[[[c' ms] message] threads]|code]] w| | |];
    [|by constructor|done..].
  destruct Hm as (d & t & -> & -> & -> & -> & Ht & ->). right. exists d, t.
  assert (Z.to_nat (clients c) = length ids) as Hn by (symmetry; apply Hids).
  destruct Hrun as [Hcl _ _ _]. destruct ids as [|id ids'] eqn:Hi; [simpl in Hn; lia|].
  exists (Creating [] id ids'), [], (tail peers), ([] ++ o). eexists. split.
  - unfold in_phase. simpl. by rewrite Hn.
  - constructor; try done. apply beside_owns. cbn [w_heap at_peers set_heap phase_stored]. split.
    + rewrite lookup_insert_eq. do 2 f_equal. unfold cells, uninit. simpl app.
      replace (Z.to_nat _) with (8 * (length (id :: ids') - length (@nil Z)))%nat; [done|simpl in *; lia].
    + rewrite delete_insert_id by done. by apply beside_emp.
Qed.

Lemma every_turn i p : benchmark_state p → sound_turn p (take_turn pthread_create i p).
Proof using All.
  intros [->|(d & t & Hg)]; [apply first_turn|].
  assert (Z.to_nat (clients c) = length ids) as Hn by (symmetry; apply Hids).
  destruct (mstime_returns start (at_peers h socks []) Hstart) as [_ Hms].
  assert (msg_size c = Z.of_nat (length text)) as Hsize.
  { rewrite length_random_text. destruct Hrun as [_ _ _ ?]. lia. }
  unfold sound_turn. destruct i as [|i].
  - pose proof (guarded_main pthread_create end_ self c (milliseconds start) ids d t text
      (<[d := inject (Some <$> (text ++ [NUL]) : buffer)]> h) socks) as Hmain.
    specialize (Hmain ltac:(by rewrite <-Hn) Hnodup Hrange (lookup_insert_eq _ _ _) Hsize Hrun Hms Hend p Hg).
    destruct (take_turn _ _ _); try done. right. eauto.
  - pose proof (guarded_worker pthread_create end_ self c (milliseconds start) ids d t _ socks i p Hg) as Hw.
    destruct (take_turn _ _ _); try done. right. eauto.
Qed.

Lemma benchmark_states q : rtc (turns pthread_create) first_process q → benchmark_state q.
Proof using All.
  intros Hq. assert (benchmark_state first_process) as H0 by by left. revert H0.
  induction Hq as [p|p p' q [i Hi] Hq IH]; intros Hp; [done|]. apply IH.
  pose proof (every_turn i p Hp) as Ht. by rewrite Hi in Ht.
Qed.

End benchmark.

(** C17: the benchmark with servers that do anything at all, when memory and system calls do not
    fail and the configuration is runnable (the size of a message is not negative and the
    statistics do not overflow): whatever the bytes are that the servers send, in whatever pieces,
    whenever they stop, and under every schedule, no thread of the process is ever undefined by
    itself, and the process ends only when all the workers have ended; it does not race unless
    several workers connect to a host by its name. *)
Theorem benchmark_never_undefined rand pthread_create start end_ args c self ids h socks peers q i :
  described args init_config = c → runnable c → clock start → clock end_ →
  threads_created pthread_create 0 (Z.to_nat (clients c)) ids → NoDup (self :: ids) →
  Forall (λ id, 0 ≤ id < 2 ^ 64) ids →
  rtc (turns pthread_create)
    (benchmark_process rand start end_ args self (at_peers h socks peers)) q →
  match take_turn pthread_create i q with
  | Crashes _ | Hangs => False
  | Races => racy c
  | Ends _ _ _ => Forall (λ '(_, th), th = Ended) (tail (pr_threads q))
  | Turns _ | Waits => True
  end.
Proof.
  intros Hargs Hrun Hstart Hend Hids Hnodup Hrange Hq.
  pose proof (benchmark_races rand pthread_create start end_ args c self (at_peers h socks peers) q i
    Hargs Hq) as Hrace.
  assert (benchmark_state rand start end_ args c self ids h socks peers q) as Hs
    by (by eapply benchmark_states).
  pose proof (every_turn rand pthread_create start end_ args c self ids h socks peers
    Hargs Hrun Hstart Hend Hids Hnodup Hrange i q Hs) as Ht.
  destruct (take_turn _ _ _); try done. by apply Hrace.
Qed.

(** A server that refuses the first push of one worker and sends the other nothing but noise. *)
Definition rough_peers : list sock :=
  let peer rx := mk_sock rx [] [] in
  [ peer (accepts [Auth [] []] ++ answers (QueueExist []) 0 ++ accepts [QueueCreate [] 0 0 0]);
    peer (accepts [Auth [] []; QueueDeclare []] ++ [RdData (response_header_bytes
      (mk_response_header EMQ_PROTOCOL_RES EMQ_PROTOCOL_CMD_QUEUE_PUSH EMQ_PROTOCOL_STATUS_ERROR_MEMORY 0))]);
    peer [RdData (replicate 100 Byte.xff)] ].

(** [main] creates the two workers; the first pushes in vain; the second goes on for a while. *)
Definition rough_output : list printed :=
  [mk_printed (ln "Starting benchmarking...") [];
   mk_printed (ln "Error push message to the queue: %s") [AStr (str "Memory error")]].
Definition rough_schedule : list nat :=
  replicate 5 0%nat ++ replicate 10 1%nat ++ replicate 7 2%nat.
Definition rough_create (i : nat) : option Z := Some (Z.of_nat i + 1).
Definition rough_process (args : list string) : process :=
  benchmark_process (λ i, Z.of_nat i) (10, 0) (12, 500000) args 0 (at_peers ∅ ∅ rough_peers).

Lemma benchmark_never_undefined_witness :
  ¬ racy address_config ∧
  ∃ q, follow rough_create rough_schedule (rough_process address_args) = Some q ∧
    pr_output q = rough_output ∧
    match take_turn rough_create 2 q with
    | Crashes _ | Hangs => False
    | Races => racy address_config
    | Ends _ _ _ => Forall (λ '(_, th), th = Ended) (tail (pr_threads q))
    | Turns _ | Waits => True
    end.
Proof.
  split; [apply (bool_decide_unpack _); by vm_compute|].
  assert (pr_output <$> follow rough_create rough_schedule (rough_process address_args) =
    Some rough_output) as Hout.
  { vm_compute. reflexivity. }
  destruct (follow rough_create rough_schedule _) as [q|] eqn:Hq; [|discriminate Hout].
  exists q. split; [done|]. split; [by injection Hout|].
  apply follow_turns in Hq. clear Hout.
  eapply (benchmark_never_undefined (λ i, Z.of_nat i) rough_create (10, 0) (12, 500000) address_args
    address_config 0 [1; 2] ∅ ∅ rough_peers).
  - reflexivity.
  - constructor; by vm_compute.
  - by vm_compute.
  - by vm_compute.
  - split; [reflexivity|]. by intros [|[|j]] id [= <-].
  - apply (bool_decide_unpack _). by vm_compute.
  - by repeat constructor.
  - exact Hq.
Defined.
