(* ===== verification/Together.v ===== *)
(** The subscribing programs of [src/src/examples/] with their workers as threads: [main] creates
    them and processes the events of its subscription while they send messages. With a server that
    delivers whole messages to [main], and that does anything at all to the workers, no thread is
    ever undefined by itself, under any schedule; the queue program does not race, and the two workers
    of the channel program may only in [gethostbyname].

    Every call of a program is a turn, but [emq_process] takes one for each event. *)

From stdpp Require Import relations.
From S2P Require Import Prelude Types Machine Lists Network Protocol Client Session Packet Commands.
From S2P Require Import Messages Queries Listings Subscriptions Kept Process Connection Sample Program.
From S2P Require Import Specified Pool Simple Subscribers Served Schedule.

(** ** The threads *)

(** A call whose status is reported. *)
Definition step_checked (text : string) (m : M Z) (k : thread) : thread :=
  Step (lift m) (λ status, Step (CHECK_STATUS text status) (λ _, k)).

Fixpoint step_times (n : nat) (body : thread → thread) (k : thread) : thread :=
  match n with O => k | S n => body (step_times n body k) end.

Definition queue_worker_thread (client msg : ptr) (k : thread) : thread :=
  Step (say worker_line) (λ _,
  step_checked "[Worker] Auth" (emq_auth client (str "eagle") (str "eagle")) (
  step_checked "[Worker] Queue declare" (emq_queue_declare client queue_test) (
  step_times (Z.to_nat MESSAGES)
    (step_checked "[Worker] Queue push" (emq_queue_push client queue_test msg)) k))).

Definition channel_worker_thread (client msg : ptr) (k : thread) : thread :=
  Step (say worker_line) (λ _,
  step_checked "[Worker] Auth" (emq_auth client (str "eagle") (str "eagle")) (
  step_times (Z.to_nat (MESSAGES / 2)) (λ k,
    step_checked "[Worker] Channel publish"
      (emq_channel_publish client channel_test (str "world.russia.moscow") msg) (
    step_checked "[Worker] Channel publish"
      (emq_channel_publish client channel_test (str "world.belarus.minsk") msg) k)) k)).

(** [worker] of both programs. *)
Definition subscriber_worker (test_message : loc) (session : ptr → ptr → thread → thread) : thread :=
  Act (resolution ADDR) (lift (emq_tcp_connect ADDR EMQ_DEFAULT_PORT)) (λ client,
  Step (lift (emq_msg_create (Some test_message) (strlenz (str TEST_MESSAGE)) EMQ_ZEROCOPY_ON)) (λ msg,
  match client with
  | Some _ =>
      session client msg (
      Step (lift (emq_disconnect client)) (λ _,
      Step (lift (emq_msg_release msg)) (λ _, Ended)))
  | None =>
      Step (say unconnected_line) (λ _,
      Step (lift (emq_msg_release msg)) (λ _, Ended))
  end)).

(** [init_worker] *)
Definition start_worker (worker k : thread) : thread :=
  Create worker (λ id,
  match id with
  | Some _ => k
  | None => Step (printf (RED (ln "Error create thread")) []) (λ _, Step (exit (A := unit) (-1)) (λ _, Ended))
  end).

Section main.
Context (stdout message_counter : loc) (worker : thread).

(** [emq_process], cut between its events: a turn clears the error, every other one is an iteration
    of the loop, with the callback that it runs. What the callbacks print is in the buffer of
    [stdout] until the function returns ([printing]). *)
Fixpoint process_events (fuel : nat) (client : ptr) (k : Z → thread) : thread :=
  match fuel with
  | O => Step (lift out_of_fuel) (λ _ : unit, Ended)
  | S fuel =>
      Step (lift (process_one (callbacks stdout message_counter) client)) (λ r,
      match r with
      | Some status => k status
      | None => process_events fuel client k
      end)
  end.

(** The fuel, as in [run_process]. *)
Definition process_starts (client : ptr) : M nat :=
  λ w, (EMQ_CLEAR_ERROR client;; mret (S (pending_bytes client w))) w.

Definition process_thread (client : ptr) (k : Z → thread) : thread :=
  Step (lift (process_starts client)) (λ fuel,
  process_events fuel client (λ status,
  Step (printing stdout (mret status)) k)).

Definition queue_main_thread (client : ptr) (k : thread) : thread :=
  step_checked "Auth" (emq_auth client (str "eagle") (str "eagle")) (
  step_checked "Queue create" (emq_queue_create client queue_test 10 100
    (Z.lor EMQ_QUEUE_FORCE_PUSH EMQ_QUEUE_AUTODELETE)) (
  step_checked "Queue declare" (emq_queue_declare client queue_test) (
  step_checked "Queue subscribe"
    (emq_queue_subscribe client queue_test EMQ_QUEUE_SUBSCRIBE_MSG (Some 0%nat)) (
  start_worker worker (
  process_thread client (λ status,
  Step (CHECK_STATUS "Queue process" status) (λ _, k))))))).

Definition channel_main_thread (client : ptr) (k : thread) : thread :=
  step_checked "Auth" (emq_auth client (str "eagle") (str "eagle")) (
  step_checked "Channel create" (emq_channel_create client channel_test
    (Z.lor EMQ_CHANNEL_AUTODELETE EMQ_CHANNEL_ROUND_ROBIN)) (
  step_checked "Channel psubscribe"
    (emq_channel_psubscribe client channel_test belarus (Some 1%nat)) (
  start_worker worker (
  start_worker worker (
  process_thread client (λ status,
  Step (CHECK_STATUS "Channel process" status) (λ _, k))))))).
End main.

(** [main] of both programs, which returns and so ends the process, once it is connected. *)
Definition connected_main (session : ptr → thread → thread) (client : ptr) : thread :=
  Step (printf_all banner) (λ _,
  match client with
  | Some _ =>
      Step (say connected_line) (λ _,
      session client (
      Step (lift (emq_disconnect client)) (λ _, Step (exit (A := unit) 0) (λ _, Ended))))
  | None => Step (say unconnected_line) (λ _, Step (exit (A := unit) 0) (λ _, Ended))
  end).

Definition subscriber_thread (session : ptr → thread → thread) : thread :=
  Act (resolution ADDR) (lift (emq_tcp_connect ADDR EMQ_DEFAULT_PORT)) (connected_main session).

(** ** The threads as programs *)

Lemma step_checked_alone text m k w :
  alone (step_checked text m k) w = (checked text m;; alone k) w.
Proof.
  unfold checked. rewrite prog_assoc. by do 2 (apply prog_bind_ext; intros ? ?).
Qed.

Lemma step_times_alone n body (m : Prog unit) k w :
  (∀ k w, alone (body k) w = (m;; alone k) w) →
  alone (step_times n body k) w = (Nat.iter n (λ k, m;; k) (mret tt);; alone k) w.
Proof.
  intros Hbody. revert w. induction n as [|n IH]; intros w; simpl; [by rewrite prog_ret_l|].
  rewrite Hbody, prog_assoc. apply prog_bind_ext. intros _ w1. apply IH.
Qed.

(** Run by themselves, the threads of the workers are the programs [worker]. *)
Lemma queue_worker_alone client msg k w :
  alone (queue_worker_thread client msg k) w = (queue_worker_session client msg;; alone k) w.
Proof.
  unfold queue_worker_thread, queue_worker_session. cbn [alone].
  rewrite prog_assoc. apply prog_bind_ext. intros _ w1.
  do 2 (rewrite step_checked_alone, prog_assoc; apply prog_bind_ext; intros _ ?).
  apply step_times_alone. intros. apply step_checked_alone.
Qed.

Lemma channel_worker_alone client msg k w :
  alone (channel_worker_thread client msg k) w = (channel_worker_session client msg;; alone k) w.
Proof.
  unfold channel_worker_thread, channel_worker_session. cbn [alone].
  rewrite prog_assoc. apply prog_bind_ext. intros _ w1.
  rewrite step_checked_alone, prog_assoc. apply prog_bind_ext. intros _ w2.
  apply step_times_alone. intros k' w3. rewrite step_checked_alone, prog_assoc.
  apply prog_bind_ext. intros _ w4. apply step_checked_alone.
Qed.

Lemma subscriber_worker_alone d thread session w :
  (∀ client msg k w, alone (thread client msg k) w = (session client msg;; alone k) w) →
  alone (subscriber_worker d thread) w = worker d session w.
Proof.
  intros Hs. unfold subscriber_worker, worker. cbn [alone].
  apply prog_bind_ext. intros client w1. apply prog_bind_ext. intros msg w2.
  destruct client as [l|].
  - rewrite Hs. apply prog_bind_ext. intros _ w3. cbn [alone]. apply prog_bind_ext. intros _ w4.
    by apply prog_ret_r; intros [] ?.
  - cbn [alone]. apply prog_bind_ext. intros _ w4. by apply prog_ret_r; intros [] ?.
Qed.

(** What a thread does, when nothing else runs, until the end of the process; its calls of
    [pthread_create] return [rs]. *)
Fixpoint creating (rs : list (option Z)) (th : thread) : Prog unit :=
  match th with
  | Ended => mret tt
  | Act _ m k => x ← m; creating rs (k x)
  | Create _ k =>
      match rs with r :: rs => creating rs (k r) | [] => lift out_of_fuel end
  | Join _ _ => lift out_of_fuel
  end.

(** The result of [pthread_create], [failed] being an error number. *)
Definition create_result (failed : Z) (r : option Z) : Z := match r with Some _ => 0 | None => failed end.

Lemma step_checked_creating rs text m k w :
  creating rs (step_checked text m k) w = (checked text m;; creating rs k) w.
Proof. unfold checked. rewrite prog_assoc. by do 2 (apply prog_bind_ext; intros ? ?). Qed.

Lemma start_worker_creating e r rs worker k w :
  e ≠ 0 → creating (r :: rs) (start_worker worker k) w = (init_worker (create_result e r);; creating rs k) w.
Proof.
  intros He. unfold init_worker. destruct r as [id|]; simpl.
  - by rewrite prog_ret_l.
  - rewrite decide_False by done. rewrite prog_assoc. apply prog_bind_ext. intros _ w1. done.
Qed.

Lemma lift_bind_eq {A B C} (m : M A) (g : A → M B) (k : B → Prog C) w :
  (lift (m ≫= g) ≫= k) w = (lift m ≫= λ x, lift (g x) ≫= k) w.
Proof.
  unfold mbind, Prog_bind, lift, mbind, M_bind, mret, M_ret. destruct (m w) as [x w1| | |]; [|done..].
  destruct (g x w1) as [y w2| | |]; [|done..]. by destruct (k y w2) as [[o r] w3| | |].
Qed.

Lemma process_events_creating rs out c fuel client k w :
  creating rs (process_events out c fuel client k) w =
    (lift (process_loop (callbacks out c) fuel client) ≫= λ status, creating rs (k status)) w.
Proof.
  revert w. induction fuel as [|fuel IH]; intros w; [done|].
  cbn [process_events process_loop creating]. rewrite lift_bind_eq.
  apply prog_bind_ext. intros [status|] w1; [|apply IH]. symmetry. apply (prog_ret_l status).
Qed.

Lemma process_events_printing rs out c fuel client k w :
  creating rs (process_events out c fuel client (λ status, Step (printing out (mret status)) k)) w =
    (printing out (process_loop (callbacks out c) fuel client) ≫= λ status, creating rs (k status)) w.
Proof.
  rewrite process_events_creating. cbn [creating].
  unfold printing, lift, mbind, Prog_bind, mbind, M_bind, mret, M_ret.
  destruct (process_loop _ fuel client w) as [status w2| | |]; [|done..].
  destruct (load (Some out) w2) as [o w3| | |]; [|done..].
  destruct (store (Some out) (mk_stream []) w3) as [[] w4| | |]; [|done..].
  by destruct (creating rs (k status) w4) as [[o' r] w5| | |].
Qed.

(** Cut between its events, [emq_process] is what it was. *)
Lemma process_thread_creating rs out c client k w :
  creating rs (process_thread out c client k) w =
    (printing out (run_process (callbacks out c) client) ≫= λ status, creating rs (k status)) w.
Proof.
  unfold process_thread. cbn [creating]. destruct (EMQ_CLEAR_ERROR client w) as [[] w1| | |] eqn:Hw.
  { rewrite (lift_step _ _ (S (pending_bytes client w)) _ w1)
      by (unfold process_starts, mbind, M_bind; by rewrite Hw).
    rewrite process_events_printing.
    unfold printing, run_process, emq_process, mbind, Prog_bind, mbind, M_bind. by rewrite Hw. }
  all: (unfold process_starts, printing, run_process, emq_process, lift, mbind, Prog_bind, mbind, M_bind;
    by rewrite Hw).
Qed.

(** [main], with given results of [pthread_create], is the program [subscriber_main]. *)
Lemma queue_main_creating e r out c worker client k w :
  e ≠ 0 →
  creating [r] (Step (say connected_line) (λ _, queue_main_thread out c worker client k)) w =
    (queue_session out c (create_result e r) client;; creating [] k) w.
Proof.
  intros He. unfold queue_main_thread, queue_session. cbn [creating].
  rewrite prog_assoc. apply prog_bind_ext. intros _ w1.
  do 4 (rewrite step_checked_creating, prog_assoc; apply prog_bind_ext; intros _ ?).
  rewrite (start_worker_creating e), prog_assoc by done. apply prog_bind_ext. intros _ ?.
  rewrite process_thread_creating, prog_assoc. apply prog_bind_ext. done.
Qed.

Lemma channel_main_creating e r1 r2 out c worker client k w :
  e ≠ 0 →
  creating [r1; r2] (Step (say connected_line) (λ _, channel_main_thread out c worker client k)) w =
    (channel_session out c (create_result e r1) (create_result e r2) client;; creating [] k) w.
Proof.
  intros He. unfold channel_main_thread, channel_session. cbn [creating].
  rewrite prog_assoc. apply prog_bind_ext. intros _ w1.
  do 3 (rewrite step_checked_creating, prog_assoc; apply prog_bind_ext; intros _ ?).
  do 2 (rewrite (start_worker_creating e), prog_assoc by done; apply prog_bind_ext; intros _ ?).
  rewrite process_thread_creating, prog_assoc. apply prog_bind_ext. done.
Qed.

Lemma subscriber_thread_creating rs thread session w :
  (∀ client k w, creating rs (Step (say connected_line) (λ _, thread client k)) w =
    (session client;; creating [] k) w) →
  creating rs (subscriber_thread thread) w =
    (code ← subscriber_main session; exit code) w.
Proof.
  intros Hs. unfold subscriber_thread, connected_main, subscriber_main. cbn [creating]. rewrite prog_assoc.
  apply prog_bind_ext. intros [l|] w1.
  - rewrite prog_assoc. apply prog_bind_ext. intros _ w2. rewrite Hs, prog_assoc.
    apply prog_bind_ext. intros _ w3. cbn [creating]. rewrite prog_assoc.
    apply prog_bind_ext. intros _ w4. rewrite prog_ret_l. done.
  - rewrite prog_assoc. apply prog_bind_ext. intros _ w2. cbn [creating]. rewrite prog_assoc.
    apply prog_bind_ext. intros _ w4. by rewrite prog_ret_l.
Qed.

(** ** Their steps are secure *)

Section secure.
Context (shared : heap) (leader : Prop).
Abbreviation secure := (secure shared leader).

Lemma secure_say x k P : Forall terminated x.2 → secure (k tt) P → secure (Step (say x) k) P.
Proof using. apply secure_printf. Qed.

Lemma secure_report text status k P : secure k P → secure (Step (CHECK_STATUS text status) (λ _, k)) P.
Proof using.
  intros Hk. unfold CHECK_STATUS. case_decide; (apply secure_printf; [print_texts|done]).
Qed.

Lemma secure_checked text l s m call k R :
  refines l m (s_command call) → ss_mallocs s = [] →
  (∀ s1, ss_mallocs s1 = [] → secure k (client l s1 ∗ R)) →
  secure (step_checked text m k) (client l s ∗ R).
Proof using.
  intros Hm Hs Hk. eapply secure_refined; [exact Hm|apply (respects_command plentiful)|done| |].
  - apply specified_command.
  - intros status s1 Hs1. by apply secure_report, Hk.
Qed.


(** *** The workers *)

Context (d : loc) (Hd : points_to shared d (Some <$> hello : buffer)).

Lemma hello_msg_at p f f1 :
  shared ⊆ fr_heap f → beside (owns p (inject (hello_msg d)) ∗ emp) f (world_of f1 []) →
  msg_at (fr_heap f1) p (hello_msg d) hello.
Proof using Hd.
  intros Hf Hb. pose proof (beside_frame _ _ _ Hb) as Hsub. apply beside_owns in Hb as [Hp _].
  split; [exact Hp|]. split; [done|]. exists d, []. split; [done|]. rewrite app_nil_r.
  exact (lookup_weaken _ _ _ _ (lookup_weaken _ _ _ _ Hd Hf) Hsub).
Qed.

(** A client and the message of its thread. *)
Definition sender (l p : loc) (s : session) : assn := client l s ∗ owns p (inject (hello_msg d)) ∗ emp.

Lemma secure_delivered text m call l p s k :
  push_call call (Z.of_nat (length hello)) = Some m → ss_mallocs s = [] →
  (∀ s1, ss_mallocs s1 = [] → secure k (sender l p s1)) →
  secure (step_checked text (m (Some l) (Some p)) k) (sender l p s).
Proof using Hd.
  intros Hm Hs Hk. eapply secure_call; [| |exact Hs|apply specified_push|].
  - intros f f1 w Hf Hb Hr.
    apply (sim_push_call call m l p (hello_msg d) hello); [done..|by eapply hello_msg_at|by vm_compute].
  - apply (respects_push plentiful).
  - intros status s1 Hs1 _. by apply secure_report, Hk.
Qed.

Lemma secure_times l p n body k :
  (∀ k s, ss_mallocs s = [] → (∀ s1, ss_mallocs s1 = [] → secure k (sender l p s1)) →
    secure (body k) (sender l p s)) →
  (∀ s, ss_mallocs s = [] → secure k (sender l p s)) →
  ∀ s, ss_mallocs s = [] → secure (step_times n body k) (sender l p s).
Proof using. intros Hbody Hk. induction n as [|n IH]; simpl; auto. Qed.

Lemma secure_queue_worker l p s k :
  ss_mallocs s = [] → (∀ s1, ss_mallocs s1 = [] → secure k (sender l p s1)) →
  secure (queue_worker_thread (Some l) (Some p) k) (sender l p s).
Proof using Hd.
  intros Hs Hk. apply secure_say; [print_texts|].
  apply (secure_checked _ _ _ _ (Auth (str "eagle") (str "eagle"))); [library_call|done|].
  clear s Hs. intros s Hs.
  apply (secure_checked _ _ _ _ (QueueDeclare queue_test)); [library_call|done|].
  clear s Hs. intros s Hs. apply secure_times; [|done|done]. clear s Hs. intros k' s Hs Hk'.
  apply (secure_delivered _ (λ c m, emq_queue_push c queue_test m)
    (QueuePush queue_test (4 + Z.of_nat (length hello)))); [exact eq_refl|done|done].
Qed.

Lemma secure_channel_worker l p s k :
  ss_mallocs s = [] → (∀ s1, ss_mallocs s1 = [] → secure k (sender l p s1)) →
  secure (channel_worker_thread (Some l) (Some p) k) (sender l p s).
Proof using Hd.
  intros Hs Hk. apply secure_say; [print_texts|].
  apply (secure_checked _ _ _ _ (Auth (str "eagle") (str "eagle"))); [library_call|done|].
  clear s Hs. intros s Hs. apply secure_times; [|done|done]. clear s Hs. intros k' s Hs Hk'.
  apply (secure_delivered _ (λ c m, emq_channel_publish c channel_test (str "world.russia.moscow") m)
    (ChannelPublish channel_test (str "world.russia.moscow") (Z.of_nat (length hello))));
    [exact eq_refl|done|]. clear s Hs. intros s Hs.
  apply (secure_delivered _ (λ c m, emq_channel_publish c channel_test (str "world.belarus.minsk") m)
    (ChannelPublish channel_test (str "world.belarus.minsk") (Z.of_nat (length hello))));
    [exact eq_refl|done|done].
Qed.

Lemma secure_subscriber_worker session :
  (∀ l p s k, ss_mallocs s = [] → (∀ s1, ss_mallocs s1 = [] → secure k (sender l p s1)) →
    secure (session (Some l) (Some p) k) (sender l p s)) →
  secure (subscriber_worker d session) emp.
Proof using.
  intros Hsession. eapply secure_opens; [apply opens_tcp_connect|]. intros l sk.
  eapply secure_triple; [apply triple_msg_create|intros [p|] (? & ? & Hp); [clear Hp|done]].
  simpl. rewrite <-star_assoc, (star_comm _ (client l _)), star_assoc.
  apply Hsession; [done|]. intros s Hs.
  eapply secure_triple; [apply triple_disconnect|intros [] _].
  by eapply secure_triple; [apply (triple_msg_release p d)|intros [] _].
Qed.
End secure.

(** *** [main] *)

Section main.
Context (shared : heap) (out c : loc).
Abbreviation secure := (secure shared True).

(** The counter and the output, which the callbacks of [main] use alone, and what else it owns. *)
Definition statics (u : tally) (R : assn) : assn :=
  owns out (inject (mk_stream u.2)) ∗ owns c (counter_cells u.1) ∗ R.

Lemma statics_counting u R f f1 :
  beside (statics u R) f (world_of f1 []) → counting out c u f1 = f1.
Proof using.
  intros [Ho [Hc _]%beside_owns]%beside_owns. simpl in *. apply lookup_delete_Some in Hc as [_ Hc].
  unfold counting. by rewrite (with_block_id c), (with_block_id out).
Qed.

Lemma statics_counted u u' R f f1 :
  beside (statics u R) f (world_of f1 []) →
  beside (statics u' R) f (world_of (counting out c u' f1) []).
Proof using.
  intros [Ho [Hc HR]%beside_owns]%beside_owns. simpl in *.
  apply lookup_delete_Some in Hc as [Hne Hc].
  apply beside_owns. simpl. split; [by rewrite lookup_insert_eq|].
  apply beside_owns. simpl. split.
  { by rewrite lookup_delete_ne, lookup_insert_ne, lookup_insert_eq by done. }
  unfold set_heap in *. simpl in *.
  rewrite delete_insert_eq, (delete_delete _ c), delete_insert_eq, (delete_delete _ out). exact HR.
Qed.

(** A block that nobody refers to. *)
Lemma statics_leak u R f f1 b o :
  fr_heap f1 !! b = None → beside (statics u R) f (world_of f1 []) →
  beside (statics u (owns b o ∗ R)) f (world_of (set_fr_heap (<[b := o]> (fr_heap f1)) f1) []).
Proof using.
  intros Hb HR. assert (statics u (owns b o ∗ R) ≡ owns b o ∗ statics u R) as ->.
  { unfold statics.
    by rewrite <-(star_assoc _ (owns b o)), (star_comm _ (owns b o)), star_assoc,
      <-(star_assoc (owns out _) (owns b o)), (star_comm (owns out _)), star_assoc. }
  apply beside_owns. simpl. rewrite lookup_insert_eq. split; [done|].
  unfold set_heap, world_of. simpl. by rewrite delete_insert_id.
Qed.

Lemma secure_exit {A} code k P : secure (Step (exit (A := A) code) k) P.
Proof using. by intros f w _ _ _. Qed.

(** A command, one of whose replies is to come. *)
Lemma secure_awaited Q text l s m call n k R :
  refines l m (s_command call) → is_Some (encode 0 call) →
  ss_mallocs s = [] → awaiting Q (S n) [] [] s →
  (∀ s1, ss_mallocs s1 = [] → awaiting Q n [] [] s1 → secure k (client l s1 ∗ R)) →
  secure (step_checked text m k) (client l s ∗ R).
Proof using.
  intros Hm Hcall Hs Hw Hk.
  eapply secure_call; [|apply (respects_command plentiful)|done|by apply (answers_command Q)|].
  - intros f f1 w _ _ Hr. by apply Hm.
  - intros status s1 Hs1 Hw1. by apply secure_report, Hk.
Qed.

(** The subscription, which may leave a block. *)
Lemma secure_subscribe {T} `{Slot T} text l s m call cb (x : T) k R :
  simulates l m (s_subscribe call cb x) register_result →
  respects plentiful (s_subscribe call cb x) →
  answers_with (λ _, listening) (s_subscribe call cb x) s → ss_mallocs s = [] →
  (∀ s1 R', ss_mallocs s1 = [] → listening s1 → secure k (client l s1 ∗ statics (0, []) R')) →
  secure (step_checked text m k) (client l s ∗ statics (0, []) R).
Proof using.
  intros Hm Ha Hl Hs Hk. apply secure_client. intros f f1 w Hf HR Hr.
  pose proof (sim_implements l _ _ _ f1 s w (Hm f1 s w Hr)) as Hi. unfold implements in Hi.
  unfold answers_with in Hl. unfold lift, mbind at 1, M_bind at 1.
  destruct (s_subscribe call cb x s) as [[r lost] s1| |] eqn:Hx; [| |done].
  2: { by destruct Hi as [w' ->]. }
  destruct Hi as (y & f2 & w' & -> & Hr' & -> & Hlost). simpl in Hlost |- *.
  pose proof (Ha _ _ _ Hx Hs) as Hs1. exists s1, f2.
  assert (∃ R', beside (statics (0, []) R') f (world_of f2 [])) as [R' HR'].
  { destruct lost; [|subst f2; by exists R]. destruct Hlost as (b & o & Hb & ->).
    exists (owns b o ∗ R). by apply statics_leak. }
  exists (statics (0, []) R'). split_and!; [done..|]. by apply secure_report, Hk.
Qed.

(** A part of the event loop, which the specification [a] describes. *)
Lemma secure_handled {A} (P : A * tally → session → Prop) l s (m : M A) (a : tally → Spec (A * tally))
    u k R :
  handles (place := counting out c) l m a → (∀ u, respects plentiful (a u)) →
  ss_mallocs s = [] → answers_with P (a u) s →
  (∀ x u' s1, ss_mallocs s1 = [] → P (x, u') s1 → secure (k x) (client l s1 ∗ statics u' R)) →
  secure (Step (lift m) k) (client l s ∗ statics u R).
Proof using.
  intros Hm Ha Hs HP Hk. apply secure_client. intros f f1 w Hf HR Hr.
  pose proof Hr as Hr1. rewrite <-(statics_counting _ _ _ _ HR) in Hr1.
  pose proof (sim_implements l _ _ (λ _, placed _ f1) f1 s w (Hm u f1 s w Hr1)) as Hi.
  unfold implements, answers_with in *. unfold lift, mbind at 1, M_bind at 1.
  destruct (a u s) as [[x u'] s1| |] eqn:Hx; [| |done].
  2: { by destruct Hi as [w' ->]. }
  destruct Hi as (y & f2 & w' & -> & Hr' & -> & ->). simpl.
  pose proof (Ha _ _ _ _ Hx Hs) as Hs1. exists s1, (counting out c u' f1), (statics u' R).
  split_and!; [done|done|by eapply statics_counted|by apply Hk].
Qed.

(** The events, one after the other. *)
Lemma secure_events `{!Callbacks (counting out c) (callbacks out c) s_callbacks} fuel l s u k R :
  ss_mallocs s = [] → specified (s_process_loop s_callbacks fuel u) s →
  (∀ status u s1, ss_mallocs s1 = [] → secure (k status) (client l s1 ∗ statics u R)) →
  secure (process_events out c fuel (Some l) k) (client l s ∗ statics u R).
Proof using.
  intros Hs Hspec Hk. revert s u Hs Hspec. induction fuel as [|fuel IH]; intros s u Hs Hspec; [done|].
  cbn [process_events].
  eapply (secure_handled (λ x s1, match x.1 with None => specified (s_process_loop s_callbacks fuel x.2) s1
    | Some _ => True end)); [apply simulates_process_one| |done| |].
  - intros u'. apply (respects_process_one plentiful).
  - revert Hspec. cbn [s_process_loop]. unfold specified, answers_with, mbind at 1, Spec_bind at 1.
    by destruct (s_process_one s_callbacks u s) as [[[status|] u'] s1| |].
  - intros [status|] u' s1 Hs1; [by auto|]. by apply IH.
Qed.

(** What the callbacks printed is output. *)
Lemma secure_flush {A} (x : A) k u P R :
  secure (k x) (P ∗ statics (u.1, []) R) →
  secure (Step (printing out (mret x)) k) (P ∗ statics u R).
Proof using.
  intros Hk f w _ _ Hw.
  assert (∀ u, P ∗ statics u R ≡ owns out (inject (mk_stream u.2)) ∗ P ∗ owns c (counter_cells u.1) ∗ R) as Heq.
  { intros u'. unfold statics. by rewrite <-!star_assoc, (star_comm P (owns out _)). }
  rewrite Heq in Hw. apply beside_owns in Hw as [Ho Hw].
  unfold printing, mbind, M_bind, load, store, mret, M_ret. rewrite Ho, project_inject, Ho, project_inject.
  exists (P ∗ statics (u.1, []) R), O. rewrite (after_no_peers 0). split; [|done]. rewrite Heq.
  apply beside_owns. simpl. rewrite lookup_insert_eq. split; [done|].
  unfold set_heap in *. simpl. by rewrite delete_insert_eq.
Qed.

(** The event loop. *)
Lemma handles_starts l :
  handles (place := counting out c) l (process_starts (Some l))
    (λ u, n ← s_get (λ s, S (length (ss_rx s))); s_put (set_ss_error "");; mret (n, u)).
Proof using.
  intros u f s w Hr. pose proof (pending_bytes_rep _ _ _ _ Hr) as Hp.
  enough (sim l s (EMQ_CLEAR_ERROR (Some l);; mret (S (length (ss_rx s))))
    (n ← s_get (λ s, S (length (ss_rx s))); s_put (set_ss_error "");; mret (n, u))
    (placed (counting out c) f) w) as Hs.
  { unfold process_starts, sim, wp in *. rewrite Hp. exact Hs. }
  apply sim_get. eapply sim_bind; [by apply refines_clear_error|].
  intros [] [] f1 s1 w1 Hr1 [-> _]. by eapply sim_ret.
Qed.

Lemma secure_process text l s k R :
  out ≠ c → listening s → ss_mallocs s = [] →
  (∀ u s1, ss_mallocs s1 = [] → secure k (client l s1 ∗ statics (u, []) R)) →
  secure (process_thread out c (Some l) (λ status, Step (CHECK_STATUS text status) (λ _, k)))
    (client l s ∗ statics (0, []) R).
Proof using.
  intros Hne Hl Hs Hk. pose proof (counting_contract out c Hne) as Hcontract.
  apply specified_listening in Hl.
  eapply (secure_handled (λ x, specified (s_process_loop s_callbacks x.1 x.2)));
    [apply handles_starts| |done| |].
  - intros u s1 [n u1] s2 Hx. unfold mbind, Spec_bind, s_get, s_put in Hx. unfold mret, Spec_ret in Hx.
    injection Hx as <- <- <-. by intros ?.
  - revert Hl. unfold specified, answers_with, s_printing, s_process, mbind, Spec_bind, s_put, s_get.
    cbn -[s_process_loop].
    by destruct (s_process_loop s_callbacks _ (0, []) (set_ss_error "" s)) as [[]| |].
  - intros n u s1 Hs1 Hspec. apply secure_events; [done..|]. intros status u1 s2 Hs2.
    apply secure_flush, secure_report. by apply Hk.
Qed.

Lemma secure_start_worker worker k P :
  secure worker emp → secure k P → secure (start_worker worker k) P.
Proof using.
  intros Hw Hk. apply secure_create; [done|done|]. intros [id|]; [done|].
  apply secure_printf; [print_texts|]. apply secure_exit.
Qed.

Context (worker : thread) (Hne : out ≠ c) (Hworker : secure worker emp).

Ltac awaited call :=
  match goal with Hs : ss_mallocs ?s = [], Hw : awaiting deliveries _ _ _ ?s |- _ =>
    eapply (secure_awaited deliveries _ _ _ _ call);
      [library_call|by vm_compute; eauto|exact Hs|exact Hw|clear s Hs Hw; intros s Hs Hw]
  end.

Lemma secure_queue_main l s k R :
  ss_mallocs s = [] → awaiting deliveries 4 [] [] s →
  (∀ u s1 R', ss_mallocs s1 = [] → secure k (client l s1 ∗ statics (u, []) R')) →
  secure (queue_main_thread out c worker (Some l) k) (client l s ∗ statics (0, []) R).
Proof using Hne Hworker.
  intros Hs Hw Hk. unfold queue_main_thread.
  awaited (Auth (str "eagle") (str "eagle")).
  awaited (QueueCreate queue_test 10 100 (Z.lor EMQ_QUEUE_FORCE_PUSH EMQ_QUEUE_AUTODELETE)).
  awaited (QueueDeclare queue_test).
  apply (secure_subscribe _ _ _ _ (QueueSubscribe queue_test EMQ_QUEUE_SUBSCRIBE_MSG) (Some 0%nat)
    queue_subscription);
    [apply simulates_queue_subscribe|apply (respects_subscribe plentiful)|
     exact (answers_queue_subscribed _ Hw)|exact Hs|].
  clear s Hs Hw. intros s R' Hs Hw. apply secure_start_worker; [done|].
  apply secure_process; [done..|]. auto.
Qed.

Lemma secure_channel_main l s k R :
  ss_mallocs s = [] → awaiting deliveries 3 [] [] s →
  (∀ u s1 R', ss_mallocs s1 = [] → secure k (client l s1 ∗ statics (u, []) R')) →
  secure (channel_main_thread out c worker (Some l) k) (client l s ∗ statics (0, []) R).
Proof using Hne Hworker.
  intros Hs Hw Hk. unfold channel_main_thread.
  awaited (Auth (str "eagle") (str "eagle")).
  awaited (ChannelCreate channel_test (Z.lor EMQ_CHANNEL_AUTODELETE EMQ_CHANNEL_ROUND_ROBIN)).
  apply (secure_subscribe _ _ _ _ (ChannelPsubscribe channel_test belarus) (Some 1%nat)
    channel_subscription);
    [apply simulates_channel_psubscribe|apply (respects_subscribe plentiful)|
     exact (answers_channel_subscribed _ Hw)|exact Hs|].
  clear s Hs Hw. intros s R' Hs Hw. do 2 (apply secure_start_worker; [done|]).
  apply secure_process; [done..|]. auto.
Qed.

Lemma secure_connected_main session l s R :
  (∀ k, (∀ u s1 R', ss_mallocs s1 = [] → secure k (client l s1 ∗ statics (u, []) R')) →
    secure (session (Some l) k) (client l s ∗ statics (0, []) R)) →
  secure (connected_main session (Some l)) (client l s ∗ statics (0, []) R).
Proof using.
  intros Hsession f w Hf Hsys Hw. exists (client l s ∗ statics (0, []) R), O.
  rewrite (after_no_peers 0). split; [exact Hw|]. apply secure_say; [print_texts|].
  apply Hsession. intros u s1 R' Hs1.
  eapply secure_triple; [apply triple_disconnect|intros [] _]. apply secure_exit.
Qed.
End main.

(** ** The processes *)

Definition subscriber_process (session : ptr → thread → thread) (self : Z) (w : world) : process :=
  mk_process [(self, subscriber_thread session)] 0 [] w.

(** What no turn of a process may be: no thread is undefined by itself. *)
Definition sound (t : turn) : Prop := match t with Crashes _ | Hangs => False | _ => True end.

(** The first turn of a process with a single thread. *)
Lemma sound_first pthread_create id th th' o w w' :
  take_turn pthread_create 0 (mk_process [(id, th)] 0 o w) = Turns (mk_process [(id, th')] 0 o w') →
  (∀ q i, rtc (turns pthread_create) (mk_process [(id, th')] 0 o w') q → sound (take_turn pthread_create i q)) →
  ∀ q i, rtc (turns pthread_create) (mk_process [(id, th)] 0 o w) q → sound (take_turn pthread_create i q).
Proof.
  intros Hfirst Hsound q i Hq. inversion Hq as [|? p ? [j Hj] Hrest]; subst.
  - destruct i as [|i]; [by rewrite Hfirst|done].
  - destruct j as [|j]; [|done]. rewrite Hfirst in Hj. injection Hj as <-. by apply Hsound.
Qed.

(** The literal [TEST_MESSAGE], which the workers share. *)
Definition test_message (d : loc) : heap := {[d := inject (Some <$> hello : buffer)]}.

Section process.
Context (pthread_create : nat → option Z) (out c d : loc) (self : Z).
Context (h : heap) (socks : gmap Z sock) (sk : sock) (peers : list sock).
Context (Hc : h !! c = Some (counter_cells 0)) (Hout : points_to h out (mk_stream [])).
Context (Hd : points_to h d (Some <$> hello : buffer)).

Lemma literal_distinct : d ≠ c ∧ d ≠ out.
Proof using Hc Hout Hd.
  split; intros ->.
  - rewrite Hc in Hd. injection Hd. by vm_compute.
  - rewrite Hout in Hd. discriminate Hd.
Qed.

(** The blocks that [main] and the workers do not own. *)
Definition common : heap := delete c (delete out h).

Lemma test_message_common : test_message d ⊆ common.
Proof using Hc Hout Hd.
  destruct literal_distinct. apply map_singleton_subseteq_l. unfold common.
  by rewrite !lookup_delete_ne.
Qed.

(** [main] enters [gethostbyname] at its first turn and is connected after its second one. *)
Definition entered_main (session : ptr → thread → thread) : thread :=
  Act Inside (lift (emq_tcp_connect ADDR EMQ_DEFAULT_PORT)) (connected_main session).

Lemma main_enters session w :
  take_turn pthread_create 0 (subscriber_process session self w) =
    Turns (mk_process [(self, entered_main session)] 0 [] w).
Proof using. done. Qed.

Lemma main_connects session :
  ∃ l w', take_turn pthread_create 0
      (mk_process [(self, entered_main session)] 0 [] (at_peers h socks (sk :: peers))) =
      Turns (mk_process [(self, connected_main session (Some l))] 0 [] w') ∧
    beside (client l (new_session sk []) ∗ statics out c (0, []) emp)
      (mk_frame common socks [] peers) w'.
Proof using Hc Hout Hd.
  destruct (opens_beside _ _ (mk_frame h socks [] (sk :: peers)) (opens_tcp_connect ADDR EMQ_DEFAULT_PORT) eq_refl)
    as (l & w' & Hw & Hb).
  exists l, w'. split.
  - assert (Inside ≠ Entering) as Hr by done.
    exact (take_turn_act pthread_create 0 (mk_process [(self, entered_main session)] 0 [] _) self Inside
      _ _ [] (Some l) w' eq_refl Hr (lift_returns _ _ _ _ Hw)).
  - apply beside_client in Hb as (f1 & Hr & Hs & Hf1%beside_emp). apply beside_client.
    exists f1. split; [exact Hr|]. split; [done|].
    assert (f1 = mk_frame h socks [] peers) as ->.
    { destruct f1. injection Hf1 as -> -> -> ->. by rewrite drop_0. }
    apply beside_owns. split; [exact Hout|]. apply beside_owns. split.
    { simpl. rewrite lookup_delete_ne; [exact Hc|]. intros ->. rewrite Hc in Hout. discriminate Hout. }
    by apply beside_emp.
Qed.

(** So every state that the process gets into is one of threads that are secure. *)
Lemma subscriber_sound session q i :
  (∀ l, secure (test_message d) True (connected_main session (Some l))
    (client l (new_session sk []) ∗ statics out c (0, []) emp)) →
  rtc (turns pthread_create) (subscriber_process session self (at_peers h socks (sk :: peers))) q →
  sound (take_turn pthread_create i q).
Proof using Hc Hout Hd.
  intros Hsession. destruct (main_connects session) as (l & w' & Hfirst & Hb).
  revert q i. eapply sound_first; [apply main_enters|]. eapply sound_first; [exact Hfirst|].
  intros q i Hq. assert (secured (test_message d) q) as Hsec.
  { eapply secured_turns; [|exact Hq]. constructor.
    exists [client l (new_session sk []) ∗ statics out c (0, []) emp], (mk_frame common socks [] peers).
    split; [constructor; [apply Hsession|constructor]|]. split; [exact test_message_common|]. split; [done|].
    simpl. by rewrite star_emp. }
  pose proof (secured_turn pthread_create _ i q Hsec) as Ht.
  unfold sound. by destruct (take_turn pthread_create i q).
Qed.
End process.

(** ** Races *)

Lemma resolves_step {A} n (m : Prog A) k : (∀ x, resolves n (k x)) → resolves n (Step m k).
Proof. intros Hk. split; [by left|]. auto. Qed.

Lemma resolves_checked n text m k : resolves n k → resolves n (step_checked text m k).
Proof. intros Hk. by do 2 (apply resolves_step; intros ?). Qed.

Lemma resolves_times n i body k :
  (∀ k, resolves n k → resolves n (body k)) → resolves n k → resolves n (step_times i body k).
Proof. intros Hbody Hk. induction i as [|i IH]; simpl; auto. Qed.

Lemma resolves_queue_worker n client msg k : resolves n k → resolves n (queue_worker_thread client msg k).
Proof.
  intros Hk. apply resolves_step. intros _. do 2 apply resolves_checked.
  apply resolves_times; [|done]. intros ?. apply resolves_checked.
Qed.

Lemma resolves_worker d session :
  (∀ client msg k, resolves 1 k → resolves 1 (session client msg k)) → resolves 1 (subscriber_worker d session).
Proof.
  intros Hs. split; [right; lia|]. intros _ _ client _ _. apply resolves_step. intros msg.
  destruct client; [apply Hs|]; by do 2 (apply resolves_step; intros ?).
Qed.

Lemma resolves_start_worker n1 n2 worker k :
  resolves n1 worker → resolves n2 k → resolves (n1 + n2) (start_worker worker k).
Proof.
  intros Hw Hk. exists n1, n2. split; [done|]. split; [done|]. intros [id|]; [done|].
  by do 2 (apply resolves_step; intros ?).
Qed.

Lemma resolves_process n out c client k :
  (∀ status, resolves n (k status)) → resolves n (process_thread out c client k).
Proof.
  intros Hk. apply resolves_step. intros fuel. induction fuel as [|fuel IH]; [by apply resolves_step|].
  apply resolves_step. intros [status|]; [by apply resolves_step|exact IH].
Qed.

Lemma resolves_queue_main out c worker client k :
  resolves 1 worker → resolves 0 k → resolves 1 (queue_main_thread out c worker client k).
Proof.
  intros Hw Hk. unfold queue_main_thread. do 4 apply resolves_checked.
  apply (resolves_start_worker 1 0); [done|]. apply resolves_process. intros status. by apply resolves_step.
Qed.

(** In the queue program a single thread connects at a time. *)
Lemma queue_serial out c d self w :
  serial (subscriber_process (queue_main_thread out c (subscriber_worker d queue_worker_thread)) self w).
Proof.
  exists [1%nat]. split; [constructor; [|done]|done]. split; [right; lia|]. intros _ _ client _ _.
  apply resolves_step. intros _. destruct client as [l|].
  - apply resolves_step. intros _. apply resolves_queue_main.
    + apply resolves_worker. intros. by apply resolves_queue_worker.
    + by do 2 (apply resolves_step; intros ?).
  - by do 2 (apply resolves_step; intros ?).
Qed.

(** C18: the two subscribing programs, [main] and the workers that it creates, under every schedule,
    when memory and system calls do not fail: [main] subscribes and hands the messages to its
    callback, one event of the loop at a turn, while the workers connect, send their messages and
    disconnect. If the server of [main] replies to its commands, with anything, and then sends whole
    messages, then no thread is ever undefined by itself, whatever the servers of the workers do, in
    whatever order the threads run, and whether or not the workers can be created. The queue
    program, which has one worker, does not race either; all that may go wrong in the channel
    program is that its two workers are in [gethostbyname] at the same time. *)
Theorem subscribers_every_schedule pthread_create out c d self h socks sk peers q i :
  h !! c = Some (counter_cells 0) → points_to h out (mk_stream []) →
  points_to h d (Some <$> hello : buffer) →
  let world := at_peers h socks (sk :: peers) in
  (served 4 sk →
    rtc (turns pthread_create) (subscriber_process
      (queue_main_thread out c (subscriber_worker d queue_worker_thread)) self world) q →
    sound (take_turn pthread_create i q) ∧ take_turn pthread_create i q ≠ Races) ∧
  (served 3 sk →
    rtc (turns pthread_create) (subscriber_process
      (channel_main_thread out c (subscriber_worker d channel_worker_thread)) self world) q →
    sound (take_turn pthread_create i q)).
Proof.
  intros Hc Hout Hd world.
  assert (out ≠ c) as Hne by (intros ->; rewrite Hc in Hout; discriminate Hout).
  assert (points_to (test_message d) d (Some <$> hello : buffer)) as Hlit by apply lookup_singleton_eq.
  split; intros Hserved Hq; [split; [|eapply serial_never_races; [apply queue_serial|exact Hq]]|];
    (eapply (subscriber_sound pthread_create out c d self h socks sk peers); [done..| |exact Hq]);
    intros l; apply secure_connected_main; intros k Hk.
  - apply secure_queue_main; [done| |done|by destruct Hserved|done].
    apply (secure_subscriber_worker _ _ d). intros. by apply secure_queue_worker.
  - apply secure_channel_main; [done| |done|by destruct Hserved|done].
    apply (secure_subscriber_worker _ _ d). intros. by apply secure_channel_worker.
Qed.

(** The server of [main] refuses to create the queue, delivers two messages and is gone; that of the
    worker sends nothing but noise. The channel program cannot create its second worker. *)
Definition subscriber_heap : heap :=
  <[3%positive := inject (Some <$> hello : buffer)]>
    (<[2%positive := inject (mk_stream [])]> {[1%positive := counter_cells 0]}).
Definition noise : sock := mk_sock [RdData (replicate 100 Byte.xff)] [] [].
Definition queue_process : process :=
  subscriber_process (queue_main_thread 2%positive 1%positive
    (subscriber_worker 3%positive queue_worker_thread)) 0 (at_peers subscriber_heap ∅ [rough_sock; noise]).
Definition channel_process : process :=
  subscriber_process (channel_main_thread 2%positive 1%positive
    (subscriber_worker 3%positive channel_worker_thread)) 0 (at_peers subscriber_heap ∅ [leaving_sock; noise]).
Definition events_reported (event : line) (o : list printed) : nat :=
  length (filter (λ p, format p = event.1) o).

(** The worker runs before the first event of [main], and between its first and its second. *)
Definition subscriber_schedule : list nat :=
  replicate 13 0%nat ++ replicate 5 1%nat ++ replicate 2 0%nat ++ replicate 5 1%nat ++ replicate 3 0%nat.
Definition one_worker (i : nat) : option Z := match i with O => Some 7 | S _ => None end.

Lemma subscribers_every_schedule_witness :
  (∃ q, follow one_worker subscriber_schedule queue_process = Some q ∧
    events_reported (queue_event_line [] []) (pr_output q) = 2%nat ∧
    sound (take_turn one_worker 1 q) ∧ take_turn one_worker 1 q ≠ Races) ∧
  (∃ q, follow one_worker (replicate 12 0%nat) channel_process = Some q ∧
    length (pr_threads q) = 2%nat ∧ sound (take_turn one_worker 0 q)).
Proof.
  assert (subscriber_heap !! 1%positive = Some (counter_cells 0)) as Hc by (vm_compute; reflexivity).
  assert (points_to subscriber_heap 2%positive (mk_stream [])) as Hout by (vm_compute; reflexivity).
  assert (points_to subscriber_heap 3%positive (Some <$> hello : buffer)) as Hd by (vm_compute; reflexivity).
  split.
  - assert (events_reported (queue_event_line [] []) ∘ pr_output <$>
      follow one_worker subscriber_schedule queue_process = Some 2%nat) as Ho by (vm_compute; reflexivity).
    destruct (follow one_worker _ queue_process) as [q|] eqn:Hq; [|discriminate Ho].
    exists q. split; [done|]. split; [by injection Ho|]. apply follow_turns in Hq. clear Ho.
    exact (proj1 (subscribers_every_schedule one_worker 2%positive 1%positive 3%positive 0 subscriber_heap
      ∅ rough_sock [noise] q 1 Hc Hout Hd) rough_served Hq).
  - assert (length ∘ pr_threads <$> follow one_worker (replicate 12 0%nat) channel_process =
      Some 2%nat) as Ho by (vm_compute; reflexivity).
    destruct (follow one_worker _ channel_process) as [q|] eqn:Hq; [|discriminate Ho].
    exists q. split; [done|]. split; [by injection Ho|]. apply follow_turns in Hq. clear Ho.
    exact (proj2 (subscribers_every_schedule one_worker 2%positive 1%positive 3%positive 0 subscriber_heap
      ∅ leaving_sock [noise] q 0 Hc Hout Hd) leaving_served Hq).
Defined.

(** Fact: the channel program with both of its workers: when [main] has created them, the second
    enters [gethostbyname] while the first is inside. *)
Definition two_workers (i : nat) : option Z := Some (Z.of_nat i + 7).
Theorem channel_workers_may_race :
  races_after two_workers (replicate 12 0 ++ [1])%nat 2 channel_process.
Proof. by vm_compute. Qed.
